(* ===== verification/_CoqProject ===== *)
-Q . S2P
Prelude.v
Endian.v
Buffer.v
Skiplist.v
SkiplistFacts.v
SkiplistSpec.v
Timer.v
SpscRing.v
Events.v
Joins.v
Task.v
Control.v
IoUring.v
IoContext.v
SocketIO.v
BufferPool.v
Tcp.v
Endpoint.v
Logger.v
File.v
Http.v
HttpServer.v
EchoServer.v
Promise.v
LogArgs.v
Threads.v
Awaitables.v
Runtime.v
TimedIo.v
Lifecycle.v
Sockets.v
JoinPromises.v
LoggerThread.v
LoggerRun.v
LoopTasks.v
ManualLifetime.v
