(* ===== verification/Prelude.v ===== *)
(** * Verification of libcoring

    libcoring is a C++20 coroutine library over io_uring: header files under
    src/include/coring.  A program schedules coroutines on an [io_context];
    the context runs them until they wait for something, hands their requests
    to the kernel, and resumes each when its completion arrives.  Around that
    core the library has the coroutine types themselves, joins and events to
    wait on, a user-level timer over a skip list, byte buffers with readers
    and writers for sockets, buffers selected by the kernel, owners of file
    descriptors and files, a logger with its ring, and an example HTTP server.

    ** Files, and what they model

    - [Prelude] (this file): the outcome of a C++ call (a value, an exception,
      a failed assertion, undefined behaviour) and the state monad of C++
      operations; machine integers as [Z] with [wrap] and [swrap]; bytes;
      overwriting and cutting lists; the tactics and hints used throughout.
    - [Endian]: endian.hpp, the eight overloads of host_to_network and
      network_to_host over the byte image of an integer.
    - [Buffer]: buffer.hpp.  A buffer is its container and two [size_t]
      indices; pointers are offsets, and every access is checked against the
      container.  [MakeRoom] with [MakeRoomLaws] is what the templates over a
      buffer class rely on; [fixed_buffer] and [flex_buffer] discharge it.
    - [Skiplist], [SkiplistFacts], [SkiplistSpec]: detail/skiplist_map.hpp at
      pointer level (a heap of nodes with one pointer per level), the effect
      of every loop on the pointers, and the ordered multimap it implements
      as the class [OrderedMultimap] with [OrderedMultimapLaws].
    - [Timer]: timer.hpp and its clock arithmetic, proved against
      [OrderedMultimap] only and instantiated with the skip list.
    - [SpscRing]: detail/logging/spsc_ring.hpp; members as functions, and the
      producer and the consumer as two threads that interleave at every load
      and store; the cells are those the allocation really has.
    - [Events]: single_consumer_event.hpp, single_consumer_async_auto_reset_
      event.hpp and detail/async/lightweight_manual_reset_event.hpp, one
      Module each, as machines whose steps are the atomic accesses; the runs
      of a step relation ([star]) and of its executable form ([run_acts]).
    - [Joins]: on_scope_exit.hpp, the when_all family, async_scope.hpp and
      sync_wait, one Module each.
    - [Task]: task.hpp and async_task.hpp as a machine of coroutine frames
      with symmetric transfer, parameterised by what is outside of them and
      by the code of the bodies: a type of positions and what each does next
      (class [Code]), so that a body may loop or recurse for ever.  Module
      [Owner] is who owns a frame.
    - [Control]: what the frames of [Task] do between two answers from outside
      ([advance], for a number of steps), and the program without coroutines,
      a stack of calls ([program]), that they follow in lockstep.
    - [IoUring]: detail/io/io_uring_context.hpp and io_awaitable.hpp: every
      operation that prepares an entry, by its name ([run_member]), the slow
      path for a full queue and submissions that take only part of it or
      fail, the token of a completion, completion dispatch.
    - [IoContext]: io_context.hpp: the coroutine that serves timers, in full
      (Section TimerService), and the loop with its to-do list, eventfd
      messages, signals, thread binding and, by the number of timers only,
      the service that every [run()] starts (Section Loop).
    - [SocketIO]: socket_reader.hpp and socket_writer.hpp.
    - [BufferPool]: buffer_pool.hpp, the provided buffers of the kernel.
    - [Tcp]: file_descriptor.hpp, the connections of tcp_connection.hpp and
      socket.hpp, acceptor.hpp.
    - [Endpoint]: endpoint.hpp and detail/str_utils.hpp.
    - [Logger]: timestamp.hpp, detail/logging/log_timestamp.hpp and
      log_file.hpp, async_logger.hpp with its source: the cached text of the
      time, the writer that empties the rings, the rolling file.
    - [LoggerThread]: the thread of the logger: run, stop and the destructor
      against logging_loop, over the mutex, the condition variable, the latch
      and the stop flag.
    - [LoggerRun]: that thread doing the work of [Logger] while other threads
      log; it ties [LoggerThread] and [Logger] together.
    - [LogArgs]: detail/logging/logging-inl.hpp, what a log call keeps of each
      argument until its text is made.
    - [Threads]: detail/thread.hpp with the field of a log line that shows a
      thread's id, and the signal sets of signals.hpp.
    - [Promise]: the promises of async_task.hpp for values, void and
      references behind the class [Promise] with [PromiseLaws], the lifetimes
      in their union, and the awaitables of a task.
    - [Awaitables]: detail/async/get_awaiter.hpp, fmap.hpp and the awaitables
      of timeout.hpp, composed with the timer service of [IoContext].
    - [File]: file.hpp, a descriptor together with the statx it owns.
    - [Http], [HttpServer]: the example server.  [Http] has the requests and
      the incremental parser over a buffer, with a parser on plain byte lists
      that it is proved to agree with; [HttpServer] the responses and the
      coroutine of a connection, which runs the readers and writers of
      [SocketIO] and the parser of [Http] against arbitrary kernel answers.
    - [EchoServer]: the example echo server, all connections over one pool of
      [BufferPool] and the writers of [SocketIO].
    - [Runtime]: the composition of [IoUring] and [IoContext]: coroutines that
      schedule tasks and await operations on the running loop, with a kernel
      that answers in any order.  The eventfd reader is a coroutine of the
      library and its completions enter as a step of their own
      ([ReadMessages]).  Each start of the loop starts the timer service,
      which waits for its event, as these coroutines register no timer;
      timers and signals stay in [IoContext].
    - [LoopTasks]: [Task], [Control] and [Runtime] together: tasks that await
      each other and operations of the ring, on the running loop.
    - [TimedIo]: the receive, send and connect of tcp_connection.hpp with a
      duration and the timeout operation of the ring for a duration.
    - [Lifecycle]: constructors and destructors of io_uring_context and
      io_context, what they own, what calls of run() leave suspended, and the
      registration calls.
    - [Sockets]: options, error and addresses of a socket (socket.hpp and the
      setters of tcp_connection.hpp), over the system calls as a class.
    - [JoinPromises]: the promises of when_all_task.hpp and
      sync_wait_task.hpp, as instances of the class of [Promise], and that
      they hold the outcomes that [Joins] takes them to hold.
    - [ManualLifetime]: detail/async/manual_lifetime.hpp, its four templates
      behind one class and the contract they share.

    ** How code becomes definitions

    A member function is a definition with the name of the source where that
    is possible.  Objects are records threaded through the operations; an
    exception leaves the object in the state it had reached.  Integers keep
    their width: a [size_t] is a [Z] under [wrap 64], an [int] under [swrap
    32].  Code that several threads run is a partial function [act] of one
    atomic access, [None] being an access that is not possible or a failed
    assertion, and theorems hold for all interleavings ([star] of its steps).
    Memory is sequentially consistent.  What a resumed coroutine or a user's
    task does is a parameter.  The kernel and the C library are parameters as
    well, with their documented behaviour as the laws of a class ([Liburing])
    or as the answers an operation is given; where there are laws, an instance
    shows that they can hold.

    ** What is shown

    - Coroutines: running tasks by symmetric transfer computes what nested
      calls would, exceptions included; an eager task's result reaches its
      awaiter whichever comes first; frames are destroyed exactly once.
    - Waiting and joining: no interleaving loses a wake-up, wakes twice,
      resumes a running coroutine or fails an assertion, for the three
      events, when_all, async_scope and sync_wait.
    - Timers: the skip list refines a sorted multimap through every
      operation; handle_events resumes exactly the entries that are due, in
      order; the service of the loop never forgets a pending timer.
    - io_uring: every operation enqueues exactly one entry with its arguments
      and returns exactly when the queue gets room; a completion is delivered to the coroutine
      that awaits it and to no dead token; completions are counted exactly.
    - The loop: scheduled tasks run once and in order; a stop from any thread
      arrives and wake-ups do not stop.  A context can be run once: a second
      [run()] fails an assertion while the timer service of the first waits
      for its event ([second_run_fails_assertion]), and every theorem on
      starting the loop has the condition that none waits.
    - The composition: whatever the kernel answers and when, every coroutine
      on the loop is where a program in direct style would be that was given
      the same answers, having made the same requests, and the loop, once
      started, can always go on ([Runtime]); and that holds for tasks that await tasks, run by
      symmetric transfer, against the program in which each [co_await] is a
      call, when no task runs for ever without waiting, throws out of a
      spawned task or awaits itself ([LoopTasks], [well_behaved]).
    - Data: the flexible buffer refines a byte queue; the ring is a FIFO under
      every interleaving; write_all sends every byte once; a selected buffer
      and a file descriptor have one owner.
    - Errors: what the code does where it departs from its documentation is
      stated and proved too (make_room discards unread bytes, the readers
      that wait for more never see it, write_certain sends too much, the
      helper that links a timeout leaves stale data, connections built from an
      [int] are closed at once, a shorter timeout does not shorten the wait, a
      receive with a timeout on a nearly full queue is never resumed, a second
      register_signals leaks a descriptor, a second run() fails an assertion
      and each run() leaves frames behind, return_back and a second region
      under one name break the ownership of provided buffers, a ring of too
      many bytes is allocated too small).

    ** What the theorems show

    Functional behaviour and refinement: buffers are byte queues, the skip
    list is an ordered multimap, the ring a bounded queue, tasks run like
    calls, timers fire exactly when due, every io_uring operation enqueues its
    entry once and its completion reaches its coroutine, coroutines on the loop
    run like functions that block, the server answers each request with its
    file.  Safety and invariants: joins and events lose nothing and wake nobody
    twice, descriptors, frames, rings, provided buffers and statx structs have
    one owner and are released once.  The log is ordered, and whatever was
    logged before stop() is in the file when stop() returns, also when it falls
    into a poll ([LoggerRun]).  Liveness and termination: the futex waiter, the
    timer service, stopping the logger, the request parser, and the transfers
    between coroutines, which end exactly when the program does that makes
    calls instead.  Equivalences and round trips: cached time text against
    fresh text, parsing in pieces against parsing the whole, printing against
    parsing.  Errors and bounds: every branch of connecting,
    malformed requests, the char arrays of addresses and content types, how
    early a timeout may fire.

    ** Fuel

    Recursion that is not structural takes fuel or a bound.  Where the source
    loops or recurses as long as user code or the kernel makes it, the bound
    is the number of steps that are followed, and a theorem says what more
    steps do:
    - [advance] and [until] of [Control] take a number of steps; they agree
      for every number ([control_returns]), and a result that was reached
      stays the same with more ([until_more]).  [LoopTasks] takes any number
      and has as a hypothesis that it suffices ([well_behaved]);
    - [get_sqe_spin] of [IoUring] goes round as often as [spin_rounds] of the
      ring says, any number; an operation returns exactly when the queue gets
      room within them ([operation_enqueues_once]).  [LiburingProgress] is
      the assumption that it always does, of completion dispatch, [Runtime],
      [LoopTasks] and the timeout of [TimedIo].
    Elsewhere a theorem shows that the fuel is enough:
    - the loops of [Skiplist] over its nodes take the number of nodes and one
      more, which reaches the end of every well-formed list, and the draws of
      a random level stop at the 32 levels the code allows;
    - [parse_loop] of [Http] ends within one turn more than there are readable
      bytes, which is its termination theorem;
    - [for_each_cqe] of [IoUring] takes the number of completions posted
      before the visit and during it;
    - [drain] of [SpscRing] takes the number of entries in the ring,
      [list_blocks] of [BufferPool] the number of blocks;
    - the number loops of [Endpoint] and [to_string] of [HttpServer] take as
      many turns as the widest integer has digits (10, 32 and 20);
    - [serve] and [run_service] of [IoContext] take two rounds, since an event
      that is already set is consumed at the first.
    Loops over answers of the kernel recurse on the list of answers and are
    still suspended at its end.

    ** Not modelled

    Type traits and configuration macros have no run-time behaviour; the
    operations that are empty or always throw (run_after, do_cancel_list,
    context_pool) do nothing; the debug output of the skip list prints; the
    vendored fmt library is third-party code, and a log entry comes with the
    text it formats.  The servers are modelled, the other example programs and
    the tests only call the library.  [malloc] does not fail.  In the
    compositions no coroutine registers a timer and there is no signal reader,
    and a coroutine on the loop waits for one operation at a time, so that the
    tasks of [LoopTasks] are lazy.  Sends of the echo server are not
    interrupted ([EINTR]). *)
From Stdlib Require Import ZArith Lia.
From Stdlib Require Export Strings.Byte.
From stdpp Require Export base numbers option strings gmap list.
#[global] Set Default Goal Selector "!".
Open Scope Z_scope.

(** * Faults, exceptions and the state monad of C++ operations *)

(** What a C++ call can end with: a value, an exception, a failed [assert]
    (the build does not define NDEBUG) or undefined behaviour. *)
Inductive exn : Type :=
| runtime_error (what : string)
| system_error (code : Z)
| bad_file (code : Z)
| length_error
| eof_error
| broken_promise
| user_exception (id : Z).

Inductive fault : Type :=
| assertion_failed
| undefined_behaviour.

Inductive outcome (A : Type) : Type :=
| Val (a : A)
| Exn (e : exn)
| Fault (f : fault).
Arguments Val {A} a.
Arguments Exn {A} e.
Arguments Fault {A} f.

#[global] Instance exn_eq_dec : EqDecision exn.
Proof. solve_decision. Defined.
#[global] Instance fault_eq_dec : EqDecision fault.
Proof. solve_decision. Defined.
#[global] Instance outcome_eq_dec {A} `{EqDecision A} : EqDecision (outcome A).
Proof. solve_decision. Defined.

(** An operation on an object of type [S]: the object survives an exception
    in the state it had reached, so the state is returned on every path. *)
Definition M (S A : Type) : Type := S -> outcome A * S.

Definition M_ret {S A} (a : A) : M S A := fun s => (Val a, s).
Definition M_bind {S A B} (k : A -> M S B) (m : M S A) : M S B := fun s =>
  match m s with
  | (Val a, s') => k a s'
  | (Exn e, s') => (Exn e, s')
  | (Fault f, s') => (Fault f, s')
  end.
Definition throw {S A} (e : exn) : M S A := fun s => (Exn e, s).
Definition faults {S A} (f : fault) : M S A := fun s => (Fault f, s).
Definition cpp_assert {S} (b : bool) : M S unit := fun s =>
  if b then (Val tt, s) else (Fault assertion_failed, s).
Definition gets {S A} (f : S -> A) : M S A := fun s => (Val (f s), s).
Definition modify {S} (f : S -> S) : M S unit := fun s => (Val tt, f s).

Declare Scope cpp_scope.
Delimit Scope cpp_scope with cpp.
Notation "'let!' x := m 'in' k" := (M_bind (fun x => k) m)
  (at level 10, x pattern, m at level 100, k at level 200) : cpp_scope.
Notation "m ;; k" := (M_bind (fun _ => k) m)
  (at level 100, k at level 200, right associativity) : cpp_scope.
Open Scope cpp_scope.

(** The steps of a sequence. *)
Lemma M_bind_val {S A B} (m : M S A) (k : A -> M S B) s a s' : m s = (Val a, s') -> M_bind k m s = k a s'.
Proof. unfold M_bind. by intros ->. Qed.
Lemma M_bind_exn {S A B} (m : M S A) (k : A -> M S B) s e s' : m s = (Exn e, s') -> M_bind k m s = (Exn e, s').
Proof. unfold M_bind. by intros ->. Qed.

(** * Machine integers *)

(** [wrap w] is conversion to an unsigned [w]-bit type, [swrap w] conversion
    to a signed one (modular since C++20). *)
Definition wrap (w : Z) (x : Z) : Z := x mod 2 ^ w.
Definition swrap (w : Z) (x : Z) : Z := (x + 2 ^ (w - 1)) mod 2 ^ w - 2 ^ (w - 1).

Definition SIZE_MAX : Z := 2 ^ 64 - 1.
Definition in_u (w x : Z) : Prop := 0 <= x < 2 ^ w.
Definition in_s (w x : Z) : Prop := - 2 ^ (w - 1) <= x < 2 ^ (w - 1).

Lemma wrap_range w x : 0 <= w -> in_u w (wrap w x).
Proof. intros. apply Z.mod_pos_bound. lia. Qed.

Lemma wrap_small w x : in_u w x -> wrap w x = x.
Proof. apply Z.mod_small. Qed.

Lemma swrap_small w x : 0 < w -> in_s w x -> swrap w x = x.
Proof.
  intros Hw [Hl Hh]. unfold swrap.
  assert (2 ^ w = 2 * 2 ^ (w - 1)) by (rewrite <- Z.pow_succ_r by lia; f_equal; lia).
  rewrite Z.mod_small; lia.
Qed.

Lemma swrap_range w x : 0 < w -> in_s w (swrap w x).
Proof.
  intros Hw. unfold swrap, in_s.
  assert (2 ^ w = 2 * 2 ^ (w - 1)) by (rewrite <- Z.pow_succ_r by lia; f_equal; lia).
  pose proof (Z.mod_pos_bound (x + 2 ^ (w - 1)) (2 ^ w)). lia.
Qed.

Lemma wrap_idemp w x : wrap w (wrap w x) = wrap w x.
Proof. unfold wrap. apply Zmod_mod. Qed.

Lemma swrap_wrap w x : 0 < w -> swrap w (wrap w x) = swrap w x.
Proof.
  intros. unfold swrap, wrap. f_equal. rewrite Zplus_mod_idemp_l. done.
Qed.

Lemma wrap_swrap w x : 0 < w -> wrap w (swrap w x) = wrap w x.
Proof.
  intros. unfold swrap, wrap. rewrite Zminus_mod_idemp_l. f_equal. lia.
Qed.

(** * Bytes *)

#[global] Instance byte_eq_dec : EqDecision byte := Byte.byte_eq_dec.

Definition Z_of_byte (b : byte) : Z := Z.of_N (Byte.to_N b).
Definition byte_of_Z (z : Z) : byte :=
  match Byte.of_N (Z.to_N (z mod 256)) with Some b => b | None => x00 end.

Lemma Z_of_byte_range b : 0 <= Z_of_byte b < 256.
Proof. unfold Z_of_byte. pose proof (Byte.to_N_bounded b). lia. Qed.

Lemma byte_of_Z_of_byte b : byte_of_Z (Z_of_byte b) = b.
Proof.
  unfold byte_of_Z. rewrite Z.mod_small by apply Z_of_byte_range.
  unfold Z_of_byte. rewrite N2Z.id. by rewrite Byte.of_to_N.
Qed.

Lemma Z_of_byte_of_Z z : Z_of_byte (byte_of_Z z) = z mod 256.
Proof.
  unfold byte_of_Z. pose proof (Z.mod_pos_bound z 256).
  destruct (Byte.of_N (Z.to_N (z mod 256))) as [b|] eqn:E.
  - unfold Z_of_byte. apply Byte.to_of_N in E. rewrite E. lia.
  - apply Byte.of_N_None_iff in E. lia.
Qed.

(** * Lists *)

(** Overwriting a slice of a list, as [memcpy] into an array does. *)
Definition splice {A} (n : nat) (src l : list A) : list A :=
  take n l ++ src ++ drop (n + length src) l.

Lemma length_splice {A} n (src l : list A) :
  (n + length src <= length l)%nat -> length (splice n src l) = length l.
Proof. intros. unfold splice. rewrite !length_app, length_take, length_drop. lia. Qed.

Lemma take_splice {A} n (src l : list A) :
  (n <= length l)%nat -> take n (splice n src l) = take n l.
Proof. intros. unfold splice. rewrite take_app_le by (rewrite length_take; lia). rewrite take_take. f_equal. lia. Qed.

(** The bytes [[i, j)] of a list. *)
Definition slice {A} (i j : nat) (l : list A) : list A := take (j - i) (drop i l).

Lemma length_slice {A} i j (l : list A) :
  (i <= j <= length l)%nat -> length (slice i j l) = (j - i)%nat.
Proof. intros. unfold slice. rewrite length_take, length_drop. lia. Qed.

Lemma slice_app {A} i j k (l : list A) :
  (i <= j <= k)%nat -> slice i j l ++ slice j k l = slice i k l.
Proof.
  intros. unfold slice.
  replace (drop j l) with (drop (j - i) (drop i l)) by (rewrite drop_drop; f_equal; lia).
  rewrite take_take_drop. f_equal. lia.
Qed.

Lemma slice_splice_new {A} n (src l : list A) :
  (n + length src <= length l)%nat -> slice n (n + length src) (splice n src l) = src.
Proof.
  intros. unfold slice, splice.
  rewrite drop_app_length' by (rewrite length_take; lia).
  replace (n + length src - n)%nat with (length src) by lia.
  by rewrite take_app_length.
Qed.

Lemma slice_splice_before {A} i j n (src l : list A) :
  (i <= j <= n)%nat -> (n <= length l)%nat -> slice i j (splice n src l) = slice i j l.
Proof.
  intros. unfold slice, splice.
  rewrite drop_app_le by (rewrite length_take; lia).
  rewrite take_app_le by (rewrite length_drop, length_take; lia).
  rewrite !skipn_firstn_comm, take_take. f_equal. lia.
Qed.

Lemma slice_slice {A} i j n (l : list A) :
  (i + n <= j)%nat -> take n (slice i j l) = slice i (i + n) l.
Proof. intros. unfold slice. rewrite take_take. f_equal. lia. Qed.

Lemma drop_slice {A} i j n (l : list A) :
  (i + n <= j)%nat -> drop n (slice i j l) = slice (i + n) j l.
Proof.
  intros. unfold slice. rewrite skipn_firstn_comm, drop_drop.
  f_equal; lia.
Qed.

Lemma filter_all {A} (P : A -> Prop) `{!forall x, Decision (P x)} (l : list A) :
  (forall x, x ∈ l -> P x) -> filter P l = l.
Proof.
  intros Hl. induction l as [|x l IH]; [done|].
  rewrite filter_cons_True by (apply Hl; left). f_equal. apply IH. intros. apply Hl. by right.
Qed.

Lemma filter_none {A} (P : A -> Prop) `{!forall x, Decision (P x)} (l : list A) :
  (forall x, x ∈ l -> ~ P x) -> filter P l = [].
Proof.
  intros Hl. induction l as [|x l IH]; [done|].
  rewrite filter_cons_False by (apply Hl; left). apply IH. intros. apply Hl. by right.
Qed.

(** * Automation *)

Create HintDb coring.
Create Rewrite HintDb lens.
#[export] Hint Rewrite @length_app @length_take @length_drop @length_replicate
  @length_cons @length_nil @length_fmap @length_reverse @length_insert : lens.
Ltac len := autorewrite with lens; try lia.

#[export] Hint Resolve Z_of_byte_range : coring.

(** Run a monadic body: unfold the combinators and split on the tests. *)
Ltac run_M := unfold M_bind, M_ret, gets, modify, cpp_assert, throw, faults; simpl.
