(* ===== verification/Endian.v ===== *)
(** Byte order: the overload set of [endian.hpp] and the byte image of an
    integer in the memory of a little-endian (x86-64) host, which is how
    [::memcpy] in [buffer.hpp] sees it. *)
From S2P Require Import Prelude.

(** * Memory image of an integer on a little-endian host *)

Fixpoint le_bytes (n : nat) (x : Z) : list byte :=
  match n with
  | O => []
  | S n' => byte_of_Z x :: le_bytes n' (x / 256)
  end.

Fixpoint of_le_bytes (l : list byte) : Z :=
  match l with
  | [] => 0
  | b :: l' => Z_of_byte b + 256 * of_le_bytes l'
  end.

(** The big-endian (network order) image. *)
Definition be_bytes (n : nat) (x : Z) : list byte := reverse (le_bytes n x).
Definition of_be_bytes (l : list byte) : Z := of_le_bytes (reverse l).

(** * The integer types [endian.hpp] overloads on *)

Inductive int_type : Type := U64 | U32 | U16 | U8 | I64 | I32 | I16 | I8.

#[global] Instance int_type_eq_dec : EqDecision int_type.
Proof. solve_decision. Defined.

Definition sizeof (t : int_type) : nat :=
  match t with U64 | I64 => 8 | U32 | I32 => 4 | U16 | I16 => 2 | U8 | I8 => 1 end.
Definition width (t : int_type) : Z := 8 * Z.of_nat (sizeof t).
Definition signed (t : int_type) : bool :=
  match t with I64 | I32 | I16 | I8 => true | _ => false end.

(** Implicit conversion to the type, and its value range. *)
Definition convert (t : int_type) (x : Z) : Z :=
  if signed t then swrap (width t) x else wrap (width t) x.
Definition representable (t : int_type) (x : Z) : Prop :=
  if signed t then in_s (width t) x else in_u (width t) x.

(** [htobeN]/[beNtoh] of <endian.h> on a little-endian host: swap the bytes
    of the unsigned operand. *)
Definition bswap (n : nat) (x : Z) : Z := of_le_bytes (reverse (le_bytes n x)).
Definition htobe (n : nat) (x : Z) : Z := bswap n (wrap (8 * Z.of_nat n) x).
Definition betoh (n : nat) (x : Z) : Z := bswap n (wrap (8 * Z.of_nat n) x).

(** The eight overloads of [host_to_network]: the argument converts to the
    unsigned parameter of [htobeN] and the result back to the return type;
    the one-byte overloads return their argument. *)
Definition host_to_network (t : int_type) (x : Z) : Z :=
  match t with
  | U64 => htobe 8 x
  | U32 => htobe 4 x
  | U16 => htobe 2 x
  | U8 => x
  | I64 => swrap 64 (htobe 8 x)
  | I32 => swrap 32 (htobe 4 x)
  | I16 => swrap 16 (htobe 2 x)
  | I8 => x
  end.

Definition network_to_host (t : int_type) (x : Z) : Z :=
  match t with
  | U64 => betoh 8 x
  | U32 => betoh 4 x
  | U16 => betoh 2 x
  | U8 => x
  | I64 => swrap 64 (betoh 8 x)
  | I32 => swrap 32 (betoh 4 x)
  | I16 => swrap 16 (betoh 2 x)
  | I8 => x
  end.

(** * Facts *)

Lemma length_le_bytes n x : length (le_bytes n x) = n.
Proof. revert x. induction n; intros; simpl; [done | by rewrite IHn]. Qed.

Lemma of_le_bytes_range l : 0 <= of_le_bytes l < 256 ^ Z.of_nat (length l).
Proof.
  induction l as [|b l IH]; simpl of_le_bytes; [simpl; lia|].
  rewrite length_cons, Nat2Z.inj_succ, Z.pow_succ_r by lia.
  pose proof (Z_of_byte_range b). lia.
Qed.

Lemma pow256 n : 256 ^ Z.of_nat n = 2 ^ (8 * Z.of_nat n).
Proof. change 256 with (2 ^ 8). rewrite <- Z.pow_mul_r by lia. done. Qed.

Lemma of_le_bytes_le_bytes n x :
  of_le_bytes (le_bytes n x) = wrap (8 * Z.of_nat n) x.
Proof.
  unfold wrap. rewrite <- pow256. revert x. induction n as [|n IH]; intros x.
  - simpl. by rewrite Z.mod_1_r.
  - cbn [le_bytes of_le_bytes]. rewrite IH, Z_of_byte_of_Z.
    rewrite Nat2Z.inj_succ, Z.pow_succ_r by lia.
    rewrite Z.rem_mul_r by lia. done.
Qed.

Lemma le_bytes_of_le_bytes l : le_bytes (length l) (of_le_bytes l) = l.
Proof.
  induction l as [|b l IH]; simpl; [done|]. f_equal.
  - rewrite <- (byte_of_Z_of_byte b) at 2. unfold byte_of_Z.
    rewrite Z.mul_comm, Z_mod_plus_full. done.
  - pose proof (Z_of_byte_range b).
    rewrite Z.mul_comm, Z.div_add by lia. rewrite Z.div_small by lia. by rewrite Z.add_0_l.
Qed.

Lemma le_bytes_wrap n x : le_bytes n (wrap (8 * Z.of_nat n) x) = le_bytes n x.
Proof.
  rewrite <- (length_le_bytes n x) at 1. rewrite <- of_le_bytes_le_bytes.
  apply le_bytes_of_le_bytes.
Qed.

Lemma le_bytes_swrap n x :
  (0 < n)%nat -> le_bytes n (swrap (8 * Z.of_nat n) x) = le_bytes n x.
Proof.
  intros. rewrite <- (le_bytes_wrap n (swrap _ _)).
  rewrite wrap_swrap by lia. apply le_bytes_wrap.
Qed.

Lemma le_bytes_bswap n x : le_bytes n (bswap n x) = be_bytes n x.
Proof.
  unfold bswap, be_bytes.
  rewrite <- (length_le_bytes n x) at 1. rewrite <- length_reverse.
  apply le_bytes_of_le_bytes.
Qed.

Lemma bswap_range n x : in_u (8 * Z.of_nat n) (bswap n x).
Proof.
  unfold in_u, bswap. rewrite <- pow256.
  pose proof (of_le_bytes_range (reverse (le_bytes n x))) as H.
  rewrite length_reverse, length_le_bytes in H. exact H.
Qed.

Lemma bswap_bswap n x : bswap n (bswap n x) = wrap (8 * Z.of_nat n) x.
Proof.
  unfold bswap at 1. rewrite le_bytes_bswap. unfold be_bytes.
  rewrite reverse_involutive. apply of_le_bytes_le_bytes.
Qed.

Lemma betoh_htobe n x : betoh n (htobe n x) = wrap (8 * Z.of_nat n) x.
Proof.
  unfold betoh, htobe. rewrite wrap_small by apply bswap_range.
  rewrite bswap_bswap. apply wrap_idemp.
Qed.

Lemma betoh_swrap n x :
  (0 < n)%nat -> betoh n (swrap (8 * Z.of_nat n) x) = betoh n x.
Proof. intros. unfold betoh. rewrite wrap_swrap by lia. done. Qed.

#[export] Hint Rewrite length_le_bytes : lens.

Lemma convert_wrap t x : representable t x -> convert t (wrap (width t) x) = x.
Proof.
  unfold representable, convert. intros Hx.
  assert (0 < width t) by (destruct t; unfold width; simpl; lia).
  destruct (signed t).
  - rewrite swrap_wrap by done. by apply swrap_small.
  - rewrite wrap_idemp. by apply wrap_small.
Qed.

(** For each of the eight integer overloads, [network_to_host] undoes
    [host_to_network] on every value of the type, and the bytes that
    [host_to_network] leaves in memory are the value in network (big-endian)
    order. *)
Theorem host_to_network_roundtrip (t : int_type) (x : Z) :
  representable t x ->
  network_to_host t (host_to_network t x) = x /\
  le_bytes (sizeof t) (host_to_network t x) = be_bytes (sizeof t) x.
Proof.
  intros Hx. split.
  - destruct t; simpl; try done;
      rewrite ?(betoh_swrap 8), ?(betoh_swrap 4), ?(betoh_swrap 2), betoh_htobe by lia;
      rewrite ?swrap_wrap by lia; (apply wrap_small || apply swrap_small); done.
  - destruct t; simpl sizeof; simpl host_to_network; try done;
      rewrite ?(le_bytes_swrap 8), ?(le_bytes_swrap 4), ?(le_bytes_swrap 2) by lia;
      unfold htobe; rewrite le_bytes_bswap; unfold be_bytes; by rewrite le_bytes_wrap.
Qed.

Lemma host_to_network_roundtrip_witness :
  representable I32 (-2) /\
  network_to_host I32 (host_to_network I32 (-2)) = -2 /\
  le_bytes 4 (host_to_network I32 (-2)) = [xff; xff; xff; xfe].
Proof.
  assert (H : representable I32 (-2)) by (vm_compute; split; discriminate || reflexivity).
  split; [exact H|].
  pose proof (host_to_network_roundtrip I32 (-2) H) as [H1 H2].
  split; [exact H1 | exact H2].
Defined.
