(* ===== verification/Buffer.v ===== *)
(** The byte buffers of [buffer.hpp]: [buffer_base] with its two indices, and
    the classes [fixed_buffer] (over a caller's char array) and [flex_buffer]
    (over a growing std::vector<char>).  A [char *] into the container is
    modelled by its offset from [container_.data()]; an access outside the
    container is undefined behaviour, a failed [assert] is a fault. *)
From S2P Require Import Prelude Endian.

Record buffer : Type := mk_buffer {
  container_ : list byte;
  index_read_ : Z;
  index_write_ : Z
}.

Definition set_index_read (v : Z) (b : buffer) : buffer :=
  mk_buffer (container_ b) v (index_write_ b).
Definition set_index_write (v : Z) (b : buffer) : buffer :=
  mk_buffer (container_ b) (index_read_ b) v.
Definition set_container (c : list byte) (b : buffer) : buffer :=
  mk_buffer c (index_read_ b) (index_write_ b).

(** * [buffer_base] *)

Definition size (b : buffer) : Z := Z.of_nat (length (container_ b)).
Definition readable (b : buffer) : Z := wrap 64 (index_write_ b - index_read_ b).
Definition writable (b : buffer) : Z := wrap 64 (size b - index_write_ b).
Definition front (b : buffer) : Z := index_read_ b.
Definition back (b : buffer) : Z := index_write_ b.

(** Reading and writing [n] bytes at an offset. *)
Definition load (off n : Z) (b : buffer) : option (list byte) :=
  if decide (0 <= off /\ 0 <= n /\ off + n <= size b)
  then Some (slice (Z.to_nat off) (Z.to_nat (off + n)) (container_ b)) else None.
Definition store (off : Z) (src : list byte) (b : buffer) : option buffer :=
  if decide (0 <= off /\ off + Z.of_nat (length src) <= size b)
  then Some (set_container (splice (Z.to_nat off) src (container_ b)) b) else None.

Definition load_M (off n : Z) : M buffer (list byte) := fun b =>
  match load off n b with Some l => (Val l, b) | None => (Fault undefined_behaviour, b) end.
Definition store_M (off : Z) (src : list byte) : M buffer unit := fun b =>
  match store off src b with Some b' => (Val tt, b') | None => (Fault undefined_behaviour, b) end.

(** [memmove] within the container: read the source, then overwrite. *)
Definition memmove (dst src n : Z) : M buffer unit :=
  let! l := load_M src n in store_M dst l.

Definition readable_view (b : buffer) : option (list byte) := load (front b) (readable b) b.

Definition clear : M buffer unit :=
  modify (fun b => set_index_write 0 (set_index_read 0 b)).

Definition has_read (len : Z) : M buffer unit :=
  let! r := gets readable in
  cpp_assert (len <=? r);;
  if len =? r then clear
  else modify (fun b => set_index_read (wrap 64 (index_read_ b + len)) b).

Definition has_written (len : Z) : M buffer unit :=
  modify (fun b => set_index_write (wrap 64 (index_write_ b + len)) b).

Definition pop_string (len : Z) : M buffer (list byte) :=
  let! r := gets readable in
  let len' := if r <? len then r else len in
  let! f := gets front in
  let! ret := load_M f len' in
  has_read len';;
  M_ret ret.

(** [pop_int<IntType>]: [memcpy] into a zeroed integer, whose memory image is
    little-endian, then the byte-order conversion. *)
Definition pop_int (t : int_type) : M buffer Z :=
  let n := Z.of_nat (sizeof t) in
  let! r := gets readable in
  cpp_assert (n <=? r);;
  let! f := gets front in
  let! l := load_M f n in
  let ret := convert t (of_le_bytes l) in
  has_read n;;
  M_ret (network_to_host t ret).

(** [std::search] on byte ranges: the offset of the first occurrence, or the
    length of the range. *)
Fixpoint search (hay needle : list byte) : nat :=
  match hay with
  | [] => 0
  | _ :: hay' => if decide (take (length needle) hay = needle) then 0 else S (search hay' needle)
  end.

(** [memchr]: the offset of the first match, if any. *)
Fixpoint memchr (l : list byte) (c : byte) : option nat :=
  match l with
  | [] => None
  | x :: l' => if decide (x = c) then Some 0%nat else S <$> memchr l' c
  end.

Definition kCRLF : list byte := [x0d; x0a; x0d; x0a].

(** The four [find_*crlf] members: [n] is the number of bytes of [kCRLF]
    searched for, [start] the pointer the search starts from. *)
Definition find_kcrlf (n : nat) (start : Z) (b : buffer) : option Z :=
  let range := slice (Z.to_nat start) (Z.to_nat (back b)) (container_ b) in
  let crlf := start + Z.of_nat (search range (take n kCRLF)) in
  if crlf =? back b then None else Some crlf.

Definition find_crlf (b : buffer) : option Z := find_kcrlf 2 (front b) b.
Definition find_crlf_from (start : Z) (b : buffer) : option Z := find_kcrlf 2 start b.
Definition find_2crlf (b : buffer) : option Z := find_kcrlf 4 (front b) b.
Definition find_2crlf_from (start : Z) (b : buffer) : option Z := find_kcrlf 4 start b.

Definition findEOL (start : Z) (b : buffer) : option Z :=
  (fun k => start + Z.of_nat k) <$>
  memchr (slice (Z.to_nat start) (Z.to_nat (back b)) (container_ b)) x0a.
Definition find_eol (b : buffer) : option Z := findEOL (front b) b.

(** * [fixed_buffer] and [flex_buffer] *)

(** The first half of both [make_room]s: the readable bytes are "moved" from
    [front()] to [container_.data() + index_read_] and the indices reset. *)
Definition compact : M buffer unit := fun b =>
  if 0 <? index_read_ b then
    (let! now_have := gets readable in
     memmove (index_read_ b) (front b) now_have;;
     modify (set_index_read 0);;
     modify (set_index_write now_have)) b
  else (Val tt, b).

Definition fixed_make_room (want : Z) : M buffer unit :=
  compact;;
  let! w := gets writable in
  if w <? want then throw (runtime_error "cannot make room for fixed buffer")
  else M_ret tt.

Definition PTRDIFF_MAX : Z := 2 ^ 63 - 1.

(** [std::vector<char>::resize] *)
Definition resize (n : Z) : M buffer unit := fun b =>
  if PTRDIFF_MAX <? n then (Exn length_error, b)
  else (Val tt, set_container
         (take (Z.to_nat n) (container_ b) ++
          replicate (Z.to_nat n - length (container_ b)) x00) b).

Definition flex_make_room (want : Z) : M buffer unit :=
  compact;;
  let! w := gets writable in
  if w <? want then
    let! iw := gets index_write_ in resize (wrap 64 (iw + want))
  else M_ret tt.

(** What the templates of [socket_reader.hpp] and [socket_writer.hpp] ask of
    their [Buffer] parameter beyond [buffer_base]. *)
Class MakeRoom : Type := make_room : Z -> M buffer unit.
#[global] Instance fixed_buffer : MakeRoom := fixed_make_room.
#[global] Instance flex_buffer : MakeRoom := flex_make_room.

(** Both classes define the writers below with the same text. *)
Definition emplace_back (ch : byte) : M buffer unit :=
  let! dst := gets back in
  store_M dst [ch];;
  has_written 1.

Section Writers.
Context (K : MakeRoom).

Definition push_back_char (ch : byte) : M buffer unit :=
  make_room 1;;
  emplace_back ch.

Definition push_back (src : list byte) : M buffer unit :=
  let len := Z.of_nat (length src) in
  make_room len;;
  let! dst := gets back in
  store_M dst src;;
  has_written len.

Definition push_back_string (str : list byte) : M buffer unit := push_back str.
End Writers.

(** The instances of the two classes. *)
Definition fixed_emplace_back : byte -> M buffer unit := emplace_back.
Definition fixed_push_back_char : byte -> M buffer unit := push_back_char fixed_buffer.
Definition fixed_push_back : list byte -> M buffer unit := push_back fixed_buffer.
Definition fixed_push_back_string : list byte -> M buffer unit := push_back_string fixed_buffer.
Definition flex_emplace_back : byte -> M buffer unit := emplace_back.
Definition flex_push_back_char : byte -> M buffer unit := push_back_char flex_buffer.
Definition flex_push_back : list byte -> M buffer unit := push_back flex_buffer.
Definition flex_push_back_string : list byte -> M buffer unit := push_back_string flex_buffer.

(** Constructors: [flex_buffer(int)] value-initialises its vector;
    [fixed_buffer] views the caller's array, the array form dropping the
    terminating NUL. *)
Definition new_flex_buffer (init_size : nat) : buffer := mk_buffer (replicate init_size x00) 0 0.
Definition new_fixed_buffer (s : list byte) : buffer := mk_buffer s 0 0.
Definition new_fixed_buffer_array (s : list byte) : buffer := mk_buffer (take (length s - 1) s) 0 0.

Definition BUFFER_DEFAULT_SIZE : nat := 128.
Definition READ_BUFFER_AT_LEAST_WRITABLE : Z := 128.

(** * Well-formedness and the abstract content *)

Definition wf (b : buffer) : Prop :=
  0 <= index_read_ b /\ index_read_ b <= index_write_ b /\
  index_write_ b <= size b /\ size b <= PTRDIFF_MAX.

#[global] Instance wf_dec b : Decision (wf b).
Proof. unfold wf. apply _. Defined.

(** The bytes waiting to be read, oldest first. *)
Definition contents (b : buffer) : list byte :=
  slice (Z.to_nat (index_read_ b)) (Z.to_nat (index_write_ b)) (container_ b).

(** The first [readable b] bytes of the container. *)
Definition head_bytes (b : buffer) : list byte :=
  take (Z.to_nat (readable b)) (container_ b).

Ltac unbuf := unfold wf, contents, head_bytes, size, front, back, set_container, set_index_read,
  set_index_write, PTRDIFF_MAX in *; simpl in *.

Lemma readable_wf b : wf b -> readable b = index_write_ b - index_read_ b.
Proof. intros. unfold readable. apply wrap_small. unbuf. unfold in_u. lia. Qed.

Lemma writable_wf b : wf b -> writable b = size b - index_write_ b.
Proof. intros. unfold writable. apply wrap_small. unbuf. unfold in_u. lia. Qed.

Lemma length_contents b : wf b -> Z.of_nat (length (contents b)) = readable b.
Proof.
  intros H. rewrite readable_wf by done. unbuf. rewrite length_slice; lia.
Qed.

Lemma load_wf off n b :
  0 <= off -> 0 <= n -> off + n <= size b ->
  load_M off n b = (Val (slice (Z.to_nat off) (Z.to_nat (off + n)) (container_ b)), b).
Proof. intros. unfold load_M, load. rewrite decide_True by done. done. Qed.

Lemma store_wf off src b :
  0 <= off -> off + Z.of_nat (length src) <= size b ->
  store_M off src b = (Val tt, set_container (splice (Z.to_nat off) src (container_ b)) b).
Proof. intros. unfold store_M, store. rewrite decide_True by done. done. Qed.

Lemma splice_slice_id {A} i j (l : list A) :
  (i <= j <= length l)%nat -> splice i (slice i j l) l = l.
Proof.
  intros. unfold splice. rewrite length_slice by lia.
  replace (i + (j - i))%nat with j by lia. unfold slice.
  rewrite <- (take_drop i l) at 4. f_equal.
  rewrite <- (take_drop (j - i) (drop i l)) at 2. f_equal.
  rewrite drop_drop. f_equal. lia.
Qed.

(** [compact] copies the readable bytes onto themselves and resets the
    indices: the container is unchanged. *)
Lemma compact_wf b :
  wf b -> compact b = (Val tt, mk_buffer (container_ b) 0 (readable b)).
Proof.
  intros H. pose proof (readable_wf b H) as Hr. unfold compact.
  destruct (Z.ltb_spec 0 (index_read_ b)) as [Hlt|Hge].
  - unfold memmove. run_M. rewrite load_wf by (rewrite ?Hr; unbuf; lia).
    rewrite store_wf.
    2: { unbuf; lia. }
    2: { unbuf. rewrite length_slice; lia. }
    unfold set_container. simpl. unfold front.
    rewrite splice_slice_id by (rewrite Hr; unbuf; lia). done.
  - rewrite Hr. assert (E : index_read_ b = 0) by (unbuf; lia).
    rewrite E, Z.sub_0_r. destruct b as [c i j]. simpl in *. by subst.
Qed.

(** The contract of [make_room] that the templates over [Buffer] rely on. *)
Class MakeRoomLaws (K : MakeRoom) : Prop := make_room_ok :
  forall (b : buffer) (want : Z), wf b -> 0 <= want <= PTRDIFF_MAX ->
  match make_room want b with
  | (Val _, b') => wf b' /\ index_read_ b' = 0 /\ index_write_ b' = readable b /\
      want <= writable b' /\ take (Z.to_nat (readable b)) (container_ b') = head_bytes b
  | (Exn _, b') => b' = mk_buffer (container_ b) 0 (readable b)
  | (Fault _, _) => False
  end.

Lemma wf_compacted b : wf b -> wf (mk_buffer (container_ b) 0 (readable b)).
Proof. intros H. pose proof (readable_wf b H). unbuf. lia. Qed.

#[global] Instance fixed_buffer_laws : MakeRoomLaws fixed_buffer.
Proof.
  intros b want H Hw. unfold make_room, fixed_buffer, fixed_make_room. run_M.
  rewrite compact_wf by done. simpl. pose proof (wf_compacted b H).
  destruct (Z.ltb_spec (writable (mk_buffer (container_ b) 0 (readable b))) want); [done|].
  split_and!; done.
Qed.

#[global] Instance flex_buffer_laws : MakeRoomLaws flex_buffer.
Proof.
  intros b want H Hw. unfold make_room, flex_buffer, flex_make_room. run_M.
  rewrite compact_wf by done. simpl. pose proof (wf_compacted b H) as Hc.
  pose proof (readable_wf b H) as Hr. pose proof (writable_wf _ Hc) as Hwr.
  destruct (Z.ltb_spec (writable (mk_buffer (container_ b) 0 (readable b))) want);
    [|split_and!; done].
  unfold resize. rewrite wrap_small by (unfold in_u; unbuf; lia). cbn [index_write_].
  destruct (Z.ltb_spec PTRDIFF_MAX (readable b + want)); [done|].
  set (b' := set_container _ _).
  assert (Hs : size b' = readable b + want).
  { unfold b'. unbuf. len. }
  assert (Hwf : wf b') by (unfold wf; rewrite Hs; unfold b'; unbuf; lia).
  split_and!; try done.
  - rewrite (writable_wf b') by done. rewrite Hs. simpl. lia.
  - unfold b', head_bytes. simpl.
    rewrite take_app_le by (unbuf; rewrite length_take; lia).
    rewrite take_take. f_equal. unbuf. lia.
Qed.

(** * Functional behaviour of the readers *)

Lemma has_read_wf n b :
  wf b -> 0 <= n <= readable b ->
  exists b', has_read n b = (Val tt, b') /\ wf b' /\ container_ b' = container_ b /\
    contents b' = drop (Z.to_nat n) (contents b).
Proof.
  intros H [Hn Hle]. pose proof (readable_wf b H) as Hr. pose proof (length_contents b H) as Hlc.
  unfold has_read. run_M. rewrite (proj2 (Z.leb_le _ _)) by lia.
  destruct (Z.eqb_spec n (readable b)) as [->|Hne].
  - eexists. split; [reflexivity|]. split_and!; [unbuf; lia | done |].
    rewrite drop_ge by lia. done.
  - rewrite wrap_small by (unfold in_u; unbuf; lia).
    eexists. split; [reflexivity|]. split_and!; [unbuf; lia | done |].
    unbuf. rewrite drop_slice by lia. f_equal. lia.
Qed.

Lemma load_front_wf n b :
  wf b -> 0 <= n <= readable b ->
  load_M (front b) n b = (Val (take (Z.to_nat n) (contents b)), b).
Proof.
  intros H Hn. pose proof (readable_wf b H) as Hr.
  rewrite load_wf by (unbuf; lia). unbuf. rewrite slice_slice by lia.
  do 3 f_equal. lia.
Qed.

Lemma pop_string_wf n b :
  wf b -> 0 <= n ->
  exists b', pop_string n b = (Val (take (Z.to_nat n) (contents b)), b') /\ wf b' /\
    contents b' = drop (Z.to_nat n) (contents b).
Proof.
  intros H Hn. pose proof (length_contents b H) as Hlc. unfold pop_string. run_M.
  set (m := if readable b <? n then readable b else n).
  assert (Hm : 0 <= m <= readable b) by (unfold m; destruct (Z.ltb_spec (readable b) n); lia).
  rewrite load_front_wf by done.
  destruct (has_read_wf m b H Hm) as (b' & -> & Hwf & _ & Hc).
  exists b'. rewrite Hc. unfold m.
  destruct (Z.ltb_spec (readable b) n); [|by auto].
  rewrite !(take_ge _ (Z.to_nat _)), !(drop_ge _ (Z.to_nat _)) by lia. auto.
Qed.

Lemma representable_of_be_bytes t l :
  length l = sizeof t -> convert t (of_be_bytes l) = network_to_host t (convert t (of_le_bytes l)).
Proof.
  intros Hl.
  assert (Hb : forall n, n = sizeof t -> bswap n (wrap (8 * Z.of_nat n) (of_le_bytes l)) = of_be_bytes l).
  { intros n ->. unfold bswap. rewrite le_bytes_wrap, <- Hl, le_bytes_of_le_bytes. done. }
  assert (Hr : forall n, n = sizeof t -> wrap (8 * Z.of_nat n) (of_be_bytes l) = of_be_bytes l).
  { intros n ->. rewrite <- (Hb _ eq_refl). apply wrap_small, bswap_range. }
  destruct t; unfold convert, width, signed, network_to_host, betoh; simpl sizeof;
    rewrite ?(Hr 8%nat), ?(Hr 4%nat), ?(Hr 2%nat) by done;
    rewrite ?(wrap_swrap 64), ?(wrap_swrap 32), ?(wrap_swrap 16) by lia.
  all: rewrite ?wrap_idemp.
  1-3: symmetry; apply Hb; done.
  2-4: f_equal; symmetry; first [exact (Hb 8%nat eq_refl) | exact (Hb 4%nat eq_refl) | exact (Hb 2%nat eq_refl)].
  all: destruct l as [|b [|]]; simpl in Hl; try lia; done.
Qed.

Lemma pop_int_wf t b :
  wf b -> Z.of_nat (sizeof t) <= readable b ->
  exists b', pop_int t b = (Val (convert t (of_be_bytes (take (sizeof t) (contents b)))), b') /\
    wf b' /\ contents b' = drop (sizeof t) (contents b).
Proof.
  intros H Hn. pose proof (length_contents b H) as Hlc. unfold pop_int.
  pose proof (Zle_0_nat (sizeof t)) as Hp. set (n := Z.of_nat (sizeof t)) in *. run_M.
  rewrite (proj2 (Z.leb_le _ _)) by lia. rewrite load_front_wf by done.
  destruct (has_read_wf n b H) as (b' & -> & Hwf & _ & Hc); [done|].
  exists b'. rewrite Hc. unfold n in *. rewrite Nat2Z.id.
  rewrite representable_of_be_bytes by (len). auto.
Qed.

(** * Behaviour of the writers *)

Section WriterFacts.
Context (K : MakeRoom) {HK : MakeRoomLaws K}.

(** Every return of [push_back]: on success the head of the container is
    followed by the new bytes; on an exception nothing but the indices of
    the compacted buffer has changed. *)
Lemma push_back_wf src b :
  wf b -> Z.of_nat (length src) <= PTRDIFF_MAX ->
  match push_back K src b with
  | (Val _, b') => wf b' /\ index_read_ b' = 0 /\ contents b' = head_bytes b ++ src
  | (Exn _, b') => b' = mk_buffer (container_ b) 0 (readable b)
  | (Fault _, _) => False
  end.
Proof.
  intros H Hs. unfold push_back. run_M.
  pose proof (make_room_ok b (Z.of_nat (length src)) H ltac:(lia)) as Hmk.
  destruct (make_room _ b) as [[[]| |] b1]; [|done|done].
  destruct Hmk as (Hwf & Hir & Hiw & Hwr & Hhd).
  pose proof (writable_wf b1 Hwf) as Hw1.
  rewrite store_wf by (unbuf; lia). simpl.
  rewrite wrap_small by (unfold in_u; unbuf; lia).
  assert (Hsp : length (splice (Z.to_nat (index_write_ b1)) src (container_ b1)) = length (container_ b1)).
  { apply length_splice. unbuf. lia. }
  split_and!; [unbuf; rewrite Hsp; lia | done |].
  unfold contents. simpl. rewrite Hir.
  rewrite <- (slice_app _ (Z.to_nat (index_write_ b1)) _) by (unbuf; lia).
  rewrite slice_splice_before by (unbuf; lia).
  replace (Z.to_nat (index_write_ b1 + Z.of_nat (length src)))
    with (Z.to_nat (index_write_ b1) + length src)%nat by (unbuf; lia).
  rewrite slice_splice_new by (unbuf; lia). f_equal.
  rewrite Hiw, <- Hhd. unfold slice. rewrite drop_0, Nat.sub_0_r. done.
Qed.

Lemma push_back_char_eq ch : push_back_char K ch = push_back K [ch].
Proof. done. Qed.
End WriterFacts.

Lemma head_bytes_at_zero b : wf b -> index_read_ b = 0 -> head_bytes b = contents b.
Proof.
  intros H E. unfold head_bytes, contents. rewrite readable_wf, E, Z.sub_0_r by done.
  unfold slice. rewrite drop_0, Nat.sub_0_r. done.
Qed.

(** * Calls on a buffer and the invariant they keep *)

Inductive call : Type :=
| Clear
| Has_read (len : Z)
| Has_written (len : Z)
| Pop_string (len : Z)
| Pop_int (t : int_type)
| Make_room (want : Z)
| Push_back (src : list byte).

Definition discard {A} (m : M buffer A) : M buffer unit := let! _ := m in M_ret tt.

Definition run_call (K : MakeRoom) (c : call) : M buffer unit :=
  match c with
  | Clear => clear
  | Has_read len => has_read len
  | Has_written len => has_written len
  | Pop_string len => discard (pop_string len)
  | Pop_int t => discard (pop_int t)
  | Make_room want => make_room want
  | Push_back src => push_back K src
  end.

(** What a caller must respect: lengths are [size_t] values, a [has_written]
    stays inside the room there is, and requests stay below PTRDIFF_MAX. *)
Definition respects (c : call) (b : buffer) : Prop :=
  match c with
  | Clear | Pop_int _ => True
  | Has_read len | Pop_string len => 0 <= len
  | Has_written len => 0 <= len <= writable b
  | Make_room want => 0 <= want <= PTRDIFF_MAX
  | Push_back src => Z.of_nat (length src) <= PTRDIFF_MAX
  end.

Lemma has_read_too_long n b : readable b < n -> has_read n b = (Fault assertion_failed, b).
Proof.
  intros H. unfold has_read. run_M. rewrite (proj2 (Z.leb_gt _ _)) by lia. done.
Qed.

Lemma pop_int_too_long t b :
  readable b < Z.of_nat (sizeof t) -> pop_int t b = (Fault assertion_failed, b).
Proof.
  intros H. unfold pop_int. set (n := Z.of_nat (sizeof t)) in *. run_M.
  rewrite (proj2 (Z.leb_gt _ _)) by lia. done.
Qed.

(** [C37] Whatever a caller does within the contract (lengths are sizes, a
    has_written stays within writable()), the indices stay ordered inside the
    container, and no call touches memory outside it; the only fault left is
    the failed assert of has_read/pop_int asking for more than is readable. *)
Theorem buffer_calls_safe (K : MakeRoom) {HK : MakeRoomLaws K} (c : call) (b : buffer) :
  wf b -> respects c b ->
  wf (snd (run_call K c b)) /\ fst (run_call K c b) <> Fault undefined_behaviour.
Proof.
  intros H Hc. destruct c as [|n|n|n|t|want|src]; simpl in *.
  - run_M. split; [unbuf; lia | done].
  - destruct (Z.le_gt_cases n (readable b)) as [Hle|Hgt].
    + destruct (has_read_wf n b H) as (b' & -> & Hwf & _); [lia|]. done.
    + rewrite has_read_too_long by done. done.
  - unfold has_written. run_M. rewrite writable_wf in Hc by done.
    rewrite wrap_small by (unfold in_u; unbuf; lia). split; [unbuf; lia | done].
  - unfold discard. run_M. destruct (pop_string_wf n b H Hc) as (b' & -> & Hwf & _). done.
  - unfold discard. run_M. destruct (Z.le_gt_cases (Z.of_nat (sizeof t)) (readable b)) as [Hle|Hgt].
    + destruct (pop_int_wf t b H Hle) as (b' & -> & Hwf & _). done.
    + rewrite pop_int_too_long by done. done.
  - pose proof (make_room_ok b want H Hc) as Hm.
    destruct (make_room want b) as [[[]| |] b']; simpl; [by destruct Hm| |done].
    subst b'. split; [by apply wf_compacted | done].
  - pose proof (push_back_wf K src b H Hc) as Hm.
    destruct (push_back K src b) as [[[]| |] b']; simpl; [by destruct Hm| |done].
    subst b'. split; [by apply wf_compacted | done].
Qed.

Lemma buffer_calls_safe_witness :
  let b := mk_buffer [x41; x42; x43; x44] 1 3 in
  wf b /\ respects (Push_back [x45; x46; x47]) b /\
  wf (snd (run_call flex_buffer (Push_back [x45; x46; x47]) b)) /\
  fst (run_call flex_buffer (Push_back [x45; x46; x47]) b) <> Fault undefined_behaviour.
Proof.
  intros b. assert (H : wf b) by (vm_compute; split_and!; discriminate).
  assert (Hr : respects (Push_back [x45; x46; x47]) b) by (vm_compute; discriminate).
  split; [exact H|]. split; [exact Hr|]. exact (buffer_calls_safe flex_buffer _ b H Hr).
Defined.

(** * A FIFO specification of the flexible buffer *)

Inductive fifo_op : Type :=
| Push (src : list byte)
| Pop (n : Z).

(** The abstract buffer: the unread bytes, and whether the oldest of them is
    still the first byte of the container. *)
Record fifo : Type := mk_fifo { queued : list byte; fresh : bool }.

Definition fifo_step (o : fifo_op) (q : fifo) : list byte * fifo :=
  match o with
  | Push src => ([], mk_fifo (queued q ++ src) true)
  | Pop n => (take (Z.to_nat n) (queued q),
              mk_fifo (drop (Z.to_nat n) (queued q))
                ((n <=? 0) && fresh q || (Z.of_nat (length (queued q)) <=? n)))
  end.

(** Bytes may be pushed only while nothing has been partly consumed. *)
Definition fifo_allows (o : fifo_op) (q : fifo) : bool :=
  match o with Push _ => fresh q | Pop n => 0 <=? n end.

Fixpoint fifo_run (ops : list fifo_op) (q : fifo) : list (list byte) * fifo :=
  match ops with
  | [] => ([], q)
  | o :: ops' =>
    let '(out, q1) := fifo_step o q in
    let '(outs, q2) := fifo_run ops' q1 in (out :: outs, q2)
  end.

Fixpoint fifo_guarded (ops : list fifo_op) (q : fifo) : bool :=
  match ops with
  | [] => true
  | o :: ops' => fifo_allows o q && fifo_guarded ops' (snd (fifo_step o q))
  end.

Definition run_op (o : fifo_op) : M buffer (list byte) :=
  match o with
  | Push src => push_back flex_buffer src;; M_ret []
  | Pop n => pop_string n
  end.

Fixpoint run_ops (ops : list fifo_op) : M buffer (list (list byte)) :=
  match ops with
  | [] => M_ret []
  | o :: ops' => let! out := run_op o in let! outs := run_ops ops' in M_ret (out :: outs)
  end.

Definition op_bytes (o : fifo_op) : Z :=
  match o with Push src => Z.of_nat (length src) | Pop _ => 0 end.
Definition ops_bytes (ops : list fifo_op) : Z := foldr (fun o n => op_bytes o + n) 0 ops.

(** The simulation relation. *)
Definition fifo_sim (b : buffer) (q : fifo) : Prop :=
  wf b /\ contents b = queued q /\ (fresh q = true -> index_read_ b = 0).

Lemma ops_bytes_nonneg ops : 0 <= ops_bytes ops.
Proof. induction ops as [|[] ops IH]; simpl; lia. Qed.

Lemma flex_push_back_succeeds src b :
  wf b -> readable b + Z.of_nat (length src) <= PTRDIFF_MAX ->
  exists b', push_back flex_buffer src b = (Val tt, b').
Proof.
  intros H Hs. pose proof (readable_wf b H) as Hr. pose proof (wf_compacted b H) as Hc.
  pose proof (writable_wf _ Hc) as Hw.
  assert (Hb : 0 <= Z.of_nat (length src) <= PTRDIFF_MAX) by (unbuf; lia).
  pose proof (push_back_wf flex_buffer src b H (proj2 Hb)) as Hp.
  destruct (push_back flex_buffer src b) as [[[]|e|] b'] eqn:E; [eauto| |done].
  exfalso. revert E. unfold push_back. run_M.
  pose proof (make_room_ok b (Z.of_nat (length src)) H Hb) as Hm.
  destruct (make_room _ b) as [[[]|e0|] b1] eqn:Em; [|clear Hm|done].
  - destruct Hm as (Hwf & Hir & Hiw & Hwr & _). pose proof (writable_wf b1 Hwf).
    rewrite store_wf by (unbuf; lia). done.
  - intros _. revert Em. unfold make_room, flex_buffer, flex_make_room. run_M.
    rewrite compact_wf by done. simpl.
    destruct (Z.ltb_spec (writable (mk_buffer (container_ b) 0 (readable b))) (Z.of_nat (length src)));
      [|done].
    unfold resize. rewrite wrap_small by (unfold in_u; unbuf; lia). cbn [index_write_].
    destruct (Z.ltb_spec PTRDIFF_MAX (readable b + Z.of_nat (length src))); [lia | done].
Qed.

Lemma pop_string_index n b :
  wf b -> 0 <= n -> (n <= 0 /\ index_read_ b = 0 \/ readable b <= n) ->
  index_read_ (snd (pop_string n b)) = 0.
Proof.
  intros H Hn Hd. pose proof (readable_wf b H) as Hr. unfold pop_string. run_M.
  set (m := if readable b <? n then readable b else n).
  assert (Hm : 0 <= m <= readable b) by (unfold m; unbuf; destruct (Z.ltb_spec (readable b) n); lia).
  rewrite load_front_wf by done. unfold has_read. run_M.
  rewrite (proj2 (Z.leb_le _ _)) by lia.
  destruct (Z.eqb_spec m (readable b)) as [|Hne]; [done|]. simpl.
  assert (m = 0 /\ index_read_ b = 0) as [-> ->].
  { unfold m in *. destruct (Z.ltb_spec (readable b) n); lia. }
  done.
Qed.

Lemma fifo_step_sim o b q :
  fifo_sim b q -> fifo_allows o q = true ->
  Z.of_nat (length (queued q)) + op_bytes o <= PTRDIFF_MAX ->
  exists b', run_op o b = (Val (fst (fifo_step o q)), b') /\ fifo_sim b' (snd (fifo_step o q)).
Proof.
  intros (H & Hc & Hf) Ha Hb. pose proof (length_contents b H) as Hl. rewrite Hc in Hl.
  destruct o as [src|n]; simpl in *.
  - run_M. assert (Hs : Z.of_nat (length src) <= PTRDIFF_MAX) by lia.
    destruct (flex_push_back_succeeds src b H) as [b' E]; [lia|].
    pose proof (push_back_wf flex_buffer src b H Hs) as Hp. rewrite E in Hp |- *.
    destruct Hp as (Hwf & Hir & Hcn). exists b'. split; [done|].
    rewrite head_bytes_at_zero in Hcn by auto. unfold fifo_sim. simpl. rewrite Hcn, Hc. auto.
  - apply Z.leb_le in Ha.
    destruct (pop_string_wf n b H Ha) as (b' & E & Hwf & Hcn).
    exists b'. rewrite E, Hc. split; [done|]. split_and!; [done | by rewrite Hcn, Hc |].
    simpl. intros Hfr. pose proof (pop_string_index n b H Ha) as Hi. rewrite E in Hi. apply Hi.
    destruct (Z.leb_spec n 0), (fresh q), (Z.leb_spec (Z.of_nat (length (queued q))) n);
      simpl in Hfr; try done; auto; right; lia.
Qed.

Lemma fifo_step_length o q :
  Z.of_nat (length (queued (snd (fifo_step o q)))) <= Z.of_nat (length (queued q)) + op_bytes o.
Proof. destruct o; simpl; len. Qed.

Lemma run_ops_sim ops : forall b q,
  fifo_sim b q -> fifo_guarded ops q = true ->
  Z.of_nat (length (queued q)) + ops_bytes ops <= PTRDIFF_MAX ->
  exists b', run_ops ops b = (Val (fst (fifo_run ops q)), b') /\ fifo_sim b' (snd (fifo_run ops q)).
Proof.
  induction ops as [|o ops IH]; intros b q Hs Hg Hb; [exists b; done|].
  simpl in Hg, Hb. apply andb_true_iff in Hg as [Ha Hg].
  pose proof (ops_bytes_nonneg ops). pose proof (fifo_step_length o q).
  destruct (fifo_step_sim o b q Hs Ha) as (b1 & E1 & Hs1); [lia|].
  destruct (IH b1 _ Hs1 Hg) as (b2 & E2 & Hs2); [lia|].
  exists b2. simpl. unfold M_bind, M_ret. rewrite E1, E2.
  destruct (fifo_step o q) as [out q1]. simpl in *.
  destruct (fifo_run ops q1) as [outs q2]. done.
Qed.

(** [C19] A flex_buffer refines a byte FIFO: for every sequence of push_back
    and pop_string calls in which bytes are pushed only while the front has
    not been partly consumed, starting from a new buffer, each call returns
    what the FIFO returns, the unread bytes are the FIFO's, and no call
    throws (while the bytes fit in memory). *)
Theorem flex_buffer_refines_fifo (init : nat) (ops : list fifo_op) :
  Z.of_nat init <= PTRDIFF_MAX -> ops_bytes ops <= PTRDIFF_MAX ->
  fifo_guarded ops (mk_fifo [] true) = true ->
  exists b', run_ops ops (new_flex_buffer init) = (Val (fst (fifo_run ops (mk_fifo [] true))), b') /\
    contents b' = queued (snd (fifo_run ops (mk_fifo [] true))).
Proof.
  intros Hi Hb Hg.
  destruct (run_ops_sim ops (new_flex_buffer init) (mk_fifo [] true)) as (b' & E & _ & Hc & _).
  - split_and!; [|done|done]. unbuf. rewrite length_replicate. lia.
  - done.
  - simpl. lia.
  - exists b'. auto.
Qed.

Lemma flex_buffer_refines_fifo_witness :
  let ops := [Push [x41; x42; x43]; Pop 1; Pop 5; Push [x44; x45]; Push [x46]; Pop 2] in
  fifo_guarded ops (mk_fifo [] true) = true /\
  exists b', run_ops ops (new_flex_buffer 2) =
    (Val [[]; [x41]; [x42; x43]; []; []; [x44; x45]], b') /\ contents b' = [x46].
Proof.
  intros ops. assert (Hg : fifo_guarded ops (mk_fifo [] true) = true) by reflexivity.
  split; [exact Hg|].
  exact (flex_buffer_refines_fifo 2 ops ltac:(vm_compute; discriminate) ltac:(vm_compute; discriminate) Hg).
Defined.

(** What make_room really does to unread bytes: after a successful
    make_room the readable bytes are the first readable() bytes of the
    container, because the memmove's destination is its source.  When part of
    the buffer has been consumed these are other bytes than the unread ones:
    a flex_buffer holding "ABCD" with "A" consumed reads "ABC" afterwards
    instead of "BCD". *)
Theorem make_room_keeps_only_head (K : MakeRoom) {HK : MakeRoomLaws K} :
  (forall b want b', wf b -> 0 <= want <= PTRDIFF_MAX ->
     make_room want b = (Val tt, b') -> contents b' = head_bytes b) /\
  (let b := mk_buffer [x41; x42; x43; x44] 1 4 in
   wf b /\ contents b = [x42; x43; x44] /\
   exists b', flex_make_room 128 b = (Val tt, b') /\ contents b' = [x41; x42; x43]).
Proof.
  split.
  - intros b want b' H Hw E. pose proof (make_room_ok b want H Hw) as Hm. rewrite E in Hm.
    destruct Hm as (Hwf & Hir & Hiw & _ & Hhd).
    rewrite <- head_bytes_at_zero, <- Hhd by done. unfold head_bytes.
    rewrite (readable_wf b') by done. rewrite Hir, Hiw, Z.sub_0_r. done.
  - intros b. split; [vm_compute; split_and!; discriminate|]. split; [reflexivity|].
    eexists. split; reflexivity.
Qed.

Lemma make_room_keeps_only_head_witness :
  let b := mk_buffer [x41; x42; x43; x44] 1 4 in
  wf b /\ contents b = [x42; x43; x44] /\
  exists b', flex_make_room 128 b = (Val tt, b') /\ contents b' = [x41; x42; x43].
Proof. exact (proj2 (make_room_keeps_only_head flex_buffer)). Defined.

(** * Searching *)

Definition occurs_at (needle hay : list byte) (k : nat) : Prop :=
  take (length needle) (drop k hay) = needle.

Lemma search_spec needle hay :
  (search hay needle <= length hay)%nat /\
  (search hay needle < length hay -> occurs_at needle hay (search hay needle))%nat /\
  (forall k, k < search hay needle -> ~ occurs_at needle hay k)%nat.
Proof.
  induction hay as [|x hay (IH1 & IH2 & IH3)]; simpl search.
  - split_and!; simpl; lia.
  - unfold occurs_at in *. case_decide as E.
    + simpl. split_and!; [lia | auto | lia].
    + simpl length. split_and!; [lia | intros; simpl; apply IH2; lia |].
      intros [|k] Hk; [done|]. simpl. apply IH3. lia.
Qed.

Lemma occurs_at_bound needle hay k :
  needle <> [] -> occurs_at needle hay k -> (k < length hay)%nat.
Proof.
  unfold occurs_at. intros Hn Ho. destruct (decide (k < length hay)%nat); [done|].
  rewrite drop_ge in Ho by lia. rewrite take_nil in Ho. by destruct needle.
Qed.

(** find_crlf and find_2crlf (from front() or from a pointer inside the
    readable range) return the first occurrence of the separator in the
    unread bytes, and nullptr exactly when it does not occur. *)
Theorem find_kcrlf_correct (n : nat) (start : Z) (b : buffer) :
  wf b -> (0 < n)%nat -> index_read_ b <= start <= index_write_ b ->
  let hay := slice (Z.to_nat start) (Z.to_nat (index_write_ b)) (container_ b) in
  match find_kcrlf n start b with
  | Some p => start <= p < index_write_ b /\
      occurs_at (take n kCRLF) hay (Z.to_nat (p - start)) /\
      (forall k, (k < Z.to_nat (p - start))%nat -> ~ occurs_at (take n kCRLF) hay k)
  | None => forall k, ~ occurs_at (take n kCRLF) hay k
  end.
Proof.
  intros H Hn Hs hay. unfold find_kcrlf. fold hay. change (back b) with (index_write_ b).
  fold hay. pose proof (search_spec (take n kCRLF) hay) as (S1 & S2 & S3).
  assert (Hlen : Z.of_nat (length hay) = index_write_ b - start).
  { unfold hay. unbuf. rewrite length_slice; lia. }
  destruct (Z.eqb_spec (start + Z.of_nat (search hay (take n kCRLF))) (index_write_ b)) as [E|Hne].
  - intros k Ho. apply (S3 k); [|done].
    assert (k < length hay)%nat; [|lia]. eapply occurs_at_bound; [|done].
    destruct n; [lia | done].
  - replace (start + Z.of_nat (search hay (take n kCRLF)) - start)
      with (Z.of_nat (search hay (take n kCRLF))) by lia.
    rewrite Nat2Z.id. split_and!; [lia | lia | apply S2; lia | done].
Qed.

Lemma find_kcrlf_correct_witness :
  let b := mk_buffer [x41; x0d; x0a; x42; x0d; x0a; x0d; x0a] 1 8 in
  find_2crlf b = Some 4 /\
  (1 <= 4 < 8 /\ occurs_at [x0d; x0a; x0d; x0a] (contents b) 3 /\
   forall k, (k < 3)%nat -> ~ occurs_at [x0d; x0a; x0d; x0a] (contents b) k).
Proof.
  intros b. split; [reflexivity|].
  exact (find_kcrlf_correct 4 1 b ltac:(vm_compute; split_and!; discriminate) ltac:(lia)
           ltac:(vm_compute; split; discriminate)).
Defined.

(** Integers survive the buffer: when the next bytes are the network
    order image of a value of the type, pop_int returns the value and
    consumes exactly those bytes; with fewer bytes readable the assert fails
    and nothing is consumed. *)
Theorem pop_int_reads_network_order (t : int_type) (x : Z) (rest : list byte) (b : buffer) :
  wf b -> representable t x ->
  (contents b = be_bytes (sizeof t) x ++ rest ->
   exists b', pop_int t b = (Val x, b') /\ wf b' /\ contents b' = rest) /\
  (readable b < Z.of_nat (sizeof t) -> pop_int t b = (Fault assertion_failed, b)).
Proof.
  intros H Hx. split; [|apply pop_int_too_long]. intros Hc.
  assert (Hl : length (be_bytes (sizeof t) x) = sizeof t) by (unfold be_bytes; len).
  pose proof (length_contents b H) as Hlc. rewrite Hc, length_app, Hl in Hlc.
  destruct (pop_int_wf t b H) as (b' & -> & Hwf & Hcn); [lia|]. exists b'.
  rewrite Hcn, Hc, take_app_length', drop_app_length' by done. split_and!; [|done|done].
  do 2 f_equal. unfold of_be_bytes, be_bytes. rewrite reverse_involutive, of_le_bytes_le_bytes.
  by apply convert_wrap.
Qed.

Lemma pop_int_reads_network_order_witness :
  let b := mk_buffer [x00; x78; x65; x43; x21; x09] 1 6 in
  (contents b = be_bytes 4 2019902241 ++ [x09]) /\
  exists b', pop_int U32 b = (Val 2019902241, b') /\ wf b' /\ contents b' = [x09].
Proof.
  intros b. assert (Hc : contents b = be_bytes 4 2019902241 ++ [x09]) by reflexivity.
  split; [exact Hc|].
  exact (proj1 (pop_int_reads_network_order U32 2019902241 [x09] b
    ltac:(vm_compute; split_and!; discriminate)
    ltac:(vm_compute; split; [discriminate | reflexivity])) Hc).
Defined.
