(* ===== verification/Skiplist.v ===== *)
(** The skip list of [detail/skiplist_map.hpp] at pointer level: a heap of
    nodes with one forward pointer per level, the embedded [head_], the
    [tail_] sentinel, and the loops of every operation.  [None] stands for a
    null or dangling dereference (or exhausted fuel); the facts in
    [SkiplistFacts] show that it does not arise on a well-formed list. *)
From S2P Require Import Prelude.

Section Skiplist.
Context {V : Type} (minKey maxKey : Z).

Definition loc : Type := nat.
Definition MAX_LEVEL : nat := 32.

(** [SkiplistNode]: the data pair and one pointer per level.  The two
    sentinels hold a default-constructed value, here [None]. *)
Record node : Type := mk_node {
  first : Z;
  second : option V;
  level_next_ : list (option loc)
}.

(** [SkiplistData] together with the allocator's heap.  [head_] is a member
    of the object; its address is the location [head]. *)
Record skiplist : Type := mk_skiplist {
  heap : gmap loc node;
  tail_ : loc;
  max_level_ : nat;
  length_ : Z
}.
Definition head : loc := 0%nat.

Definition with_heap (h : gmap loc node) (s : skiplist) : skiplist :=
  mk_skiplist h (tail_ s) (max_level_ s) (length_ s).

(** [p->level_next_[i]] as a pointer value, and its non-null dereference. *)
Definition next_ptr (h : gmap loc node) (p : loc) (i : nat) : option (option loc) :=
  n ← h !! p; level_next_ n !! i.
Definition next_at (h : gmap loc node) (p : loc) (i : nat) : option loc :=
  o ← next_ptr h p i; o.
Definition set_next (h : gmap loc node) (p : loc) (i : nat) (q : option loc) : option (gmap loc node) :=
  n ← h !! p;
  _ ← level_next_ n !! i;
  Some (<[p := mk_node (first n) (second n) (<[i := q]> (level_next_ n))]> h).

(** [SkiplistImpl(alloc)]: the two sentinels, every level of [head_] pointing
    at the tail. *)
Definition new_skiplist : skiplist :=
  let tail := 1%nat in
  mk_skiplist
    (<[head := mk_node minKey None (replicate MAX_LEVEL (Some tail))]>
      {[ tail := mk_node maxKey None (replicate MAX_LEVEL None) ]})
    tail 1 0.

(** [random_level]: [draw k] is the outcome of the [k]-th Bernoulli trial. *)
Fixpoint random_level_from (fuel level : nat) (draw : nat -> bool) : nat :=
  match fuel with
  | O => level
  | S fuel' =>
    if (level <? MAX_LEVEL)%nat && draw (level - 1)%nat
    then random_level_from fuel' (level + 1) draw else level
  end.
Definition random_level (draw : nat -> bool) : nat := random_level_from MAX_LEVEL 1 draw.

(** The inner [while] of the searches: move right on level [i] while the next
    key is [past]. *)
Fixpoint advance (fuel : nat) (past : Z -> bool) (h : gmap loc node) (i : nat) (cur : loc) : option loc :=
  match fuel with
  | O => None
  | S fuel' =>
    q ← next_at h cur i;
    n ← h !! q;
    if past (first n) then advance fuel' past h i q else Some cur
  end.

(** The outer [for] of the searches, from level [i - 1] down to 0, recording
    the last node visited on every level. *)
Fixpoint descend (past : Z -> bool) (h : gmap loc node) (i : nat) (cur : loc) : option (list loc) :=
  match i with
  | O => Some []
  | S i' =>
    c ← advance (S (base.size h)) past h i' cur;
    rest ← descend past h i' c;
    Some (rest ++ [c])
  end.

(** [find_prevs]: [while (key > next->first)]; [find_upper_prevs]:
    [while (key >= next->first)].  The array's entries above the current
    height are null. *)
Definition find_with (past : Z -> bool) (s : skiplist) : option (list (option loc)) :=
  prevs ← descend past (heap s) (max_level_ s) head;
  Some ((Some <$> prevs) ++ replicate (MAX_LEVEL - max_level_ s) None).
Definition find_prevs (key : Z) (s : skiplist) : option (list (option loc)) :=
  find_with (fun k => k <? key) s.
Definition find_upper_prevs (key : Z) (s : skiplist) : option (list (option loc)) :=
  find_with (fun k => k <=? key) s.

(** [contains] *)
Definition contains (target : Z) (s : skiplist) : option bool :=
  prevs ← descend (fun k => k <? target) (heap s) (max_level_ s) head;
  cur ← prevs !! 0%nat;
  q ← next_ptr (heap s) cur 0;
  match q with
  | None => Some false
  | Some p => n ← heap s !! p; Some (first n =? target)
  end.

Definition begin (s : skiplist) : option loc := next_at (heap s) head 0.
Definition end_ (s : skiplist) : loc := tail_ s.
(** [operator++] of the iterator: along level 0. *)
Definition iter_next (s : skiplist) (cur : loc) : option loc := next_at (heap s) cur 0.
Definition iter_key (s : skiplist) (cur : loc) : option Z := n ← heap s !! cur; Some (first n).
Definition size (s : skiplist) : Z := length_ s.
Definition empty (s : skiplist) : bool := length_ s =? 0.

(** [for (i = level - 1; i >= 0; i--)
       cur->next[i] = prevs[i]->next[i], prevs[i]->next[i] = cur;] *)
Fixpoint link (h : gmap loc node) (cur : loc) (prevs : list (option loc)) (i : nat) : option (gmap loc node) :=
  match i with
  | O => Some h
  | S i' =>
    o ← prevs !! i'; p ← o;
    q ← next_ptr h p i';
    h1 ← set_next h cur i' q;
    h2 ← set_next h1 p i' (Some cur);
    link h2 cur prevs i'
  end.

(** [for (int i = max_level_; i < level; i++) prevs[i] = &head_;] *)
Definition raise_prevs (prevs : list (option loc)) (from to : nat) : list (option loc) :=
  imap (fun i p => if decide (from <= i < to)%nat then Some head else p) prevs.

(** [emplace] (and [add], whose body is the same). *)
Definition emplace (key : Z) (val : V) (draw : nat -> bool) (s : skiplist) : option (loc * skiplist) :=
  let len := wrap 64 (length_ s + 1) in
  prevs ← find_prevs key s;
  let level := random_level draw in
  let raised := (max_level_ s <? level)%nat in
  let prevs' := if raised then raise_prevs prevs (max_level_ s) level else prevs in
  let ml := if raised then level else max_level_ s in
  let cur := fresh (dom (heap s)) in
  let h := <[cur := mk_node key (Some val) (replicate level None)]> (heap s) in
  h' ← link h cur prevs' level;
  Some (cur, mk_skiplist h' (tail_ s) ml len).
Definition add (data : Z * V) (draw : nat -> bool) (s : skiplist) : option (loc * skiplist) :=
  emplace (fst data) (snd data) draw s.

(** [while (max_level_ > 1 && head_.level_next_[max_level_ - 1] == tail_) max_level_--;] *)
Fixpoint lower (h : gmap loc node) (tail : loc) (ml : nat) : option nat :=
  match ml with
  | S (S m as ml') =>
    q ← next_ptr h head ml';
    if decide (q = Some tail) then lower h tail ml' else Some ml
  | _ => Some ml
  end.

(** [for (i = 0; i < del->level_next_.size(); i++)
       prevs[i]->next[i] = del->next[i];] *)
Fixpoint unlink (h : gmap loc node) (del : loc) (prevs : list (option loc)) (i n : nat) : option (gmap loc node) :=
  match n with
  | O => Some h
  | S n' =>
    o ← prevs !! i; p ← o;
    q ← next_ptr h del i;
    h' ← set_next h p i q;
    unlink h' del prevs (S i) n'
  end.

Definition erase_one (key : Z) (s : skiplist) : option (bool * skiplist) :=
  prevs ← find_prevs key s;
  o ← prevs !! 0%nat; p0 ← o;
  q ← next_ptr (heap s) p0 0;
  match q with
  | None => Some (false, s)
  | Some del =>
    n ← heap s !! del;
    if decide (first n = key) then
      h ← unlink (heap s) del prevs 0 (length (level_next_ n));
      let h' := delete del h in
      ml ← lower h' (tail_ s) (max_level_ s);
      Some (true, mk_skiplist h' (tail_ s) ml (wrap 64 (length_ s - 1)))
    else Some (false, s)
  end.

(** [for (i = 0; i < max_level_; ++i) {
       head_.next[i] = prevs[i]->next[i];
       if (prevs[i] != &head_) prevs[i]->next[i] = nullptr; }] *)
Fixpoint cut (h : gmap loc node) (prevs : list (option loc)) (i n : nat) : option (gmap loc node) :=
  match n with
  | O => Some h
  | S n' =>
    o ← prevs !! i; p ← o;
    q ← next_ptr h p i;
    h1 ← set_next h head i q;
    h2 ← (if decide (p = head) then Some h1 else set_next h1 p i None);
    cut h2 prevs (S i) n'
  end.

(** The [for (; cur;)] loop of [pop_less_eq]: collect and deallocate. *)
Fixpoint collect (fuel : nat) (h : gmap loc node) (cur : option loc) : option (list V * gmap loc node) :=
  match cur with
  | None => Some ([], h)
  | Some p =>
    match fuel with
    | O => None
    | S fuel' =>
      next ← next_ptr h p 0;
      n ← h !! p;
      v ← second n;
      r ← collect fuel' (delete p h) next;
      Some (v :: r.1, r.2)
    end
  end.

Definition pop_less_eq (key : Z) (s : skiplist) : option (list V * skiplist) :=
  prevs ← find_upper_prevs key s;
  o ← prevs !! 0%nat; p0 ← o;
  if decide (p0 = head) then Some ([], s) else
    start ← next_ptr (heap s) head 0;
    h ← cut (heap s) prevs 0 (max_level_ s);
    r ← collect (S (base.size h)) h start;
    ml ← lower r.2 (tail_ s) (max_level_ s);
    Some (r.1, mk_skiplist r.2 (tail_ s) ml (wrap 64 (length_ s - Z.of_nat (length r.1)))).

(** The loop of [do_less_eq_then_pop]: the callback [f] runs on the list with
    the expired prefix already detached, and may insert into it; [w] is the
    state the callback's closure captures. *)
Fixpoint visit {W} (fuel : nat) (f : V -> W -> skiplist -> option (W * skiplist)) (w : W) (s : skiplist)
    (cur : option loc) (cnt : Z) : option (Z * W * skiplist) :=
  match cur with
  | None => Some (cnt, w, s)
  | Some p =>
    match fuel with
    | O => None
    | S fuel' =>
      next ← next_ptr (heap s) p 0;
      n ← heap s !! p;
      v ← second n;
      r ← f v w s;
      visit fuel' f r.1 (with_heap (delete p (heap r.2)) r.2) next (cnt + 1)
    end
  end.

Definition do_less_eq_then_pop {W} (key : Z) (f : V -> W -> skiplist -> option (W * skiplist))
    (w : W) (s : skiplist) : option (W * skiplist) :=
  prevs ← find_upper_prevs key s;
  o ← prevs !! 0%nat; p0 ← o;
  if decide (p0 = head) then Some (w, s) else
    start ← next_ptr (heap s) head 0;
    h ← cut (heap s) prevs 0 (max_level_ s);
    r ← visit (S (base.size h)) f w (with_heap h s) start 0;
    ml ← lower (heap r.2) (tail_ r.2) (max_level_ r.2);
    Some (r.1.2, mk_skiplist (heap r.2) (tail_ r.2) ml (wrap 64 (length_ r.2 - r.1.1))).

(** [destroy(first)]: free a chain along level 0. *)
Fixpoint destroy (fuel : nat) (h : gmap loc node) (first : option loc) : option (gmap loc node) :=
  match first with
  | None => Some h
  | Some p =>
    match fuel with
    | O => None
    | S fuel' => next ← next_ptr h p 0; destroy fuel' (delete p h) next
    end
  end.

(** [~SkiplistImpl()] *)
Definition destructor (s : skiplist) : option (gmap loc node) :=
  first ← next_ptr (heap s) head 0;
  destroy (S (base.size (heap s))) (heap s) first.

(** [check_correctness]: count the nodes along level 0, then look for an
    inversion level by level; [cur] is not reset between levels. *)
Fixpoint count_nodes (fuel : nat) (h : gmap loc node) (cur : option loc) (count : Z) : option (option Z) :=
  match cur with
  | None => Some (Some count)
  | Some p =>
    match fuel with
    | O => None
    | S fuel' =>
      q ← next_ptr h p 0;
      if 100000 <=? count + 1 then Some None else count_nodes fuel' h q (count + 1)
    end
  end.

Fixpoint check_level (fuel : nat) (h : gmap loc node) (i : nat) (cur : loc) (count : Z)
  : option (option (loc * Z)) :=
  match fuel with
  | O => None
  | S fuel' =>
    q ← next_ptr h cur i;
    match q with
    | None => Some (Some (cur, count))
    | Some q =>
      n ← h !! cur; m ← h !! q;
      if first m <? first n then Some None
      else if 100000 <=? count + 1 then Some None
      else check_level fuel' h i q (count + 1)
    end
  end.

Fixpoint check_levels (h : gmap loc node) (i n : nat) (cur : loc) (count : Z) : option bool :=
  match n with
  | O => Some true
  | S n' =>
    r ← check_level (S (base.size h)) h i cur count;
    match r with
    | None => Some false
    | Some (cur', count') => check_levels h (S i) n' cur' count'
    end
  end.

Definition check_correctness (s : skiplist) : option bool :=
  c ← count_nodes (S (base.size (heap s))) (heap s) (Some head) 0;
  match c with
  | None => Some false
  | Some count =>
    if wrap 64 (count - 2) =? length_ s then check_levels (heap s) 0 MAX_LEVEL head 0
    else Some false
  end.
End Skiplist.

Arguments node V : clear implicits.
Arguments skiplist V : clear implicits.
