(* ===== verification/SkiplistFacts.v ===== *)
(** Correctness of the pointer-level skip list: the representation predicate,
    the effect of every loop on the pointers, and the refinement of a sorted
    association list by [emplace], [erase_one], [pop_less_eq],
    [do_less_eq_then_pop], [contains] and [check_correctness]. *)
From Stdlib Require Import Sorting.Sorted.
From stdpp Require Import sorting.
From S2P Require Import Prelude Skiplist.

Section Facts.
Context {V : Type} {minKey maxKey : Z}.
Implicit Types (h : gmap loc (node V)) (s : skiplist V).

(** Case analysis on the tests left by pointer updates. *)
Ltac dsolve :=
  repeat case_decide; destruct_and?; subst; try done; try lia; try congruence;
  try match goal with i : nat, j : nat |- _ => assert (j = i) by lia; subst j end;
  match goal with
  | H : ~ (_ /\ _) |- _ => exfalso; apply H; split_and?; (done || congruence || lia || (f_equal; lia))
  end.

(** * Pointers and shapes *)

(** The part of a node that the pointer updates leave alone. *)
Definition info h (p : loc) : option (Z * option V * nat) :=
  (fun n => (first n, second n, length (level_next_ n))) <$> h !! p.
Definition shape h h' : Prop := forall p, info h p = info h' p.

Lemma shape_refl h : shape h h.
Proof. done. Qed.
Lemma shape_trans h1 h2 h3 : shape h1 h2 -> shape h2 h3 -> shape h1 h3.
Proof. intros H1 H2 p. by rewrite H1, H2. Qed.

Lemma info_Some h p k v n :
  info h p = Some (k, v, n) <->
  exists nx, h !! p = Some (mk_node k v nx) /\ length nx = n.
Proof.
  unfold info. destruct (h !! p) as [[k' v' nx]|]; simpl.
  - split; [intros [= -> -> <-]; eauto | by intros (? & [= -> -> ->] & ->)].
  - split; [done | by intros (? & ? & _)].
Qed.

Lemma shape_dom h h' : shape h h' -> dom h = dom h'.
Proof.
  intros Hs. apply set_eq. intros p. rewrite !elem_of_dom. specialize (Hs p).
  unfold info in Hs. destruct (h !! p), (h' !! p); simpl in *; try done; split; eauto.
Qed.

Lemma next_ptr_is_Some h p k v n i :
  info h p = Some (k, v, n) -> is_Some (next_ptr h p i) <-> (i < n)%nat.
Proof.
  intros (nx & E & <-)%info_Some. unfold next_ptr. rewrite E. simpl. apply lookup_lt_is_Some.
Qed.

Lemma set_next_spec h p i q :
  is_Some (next_ptr h p i) ->
  exists h', set_next h p i q = Some h' /\ shape h h' /\
    forall p' j, next_ptr h' p' j = if decide (p' = p /\ j = i) then Some q else next_ptr h p' j.
Proof.
  unfold set_next, next_ptr. intros [o Ho].
  destruct (h !! p) as [n|] eqn:E; simpl in *; [|done]. rewrite Ho. simpl.
  eexists. split; [done|]. split.
  - intros p'. unfold info. rewrite lookup_insert. case_decide as Hp; [|done].
    subst p'. rewrite E. simpl. by rewrite length_insert.
  - intros p' j. rewrite lookup_insert. destruct (decide (p = p')) as [<-|Hp]; simpl.
    + rewrite list_lookup_insert, E. apply lookup_lt_Some in Ho. simpl.
      dsolve.
    + rewrite decide_False by intuition congruence. done.
Qed.

(** * Chains along one level *)

Fixpoint chain h (i : nat) (p : loc) (l : list loc) (q : option loc) : Prop :=
  match l with
  | [] => next_ptr h p i = Some q
  | x :: l' => next_ptr h p i = Some (Some x) /\ chain h i x l' q
  end.

Definition lst (p : loc) (l : list loc) : loc := default p (last l).

Lemma lst_cons p a l : lst p (a :: l) = lst a l.
Proof. unfold lst. rewrite last_cons. by destruct (last l). Qed.

Lemma lst_in p l : lst p l ∈ p :: l.
Proof.
  revert p. induction l as [|a l IH]; intros p; [constructor|].
  rewrite lst_cons. right. apply IH.
Qed.

Lemma chain_ext h h' i l : forall p q,
  (forall p', p' ∈ p :: l -> next_ptr h' p' i = next_ptr h p' i) ->
  chain h i p l q -> chain h' i p l q.
Proof.
  induction l as [|a l IH]; simpl; intros p q He.
  - by rewrite He by constructor.
  - intros [Ha Hc]. rewrite He by constructor. split; [done|].
    apply IH; [|done]. intros p' Hp. apply He. by constructor.
Qed.

Lemma chain_app_r h i A : forall p B q, chain h i p (A ++ B) q -> chain h i (lst p A) B q.
Proof.
  induction A as [|a A IH]; simpl; intros p B q; [done|].
  intros [_ H]. rewrite lst_cons. by apply IH.
Qed.

Lemma chain_insert h h' i x q A : forall p B,
  chain h i p (A ++ B) q -> NoDup (p :: A ++ B) ->
  next_ptr h' (lst p A) i = Some (Some x) ->
  next_ptr h' x i = next_ptr h (lst p A) i ->
  (forall p', p' ∈ p :: A ++ B -> p' <> lst p A -> next_ptr h' p' i = next_ptr h p' i) ->
  chain h' i p (A ++ x :: B) q.
Proof.
  induction A as [|a A IH]; simpl; intros p B Hc Hnd Hx Hn Ho.
  - split; [done|]. change (lst p []) with p in *. destruct B as [|b B]; simpl in *; [congruence|].
    destruct Hc as [Hb Hc]. split; [congruence|].
    apply (chain_ext h); [|done]. intros p' Hp. apply Ho; [by right|].
    intros ->. apply NoDup_cons in Hnd as [Hnd _]. done.
  - destruct Hc as [Ha Hc]. apply NoDup_cons in Hnd as [Hp Hnd]. rewrite lst_cons in *.
    split.
    + rewrite Ho; [done | constructor |]. intros Heq. apply Hp. rewrite Heq.
      apply (elem_of_app (a :: A)). left. apply lst_in.
    + apply IH; try done. intros p' Hp' Hne. apply Ho; [by right | done].
Qed.

Lemma chain_remove h h' i x q A : forall p B,
  chain h i p (A ++ x :: B) q -> NoDup (p :: A ++ x :: B) ->
  next_ptr h' (lst p A) i = next_ptr h x i ->
  (forall p', p' ∈ p :: A ++ B -> p' <> lst p A -> next_ptr h' p' i = next_ptr h p' i) ->
  chain h' i p (A ++ B) q.
Proof.
  induction A as [|a A IH]; simpl; intros p B [Ha Hc] Hnd Hx Ho.
  - change (lst p []) with p in *.
    apply NoDup_cons in Hnd as [Hp Hnd]. destruct B as [|b B]; simpl in *; [congruence|].
    destruct Hc as [Hb Hc]. split; [congruence|].
    apply (chain_ext h); [|done]. intros p' Hp'. apply Ho; [by right|].
    intros ->. apply Hp. by right.
  - apply NoDup_cons in Hnd as [Hp Hnd]. rewrite lst_cons in *. split.
    + rewrite Ho; [done | constructor |]. intros Heq. apply Hp. rewrite Heq.
      pose proof (lst_in a A) as Hl. set_solver.
    + apply IH; try done. intros p' Hp' Hne. apply Ho; [by right | done].
Qed.

(** * The loops over levels *)

Lemma link_spec cur prevs (P : nat -> loc) : forall i h,
  (forall j, j < i -> prevs !! j = Some (Some (P j)))%nat ->
  (forall j, j < i -> P j <> cur /\ is_Some (next_ptr h (P j) j) /\ is_Some (next_ptr h cur j))%nat ->
  exists h', link h cur prevs i = Some h' /\ shape h h' /\
    forall p j, next_ptr h' p j =
      if decide (j < i)%nat then
        if decide (p = cur) then next_ptr h (P j) j
        else if decide (p = P j) then Some (Some cur) else next_ptr h p j
      else next_ptr h p j.
Proof.
  induction i as [|i IH]; intros h HP Hn; cbn [link].
  - exists h. split_and!; [done | done |]. intros p j. rewrite decide_False by lia. done.
  - rewrite HP by lia. simpl. destruct (Hn i ltac:(lia)) as (Hne & [q Hq] & Hc). rewrite Hq. simpl.
    destruct (set_next_spec h cur i q Hc) as (h1 & -> & S1 & N1). simpl.
    destruct (set_next_spec h1 (P i) i (Some cur)) as (h2 & -> & S2 & N2).
    { rewrite N1, decide_False by intuition congruence. eauto. }
    simpl. destruct (IH h2) as (h' & -> & S3 & N3); [intros; apply HP; lia| |].
    { intros j Hj. rewrite !N2, !N1, !decide_False by lia. apply Hn. lia. }
    exists h'. split_and!; [done | by eapply shape_trans; [|eapply shape_trans] |].
    intros p j. rewrite N3, !N2, !N1. dsolve.
Qed.

Lemma unlink_spec del prevs (P : nat -> loc) : forall n i h,
  (forall j, i <= j < i + n -> prevs !! j = Some (Some (P j)))%nat ->
  (forall j, i <= j < i + n -> is_Some (next_ptr h (P j) j) /\ is_Some (next_ptr h del j))%nat ->
  exists h', unlink h del prevs i n = Some h' /\ shape h h' /\
    forall p j, next_ptr h' p j =
      if decide ((i <= j < i + n)%nat /\ p = P j) then next_ptr h del j else next_ptr h p j.
Proof.
  induction n as [|n IH]; intros i h HP Hn; cbn [unlink].
  - exists h. split_and!; [done | done |]. intros p j. rewrite decide_False by lia. done.
  - rewrite HP by lia. simpl. destruct (Hn i ltac:(lia)) as (Hp & [q Hq]). rewrite Hq. simpl.
    destruct (set_next_spec h (P i) i q Hp) as (h1 & -> & S1 & N1). simpl.
    destruct (IH (S i) h1) as (h' & -> & S2 & N2); [intros; apply HP; lia| |].
    { intros j Hj. rewrite !N1, !decide_False by lia. apply Hn. lia. }
    exists h'. split_and!; [done | by eapply shape_trans |].
    intros p j. rewrite N2, !N1. dsolve.
Qed.

Lemma cut_spec prevs (P : nat -> loc) : forall n i h,
  (forall j, i <= j < i + n -> prevs !! j = Some (Some (P j)))%nat ->
  (forall j, i <= j < i + n -> is_Some (next_ptr h (P j) j) /\ is_Some (next_ptr h head j))%nat ->
  exists h', cut h prevs i n = Some h' /\ shape h h' /\
    forall p j, next_ptr h' p j =
      if decide (i <= j < i + n)%nat then
        if decide (p = head) then next_ptr h (P j) j
        else if decide (p = P j) then Some None else next_ptr h p j
      else next_ptr h p j.
Proof.
  induction n as [|n IH]; intros i h HP Hn; cbn [cut].
  - exists h. split_and!; [done | done |]. intros p j. rewrite decide_False by lia. done.
  - rewrite HP by lia. simpl. destruct (Hn i ltac:(lia)) as ([q Hq] & Hh). rewrite Hq. simpl.
    destruct (set_next_spec h head i q Hh) as (h1 & -> & S1 & N1). simpl.
    assert (exists h2, (if decide (P i = head) then Some h1 else set_next h1 (P i) i None) = Some h2 /\
      shape h1 h2 /\ forall p j, next_ptr h2 p j =
        if decide (p = P i /\ j = i /\ P i <> head) then Some None else next_ptr h1 p j)
      as (h2 & -> & S2 & N2).
    { case_decide as E; [exists h1; split_and!; [done..|]; intros; by rewrite decide_False by intuition congruence|].
      destruct (set_next_spec h1 (P i) i None) as (h2 & -> & S2 & N2).
      { rewrite N1, decide_False by intuition congruence. eauto. }
      exists h2. split_and!; [done..|]. intros. rewrite N2. dsolve. }
    simpl. destruct (IH (S i) h2) as (h' & -> & S3 & N3); [intros; apply HP; lia| |].
    { intros j Hj. rewrite !N2, !N1, !decide_False by lia. apply Hn. lia. }
    exists h'. split_and!; [done | by eapply shape_trans; [|eapply shape_trans] |].
    intros p j. rewrite N3, !N2, !N1. dsolve.
Qed.

(** * The representation predicate *)

(** An entry of the list: its node, key, value and height. *)
Record entry : Type := mk_entry { eloc : loc; ekey : Z; eval : V; elev : nat }.

Definition at_level (i : nat) (ns : list entry) : list entry :=
  filter (fun e => (i < elev e)%nat) ns.
Definition locs (ns : list entry) : list loc := eloc <$> ns.

(** [Rep s ns extra k]: the heap of [s] holds the two sentinels, the nodes of
    [ns] in key order, linked on every level through the nodes that reach
    it, and the detached nodes [extra]; [k] entries are still counted in
    [length_] though no longer linked. *)
Record Rep s (ns : list entry) (extra : gset loc) (k : Z) : Prop := mk_Rep {
  rep_nodup : NoDup (head :: tail_ s :: locs ns);
  rep_head : info (heap s) head = Some (minKey, None, MAX_LEVEL);
  rep_tail : info (heap s) (tail_ s) = Some (maxKey, None, MAX_LEVEL);
  rep_tail_null : forall i, (i < MAX_LEVEL)%nat -> next_ptr (heap s) (tail_ s) i = Some None;
  rep_entries : forall e, e ∈ ns ->
    info (heap s) (eloc e) = Some (ekey e, Some (eval e), elev e) /\
    (1 <= elev e <= max_level_ s)%nat /\ ekey e <= maxKey;
  rep_sorted : StronglySorted Z.le (ekey <$> ns);
  rep_chain : forall i, (i < MAX_LEVEL)%nat ->
    chain (heap s) i head (locs (at_level i ns)) (Some (tail_ s));
  rep_levels : (1 <= max_level_ s <= MAX_LEVEL)%nat;
  rep_length : length_ s = wrap 64 (Z.of_nat (length ns) + k);
  rep_dom : dom (heap s) = {[head; tail_ s]} ∪ list_to_set (locs ns) ∪ extra;
  rep_extra : extra ## {[head; tail_ s]} ∪ list_to_set (locs ns)
}.

(** The abstract value: the (key, value) pairs in order. *)
Definition pairs (ns : list entry) : list (Z * V) := (fun e => (ekey e, eval e)) <$> ns.

(** ** Lists of entries *)

Lemma at_level_app i A B : at_level i (A ++ B) = at_level i A ++ at_level i B.
Proof. apply filter_app. Qed.

Lemma locs_app A B : locs (A ++ B) = locs A ++ locs B.
Proof. apply fmap_app. Qed.

Lemma locs_at_level_app i A B :
  locs (at_level i (A ++ B)) = locs (at_level i A) ++ locs (at_level i B).
Proof. by rewrite at_level_app, locs_app. Qed.

Lemma at_level_subseteq i ns p : p ∈ locs (at_level i ns) -> p ∈ locs ns.
Proof.
  unfold locs, at_level. rewrite !list_elem_of_fmap. intros (e & -> & He).
  apply list_elem_of_filter in He as [_ He]. eauto.
Qed.

Lemma at_level_mono i j ns p :
  (i <= j)%nat -> p ∈ locs (at_level j ns) -> p ∈ locs (at_level i ns).
Proof.
  unfold locs, at_level. intros Hij. rewrite !list_elem_of_fmap. intros (e & -> & He).
  apply list_elem_of_filter in He as [Hl He]. exists e. split; [done|].
  apply list_elem_of_filter. split; [lia | done].
Qed.

Lemma at_level_all i ns : (forall e, e ∈ ns -> i < elev e)%nat -> at_level i ns = ns.
Proof. intros H. by apply filter_all. Qed.

Lemma at_level_none i ns : (forall e, e ∈ ns -> elev e <= i)%nat -> at_level i ns = [].
Proof. intros H. apply filter_none. intros e He. specialize (H e He). lia. Qed.

Lemma NoDup_at_level p i ns : NoDup (p :: locs ns) -> NoDup (p :: locs (at_level i ns)).
Proof.
  intros [Hp Hnd]%NoDup_cons. apply NoDup_cons. split.
  - intros H. by apply Hp, (at_level_subseteq i).
  - unfold locs, at_level. clear Hp. induction ns as [|e ns IH]; [constructor|].
    simpl in Hnd. apply NoDup_cons in Hnd as [He Hnd]. rewrite filter_cons.
    case_decide; [|by apply IH]. simpl. apply NoDup_cons. split; [|by apply IH].
    intros Hi. apply He. by apply (at_level_subseteq i).
Qed.

Lemma lst_app p X Y : lst p (X ++ Y) = lst (lst p X) Y.
Proof.
  revert p. induction X as [|x X IH]; intros p; [done|]. simpl. rewrite !lst_cons. apply IH.
Qed.

Lemma in_lst p l c : c ∈ p :: l -> exists X Y, l = X ++ Y /\ lst p X = c.
Proof.
  revert p. induction l as [|a l IH]; intros p Hc.
  - apply list_elem_of_singleton in Hc as ->. by exists [], [].
  - apply elem_of_cons in Hc as [->|Hc]; [by exists [], (a :: l)|].
    destruct (IH a Hc) as (X & Y & -> & <-). exists (a :: X), Y. by rewrite lst_cons.
Qed.

(** ** Searching *)

Definition keyed h (p : loc) (k : Z) : Prop := exists v n, info h p = Some (k, v, n).

Lemma keyed_lookup h p k : keyed h p k -> exists n, h !! p = Some n /\ first n = k.
Proof. intros (v & n & (nx & E & _)%info_Some). eauto. Qed.

Lemma advance_spec past h i t : forall Y cur fuel B,
  chain h i cur (Y ++ B) (Some t) ->
  (forall y, y ∈ Y -> exists k, keyed h y k /\ past k = true) ->
  (exists k, keyed h (default t (list.head B)) k /\ past k = false) ->
  (length Y < fuel)%nat ->
  advance fuel past h i cur = Some (lst cur Y).
Proof.
  induction Y as [|y Y IH]; intros cur [|fuel] B Hc HY HB Hf; simpl in *; try lia.
  - destruct HB as (k & Hk & Hp). unfold next_at.
    assert (next_ptr h cur i = Some (Some (default t (list.head B)))) as ->
      by (destruct B; simpl in *; tauto).
    simpl. destruct (keyed_lookup _ _ _ Hk) as (n & -> & <-). simpl. by rewrite Hp.
  - destruct Hc as [Hn Hc]. unfold next_at. rewrite Hn. simpl.
    destruct (HY y ltac:(constructor)) as (k & Hk & Hp).
    destruct (keyed_lookup _ _ _ Hk) as (n & -> & <-). simpl. rewrite Hp, lst_cons.
    eapply IH; [done| |done|lia]. intros z Hz. apply HY. by constructor.
Qed.

Lemma NoDup_length_size h (l : list loc) :
  NoDup l -> (forall p, p ∈ l -> p ∈ dom h) -> (length l <= base.size h)%nat.
Proof.
  intros Hnd Hd. rewrite <- size_dom.
  rewrite <- (size_list_to_set (C := gset loc) l) by done.
  apply subseteq_size. intros p. rewrite elem_of_list_to_set. apply Hd.
Qed.

(** A search predicate splits the sorted entries in two. *)
Definition splits (past : Z -> bool) (ns A B : list entry) : Prop :=
  ns = A ++ B /\ (forall e, e ∈ A -> past (ekey e) = true) /\
  (forall e, e ∈ B -> past (ekey e) = false) /\ past maxKey = false.

Lemma splits_exist past ns :
  (forall a b, a <= b -> past b = true -> past a = true) -> past maxKey = false ->
  StronglySorted Z.le (ekey <$> ns) -> exists A B, splits past ns A B.
Proof.
  intros Hm Hmax Hs. induction ns as [|e ns IH]; simpl in *.
  - exists [], []. split_and!; [done | by intros ? ?%elem_of_nil | by intros ? ?%elem_of_nil | done].
  - apply StronglySorted_inv in Hs as [Hs Hle]. destruct (past (ekey e)) eqn:E.
    + destruct (IH Hs) as (A & B & -> & HA & HB & _). exists (e :: A), B. split_and!; try done.
      intros x [->|Hx]%elem_of_cons; auto.
    + exists [], (e :: ns). split_and!; try done; [by intros ? ?%elem_of_nil|].
      intros x [->|Hx]%elem_of_cons; [done|].
      destruct (past (ekey x)) eqn:Ex; [|done]. rewrite (Hm (ekey e) (ekey x)) in E; [done| |done].
      rewrite Forall_forall in Hle. apply Hle, list_elem_of_fmap. eauto.
Qed.

Lemma rep_keyed s ns extra k e : Rep s ns extra k -> e ∈ ns -> keyed (heap s) (eloc e) (ekey e).
Proof. intros H He. destruct (rep_entries _ _ _ _ H e He) as (Hi & _). eexists _, _. done. Qed.

Lemma rep_loc_info s ns extra k p :
  Rep s ns extra k -> p ∈ head :: tail_ s :: locs ns ->
  exists kk v n, info (heap s) p = Some (kk, v, n).
Proof.
  intros H [->|[->|(e & -> & He)%list_elem_of_fmap]%elem_of_cons]%elem_of_cons.
  - rewrite (rep_head _ _ _ _ H). eauto.
  - rewrite (rep_tail _ _ _ _ H). eauto.
  - destruct (rep_entries _ _ _ _ H e He) as (-> & _). eauto.
Qed.

Lemma info_dom h p x : info h p = Some x -> p ∈ dom h.
Proof. unfold info. rewrite elem_of_dom. destruct (h !! p); [eauto | done]. Qed.

Lemma rep_nodup_head s ns extra k : Rep s ns extra k -> NoDup (head :: locs ns).
Proof.
  intros H. pose proof (rep_nodup _ _ _ _ H) as [Hh [_ Hn]%NoDup_cons]%NoDup_cons.
  apply NoDup_cons. split; [set_solver | done].
Qed.

Lemma rep_nodup_level s ns extra k i : Rep s ns extra k -> NoDup (head :: locs (at_level i ns)).
Proof. intros H. eapply NoDup_at_level, rep_nodup_head, H. Qed.

(** On every level below [i] the descent stops at the last entry that is
    still past, or at the head. *)
Lemma descend_spec past s ns A B extra k :
  Rep s ns extra k -> splits past ns A B -> forall i cur,
  (i <= MAX_LEVEL)%nat -> cur ∈ head :: locs (at_level (pred i) A) ->
  exists prevs, descend past (heap s) i cur = Some prevs /\ length prevs = i /\
    forall j, (j < i)%nat -> prevs !! j = Some (lst head (locs (at_level j A))).
Proof.
  intros H (-> & HA & HB & Hmax). induction i as [|i IH]; intros cur Hi Hcur.
  - exists []. split_and!; [done | done | lia].
  - cbn [descend pred] in *. pose proof (rep_chain _ _ _ _ H i Hi) as Hc.
    rewrite locs_at_level_app in Hc.
    destruct (in_lst _ _ _ Hcur) as (X & Y & EXY & <-). rewrite EXY, <- app_assoc in Hc.
    apply chain_app_r in Hc.
    assert (Hsub : forall e, e ∈ at_level i A -> e ∈ A) by (intros e [_ ?]%list_elem_of_filter; done).
    assert (HYA : forall y, y ∈ Y -> y ∈ locs (at_level i A)) by (intros; rewrite EXY; set_solver).
    rewrite (advance_spec past (heap s) i (tail_ s) Y _ _ (locs (at_level i B))); [|done|..].
    + simpl. rewrite <- lst_app, <- EXY.
      destruct (IH (lst head (locs (at_level i A)))) as (prevs & -> & Hl & Hp); [lia| |].
      { pose proof (lst_in head (locs (at_level i A))) as [->|Hin]%elem_of_cons; [constructor|].
        right. apply (at_level_mono _ i); [lia | done]. }
      eexists. split; [done|]. split; [len; simpl; lia|].
      intros j Hj. destruct (decide (j = i)) as [->|].
      * rewrite lookup_app_r, Hl, Nat.sub_diag by lia. done.
      * rewrite lookup_app_l by lia. apply Hp. lia.
    + intros y (e & -> & He)%HYA%list_elem_of_fmap. exists (ekey e).
      split; [eapply rep_keyed; [done | set_solver] | auto].
    + destruct (at_level i B) as [|e B'] eqn:EB; simpl.
      * exists maxKey. split; [|done]. eexists _, _. apply (rep_tail _ _ _ _ H).
      * assert (He : e ∈ B) by (assert (e ∈ at_level i B) as [_ ?]%list_elem_of_filter by (rewrite EB; constructor); done).
        exists (ekey e). split; [eapply rep_keyed; [done | set_solver] | auto].
    + apply Nat.lt_succ_r, NoDup_length_size.
      * pose proof (rep_nodup_level _ _ _ _ i H) as [_ Hn]%NoDup_cons.
        rewrite locs_at_level_app, EXY, <- app_assoc in Hn.
        apply NoDup_app in Hn as (_ & _ & Hn). by apply NoDup_app in Hn as (? & _).
      * intros y (e & -> & He)%HYA%list_elem_of_fmap.
        destruct (rep_entries _ _ _ _ H e) as (Hin & _); [set_solver|]. by eapply info_dom.
Qed.

Definition prev_at (A : list entry) (j : nat) : loc := lst head (locs (at_level j A)).

Lemma prev_at_cases s ns extra k A B j :
  Rep s ns extra k -> ns = A ++ B -> (j < MAX_LEVEL)%nat ->
  is_Some (next_ptr (heap s) (prev_at A j) j) /\ prev_at A j ∈ head :: locs (at_level j ns).
Proof.
  intros H -> Hj. pose proof (lst_in head (locs (at_level j A))) as Hin.
  fold (prev_at A j) in Hin. split.
  - apply elem_of_cons in Hin as [->|(e & -> & He)%list_elem_of_fmap].
    + rewrite next_ptr_is_Some; [done | apply (rep_head _ _ _ _ H)].
    + apply list_elem_of_filter in He as [Hl He].
      destruct (rep_entries _ _ _ _ H e) as (Hi & _); [set_solver|].
      rewrite next_ptr_is_Some; [done | exact Hi].
  - rewrite locs_at_level_app. set_solver.
Qed.

Lemma prev_at_high s ns extra k A B j :
  Rep s ns extra k -> ns = A ++ B -> (max_level_ s <= j)%nat -> prev_at A j = head.
Proof.
  intros H -> Hj. unfold prev_at. rewrite at_level_none; [done|].
  intros e He. destruct (rep_entries _ _ _ _ H e) as (_ & ? & _); [set_solver | lia].
Qed.

Lemma find_with_spec past s ns A B extra k :
  Rep s ns extra k -> splits past ns A B ->
  exists arr, find_with past s = Some arr /\ length arr = MAX_LEVEL /\
    forall j, (j < max_level_ s)%nat -> arr !! j = Some (Some (prev_at A j)).
Proof.
  intros H Hs. pose proof (rep_levels _ _ _ _ H) as Hl. unfold find_with.
  destruct (descend_spec past s ns A B extra k H Hs (max_level_ s) head) as (prevs & -> & Hlen & Hp);
    [lia | constructor |].
  simpl. eexists. split; [done|]. split; [len|].
  intros j Hj. rewrite lookup_app_l by len. rewrite list_lookup_fmap, Hp by done. done.
Qed.

Lemma raise_prevs_lookup arr from to j :
  length arr = MAX_LEVEL -> (j < MAX_LEVEL)%nat -> exists o, arr !! j = Some o /\
  raise_prevs arr from to !! j = Some (if decide (from <= j < to)%nat then Some head else o).
Proof.
  intros Hl Hj. destruct (lookup_lt_is_Some_2 arr j ltac:(lia)) as [o Ho].
  exists o. split; [done|]. unfold raise_prevs. rewrite list_lookup_imap, Ho. done.
Qed.

Lemma random_level_range draw : (1 <= random_level draw <= MAX_LEVEL)%nat.
Proof.
  unfold random_level. assert (H : forall fuel lv, (1 <= lv <= MAX_LEVEL -> 1 <= random_level_from fuel lv draw <= MAX_LEVEL)%nat).
  { induction fuel as [|fuel IH]; intros lv Hlv; simpl; [done|].
    destruct (Nat.ltb_spec lv MAX_LEVEL); simpl; [|done].
    destruct (draw (lv - 1)%nat); [apply IH; lia | done]. }
  apply H. unfold MAX_LEVEL. lia.
Qed.

(** ** Insertion *)

(** The sorted-list operation that [emplace] implements: the new pair goes
    before the pairs with an equal key. *)
Fixpoint insert_before (k : Z) (v : V) (l : list (Z * V)) : list (Z * V) :=
  match l with
  | [] => [(k, v)]
  | (k', v') :: l' => if k' <? k then (k', v') :: insert_before k v l' else (k, v) :: l
  end.

Lemma insert_before_split k v A B :
  (forall e, e ∈ A -> ekey e < k) -> (forall e, e ∈ B -> k <= ekey e) ->
  insert_before k v (pairs (A ++ B)) = pairs A ++ (k, v) :: pairs B.
Proof.
  intros HA HB. unfold pairs. rewrite fmap_app. induction A as [|a A IH]; simpl.
  - destruct B as [|b B]; [done|]. simpl. rewrite (proj2 (Z.ltb_ge _ _)); [done|]. apply HB. constructor.
  - rewrite (proj2 (Z.ltb_lt _ _)) by (apply HA; constructor). f_equal. apply IH.
    intros e He. apply HA. by constructor.
Qed.

Lemma sorted_insert k A B (x : entry) :
  StronglySorted Z.le (ekey <$> A ++ B) -> ekey x = k ->
  (forall e, e ∈ A -> ekey e <= k) -> (forall e, e ∈ B -> k <= ekey e) ->
  StronglySorted Z.le (ekey <$> A ++ x :: B).
Proof.
  rewrite !fmap_app, fmap_cons, !StronglySorted_app, StronglySorted_cons. intros (H1 & H2 & H3) -> HA HB.
  split_and!; [|done| |done].
  - intros a b (e & -> & He)%list_elem_of_fmap [->|Hb]%elem_of_cons; [auto|].
    apply H1; [apply list_elem_of_fmap; eauto | done].
  - apply Forall_forall. intros b (e & -> & He)%list_elem_of_fmap. auto.
Qed.

Definition same_node h h' (p : loc) : Prop :=
  info h' p = info h p /\ forall j, next_ptr h' p j = next_ptr h p j.

Lemma insert_other h p x (n : node V) : p <> x -> same_node h (<[x := n]> h) p.
Proof.
  intros Hp. split; [|intros j]; unfold info, next_ptr; by rewrite lookup_insert_ne by done.
Qed.

Lemma delete_other h p x : p <> x -> same_node h (delete x h) p.
Proof.
  intros Hp. split; [|intros j]; unfold info, next_ptr; by rewrite lookup_delete_ne by done.
Qed.

(** The pointers [emplace] stores: the new node takes over the successors of
    the recorded predecessors, on every level it has. *)
Lemma emplace_heap s ns A B extra k key val lv arr :
  Rep s ns extra k -> ns = A ++ B -> (1 <= lv <= MAX_LEVEL)%nat -> length arr = MAX_LEVEL ->
  (forall j, (j < max_level_ s)%nat -> arr !! j = Some (Some (prev_at A j))) ->
  let cur := fresh (dom (heap s)) in
  let arr' := if (max_level_ s <? lv)%nat then raise_prevs arr (max_level_ s) lv else arr in
  exists h', link (<[cur := mk_node key (Some val) (replicate lv None)]> (heap s)) cur arr' lv = Some h' /\
    dom h' = {[cur]} ∪ dom (heap s) /\ info h' cur = Some (key, Some val, lv) /\
    (forall p, p <> cur -> info h' p = info (heap s) p) /\
    (forall j, (j < lv)%nat -> next_ptr h' cur j = next_ptr (heap s) (prev_at A j) j) /\
    (forall j, (j < lv)%nat -> next_ptr h' (prev_at A j) j = Some (Some cur)) /\
    (forall p j, p <> cur -> ((j < lv)%nat -> p <> prev_at A j) -> next_ptr h' p j = next_ptr (heap s) p j).
Proof.
  intros H Hns Hlv Hlen Harr cur arr'. set (h0 := <[cur := _]> (heap s)).
  pose proof (is_fresh (dom (heap s))) as Hf. fold cur in Hf.
  assert (Hne : forall j, (j < MAX_LEVEL)%nat -> prev_at A j <> cur).
  { intros j Hj Heq. destruct (prev_at_cases s ns extra k A B j H Hns Hj) as [[o Ho] _].
    apply Hf. rewrite <- Heq. rewrite elem_of_dom. unfold next_ptr in Ho.
    destruct (heap s !! prev_at A j); [eauto | done]. }
  assert (Hcur : info h0 cur = Some (key, Some val, lv)).
  { unfold info, h0. rewrite lookup_insert_eq. simpl. by rewrite length_replicate. }
  destruct (link_spec cur arr' (prev_at A) lv h0) as (h' & -> & Sh & N).
  - intros j Hj. unfold arr'. destruct (Nat.ltb_spec (max_level_ s) lv); [|apply Harr; lia].
    destruct (raise_prevs_lookup arr (max_level_ s) lv j Hlen ltac:(lia)) as (o & Ho & ->).
    case_decide; [by rewrite (prev_at_high s ns extra k A B j) by (done || lia)|].
    rewrite Harr in Ho by lia. by simplify_eq.
  - intros j Hj. pose proof (Hne j ltac:(lia)) as Hnj. split; [done|]. split.
    + unfold h0. rewrite (proj2 (insert_other (heap s) _ _ _ Hnj)).
      by destruct (prev_at_cases s ns extra k A B j H Hns ltac:(lia)).
    + rewrite next_ptr_is_Some; [exact Hj | exact Hcur].
  - exists h'. split; [done|]. split_and!.
    + rewrite <- (shape_dom _ _ Sh). unfold h0. by rewrite dom_insert_L.
    + by rewrite <- (Sh cur).
    + intros p Hp. rewrite <- (Sh p). by apply insert_other.
    + intros j Hj. rewrite N, !decide_True by done. apply insert_other, Hne. lia.
    + intros j Hj. rewrite N, decide_True, decide_False, decide_True by (done || apply Hne; lia). done.
    + intros p j Hp Hq. rewrite N. unfold h0. rewrite (proj2 (insert_other (heap s) p cur _ Hp)).
      repeat case_decide; try done; exfalso; first [by apply Hp | by apply Hq].
Qed.

Lemma emplace_keeps_rep s A B extra k key val lv cur h' :
  Rep s (A ++ B) extra k -> key <= maxKey -> (1 <= lv <= MAX_LEVEL)%nat -> cur ∉ dom (heap s) ->
  (forall e, e ∈ A -> ekey e < key) -> (forall e, e ∈ B -> key <= ekey e) ->
  dom h' = {[cur]} ∪ dom (heap s) -> info h' cur = Some (key, Some val, lv) ->
  (forall p, p <> cur -> info h' p = info (heap s) p) ->
  (forall j, (j < lv)%nat -> next_ptr h' cur j = next_ptr (heap s) (prev_at A j) j) ->
  (forall j, (j < lv)%nat -> next_ptr h' (prev_at A j) j = Some (Some cur)) ->
  (forall p j, p <> cur -> ((j < lv)%nat -> p <> prev_at A j) -> next_ptr h' p j = next_ptr (heap s) p j) ->
  Rep (mk_skiplist h' (tail_ s) (if (max_level_ s <? lv)%nat then lv else max_level_ s)
        (wrap 64 (length_ s + 1))) (A ++ mk_entry cur key val lv :: B) extra k.
Proof.
  intros H Hk Hlv Hf HA HB Hdom Hci Hoi Hcn Hpn Hon.
  pose proof (rep_levels _ _ _ _ H) as Hml. pose proof (rep_dom _ _ _ _ H) as Hd.
  assert (Hnc : forall p, p ∈ head :: tail_ s :: locs (A ++ B) -> p <> cur).
  { intros p Hp ->. apply Hf. rewrite Hd. set_solver. }
  pose proof (rep_nodup _ _ _ _ H) as Hnd. pose proof (rep_extra _ _ _ _ H) as Hx.
  split; cbn [heap tail_ max_level_ length_].
  - rewrite locs_app in *. simpl in *.
    assert (head :: tail_ s :: locs A ++ cur :: locs B ≡ₚ cur :: head :: tail_ s :: locs A ++ locs B) as ->.
    { rewrite <- Permutation_middle. etrans; [apply Permutation_skip, Permutation_swap|].
      apply Permutation_swap. }
    apply NoDup_cons. split; [|done]. intros Hin. by apply (Hnc cur).
  - rewrite Hoi by (apply Hnc; left). apply (rep_head _ _ _ _ H).
  - rewrite Hoi by (apply Hnc; right; left). apply (rep_tail _ _ _ _ H).
  - intros i Hi. rewrite Hon; [by apply (rep_tail_null _ _ _ _ H) | apply Hnc; right; left |].
    intros _ Heq. destruct (prev_at_cases s _ extra k A B i H eq_refl Hi) as [_ Hin].
    rewrite <- Heq in Hin. apply elem_of_cons in Hin as [Hin|Hin%at_level_subseteq].
    + apply NoDup_cons in Hnd as [Hnd _]. apply Hnd. rewrite <- Hin. left.
    + apply NoDup_cons in Hnd as [_ Hnd]. by apply NoDup_cons in Hnd as [Hnd _].
  - intros e [He|[->|He]%elem_of_cons]%elem_of_app; simpl.
    2: { split_and!; [done | lia | destruct (Nat.ltb_spec (max_level_ s) lv); lia | lia]. }
    all: destruct (rep_entries _ _ _ _ H e) as (Hi & Hle & Hke); [set_solver|].
    all: rewrite Hoi by (apply Hnc; do 2 right; apply list_elem_of_fmap; exists e; set_solver).
    all: split_and!; [done | lia | destruct (Nat.ltb_spec (max_level_ s) lv); lia | lia].
  - apply (sorted_insert key); [apply (rep_sorted _ _ _ _ H) | done | | done].
    intros e He. apply HA in He. lia.
  - intros i Hi. pose proof (rep_chain _ _ _ _ H i Hi) as Hc.
    pose proof (rep_nodup_level _ _ _ _ i H) as Hndl. rewrite locs_at_level_app in Hc, Hndl.
    assert (Hin : forall p, p ∈ head :: locs (at_level i A) ++ locs (at_level i B) -> p <> cur).
    { intros p Hp. apply Hnc. rewrite <- locs_at_level_app in Hp.
      apply elem_of_cons in Hp as [->|Hp%at_level_subseteq]; [left | by do 2 right]. }
    unfold at_level. rewrite filter_app, filter_cons. fold (at_level i A) (at_level i B). simpl.
    case_decide as Hil; rewrite locs_app; simpl.
    + eapply chain_insert; [exact Hc | done | by apply Hpn | by apply Hcn |].
      intros p Hp Hne. apply Hon; auto.
    + eapply chain_ext; [|exact Hc]. intros p Hp. apply Hon; [by apply Hin | lia].
  - destruct (Nat.ltb_spec (max_level_ s) lv); lia.
  - rewrite (rep_length _ _ _ _ H). unfold wrap. rewrite Zplus_mod_idemp_l. f_equal.
    rewrite !length_app. simpl. lia.
  - rewrite Hdom, Hd, !locs_app. simpl. rewrite !list_to_set_app_L. set_solver.
  - rewrite locs_app in *. simpl. rewrite !list_to_set_app_L in *. simpl.
    assert (cur ∉ extra) by (intros ?; apply Hf; rewrite Hd; set_solver). set_solver.
Qed.

Lemma emplace_rep s ns extra k key val draw :
  Rep s ns extra k -> key <= maxKey ->
  exists x s' A B, emplace key val draw s = Some (eloc x, s') /\ ns = A ++ B /\
    (forall e, e ∈ A -> ekey e < key) /\ (forall e, e ∈ B -> key <= ekey e) /\
    ekey x = key /\ eval x = val /\ Rep s' (A ++ x :: B) extra k /\ tail_ s' = tail_ s /\
    (eloc x ∉ dom (heap s)) /\ (forall p, p ∈ extra -> same_node (heap s) (heap s') p).
Proof.
  intros H Hk. pose proof (random_level_range draw) as Hlv. pose proof (rep_levels _ _ _ _ H) as Hml.
  destruct (splits_exist (fun z => z <? key) ns) as (A & B & Hsp).
  { intros a b ? ?%Z.ltb_lt. apply Z.ltb_lt. lia. }
  { apply Z.ltb_ge. done. }
  { apply (rep_sorted _ _ _ _ H). }
  destruct (find_with_spec _ s ns A B extra k H Hsp) as (arr & Earr & Hlen & Harr).
  destruct Hsp as (Hns & HA & HB & _).
  assert (HA' : forall e, e ∈ A -> ekey e < key) by (intros e He; by apply Z.ltb_lt, HA).
  assert (HB' : forall e, e ∈ B -> key <= ekey e) by (intros e He; by apply Z.ltb_ge, HB).
  destruct (emplace_heap s ns A B extra k key val (random_level draw) arr H Hns Hlv Hlen Harr)
    as (h' & El & Hdom & Hci & Hoi & Hcn & Hpn & Hon).
  unfold emplace, find_prevs. rewrite Earr. simpl. rewrite El. simpl.
  set (cur := fresh (dom (heap s))) in *. set (lv := random_level draw) in *.
  pose proof (is_fresh (dom (heap s))) as Hf. fold cur in Hf.
  exists (mk_entry cur key val lv). eexists _, A, B. split; [done|].
  split_and!; try done.
  - subst ns. apply emplace_keeps_rep; done.
  - intros p Hp. assert (Hpc : p <> cur).
    { intros ->. apply Hf. rewrite (rep_dom _ _ _ _ H). set_solver. }
    split; [by apply Hoi|]. intros j. apply Hon; [done|]. intros Hj Heq.
    destruct (prev_at_cases s ns extra k A B j H Hns ltac:(lia)) as [_ Hin]. rewrite <- Heq in Hin.
    assert (p ∈ head :: locs ns) by (apply elem_of_cons in Hin as [->|Hin%at_level_subseteq]; [left | by right]).
    pose proof (rep_extra _ _ _ _ H) as Hx. set_solver.
Qed.

(** ** Height, length and detached nodes *)

Lemma lower_rep s ns extra k :
  Rep s ns extra k ->
  exists ml, lower (heap s) (tail_ s) (max_level_ s) = Some ml /\
    Rep (mk_skiplist (heap s) (tail_ s) ml (length_ s)) ns extra k.
Proof.
  destruct s as [h t ml0 len]. cbn [heap tail_ max_level_ length_].
  induction ml0 as [|[|ml] IH]; intros H; [by exists 0%nat | by exists 1%nat |].
  cbn [lower]. pose proof (rep_levels _ _ _ _ H) as Hl. simpl in Hl.
  pose proof (rep_chain _ _ _ _ H (S ml) ltac:(lia)) as Hc. simpl in Hc.
  assert (exists q, next_ptr h head (S ml) = Some q /\ (q = Some t -> at_level (S ml) ns = [])) as (q & -> & Hq).
  { destruct (at_level (S ml) ns) as [|e l] eqn:E; simpl in Hc; [eauto|].
    destruct Hc as [-> _]. eexists. split; [done|]. intros [= Ht]. exfalso.
    pose proof (rep_nodup _ _ _ _ H) as [_ [Hn _]%NoDup_cons]%NoDup_cons. simpl in Hn. apply Hn.
    rewrite <- Ht. apply (at_level_subseteq (S ml)). rewrite E. left. }
  simpl. case_decide as Heq; [|by exists (S (S ml))].
  apply IH. destruct H; split; simpl in *; try done; [|lia].
  intros e He. destruct (rep_entries0 e He) as (? & ? & ?). split_and!; try done; [lia|].
  destruct (decide (S ml < elev e)%nat) as [Hlt|]; [|lia].
  assert (e ∈ at_level (S ml) ns) as Hin by (by apply list_elem_of_filter).
  rewrite (Hq Heq) in Hin. by apply elem_of_nil in Hin.
Qed.

Lemma rep_count s ns extra k c :
  Rep s ns extra k ->
  Rep (mk_skiplist (heap s) (tail_ s) (max_level_ s) (wrap 64 (length_ s - c))) ns extra (k - c).
Proof.
  intros H. destruct H; split; simpl; try done.
  rewrite rep_length0. unfold wrap. rewrite Zminus_mod_idemp_l. f_equal. lia.
Qed.

Lemma chain_same h h' i p l q :
  (forall p', p' ∈ p :: l -> same_node h h' p') -> chain h i p l q -> chain h' i p l q.
Proof. intros Hs. apply chain_ext. intros p' Hp. by apply Hs. Qed.

(** Freeing a detached node. *)
Lemma rep_free s ns extra k p :
  Rep s ns ({[p]} ∪ extra) k -> p ∉ extra ->
  Rep (with_heap (delete p (heap s)) s) ns extra k.
Proof.
  intros H Hp. pose proof (rep_extra _ _ _ _ H) as Hx.
  assert (Hs : forall p', p' ∈ head :: tail_ s :: locs ns -> same_node (heap s) (delete p (heap s)) p').
  { intros p' Hp'. apply delete_other. intros ->. set_solver. }
  split; cbn [with_heap heap tail_ max_level_ length_].
  - apply H.
  - rewrite (proj1 (Hs head ltac:(left))). apply H.
  - rewrite (proj1 (Hs (tail_ s) ltac:(right; left))). apply H.
  - intros i Hi. rewrite (proj2 (Hs (tail_ s) ltac:(right; left))). by apply (rep_tail_null _ _ _ _ H).
  - intros e He. rewrite (proj1 (Hs (eloc e) ltac:(do 2 right; apply list_elem_of_fmap; eauto))). by apply H.
  - apply H.
  - intros i Hi. apply (chain_same (heap s)); [|by apply H].
    intros p' [->|Hp'%at_level_subseteq]%elem_of_cons; apply Hs; [left | by do 2 right].
  - apply H.
  - apply H.
  - rewrite dom_delete_L, (rep_dom _ _ _ _ H). set_solver.
  - set_solver.
Qed.

Lemma chain_cut h h' i p A B q :
  chain h i p (A ++ B) q -> NoDup (p :: A) ->
  next_ptr h' (lst p A) i = Some None ->
  (forall p', p' ∈ p :: A -> p' <> lst p A -> next_ptr h' p' i = next_ptr h p' i) ->
  chain h' i p A None.
Proof.
  revert p. induction A as [|a A IH]; simpl; intros p Hc Hnd Hl Ho; [done|].
  destruct Hc as [Ha Hc]. apply NoDup_cons in Hnd as [Hp Hnd]. rewrite lst_cons in *. split.
  - rewrite Ho; [done | left |]. intros Heq. apply Hp. rewrite Heq. apply lst_in.
  - apply IH; try done. intros p' Hp' Hne. apply Ho; [by right | done].
Qed.

(** A run of detached entries, linked on level 0 and ending in null. *)
Definition detached h (A : list entry) (cur : option loc) : Prop :=
  (forall e, e ∈ A -> info h (eloc e) = Some (ekey e, Some (eval e), elev e)) /\
  match A with
  | [] => cur = None
  | a :: A' => cur = Some (eloc a) /\ chain h 0 (eloc a) (locs A') None
  end.

Lemma detached_next h a A cur :
  detached h (a :: A) cur ->
  exists next, cur = Some (eloc a) /\ next_ptr h (eloc a) 0 = Some next /\
    (exists n, h !! eloc a = Some n /\ second n = Some (eval a)) /\ detached h A next.
Proof.
  intros (Hi & -> & Hc).
  destruct (proj1 (info_Some _ _ _ _ _) (Hi a ltac:(left))) as (nx & E & _).
  destruct A as [|b A]; simpl in Hc.
  - exists None. split_and!; [done | done | eauto |]. split; [by intros ? ?%elem_of_nil | done].
  - destruct Hc as [Hb Hc]. exists (Some (eloc b)). split_and!; [done | done | eauto |].
    split; [intros; apply Hi; by right | done].
Qed.

Lemma detached_same h h' A cur :
  (forall p, p ∈ locs A -> same_node h h' p) -> detached h A cur -> detached h' A cur.
Proof.
  intros Hs (Hi & Hc). split.
  - intros e He. rewrite (proj1 (Hs (eloc e) ltac:(apply list_elem_of_fmap; eauto))). auto.
  - destruct A as [|a A]; [done|]. destruct Hc as [-> Hc]. split; [done|].
    by apply (chain_same h).
Qed.

Lemma collect_rep A : forall s ns extra k cur fuel,
  Rep s ns (list_to_set (locs A) ∪ extra) k -> detached (heap s) A cur ->
  NoDup (locs A) -> (forall p, p ∈ locs A -> p ∉ extra) -> (length A <= fuel)%nat ->
  exists h', collect fuel (heap s) cur = Some (eval <$> A, h') /\ Rep (with_heap h' s) ns extra k.
Proof.
  induction A as [|a A IH]; intros s ns extra k cur fuel H Hd Hnd Hx Hf.
  - destruct Hd as [_ ->]. exists (heap s). split; [by destruct fuel|].
    destruct s. simpl in *. by rewrite union_empty_l_L in H.
  - destruct fuel as [|fuel]; simpl in Hf; [lia|].
    destruct (detached_next _ _ _ _ Hd) as (next & -> & Hn & (n & En & Ev) & Hd').
    cbn [collect]. rewrite Hn. simpl. rewrite En. simpl. rewrite Ev. simpl.
    simpl in Hnd. apply NoDup_cons in Hnd as [Ha Hnd].
    assert (H1 : Rep (with_heap (delete (eloc a) (heap s)) s) ns (list_to_set (locs A) ∪ extra) k).
    { apply rep_free; [by rewrite union_assoc_L |]. specialize (Hx (eloc a) ltac:(left)). set_solver. }
    destruct (IH (with_heap (delete (eloc a) (heap s)) s) ns extra k next fuel H1) as (h' & Ec & Hr);
      [ | done | intros; apply Hx; by right | lia |].
    { eapply detached_same; [|exact Hd']. intros p Hp. apply delete_other. by intros ->. }
    simpl in Ec. rewrite Ec. exists h'. split; [done|]. by destruct s.
Qed.

(** ** Removing a prefix *)

Lemma prev_at_0 s A B extra k : Rep s (A ++ B) extra k -> prev_at A 0 = lst head (locs A).
Proof.
  intros H. unfold prev_at. rewrite at_level_all; [done|].
  intros e He. destruct (rep_entries _ _ _ _ H e) as (_ & ? & _); [set_solver | lia].
Qed.

Lemma prev_at_not_in s A B extra k i p :
  Rep s (A ++ B) extra k -> p ∈ tail_ s :: locs B -> p <> head /\ p <> prev_at A i.
Proof.
  intros H Hp. pose proof (rep_nodup _ _ _ _ H) as [Hh [Ht Hn]%NoDup_cons]%NoDup_cons.
  rewrite locs_app in *. apply NoDup_app in Hn as (_ & Hd & _).
  assert (Hin : p ∈ tail_ s :: locs A ++ locs B).
  { apply elem_of_cons in Hp as [->|Hp]; [left | right; apply elem_of_app; by right]. }
  assert (Hph : p <> head) by (by intros ->). split; [done|].
  intros Heq. pose proof (lst_in head (locs (at_level i A))) as Hl. fold (prev_at A i) in Hl.
  rewrite <- Heq in Hl. apply elem_of_cons in Hl as [Hl|Hl%at_level_subseteq]; [done|].
  apply elem_of_cons in Hp as [->|Hp]; [|by apply (Hd p)].
  apply Ht, elem_of_app. by left.
Qed.

Lemma cut_rep s A B extra k arr :
  Rep s (A ++ B) extra k ->
  (forall j, (j < max_level_ s)%nat -> arr !! j = Some (Some (prev_at A j))) ->
  exists h, cut (heap s) arr 0 (max_level_ s) = Some h /\
    Rep (with_heap h s) B (list_to_set (locs A) ∪ extra) (k + Z.of_nat (length A)) /\
    (A <> [] -> exists start, next_ptr (heap s) head 0 = Some start /\ detached h A start).
Proof.
  intros H Harr. pose proof (rep_levels _ _ _ _ H) as Hml.
  destruct (cut_spec arr (prev_at A) (max_level_ s) 0 (heap s)) as (h & -> & Sh & N).
  { intros j Hj. apply Harr. lia. }
  { intros j Hj. split; [eapply prev_at_cases; [done | done | lia]|].
    rewrite next_ptr_is_Some; [|apply (rep_head _ _ _ _ H)]. lia. }
  exists h. split; [done|].
  assert (Ho : forall p j, p ∈ tail_ s :: locs B -> next_ptr h p j = next_ptr (heap s) p j).
  { intros p j Hp. destruct (prev_at_not_in s A B extra k j p H Hp).
    rewrite N. repeat case_decide; done. }
  assert (Hhd : forall j, (j < MAX_LEVEL)%nat -> next_ptr h head j = next_ptr (heap s) (prev_at A j) j).
  { intros j Hj. rewrite N. case_decide as Hjm; [by rewrite decide_True|].
    by rewrite (prev_at_high s _ extra k A B j H eq_refl) by lia. }
  pose proof (rep_nodup _ _ _ _ H) as Hnd. pose proof (rep_extra _ _ _ _ H) as Hx.
  assert (Hnd' := Hnd). apply NoDup_cons in Hnd' as [Hh [Ht Hn]%NoDup_cons]. rewrite locs_app in *.
  apply NoDup_app in Hn as (HnA & HAB & HnB). split.
  - split; cbn [with_heap heap tail_ max_level_ length_].
    + apply NoDup_cons. split; [set_solver|]. apply NoDup_cons. split; [set_solver | done].
    + rewrite <- (Sh head). apply H.
    + rewrite <- (Sh (tail_ s)). apply H.
    + intros i Hi. rewrite Ho by left. by apply (rep_tail_null _ _ _ _ H).
    + intros e He. rewrite <- (Sh (eloc e)). apply (rep_entries _ _ _ _ H). set_solver.
    + pose proof (rep_sorted _ _ _ _ H) as Hs. rewrite fmap_app in Hs. by apply StronglySorted_app_1_r in Hs.
    + intros i Hi. pose proof (rep_chain _ _ _ _ H i Hi) as Hc. rewrite locs_at_level_app in Hc.
      apply chain_app_r in Hc. fold (prev_at A i) in Hc.
      destruct (locs (at_level i B)) as [|b l] eqn:EB; simpl in *; [by rewrite (Hhd i Hi)|].
      rewrite (Hhd i Hi). destruct Hc as [Hb Hc]. split; [done|]. apply (chain_ext (heap s)); [|done].
      intros p Hp. apply Ho. right. apply (at_level_subseteq i). by rewrite EB.
    + done.
    + rewrite (rep_length _ _ _ _ H), length_app. unfold wrap. f_equal. lia.
    + rewrite <- (shape_dom _ _ Sh), (rep_dom _ _ _ _ H), locs_app, list_to_set_app_L. set_solver.
    + rewrite list_to_set_app_L in Hx. apply disjoint_union_l. split; [|set_solver].
      intros p Hp. rewrite elem_of_list_to_set in Hp.
      rewrite elem_of_union, elem_of_list_to_set. intros [Hq|Hq]; [set_solver | by apply (HAB p)].
  - intros HA. destruct A as [|a A]; [done|].
    pose proof (rep_chain _ _ _ _ H 0%nat ltac:(unfold MAX_LEVEL; lia)) as Hc.
    rewrite at_level_all in Hc; [|intros e He; destruct (rep_entries _ _ _ _ H e He) as (_ & ? & _); lia].
    rewrite locs_app in Hc. destruct Hc as [Ha Hc]. exists (Some (eloc a)). split; [done|].
    split; [intros e He; rewrite <- (Sh (eloc e)); apply (rep_entries _ _ _ _ H); set_solver|].
    split; [done|]. pose proof (prev_at_0 _ _ _ _ _ H) as HP. simpl in HP. rewrite lst_cons in HP.
    eapply chain_cut; [exact Hc | done | |].
    + rewrite N, decide_True by lia. fold (locs A). rewrite <- HP, decide_False; [by rewrite decide_True|].
      rewrite HP. intros E. apply Hh. right. rewrite <- E. pose proof (lst_in (eloc a) (locs A)). set_solver.
    + intros p Hp Hne. rewrite N, decide_True by lia. fold (locs A) in *. rewrite HP.
      rewrite !decide_False; [done | done |]. intros ->. apply Hh. right. set_solver.
Qed.

Lemma detached_fuel s ns A extra k :
  Rep s ns (list_to_set (locs A) ∪ extra) k -> NoDup (locs A) -> (length A <= S (base.size (heap s)))%nat.
Proof.
  intros H Hn. rewrite <- (length_fmap eloc A). fold (locs A). apply Nat.le_le_succ_r.
  apply NoDup_length_size; [done|]. intros p Hp. rewrite (rep_dom _ _ _ _ H). set_solver.
Qed.

(** A callback that may insert into the list but leaves detached nodes alone;
    [F] is its effect on the abstract value. *)
Definition callback_ok {W} (f : V -> W -> skiplist V -> option (W * skiplist V))
    (F : V -> W * list (Z * V) -> W * list (Z * V)) : Prop :=
  forall v w s ns extra k, Rep s ns extra k ->
  exists w' s' ns', f v w s = Some (w', s') /\ Rep s' ns' extra k /\ F v (w, pairs ns) = (w', pairs ns') /\
    forall p, p ∈ extra -> same_node (heap s) (heap s') p.

Lemma visit_rep {W} f F A : callback_ok (W := W) f F -> forall w s ns extra k cur fuel cnt,
  Rep s ns (list_to_set (locs A) ∪ extra) k -> detached (heap s) A cur ->
  NoDup (locs A) -> (forall p, p ∈ locs A -> p ∉ extra) -> (length A <= fuel)%nat ->
  exists w' s' ns', visit fuel f w s cur cnt = Some (cnt + Z.of_nat (length A), w', s') /\
    Rep s' ns' extra k /\ foldl (fun l v => F v l) (w, pairs ns) (eval <$> A) = (w', pairs ns').
Proof.
  intros Hf. induction A as [|a A IH]; intros w s ns extra k cur fuel cnt H Hd Hnd Hx Hfl.
  - destruct Hd as [_ ->]. exists w, s, ns. simpl in H. rewrite union_empty_l_L in H. split_and!; [|done|done].
    destruct fuel; simpl; by rewrite Z.add_0_r.
  - destruct fuel as [|fuel]; simpl in Hfl; [lia|].
    destruct (detached_next _ _ _ _ Hd) as (next & -> & Hn & (n & En & Ev) & Hd').
    cbn [visit]. rewrite Hn. simpl. rewrite En. simpl. rewrite Ev. simpl.
    destruct (Hf (eval a) w s ns _ k H) as (w1 & s1 & ns1 & -> & H1 & Hp1 & Hs1). simpl.
    simpl in Hnd. apply NoDup_cons in Hnd as [Ha Hnd].
    assert (H2 : Rep (with_heap (delete (eloc a) (heap s1)) s1) ns1 (list_to_set (locs A) ∪ extra) k).
    { apply rep_free; [by rewrite union_assoc_L |]. specialize (Hx (eloc a) ltac:(left)). set_solver. }
    destruct (IH w1 _ ns1 extra k next fuel (cnt + 1) H2) as (w' & s' & ns' & Ev' & Hr & Hp);
      [ | done | intros; apply Hx; by right | lia |].
    { eapply detached_same; [|exact Hd']. intros p Hp.
      destruct (Hs1 p ltac:(simpl; set_solver)) as [Hi Hnx]. simpl.
      assert (p <> eloc a) as Hne by (by intros ->). destruct (delete_other (heap s1) p _ Hne) as [Hi' Hnx'].
      split; [by rewrite Hi' | intros j; by rewrite Hnx']. }
    rewrite Ev'. exists w', s', ns'. split_and!; [do 3 f_equal; lia | done |]. simpl. by rewrite Hp1.
Qed.

(** ** The operations on a represented list *)

Lemma pop_less_eq_rep s ns extra k key :
  Rep s ns extra k -> key < maxKey -> exists s' A B, splits (fun z => z <=? key) ns A B /\
    pop_less_eq key s = Some (eval <$> A, s') /\ Rep s' B extra k.
Proof.
  intros H Hk. destruct (splits_exist (fun z => z <=? key) ns) as (A & B & Hsp).
  { intros a b ? ?%Z.leb_le. apply Z.leb_le. lia. }
  { apply Z.leb_gt. done. }
  { apply (rep_sorted _ _ _ _ H). }
  destruct (find_with_spec _ s ns A B extra k H Hsp) as (arr & Earr & Hlen & Harr).
  pose proof Hsp as (-> & _). pose proof (rep_levels _ _ _ _ H) as Hml.
  unfold pop_less_eq, find_upper_prevs. rewrite Earr. simpl. rewrite (Harr 0%nat) by lia. simpl.
  rewrite (prev_at_0 _ _ _ _ _ H). pose proof (rep_nodup_head _ _ _ _ H) as Hnd. rewrite locs_app in Hnd.
  apply NoDup_cons in Hnd as [Hh Hnd]. apply NoDup_app in Hnd as (HnA & _).
  destruct A as [|a A].
  { exists s, [], B. split_and!; done. }
  rewrite decide_False.
  2: { simpl. rewrite lst_cons. intros E. apply Hh. rewrite <- E. pose proof (lst_in (eloc a) (locs A)). set_solver. }
  destruct (cut_rep s (a :: A) B extra k arr H Harr) as (h & Ec & Hr & (start & Es & Hd)); [done|].
  rewrite Es. simpl. rewrite Ec. simpl.
  destruct (collect_rep (a :: A) (with_heap h s) B extra _ start (S (base.size h)) Hr Hd HnA) as (h' & Eco & Hr').
  { intros p Hp Hpx. pose proof (rep_extra _ _ _ _ H) as Hx. rewrite locs_app, list_to_set_app_L in Hx. set_solver. }
  { eapply (detached_fuel (with_heap h s)); done. }
  simpl in Eco. rewrite Eco. cbn [mbind option_bind fst snd].
  apply (rep_count _ _ _ _ (Z.of_nat (length (a :: A)))) in Hr'.
  rewrite Z.add_simpl_r in Hr'. destruct (lower_rep _ _ _ _ Hr') as (ml & El & Hr2). simpl in El, Hr2.
  rewrite El. simpl. eexists _, (a :: A), B. split; [done|]. split; [done|].
  rewrite length_fmap. exact Hr2.
Qed.

Lemma do_less_eq_then_pop_rep {W} f F (w : W) s ns extra k key :
  callback_ok f F -> Rep s ns extra k -> key < maxKey ->
  exists w' s' ns' A B, splits (fun z => z <=? key) ns A B /\
    do_less_eq_then_pop key f w s = Some (w', s') /\ Rep s' ns' extra k /\
    foldl (fun l v => F v l) (w, pairs B) (eval <$> A) = (w', pairs ns').
Proof.
  intros Hf H Hk. destruct (splits_exist (fun z => z <=? key) ns) as (A & B & Hsp).
  { intros a b ? ?%Z.leb_le. apply Z.leb_le. lia. }
  { apply Z.leb_gt. done. }
  { apply (rep_sorted _ _ _ _ H). }
  destruct (find_with_spec _ s ns A B extra k H Hsp) as (arr & Earr & Hlen & Harr).
  pose proof Hsp as (-> & _). pose proof (rep_levels _ _ _ _ H) as Hml.
  unfold do_less_eq_then_pop, find_upper_prevs. rewrite Earr. cbn [mbind option_bind]. rewrite (Harr 0%nat) by lia. cbn [mbind option_bind].
  rewrite (prev_at_0 _ _ _ _ _ H). pose proof (rep_nodup_head _ _ _ _ H) as Hnd. rewrite locs_app in Hnd.
  apply NoDup_cons in Hnd as [Hh Hnd]. apply NoDup_app in Hnd as (HnA & _).
  destruct A as [|a A].
  { exists w, s, B, [], B. split_and!; done. }
  rewrite decide_False.
  2: { simpl. rewrite lst_cons. intros E. apply Hh. rewrite <- E. pose proof (lst_in (eloc a) (locs A)). set_solver. }
  destruct (cut_rep s (a :: A) B extra k arr H Harr) as (h & Ec & Hr & (start & Es & Hd)); [done|].
  rewrite Es. cbn [mbind option_bind]. rewrite Ec. cbn [mbind option_bind].
  destruct (visit_rep f F (a :: A) Hf w (with_heap h s) B extra _ start (S (base.size h)) 0 Hr Hd HnA)
    as (w1 & s1 & ns1 & Ev & Hr' & Hp).
  { intros p Hp Hpx. pose proof (rep_extra _ _ _ _ H) as Hx. rewrite locs_app, list_to_set_app_L in Hx. set_solver. }
  { eapply (detached_fuel (with_heap h s)); done. }
  rewrite Ev. cbn [mbind option_bind fst snd]. rewrite Z.add_0_l.
  apply (rep_count _ _ _ _ (Z.of_nat (length (a :: A)))) in Hr'.
  rewrite Z.add_simpl_r in Hr'. destruct (lower_rep _ _ _ _ Hr') as (ml & El & Hr2). simpl in El, Hr2.
  rewrite El. simpl. eexists w1, _, ns1, (a :: A), B. split; [done|]. split; [done|]. split; [exact Hr2 | exact Hp].
Qed.

Lemma elem_of_keys ns key : key ∈ (pairs ns).*1 <-> exists e, e ∈ ns /\ ekey e = key.
Proof.
  unfold pairs. rewrite <- list_fmap_compose, list_elem_of_fmap. split; intros (e & ? & ?); exists e; simpl in *; split; done.
Qed.

Lemma contains_rep s ns extra k key :
  Rep s ns extra k -> key <= maxKey ->
  contains key s = Some (bool_decide (key ∈ (pairs ns).*1) || (key =? maxKey)).
Proof.
  intros H Hk. destruct (splits_exist (fun z => z <? key) ns) as (A & B & Hsp).
  { intros a b ? ?%Z.ltb_lt. apply Z.ltb_lt. lia. }
  { apply Z.ltb_ge. lia. }
  { apply (rep_sorted _ _ _ _ H). }
  pose proof (rep_levels _ _ _ _ H) as Hml. unfold contains.
  destruct (descend_spec _ s ns A B extra k H Hsp (max_level_ s) head) as (prevs & -> & _ & Hp);
    [lia | constructor |].
  cbn [mbind option_bind]. rewrite (Hp 0%nat) by lia. cbn [mbind option_bind]. fold (prev_at A 0).
  destruct Hsp as (-> & HA & HB & _). rewrite (prev_at_0 _ _ _ _ _ H).
  pose proof (rep_chain _ _ _ _ H 0%nat ltac:(unfold MAX_LEVEL; lia)) as Hc.
  rewrite at_level_all in Hc; [|intros e He; destruct (rep_entries _ _ _ _ H e He) as (_ & ? & _); lia].
  rewrite locs_app in Hc. apply chain_app_r in Hc.
  assert (HnA : forall e, e ∈ A -> ekey e <> key) by (intros e He; apply HA, Z.ltb_lt in He; lia).
  destruct B as [|b B]; simpl in Hc.
  - rewrite Hc. cbn [mbind option_bind].
    destruct (keyed_lookup (heap s) (tail_ s) maxKey) as (n & -> & En); [eexists _, _; apply H|].
    cbn [mbind option_bind]. rewrite En, Z.eqb_sym, bool_decide_eq_false_2; [done|].
    rewrite app_nil_r, elem_of_keys. intros (e & He & Heq). by apply (HnA e).
  - destruct Hc as [-> _]. cbn [mbind option_bind].
    destruct (keyed_lookup (heap s) (eloc b) (ekey b)) as (n & -> & En);
      [eapply rep_keyed; [exact H | set_solver]|]. cbn [mbind option_bind]. rewrite En. f_equal.
    assert (Hlt : key <> maxKey -> (key =? maxKey) = false) by apply Z.eqb_neq.
    destruct (Z.eqb_spec (ekey b) key) as [Heq|Hne]; symmetry.
    + rewrite bool_decide_eq_true_2; [done|]. apply elem_of_keys. exists b. set_solver.
    + specialize (HB b ltac:(left)). apply Z.ltb_ge in HB.
      destruct (rep_entries _ _ _ _ H b) as (_ & _ & Hb); [set_solver|].
      rewrite Hlt, orb_false_r by lia. apply bool_decide_eq_false_2. rewrite elem_of_keys.
      intros (e & [He|[->|He]%elem_of_cons]%elem_of_app & Heq); [by apply (HnA e) | done |].
      pose proof (rep_sorted _ _ _ _ H) as Hs. rewrite fmap_app in Hs. apply StronglySorted_app_1_r in Hs.
      simpl in Hs. apply StronglySorted_inv in Hs as [_ Hs]. rewrite Forall_forall in Hs.
      specialize (Hs (ekey e) ltac:(apply list_elem_of_fmap; eauto)). lia.
Qed.

(** ** Erasing one entry *)

Lemma unlink_rep s A x B extra k arr :
  Rep s (A ++ x :: B) extra k ->
  (forall j, (j < max_level_ s)%nat -> arr !! j = Some (Some (prev_at A j))) ->
  exists h, unlink (heap s) (eloc x) arr 0 (elev x) = Some h /\
    Rep (with_heap h s) (A ++ B) ({[eloc x]} ∪ extra) (k + 1).
Proof.
  intros H Harr. pose proof (rep_levels _ _ _ _ H) as Hml.
  destruct (rep_entries _ _ _ _ H x) as (Hix & Hlx & Hkx); [set_solver|].
  destruct (unlink_spec (eloc x) arr (prev_at A) (elev x) 0 (heap s)) as (h & -> & Sh & N).
  { intros j Hj. apply Harr. lia. }
  { intros j Hj. split; [eapply prev_at_cases; [done | done | lia]|].
    rewrite next_ptr_is_Some; [|exact Hix]. lia. }
  exists h. split; [done|]. pose proof (rep_nodup _ _ _ _ H) as Hnd. pose proof (rep_extra _ _ _ _ H) as Hx.
  assert (Hperm : locs (A ++ x :: B) ≡ₚ eloc x :: locs (A ++ B)).
  { rewrite !locs_app. simpl. by rewrite <- Permutation_middle. }
  assert (Hset : list_to_set (C := gset loc) (locs (A ++ x :: B)) = {[eloc x]} ∪ list_to_set (locs (A ++ B))).
  { by rewrite Hperm. }
  split; cbn [with_heap heap tail_ max_level_ length_].
  - rewrite Hperm in Hnd. rewrite !NoDup_cons in *. set_solver.
  - rewrite <- (Sh head). apply H.
  - rewrite <- (Sh (tail_ s)). apply H.
  - intros i Hi. rewrite N, decide_False; [by apply (rep_tail_null _ _ _ _ H)|].
    intros [_ Heq]. by destruct (prev_at_not_in s A (x :: B) extra k i (tail_ s) H ltac:(left)).
  - intros e He. rewrite <- (Sh (eloc e)). apply (rep_entries _ _ _ _ H). set_solver.
  - pose proof (rep_sorted _ _ _ _ H) as Hs. rewrite fmap_app, fmap_cons, StronglySorted_app, StronglySorted_cons in Hs.
    rewrite fmap_app, StronglySorted_app. destruct Hs as (H1 & H2 & _ & H3). split_and!; [|done|done].
    intros a b Ha Hb. apply H1; [done | by right].
  - intros i Hi. pose proof (rep_chain _ _ _ _ H i Hi) as Hc. pose proof (rep_nodup_level _ _ _ _ i H) as Hndl.
    rewrite locs_at_level_app in *. unfold at_level in Hc, Hndl. rewrite filter_cons in Hc, Hndl.
    fold (at_level i A) (at_level i B) in Hc, Hndl. case_decide as Hil; simpl in Hc, Hndl.
    + eapply chain_remove; [exact Hc | exact Hndl | |].
      * rewrite N, decide_True; [done|]. split; [lia | done].
      * intros p Hp Hne. rewrite N, decide_False; [done|]. by intros [_ ?].
    + eapply chain_ext; [|exact Hc]. intros p Hp. rewrite N, decide_False; [done | lia].
  - done.
  - rewrite (rep_length _ _ _ _ H), !length_app. simpl. unfold wrap. f_equal. lia.
  - rewrite <- (shape_dom _ _ Sh), (rep_dom _ _ _ _ H), Hset. set_solver.
  - rewrite Hset in Hx. rewrite Hperm, !NoDup_cons in Hnd. set_solver.
Qed.

Lemma erase_one_rep s ns extra k key :
  Rep s ns extra k -> key < maxKey -> exists A B, splits (fun z => z <? key) ns A B /\
  ((exists x B' s', B = x :: B' /\ ekey x = key /\ erase_one key s = Some (true, s') /\ Rep s' (A ++ B') extra k) \/
   ((forall e, e ∈ ns -> ekey e <> key) /\ erase_one key s = Some (false, s))).
Proof.
  intros H Hk. destruct (splits_exist (fun z => z <? key) ns) as (A & B & Hsp).
  { intros a b ? ?%Z.ltb_lt. apply Z.ltb_lt. lia. }
  { apply Z.ltb_ge. lia. }
  { apply (rep_sorted _ _ _ _ H). }
  exists A, B. split; [done|].
  destruct (find_with_spec _ s ns A B extra k H Hsp) as (arr & Earr & Hlen & Harr).
  destruct Hsp as (-> & HA & HB & _). pose proof (rep_levels _ _ _ _ H) as Hml.
  unfold erase_one, find_prevs. rewrite Earr. cbn [mbind option_bind]. rewrite (Harr 0%nat) by lia. cbn [mbind option_bind].
  rewrite (prev_at_0 _ _ _ _ _ H).
  pose proof (rep_chain _ _ _ _ H 0%nat ltac:(unfold MAX_LEVEL; lia)) as Hc.
  rewrite at_level_all in Hc; [|intros e He; destruct (rep_entries _ _ _ _ H e He) as (_ & ? & _); lia].
  rewrite locs_app in Hc. apply chain_app_r in Hc.
  assert (HnA : forall e, e ∈ A -> ekey e <> key) by (intros e He; apply HA, Z.ltb_lt in He; lia).
  destruct B as [|x B]; simpl in Hc.
  - right. rewrite Hc. cbn [mbind option_bind]. rewrite app_nil_r. split; [done|].
    destruct (keyed_lookup (heap s) (tail_ s) maxKey) as (n & -> & En); [eexists _, _; apply H|].
    simpl. rewrite decide_False; [done | lia].
  - destruct Hc as [-> _]. cbn [mbind option_bind]. destruct (rep_entries _ _ _ _ H x) as (Hix & _); [set_solver|].
    destruct (proj1 (info_Some _ _ _ _ _) Hix) as (nx & En & Hnx). rewrite En. cbn [mbind option_bind first level_next_].
    destruct (decide (ekey x = key)) as [Hkx|Hne].
    + left. rewrite Hnx. destruct (unlink_rep s A x B extra k arr H Harr) as (h & -> & Hr). simpl.
      apply rep_free in Hr; [|pose proof (rep_extra _ _ _ _ H) as Hx; rewrite locs_app, list_to_set_app_L in Hx; set_solver].
      apply (rep_count _ _ _ _ 1) in Hr. rewrite Z.add_simpl_r in Hr.
      destruct (lower_rep _ _ _ _ Hr) as (ml & El & Hr2). simpl in El, Hr2. rewrite El. simpl.
      eexists x, B, _. split_and!; done.
    + right. split; [|done]. intros e [He|[->|He]%elem_of_cons]%elem_of_app; [auto | done |].
      pose proof (rep_sorted _ _ _ _ H) as Hs. rewrite fmap_app in Hs. apply StronglySorted_app_1_r in Hs.
      simpl in Hs. apply StronglySorted_inv in Hs as [_ Hs]. rewrite Forall_forall in Hs.
      specialize (Hs (ekey e) ltac:(apply list_elem_of_fmap; eauto)).
      specialize (HB x ltac:(left)). apply Z.ltb_ge in HB. lia.
Qed.

(** ** Lists that have just been built, and lists being torn down *)

Lemma new_skiplist_rep : Rep (new_skiplist minKey maxKey) [] ∅ 0.
Proof.
  split; unfold new_skiplist; cbn [heap tail_ max_level_ length_ locs fmap list_fmap].
  - apply (bool_decide_eq_true_1 (NoDup [head; 1%nat])). vm_compute. reflexivity.
  - done.
  - done.
  - intros i Hi. unfold next_ptr. rewrite lookup_insert_ne, lookup_singleton_eq by done.
    cbn [mbind option_bind level_next_]. by apply lookup_replicate_2.
  - intros e He. by apply elem_of_nil in He.
  - constructor.
  - intros i Hi. cbn [chain at_level filter list_filter locs fmap list_fmap]. unfold next_ptr. rewrite lookup_insert_eq.
    cbn [mbind option_bind level_next_]. by apply lookup_replicate_2.
  - unfold MAX_LEVEL. lia.
  - done.
  - rewrite dom_insert_L, dom_singleton_L. set_solver.
  - set_solver.
Qed.

(** The level-0 chain read from the head: the entries in order, then the tail. *)
Lemma rep_level0 s ns extra k : Rep s ns extra k -> chain (heap s) 0 head (locs ns) (Some (tail_ s)).
Proof.
  intros H. pose proof (rep_chain _ _ _ _ H 0%nat ltac:(unfold MAX_LEVEL; lia)) as Hc.
  rewrite at_level_all in Hc; [done|]. intros e He. destruct (rep_entries _ _ _ _ H e He) as (_ & ? & _). lia.
Qed.

Lemma begin_rep s ns extra k : Rep s ns extra k ->
  begin s = Some (match ns with [] => tail_ s | e :: _ => eloc e end).
Proof.
  intros H%rep_level0. unfold begin, next_at. destruct ns as [|e ns]; simpl in H; [by rewrite H|].
  destruct H as [-> _]. done.
Qed.

(** [owned h o l]: following level 0 from the pointer [o] visits [l] and ends
    in a null pointer. *)
Fixpoint owned h (o : option loc) (l : list loc) : Prop :=
  match l with
  | [] => o = None
  | a :: l' => o = Some a /\ exists o', next_ptr h a 0 = Some o' /\ owned h o' l'
  end.

Lemma owned_same h h' l : forall o, (forall p, p ∈ l -> next_ptr h p 0 = next_ptr h' p 0) ->
  owned h o l -> owned h' o l.
Proof.
  induction l as [|a l IH]; intros o Hs Ho; [done|]. destruct Ho as (-> & o' & E & Ho).
  split; [done|]. exists o'. split; [rewrite <- Hs; [done | left] |]. apply IH; [|done]. intros. apply Hs. by right.
Qed.

Lemma destroy_owned l : forall h o fuel,
  owned h o l -> NoDup l -> (length l <= fuel)%nat ->
  exists h', destroy fuel h o = Some h' /\ forall y, h' !! y = if decide (y ∈ l) then None else h !! y.
Proof.
  induction l as [|a l IH]; intros h o fuel Ho Hnd Hf.
  - simpl in Ho. subst o. exists h. split; [by destruct fuel|]. intros y. rewrite decide_False; [done | apply not_elem_of_nil].
  - destruct Ho as (-> & o' & E & Ho). apply NoDup_cons in Hnd as [Ha Hnd].
    destruct fuel as [|fuel]; [simpl in Hf; lia|]. cbn [destroy]. rewrite E. cbn [mbind option_bind].
    destruct (IH (delete a h) o' fuel) as (h' & -> & Hl); [|done | simpl in Hf; lia |].
    { eapply owned_same; [|exact Ho]. intros p Hp. unfold next_ptr. rewrite lookup_delete_ne; [done|].
      intros ->. done. }
    exists h'. split; [done|]. intros y. rewrite Hl. destruct (decide (y = a)) as [->|Hne].
    + rewrite decide_False, decide_True by set_solver. apply lookup_delete_eq.
    + rewrite lookup_delete_ne by done. destruct (decide (y ∈ l)), (decide (y ∈ a :: l)); set_solver.
Qed.

Lemma chain_owned h t l : forall p, chain h 0 p l (Some t) -> next_ptr h t 0 = Some None ->
  exists o, next_ptr h p 0 = Some o /\ owned h o (l ++ [t]).
Proof.
  induction l as [|a l IH]; intros p Hc Ht; simpl in Hc.
  - exists (Some t). split; [done|]. simpl. eauto.
  - destruct Hc as [E Hc]. exists (Some a). split; [done|]. simpl. split; [done|]. by apply IH.
Qed.

(** The destructor releases every node the map allocated: only the embedded
    [head_] is left. *)
Lemma destructor_rep s ns k : Rep s ns ∅ k ->
  exists h, destructor s = Some h /\ dom h = {[head]}.
Proof.
  intros H. pose proof (rep_nodup _ _ _ _ H) as Hnd. apply NoDup_cons in Hnd as [Hh Hnd].
  destruct (chain_owned (heap s) (tail_ s) (locs ns) head (rep_level0 _ _ _ _ H)) as (o & E & Ho).
  { apply (rep_tail_null _ _ _ _ H). unfold MAX_LEVEL. lia. }
  unfold destructor. rewrite E. cbn [mbind option_bind].
  assert (Hp : locs ns ++ [tail_ s] ≡ₚ tail_ s :: locs ns) by (by rewrite Permutation_app_comm).
  destruct (destroy_owned _ _ o (S (base.size (heap s))) Ho) as (h & -> & Hl).
  { by rewrite Hp. }
  { apply Nat.le_le_succ_r, NoDup_length_size; [by rewrite Hp|]. intros p Hp'. rewrite (rep_dom _ _ _ _ H).
    rewrite Hp in Hp'. set_solver. }
  exists h. split; [done|]. apply set_eq. intros y. rewrite elem_of_dom, Hl, elem_of_singleton.
  case_decide as Hy; rewrite Hp in Hy.
  - split; [by intros [? ?] | intros ->; set_solver].
  - rewrite <- elem_of_dom, (rep_dom _ _ _ _ H). set_solver.
Qed.
End Facts.

Arguments entry V : clear implicits.
Arguments Rep {V} minKey maxKey s ns extra k.
Arguments callback_ok {V} minKey maxKey {W} f F.
