(* ===== verification/SkiplistSpec.v ===== *)
(** What [skiplist_map] promises: an ordered multimap.  The abstract value is
    the list of (key, value) pairs in key order; [OrderedMultimap] is the
    interface the timer relies on, discharged here by the pointer-level
    operations of [Skiplist]. *)
From Stdlib Require Import Sorting.Sorted.
From stdpp Require Import sorting.
From S2P Require Import Prelude Skiplist SkiplistFacts.

(** * The abstract multimap *)

Section Abstract.
Context {V : Type}.
Implicit Types l : list (Z * V).

(** The entries due at [key], the entries that stay, and the removal of the
    first entry with a given key. *)
Definition due (key : Z) l : list (Z * V) := filter (fun p => p.1 <= key) l.
Definition pending (key : Z) l : list (Z * V) := filter (fun p => key < p.1) l.
Fixpoint erase_first (key : Z) l : bool * list (Z * V) :=
  match l with
  | [] => (false, [])
  | p :: l' =>
    if p.1 =? key then (true, l')
    else let r := erase_first key l' in (r.1, p :: r.2)
  end.

Lemma due_pending_app key (A B : list (Z * V)) :
  (forall p, p ∈ A -> p.1 <= key) -> (forall p, p ∈ B -> key < p.1) ->
  due key (A ++ B) = A /\ pending key (A ++ B) = B.
Proof.
  intros HA HB. unfold due, pending. rewrite !filter_app.
  rewrite (filter_all _ A), (filter_none _ B), (filter_none _ A), (filter_all _ B);
    try (intros p Hp; first [specialize (HA p Hp) | specialize (HB p Hp)]; simpl; lia).
  by rewrite app_nil_r.
Qed.

Lemma erase_first_app key (A B : list (Z * V)) :
  (forall p, p ∈ A -> p.1 <> key) -> erase_first key (A ++ B) = ((erase_first key B).1, A ++ (erase_first key B).2).
Proof.
  induction A as [|a A IH]; intros HA; simpl; [by destruct (erase_first key B)|].
  rewrite (proj2 (Z.eqb_neq _ _)) by (apply HA; left). rewrite IH; [done|]. intros p Hp. apply HA. by right.
Qed.
End Abstract.

(** * The interface *)

(** The operations of an ordered multimap with insertion from within a visit.
    Levels are drawn at random by the implementation: [draw] is the outcome
    of its trials. *)
Class OrderedMultimap (V Q : Type) := {
  mm_new : Q;
  mm_emplace : Z -> V -> (nat -> bool) -> Q -> option Q;
  mm_pop_less_eq : Z -> Q -> option (list V * Q);
  mm_do_less_eq_then_pop : forall {W}, Z -> (V -> W -> Q -> option (W * Q)) -> W -> Q -> option (W * Q);
  mm_empty : Q -> bool;
  mm_first_key : Q -> option Z
}.

(** Its laws.  [ghost] is what an unfinished visit still holds; [mm_frame]
    is what a callback must leave alone. *)
Class OrderedMultimapLaws (maxKey : Z) (V Q : Type) `{OrderedMultimap V Q} := {
  ghost : Type;
  quiet : ghost;
  mm_repr : ghost -> Q -> list (Z * V) -> Prop;
  mm_frame : ghost -> Q -> Q -> Prop;
  mm_frame_pre : forall g, PreOrder (mm_frame g);
  mm_new_repr : mm_repr quiet mm_new [];
  mm_sorted : forall g q l, mm_repr g q l -> StronglySorted Z.le l.*1;
  mm_emplace_law : forall g q l key v draw, mm_repr g q l -> key <= maxKey ->
    exists q', mm_emplace key v draw q = Some q' /\ mm_repr g q' (insert_before key v l) /\ mm_frame g q q';
  mm_pop_law : forall g q l key, mm_repr g q l -> key < maxKey ->
    exists q', mm_pop_less_eq key q = Some ((due key l).*2, q') /\ mm_repr g q' (pending key l);
  mm_do_law : forall W (f : V -> W -> Q -> option (W * Q)) F g (w : W) q l key,
    (forall v g' w q l, mm_repr g' q l -> exists q',
      f v w q = Some ((F v (w, l)).1, q') /\ mm_repr g' q' (F v (w, l)).2 /\ mm_frame g' q q') ->
    mm_repr g q l -> key < maxKey ->
    let r := foldl (fun st v => F v st) (w, pending key l) (due key l).*2 in
    exists q', mm_do_less_eq_then_pop key f w q = Some (r.1, q') /\ mm_repr g q' r.2;
  mm_empty_law : forall q l, mm_repr quiet q l -> Z.of_nat (length l) < 2 ^ 64 ->
    mm_empty q = bool_decide (l = []);
  mm_first_law : forall g q p l, mm_repr g q (p :: l) -> mm_first_key q = Some p.1
}.

(** * The skip list implements it *)

Section Instance.
Context {V : Type} (minKey maxKey : Z).
Implicit Types (s : skiplist V) (ns : list (entry V)).

#[local] Instance skiplist_multimap : OrderedMultimap V (skiplist V) := {
  mm_new := new_skiplist minKey maxKey;
  mm_emplace key v draw s := r ← emplace key v draw s; Some r.2;
  mm_pop_less_eq := pop_less_eq;
  mm_do_less_eq_then_pop W := do_less_eq_then_pop;
  mm_empty := empty;
  mm_first_key s := it ← begin s; iter_key s it
}.

(** An abstract value and what detached nodes are outstanding. *)
Definition sl_repr (g : gset loc * Z) s (l : list (Z * V)) : Prop :=
  exists ns, Rep minKey maxKey s ns g.1 g.2 /\ pairs ns = l.
Definition sl_frame (g : gset loc * Z) s s' : Prop :=
  forall p, p ∈ g.1 -> same_node (heap s) (heap s') p.

Lemma sl_frame_pre g : PreOrder (sl_frame g).
Proof.
  split.
  - intros s p _. split; [done | by intros].
  - intros s1 s2 s3 H12 H23 p Hp. destruct (H12 p Hp) as [E1 N1], (H23 p Hp) as [E2 N2].
    split; [congruence | intros j; congruence].
Qed.

(** A split by [find_upper_prevs] is the pair of filters. *)
Lemma splits_due ns A B key :
  splits (maxKey := maxKey) (fun z => z <=? key) ns A B ->
  due key (pairs ns) = pairs A /\ pending key (pairs ns) = pairs B.
Proof.
  intros (-> & HA & HB & _). unfold pairs. rewrite fmap_app. apply due_pending_app.
  - intros p (e & -> & He)%list_elem_of_fmap. by apply HA, Z.leb_le in He.
  - intros p (e & -> & He)%list_elem_of_fmap. by apply HB, Z.leb_gt in He.
Qed.

Lemma pairs_values ns : (pairs ns).*2 = eval <$> ns.
Proof. unfold pairs. by rewrite <- list_fmap_compose. Qed.

Lemma pairs_keys ns : (pairs ns).*1 = ekey <$> ns.
Proof. unfold pairs. by rewrite <- list_fmap_compose. Qed.

Lemma sl_emplace_law g s l key v draw : sl_repr g s l -> key <= maxKey ->
  exists it s', emplace key v draw s = Some (it, s') /\ sl_repr g s' (insert_before key v l) /\ sl_frame g s s'.
Proof.
  intros (ns & H & <-) Hk.
  destruct (emplace_rep s ns g.1 g.2 key v draw H Hk)
    as (x & s' & A & B & E & -> & HA & HB & Hx & Hv & Hr & _ & _ & Hs).
  exists (eloc x), s'. split_and!; [done | | done]. exists (A ++ x :: B). split; [done|].
  rewrite insert_before_split by done. unfold pairs. by rewrite fmap_app, fmap_cons, Hx, Hv.
Qed.

Lemma sl_pop_law g s l key : sl_repr g s l -> key < maxKey ->
  exists s', pop_less_eq key s = Some ((due key l).*2, s') /\ sl_repr g s' (pending key l).
Proof.
  intros (ns & H & <-) Hk. destruct (pop_less_eq_rep s ns _ _ key H Hk) as (s' & A & B & Hsp & E & Hr).
  apply splits_due in Hsp as [-> ->]. rewrite pairs_values. exists s'. split; [done|]. by exists B.
Qed.

Lemma sl_do_law {W} (f : V -> W -> skiplist V -> option (W * skiplist V)) F g w s l key :
  (forall v g' w s l, sl_repr g' s l -> exists s',
    f v w s = Some ((F v (w, l)).1, s') /\ sl_repr g' s' (F v (w, l)).2 /\ sl_frame g' s s') ->
  sl_repr g s l -> key < maxKey ->
  let r := foldl (fun st v => F v st) (w, pending key l) (due key l).*2 in
  exists s', do_less_eq_then_pop key f w s = Some (r.1, s') /\ sl_repr g s' r.2.
Proof.
  intros Hf (ns & H & <-) Hk.
  assert (Hok : callback_ok minKey maxKey f F).
  { intros v w0 s0 ns0 extra k H0. destruct (Hf v (extra, k) w0 s0 (pairs ns0)) as (s1 & E & (ns1 & H1 & Hp) & Hfr);
      [by exists ns0|].
    exists (F v (w0, pairs ns0)).1, s1, ns1. split_and!; [done | done | by rewrite Hp; destruct F | done]. }
  destruct (do_less_eq_then_pop_rep f F w s ns _ _ key Hok H Hk) as (w' & s' & ns' & A & B & Hsp & E & Hr & Hfold).
  apply splits_due in Hsp as [-> ->]. rewrite pairs_values, Hfold. simpl. exists s'. split; [done|]. by exists ns'.
Qed.

Lemma sl_empty_law s l : sl_repr (∅, 0) s l -> Z.of_nat (length l) < 2 ^ 64 -> empty s = bool_decide (l = []).
Proof.
  intros (ns & H & <-) Hl. unfold empty. rewrite (rep_length _ _ _ _ H). simpl.
  unfold pairs in *. rewrite length_fmap in Hl. unfold wrap. rewrite Z.add_0_r, Z.mod_small by lia.
  destruct ns as [|e ns]; [done|]. rewrite bool_decide_eq_false_2 by done. apply Z.eqb_neq. simpl. lia.
Qed.

Lemma sl_first_law g s p l : sl_repr g s (p :: l) -> (it ← begin s; iter_key s it) = Some p.1.
Proof.
  intros (ns & H & E). rewrite (begin_rep _ _ _ _ H). destruct ns as [|e ns]; [done|].
  injection E as <- _. simpl. unfold iter_key.
  destruct (keyed_lookup (heap s) (eloc e) (ekey e)) as (n & -> & En); [eapply rep_keyed; [done | left]|].
  simpl. by rewrite En.
Qed.

#[local] Program Instance skiplist_multimap_laws : OrderedMultimapLaws maxKey V (skiplist V) := {
  ghost := gset loc * Z;
  quiet := (∅, 0);
  mm_repr := sl_repr;
  mm_frame := sl_frame;
  mm_frame_pre := sl_frame_pre;
  mm_do_law W := sl_do_law;
  mm_pop_law := sl_pop_law;
  mm_empty_law := sl_empty_law;
  mm_first_law := sl_first_law
}.
Next Obligation. exists []. split; [apply new_skiplist_rep | done]. Qed.
Next Obligation. intros g q l (ns & H & <-). rewrite pairs_keys. apply H. Qed.
Next Obligation.
  intros g q l key v draw H Hk. destruct (sl_emplace_law g q l key v draw H Hk) as (it & s' & E & Hr & Hf).
  exists s'. simpl. by rewrite E.
Qed.
End Instance.

(** * Sequences of calls *)

Section Calls.
Context {V : Type} (minKey maxKey : Z).
Implicit Types (s : skiplist V) (l : list (Z * V)).

Inductive call : Type :=
| Emplace (key : Z) (v : V) (draw : nat -> bool)
| EraseOne (key : Z)
| PopLessEq (key : Z)
| Contains (key : Z)
| Size.
Inductive answer : Type :=
| Unit
| Bool (b : bool)
| Values (l : list V)
| Count (n : Z).

Definition run_call (c : call) s : option (answer * skiplist V) :=
  match c with
  | Emplace key v draw => r ← emplace key v draw s; Some (Unit, r.2)
  | EraseOne key => r ← erase_one key s; Some (Bool r.1, r.2)
  | PopLessEq key => r ← pop_less_eq key s; Some (Values r.1, r.2)
  | Contains key => b ← contains key s; Some (Bool b, s)
  | Size => Some (Count (size s), s)
  end.
Fixpoint run_calls (cs : list call) s : option (list answer * skiplist V) :=
  match cs with
  | [] => Some ([], s)
  | c :: cs' => r ← run_call c s; r' ← run_calls cs' r.2; Some (r.1 :: r'.1, r'.2)
  end.

(** The same calls on the abstract value. *)
Definition spec_call (c : call) l : answer * list (Z * V) :=
  match c with
  | Emplace key v _ => (Unit, insert_before key v l)
  | EraseOne key => let r := erase_first key l in (Bool r.1, r.2)
  | PopLessEq key => (Values (due key l).*2, pending key l)
  | Contains key => (Bool (bool_decide (key ∈ l.*1)), l)
  | Size => (Count (wrap 64 (Z.of_nat (length l))), l)
  end.
Fixpoint spec_calls (cs : list call) l : list answer * list (Z * V) :=
  match cs with
  | [] => ([], l)
  | c :: cs' => let r := spec_call c l in let r' := spec_calls cs' r.2 in (r.1 :: r'.1, r'.2)
  end.

(** [maxKey] is the tail sentinel's key: it may be inserted, but not looked up,
    erased or popped. *)
Definition call_ok (c : call) : Prop :=
  match c with
  | Emplace key _ _ => key <= maxKey
  | EraseOne key | PopLessEq key | Contains key => key < maxKey
  | Size => True
  end.

Lemma sl_erase_law s l key : sl_repr minKey maxKey (∅, 0) s l -> key < maxKey ->
  exists s', erase_one key s = Some ((erase_first key l).1, s') /\ sl_repr minKey maxKey (∅, 0) s' (erase_first key l).2.
Proof.
  intros (ns & H & <-) Hk. destruct (erase_one_rep s ns _ _ key H Hk) as (A & B & (-> & HA & HB & _) & Hr).
  assert (HnA : forall p, p ∈ pairs A -> p.1 <> key).
  { intros p (e & -> & He)%list_elem_of_fmap. apply HA, Z.ltb_lt in He. simpl. lia. }
  unfold pairs. rewrite fmap_app. fold (pairs A) (pairs B). rewrite erase_first_app by done.
  destruct Hr as [(x & B' & s' & -> & Hx & -> & Hr) | (Hn & ->)]; simpl.
  - rewrite (proj2 (Z.eqb_eq _ _) Hx). simpl. exists s'. split; [done|]. exists (A ++ B'). split; [done|]. apply fmap_app.
  - assert (erase_first key (pairs B) = (false, pairs B)) as ->.
    { clear - Hn. assert (Hb : forall e, e ∈ B -> ekey e <> key) by (intros; apply Hn; set_solver). clear Hn.
      induction B as [|b B IH]; [done|]. simpl. rewrite (proj2 (Z.eqb_neq _ _)) by (apply Hb; left).
      rewrite IH; [done|]. intros. apply Hb. by right. }
    exists s. split; [done|]. exists (A ++ B). split; [done|]. apply fmap_app.
Qed.

Lemma run_call_refines c s l : sl_repr minKey maxKey (∅, 0) s l -> call_ok c ->
  exists s', run_call c s = Some ((spec_call c l).1, s') /\ sl_repr minKey maxKey (∅, 0) s' (spec_call c l).2.
Proof.
  intros H Hc. destruct c as [key v draw|key|key|key|]; simpl in *.
  - destruct (sl_emplace_law _ _ _ _ _ key v draw H Hc) as (it & s' & -> & Hr & _). by exists s'.
  - destruct (sl_erase_law s l key H Hc) as (s' & -> & Hr). by exists s'.
  - destruct (sl_pop_law _ _ _ s l key H Hc) as (s' & -> & Hr). by exists s'.
  - exists s. destruct H as (ns & H & <-). rewrite (contains_rep _ _ _ _ key H) by lia.
    rewrite (proj2 (Z.eqb_neq _ _)), orb_false_r by lia. split; [done | by exists ns].
  - exists s. destruct H as (ns & H & <-). unfold size. rewrite (rep_length _ _ _ _ H). simpl.
    unfold pairs. rewrite length_fmap, Z.add_0_r. split; [done | by exists ns].
Qed.

Lemma run_calls_refines cs : forall s l, sl_repr minKey maxKey (∅, 0) s l -> Forall call_ok cs ->
  exists s', run_calls cs s = Some ((spec_calls cs l).1, s') /\ sl_repr minKey maxKey (∅, 0) s' (spec_calls cs l).2.
Proof.
  induction cs as [|c cs IH]; intros s l H Hcs; simpl; [by exists s|]. apply Forall_cons in Hcs as [Hc Hcs].
  destruct (run_call_refines c s l H Hc) as (s1 & -> & H1). simpl.
  destruct (IH s1 _ H1 Hcs) as (s2 & -> & H2). by exists s2.
Qed.

(** No node is leaked: the heap holds the sentinels and the entries. *)
Lemma sl_repr_heap s l : sl_repr minKey maxKey (∅, 0) s l -> base.size (heap s) = (2 + length l)%nat.
Proof.
  intros (ns & H & <-). rewrite <- size_dom, (rep_dom _ _ _ _ H). simpl. rewrite union_empty_r_L.
  pose proof (rep_nodup _ _ _ _ H) as Hnd.
  replace ({[head; tail_ s]} ∪ list_to_set (locs ns)) with (list_to_set (C := gset loc) (head :: tail_ s :: locs ns))
    by (simpl; set_solver).
  rewrite size_list_to_set by done. unfold locs, pairs. simpl. by rewrite !length_fmap.
Qed.

(** [C5] [skiplist_map] is an ordered multimap.  From a fresh map, any sequence
    of [emplace], [erase_one], [pop_less_eq], [contains] and [size], with any
    random levels, never follows a null or dangling pointer and gives exactly
    the answers of the sorted association list (equal keys: the newest entry
    first); afterwards the heap holds the two sentinels and one node per
    entry, and the destructor frees all of them but the embedded head. *)
Theorem skiplist_refines_multimap cs :
  Forall call_ok cs ->
  exists s h, run_calls cs (new_skiplist minKey maxKey) = Some ((spec_calls cs []).1, s) /\
    base.size (heap s) = (2 + length (spec_calls cs []).2)%nat /\
    StronglySorted Z.le (spec_calls cs []).2.*1 /\
    destructor s = Some h /\ dom h = {[head]}.
Proof.
  intros Hcs. destruct (run_calls_refines cs (new_skiplist minKey maxKey) []) as (s & -> & H); [|done|].
  { exists []. split; [apply new_skiplist_rep | done]. }
  pose proof H as (ns & Hr & E). destruct (destructor_rep s ns 0 Hr) as (h & Eh & Hd).
  exists s, h. split_and!; [done | by apply sl_repr_heap | | done | done].
  rewrite <- E. rewrite pairs_keys. apply Hr.
Qed.
End Calls.

(** Five calls on a map of [long] keys, with levels 2, 1 and 3. *)
Lemma skiplist_refines_multimap_witness :
  exists s, run_calls [Emplace 5 50 (fun k => (k <? 1)%nat); Emplace 3 30 (fun _ => false);
                       Emplace 5 51 (fun k => (k <? 2)%nat); EraseOne 3; Contains 5; PopLessEq 4; PopLessEq 5]
      (new_skiplist (- 2 ^ 63) (2 ^ 63 - 1)) =
    Some ([Unit; Unit; Unit; Bool true; Bool true; Values []; Values [51; 50]], s) /\
    base.size (heap s) = 2%nat.
Proof.
  destruct (skiplist_refines_multimap (- 2 ^ 63) (2 ^ 63 - 1)
    [Emplace 5 50 (fun k => (k <? 1)%nat); Emplace 3 30 (fun _ => false);
     Emplace 5 51 (fun k => (k <? 2)%nat); EraseOne 3; Contains 5; PopLessEq 4; PopLessEq 5])
    as (s & h & E & Hs & _).
  - repeat constructor; simpl; lia.
  - exists s. split; [exact E | exact Hs].
Defined.

(** * The reserved key and the self check *)

Section Limits.
Context {V : Type} (minKey maxKey : Z).
Implicit Types (s : skiplist V) (l : list (Z * V)).

(** A search that is never stopped by a key walks off the end of the list. *)
Lemma advance_off_end (h : gmap loc (node V)) past i t (l : list loc) : forall cur fuel,
  chain h i cur l (Some t) -> (forall p n, h !! p = Some n -> p ∈ l ++ [t] -> past (first n) = true) ->
  next_ptr h t i = Some None -> advance fuel past h i cur = None.
Proof.
  induction l as [|a l IH]; intros cur fuel Hc Hp Ht; (destruct fuel as [|fuel]; [done|]); cbn [advance]; unfold next_at.
  - simpl in Hc. rewrite Hc. cbn [mbind option_bind]. destruct (h !! t) as [n|] eqn:E; [|done]. cbn [mbind option_bind].
    rewrite (Hp t n E) by (left). destruct fuel; [done|]. cbn [advance]. unfold next_at. by rewrite Ht.
  - destruct Hc as [-> Hc]. cbn [mbind option_bind]. destruct (h !! a) as [n|] eqn:E; [|done]. cbn [mbind option_bind].
    rewrite (Hp a n E) by (left). apply IH; [done | | done]. intros p m Hm Hin. eapply Hp; [exact Hm | by right].
Qed.

Lemma find_upper_prevs_maxKey s ns extra k : Rep minKey maxKey s ns extra k -> find_upper_prevs maxKey s = None.
Proof.
  intros H. pose proof (rep_levels _ _ _ _ H) as Hml. unfold find_upper_prevs, find_with.
  destruct (max_level_ s) as [|m] eqn:Em; [lia|]. cbn [descend].
  rewrite (advance_off_end (heap s) _ m (tail_ s) (locs (at_level m ns))); [done | | |].
  - apply (rep_chain _ _ _ _ H). lia.
  - intros p n Hn [Hp|Hp]%elem_of_app; apply Z.leb_le.
    + apply at_level_subseteq, list_elem_of_fmap in Hp as (e & -> & He).
      destruct (rep_entries _ _ _ _ H e He) as ((nx & E & _)%info_Some & _ & Hk). rewrite E in Hn. by injection Hn as <-.
    + apply list_elem_of_singleton in Hp as ->. destruct (proj1 (info_Some _ _ _ _ _) (rep_tail _ _ _ _ H)) as (nx & E & _).
      rewrite E in Hn. by injection Hn as <-.
  - apply (rep_tail_null _ _ _ _ H). lia.
Qed.

(** Unlinking a node taller than the search array is filled reads a null
    element of [prevs]. *)
Lemma unlink_null (prevs : list (option loc)) (del : loc) j : forall n i (h : gmap loc (node V)),
  prevs !! j = Some None -> (i <= j < i + n)%nat -> unlink h del prevs i n = None.
Proof.
  induction n as [|n IH]; intros i h Hj Hr; [lia|]. cbn [unlink].
  destruct (decide (i = j)) as [->|Hne]; [by rewrite Hj|].
  destruct (prevs !! i) as [[p|]|]; [|done..]. cbn [mbind option_bind].
  destruct (next_ptr h del i); [|done]. cbn [mbind option_bind].
  destruct (set_next h p i o); [|done]. cbn [mbind option_bind]. apply IH; [done | lia].
Qed.

Lemma erase_one_tail s ns : Rep minKey maxKey s ns ∅ 0 ->
  ~ maxKey ∈ (pairs ns).*1 -> (max_level_ s < MAX_LEVEL)%nat -> erase_one maxKey s = None.
Proof.
  intros H Hno Hml. destruct (splits_exist (maxKey := maxKey) (fun z => z <? maxKey) ns) as (A & B & Hsp).
  { intros a b ? ?%Z.ltb_lt. apply Z.ltb_lt. lia. }
  { apply Z.ltb_ge. lia. }
  { apply (rep_sorted _ _ _ _ H). }
  destruct (find_with_spec _ s ns A B _ _ H Hsp) as (arr & Earr & Hlen & Harr).
  pose proof (rep_levels _ _ _ _ H) as Hl1. pose proof Hsp as (-> & HA & HB & _).
  assert (B = []) as ->.
  { destruct B as [|b B]; [done|]. exfalso. apply Hno, elem_of_keys. exists b. split; [set_solver|].
    specialize (HB b ltac:(left)). apply Z.ltb_ge in HB. destruct (rep_entries _ _ _ _ H b); [set_solver | lia]. }
  rewrite app_nil_r in *. unfold erase_one. fold (find_prevs maxKey s) in Earr. rewrite Earr. cbn [mbind option_bind].
  rewrite (Harr 0%nat) by lia. cbn [mbind option_bind].
  assert (E0 : prev_at A 0 = lst head (locs A)).
  { apply (prev_at_0 (minKey := minKey) (maxKey := maxKey) s A [] ∅ 0). by rewrite app_nil_r. }
  rewrite E0. pose proof (rep_level0 _ _ _ _ H) as Hc.
  pose proof (chain_app_r (heap s) 0 (locs A) head [] (Some (tail_ s))) as Hlast. rewrite app_nil_r in Hlast.
  specialize (Hlast Hc). simpl in Hlast. rewrite Hlast. cbn [mbind option_bind].
  destruct (proj1 (info_Some _ _ _ _ _) (rep_tail _ _ _ _ H)) as (nx & -> & Hnx). cbn [mbind option_bind first level_next_].
  rewrite decide_True by done. rewrite (unlink_null arr (tail_ s) (max_level_ s)); [done | | rewrite Hnx; lia].
  unfold find_prevs, find_with in Earr.
  destruct (descend _ (heap s) (max_level_ s) head) as [prevs|] eqn:Ed; [|done]. injection Earr as <-.
  assert (length prevs = max_level_ s) as Hlp.
  { rewrite length_app, length_fmap, length_replicate in Hlen. lia. }
  rewrite lookup_app_r by (rewrite length_fmap; lia). rewrite length_fmap, Hlp, Nat.sub_diag.
  apply lookup_replicate_2. lia.
Qed.

(** The key [maxKey] belongs to the tail sentinel.  On every well-formed
    map [contains(maxKey)] answers true whether or not an entry has that key,
    [pop_less_eq(maxKey)] and [do_less_eq_then_pop(maxKey, f)] run off the
    list through the tail's null pointers, and [erase_one(maxKey)], when no
    entry has that key and the list is below its full height, takes the tail
    for an entry and reads a null element of [prevs]. *)
Theorem maxKey_is_reserved s l {W} (f : V -> W -> skiplist V -> option (W * skiplist V)) (w : W) :
  sl_repr minKey maxKey (∅, 0) s l ->
  contains maxKey s = Some true /\ pop_less_eq maxKey s = None /\ do_less_eq_then_pop maxKey f w s = None /\
  (~ maxKey ∈ l.*1 -> (max_level_ s < MAX_LEVEL)%nat -> erase_one maxKey s = None).
Proof.
  intros (ns & H & <-). simpl in H. split_and!.
  - by rewrite (contains_rep _ _ _ _ maxKey H), Z.eqb_refl, orb_true_r by lia.
  - unfold pop_less_eq. by rewrite (find_upper_prevs_maxKey _ _ _ _ H).
  - unfold do_less_eq_then_pop. by rewrite (find_upper_prevs_maxKey _ _ _ _ H).
  - by apply (erase_one_tail s ns).
Qed.
End Limits.

(** A fresh map with [long] keys. *)
Lemma maxKey_is_reserved_witness :
  contains (2 ^ 63 - 1) (new_skiplist (V := Z) (- 2 ^ 63) (2 ^ 63 - 1)) = Some true /\
  erase_one (2 ^ 63 - 1) (new_skiplist (V := Z) (- 2 ^ 63) (2 ^ 63 - 1)) = None.
Proof.
  destruct (maxKey_is_reserved (V := Z) (- 2 ^ 63) (2 ^ 63 - 1) (new_skiplist (- 2 ^ 63) (2 ^ 63 - 1)) []
    (fun _ w s => Some (w, s)) tt) as (H1 & _ & _ & H4).
  - exists []. split; [apply new_skiplist_rep | reflexivity].
  - split; [exact H1 | apply H4; [apply not_elem_of_nil | vm_compute; lia]].
Defined.

Section SelfCheck.
Context {V : Type} (minKey maxKey : Z).
Implicit Types (s : skiplist V) (h : gmap loc (node V)).

Lemma count_nodes_owned h l : forall o fuel count,
  owned h o l -> (length l <= fuel)%nat -> 0 <= count -> count + Z.of_nat (length l) < 100000 ->
  count_nodes fuel h o count = Some (Some (count + Z.of_nat (length l))).
Proof.
  induction l as [|a l IH]; intros o fuel count Ho Hf Hc Hl.
  - simpl in Ho. subst o. destruct fuel; simpl; by rewrite Z.add_0_r.
  - destruct Ho as (-> & o' & E & Ho). simpl in Hf, Hl. destruct fuel as [|fuel]; [lia|].
    cbn [count_nodes]. rewrite E. cbn [mbind option_bind]. rewrite (proj2 (Z.leb_gt _ _)) by lia.
    rewrite IH by (first [done | lia]). do 2 f_equal. simpl. lia.
Qed.

(** Walking one level of a list whose keys are in order reaches its end. *)
Lemma check_level_sorted h t l : forall p k ks kt fuel count,
  chain h 0 p l (Some t) -> next_ptr h t 0 = Some None -> keyed h p k -> keyed h t kt ->
  Forall2 (keyed h) l ks -> StronglySorted Z.le (k :: ks ++ [kt]) ->
  (length l + 1 < fuel)%nat -> 0 <= count -> count + Z.of_nat (length l) + 1 < 100000 ->
  check_level fuel h 0 p count = Some (Some (t, count + Z.of_nat (length l) + 1)).
Proof.
  induction l as [|a l IH]; intros p k ks kt fuel count Hc Ht Hp Hkt Hl Hs Hf H0 H1;
    (destruct fuel as [|fuel]; [simpl in Hf; lia|]); cbn [check_level].
  - apply Forall2_nil_inv_l in Hl as ->. simpl in Hc. rewrite Hc. cbn [mbind option_bind].
    destruct (keyed_lookup _ _ _ Hp) as (n & -> & En), (keyed_lookup _ _ _ Hkt) as (m & -> & Em).
    cbn [mbind option_bind]. rewrite En, Em. apply StronglySorted_inv in Hs as [_ Hs]. simpl in Hs.
    apply Forall_cons in Hs as [Hs _]. simpl in Hf.
    rewrite (proj2 (Z.ltb_ge _ _)) by done. rewrite (proj2 (Z.leb_gt _ _)) by (simpl in H1; lia).
    destruct fuel as [|fuel]; [lia|]. cbn [check_level]. rewrite Ht. simpl. do 3 f_equal. lia.
  - apply Forall2_cons_inv_l in Hl as (ka & ks' & Ha & Hl & ->). destruct Hc as [-> Hc]. cbn [mbind option_bind].
    destruct (keyed_lookup _ _ _ Hp) as (n & -> & En), (keyed_lookup _ _ _ Ha) as (m & -> & Em).
    cbn [mbind option_bind]. rewrite En, Em. simpl in Hs. apply StronglySorted_inv in Hs as [Hs Hk].
    apply Forall_cons in Hk as [Hk _]. simpl in Hf, H1. rewrite (proj2 (Z.ltb_ge _ _)) by done.
    rewrite (proj2 (Z.leb_gt _ _)) by lia.
    rewrite (IH a ka ks' kt) by (first [done | lia]). do 3 f_equal. simpl. lia.
Qed.

(** From the tail every further level ends at once. *)
Lemma check_levels_from_tail h t c : forall n i,
  (forall j, (i <= j < i + n)%nat -> next_ptr h t j = Some None) -> check_levels h i n t c = Some true.
Proof.
  induction n as [|n IH]; intros i Hj; [done|]. cbn [check_levels check_level]. rewrite Hj by lia.
  cbn [mbind option_bind]. apply IH. intros. apply Hj. lia.
Qed.

Lemma check_levels_first h p t c c' n :
  check_level (S (base.size h)) h 0 p c = Some (Some (t, c')) ->
  (forall j, (j <= n)%nat -> next_ptr h t j = Some None) -> check_levels h 0 (S n) p c = Some true.
Proof.
  intros E Hj. cbn [check_levels]. rewrite E. cbn [mbind option_bind].
  apply check_levels_from_tail. intros. apply Hj. lia.
Qed.

(** The self check has no false alarm: on a well-formed map with fewer
    than 99998 entries, none of them below [minKey], [check_correctness]
    answers true. *)
Theorem check_correctness_complete s l :
  sl_repr minKey maxKey (∅, 0) s l -> (forall p, p ∈ l -> minKey <= p.1) -> minKey <= maxKey ->
  Z.of_nat (length l) < 99998 -> check_correctness s = Some true.
Proof.
  intros (ns & H & <-) Hmin Hmm Hlen. simpl in H. unfold pairs in Hlen. rewrite length_fmap in Hlen.
  pose proof (rep_level0 _ _ _ _ H) as Hc.
  assert (Ht : forall j, (j < MAX_LEVEL)%nat -> next_ptr (heap s) (tail_ s) j = Some None) by apply (rep_tail_null _ _ _ _ H).
  pose proof (sl_repr_heap minKey maxKey s (pairs ns) ltac:(by exists ns)) as Hsz. unfold pairs in Hsz.
  rewrite length_fmap in Hsz. unfold check_correctness.
  destruct (chain_owned _ _ _ _ Hc (Ht 0%nat ltac:(unfold MAX_LEVEL; lia))) as (o & E & Ho).
  assert (Hll : length (head :: locs ns ++ [tail_ s]) = (2 + length ns)%nat).
  { simpl. unfold locs. rewrite length_app, length_fmap. simpl. lia. }
  rewrite (count_nodes_owned _ (head :: locs ns ++ [tail_ s])); [ | split; [done | by exists o] | lia | lia | lia].
  rewrite Hll. cbn [mbind option_bind].
  rewrite (rep_length _ _ _ _ H), (proj2 (Z.eqb_eq _ _)) by (f_equal; lia).
  eapply (check_levels_first _ _ (tail_ s)); [|intros; apply Ht; unfold MAX_LEVEL; lia].
  apply (check_level_sorted _ (tail_ s) (locs ns) head minKey (ekey <$> ns) maxKey).
  - done.
  - apply Ht. unfold MAX_LEVEL. lia.
  - eexists _, _. apply H.
  - eexists _, _. apply H.
  - unfold locs. apply Forall2_fmap, Forall_Forall2_diag, Forall_forall. intros e He. by eapply rep_keyed.
  - constructor.
    + apply StronglySorted_app. split_and!; [|apply H | repeat constructor].
      intros a b (e & -> & He)%list_elem_of_fmap ->%list_elem_of_singleton. apply (rep_entries _ _ _ _ H e He).
    + apply Forall_app. split; [|by repeat constructor]. apply Forall_forall. intros k Hk.
      apply list_elem_of_fmap in Hk as (e & -> & He). apply (Hmin (ekey e, eval e)).
      apply list_elem_of_fmap. by exists e.
  - rewrite Hsz. unfold locs. rewrite length_fmap. lia.
  - lia.
  - unfold locs. rewrite length_fmap. lia.
Qed.
End SelfCheck.

(** A map with three entries. *)
Lemma check_correctness_complete_witness :
  exists s, run_calls [Emplace 5 50 (fun k => (k <? 1)%nat); Emplace 3 30 (fun _ => false); Emplace 5 51 (fun _ => true)]
      (new_skiplist (- 2 ^ 63) (2 ^ 63 - 1)) = Some ([Unit; Unit; Unit], s) /\
    check_correctness s = Some true.
Proof.
  destruct (run_calls_refines (- 2 ^ 63) (2 ^ 63 - 1)
    [Emplace 5 50 (fun k => (k <? 1)%nat); Emplace 3 30 (fun _ => false); Emplace 5 51 (fun _ => true)]
    (new_skiplist (- 2 ^ 63) (2 ^ 63 - 1)) []) as (s & E & Hr).
  - exists []. split; [apply new_skiplist_rep | reflexivity].
  - repeat constructor; simpl; lia.
  - exists s. split; [exact E|]. apply (check_correctness_complete (- 2 ^ 63) (2 ^ 63 - 1) s _ Hr).
    + apply Forall_forall. repeat constructor; simpl; lia.
    + lia.
    + vm_compute. reflexivity.
Defined.

(** One entry on level 0, while level 1 of the head points at a freed node. *)
Definition dangling : skiplist Z :=
  mk_skiplist (list_to_map [
    (0%nat, mk_node 0 None (Some 2%nat :: Some 3%nat :: replicate 30 (Some 1%nat)));
    (1%nat, mk_node 100 None (replicate 32 None));
    (2%nat, mk_node 5 (Some 50) [Some 1%nat])]) 1%nat 2 1.

(** The self check sees level 0 only: [cur] is not moved back to the head
    between levels, so a list whose upper level points at a freed node, on
    which every search faults, still passes. *)
Theorem check_correctness_misses_upper_levels :
  check_correctness dangling = Some true /\ contains 5 dangling = None /\
  erase_one 5 dangling = None /\ pop_less_eq 5 dangling = None.
Proof. vm_compute. repeat split. Qed.
