(* ===== verification/Timer.v ===== *)
(** The user-level timer ([timer.hpp]), the clock arithmetic it uses
    ([detail/time_utils.hpp], [detail/io_utils.hpp]) and the timeout
    awaitable's request ([timeout.hpp]).  The queue is reached only through
    [OrderedMultimap]; a coroutine handle is an element of a type [H], and
    what a resumed coroutine does is a parameter: it moves an outside world
    [W] and issues calls of [add_event]. *)
From Stdlib Require Import Sorting.Sorted.
From stdpp Require Import sorting.
From S2P Require Import Prelude Skiplist SkiplistFacts SkiplistSpec.

(** * Durations *)

(** [int64_t] arithmetic of [std::chrono] counts; [None] is signed overflow. *)
Definition int64 (x : Z) : option Z :=
  if decide (- 2 ^ 63 <= x < 2 ^ 63) then Some x else None.

(** [duration_cast] to a coarser unit truncates towards zero. *)
Definition ns_to_us (ns : Z) : Z := Z.quot ns 1000.

Record __kernel_timespec : Type := mk_timespec { tv_sec : Z; tv_nsec : Z }.

(** [make_timespec(duration)], for a duration in microseconds. *)
Definition make_timespec (us : Z) : option __kernel_timespec :=
  duration_ns ← int64 (us * 1000);
  Some (mk_timespec (Z.quot duration_ns 1000000000) (Z.rem duration_ns 1000000000)).

(** [dur2ts(dur)] *)
Definition dur2ts (dur : Z) : __kernel_timespec :=
  let secs := Z.quot dur 1000000000 in
  mk_timespec secs (dur - secs * 1000000000).

(** [loop_timer]: milliseconds since construction, in [uint64_t]. *)
Definition ns_to_ms (ns : Z) : Z := Z.quot ns 1000000.
Definition loop_timer_begin (now_ns : Z) : Z := wrap 64 (ns_to_ms now_ns).
Definition ms_passed (ms_begin now_ns : Z) : Z := wrap 64 (wrap 64 (ns_to_ms now_ns) - ms_begin).

Definition time_point_min_v : Z := - 2 ^ 63.
Definition time_point_max_v : Z := 2 ^ 63 - 1.

(** * The timer *)

Section Timer.
Context {H Q : Type} `{!OrderedMultimap H Q}.
Implicit Types (q : Q) (l : list (Z * H)).

Definition has_more_timeouts q : bool := negb (mm_empty q).

(** [get_next_expiration()], reading the clock at [now_ns]. *)
Definition get_next_expiration (now_ns : Z) q : option __kernel_timespec :=
  stamp_event ← mm_first_key q;
  let stamp_now := ns_to_us now_ns in
  dur_diff ← int64 (stamp_event - stamp_now);
  make_timespec (Z.max 0 dur_diff).

(** A call of [add_event(cont, timeout)] with the clock reading and the random
    draws it meets. *)
Record add_call : Type := mk_add { cont : H; timeout : Z; add_now : Z; add_draw : nat -> bool }.
Definition wakeup_point (a : add_call) : Z := ns_to_us (add_now a) + timeout a.

Definition add_event (a : add_call) q : option Q :=
  wp ← int64 (wakeup_point a);
  mm_emplace wp (cont a) (add_draw a) q.
Fixpoint add_events (calls : list add_call) q : option Q :=
  match calls with
  | [] => Some q
  | a :: calls' => q' ← add_event a q; add_events calls' q'
  end.

Context {W : Type} (resume : H -> W -> W * list add_call).

(** [t.continuation.resume()]: the log records which handle ran. *)
Definition resume_on (t : H) (st : W * list H) q : option ((W * list H) * Q) :=
  let r := resume t st.1 in
  q' ← add_events r.2 q;
  Some ((r.1, st.2 ++ [t]), q').
Fixpoint resume_all (ts : list H) (st : W * list H) q : option ((W * list H) * Q) :=
  match ts with
  | [] => Some (st, q)
  | t :: ts' => r ← resume_on t st q; resume_all ts' r.1 r.2
  end.

(** [handle_events()]: the returned [int], the log of resumed handles, the
    world and the queue. *)
Definition handle_events (now_ns : Z) (w : W) q : option (Z * list H * W * Q) :=
  if mm_empty q then Some (0, [], w, q) else
    let stamp_now := ns_to_us now_ns in
    r ← mm_do_less_eq_then_pop stamp_now
          (fun t (c : Z * (W * list H)) q => r ← resume_on t c.2 q; Some ((c.1 + 1, r.1), r.2)) (0, (w, [])) q;
    p ← mm_pop_less_eq stamp_now r.2;
    r' ← resume_all p.1 r.1.2 p.2;
    Some (swrap 32 r.1.1, r'.1.2, r'.1.1, r'.2).

(** * What it should do, on the list of pending (deadline, handle) pairs *)

Definition spec_adds (calls : list add_call) l : list (Z * H) :=
  foldl (fun l a => insert_before (wakeup_point a) (cont a) l) l calls.
Definition requests (calls : list add_call) : list (Z * H) :=
  (fun a => (wakeup_point a, cont a)) <$> calls.

(** Resuming handles one after the other: the world, everything they asked
    for, and the queue. *)
Fixpoint spec_resume (ts : list H) (w : W) l : W * list (Z * H) * list (Z * H) :=
  match ts with
  | [] => (w, [], l)
  | t :: ts' =>
    let r := resume t w in
    let r' := spec_resume ts' r.1 (spec_adds r.2 l) in
    (r'.1.1, requests r.2 ++ r'.1.2, r'.2)
  end.

(** Two rounds: the entries due, then the entries that the first round added
    and that are already due. *)
Record fired := mk_fired { round1 : list (Z * H); round2 : list (Z * H); requested : list (Z * H); remaining : list (Z * H); world : W }.
Definition spec_handle (now : Z) (w : W) l : fired :=
  let r1 := spec_resume (due now l).*2 w (pending now l) in
  let r2 := spec_resume (due now r1.2).*2 r1.1.1 (pending now r1.2) in
  mk_fired (due now l) (due now r1.2) (r1.1.2 ++ r2.1.2) r2.2 r2.1.1.
End Timer.

(** * Correctness, against the interface *)

Section TimerFacts.
Context {H Q : Type} `{Laws : OrderedMultimapLaws time_point_max_v H Q}.
Context {W : Type} (resume : H -> W -> W * list (add_call (H := H))).
Implicit Types (q : Q) (l : list (Z * H)) (w : W).

(** The only thing asked of the coroutines: the wake-up points they ask for
    are representable. *)
Definition add_ok (a : add_call (H := H)) : Prop := - 2 ^ 63 <= wakeup_point a < 2 ^ 63.
Hypothesis resume_ok : forall t w, Forall add_ok (resume t w).2.

Lemma int64_ok x : - 2 ^ 63 <= x < 2 ^ 63 -> int64 x = Some x.
Proof. intros. unfold int64. by rewrite decide_True. Qed.

Lemma add_event_law g q l a : mm_repr g q l -> add_ok a ->
  exists q', add_event a q = Some q' /\ mm_repr g q' (insert_before (wakeup_point a) (cont a) l) /\ mm_frame g q q'.
Proof.
  intros Hq Ha. unfold add_event. rewrite int64_ok by done. cbn [mbind option_bind].
  apply mm_emplace_law; [done|]. unfold add_ok, time_point_max_v in *. lia.
Qed.

Lemma add_events_law g calls : forall q l, mm_repr g q l -> Forall add_ok calls ->
  exists q', add_events calls q = Some q' /\ mm_repr g q' (spec_adds calls l) /\ mm_frame g q q'.
Proof.
  pose proof (mm_frame_pre g) as Hpre.
  induction calls as [|a calls IH]; intros q l Hq Hc; cbn [add_events].
  - exists q. by split_and!.
  - apply Forall_cons in Hc as [Ha Hc]. destruct (add_event_law g q l a Hq Ha) as (q1 & -> & H1 & F1).
    cbn [mbind option_bind]. destruct (IH q1 _ H1 Hc) as (q2 & -> & H2 & F2).
    exists q2. split_and!; [done | done | by etrans].
Qed.

Lemma resume_on_law g t st q l : mm_repr g q l ->
  exists q', resume_on resume t st q = Some (((resume t st.1).1, st.2 ++ [t]), q') /\
    mm_repr g q' (spec_adds (resume t st.1).2 l) /\ mm_frame g q q'.
Proof.
  intros Hq. unfold resume_on. destruct (add_events_law g (resume t st.1).2 q l Hq (resume_ok _ _)) as (q' & -> & ? & ?).
  by exists q'.
Qed.

Lemma resume_all_law g ts : forall w log q l, mm_repr g q l ->
  let r := spec_resume resume ts w l in
  exists q', resume_all resume ts (w, log) q = Some ((r.1.1, log ++ ts), q') /\ mm_repr g q' r.2.
Proof.
  induction ts as [|t ts IH]; intros w log q l Hq; cbn [resume_all spec_resume].
  - exists q. by rewrite app_nil_r.
  - destruct (resume_on_law g t (w, log) q l Hq) as (q1 & -> & H1 & _). cbn [mbind option_bind fst snd].
    destruct (IH (resume t w).1 (log ++ [t]) q1 _ H1) as (q2 & -> & H2). exists q2. split; [|done].
    by rewrite <- app_assoc.
Qed.

(** The effect of the visiting callback on the abstract state, and of a run
    of it over a list of handles. *)
Definition visit_effect (t : H) (c : (Z * (W * list H)) * list (Z * H)) : (Z * (W * list H)) * list (Z * H) :=
  let r := resume t c.1.2.1 in
  ((c.1.1 + 1, (r.1, c.1.2.2 ++ [t])), spec_adds r.2 c.2).

Lemma visit_effect_fold ts : forall n w log l,
  let r := spec_resume resume ts w l in
  foldl (fun st t => visit_effect t st) ((n, (w, log)), l) ts =
    ((n + Z.of_nat (length ts), (r.1.1, log ++ ts)), r.2).
Proof.
  induction ts as [|t ts IH]; intros n w log l; cbn [foldl spec_resume].
  - by rewrite Z.add_0_r, app_nil_r.
  - unfold visit_effect at 2. cbn [fst snd]. rewrite IH. cbn [fst snd length]. rewrite <- app_assoc. do 2 f_equal. lia.
Qed.

Lemma handle_events_law now_ns w q l : mm_repr quiet q l -> Z.of_nat (length l) < 2 ^ 64 ->
  l <> [] -> ns_to_us now_ns < time_point_max_v ->
  let r := spec_handle resume (ns_to_us now_ns) w l in
  exists q', handle_events resume now_ns w q =
      Some (swrap 32 (Z.of_nat (length (round1 r))), (round1 r).*2 ++ (round2 r).*2, world r, q') /\
    mm_repr quiet q' (remaining r).
Proof.
  intros Hq Hlen Hne Hnow. unfold handle_events. rewrite (mm_empty_law q l Hq Hlen), bool_decide_eq_false_2 by done.
  set (now := ns_to_us now_ns) in *.
  edestruct (mm_do_law _ (fun t (c : Z * (W * list H)) q => r ← resume_on resume t c.2 q; Some ((c.1 + 1, r.1), r.2))
    visit_effect quiet (0, (w, [])) q l now) as (q1 & E1 & H1); [ | exact Hq | exact Hnow |].
  { intros t g' [n st] q0 l0 Hq0. destruct (resume_on_law g' t st q0 l0 Hq0) as (q' & E & Hr & Hf).
    exists q'. cbn [fst snd]. rewrite E. by cbn [mbind option_bind fst snd visit_effect]. }
  rewrite visit_effect_fold in E1, H1. cbn [fst snd] in E1, H1.
  match goal with |- context [mm_do_less_eq_then_pop _ ?f _ _] => set (cb := f) in * end.
  rewrite E1. cbn [mbind option_bind fst snd].
  destruct (mm_pop_law quiet q1 _ now H1 Hnow) as (q2 & -> & H2). cbn [mbind option_bind fst snd].
  unfold spec_handle. cbn [round1 round2 world remaining]. rewrite app_nil_l.
  edestruct (resume_all_law quiet) as (q3 & -> & H3); [exact H2|]. cbn [mbind option_bind fst snd].
  exists q3. split; [|exact H3]. by rewrite Z.add_0_l, length_fmap.
Qed.
End TimerFacts.

(** * Accounting on the abstract value *)

Section Accounting.
Context {H W : Type} (resume : H -> W -> W * list (add_call (H := H))).
Implicit Types (l : list (Z * H)) (w : W).

Lemma insert_before_perm k (v : H) l : insert_before k v l ≡ₚ (k, v) :: l.
Proof.
  induction l as [|[k' v'] l IH]; [done|]. simpl. case_match; [|done]. rewrite IH. apply Permutation_swap.
Qed.

Lemma spec_adds_perm calls : forall l, spec_adds calls l ≡ₚ l ++ requests calls.
Proof.
  induction calls as [|a calls IH]; intros l; simpl; [by rewrite app_nil_r|].
  unfold spec_adds in *. simpl. rewrite IH, insert_before_perm. simpl. by rewrite Permutation_middle.
Qed.

Lemma spec_resume_perm ts : forall w l, let r := spec_resume resume ts w l in r.2 ≡ₚ l ++ r.1.2.
Proof.
  induction ts as [|t ts IH]; intros w l; simpl; [by rewrite app_nil_r|].
  etrans; [apply IH|]. rewrite (app_assoc l). apply Permutation_app; [apply spec_adds_perm | done].
Qed.

Lemma due_pending_perm now l : l ≡ₚ due now l ++ pending now l.
Proof.
  induction l as [|p l IH]; [done|]. unfold due, pending in *. rewrite !filter_cons.
  repeat case_decide; try lia; simpl; rewrite IH at 1; [done|]. by rewrite Permutation_middle.
Qed.

Lemma due_in now l p : p ∈ due now l -> p.1 <= now.
Proof. by intros [? _]%list_elem_of_filter. Qed.

Lemma due_sorted now l : StronglySorted Z.le l.*1 -> StronglySorted Z.le (due now l).*1.
Proof.
  induction l as [|p l IH]; intros Hs; [constructor|]. simpl in Hs. apply StronglySorted_inv in Hs as [Hs Hp].
  unfold due. rewrite filter_cons. case_decide; [|by apply IH]. simpl. constructor; [by apply IH|].
  apply Forall_forall. intros k (x & -> & [_ Hx]%list_elem_of_filter)%list_elem_of_fmap.
  rewrite Forall_forall in Hp. apply Hp, list_elem_of_fmap. by exists x.
Qed.

(** Nothing is lost and nothing fires twice: what was queued and what was
    asked for is what fired and what is left. *)
Lemma spec_handle_balance now w l : let r := spec_handle resume now w l in
  l ++ requested r ≡ₚ round1 r ++ round2 r ++ remaining r.
Proof.
  unfold spec_handle. cbn [requested round1 round2 remaining].
  set (r1 := spec_resume resume (due now l).*2 w (pending now l)).
  set (r2 := spec_resume resume (due now r1.2).*2 r1.1.1 (pending now r1.2)).
  assert (E1 : r1.2 ≡ₚ pending now l ++ r1.1.2) by apply spec_resume_perm.
  assert (E2 : r2.2 ≡ₚ pending now r1.2 ++ r2.1.2) by apply spec_resume_perm.
  rewrite E2, (app_assoc (due now r1.2)), <- (due_pending_perm now r1.2), E1, !app_assoc.
  by rewrite <- (due_pending_perm now l).
Qed.

Lemma spec_handle_keeps now w l : pending now l ⊆+ remaining (spec_handle resume now w l).
Proof.
  unfold spec_handle. cbn [remaining].
  set (r1 := spec_resume resume (due now l).*2 w (pending now l)).
  rewrite spec_resume_perm. apply submseteq_inserts_r.
  assert (E1 : r1.2 ≡ₚ pending now l ++ r1.1.2) by apply spec_resume_perm.
  assert (pending now l = pending now (pending now l)) as ->.
  { symmetry. apply filter_all. by intros p [? _]%list_elem_of_filter. }
  unfold pending at 1 3. rewrite E1, filter_app. apply submseteq_inserts_r. done.
Qed.
End Accounting.

(** * The timer's promises *)

Section Promises.
Context {H Q : Type} `{Laws : OrderedMultimapLaws time_point_max_v H Q}.
Context {W : Type} (resume : H -> W -> W * list (add_call (H := H))).

(** [C16] [handle_events] fires the timers that are due, in deadline order, and
    no other: on a queue holding [l], coroutines resumed in the first round
    are those with a deadline at or before the clock, the second round
    resumes only entries due as well, every entry not due is still queued
    afterwards, what was queued plus what the resumed coroutines asked for
    is exactly what fired plus what is left, and the result is the number
    fired in the first round.  Coroutines may call [add_event] while they
    run. *)
Theorem handle_events_fires_due now_ns w q (l : list (Z * H)) :
  (forall t w, Forall add_ok (resume t w).2) ->
  mm_repr quiet q l -> Z.of_nat (length l) < 2 ^ 31 -> l <> [] -> ns_to_us now_ns < time_point_max_v ->
  let now := ns_to_us now_ns in
  let r := spec_handle resume now w l in
  (exists q', handle_events resume now_ns w q =
      Some (Z.of_nat (length (due now l)), (due now l).*2 ++ (round2 r).*2, world r, q') /\
    mm_repr quiet q' (remaining r)) /\
  StronglySorted Z.le (due now l).*1 /\
  (forall p, p ∈ round2 r -> p.1 <= now) /\
  pending now l ⊆+ remaining r /\
  l ++ requested r ≡ₚ due now l ++ round2 r ++ remaining r.
Proof.
  intros Hres Hq Hlen Hne Hnow now r.
  assert (Hd : (length (due now l) <= length l)%nat) by apply length_filter.
  split_and!.
  - destruct (handle_events_law resume Hres now_ns w q l Hq ltac:(lia) Hne Hnow) as (q' & E & Hr).
    exists q'. split; [|exact Hr]. rewrite E. fold now r. change (round1 r) with (due now l).
    rewrite swrap_small; [done | lia |]. unfold in_s. lia.
  - eapply due_sorted, mm_sorted, Hq.
  - intros p Hp. eapply due_in, Hp.
  - apply spec_handle_keeps.
  - apply spec_handle_balance.
Qed.

(** The wait before the next expiry is right.  For the earliest deadline
    [k], [get_next_expiration] returns a normalised, non-negative timespec
    of exactly the microseconds left (zero once it has passed), and once
    that much time has gone by [handle_events] fires that entry. *)
Theorem get_next_expiration_exact now_ns later_ns w q k c (l : list (Z * H)) :
  (forall t w, Forall add_ok (resume t w).2) ->
  mm_repr quiet q ((k, c) :: l) -> Z.of_nat (length ((k, c) :: l)) < 2 ^ 31 ->
  0 <= now_ns -> - 2 ^ 63 <= k -> 1000 * (k - ns_to_us now_ns) < 2 ^ 63 ->
  - 2 ^ 63 <= k - ns_to_us now_ns ->
  exists ts, get_next_expiration now_ns q = Some ts /\
    0 <= tv_sec ts /\ 0 <= tv_nsec ts < 1000000000 /\
    tv_sec ts * 1000000000 + tv_nsec ts = 1000 * Z.max 0 (k - ns_to_us now_ns) /\
    (now_ns + (tv_sec ts * 1000000000 + tv_nsec ts) <= later_ns -> ns_to_us later_ns < time_point_max_v ->
     exists log n w' q', handle_events resume later_ns w q = Some (n, c :: log, w', q')).
Proof.
  intros Hres Hq Hlen Hnow0 Hk Hov Hov'. unfold get_next_expiration.
  rewrite (mm_first_law quiet q (k, c) l Hq). cbn [mbind option_bind fst].
  rewrite int64_ok by lia. cbn [mbind option_bind]. unfold make_timespec. rewrite int64_ok by lia.
  cbn [mbind option_bind]. eexists. split; [done|]. cbn [tv_sec tv_nsec].
  set (d := Z.max 0 (k - ns_to_us now_ns)). assert (0 <= d) by lia.
  pose proof (Z.quot_rem' (d * 1000) 1000000000). pose proof (Z.rem_bound_pos (d * 1000) 1000000000).
  split_and!; [apply Z.quot_pos; lia | lia | lia | lia |].
  intros Hlater Hmax. assert (Hdue : k <= ns_to_us later_ns).
  { assert (Hl : now_ns + 1000 * d <= later_ns) by lia. clear - Hl Hnow0. subst d. unfold ns_to_us in *.
    rewrite !Z.quot_div_nonneg in * by lia. apply Z.div_le_lower_bound; [lia|].
    pose proof (Z.mul_div_le now_ns 1000). lia. }
  destruct (handle_events_law resume Hres later_ns w q _ Hq ltac:(lia) ltac:(done) Hmax) as (q' & E & _).
  rewrite E. unfold spec_handle. cbn [round1]. unfold due at 1 2. rewrite filter_cons_True by done.
  eexists _, _, _, _. reflexivity.
Qed.
End Promises.

(** * The queue the timer is built with *)

(** [timer_queue_t]: the skip list over [long] time points. *)
Definition timer_queue_t (H : Type) : Type := skiplist H.
#[export] Instance timer_queue {H} : OrderedMultimap H (timer_queue_t H) :=
  skiplist_multimap time_point_min_v time_point_max_v.
#[export] Instance timer_queue_laws {H} : OrderedMultimapLaws time_point_max_v H (timer_queue_t H) :=
  skiplist_multimap_laws time_point_min_v time_point_max_v.

(** Three timers; the handle 1 asks for another timer, already due, when it
    runs. *)
Definition three_timers : list (add_call (H := nat)) :=
  [mk_add 1%nat 5 0 (fun _ => false); mk_add 2%nat 3 0 (fun k => (k <? 1)%nat); mk_add 3%nat 100 0 (fun _ => false)].
Definition rearming (t : nat) (w : unit) : unit * list (add_call (H := nat)) :=
  (w, if (t =? 1)%nat then [mk_add 9%nat 1 4000 (fun _ => true)] else []).

Lemma rearming_ok t w : Forall add_ok (rearming t w).2.
Proof. unfold rearming. case_match; repeat constructor; vm_compute; congruence. Qed.

Lemma three_timers_repr : exists q : timer_queue_t nat,
  add_events three_timers mm_new = Some q /\ mm_repr quiet q [(3, 2%nat); (5, 1%nat); (100, 3%nat)].
Proof.
  destruct (add_events_law (Laws := timer_queue_laws) quiet three_timers mm_new [] mm_new_repr) as (q & E & Hr & _).
  - repeat constructor; vm_compute; congruence.
  - by exists q.
Qed.

(** At 10us the handles 2 and 1 run, then 9; 3 stays. *)
Lemma handle_events_fires_due_witness : exists q q' : timer_queue_t nat,
  add_events three_timers mm_new = Some q /\
  handle_events rearming 10000 tt q = Some (2, [2; 1; 9]%nat, tt, q') /\ mm_repr quiet q' [(100, 3%nat)].
Proof.
  destruct three_timers_repr as (q & E & Hr).
  destruct (handle_events_fires_due (Laws := timer_queue_laws) rearming 10000 tt q [(3, 2%nat); (5, 1%nat); (100, 3%nat)])
    as ((q' & E' & Hr') & _).
  - exact rearming_ok.
  - exact Hr.
  - vm_compute. reflexivity.
  - discriminate.
  - vm_compute. reflexivity.
  - exists q, q'. split_and!; [exact E | exact E' | exact Hr'].
Defined.

(** At 1us the wait is 2us; at 3us and later the handle 2 runs first. *)
Lemma get_next_expiration_exact_witness : exists (q q' : timer_queue_t nat) log n w',
  add_events three_timers mm_new = Some q /\
  get_next_expiration 1000 q = Some (mk_timespec 0 2000) /\
  handle_events rearming 3000 tt q = Some (n, 2%nat :: log, w', q').
Proof.
  destruct three_timers_repr as (q & E & Hr).
  destruct (get_next_expiration_exact (Laws := timer_queue_laws) rearming 1000 3000 tt q 3 2%nat [(5, 1%nat); (100, 3%nat)])
    as ([sec nsec] & E' & H1 & H2 & H3 & H4).
  - exact rearming_ok.
  - exact Hr.
  - vm_compute. reflexivity.
  - lia.
  - lia.
  - vm_compute. reflexivity.
  - vm_compute. discriminate.
  - change (ns_to_us 1000) with 1 in H3. cbn [tv_sec tv_nsec] in *.
    assert (sec = 0 /\ nsec = 2000) as [-> ->] by lia.
    destruct H4 as (log & n & w' & q' & E''); [lia | vm_compute; reflexivity |].
    exists q, q', log, n, w'. split_and!; [exact E | exact E' | exact E''].
Defined.

(** The two conversions to [__kernel_timespec] agree: [dur2ts] of a number
    of nanoseconds and [make_timespec] of the same number of microseconds,
    whenever the latter does not overflow; both normalise. *)
Theorem timespec_conversions_agree us ts :
  make_timespec us = Some ts ->
  dur2ts (us * 1000) = ts /\ tv_sec ts * 1000000000 + tv_nsec ts = us * 1000 /\
  Z.abs (tv_nsec ts) < 1000000000 /\ 0 <= tv_sec ts * us /\ 0 <= tv_nsec ts * us.
Proof.
  unfold make_timespec, int64. case_decide as Hr; [|done]. intros [= <-]. unfold dur2ts. cbn [tv_sec tv_nsec].
  pose proof (Z.quot_rem' (us * 1000) 1000000000). pose proof (Z.rem_bound_abs (us * 1000) 1000000000).
  split_and!; [f_equal; lia | lia | lia | |].
  - destruct (Z.le_ge_cases 0 us).
    + apply Z.mul_nonneg_nonneg; [apply Z.quot_pos; lia | lia].
    + apply Z.mul_nonpos_nonpos; [|lia]. apply Z.opp_nonneg_nonpos. rewrite <- Z.quot_opp_l by lia. apply Z.quot_pos; lia.
  - destruct (Z.le_ge_cases 0 us).
    + apply Z.mul_nonneg_nonneg; [apply Z.rem_nonneg; lia | lia].
    + apply Z.mul_nonpos_nonpos; [apply Z.rem_nonpos; lia | lia].
Qed.

Lemma timespec_conversions_agree_witness : dur2ts 1500000000 = mk_timespec 1 500000000.
Proof. apply (timespec_conversions_agree 1500000 (mk_timespec 1 500000000)). reflexivity. Defined.
