(* ===== verification/SpscRing.v ===== *)
(** The single-producer single-consumer ring of [detail/logging/spsc_ring.hpp]:
    its members as functions, and the producer and the consumer as two
    threads that interleave at every load and store.  Loads and stores are
    sequentially consistent; the fences of the source are what makes that
    adequate.  Indices are [size_t] and wrap at 2^64. *)
From S2P Require Import Prelude.

Section Ring.
Context {T : Type}.

(** [data_] from behind the padding in front on: a cell that is [None] is raw
    memory or a destroyed object, and no cell is behind the end of the list,
    where the allocation ends. *)
Record ring : Type := mk_ring {
  capacity_ : Z;
  mask_ : Z;
  data_ : list (option T);
  index_write_ : Z;
  index_read_ : Z
}.

(** [k_padding], the entries of a cache line. *)
Definition k_padding (sizeof_T : Z) : Z := (64 - 1) / sizeof_T + 1.
(** How many of the [capacity_] cells lie in the memory that [malloc] is asked
    for: the product is a [size_t]. *)
Definition allocated (sizeof_T capacity_ : Z) : Z := wrap 64 (sizeof_T * wrap 64 (capacity_ + 2 * k_padding sizeof_T)).
Definition cells (sizeof_T capacity_ : Z) : Z :=
  Z.min capacity_ (allocated sizeof_T capacity_ / sizeof_T - k_padding sizeof_T).
(** [spsc_ring(capacity)]; [None] is the failed assertion. *)
Definition new_ring (sizeof_T capacity : Z) : option ring :=
  if Z.land capacity 1 =? 1 then None else
    let most := SIZE_MAX - 2 * k_padding sizeof_T in
    let cap := if most <? capacity then most else capacity in
    Some (mk_ring cap (wrap 64 (cap - 1)) (replicate (Z.to_nat (cells sizeof_T cap)) None) 0 0).

Definition slot (r : ring) (index : Z) : nat := Z.to_nat (Z.land index (mask_ r)).
Definition free_entries (r : ring) (write_index read_index : Z) : Z :=
  wrap 64 (mask_ r + read_index - write_index).
Definition entries (write_index read_index : Z) : Z := wrap 64 (write_index - read_index).

(** Placement new, destruction and the two index stores; [None] is an access
    outside the allocation, or the destruction of what is not alive. *)
Definition construct (r : ring) (index : Z) (v : T) : option ring :=
  _ ← data_ r !! slot r index;
  Some (mk_ring (capacity_ r) (mask_ r) (<[slot r index := Some v]> (data_ r)) (index_write_ r) (index_read_ r)).
Definition destruct_at (r : ring) (index : Z) : option ring :=
  c ← data_ r !! slot r index;
  _ ← c;
  Some (mk_ring (capacity_ r) (mask_ r) (<[slot r index := None]> (data_ r)) (index_write_ r) (index_read_ r)).
Definition store_write (r : ring) (w : Z) : ring := mk_ring (capacity_ r) (mask_ r) (data_ r) w (index_read_ r).
Definition store_read (r : ring) (x : Z) : ring := mk_ring (capacity_ r) (mask_ r) (data_ r) (index_write_ r) x.

(** [try_emplace(args...)] *)
Definition try_emplace (v : T) (r : ring) : option (bool * ring) :=
  let write_index := index_write_ r in
  let read_index := index_read_ r in
  if free_entries r write_index read_index =? 0 then Some (false, r) else
    let write_index_next := wrap 64 (write_index + 1) in
    r' ← construct r write_index v; Some (true, store_write r' write_index_next).

(** [front()]: a pointer into [data_], or null. *)
Definition front (r : ring) : option nat :=
  let read_index := index_read_ r in
  let write_index := index_write_ r in
  if entries write_index read_index =? 0 then None else Some (slot r read_index).
(** Reading through it. *)
Definition deref (r : ring) (p : nat) : option T := c ← data_ r !! p; c.

(** [pop()] *)
Definition pop (r : ring) : option ring :=
  let read_index := index_read_ r in
  let read_next := wrap 64 (read_index + 1) in
  r' ← destruct_at r read_index;
  Some (store_read r' read_next).

(** [size()]: [None] is the failed assertion. *)
Definition ring_size (r : ring) : option Z :=
  let n := entries (index_write_ r) (index_read_ r) in
  if Z.land n (wrap 64 (Z.lnot (mask_ r))) =? 0 then Some n else None.
Definition ring_empty (r : ring) : option bool := n ← ring_size r; Some (n =? 0).
Definition ring_full (r : ring) : bool :=
  if free_entries r (index_write_ r) (index_read_ r) =? 0 then false else true.
Definition ring_capacity (r : ring) : Z := mask_ r.

(** [batch_out(v)]: the cells to copy, in one or two runs. *)
Definition batch_slots (r : ring) (read_index write_index : Z) : list nat :=
  let n := entries write_index read_index in
  let from := Z.land read_index (mask_ r) in
  if from <? Z.land write_index (mask_ r) then seq (Z.to_nat from) (Z.to_nat n)
  else
    let part1len := wrap 64 (capacity_ r - from) in
    let part2len := wrap 64 (n - part1len) in
    seq (Z.to_nat from) (Z.to_nat part1len) ++ seq 0 (Z.to_nat part2len).
Definition batch_out (v : list T) (r : ring) : option (bool * list T * ring) :=
  let read_index := index_read_ r in
  let write_index := index_write_ r in
  let n := entries write_index read_index in
  if n =? 0 then Some (false, v, r) else
    copied ← mapM (deref r) (batch_slots r read_index write_index);
    let next_read := wrap 64 (read_index + n) in
    Some (true, v ++ copied, store_read r next_read).

(** [~spsc_ring()]: [while (front()) pop();] *)
Fixpoint drain (fuel : nat) (r : ring) : option ring :=
  match front r with
  | None => Some r
  | Some _ =>
    match fuel with
    | O => None
    | S fuel' => r' ← pop r; drain fuel' r'
    end
  end.

(** * The two threads *)

Inductive event : Type := Push (v : T) | Pop (v : T) | Full | Empty.

(** Where the producer stands in [emplace] ([spin]) or [try_emplace], and the
    consumer in [front]/[pop] or [batch_out]. *)
Inductive producer : Type :=
| PIdle
| PLoadWrite (spin : bool) (v : T)
| PLoadRead (spin : bool) (v : T) (write_index : Z)
| PConstruct (v : T) (write_index : Z)
| PPublish (v : T) (write_index : Z).
Inductive consumer : Type :=
| CIdle
| CLoadRead
| CLoadWrite (read_index : Z)
| CUse (p : nat)
| CPop (v : T)
| CDestroy (v : T) (read_index : Z)
| CRelease (v : T) (read_index : Z)
| BLoadRead
| BLoadWrite (read_index : Z)
| BCopy (read_index n : Z) (todo : list nat) (copied : list T)
| BRelease (read_index n : Z) (copied : list T).

(** One access of the producer; [None] is one outside the allocation. *)
Definition producer_step (p : producer) (r : ring) : option (ring * producer * list event) :=
  match p with
  | PIdle => Some (r, PIdle, [])
  | PLoadWrite spin v => Some (r, PLoadRead spin v (index_write_ r), [])
  | PLoadRead spin v w =>
    if free_entries r w (index_read_ r) =? 0 then
      if spin then Some (r, p, []) else Some (r, PIdle, [Full])
    else Some (r, PConstruct v w, [])
  | PConstruct v w => r' ← construct r w v; Some (r', PPublish v w, [])
  | PPublish v w => Some (store_write r (wrap 64 (w + 1)), PIdle, [Push v])
  end.

(** One access of the consumer, which pops only what [front] has shown it;
    [None] is an access to memory that holds no object. *)
Definition consumer_step (c : consumer) (r : ring) : option (ring * consumer * list event) :=
  match c with
  | CIdle => Some (r, CIdle, [])
  | CLoadRead => Some (r, CLoadWrite (index_read_ r), [])
  | CLoadWrite x =>
    if entries (index_write_ r) x =? 0 then Some (r, CIdle, [Empty]) else Some (r, CUse (slot r x), [])
  | CUse p => v ← deref r p; Some (r, CPop v, [])
  | CPop v => Some (r, CDestroy v (index_read_ r), [])
  | CDestroy v x => r' ← destruct_at r x; Some (r', CRelease v x, [])
  | CRelease v x => Some (store_read r (wrap 64 (x + 1)), CIdle, [Pop v])
  | BLoadRead => Some (r, BLoadWrite (index_read_ r), [])
  | BLoadWrite x =>
    let w := index_write_ r in
    let n := entries w x in
    if n =? 0 then Some (r, CIdle, [Empty]) else Some (r, BCopy x n (batch_slots r x w) [], [])
  | BCopy x n [] copied => Some (r, BRelease x n copied, [])
  | BCopy x n (p :: todo) copied => v ← deref r p; Some (r, BCopy x n todo (copied ++ [v]), [])
  | BRelease x n copied => Some (store_read r (wrap 64 (x + n)), CIdle, Pop <$> copied)
  end.

Record system : Type := mk_system { the_ring : ring; prod : producer; cons_ : consumer }.

(** Either thread may move, and an idle thread may start any of its calls. *)
Inductive step : system -> list event -> system -> Prop :=
| step_emplace r v c : step (mk_system r PIdle c) [] (mk_system r (PLoadWrite true v) c)
| step_try_emplace r v c : step (mk_system r PIdle c) [] (mk_system r (PLoadWrite false v) c)
| step_front r p : step (mk_system r p CIdle) [] (mk_system r p CLoadRead)
| step_batch_out r p : step (mk_system r p CIdle) [] (mk_system r p BLoadRead)
| step_producer r p c r' p' evs :
    producer_step p r = Some (r', p', evs) -> step (mk_system r p c) evs (mk_system r' p' c)
| step_consumer r p c r' c' evs :
    consumer_step c r = Some (r', c', evs) -> step (mk_system r p c) evs (mk_system r' p c').

Inductive reach (r0 : ring) : list event -> system -> Prop :=
| reach_start : reach r0 [] (mk_system r0 PIdle CIdle)
| reach_step evs s evs' s' : reach r0 evs s -> step s evs' s' -> reach r0 (evs ++ evs') s'.

Definition pushes (evs : list event) : list T := omap (fun e => match e with Push v => Some v | _ => None end) evs.
Definition pops (evs : list event) : list T := omap (fun e => match e with Pop v => Some v | _ => None end) evs.
End Ring.
Arguments ring T : clear implicits.
Arguments event T : clear implicits.
Arguments system T : clear implicits.
Arguments producer T : clear implicits.
Arguments consumer T : clear implicits.

(** * Indices *)

Section Indices.
Context (k : Z) (Hk : 1 <= k <= 63).
#[local] Abbreviation cap := (2 ^ k).

Lemma cap_bounds : 2 <= cap <= 2 ^ 63.
Proof. split; [change 2 with (2 ^ 1) at 1|]; apply Z.pow_le_mono_r; lia. Qed.

(** A wrapped counter keeps its residue modulo the capacity. *)
Lemma land_mask W : Z.land (wrap 64 W) (cap - 1) = W mod cap.
Proof.
  replace (2 ^ k - 1) with (Z.ones k) by (rewrite Z.ones_equiv; lia).
  rewrite Z.land_ones by lia. unfold wrap. apply Z.mod_mod_divide.
  exists (2 ^ (64 - k)). rewrite <- Z.pow_add_r by lia. f_equal. lia.
Qed.

Lemma wrap_diff a b : wrap 64 (wrap 64 a - wrap 64 b) = wrap 64 (a - b).
Proof. unfold wrap. by rewrite <- Zminus_mod. Qed.

Lemma free_diff R W : wrap 64 (cap - 1 + wrap 64 R - wrap 64 W) = wrap 64 (cap - 1 - (W - R)).
Proof.
  replace (cap - 1 + wrap 64 R - wrap 64 W) with (wrap 64 R - (wrap 64 W - (cap - 1))) by lia.
  unfold wrap. rewrite Zminus_mod_idemp_l. replace (R - (W mod 2 ^ 64 - (cap - 1))) with (R + (cap - 1) - W mod 2 ^ 64) by lia.
  rewrite Zminus_mod_idemp_r. f_equal. lia.
Qed.

Lemma wrap_succ W : wrap 64 (wrap 64 W + 1) = wrap 64 (W + 1).
Proof. unfold wrap. by rewrite Zplus_mod_idemp_l. Qed.

Lemma wrap_plus W n : wrap 64 (wrap 64 W + n) = wrap 64 (W + n).
Proof. unfold wrap. by rewrite Zplus_mod_idemp_l. Qed.

(** Distinct counters within one lap use distinct slots. *)
Lemma slots_distinct i j : i < j < i + cap -> i mod cap <> j mod cap.
Proof.
  intros Hij E. pose proof cap_bounds.
  assert ((j - i) mod cap = 0) as E0 by (rewrite Zminus_mod, E, Z.sub_diag; apply Z.mod_0_l; lia).
  rewrite Z.mod_small in E0; lia.
Qed.

Lemma mod_add_lap R i : 0 <= i <= cap ->
  (R + i) mod cap = if R mod cap + i <? cap then R mod cap + i else R mod cap + i - cap.
Proof.
  intros Hi. pose proof cap_bounds. pose proof (Z.mod_pos_bound R cap ltac:(lia)).
  rewrite <- Zplus_mod_idemp_l. destruct (Z.ltb_spec (R mod cap + i) cap); [apply Z.mod_small; lia|].
  symmetry. apply (Z.mod_unique _ _ 1); lia.
Qed.

(** The one or two runs of [batch_out] are the slots of consecutive counters. *)
Lemma batch_runs R n : 0 < n < cap ->
  let from := R mod cap in
  (if from <? (R + n) mod cap then seq (Z.to_nat from) (Z.to_nat n)
   else seq (Z.to_nat from) (Z.to_nat (wrap 64 (cap - from))) ++ seq 0 (Z.to_nat (wrap 64 (n - wrap 64 (cap - from))))) =
  (fun i => Z.to_nat ((R + Z.of_nat i) mod cap)) <$> seq 0 (Z.to_nat n).
Proof.
  intros Hn from. pose proof cap_bounds. assert (Hf : 0 <= from < cap) by (apply Z.mod_pos_bound; lia).
  assert (Hlt : (from <? (R + n) mod cap) = (from + n <? cap)).
  { rewrite mod_add_lap by lia. fold from. destruct (Z.ltb_spec (from + n) cap); [apply Z.ltb_lt | apply Z.ltb_ge]; lia. }
  rewrite Hlt. apply list_eq. intros i. rewrite list_lookup_fmap.
  assert (Hi : (i < Z.to_nat n)%nat -> (R + Z.of_nat i) mod cap =
    if from + Z.of_nat i <? cap then from + Z.of_nat i else from + Z.of_nat i - cap) by (intros; apply mod_add_lap; lia).
  destruct (Z.ltb_spec (from + n) cap) as [Hc|Hc].
  - destruct (decide (i < Z.to_nat n)%nat) as [Hin|Hin].
    + rewrite !lookup_seq_lt by done. simpl. f_equal. rewrite Hi by done.
      destruct (Z.ltb_spec (from + Z.of_nat i) cap); lia.
    + rewrite !lookup_seq_ge by lia. done.
  - rewrite !(wrap_small 64) by (unfold in_u; rewrite ?(wrap_small 64) by (unfold in_u; lia); lia).
    destruct (decide (i < Z.to_nat (cap - from))%nat) as [H1|H1].
    + rewrite lookup_app_l by (rewrite length_seq; lia). rewrite !lookup_seq_lt by lia. simpl. f_equal.
      rewrite Hi by lia. destruct (Z.ltb_spec (from + Z.of_nat i) cap); lia.
    + rewrite lookup_app_r by (rewrite length_seq; lia). rewrite length_seq.
      destruct (decide (i < Z.to_nat n)%nat) as [Hin|Hin].
      * rewrite !lookup_seq_lt by lia. simpl. f_equal. rewrite Hi by lia.
        destruct (Z.ltb_spec (from + Z.of_nat i) cap); lia.
      * rewrite !lookup_seq_ge by lia. done.
Qed.
End Indices.

(** * The invariant *)

Section Invariant.
Context {T : Type} (k : Z) (Hk : 1 <= k <= 63).
#[local] Abbreviation cap := (2 ^ k).
Implicit Types (r : ring T) (h : list T).

(** The ring after the pushes [h], of which the first [R] were released; the
    cells from the counter [L] on hold their objects. *)
Record ring_ok r h (L R : Z) : Prop := mk_ring_ok {
  ok_capacity : capacity_ r = cap;
  ok_mask : mask_ r = cap - 1;
  ok_data : length (data_ r) = Z.to_nat cap;
  ok_read : index_read_ r = wrap 64 R;
  ok_write : index_write_ r = wrap 64 (Z.of_nat (length h));
  ok_order : 0 <= R <= Z.of_nat (length h) /\ Z.of_nat (length h) <= R + (cap - 1);
  ok_live : R <= L;
  ok_cells : forall i v, L <= Z.of_nat i -> h !! i = Some v -> data_ r !! Z.to_nat (Z.of_nat i mod cap) = Some (Some v)
}.

Definition producer_ok r h (R : Z) (p : producer T) : Prop :=
  let W := Z.of_nat (length h) in
  match p with
  | PIdle | PLoadWrite _ _ => True
  | PLoadRead _ _ w => w = wrap 64 W
  | PConstruct _ w => w = wrap 64 W /\ W < R + (cap - 1)
  | PPublish v w => w = wrap 64 W /\ W < R + (cap - 1) /\ data_ r !! Z.to_nat (W mod cap) = Some (Some v)
  end.

(** What the consumer has seen so far; the second component is the first live
    counter, relative to [R]. *)
Definition consumer_ok h (R : Z) (c : consumer T) : Prop :=
  let next v := h !! Z.to_nat R = Some v in
  match c with
  | CIdle | CLoadRead | BLoadRead => True
  | CLoadWrite x | BLoadWrite x => x = wrap 64 R
  | CUse p => p = Z.to_nat (R mod cap) /\ R < Z.of_nat (length h)
  | CPop v => next v
  | CDestroy v x | CRelease v x => next v /\ x = wrap 64 R
  | BCopy x n todo copied =>
    x = wrap 64 R /\ 0 < n /\ R + n <= Z.of_nat (length h) /\
    copied = take (length copied) (drop (Z.to_nat R) h) /\
    todo = (fun i => Z.to_nat ((R + Z.of_nat i) mod cap)) <$> seq (length copied) (Z.to_nat n - length copied) /\
    (length copied <= Z.to_nat n)%nat
  | BRelease x n copied =>
    x = wrap 64 R /\ 0 < n /\ R + n <= Z.of_nat (length h) /\ copied = take (Z.to_nat n) (drop (Z.to_nat R) h)
  end.
Definition live_from (R : Z) (c : consumer T) : Z := match c with CRelease _ _ => R + 1 | _ => R end.

Record inv (evs : list (event T)) (s : system T) (R : Z) : Prop := mk_inv {
  inv_ring : ring_ok (the_ring s) (pushes evs) (live_from R (cons_ s)) R;
  inv_producer : producer_ok (the_ring s) (pushes evs) R (prod s);
  inv_consumer : consumer_ok (pushes evs) R (cons_ s);
  inv_pops : pops evs = take (Z.to_nat R) (pushes evs)
}.

Lemma slot_ok r h L R i : ring_ok r h L R -> slot r (wrap 64 i) = Z.to_nat (i mod cap).
Proof. intros H. unfold slot. rewrite (ok_mask _ _ _ _ H). by rewrite land_mask. Qed.

Lemma free_ok r h L R : ring_ok r h L R ->
  free_entries r (index_write_ r) (index_read_ r) = cap - 1 - (Z.of_nat (length h) - R).
Proof.
  intros H. unfold free_entries. rewrite (ok_mask _ _ _ _ H), (ok_read _ _ _ _ H), (ok_write _ _ _ _ H).
  rewrite free_diff. pose proof (ok_order _ _ _ _ H). pose proof (cap_bounds k Hk). apply wrap_small. unfold in_u. lia.
Qed.

Lemma entries_ok r h L R : ring_ok r h L R ->
  entries (index_write_ r) (index_read_ r) = Z.of_nat (length h) - R.
Proof.
  intros H. unfold entries. rewrite (ok_read _ _ _ _ H), (ok_write _ _ _ _ H), wrap_diff.
  pose proof (ok_order _ _ _ _ H). pose proof (cap_bounds k Hk). apply wrap_small. unfold in_u. lia.
Qed.

(** ** The four stores *)

Lemma construct_ok r h L R v : ring_ok r h L R -> Z.of_nat (length h) < R + (cap - 1) -> L <= R + 1 ->
  exists r', construct r (wrap 64 (Z.of_nat (length h))) v = Some r' /\
  ring_ok r' h L R /\ data_ r' !! Z.to_nat (Z.of_nat (length h) mod cap) = Some (Some v).
Proof.
  intros H Hr HL. pose proof (cap_bounds k Hk) as Hc. pose proof (ok_order _ _ _ _ H) as Ho.
  assert (Hs : slot r (wrap 64 (Z.of_nat (length h))) = Z.to_nat (Z.of_nat (length h) mod cap)) by (by eapply slot_ok).
  assert (Hb : 0 <= Z.of_nat (length h) mod cap < cap) by (apply Z.mod_pos_bound; lia).
  unfold construct. rewrite Hs. destruct (lookup_lt_is_Some_2 (data_ r) (Z.to_nat (Z.of_nat (length h) mod cap))) as [c ->].
  { rewrite (ok_data _ _ _ _ H). lia. }
  cbn [mbind option_bind]. eexists. split; [reflexivity|]. split.
  - split; try apply H; cbn [data_].
    + rewrite length_insert. apply H.
    + intros i x Hi Hx. pose proof (lookup_lt_Some _ _ _ Hx) as Hlt.
      rewrite list_lookup_insert_ne; [by apply (ok_cells _ _ _ _ H)|].
      pose proof (ok_live _ _ _ _ H). pose proof (slots_distinct k Hk (Z.of_nat i) (Z.of_nat (length h)) ltac:(lia)).
      pose proof (Z.mod_pos_bound (Z.of_nat i) cap ltac:(lia)). lia.
  - cbn [data_]. apply list_lookup_insert_eq. rewrite (ok_data _ _ _ _ H). lia.
Qed.

Lemma publish_ok r h L R v : ring_ok r h L R -> Z.of_nat (length h) < R + (cap - 1) ->
  data_ r !! Z.to_nat (Z.of_nat (length h) mod cap) = Some (Some v) ->
  ring_ok (store_write r (wrap 64 (wrap 64 (Z.of_nat (length h)) + 1))) (h ++ [v]) L R.
Proof.
  intros H Hr Hv. pose proof (ok_order _ _ _ _ H) as Ho.
  split; try apply H; cbn [store_write index_write_ data_]; rewrite ?length_app; cbn [length].
  - rewrite wrap_succ. f_equal. lia.
  - lia.
  - intros i x Hi [Hx|[? Hx]]%lookup_app_Some; [by apply (ok_cells _ _ _ _ H)|].
    apply list_lookup_singleton_Some in Hx as [? <-]. by replace i with (length h) by lia.
Qed.

Lemma destroy_ok r h R v : ring_ok r h R R -> h !! Z.to_nat R = Some v ->
  exists r', destruct_at r (wrap 64 R) = Some r' /\ ring_ok r' h (R + 1) R /\
    (forall i, i <> Z.to_nat (R mod cap) -> data_ r' !! i = data_ r !! i).
Proof.
  intros H Hv. pose proof (cap_bounds k Hk) as Hc. pose proof (ok_order _ _ _ _ H) as Ho.
  unfold destruct_at. rewrite (slot_ok _ _ _ _ R H).
  pose proof (ok_cells _ _ _ _ H (Z.to_nat R) v ltac:(lia) Hv) as Hcell. rewrite Z2Nat.id in Hcell by lia.
  rewrite Hcell. cbn [mbind option_bind]. eexists. split; [done|]. split.
  - split; try apply H; cbn [data_].
    + rewrite length_insert. apply H.
    + lia.
    + intros i x Hi Hx. pose proof (lookup_lt_Some _ _ _ Hx).
      rewrite list_lookup_insert_ne; [apply (ok_cells _ _ _ _ H); [lia | done] |].
      pose proof (slots_distinct k Hk R (Z.of_nat i) ltac:(lia)).
      pose proof (Z.mod_pos_bound (Z.of_nat i) cap ltac:(lia)).
      pose proof (Z.mod_pos_bound R cap ltac:(lia)). lia.
  - intros i Hi. cbn [data_]. by rewrite list_lookup_insert_ne.
Qed.

Lemma release_ok r h L R n : ring_ok r h L R -> 0 <= n -> R + n <= Z.of_nat (length h) -> L <= R + n ->
  ring_ok (store_read r (wrap 64 (wrap 64 R + n))) h (R + n) (R + n).
Proof.
  intros H Hn Hr HL. pose proof (ok_order _ _ _ _ H) as Ho.
  split; try apply H; cbn [store_read index_read_ data_].
  - apply wrap_plus.
  - lia.
  - lia.
  - intros i x Hi. apply (ok_cells _ _ _ _ H). lia.
Qed.

(** ** Every step keeps the invariant *)

Lemma pushes_app (a b : list (event T)) : pushes (a ++ b) = pushes a ++ pushes b.
Proof. apply omap_app. Qed.
Lemma pops_app (a b : list (event T)) : pops (a ++ b) = pops a ++ pops b.
Proof. apply omap_app. Qed.
Lemma pops_of (l : list T) : pops (Pop <$> l) = l /\ pushes (Pop <$> l) = [].
Proof. induction l as [|v l [IH1 IH2]]; [done|].
  change (v :: pops (Pop <$> l) = v :: l /\ pushes (Pop <$> l) = []). by rewrite IH1, IH2.
Qed.

Lemma consumer_ok_push h R c v : 0 <= R <= Z.of_nat (length h) -> consumer_ok h R c -> consumer_ok (h ++ [v]) R c.
Proof.
  intros HR. destruct c; cbn [consumer_ok]; rewrite ?length_app; cbn [length]; try done.
  - intros [-> ?]. split; [done | lia].
  - apply lookup_app_l_Some.
  - intros [? ->]. split; [by apply lookup_app_l_Some | done].
  - intros [? ->]. split; [by apply lookup_app_l_Some | done].
  - intros (-> & ? & ? & ? & ? & ?). split_and!; try done; [lia|].
    rewrite drop_app_le by lia. rewrite take_app_le; [done|]. rewrite length_drop. lia.
  - intros (-> & ? & ? & ?). split_and!; try done; [lia|].
    rewrite drop_app_le by lia. rewrite take_app_le; [done|]. rewrite length_drop. lia.
Qed.

Lemma producer_ok_release r r' h R R' p : R <= R' ->
  (forall i, i = Z.to_nat (Z.of_nat (length h) mod cap) -> data_ r' !! i = data_ r !! i) ->
  producer_ok r h R p -> producer_ok r' h R' p.
Proof.
  intros HR Hd. destruct p; cbn [producer_ok]; try done.
  - intros [-> ?]. split; [done | lia].
  - intros (-> & ? & ?). split_and!; [done | lia | by rewrite Hd].
Qed.

Lemma live_from_le R (c : consumer T) : R <= live_from R c <= R + 1.
Proof. destruct c; cbn; lia. Qed.

Lemma producer_keeps evs r p c R : inv evs (mk_system r p c) R ->
  exists r' p' e, producer_step p r = Some (r', p', e) /\ inv (evs ++ e) (mk_system r' p' c) R.
Proof.
  intros [Hr Hp Hc Hpop]. cbn [the_ring prod cons_] in *. pose proof (live_from_le R c) as HL.
  pose proof (ok_order _ _ _ _ Hr) as Ho.
  destruct p as [|spin v|spin v w|v w|v w]; cbn [producer_step producer_ok] in *.
  - eexists _, _, []. split; [done|]. by rewrite app_nil_r.
  - eexists _, _, []. split; [done|]. rewrite app_nil_r. split; try done. cbn. apply (ok_write _ _ _ _ Hr).
  - subst w. rewrite <- (ok_write _ _ _ _ Hr), (free_ok _ _ _ _ Hr).
    destruct (Z.eqb_spec (cap - 1 - (Z.of_nat (length (pushes evs)) - R)) 0) as [Hz|Hz].
    + assert (pushes (evs ++ [Full]) = pushes evs /\ pops (evs ++ [Full]) = pops evs) as [E1 E2].
      { rewrite pushes_app, pops_app. cbn. by rewrite !app_nil_r. }
      destruct spin; eexists _, _, _; (split; [done|]); rewrite ?app_nil_r; split; cbn; rewrite ?E1, ?E2; try done.
      apply (ok_write _ _ _ _ Hr).
    + eexists _, _, []. split; [done|]. rewrite app_nil_r. split; try done. cbn. split; [apply (ok_write _ _ _ _ Hr) | lia].
  - destruct Hp as [-> Hlt]. destruct (construct_ok _ _ _ _ v Hr Hlt ltac:(lia)) as (r' & -> & Hr' & Hv).
    eexists _, _, []. split; [done|]. rewrite app_nil_r. split; try done.
  - destruct Hp as (-> & Hlt & Hv). eexists _, _, _. split; [done|].
    split; cbn [the_ring prod cons_]; rewrite pushes_app; cbn [pushes omap list_omap].
    + by apply publish_ok.
    + done.
    + apply consumer_ok_push; [lia | done].
    + rewrite pops_app. cbn. rewrite app_nil_r, take_app_le by lia. done.
Qed.

Lemma deref_ok r h R i v : ring_ok r h R R -> R <= Z.of_nat i -> h !! i = Some v ->
  deref r (Z.to_nat (Z.of_nat i mod cap)) = Some v.
Proof. intros H Hi Hv. unfold deref. by rewrite (ok_cells _ _ _ _ H i v Hi Hv). Qed.

Lemma batch_slots_ok r h R : ring_ok r h R R -> R < Z.of_nat (length h) ->
  batch_slots r (wrap 64 R) (index_write_ r) =
  (fun i => Z.to_nat ((R + Z.of_nat i) mod cap)) <$> seq 0 (Z.to_nat (Z.of_nat (length h) - R)).
Proof.
  intros H Hlt. pose proof (ok_order _ _ _ _ H) as Ho. pose proof (cap_bounds k Hk) as Hc.
  unfold batch_slots. rewrite <- (ok_read _ _ _ _ H), (entries_ok _ _ _ _ H).
  rewrite (ok_read _ _ _ _ H), (ok_write _ _ _ _ H), (ok_mask _ _ _ _ H), (ok_capacity _ _ _ _ H).
  rewrite !land_mask by done. rewrite <- (batch_runs k Hk R (Z.of_nat (length h) - R)) by lia.
  by replace (R + (Z.of_nat (length h) - R)) with (Z.of_nat (length h)) by lia.
Qed.

(** A silent step of the consumer. *)
Lemma inv_silent evs r p c c' R : inv evs (mk_system r p c) R -> live_from R c = live_from R c' ->
  consumer_ok (pushes evs) R c' -> inv (evs ++ []) (mk_system r p c') R.
Proof. intros [? ? ? ?] E ?. rewrite app_nil_r. split; cbn in *; try done. by rewrite <- E. Qed.

Lemma inv_empty evs r p c R : inv evs (mk_system r p c) R -> live_from R c = R ->
  inv (evs ++ [Empty]) (mk_system r p CIdle) R.
Proof.
  intros [Hr ? ? ?] E. cbn in Hr. rewrite E in Hr.
  split; cbn in *; rewrite ?pushes_app, ?pops_app; cbn; rewrite ?app_nil_r; done.
Qed.

Lemma take_snoc {A} (l : list A) n v : l !! n = Some v -> take n l ++ [v] = take (S n) l.
Proof. intros. symmetry. by apply take_S_r. Qed.

Lemma inv_release evs r p c R n copied : inv evs (mk_system r p c) R -> 0 <= n ->
  R + n <= Z.of_nat (length (pushes evs)) -> live_from R c <= R + n ->
  copied = take (Z.to_nat n) (drop (Z.to_nat R) (pushes evs)) ->
  inv (evs ++ (Pop <$> copied)) (mk_system (store_read r (wrap 64 (wrap 64 R + n))) p CIdle) (R + n).
Proof.
  intros [Hr Hp Hc Hpop] Hn Hle HL Hcop. cbn in *. destruct (pops_of copied) as [E1 E2].
  pose proof (ok_order _ _ _ _ Hr) as Ho.
  split; cbn; rewrite ?pushes_app, ?pops_app, ?E1, ?E2, ?app_nil_r.
  - eapply release_ok; [exact Hr | lia..].
  - eapply producer_ok_release; [ | | exact Hp]; [lia | done].
  - done.
  - rewrite Hpop, Hcop, take_take_drop. f_equal. lia.
Qed.

Lemma copy_ok evs r p R x n q todo copied : inv evs (mk_system r p (BCopy x n (q :: todo) copied)) R ->
  exists v, deref r q = Some v /\ consumer_ok (pushes evs) R (BCopy x n todo (copied ++ [v])).
Proof.
  intros [Hr _ Hc _]. cbn in Hr, Hc. pose proof (ok_order _ _ _ _ Hr) as Ho.
  destruct Hc as (-> & Hn & Hle & Hcop & Htodo & Hlen).
  destruct (Z.to_nat n - length copied)%nat as [|m] eqn:Em; [done|]. cbn in Htodo. injection Htodo as -> ->.
  destruct (lookup_lt_is_Some_2 (pushes evs) (Z.to_nat R + length copied)) as [v Hv]; [lia|].
  exists v. split.
  - pose proof (deref_ok r _ R (Z.to_nat R + length copied)%nat v Hr ltac:(lia) Hv) as Hd.
    rewrite Nat2Z.inj_add, Z2Nat.id in Hd by lia. done.
  - cbn. rewrite length_app. cbn [length]. split_and!; try done; [ | | lia].
    + rewrite Hcop at 1. rewrite Nat.add_1_r. apply take_snoc. by rewrite lookup_drop.
    + rewrite Nat.add_1_r. f_equal. f_equal. lia.
Qed.

Lemma consumer_keeps evs r p c R : inv evs (mk_system r p c) R ->
  exists r' c' e R', consumer_step c r = Some (r', c', e) /\ inv (evs ++ e) (mk_system r' p c') R'.
Proof.
  intros H. pose proof H as [Hr Hp Hc Hpop]. cbn [the_ring prod cons_] in Hr, Hp, Hc.
  pose proof (ok_order _ _ _ _ Hr) as Ho. pose proof (ok_read _ _ _ _ Hr) as Hrd.
  destruct c as [| |x|q|v|v x|v x| |x|x n todo copied|x n copied]; cbn [consumer_step consumer_ok live_from] in *.
  - eexists r, CIdle, [], R. split; [done|]. by eapply inv_silent.
  - eexists r, _, [], R. split; [done|]. by eapply inv_silent.
  - subst x. rewrite <- Hrd, (entries_ok _ _ _ _ Hr).
    destruct (Z.eqb_spec (Z.of_nat (length (pushes evs)) - R) 0); eexists r, _, _, R; (split; [done|]).
    + by eapply inv_empty.
    + eapply inv_silent; [done..|]. cbn. split; [|lia]. rewrite Hrd. by eapply slot_ok.
  - destruct Hc as [-> Hlt]. destruct (lookup_lt_is_Some_2 (pushes evs) (Z.to_nat R)) as [v Hv]; [lia|].
    pose proof (deref_ok r _ R (Z.to_nat R) v Hr ltac:(lia) Hv) as Hd. rewrite Z2Nat.id in Hd by lia. rewrite Hd.
    eexists r, _, [], R. split; [done|]. by eapply inv_silent.
  - eexists r, _, [], R. split; [done|]. by eapply inv_silent.
  - destruct Hc as [Hv ->]. destruct (destroy_ok _ _ _ _ Hr Hv) as (r' & -> & Hr' & Hother).
    eexists r', _, [], R. split; [done|]. rewrite app_nil_r. split; cbn; try done.
    destruct p as [| | | |u w]; try exact Hp. cbn [producer_ok] in *. destruct Hp as (-> & Hlt & Hu).
    split_and!; [done | done |]. rewrite Hother; [done|]. apply lookup_lt_Some in Hv.
    pose proof (slots_distinct k Hk R (Z.of_nat (length (pushes evs))) ltac:(lia)).
    pose proof (cap_bounds k Hk). pose proof (Z.mod_pos_bound R cap ltac:(lia)).
    pose proof (Z.mod_pos_bound (Z.of_nat (length (pushes evs))) cap ltac:(lia)). lia.
  - destruct Hc as [Hv ->]. eexists _, CIdle, (Pop <$> [v]), (R + 1). split; [done|].
    apply lookup_lt_Some in Hv as Hlt. eapply inv_release; [exact H | lia | lia | cbn; lia |].
    by erewrite drop_S by exact Hv.
  - eexists r, _, [], R. split; [done|]. by eapply inv_silent.
  - subst x. rewrite <- Hrd, (entries_ok _ _ _ _ Hr), Hrd.
    destruct (Z.eqb_spec (Z.of_nat (length (pushes evs)) - R) 0); eexists r, _, _, R; (split; [done|]).
    + by eapply inv_empty.
    + eapply inv_silent; [done..|]. rewrite (batch_slots_ok _ _ _ Hr) by lia. cbn. rewrite Nat.sub_0_r.
      split_and!; try done; lia.
  - destruct todo as [|q todo].
    + destruct Hc as (-> & Hn & Hle & Hcop & Htodo & Hlen).
      assert (length copied = Z.to_nat n) as El.
      { symmetry in Htodo. apply fmap_nil_inv in Htodo. apply (f_equal length) in Htodo. rewrite length_seq in Htodo. cbn in Htodo. lia. }
      eexists r, _, [], R. split; [done|]. eapply inv_silent; [done..|]. cbn. rewrite El in Hcop. by split_and!.
    + destruct (copy_ok _ _ _ _ _ _ _ _ _ H) as (v & -> & Hc').
      eexists r, _, [], R. split; [done|]. by eapply inv_silent.
  - destruct Hc as (-> & Hn & Hle & Hcop). eexists _, CIdle, _, (R + n). split; [done|].
    eapply inv_release; [exact H | lia | lia | cbn; lia | done].
Qed.
End Invariant.

(** * What the ring promises *)

Section Promises.
Context {T : Type} (k : Z) (Hk : 1 <= k <= 63).
#[local] Abbreviation cap := (2 ^ k).
Implicit Types (r : ring T) (l : list T).

(** The number of bytes [malloc] is asked for is the product it is meant to be. *)
Definition fits_memory (sizeof_T capacity : Z) : Prop :=
  1 <= sizeof_T /\ sizeof_T * (capacity + 2 * k_padding sizeof_T) <= SIZE_MAX.

Lemma padding_pos sizeof_T : 1 <= sizeof_T -> 1 <= k_padding sizeof_T.
Proof. intros H. unfold k_padding. pose proof (Z.div_pos (64 - 1) sizeof_T ltac:(lia) ltac:(lia)). lia. Qed.

Lemma all_cells sizeof_T capacity : 0 <= capacity -> fits_memory sizeof_T capacity -> cells sizeof_T capacity = capacity.
Proof.
  intros Hc [H1 H2]. pose proof (padding_pos _ H1). unfold SIZE_MAX in H2. unfold cells, allocated.
  rewrite (wrap_small 64 (capacity + _)) by (unfold in_u; nia). rewrite wrap_small by (unfold in_u; nia).
  rewrite Z.mul_comm, Z.div_mul by lia. lia.
Qed.

Lemma new_ring_ok sizeof_T : fits_memory sizeof_T cap ->
  exists r, new_ring sizeof_T cap = Some r /\ ring_ok (T := T) k r [] 0 0.
Proof.
  intros Hp. pose proof (cap_bounds k Hk) as Hc. unfold new_ring.
  assert (Z.land cap 1 = 0) as ->.
  { replace cap with (2 * 2 ^ (k - 1)) by (rewrite <- Z.pow_succ_r by lia; f_equal; lia).
    change 1 with (Z.ones 1) at 2. rewrite Z.land_ones by lia. rewrite Z.mul_comm. apply Z.mod_mul. lia. }
  cbn [Z.eqb]. assert ((SIZE_MAX - 2 * k_padding sizeof_T <? cap) = false) as ->.
  { destruct Hp as [H1 H2]. pose proof (padding_pos _ H1). apply Z.ltb_ge. nia. }
  rewrite all_cells by (lia || done). eexists. split; [done|]. split; cbn; try done; try lia.
  - rewrite wrap_small; [done|]. unfold in_u. lia.
  - by rewrite length_replicate.
Qed.

Lemma step_keeps evs s e s' R : inv (T := T) k evs s R -> step s e s' -> exists R', inv k (evs ++ e) s' R'.
Proof.
  intros H Hs. destruct Hs as [r v c|r v c|r p|r p|r p c r' p' e E|r p c r' c' e E].
  - exists R. rewrite app_nil_r. by destruct H.
  - exists R. rewrite app_nil_r. by destruct H.
  - exists R. rewrite app_nil_r. by destruct H.
  - exists R. rewrite app_nil_r. by destruct H.
  - destruct (producer_keeps k Hk _ _ _ _ _ H) as (r1 & p1 & e1 & E1 & H1). rewrite E in E1.
    injection E1 as <- <- <-. by exists R.
  - destruct (consumer_keeps k Hk _ _ _ _ _ H) as (r1 & c1 & e1 & R1 & E1 & H1). rewrite E in E1.
    injection E1 as <- <- <-. by exists R1.
Qed.

Lemma reach_inv r0 evs s : ring_ok k r0 [] 0 0 -> reach r0 evs s -> exists R, inv k evs s R.
Proof.
  intros H0. induction 1 as [|evs s e s' _ [R IH] Hs].
  - exists 0. by split.
  - by eapply step_keeps.
Qed.

Lemma inv_counts evs s R : inv (T := T) k evs s R -> R = Z.of_nat (length (pops evs)).
Proof.
  intros [Hr _ _ ->]. pose proof (ok_order _ _ _ _ _ Hr). rewrite length_take. lia.
Qed.

(** [C7] The lock-free queue is a FIFO under every interleaving of the
    producer's and the consumer's loads and stores, also when the 64-bit
    indices wrap: for every capacity that is a power of two, what the
    consumer took (by [front]/[pop] or [batch_out]) is a prefix of what the
    producer put, at most [capacity - 1] elements are in between, the producer
    never writes outside the allocation, and the consumer never touches a cell
    that holds no object.  The number of bytes of the cells is to be a
    [size_t] ([oversized_ring_is_too_small]). *)
Theorem spsc_fifo sizeof_T r0 evs s :
  fits_memory sizeof_T cap -> new_ring sizeof_T cap = Some r0 -> reach (T := T) r0 evs s ->
  (pops evs `prefix_of` pushes evs) /\
  Z.of_nat (length (pushes evs)) <= Z.of_nat (length (pops evs)) + (cap - 1) /\
  is_Some (producer_step (prod s) (the_ring s)) /\ is_Some (consumer_step (cons_ s) (the_ring s)).
Proof.
  intros Hp E0 Hs. destruct (new_ring_ok sizeof_T Hp) as (r & E & Hr). rewrite E0 in E. injection E as <-.
  destruct (reach_inv _ _ _ Hr Hs) as [R H]. pose proof (inv_counts _ _ _ H) as HR. split_and!.
  - rewrite (inv_pops _ _ _ _ H). exists (drop (Z.to_nat R) (pushes evs)). symmetry. apply take_drop.
  - pose proof (ok_order _ _ _ _ _ (inv_ring _ _ _ _ H)). lia.
  - destruct s as [r p c]. destruct (producer_keeps k Hk _ _ _ _ _ H) as (r' & p' & e & E' & _). cbn. eauto.
  - destruct s as [r p c]. destruct (consumer_keeps k Hk _ _ _ _ _ H) as (r' & c' & e & R' & E' & _). cbn. eauto.
Qed.

(** No spurious answer: at the moment [try_emplace] gives up, exactly
    [capacity - 1] elements are in the ring, at the moment [front] or
    [batch_out] finds nothing the ring is empty, and a spinning [emplace]
    leaves its loop at the first read that sees room. *)
Theorem spsc_no_spurious sizeof_T r0 evs s :
  fits_memory sizeof_T cap -> new_ring sizeof_T cap = Some r0 -> reach (T := T) r0 evs s ->
  let used := Z.of_nat (length (pushes evs)) - Z.of_nat (length (pops evs)) in
  (forall r' p' e, producer_step (prod s) (the_ring s) = Some (r', p', e) -> Full ∈ e -> used = cap - 1) /\
  (forall r' c' e, consumer_step (cons_ s) (the_ring s) = Some (r', c', e) -> Empty ∈ e -> used = 0) /\
  (forall v w, prod s = PLoadRead true v w ->
    producer_step (prod s) (the_ring s) =
      Some (the_ring s, if decide (used = cap - 1) then PLoadRead true v w else PConstruct v w, [])).
Proof.
  intros Hp E0 Hs used. destruct (new_ring_ok sizeof_T Hp) as (r & E & Hr). rewrite E0 in E. injection E as <-.
  destruct (reach_inv _ _ _ Hr Hs) as [R H]. pose proof (inv_counts _ _ _ H) as HR. destruct H as [Hrg Hpr Hco _].
  assert (Hfree : forall w, w = wrap 64 (Z.of_nat (length (pushes evs))) ->
    free_entries (the_ring s) w (index_read_ (the_ring s)) = cap - 1 - used).
  { intros w ->. rewrite <- (ok_write _ _ _ _ _ Hrg), (free_ok _ Hk _ _ _ _ Hrg). lia. }
  split_and!.
  - intros r' p' e E1 Hin. destruct (prod s) as [|spin v|spin v w|v w|v w]; cbn in E1, Hpr;
      try (repeat case_match; simplify_option_eq; set_solver).
    rewrite Hfree in E1 by done. destruct (Z.eqb_spec (cap - 1 - used) 0); [lia|]. injection E1 as <- <- <-. set_solver.
  - assert (Hent : index_read_ (the_ring s) = wrap 64 R ->
      entries (index_write_ (the_ring s)) (wrap 64 R) = used).
    { intros Hrd. rewrite <- Hrd, (entries_ok _ Hk _ _ _ _ Hrg). lia. }
    specialize (Hent (ok_read _ _ _ _ _ Hrg)).
    intros r' c' e E1 Hin. destruct (cons_ s) as [| |x|q|v|v x|v x| |x|x n [|q todo] copied|x n copied]; cbn in E1, Hco;
      repeat (case_match || simplify_option_eq); try set_solver.
    + rewrite Hent in *. lia.
    + rewrite Hent in *. lia.
  - intros v w Ep. rewrite Ep in *. cbn in *. rewrite Hfree by done.
    destruct (Z.eqb_spec (cap - 1 - used) 0); case_decide; cbn; (done || lia).
Qed.
End Promises.

(** * Running a schedule *)

Section Schedule.
Context {T : Type}.

Inductive choice : Type := StartEmplace (v : T) | StartTryEmplace (v : T) | StartFront | StartBatchOut | Producer | Consumer.

(** [None]: the choice is not enabled. *)
Definition choose (c : choice) (s : system T) : option (list (event T) * system T) :=
  match c, s with
  | StartEmplace v, mk_system r PIdle c => Some ([], mk_system r (PLoadWrite true v) c)
  | StartTryEmplace v, mk_system r PIdle c => Some ([], mk_system r (PLoadWrite false v) c)
  | StartFront, mk_system r p CIdle => Some ([], mk_system r p CLoadRead)
  | StartBatchOut, mk_system r p CIdle => Some ([], mk_system r p BLoadRead)
  | Producer, mk_system r p c => x ← producer_step p r; Some (x.2, mk_system x.1.1 x.1.2 c)
  | Consumer, mk_system r p c => x ← consumer_step c r; Some (x.2, mk_system x.1.1 p x.1.2)
  | _, _ => None
  end.
Fixpoint schedule (cs : list choice) (evs : list (event T)) (s : system T) : option (list (event T) * system T) :=
  match cs with
  | [] => Some (evs, s)
  | c :: cs' => x ← choose c s; schedule cs' (evs ++ x.1) x.2
  end.

Lemma choose_step c s e s' : choose c s = Some (e, s') -> step s e s'.
Proof.
  destruct s as [r p cn]. destruct c; cbn; intros E.
  - destruct p; simplify_eq. constructor.
  - destruct p; simplify_eq. constructor.
  - destruct cn; simplify_eq. constructor.
  - destruct cn; simplify_eq. constructor.
  - destruct (producer_step p r) as [[[r' p'] e']|] eqn:Ep; [|done].
    cbn in E. simplify_eq. by constructor.
  - destruct (consumer_step cn r) as [[[r' c'] e']|] eqn:Ec; [|done].
    cbn in E. simplify_eq. by constructor.
Qed.

Lemma schedule_reach r0 cs : forall evs s evs' s', reach r0 evs s -> schedule cs evs s = Some (evs', s') -> reach r0 evs' s'.
Proof.
  induction cs as [|c cs IH]; cbn; intros evs s evs' s' Hr E; [by simplify_eq|].
  destruct (choose c s) as [[e s1]|] eqn:Ec; [|done]. cbn in E. eapply IH; [|exact E].
  eapply reach_step; [done | by eapply choose_step].
Qed.
End Schedule.

(** Two pushes overlapping one pop on a ring of capacity 4. *)
Definition demo_schedule : list (choice (T := Z)) :=
  [StartTryEmplace 7; Producer; Producer; StartFront; Consumer; Producer; Producer; StartEmplace 8; Consumer; Consumer;
   Producer; Consumer; Producer; Consumer; Producer; Consumer; Producer; StartBatchOut; Consumer; Consumer].

Definition ring4 : ring Z := mk_ring 4 3 [None; None; None; None] 0 0.

Lemma new_ring4 : new_ring 8 (2 ^ 2) = Some ring4.
Proof. vm_compute. reflexivity. Qed.

Lemma demo_runs : exists evs s, schedule demo_schedule [] (mk_system ring4 PIdle CIdle) = Some (evs, s) /\
  pushes evs = [7; 8] /\ pops evs = [7].
Proof. eexists _, _. split; [vm_compute; reflexivity | split; reflexivity]. Qed.

Lemma spsc_fifo_witness : exists s evs,
  schedule demo_schedule [] (mk_system ring4 PIdle CIdle) = Some (evs, s) /\
  (pops evs `prefix_of` pushes evs) /\ pushes evs = [7; 8] /\ pops evs = [7].
Proof.
  destruct demo_runs as (evs & s & E & E1 & E2). exists s, evs. split_and!; [exact E | | exact E1 | exact E2].
  eapply (spsc_fifo 2 ltac:(lia) 8); [split; vm_compute; congruence | exact new_ring4 |].
  eapply (schedule_reach _ demo_schedule []); [apply reach_start | exact E].
Defined.

(** A fourth push into a ring of capacity 4. *)
Definition full_schedule : list (choice (T := Z)) :=
  StartEmplace 1 :: replicate 4 Producer ++ StartEmplace 2 :: replicate 4 Producer ++
  StartEmplace 3 :: replicate 4 Producer ++ [StartTryEmplace 4; Producer].

Lemma full_runs : exists evs s r' p', schedule full_schedule [] (mk_system ring4 PIdle CIdle) = Some (evs, s) /\
  producer_step (prod s) (the_ring s) = Some (r', p', [Full]).
Proof. eexists _, _, _, _. split; [vm_compute; reflexivity | vm_compute; reflexivity]. Qed.

Lemma spsc_no_spurious_witness : exists s evs,
  schedule full_schedule [] (mk_system ring4 PIdle CIdle) = Some (evs, s) /\
  Z.of_nat (length (pushes evs)) - Z.of_nat (length (pops evs)) = 2 ^ 2 - 1.
Proof.
  destruct full_runs as (evs & s & r' & p' & E & E1). exists s, evs. split; [exact E|].
  eapply (spsc_no_spurious 2 ltac:(lia) 8); [split; vm_compute; congruence | exact new_ring4 | | exact E1 | left].
  eapply (schedule_reach _ full_schedule []); [apply reach_start | exact E].
Defined.

(** * The members called one after the other *)

Section Sequential.
Context {T : Type} (k : Z) (Hk : 1 <= k <= 63).
#[local] Abbreviation cap := (2 ^ k).
Implicit Types (r : ring T) (l : list T).

(** The abstract value: the elements in the ring, oldest first. *)
Definition holds r l : Prop := exists h R, ring_ok k r h R R /\ l = drop (Z.to_nat R) h.

Lemma holds_length r h R : ring_ok k r h R R ->
  Z.of_nat (length (drop (Z.to_nat R) h)) = Z.of_nat (length h) - R.
Proof. intros H. pose proof (ok_order _ _ _ _ _ H). rewrite length_drop. lia. Qed.

Lemma land_high n : 0 <= n < cap -> Z.land n (wrap 64 (Z.lnot (cap - 1))) = 0.
Proof.
  intros Hn. pose proof (cap_bounds k Hk).
  assert (wrap 64 (Z.lnot (cap - 1)) = Z.shiftl (Z.ones (64 - k)) k) as ->.
  { rewrite Z.shiftl_mul_pow2, Z.ones_equiv by lia. unfold Z.lnot, wrap.
    replace (Z.pred (- (cap - 1))) with (- cap) by lia.
    assert (E : 2 ^ (64 - k) * cap = 2 ^ 64) by (rewrite <- Z.pow_add_r by lia; f_equal; lia).
    symmetry. apply (Z.mod_unique _ _ (-1)); lia. }
  apply Z.bits_inj'. intros i Hi. rewrite Z.land_spec, Z.shiftl_spec, Z.bits_0 by lia.
  destruct (Z.lt_ge_cases i k) as [Hlt|Hge].
  - rewrite (Z.testbit_neg_r _ (i - k)) by lia. apply andb_false_r.
  - rewrite <- (Z.mod_small n cap) by lia. by rewrite Z.mod_pow2_bits_high by lia.
Qed.

Lemma try_emplace_room r l v : holds r l -> Z.of_nat (length l) < cap - 1 ->
  exists r', try_emplace v r = Some (true, r') /\ holds r' (l ++ [v]).
Proof.
  intros (h & R & H & ->) Hv. pose proof (ok_order _ _ _ _ _ H). rewrite (holds_length _ _ _ H) in Hv.
  unfold try_emplace. rewrite (free_ok k Hk _ _ _ _ H), (proj2 (Z.eqb_neq _ _)) by lia.
  rewrite (ok_write _ _ _ _ _ H).
  destruct (construct_ok k Hk _ _ _ _ v H ltac:(lia) ltac:(lia)) as (r1 & -> & H1 & Hc).
  assert (Hlt : Z.of_nat (length h) < R + (cap - 1)) by lia.
  pose proof (publish_ok k Hk _ _ _ _ _ H1 Hlt Hc) as H2.
  eexists. split; [done|]. exists (h ++ [v]), R. split; [exact H2|]. rewrite drop_app_le by lia. done.
Qed.

Lemma try_emplace_full r l v : holds r l -> Z.of_nat (length l) = cap - 1 -> try_emplace v r = Some (false, r).
Proof.
  intros (h & R & H & ->) Hv. rewrite (holds_length _ _ _ H) in Hv.
  unfold try_emplace. by rewrite (free_ok k Hk _ _ _ _ H), (proj2 (Z.eqb_eq _ _)) by lia.
Qed.

Lemma front_pop r l : holds r l ->
  match l with
  | [] => front r = None
  | v :: l' => (exists p, front r = Some p /\ deref r p = Some v) /\ exists r', pop r = Some r' /\ holds r' l'
  end.
Proof.
  intros (h & R & H & El). pose proof (ok_order _ _ _ _ _ H). pose proof (holds_length _ _ _ H) as Hl. rewrite <- El in Hl.
  unfold front. rewrite (entries_ok k Hk _ _ _ _ H). destruct l as [|v l].
  - cbn [length] in Hl. by rewrite (proj2 (Z.eqb_eq _ _)) by lia.
  - cbn [length] in Hl. rewrite (proj2 (Z.eqb_neq _ _)) by lia. rewrite (ok_read _ _ _ _ _ H), (slot_ok k Hk _ _ _ _ R H).
    assert (Hv : h !! Z.to_nat R = Some v).
    { replace (Z.to_nat R) with (Z.to_nat R + 0)%nat by lia. by rewrite <- lookup_drop, <- El. }
    split.
    + eexists. split; [done|]. pose proof (deref_ok k r h R (Z.to_nat R) v H ltac:(lia) Hv) as Hd.
      by rewrite Z2Nat.id in Hd by lia.
    + unfold pop. rewrite (ok_read _ _ _ _ _ H). destruct (destroy_ok k Hk _ _ _ _ H Hv) as (r' & -> & H' & _).
      cbn [mbind option_bind]. eexists. split; [done|]. exists h, (R + 1).
      split; [eapply (release_ok k Hk); [exact H' | lia..]|].
      replace (Z.to_nat (R + 1)) with (Z.to_nat R + 1)%nat by lia. by rewrite <- drop_drop, <- El.
Qed.

(** Reading the slots of consecutive counters. *)
Lemma mapM_deref r h R : ring_ok k r h R R -> forall n m, (Z.to_nat R + m + n <= length h)%nat ->
  mapM (deref r) ((fun i => Z.to_nat ((R + Z.of_nat i) mod cap)) <$> seq m n) = Some (take n (drop (Z.to_nat R + m) h)).
Proof.
  intros H. pose proof (ok_order _ _ _ _ _ H). induction n as [|n IH]; intros m Hm; [done|].
  destruct (lookup_lt_is_Some_2 h (Z.to_nat R + m)) as [v Hv]; [lia|].
  pose proof (deref_ok k r h R (Z.to_nat R + m)%nat v H ltac:(lia) Hv) as Hd.
  rewrite Nat2Z.inj_add, Z2Nat.id in Hd by lia.
  cbn [seq fmap list_fmap mapM]. rewrite Hd. cbn [mbind option_bind]. rewrite IH by lia. cbn.
  rewrite (drop_S h v _ Hv). cbn. by replace (Z.to_nat R + S m)%nat with (S (Z.to_nat R + m)) by lia.
Qed.

Lemma batch_out_all r l out : holds r l ->
  exists r', batch_out out r = Some (bool_decide (l <> []), out ++ l, r') /\ holds r' [].
Proof.
  intros (h & R & H & El). pose proof (ok_order _ _ _ _ _ H). pose proof (holds_length _ _ _ H) as Hl. rewrite <- El in Hl.
  unfold batch_out. rewrite (entries_ok k Hk _ _ _ _ H), <- Hl. destruct l as [|v l].
  - exists r. cbn. rewrite app_nil_r. split; [done|]. by exists h, R.
  - rewrite (proj2 (Z.eqb_neq _ _)) by (cbn [length]; lia). cbn [length] in Hl. rewrite (ok_read _ _ _ _ _ H).
    rewrite (batch_slots_ok k Hk _ _ _ H) by lia. rewrite (mapM_deref r h R H) by lia. cbn [mbind option_bind].
    rewrite Nat.add_0_r, <- El, take_ge by (cbn [length]; lia). rewrite bool_decide_eq_true_2 by done.
    eexists. split; [done|]. exists h, (R + Z.of_nat (length (v :: l))).
    split; [eapply (release_ok k Hk); [exact H | cbn [length]; lia..]|]. symmetry. apply drop_ge. cbn [length]. lia.
Qed.

Lemma ring_size_ok r l : holds r l -> ring_size r = Some (Z.of_nat (length l)).
Proof.
  intros (h & R & H & ->). pose proof (ok_order _ _ _ _ _ H). rewrite (holds_length _ _ _ H).
  unfold ring_size. rewrite (entries_ok k Hk _ _ _ _ H), (ok_mask _ _ _ _ _ H), land_high by lia. done.
Qed.

Lemma drain_all l : forall r, holds r l -> exists r', drain (length l) r = Some r' /\ holds r' [].
Proof.
  induction l as [|v l IH]; intros r H; pose proof (front_pop r _ H) as Hf; cbn [length drain].
  - exists r. by rewrite Hf.
  - destruct Hf as [(p & -> & _) (r1 & -> & H1)]. cbn [mbind option_bind]. by apply IH.
Qed.

Lemma ring_full_inverted r l : holds r l -> ring_full r = negb (bool_decide (Z.of_nat (length l) = cap - 1)).
Proof.
  intros (h & R & H & ->). rewrite (holds_length _ _ _ H). unfold ring_full. rewrite (free_ok k Hk _ _ _ _ H).
  destruct (Z.eqb_spec (cap - 1 - (Z.of_nat (length h) - R)) 0).
  - by rewrite bool_decide_eq_true_2 by lia.
  - by rewrite bool_decide_eq_false_2 by lia.
Qed.

(** Called without interference, the ring is a queue bounded by
    [capacity - 1]: [try_emplace] appends unless it holds that many and then
    changes nothing, [front] points at the oldest element, [pop] removes it,
    [batch_out] appends all elements in order to the vector and empties the
    ring, [size] is the number of elements and its assertion holds, and the
    destructor's loop ends with an empty ring.  [full] answers the opposite
    of its name. *)
Theorem ring_is_bounded_queue r l :
  holds r l ->
  (forall v, Z.of_nat (length l) < cap - 1 -> exists r', try_emplace v r = Some (true, r') /\ holds r' (l ++ [v])) /\
  (forall v, Z.of_nat (length l) = cap - 1 -> try_emplace v r = Some (false, r)) /\
  match l with
  | [] => front r = None
  | v :: l' => (exists p, front r = Some p /\ deref r p = Some v) /\ exists r', pop r = Some r' /\ holds r' l'
  end /\
  (forall out, exists r', batch_out out r = Some (bool_decide (l <> []), out ++ l, r') /\ holds r' []) /\
  ring_size r = Some (Z.of_nat (length l)) /\ ring_empty r = Some (bool_decide (l = [])) /\
  (exists r', drain (length l) r = Some r' /\ holds r' []) /\
  ring_full r = negb (bool_decide (Z.of_nat (length l) = cap - 1)).
Proof.
  intros H. split_and!.
  - intros v Hv. by apply try_emplace_room.
  - intros v Hv. by apply (try_emplace_full r l).
  - by apply front_pop.
  - intros out. by apply batch_out_all.
  - by apply ring_size_ok.
  - unfold ring_empty. rewrite (ring_size_ok r l H). cbn. f_equal.
    by destruct l.
  - by apply drain_all.
  - by eapply ring_full_inverted.
Qed.
End Sequential.

(** A ring of capacity 4 holding two elements. *)
Lemma ring_is_bounded_queue_witness : exists r r' : ring Z,
  (r0 ← new_ring (T := Z) 8 (2 ^ 2); x ← try_emplace 5 r0; y ← try_emplace 6 x.2; Some y.2) = Some r /\
  ring_size r = Some 2 /\ batch_out [1] r = Some (true, [1; 5; 6], r').
Proof.
  destruct (new_ring_ok (T := Z) 2 ltac:(lia) 8) as (r0 & E0 & H0); [split; vm_compute; congruence|].
  destruct (try_emplace_room (T := Z) 2 ltac:(lia) r0 [] 5) as (r1 & E1 & H1); [by exists [], 0 | cbn; lia |].
  destruct (try_emplace_room (T := Z) 2 ltac:(lia) r1 [5] 6 H1) as (r2 & E2 & H2); [cbn; lia |].
  destruct (ring_is_bounded_queue 2 ltac:(lia) r2 [5; 6] H2) as (_ & _ & _ & Hb & Hs & _).
  destruct (Hb [1]) as (r' & Eb & _). exists r2, r'. split_and!; [|exact Hs | exact Eb].
  rewrite E0. cbn [mbind option_bind]. rewrite E1. cbn [mbind option_bind snd]. by rewrite E2.
Defined.

Fixpoint emplace_all {T} (vs : list T) (r : ring T) : option (ring T) :=
  match vs with
  | [] => Some r
  | v :: vs' => match try_emplace v r with Some (true, r') => emplace_all vs' r' | _ => None end
  end.

(** The constructor's assertion is weaker than its comment: any even
    capacity passes.  With capacity 6 the mask is not all ones, two of the
    first three elements share a cell, and the first one read back is the
    third one written. *)
Theorem even_capacity_is_not_enough :
  (r0 ← new_ring (T := Z) 8 6; r ← emplace_all [10; 11; 12] r0; p ← front r; deref r p) = Some 12.
Proof. vm_compute. reflexivity. Qed.

(** The constructor bounds the number of entries by [SIZE_MAX] and not the
    number of bytes: 2^60 entries of 16 bytes are asked for as 128 bytes, which
    are the padding in front and four cells.  Four elements are written there
    and the fifth outside the allocation. *)
Theorem oversized_ring_is_too_small :
  allocated 16 (2 ^ 60) = 128 /\ is_Some (r0 ← new_ring (T := Z) 16 (2 ^ 60); emplace_all [1; 2; 3; 4] r0) /\
  (r0 ← new_ring (T := Z) 16 (2 ^ 60); emplace_all [1; 2; 3; 4; 5] r0) = None.
Proof. split_and!; [vm_compute; reflexivity | eexists; vm_compute; reflexivity | vm_compute; reflexivity]. Qed.
