(* ===== verification/Events.v ===== *)
(** The synchronisation primitives a coroutine can wait on, each as a machine
    whose steps are the atomic accesses of the source, taken by any number of
    signalling threads and the one consumer in any order:
    [single_consumer_event.hpp] (Module [Manual]),
    [single_consumer_async_auto_reset_event.hpp] (Module [AutoReset]) and
    [detail/async/lightweight_manual_reset_event.hpp] (Module [Futex]). *)
From S2P Require Import Prelude.

(** Runs of a step relation. *)
Inductive star {S L : Type} (step : S -> L -> S -> Prop) : S -> list L -> S -> Prop :=
| star_refl s : star step s [] s
| star_snoc s ls s' l s'' : star step s ls s' -> step s' l s'' -> star step s (ls ++ [l]) s''.

Lemma star_inv {S L} (step : S -> L -> S -> Prop) (I : S -> Prop) s ls s' :
  I s -> (forall s l s', I s -> step s l s' -> I s') -> star step s ls s' -> I s'.
Proof. intros H0 Hstep. induction 1; eauto. Qed.

Lemma star_cons {S L} (step : S -> L -> S -> Prop) s l s' ls s'' :
  step s l s' -> star step s' ls s'' -> star step s (l :: ls) s''.
Proof.
  intros H. induction 1 as [|s1 ls s2 l' s3 _ IH H']; [eapply (star_snoc _ _ []); [apply star_refl | done]|].
  change (l :: ls ++ [l']) with ((l :: ls) ++ [l']). eapply star_snoc; [by apply IH | done].
Qed.

(** The steps of a machine given by a partial function, and its runs. *)
Definition steps_of {S L : Type} (act : L -> S -> option S) (s : S) (l : L) (s' : S) : Prop := act l s = Some s'.
Fixpoint run_acts {S L : Type} (act : L -> S -> option S) (ls : list L) (s : S) : option S :=
  match ls with
  | [] => Some s
  | l :: ls' => s' ← act l s; run_acts act ls' s'
  end.

Lemma run_acts_star {S L} (act : L -> S -> option S) ls : forall s s',
  run_acts act ls s = Some s' -> star (steps_of act) s ls s'.
Proof.
  induction ls as [|l ls IH]; cbn; intros s s' E; [injection E as <-; apply star_refl|].
  destruct (act l s) as [s1|] eqn:E1; [|done]. cbn in E. eapply star_cons; [exact E1 | by apply IH].
Qed.

(** * [single_consumer_event] *)

Module Manual.

Inductive state : Type := not_set | not_set_consumer_waiting | set_.
#[global] Instance state_eq_dec : EqDecision state.
Proof. solve_decision. Defined.

(** The consumer in [co_await event]: outside, after [await_ready] said no,
    after the write of [m_awaiter], suspended. *)
Inductive consumer : Type := Running | NotReady | Stored | Suspended.

(** [m_state], [m_awaiter] (whether it is the consumer's handle), the
    consumer, and the number of threads inside [set] that have exchanged and
    still have to call [m_awaiter.resume()]. *)
Record event : Type := mk_event { m_state : state; m_awaiter : bool; who : consumer; resuming : nat }.
Definition init (initiallySet : bool) : event :=
  mk_event (if initiallySet then set_ else not_set) false Running 0.

Definition is_set (e : event) : bool := bool_decide (m_state e = set_).

Inductive action : Type := AwaitReady | StoreAwaiter | AwaitSuspend | SetExchange | SetResume | Reset.

(** One access; [None]: not possible here, or [resume] on a coroutine that is
    not suspended. *)
Definition act (a : action) (e : event) : option event :=
  match a with
  | AwaitReady =>
    match who e with
    | Running => Some (if is_set e then e else mk_event (m_state e) (m_awaiter e) NotReady (resuming e))
    | _ => None
    end
  | StoreAwaiter =>
    match who e with
    | NotReady => Some (mk_event (m_state e) true Stored (resuming e))
    | _ => None
    end
  | AwaitSuspend =>
    match who e with
    | Stored =>
      Some (if decide (m_state e = not_set)
            then mk_event not_set_consumer_waiting (m_awaiter e) Suspended (resuming e)
            else mk_event (m_state e) (m_awaiter e) Running (resuming e))
    | _ => None
    end
  | SetExchange =>
    let oldState := m_state e in
    Some (mk_event set_ (m_awaiter e) (who e)
            (if decide (oldState = not_set_consumer_waiting) then S (resuming e) else resuming e))
  | SetResume =>
    match resuming e, who e, m_awaiter e with
    | S n, Suspended, true => Some (mk_event (m_state e) (m_awaiter e) Running n)
    | _, _, _ => None
    end
  | Reset =>
    Some (mk_event (if decide (m_state e = set_) then not_set else m_state e) (m_awaiter e) (who e) (resuming e))
  end.
Definition step : event -> action -> event -> Prop := steps_of act.

Definition inv (e : event) : Prop :=
  match who e with
  | Running | NotReady => m_state e <> not_set_consumer_waiting /\ resuming e = 0%nat
  | Stored => m_state e <> not_set_consumer_waiting /\ resuming e = 0%nat /\ m_awaiter e = true
  | Suspended =>
    m_awaiter e = true /\
    ((m_state e = not_set_consumer_waiting /\ resuming e = 0%nat) \/
     (m_state e <> not_set_consumer_waiting /\ resuming e = 1%nat))
  end.

Lemma manual_act_inv e a e' : inv e -> act a e = Some e' -> inv e'.
Proof.
  destruct e as [st aw w n]. unfold inv. intros H E.
  destruct a, w, st, aw, n as [|[|n]]; cbn in *; simplify_eq/=; intuition congruence.
Qed.

(** [C31] The manual-reset event loses no wake-up and wakes nobody twice.  In
    every interleaving of [co_await], any number of [set]s and [reset]s: a
    thread that has to resume finds the consumer suspended with its handle
    stored; at most one thread has to; and a consumer that is suspended is
    either registered in [m_state], so that the next [set] resumes it, or
    is about to be resumed. *)
Theorem manual_event_wakeups b acts e :
  star step (init b) acts e ->
  (resuming e <= 1)%nat /\
  (resuming e = 1%nat -> is_Some (act SetResume e)) /\
  (who e = Suspended ->
     (m_state e = not_set_consumer_waiting /\ resuming e = 0%nat /\
        exists e1, act SetExchange e = Some e1 /\ is_Some (act SetResume e1)) \/
     (m_state e <> not_set_consumer_waiting /\ is_Some (act SetResume e))).
Proof.
  intros Hs. assert (H : inv e).
  { eapply star_inv; [| |exact Hs]; [by destruct b; cbn | intros s l s'; apply manual_act_inv]. }
  destruct e as [st aw w n]. unfold inv in H. cbn in H. destruct w; cbn.
  - destruct H as [H ->]. split_and!; [lia | done | done].
  - destruct H as [H ->]. split_and!; [lia | done | done].
  - destruct H as (H & -> & _). split_and!; [lia | done | done].
  - destruct H as [-> [[-> ->]|[H ->]]]; (split_and!; [lia | eauto; done | intros _]).
    + left. split_and!; [done | done |]. eauto.
    + right. eauto.
Qed.

Lemma manual_event_wakeups_witness :
  exists e, star step (init false) [AwaitReady; StoreAwaiter; AwaitSuspend; SetExchange] e /\ is_Some (act SetResume e).
Proof.
  assert (Hs : star step (init false) [AwaitReady; StoreAwaiter; AwaitSuspend; SetExchange] (mk_event set_ true Suspended 1))
    by (apply run_acts_star; reflexivity).
  eexists. split; [exact Hs|]. apply (manual_event_wakeups false _ _ Hs). reflexivity.
Defined.
End Manual.

(** * [single_consumer_async_auto_reset_event] *)

Module AutoReset.

(** [m_state]: null, [this] (set), or the address of the waiting handle. *)
Inductive value : Type := Null | This | Waiter.
#[global] Instance value_eq_dec : EqDecision value.
Proof. solve_decision. Defined.

(** The consumer: outside, after the write of its handle, after a failed
    compare-exchange, suspended. *)
Inductive consumer : Type := Running | Stored | WasSet | Suspended.

(** A thread inside [set] that took the waiter out: it still has to exchange
    null in, or only to resume. *)
Inductive setter : Type := MustClear | MustResume.

(** [signalled] is a ghost: a [set] has been made that no wake-up of the
    consumer answers yet. *)
Record event : Type := mk_event {
  m_state : value; who : consumer; setters : list setter; signalled : bool }.
Definition init (initiallySet : bool) : event :=
  mk_event (if initiallySet then This else Null) Running [] initiallySet.

Inductive action : Type := AwaitStore | AwaitSuspend | AwaitClear | SetExchange | SetClear | SetResume.

(** One access; [None]: not possible here, the failed assertion, or [resume]
    of a coroutine that is not suspended. *)
Definition act (a : action) (e : event) : option event :=
  match a, who e with
  | AwaitStore, Running => Some (mk_event (m_state e) Stored (setters e) (signalled e))
  | AwaitSuspend, Stored =>
    match m_state e with
    | Null => Some (mk_event Waiter Suspended (setters e) (signalled e))
    | This => Some (mk_event This WasSet (setters e) (signalled e))
    | Waiter => None  (* assert(oldValue == &m_event) *)
    end
  | AwaitClear, WasSet => Some (mk_event Null Running (setters e) false)
  | SetExchange, w =>
    match m_state e with
    | Waiter => Some (mk_event This w (setters e ++ [MustClear]) true)
    | _ => Some (mk_event This w (setters e) true)
    end
  | SetClear, w =>
    match setters e with
    | MustClear :: ss => Some (mk_event Null w (MustResume :: ss) false)
    | _ => None
    end
  | SetResume, w =>
    match setters e, w with
    | MustResume :: ss, Suspended => Some (mk_event (m_state e) Running ss (signalled e))
    | _, _ => None
    end
  | _, _ => None
  end.
Definition step : event -> action -> event -> Prop := steps_of act.

(** A [set] that falls between the exchange of [this] and the exchange of null
    is merged with the wake-up in flight; one after it stays pending. *)
Definition inv (e : event) : Prop :=
  match who e, setters e with
  | (Running | Stored), [] => m_state e <> Waiter /\ (signalled e = true <-> m_state e = This)
  | WasSet, [] => m_state e = This /\ signalled e = true
  | Suspended, [] => m_state e = Waiter /\ signalled e = false
  | Suspended, [MustClear] => m_state e = This /\ signalled e = true
  | Suspended, [MustResume] => m_state e <> Waiter /\ (signalled e = true <-> m_state e = This)
  | _, _ => False
  end.

Lemma auto_reset_act_inv e a e' : inv e -> act a e = Some e' -> inv e'.
Proof.
  destruct e as [st w ss sg]. unfold inv. intros H E.
  destruct a, w, st, ss as [|[|] [|? ?]], sg; cbn in *; simplify_eq/=; intuition congruence.
Qed.

(** [C6] The auto-reset event delivers every signal and no others.  In every
    interleaving of [co_await] with any number of [set] calls: the assertion
    in [await_suspend] never fails and [resume] only ever meets the suspended
    consumer; a suspended consumer with nobody about to wake it is registered
    and no [set] is unanswered; a consumer that is not suspended, or that a
    thread is just about to resume, will find the event set exactly when
    there is a [set] that its wake-ups do not answer. *)
Theorem auto_reset_event_delivers b acts e :
  star step (init b) acts e ->
  (who e = Stored -> is_Some (act AwaitSuspend e)) /\
  (forall ss, setters e = MustResume :: ss -> is_Some (act SetResume e)) /\
  (length (setters e) <= 1)%nat /\
  (who e = Suspended -> setters e = [] -> m_state e = Waiter /\ signalled e = false) /\
  (who e <> Suspended -> setters e = [] /\ (m_state e = This <-> signalled e = true)) /\
  (setters e = [MustResume] -> (m_state e = This <-> signalled e = true)).
Proof.
  intros Hs. assert (H : inv e).
  { eapply star_inv; [| |exact Hs]; [by destruct b; cbn | intros s l s'; apply auto_reset_act_inv]. }
  destruct e as [st w ss sg]. unfold inv in H. cbn in *.
  destruct w, st, ss as [|[|] [|? ?]], sg; cbn in *; try tauto;
    split_and!; intros; simplify_eq/=; eauto; try lia; intuition congruence.
Qed.

(** A second [set] after the null exchange is still pending when the consumer
    runs again. *)
Lemma auto_reset_event_delivers_witness :
  exists e, star step (init false) [AwaitStore; AwaitSuspend; SetExchange; SetClear; SetExchange; SetResume; AwaitStore] e /\
    is_Some (act AwaitSuspend e).
Proof.
  assert (Hs : star step (init false) [AwaitStore; AwaitSuspend; SetExchange; SetClear; SetExchange; SetResume; AwaitStore]
    (mk_event This Stored [] true)) by (apply run_acts_star; reflexivity).
  eexists. split; [exact Hs|]. apply (auto_reset_event_delivers false _ _ Hs). reflexivity.
Defined.
End AutoReset.

(** * [lightweight_manual_reset_event] *)

Module Futex.

(** The waiter in [wait]: before the load, holding the loaded value, asleep in
    the kernel, back in user space after a wake-up or an error, returned. *)
Inductive waiter : Type := BeforeLoad | Loaded (oldValue : Z) | Asleep | Returned.

(** [m_value], the waiter, and the threads in [set] between the store and the
    wake call. *)
Record event : Type := mk_event { m_value : Z; who : waiter; waking : nat; was_set : bool }.
Definition init (initiallySet : bool) : event := mk_event (if initiallySet then 1 else 0) BeforeLoad 0 initiallySet.

(** What FUTEX_WAIT can do when the value still is the expected one: sleep, or
    fail for another reason ([EINTR]); the kernel may also wake a sleeper
    spuriously. *)
Inductive action : Type := Load | Wait | WaitInterrupted | Spurious | SetStore | SetWake | Reset.

Definition act (a : action) (e : event) : option event :=
  match a, who e with
  | Load, BeforeLoad =>
    Some (mk_event (m_value e) (if m_value e =? 0 then Loaded 0 else Returned) (waking e) (was_set e))
  | Wait, Loaded v =>
    if m_value e =? v then Some (mk_event (m_value e) Asleep (waking e) (was_set e))
    else Some (mk_event (m_value e) Returned (waking e) (was_set e))  (* EAGAIN *)
  | WaitInterrupted, Loaded v => Some (mk_event (m_value e) BeforeLoad (waking e) (was_set e))
  | Spurious, Asleep => Some (mk_event (m_value e) BeforeLoad (waking e) (was_set e))
  | SetStore, w => Some (mk_event 1 w (S (waking e)) true)
  | SetWake, w =>
    match waking e with
    | O => None
    | S n => Some (mk_event (m_value e) (match w with Asleep => BeforeLoad | _ => w end) n (was_set e))
    end
  | Reset, w => Some (mk_event 0 w (waking e) (was_set e))
  | _, _ => None
  end.
Definition step : event -> action -> event -> Prop := steps_of act.

Definition inv (e : event) : Prop :=
  (m_value e = 1 /\ was_set e = true \/ m_value e = 0) /\
  match who e with
  | Loaded v => v = 0
  | Asleep => m_value e = 1 -> (0 < waking e)%nat
  | Returned => was_set e = true
  | BeforeLoad => True
  end.

Lemma futex_act_inv e a e' : inv e -> act a e = Some e' -> inv e'.
Proof.
  destruct e as [v w n sg]. unfold inv. cbn. intros [Hv Hw] E.
  destruct a, w as [|o| |], n as [|n]; cbn in *; simplify_eq/=; repeat case_match; simplify_eq/=;
    rewrite ?Z.eqb_eq, ?Z.eqb_neq in *; intuition (try lia; congruence).
Qed.

(** The measure of the waiter's remaining work once the event is set and the
    kernel neither interrupts nor wakes spuriously. *)
Definition remaining (e : event) : nat :=
  match who e with BeforeLoad => 1 | Loaded _ => 1 | Asleep => 2 | Returned => 0 end.

(** [C30] The futex wait neither returns early nor sleeps through a [set]: in
    every interleaving with [set]s, [reset]s, spurious wake-ups and
    interrupted waits, [wait] has returned only if the event was set; and
    while it is set the waiter is never stuck: unless it has returned, a wake
    call is pending for it or its own next access brings it closer to
    returning. *)
Theorem futex_wait_correct b acts e :
  star step (init b) acts e ->
  (who e = Returned -> was_set e = true) /\
  (m_value e = 1 ->
     match who e with
     | Returned => True
     | Asleep => exists e', act SetWake e = Some e' /\ (remaining e' < remaining e)%nat
     | BeforeLoad => exists e', act Load e = Some e' /\ (remaining e' < remaining e)%nat
     | Loaded _ => exists e', act Wait e = Some e' /\ (remaining e' < remaining e)%nat
     end).
Proof.
  intros Hs. assert (H : inv e).
  { eapply star_inv; [| |exact Hs]; [by destruct b; unfold inv; cbn; auto | intros s l s'; apply futex_act_inv]. }
  destruct e as [v w n sg]. unfold inv in H. cbn in *. destruct H as [Hv Hw]. split.
  - intros ->. done.
  - intros ->. destruct w as [|o| |]; cbn in *.
    + eexists. split; [done|]. cbn. lia.
    + subst o. eexists. split; [done|]. cbn. lia.
    + destruct n as [|n]; [specialize (Hw eq_refl); lia|]. eexists. split; [done|]. cbn. lia.
    + done.
Qed.

Lemma futex_wait_correct_witness :
  exists e, star step (init false) [Load; Wait; SetStore] e /\ exists e', act SetWake e = Some e' /\ (remaining e' < remaining e)%nat.
Proof.
  assert (Hs : star step (init false) [Load; Wait; SetStore] (mk_event 1 Asleep 1 true)) by (apply run_acts_star; reflexivity).
  eexists. split; [exact Hs|]. apply (futex_wait_correct false _ _ Hs). reflexivity.
Defined.
End Futex.
