(* ===== verification/Joins.v ===== *)
(** Joining several coroutines: [detail/async/when_all_counter.hpp],
    [detail/async/when_all_task.hpp], [detail/async/when_all_ready_awaitable.hpp],
    [when_all_ready.hpp] and [when_all.hpp] (Module [WhenAll]) and
    [async_scope.hpp] with its scope guard (Module [Scope]).  The steps are
    the atomic accesses; the children run and finish on any thread. *)
From S2P Require Import Prelude Events.

(** * [on_scope_exit.hpp] *)

Module ScopeExit.
(** [scoped_lambda]: whether it is disarmed, and how often it ran its function. *)
Record scoped_lambda : Type := mk_scoped { m_cancelled : bool; calls : nat }.
Definition new_scoped : scoped_lambda := mk_scoped false 0.
Definition cancel (s : scoped_lambda) : scoped_lambda := mk_scoped true (calls s).
Definition call_now (s : scoped_lambda) : scoped_lambda := mk_scoped true (S (calls s)).
(** The moved-to guard and the moved-from one. *)
Definition move (other : scoped_lambda) : scoped_lambda * scoped_lambda :=
  (mk_scoped (m_cancelled other) (calls other), cancel other).
Definition destroy (s : scoped_lambda) : scoped_lambda :=
  if m_cancelled s then s else mk_scoped (m_cancelled s) (S (calls s)).

(** [conditional_scoped_lambda<FUNC, CALL_ON_FAILURE>]: it remembers
    [uncaught_exceptions()] and compares when it is destroyed. *)
Definition conditional_runs (CALL_ON_FAILURE : bool) (m_uncaughtExceptionCount uncaught_now : Z) (cancelled : bool) : bool :=
  negb cancelled && Bool.eqb (m_uncaughtExceptionCount <? uncaught_now) CALL_ON_FAILURE.

(** A guard that is moved any number of times, every copy being destroyed,
    perhaps after [call_now] or [cancel] on the last one. *)
Fixpoint lifetime (moves : nat) (last_op : scoped_lambda -> scoped_lambda) (s : scoped_lambda) : nat :=
  match moves with
  | O => calls (destroy (last_op s))
  | S m =>
    let '(to, from) := move s in
    (calls (destroy from) - calls from + lifetime m last_op to)%nat
  end.

Lemma lifetime_calls op s moves : lifetime moves op s = calls (destroy (op s)).
Proof.
  induction moves as [|m IH]; [done|]. cbn. destruct s as [c n]. cbn in *. rewrite Nat.sub_diag. exact IH.
Qed.
End ScopeExit.

(** * [when_all] *)

Module WhenAll.
Section WhenAll.
Context {V : Type}.

(** ** [when_all_counter] *)
Record when_all_counter : Type := mk_counter { m_count : Z; m_awaitingCoroutine : bool }.
Definition new_counter (count : Z) : when_all_counter := mk_counter (wrap 64 (count + 1)) false.
Definition counter_is_ready (c : when_all_counter) : bool := m_awaitingCoroutine c.
(** [m_count.fetch_sub(1)]: the old value and the counter. *)
Definition fetch_sub (c : when_all_counter) : Z * when_all_counter :=
  (m_count c, mk_counter (wrap 64 (m_count c - 1)) (m_awaitingCoroutine c)).
Definition store_awaiting (c : when_all_counter) : when_all_counter := mk_counter (m_count c) true.

(** ** [when_all_task]: its coroutine and the promise's result *)
Inductive task : Type :=
| NotStarted
| Started
| FinalSuspend (o : V + exn)  (* result stored, notifier not run yet *)
| Notified (o : V + exn).

(** [result()]: rethrow or the value; reading it earlier is undefined. *)
Definition result (t : task) : outcome V :=
  match t with
  | FinalSuspend (inl v) | Notified (inl v) => Val v
  | FinalSuspend (inr e) | Notified (inr e) => Exn e
  | _ => Fault undefined_behaviour
  end.

(** The coroutine that awaits the [when_all_ready_awaitable]. *)
Inductive awaiter : Type :=
| Before
| Starting (i : nat)      (* in [try_await], about to start task [i] *)
| Storing                  (* before the write of [m_awaitingCoroutine] *)
| Subtracting              (* before its own [fetch_sub] *)
| Suspended
| Continued.

Record join : Type := mk_join { counter : when_all_counter; tasks : list task; who : awaiter; resuming : nat }.
Definition when_all_ready (n : nat) : join :=
  mk_join (new_counter (Z.of_nat n)) (replicate n NotStarted) Before 0.

Inductive action : Type :=
| AwaitReady | StartTask | StoreAwaiting | TryAwait
| Finish (i : nat) (o : V + exn) | Notify (i : nat) | Resume.

(** One step; [None]: not possible here, or [resume] of a coroutine that is
    not suspended. *)
Definition act (a : action) (j : join) : option join :=
  match a with
  | AwaitReady =>
    match who j with
    | Before => Some (mk_join (counter j) (tasks j) (if counter_is_ready (counter j) then Continued else Starting 0) (resuming j))
    | _ => None
    end
  | StartTask =>
    match who j with
    | Starting i =>
      match tasks j !! i with
      | Some NotStarted => Some (mk_join (counter j) (<[i := Started]> (tasks j)) (Starting (S i)) (resuming j))
      | Some _ => None
      | None => Some (mk_join (counter j) (tasks j) Storing (resuming j))
      end
    | _ => None
    end
  | StoreAwaiting =>
    match who j with
    | Storing => Some (mk_join (store_awaiting (counter j)) (tasks j) Subtracting (resuming j))
    | _ => None
    end
  | TryAwait =>
    match who j with
    | Subtracting =>
      let '(old, c) := fetch_sub (counter j) in
      Some (mk_join c (tasks j) (if 1 <? old then Suspended else Continued) (resuming j))
    | _ => None
    end
  | Finish i o =>
    match tasks j !! i with
    | Some Started => Some (mk_join (counter j) (<[i := FinalSuspend o]> (tasks j)) (who j) (resuming j))
    | _ => None
    end
  | Notify i =>
    match tasks j !! i with
    | Some (FinalSuspend o) =>
      let '(old, c) := fetch_sub (counter j) in
      Some (mk_join c (<[i := Notified o]> (tasks j)) (who j) (if old =? 1 then S (resuming j) else resuming j))
    | _ => None
    end
  | Resume =>
    match resuming j, who j with
    | S n, Suspended => if m_awaitingCoroutine (counter j) then Some (mk_join (counter j) (tasks j) Continued n) else None
    | _, _ => None
    end
  end.
Definition step : join -> action -> join -> Prop := steps_of act.

(** ** [when_all]: the results in order, or the first exception *)
Fixpoint collect (ts : list task) : outcome (list V) :=
  match ts with
  | [] => Val []
  | t :: ts' =>
    match result t with
    | Val v => match collect ts' with Val l => Val (v :: l) | Exn e => Exn e | Fault f => Fault f end
    | Exn e => Exn e
    | Fault f => Fault f
    end
  end.

(** ** The invariant *)
Definition open_ (t : task) : bool := match t with Notified _ => false | _ => true end.
Definition open_tasks (ts : list task) : nat := length (filter (fun t => open_ t = true) ts).
#[global] Arguments open_tasks ts : simpl never.
Definition own_share (w : awaiter) : nat := match w with Suspended | Continued => 0 | _ => 1 end.
Definition started_upto (w : awaiter) : option nat :=
  match w with Before => Some 0%nat | Starting i => Some i | _ => None end.

Record inv (n : nat) (j : join) : Prop := mk_inv {
  inv_len : length (tasks j) = n;
  inv_count : m_count (counter j) = Z.of_nat (open_tasks (tasks j) + own_share (who j));
  inv_small : Z.of_nat n < 2 ^ 64 - 1;
  inv_stored : m_awaitingCoroutine (counter j) = true <-> who j = Subtracting \/ who j = Suspended \/ who j = Continued;
  inv_started : match started_upto (who j) with
    | Some k => (forall i, (k <= i < n)%nat -> tasks j !! i = Some NotStarted) /\ (k <= n)%nat
    | None => True end;
  inv_resume : match who j with
    | Suspended => resuming j = (if decide (open_tasks (tasks j) = 0%nat) then 1%nat else 0%nat)
    | Continued => resuming j = 0%nat /\ open_tasks (tasks j) = 0%nat
    | _ => resuming j = 0%nat end
}.

Lemma open_insert ts i t t' : ts !! i = Some t ->
  (open_tasks (<[i := t']> ts) + (if open_ t then 1 else 0) = open_tasks ts + (if open_ t' then 1 else 0))%nat.
Proof.
  unfold open_tasks. revert i. induction ts as [|x ts IH]; intros i Hi; [done|]. destruct i as [|i]; simpl in Hi.
  - injection Hi as ->. change (<[0%nat := t']> (t :: ts)) with (t' :: ts). rewrite !filter_cons.
    destruct (open_ t), (open_ t'); repeat case_decide; cbn [length]; (lia || congruence).
  - specialize (IH i Hi). change (<[S i := t']> (x :: ts)) with (x :: <[i := t']> ts). rewrite !filter_cons.
    case_decide; cbn [length]; lia.
Qed.

Lemma open_le ts : (open_tasks ts <= length ts)%nat.
Proof. apply length_filter. Qed.

Lemma open_zero ts i t : open_tasks ts = 0%nat -> ts !! i = Some t -> open_ t = false.
Proof.
  intros H Hi. pose proof (open_insert ts i t t Hi) as E. destruct (open_ t) eqn:Eo; [|done].
  unfold open_tasks in H. apply nil_length_inv in H. exfalso.
  assert (t ∈ filter (fun t => open_ t = true) ts) as Hin by (apply list_elem_of_filter; split; [done | by eapply list_elem_of_lookup_2]).
  rewrite H in Hin. by apply elem_of_nil in Hin.
Qed.

Lemma open_replicate n : open_tasks (replicate n NotStarted) = n.
Proof. unfold open_tasks. rewrite filter_all; [apply length_replicate|]. by intros x [-> _]%elem_of_replicate. Qed.

Lemma init_inv n : Z.of_nat n < 2 ^ 64 - 1 -> inv n (when_all_ready n).
Proof.
  intros Hn. split; cbn; rewrite ?open_replicate, ?length_replicate; try done.
  - rewrite wrap_small; [lia | unfold in_u; lia].
  - intuition congruence.
  - split; [|lia]. intros i Hi. apply lookup_replicate_2. lia.
Qed.

Lemma sub_wrap n (k : nat) : (0 < k)%nat -> n = Z.of_nat k -> n < 2 ^ 64 -> wrap 64 (n - 1) = Z.of_nat (k - 1).
Proof. intros Hk -> Hn. rewrite wrap_small; [lia | unfold in_u; lia]. Qed.

Lemma started_insert (ts : list task) (k i n : nat) t : (forall m, (k <= m < n)%nat -> ts !! m = Some NotStarted) ->
  (i < k)%nat -> forall m, (k <= m < n)%nat -> <[i := t]> ts !! m = Some NotStarted.
Proof. intros H Hi m Hm. rewrite list_lookup_insert_ne by lia. by apply H. Qed.

Lemma notify_inv n j i o : inv n j -> tasks j !! i = Some (FinalSuspend o) ->
  inv n (mk_join (fetch_sub (counter j)).2 (<[i := Notified o]> (tasks j)) (who j)
           (if (fetch_sub (counter j)).1 =? 1 then S (resuming j) else resuming j)).
Proof.
  intros [Hl Hc Hs Hst Hup Hr] Ht. pose proof (open_insert _ _ _ (Notified o) Ht) as Ho. cbn in Ho.
  pose proof (open_le (tasks j)) as Hle. pose proof (lookup_lt_Some _ _ _ Ht) as Hlt.
  assert (own_share (who j) <= 1)%nat by (destruct (who j); cbn; lia).
  split; cbn.
  - by rewrite length_insert.
  - erewrite sub_wrap; [ | | exact Hc |]; [f_equal | | ]; lia.
  - done.
  - done.
  - destruct (started_upto (who j)) as [k|] eqn:Ek; [|done]. destruct Hup as [Hup Hk]. split; [|done].
    destruct (decide (i < k)%nat); [by apply started_insert|].
    rewrite Hup in Ht by lia. done.
  - rewrite Hc. destruct (who j) eqn:Ew; cbn; cbn in Hr; try (rewrite Hr; rewrite (proj2 (Z.eqb_neq _ _)); [done | lia]).
    + rewrite decide_False in Hr by lia. rewrite Hr.
      destruct (Z.eqb_spec (Z.of_nat (open_tasks (tasks j) + 0)) 1); case_decide; lia.
    + lia.
Qed.

Lemma task_inv n j i t t' : inv n j -> tasks j !! i = Some t -> open_ t = true -> open_ t' = true -> t <> NotStarted ->
  inv n (mk_join (counter j) (<[i := t']> (tasks j)) (who j) (resuming j)).
Proof.
  intros [Hl Hc Hs Hst Hup Hr] Ht H1 H2 Hne. pose proof (open_insert _ _ _ t' Ht) as Ho. rewrite H1, H2 in Ho.
  assert (open_tasks (<[i := t']> (tasks j)) = open_tasks (tasks j)) as E by lia.
  split; cbn; rewrite ?E; try done.
  - by rewrite length_insert.
  - destruct (started_upto (who j)) as [k|] eqn:Ek; [|done]. destruct Hup as [Hup Hk]. split; [|done].
    pose proof (lookup_lt_Some _ _ _ Ht). destruct (decide (i < k)%nat); [by apply started_insert|].
    rewrite Hup in Ht by lia. congruence.
Qed.

Lemma when_all_act_inv n j a j' : inv n j -> act a j = Some j' -> inv n j'.
Proof.
  intros H E. destruct a as [| | | |i o|i|]; cbn in E.
  - destruct H as [Hl Hc Hs Hst Hup Hr]. destruct (who j) eqn:Ew; [|done..]. injection E as <-.
    assert (counter_is_ready (counter j) = false) as ->.
    { unfold counter_is_ready. destruct (m_awaitingCoroutine (counter j)); [|done]. destruct Hst as [Hst _]. intuition congruence. }
    split; cbn; try done. rewrite Hst. intuition congruence.
  - destruct (who j) eqn:Ew; [done| |done..]. destruct (tasks j !! i) as [[| | |]|] eqn:Et; [| done.. |].
    + injection E as <-. destruct H as [Hl Hc Hs Hst Hup Hr]. rewrite Ew in *. cbn in *. destruct Hup as [Hup Hi].
      pose proof (open_insert _ _ _ Started Et) as Ho. cbn in Ho. pose proof (lookup_lt_Some _ _ _ Et).
      assert (open_tasks (<[i := Started]> (tasks j)) = open_tasks (tasks j)) as Eo by lia.
      split; cbn; rewrite ?Eo; try done.
      * by rewrite length_insert.
      * rewrite Hst. intuition congruence.
      * split; [|lia]. intros m Hm. rewrite list_lookup_insert_ne by lia. apply Hup. lia.
    + injection E as <-. destruct H as [Hl Hc Hs Hst Hup Hr]. rewrite Ew in *. cbn in *.
      split; cbn; try done. rewrite Hst. intuition congruence.
  - destruct (who j) eqn:Ew; [done|done| |done..]. injection E as <-.
    destruct H as [Hl Hc Hs Hst Hup Hr]. rewrite Ew in *. cbn in *. split; cbn; try done. intuition congruence.
  - destruct (who j) eqn:Ew; [done|done|done| |done..]. injection E as <-.
    destruct H as [Hl Hc Hs Hst Hup Hr]. rewrite Ew in *. cbn in *. pose proof (open_le (tasks j)).
    assert (m_awaitingCoroutine (counter j) = true) as Hst' by (apply Hst; by left).
    split; cbn; try done.
    + assert (own_share (if 1 <? m_count (counter j) then Suspended else Continued) = 0%nat) as -> by (by case_match).
      erewrite sub_wrap; [ | | exact Hc |]; [f_equal | | ]; lia.
    + rewrite Hst'. case_match; intuition congruence.
    + by destruct (1 <? m_count (counter j)).
    + destruct (Z.ltb_spec 1 (m_count (counter j))); [case_decide; lia | lia].
  - destruct (tasks j !! i) as [[| | |]|] eqn:Et; try done. injection E as <-. by eapply task_inv.
  - destruct (tasks j !! i) as [[| |o|]|] eqn:Et; try done. injection E as <-. by apply notify_inv.
  - destruct (resuming j) as [|m] eqn:Er; [done|]. destruct (who j) eqn:Ew; try done.
    destruct (m_awaitingCoroutine (counter j)) eqn:Em; [|done]. injection E as <-.
    destruct H as [Hl Hc Hs Hst Hup Hr]. rewrite Ew, Er, Em in *. cbn in *.
    case_decide as Ho; [|done]. split; cbn; try done.
    + intuition.
    + split; [lia | done].
Qed.
End WhenAll.
Arguments task V : clear implicits.
Arguments join V : clear implicits.
Arguments action V : clear implicits.

Section Promise.
Context {V : Type}.
Implicit Types j : join V.

Lemma all_notified (ts : list (task V)) : open_tasks ts = 0%nat -> exists os, ts = Notified <$> os.
Proof.
  induction ts as [|t ts IH]; intros H; [by exists []|].
  pose proof (open_zero _ 0 t H eq_refl) as Ho. destruct t as [| | |o]; try done.
  destruct IH as [os ->]; [|by exists (o :: os)]. unfold open_tasks in *. rewrite filter_cons in H. by case_decide.
Qed.

(** [C13] [when_all] joins correctly.  In every interleaving of the awaiting
    coroutine with the tasks it starts, on any threads: the coroutine goes
    on only when every task has finished and left a result, so that
    collecting the results is defined; the thread that has to resume it
    finds it suspended; and it is never forgotten: once every task has
    notified, a suspended coroutine has exactly one thread about to resume
    it. *)
Theorem when_all_joins n acts j :
  Z.of_nat n < 2 ^ 64 - 1 -> star step (when_all_ready n) acts j ->
  (who j = Continued -> exists os, tasks j = Notified <$> os /\ length os = n /\ forall f, collect (tasks j) <> Fault f) /\
  (resuming j <> 0%nat -> resuming j = 1%nat /\ is_Some (act Resume j)) /\
  (who j = Suspended -> (exists os, tasks j = Notified <$> os) -> is_Some (act Resume j)).
Proof.
  intros Hn Hs. assert (H : inv n j).
  { eapply star_inv; [by apply init_inv | | exact Hs]. intros s l s'. apply when_all_act_inv. }
  destruct H as [Hl Hc Hs' Hst Hup Hr]. split_and!.
  - intros Ew. rewrite Ew in Hr. destruct Hr as [_ Ho]. destruct (all_notified _ Ho) as [os Eos]. exists os.
    split_and!; [done | by rewrite <- Hl, Eos, length_fmap |]. rewrite Eos. intros f. clear.
    induction os as [|[v|e] os IH]; cbn; [done| |done]. by destruct (collect (Notified <$> os)).
  - intros Hne. cbn. destruct (who j) eqn:Ew; try lia.
    assert (m_awaitingCoroutine (counter j) = true) as -> by (apply Hst; auto).
    case_decide; [|lia]. rewrite Hr. eauto.
  - intros Ew [os Eos]. cbn. rewrite Ew in *. cbn in *.
    assert (m_awaitingCoroutine (counter j) = true) as -> by (apply Hst; auto).
    rewrite decide_True in Hr.
    + rewrite Hr. eauto.
    + rewrite Eos. unfold open_tasks. rewrite filter_none; [done|]. by intros x (o & -> & _)%list_elem_of_fmap.
Qed.
End Promise.

(** Two tasks, one finishing while the other is being started. *)
Definition two_tasks : list (action Z) :=
  [AwaitReady; StartTask; Finish 0 (inl 7); Notify 0; StartTask; StartTask; StoreAwaiting; TryAwait;
   Finish 1 (inl 8); Notify 1; Resume].

Lemma two_tasks_run : exists j, star step (when_all_ready 2) two_tasks j /\ who j = Continued /\ collect (tasks j) = Val [7; 8].
Proof.
  eexists. split; [apply run_acts_star; vm_compute; reflexivity | split; reflexivity].
Qed.

Lemma when_all_joins_witness : exists j os,
  star step (when_all_ready 2) two_tasks j /\ tasks j = Notified <$> os /\ length os = 2%nat /\ collect (tasks j) = Val [7; 8].
Proof.
  destruct two_tasks_run as (j & Hs & Hw & Hc).
  destruct (when_all_joins 2 two_tasks j) as [H _]; [lia | exact Hs |].
  destruct (H Hw) as (os & E & Hl & _). exists j, os. split_and!; [exact Hs | exact E | exact Hl | exact Hc].
Defined.
End WhenAll.

(** * [async_scope] *)

Module Scope.

(** The coroutine in [co_await scope.join()]. *)
Inductive joiner : Type := NotJoined | NotReady | Stored | Suspended | Joined.
#[global] Instance joiner_eq_dec : EqDecision joiner.
Proof. solve_decision. Defined.

(** [running] counts the spawned coroutines between [on_work_started] and
    [on_work_finished]; [resuming] the threads that have to call
    [m_continuation.resume()]. *)
Record async_scope : Type := mk_scope {
  m_count : Z; m_continuation : bool; running : nat; who : joiner; resuming : nat }.
Definition new_scope : async_scope := mk_scope 1 false 0 NotJoined 0.

Inductive action : Type := Spawn | WorkFinished | AwaitReady | StoreContinuation | AwaitSuspend | Resume.

(** [on_work_started]: [None] is the failed assertion. *)
Definition on_work_started (s : async_scope) : option async_scope :=
  if m_count s =? 0 then None
  else Some (mk_scope (wrap 64 (m_count s + 1)) (m_continuation s) (S (running s)) (who s) (resuming s)).
(** [on_work_finished], run by the scope guard of the spawned coroutine. *)
Definition on_work_finished (s : async_scope) : async_scope :=
  mk_scope (wrap 64 (m_count s - 1)) (m_continuation s) (pred (running s)) (who s)
    (if m_count s =? 1 then S (resuming s) else resuming s).

(** One step; [None]: not possible, or outside the contract: [spawn] is called
    by the owner before [join] or by a coroutine of the scope, and there is
    memory for fewer than 2^64 - 2 of them. *)
Definition act (a : action) (s : async_scope) : option async_scope :=
  match a with
  | Spawn =>
    if decide ((who s = NotJoined \/ (0 < running s)%nat) /\ Z.of_nat (running s) < 2 ^ 64 - 2)
    then on_work_started s else None
  | WorkFinished => if decide (0 < running s)%nat then Some (on_work_finished s) else None
  | AwaitReady =>
    match who s with
    | NotJoined => Some (mk_scope (m_count s) (m_continuation s) (running s) (if m_count s =? 0 then Joined else NotReady) (resuming s))
    | _ => None
    end
  | StoreContinuation =>
    match who s with
    | NotReady => Some (mk_scope (m_count s) true (running s) Stored (resuming s))
    | _ => None
    end
  | AwaitSuspend =>
    match who s with
    | Stored => Some (mk_scope (wrap 64 (m_count s - 1)) (m_continuation s) (running s)
                        (if 1 <? m_count s then Suspended else Joined) (resuming s))
    | _ => None
    end
  | Resume =>
    match resuming s, who s, m_continuation s with
    | S n, Suspended, true => Some (mk_scope (m_count s) true (running s) Joined n)
    | _, _, _ => None
    end
  end.
Definition step : async_scope -> action -> async_scope -> Prop := steps_of act.

(** [~async_scope()] asserts that the scope was joined. *)
Definition destructor_ok (s : async_scope) : bool := m_continuation s.

Definition share (w : joiner) : nat := match w with Suspended | Joined => 0 | _ => 1 end.
Record inv (s : async_scope) : Prop := mk_inv {
  inv_count : m_count s = Z.of_nat (running s + share (who s));
  inv_small : Z.of_nat (running s) < 2 ^ 64 - 1;
  inv_who : match who s with
    | NotJoined | NotReady => resuming s = 0%nat
    | Stored => resuming s = 0%nat /\ m_continuation s = true
    | Suspended => m_continuation s = true /\ resuming s = (if decide (running s = 0%nat) then 1%nat else 0%nat)
    | Joined => m_continuation s = true /\ resuming s = 0%nat /\ running s = 0%nat
    end
}.

Lemma scope_act_inv s a s' : inv s -> act a s = Some s' -> inv s'.
Proof.
  intros [Hc Hs Hw] E. destruct a; cbn in E.
  - case_decide as Hd; [|done]. unfold on_work_started in E. case_match eqn:Ez; [done|]. injection E as <-.
    destruct Hd as [Hd Hlt]. assert (share (who s) <= 1)%nat by (destruct (who s); cbn; lia).
    split; cbn.
    + rewrite wrap_small; [lia | unfold in_u; lia].
    + lia.
    + destruct (who s); cbn in *; try done; destruct Hd as [?|?]; try done; repeat case_decide; lia || intuition lia.
  - case_decide as Hr; [|done]. injection E as <-. unfold on_work_finished.
    assert (share (who s) <= 1)%nat by (destruct (who s); cbn; lia).
    split; cbn.
    + rewrite wrap_small; [lia | unfold in_u; lia].
    + lia.
    + destruct (who s); cbn in *; destruct (Z.eqb_spec (m_count s) 1); repeat case_decide; lia || intuition lia.
  - destruct (who s) eqn:Ew; try done. injection E as <-. cbn in *. rewrite (proj2 (Z.eqb_neq _ _)) by lia. by split.
  - destruct (who s) eqn:Ew; try done. injection E as <-. by split.
  - destruct (who s) eqn:Ew; try done. injection E as <-. cbn in *. destruct Hw as [Hw1 Hw2].
    assert (share (if 1 <? m_count s then Suspended else Joined) = 0%nat) as Esh by (by case_match).
    split; cbn; rewrite ?Esh.
    + rewrite wrap_small; [lia | unfold in_u; lia].
    + done.
    + destruct (Z.ltb_spec 1 (m_count s)); [case_decide; intuition lia | intuition lia].
  - destruct (resuming s) as [|n] eqn:Er; [done|]. destruct (who s) eqn:Ew; try done.
    destruct (m_continuation s) eqn:Em; [|done]. injection E as <-. destruct Hw as [_ Hw]. cbn in *.
    case_decide; [|done]. split; cbn; intuition lia.
Qed.

(** [C12] [async_scope] joins exactly once and not before time.  In every
    interleaving of [spawn]s (by the owner before [join], or by coroutines
    of the scope at any time), of coroutines finishing and of the joiner:
    the assertion in [on_work_started] never fails, the joiner goes on only
    when no coroutine of the scope is running and the destructor's assertion
    then holds, the thread that has to resume it finds it suspended, and a
    suspended joiner with no running coroutine is about to be resumed. *)
Theorem async_scope_joins acts s :
  star step new_scope acts s ->
  (who s = NotJoined \/ (0 < running s)%nat -> is_Some (on_work_started s)) /\
  (who s = Joined -> running s = 0%nat /\ resuming s = 0%nat /\ destructor_ok s = true) /\
  (resuming s <> 0%nat -> resuming s = 1%nat /\ is_Some (act Resume s)) /\
  (who s = Suspended -> running s = 0%nat -> is_Some (act Resume s)).
Proof.
  intros Hs. assert (H : inv s).
  { eapply star_inv; [ | | exact Hs]; [by split | intros x l x'; apply scope_act_inv]. }
  destruct H as [Hc Hsm Hw]. split_and!.
  - intros Hd. unfold on_work_started. rewrite (proj2 (Z.eqb_neq _ _)); [eauto|].
    destruct Hd as [Hd|Hd]; [rewrite Hd in Hc; cbn in Hc|]; lia.
  - intros Ew. rewrite Ew in Hw. unfold destructor_ok. intuition.
  - intros Hne. cbn. destruct (who s) eqn:Ew; try (exfalso; lia).
    destruct Hw as [Hm Hr]. rewrite Hm. case_decide; [|lia]. rewrite Hr. eauto.
  - intros Ew Hr0. cbn. rewrite Ew in *. destruct Hw as [Hm Hr]. rewrite Hm, Hr, decide_True by done. eauto.
Qed.

(** One coroutine that spawns another while the owner is joining. *)
Definition nested : list action := [Spawn; AwaitReady; StoreContinuation; AwaitSuspend; Spawn; WorkFinished; WorkFinished].

Lemma async_scope_joins_witness : exists s, star step new_scope nested s /\ resuming s = 1%nat /\ is_Some (act Resume s).
Proof.
  assert (Hs : star step new_scope nested (mk_scope 0 true 0 Suspended 1)) by (apply run_acts_star; vm_compute; reflexivity).
  eexists. split; [exact Hs|]. apply (async_scope_joins nested _ Hs). discriminate.
Defined.
End Scope.

(** A scope guard runs its function exactly once: however often it is
    moved, destroying every moved-from guard and the last one calls the
    function once, also after [call_now], and never after [cancel]; the
    conditional guards run it exactly in the unwinding, respectively the
    normal, case. *)
Theorem scope_guard_runs_once moves before now :
  ScopeExit.lifetime moves (fun s => s) ScopeExit.new_scoped = 1%nat /\
  ScopeExit.lifetime moves ScopeExit.call_now ScopeExit.new_scoped = 1%nat /\
  ScopeExit.lifetime moves ScopeExit.cancel ScopeExit.new_scoped = 0%nat /\
  (ScopeExit.conditional_runs true before now false = true <-> before < now) /\
  (ScopeExit.conditional_runs false before now false = true <-> ~ before < now).
Proof.
  rewrite !ScopeExit.lifetime_calls. split_and!; try done; unfold ScopeExit.conditional_runs;
    destruct (Z.ltb_spec before now); cbn; intuition (lia || congruence).
Qed.

(** * [sync_wait] ([sync_wait.hpp], [detail/async/sync_wait_task.hpp]) *)

Module SyncWait.
Section SyncWait.
Context {V : Type}.

(** The wrapping coroutine: running the awaitable, at its final suspend point
    with the outcome stored, past [m_event->set()]'s store. *)
Inductive wrapper : Type := Running | FinalSuspend | Signalled.

Record state : Type := mk_state { wrap_ : wrapper; m_result : option (V + exn); event : Futex.event }.
(** [task.start(event)] has resumed the wrapper; the caller goes on to
    [event.wait()]. *)
Definition start : state := mk_state Running None (Futex.init false).

(** The awaitable ends with a value ([yield_value]) or an exception
    ([unhandled_exception]); then [final_suspend] sets the event. *)
Inductive action : Type := Ends (o : V + exn) | Sets | Event (a : Futex.action).

Definition act (a : action) (s : state) : option state :=
  match a, wrap_ s with
  | Ends o, Running => Some (mk_state FinalSuspend (Some o) (event s))
  | Sets, FinalSuspend => e ← Futex.act Futex.SetStore (event s); Some (mk_state Signalled (m_result s) e)
  | Event (Futex.SetStore | Futex.Reset), _ => None
  | Event a, w => e ← Futex.act a (event s); Some (mk_state w (m_result s) e)
  | _, _ => None
  end.
Definition step : state -> action -> state -> Prop := steps_of act.

(** [task.result()]: rethrow, or the value; [None] reads a result that was
    never stored. *)
Definition result (s : state) : option (outcome V) :=
  r ← m_result s;
  Some (match r with inl v => Val v | inr e => Exn e end).

Definition inv (s : state) : Prop :=
  Futex.inv (event s) /\
  match wrap_ s with
  | Running => m_result s = None /\ Futex.was_set (event s) = false
  | FinalSuspend => is_Some (m_result s) /\ Futex.was_set (event s) = false
  | Signalled => is_Some (m_result s) /\ Futex.m_value (event s) = 1
  end.

Lemma futex_was_set a e e' : Futex.act a e = Some e' -> a <> Futex.SetStore -> a <> Futex.Reset ->
  Futex.was_set e' = Futex.was_set e /\ Futex.m_value e' = Futex.m_value e.
Proof.
  destruct e as [v w n sg]. intros E H1 H2.
  destruct a, w as [|o| |], n as [|n]; cbn in E; try congruence; repeat case_match; simplify_eq/=; done.
Qed.

Lemma sync_wait_act_inv s a s' : inv s -> act a s = Some s' -> inv s'.
Proof.
  intros [He Hw] E. destruct s as [w r e]. cbn in *. destruct a as [o| |a].
  - destruct w; simplify_eq/=. split; [done|]. cbn. naive_solver.
  - destruct w; simplify_eq/=. split; cbn; [|naive_solver]. by eapply (Futex.futex_act_inv e Futex.SetStore).
  - assert (Hne : a <> Futex.SetStore /\ a <> Futex.Reset /\ exists e', Futex.act a e = Some e' /\ s' = mk_state w r e').
    { destruct (Futex.act a e) as [e'|] eqn:Ef; [|by destruct a, w; cbn in *; simplify_eq/=; rewrite ?Ef in E].
      destruct a, w; cbn in E; simplify_eq/=; (split_and!; [done | done |]); eexists; split; try done;
        cbn in Ef; rewrite ?Ef in E; cbn in E; by simplify_eq. }
    destruct Hne as (H1 & H2 & e' & Ee & ->). destruct (futex_was_set _ _ _ Ee H1 H2) as [E1 E2].
    split; [by eapply Futex.futex_act_inv|]. cbn. rewrite E1, E2. done.
Qed.

Lemma reachable_inv acts s : star step start acts s -> inv s.
Proof.
  apply star_inv; [|intros x l x'; apply sync_wait_act_inv]. split; [|done]. split; [by right | done].
Qed.

(** [sync_wait] blocks until the awaitable ends and returns exactly its
    outcome.  In every interleaving, with spurious wake-ups, whenever the
    waiting thread is back from [wait], the result is there and is the value
    or exception the awaitable ended with; and once the wrapper has
    signalled, the waiting thread is never stuck. *)
Theorem sync_wait_returns_outcome acts s :
  star step start acts s ->
  (Futex.who (event s) = Futex.Returned ->
     exists o, m_result s = Some o /\ result s = Some (match o with inl v => Val v | inr e => Exn e end)) /\
  (forall o, Ends o ∈ acts -> m_result s = Some o) /\
  (wrap_ s = Signalled -> Futex.who (event s) <> Futex.Returned ->
     exists a s', act (Event a) s = Some s' /\ (Futex.remaining (event s') < Futex.remaining (event s))%nat).
Proof.
  intros Hs. destruct (reachable_inv _ _ Hs) as [He Hw]. split_and!.
  - intros Er. destruct (m_result s) as [o|] eqn:Eo.
    + exists o. unfold result. by rewrite Eo.
    + destruct He as [_ Hr]. rewrite Er in Hr. destruct (wrap_ s); cbn in Hw; destruct Hw as [Hw1 Hw2]; try congruence;
        by apply is_Some_None in Hw1.
  - clear He Hw. remember start as s0 eqn:E0 in Hs. induction Hs as [|s0 ls s1 l s2 Hs IH Hl]; intros o Hin; [by apply elem_of_nil in Hin|].
    unfold step, steps_of in Hl. apply elem_of_app in Hin as [Hin|Hin%list_elem_of_singleton].
    + specialize (IH E0 o Hin). subst s0. pose proof (reachable_inv _ _ Hs) as H1.
      destruct s1 as [w r e]. cbn in IH. subst r. destruct H1 as [_ H1]. cbn in H1.
      destruct l as [o'| |a]; destruct w; cbn in Hl; simplify_option_eq; try done; try (destruct H1; congruence).
      all: destruct a; simplify_option_eq; done.
    + subst l. destruct s1 as [w r e]. destruct w; cbn in Hl; simplify_eq/=. done.
  - intros Ew Hne. rewrite Ew in Hw. destruct Hw as [_ Hv]. destruct s as [w r [v wt n sg]]. cbn in *. subst w v.
    destruct wt as [|o| |]; [ | | |done].
    + exists Futex.Load. eexists. split; [reflexivity|]. cbn. lia.
    + destruct He as [_ ->]. exists Futex.Wait. eexists. split; [reflexivity|]. cbn. lia.
    + destruct He as [_ Hwk]. specialize (Hwk eq_refl). destruct n as [|n]; [cbn in Hwk; lia|].
      exists Futex.SetWake. eexists. split; [reflexivity|]. cbn. lia.
Qed.
End SyncWait.

(** The awaitable ends after the caller has gone to sleep. *)
Definition late : list (action (V := Z)) :=
  [Event Futex.Load; Event Futex.Wait; Ends (inl 9); Sets; Event Futex.SetWake; Event Futex.Load].

Lemma sync_wait_returns_outcome_witness : exists s, star step start late s /\ result s = Some (Val 9).
Proof.
  assert (Hs : exists s, star step start late s /\ Futex.who (event s) = Futex.Returned).
  { eexists. split; [apply run_acts_star; vm_compute; reflexivity | reflexivity]. }
  destruct Hs as (s & Hs & Hw). exists s. split; [exact Hs|].
  destruct (sync_wait_returns_outcome late s Hs) as (H1 & H2 & _).
  destruct (H1 Hw) as (o & E & ->). rewrite (H2 (inl 9)) in E; [by injection E as <-|].
  unfold late. do 2 right. left.
Defined.
End SyncWait.
