(* ===== verification/Task.v ===== *)
(** Coroutines: the lazy [task] of [task.hpp], the eager [async_task] of
    [async_task.hpp] and the fire-and-forget [async_run], as a machine of
    coroutine frames in which control moves by symmetric transfer; and who
    owns the frames. *)
From S2P Require Import Prelude Events.

(** What is outside the coroutines: the functions they call that do not
    suspend, what they wait for (an I/O operation, an event) and the answers
    it resumes them with. *)
Record outside : Type := mk_outside { function_call : Type; question : Type; answer : Type }.

(** A handle of a coroutine, by number. *)
Definition handle : Type := nat.

(** What a coroutine does next, with the code that goes on after it.
    [CoAwait None] awaits a task without a coroutine (default-constructed or
    moved from); [CoAwaitNew] is [co_await f(...)], [b] being the code of [f]
    with its arguments: the task is a temporary, destroyed after its result
    was read; [CoSuspend] waits for the outside, [CoCall] calls it. *)
Inductive instr (V : Type) (E : outside) (B : Type) : Type :=
| CoReturn (v : V)
| CoThrow (e : exn)
| CoAwait (t : option handle) (k : V + exn -> B)
| CoAwaitNew (b : B) (k : V + exn -> B)
| CoSuspend (q : question E) (k : answer E -> B)
| CoCall (x : function_call E) (b : B).
Arguments CoReturn {V E B}. Arguments CoThrow {V E B}. Arguments CoAwait {V E B}.
Arguments CoAwaitNew {V E B}. Arguments CoSuspend {V E B}. Arguments CoCall {V E B}.
(** The code of the coroutines: a type of positions in their bodies, with the
    locals, and what each does next.  A body may loop or call itself, for ever
    too. *)
Class Code (V : Type) (E : outside) (B : Type) : Type := code : B -> instr V E B.

Section Machine.
Context {V : Type} {E : outside} {B : Type} `{!Code V E B}.

Inductive result_type : Type := empty | value (v : V) | exception (e : exn).
(** [oneway_task] is what [async_scope::spawn] runs a task with; like
    [async_run] it has no result, but it does not swallow exceptions. *)
Inductive kind : Type := lazy_task | eager_task | fire_and_forget | oneway_task.
Inductive status : Type :=
| Initial (b : B)                                   (* suspended at the start *)
| Running
| Awaiting (t : handle) (k : V + exn -> B) (temporary : bool)   (* in [co_await] of [t] *)
| Suspended (q : question E) (k : answer E -> B)    (* waiting for the outside *)
| Done.

(** A frame: where the coroutine stands, the promise's result and
    [who_await_me_]. *)
Record frame : Type := mk_frame {
  the_kind : kind; stands : status; m_result : result_type; who_await_me_ : option handle }.
#[local] Abbreviation frames := (gmap handle frame).

Definition set_status (s : status) (f : frame) : frame := mk_frame (the_kind f) s (m_result f) (who_await_me_ f).
(** [set_continuation] *)
Definition set_continuation (h : handle) (f : frame) : frame :=
  mk_frame (the_kind f) (stands f) (m_result f) (Some h).
(** [return_value] and [unhandled_exception] *)
Definition return_value (v : V) (f : frame) : frame := mk_frame (the_kind f) (stands f) (value v) (who_await_me_ f).
Definition unhandled_exception (e : exn) (f : frame) : frame :=
  mk_frame (the_kind f) (stands f) (match the_kind f with fire_and_forget | oneway_task => m_result f | _ => exception e end) (who_await_me_ f).

(** [promise().result()]: [None] is the failed assertion. *)
Definition promise_result (f : frame) : option (V + exn) :=
  match m_result f with
  | exception e => Some (inr e)
  | value v => Some (inl v)
  | empty => None
  end.

Definition done (f : frame) : bool := match stands f with Done => true | _ => false end.
(** [await_ready()], [is_ready()] *)
Definition await_ready (fs : frames) (t : option handle) : option bool :=
  match t with
  | None => Some true
  | Some h => f ← fs !! h; Some (done f)
  end.
(** [await_resume()] *)
Definition await_resume (fs : frames) (t : option handle) : option (V + exn) :=
  match t with
  | None => Some (inr broken_promise)
  | Some h => f ← fs !! h; promise_result f
  end.

(** Who runs: a coroutine with the rest of its body, or the code that resumed
    the first of them. *)
Inductive control : Type := Run (h : handle) (b : B) | Returned.

(** [resume()] of a handle, by transfer or from outside: [None] is a resume of
    a coroutine that is not suspended.  In [co_await] it goes on with
    [await_resume()] and the destructor of a temporary. *)
Definition resume (fs : frames) (h : handle) : option (frames * control) :=
  f ← fs !! h;
  match stands f with
  | Initial b => Some (<[h := set_status Running f]> fs, Run h b)
  | Awaiting t k temporary =>
    r ← await_resume fs (Some t); Some (<[h := set_status Running f]> (if temporary then delete t fs else fs), Run h (k r))
  | _ => None
  end.

(** [final_suspend] of a lazy task transfers to [who_await_me_] whatever it is:
    [None] is the resumption of a null handle. *)
Definition task_final_suspend (fs : frames) (f : frame) : option (frames * control) :=
  c ← who_await_me_ f; resume fs c.
(** That of an eager task only transfers to a coroutine that is not done. *)
Definition async_task_final_suspend (fs : frames) (f : frame) : option (frames * control) :=
  match who_await_me_ f with
  | Some c => fc ← fs !! c; if done fc then Some (fs, Returned) else resume fs c
  | None => Some (fs, Returned)
  end.
(** [async_run] never suspends at its end: the frame is gone. *)
Definition async_run_final_suspend (fs : frames) (h : handle) : option (frames * control) :=
  Some (delete h fs, Returned).
Definition final_suspend (fs : frames) (h : handle) (f : frame) : option (frames * control) :=
  let fs' := <[h := set_status Done f]> fs in
  match the_kind f with
  | lazy_task => task_final_suspend fs' f
  | eager_task => async_task_final_suspend fs' f
  | fire_and_forget | oneway_task => async_run_final_suspend fs' h
  end.

(** [await_suspend(awaitingCoroutine)] on the task [c]: both store the
    continuation; the lazy one transfers to the task, the eager one gives
    control back. *)
Definition task_await_suspend (fs : frames) (h c : handle) : option (frames * control) :=
  fc ← fs !! c; resume (<[c := set_continuation h fc]> fs) c.
Definition async_task_await_suspend (fs : frames) (h c : handle) : option (frames * control) :=
  fc ← fs !! c; Some (<[c := set_continuation h fc]> fs, Returned).

(** One step of the running coroutine: [None] is a failed assertion, the
    resumption of a coroutine that is not suspended, or [std::terminate()],
    which the exception out of a [oneway_task] calls. *)
Definition coroutine_step (fs : frames) (h : handle) (b : B) : option (frames * control) :=
  f ← fs !! h;
  match code b with
  | CoReturn v => final_suspend fs h (return_value v f)
  | CoThrow e => match the_kind f with oneway_task => None | _ => final_suspend fs h (unhandled_exception e f) end
  | CoAwait t k =>
    match await_ready fs t with
    | None => None
    | Some true => r ← await_resume fs t; Some (fs, Run h (k r))
    | Some false =>
      c ← t;
      fc ← fs !! c;
      let fs' := <[h := set_status (Awaiting c k false) f]> fs in
      match the_kind fc with
      | lazy_task => task_await_suspend fs' h c
      | _ => async_task_await_suspend fs' h c
      end
    end
  | CoAwaitNew b' k =>
    let c := fresh (dom fs) in
    task_await_suspend (<[h := set_status (Awaiting c k true) f]> (<[c := mk_frame lazy_task (Initial b') empty None]> fs)) h c
  | CoSuspend q k => Some (<[h := set_status (Suspended q k) f]> fs, Returned)
  | CoCall _ b' => Some (fs, Run h b')
  end.

(** The outside completes the event a suspended coroutine waits for. *)
Definition complete (fs : frames) (h : handle) (a : answer E) : option (question E * (frames * control)) :=
  f ← fs !! h;
  match stands f with
  | Suspended q k => Some (q, (<[h := set_status Running f]> fs, Run h (k a)))
  | _ => None
  end.

Definition config : Type := frames * control.
(** What coroutines and the outside have to do with each other. *)
Inductive dealing : Type := Called (x : function_call E) | Answered (q : question E) (a : answer E).
Definition calls_of (b : B) : list (function_call E) := match code b with CoCall x _ => [x] | _ => [] end.
Inductive mstep : config -> list dealing -> config -> Prop :=
| mstep_run fs h b c : coroutine_step fs h b = Some c -> mstep (fs, Run h b) (Called <$> calls_of b) c
| mstep_complete fs h q a c : complete fs h a = Some (q, c) -> mstep (fs, Returned) [Answered q a] c.

(** Runs, with the dealings on the way. *)
Inductive msteps : config -> list dealing -> config -> Prop :=
| msteps_refl c : msteps c [] c
| msteps_step c vs c' vs' c'' : mstep c vs c' -> msteps c' vs' c'' -> msteps c (vs ++ vs') c''.

(** Calling a coroutine: a lazy task stays at its initial suspend point, the
    others run at once. *)
Definition call (kd : kind) (b : B) (h : handle) (fs : frames) : config :=
  match kd with
  | lazy_task => (<[h := mk_frame kd (Initial b) empty None]> fs, Returned)
  | _ => (<[h := mk_frame kd Running empty None]> fs, Run h b)
  end.

(** * Direct style: what the bodies mean when [co_await] is a call *)

Inductive meaning : Type := Unstarted (b : B) | Finished (r : V + exn).
(** A position at which a coroutine ends, with a result. *)
Definition ends (b : B) (r : V + exn) : Prop := code b = match r with inl v => CoReturn v | inr e => CoThrow e end.

(** [evals st b vs r st']: the body [b], with the dealings [vs], ends with [r]
    and leaves the tasks in [st']. *)
Inductive evals : gmap handle meaning -> B -> list dealing -> V + exn -> gmap handle meaning -> Prop :=
| evals_ends st b r : ends b r -> evals st b [] r st
| evals_suspend st b q k a vs r st' : code b = CoSuspend q k -> evals st (k a) vs r st' -> evals st b (Answered q a :: vs) r st'
| evals_outside st b x b' vs r st' : code b = CoCall x b' -> evals st b' vs r st' -> evals st b (Called x :: vs) r st'
| evals_null st b k vs r st' : code b = CoAwait None k -> evals st (k (inr broken_promise)) vs r st' -> evals st b vs r st'
| evals_ready st b h k r0 vs r st' : code b = CoAwait (Some h) k -> st !! h = Some (Finished r0) ->
    evals st (k r0) vs r st' -> evals st b vs r st'
| evals_call st b h b0 k vs0 r0 st0 vs r st' : code b = CoAwait (Some h) k -> st !! h = Some (Unstarted b0) ->
    evals (delete h st) b0 vs0 r0 st0 -> st0 !! h = None ->
    evals (<[h := Finished r0]> st0) (k r0) vs r st' ->
    evals st b (vs0 ++ vs) r st'
| evals_new st b b0 k vs0 r0 st0 vs r st' : code b = CoAwaitNew b0 k ->
    evals st b0 vs0 r0 st0 -> evals st0 (k r0) vs r st' -> evals st b (vs0 ++ vs) r st'.
End Machine.
Arguments frame V E B : clear implicits.
Abbreviation frames V E B := (gmap handle (frame V E B)).
Arguments control B : clear implicits.
Arguments config V E B : clear implicits.
Arguments meaning V B : clear implicits.
Arguments status V E B : clear implicits.

(** The coroutines of the library around the user's: [Wraps b] awaits the task
    [b] that it was given and ends as it does ([make_task], [make_async_task],
    the [oneway_task] of [async_scope::spawn]). *)
Inductive with_library (V B : Type) : Type := User (b : B) | Wraps (b : B) | Gives (r : V + exn).
Arguments User {V B}. Arguments Wraps {V B}. Arguments Gives {V B}.
Definition user_instr {V E B} (i : instr V E B) : instr V E (with_library V B) :=
  match i with
  | CoReturn v => CoReturn v
  | CoThrow e => CoThrow e
  | CoAwait t k => CoAwait t (fun r => User (k r))
  | CoAwaitNew b k => CoAwaitNew (User b) (fun r => User (k r))
  | CoSuspend q k => CoSuspend q (fun a => User (k a))
  | CoCall x b => CoCall x (User b)
  end.
#[export] Instance library_code {V E B} `{!Code V E B} : Code V E (with_library V B) := fun b =>
  match b with
  | User b => user_instr (code b)
  | Wraps b => CoAwaitNew (User b) Gives
  | Gives (inl v) => CoReturn v
  | Gives (inr e) => CoThrow e
  end.
(** [make_task] and [make_async_task] of an awaitable task, which they own. *)
Definition make_task {V B} (b : B) : with_library V B := Wraps b.
Lemma make_task_forwards {V E B} `{!Code V E B} st (b : B) vs r st' :
  evals (E := E) st (User b) vs r st' -> evals (E := E) st (make_task (V := V) b) vs r st'.
Proof.
  intros H. rewrite <- (app_nil_r vs). eapply evals_new; [reflexivity | exact H |]. apply evals_ends. by destruct r.
Qed.

(** * The machine implements direct style *)

Section Refinement.
Context {V : Type} {E : outside} {B : Type} `{!Code V E B}.
Implicit Types (fs : frames V E B) (st : gmap handle (meaning V B)).

(** The frames of [st]: lazy tasks that nobody awaits yet, or that are done. *)
Definition agrees st fs : Prop :=
  forall h m, st !! h = Some m -> exists f, fs !! h = Some f /\ the_kind f = lazy_task /\
    match m with
    | Unstarted b => stands f = Initial b /\ m_result f = empty
    | Finished r => stands f = Done /\ promise_result f = Some r
    end.

Lemma msteps_trans (c1 : config V E B) vs1 c2 vs2 c3 : msteps c1 vs1 c2 -> msteps c2 vs2 c3 -> msteps c1 (vs1 ++ vs2) c3.
Proof.
  induction 1 as [|c vs c' vs' c'' H _ IH]; intros H2; [done|]. rewrite <- app_assoc. eapply msteps_step; [done | by apply IH].
Qed.

Lemma mstep_quiet fs h b c : calls_of b = [] -> coroutine_step fs h b = Some c -> mstep (fs, Run h b) [] c.
Proof. intros Hb Hs. pose proof (mstep_run fs h b c Hs) as H. by rewrite Hb in H. Qed.
Lemma calls_of_ends b r : ends b r -> calls_of b = [].
Proof. unfold ends, calls_of. intros ->. by destruct r. Qed.
Lemma msteps_one (c c' c'' : config V E B) vs : mstep c [] c' -> msteps c' vs c'' -> msteps c vs c''.
Proof. intros. change vs with ([] ++ vs). by eapply msteps_step. Qed.

Lemma agrees_other st fs h f : agrees st fs -> st !! h = None -> agrees st (<[h := f]> fs).
Proof.
  intros H Hh h' m Hm. destruct (decide (h = h')) as [->|Hne]; [congruence|].
  destruct (H h' m Hm) as (f' & Ef & Hf). exists f'. by rewrite lookup_insert_ne.
Qed.

Lemma agrees_delete st fs h : agrees st fs -> agrees (delete h st) fs.
Proof. intros H h' m [_ Hm]%lookup_delete_Some. by apply H. Qed.

Lemma agrees_finished st fs c fc r : agrees st fs -> the_kind fc = lazy_task -> stands fc = Done -> promise_result fc = Some r ->
  agrees (<[c := Finished r]> st) (<[c := fc]> fs).
Proof.
  intros H Hk Hs Hr h m Hm. destruct (decide (c = h)) as [<-|Hn].
  - rewrite lookup_insert_eq in Hm. injection Hm as <-. exists fc. by rewrite lookup_insert_eq.
  - rewrite lookup_insert_ne in Hm by done. rewrite lookup_insert_ne by done. by apply H.
Qed.

(** Awaiting a task that is finished, and the transfer to one that was not
    called yet. *)
Lemma ready_step st fs h f b c k r : code b = CoAwait (Some c) k -> agrees st fs -> fs !! h = Some f -> st !! c = Some (Finished r) ->
  coroutine_step fs h b = Some (fs, Run h (k r)).
Proof.
  intros Hb Ha Hf Hc. destruct (Ha c _ Hc) as (fc & Ec & _ & Hd & Hr). unfold coroutine_step. rewrite Hf, Hb. cbn [mbind option_bind await_ready await_resume].
  rewrite Ec. cbn [mbind option_bind]. unfold done. rewrite Hd. by rewrite Hr.
Qed.
Lemma call_step fs h f b0 c fc k b : code b0 = CoAwait (Some c) k -> fs !! h = Some f -> fs !! c = Some fc -> c <> h ->
  the_kind fc = lazy_task -> stands fc = Initial b -> coroutine_step fs h b0 =
  Some (<[c := set_status Running (set_continuation h fc)]> (<[c := set_continuation h fc]> (<[h := set_status (Awaiting c k false) f]> fs)), Run c b).
Proof.
  intros Hb Hf Ec Hne Hkc Hi. unfold coroutine_step. rewrite Hf, Hb. cbn [mbind option_bind await_ready]. rewrite Ec. cbn [mbind option_bind].
  unfold done. rewrite Hi. cbn [mbind option_bind]. rewrite Hkc. unfold task_await_suspend, resume.
  rewrite (lookup_insert_ne fs h c), Ec by done. cbn [mbind option_bind]. rewrite lookup_insert_eq.
  cbn [mbind option_bind]. cbn [stands set_continuation]. by rewrite Hi.
Qed.

Lemma new_step fs h f b0 c k b : code b0 = CoAwaitNew b k -> fs !! h = Some f -> c = fresh (dom fs) ->
  coroutine_step fs h b0 = Some (<[c := mk_frame lazy_task Running empty (Some h)]> (<[c := mk_frame lazy_task (Initial b) empty (Some h)]>
    (<[h := set_status (Awaiting c k true) f]> (<[c := mk_frame lazy_task (Initial b) empty None]> fs))), Run c b).
Proof.
  intros Hb Hf Hc. unfold coroutine_step. rewrite Hf, Hb. cbn [mbind option_bind]. rewrite <- Hc. unfold task_await_suspend, resume.
  assert (Hne : h <> c) by (intros ->; apply (is_fresh (dom fs)); rewrite <- Hc; apply elem_of_dom; by eexists).
  rewrite (lookup_insert_ne _ h c), lookup_insert_eq by done. cbn [mbind option_bind]. by rewrite lookup_insert_eq.
Qed.
Lemma fresh_handle st fs : agrees st fs -> fs !! fresh (dom fs) = None /\ st !! fresh (dom fs) = None.
Proof.
  intros Ha. assert (Hf : fs !! fresh (dom fs) = None) by apply not_elem_of_dom, is_fresh. split; [done|].
  destruct (st !! fresh (dom fs)) as [m|] eqn:E1; [|done]. destruct (Ha _ _ E1) as (f & Ef & _). congruence.
Qed.
Lemma agrees_destroy st fs h : agrees st fs -> st !! h = None -> agrees st (delete h fs).
Proof.
  intros H Hh h' m Hm. destruct (decide (h = h')) as [->|Hne]; [congruence|].
  destruct (H h' m Hm) as (f' & Ef & Hf). exists f'. by rewrite lookup_delete_ne.
Qed.

(** Storing the result and transferring back to the coroutine that awaits. *)
Lemma finish_transfers fs b c h fc fh k (temporary : bool) r : ends b r ->
  fs !! c = Some fc -> fs !! h = Some fh -> c <> h -> the_kind fc = lazy_task ->
  who_await_me_ fc = Some h -> stands fh = Awaiting c k temporary ->
  exists fc', coroutine_step fs c b =
    Some (<[h := set_status Running fh]> (if temporary then delete c (<[c := fc']> fs) else <[c := fc']> fs), Run h (k r)) /\
    the_kind fc' = lazy_task /\ stands fc' = Done /\ promise_result fc' = Some r.
Proof.
  intros Hb Hc Hh Hne Hk Hw Hs. unfold coroutine_step. rewrite Hc, Hb. cbn [mbind option_bind].
  destruct fc as [kd s0 r0 w0]. cbn in Hk, Hw. subst kd w0.
  destruct r as [v|e]; unfold final_suspend, task_final_suspend; cbn [the_kind return_value unhandled_exception who_await_me_];
    cbn [mbind option_bind]; unfold resume; rewrite lookup_insert_ne, Hh by done;
    cbn [mbind option_bind]; rewrite Hs; unfold await_resume; rewrite lookup_insert_eq; cbn [mbind option_bind promise_result set_status m_result];
    (eexists; split; [reflexivity | done]).
Qed.

Lemma evals_runs st b vs r st' : evals st b vs r st' ->
  forall fs h f, agrees st fs -> fs !! h = Some f -> stands f = Running -> st !! h = None ->
  exists fs' b', msteps (fs, Run h b) vs (fs', Run h b') /\ ends b' r /\ agrees st' fs' /\ st' !! h = None /\
    (forall h', st !! h' = None -> st' !! h' = None /\ fs' !! h' = fs !! h').
Proof.
  induction 1 as [st b r Hb|st b q k v vs r st' Hb _ IH|st b x b' vs r st' Hb _ IH|st b k vs r st' Hb _ IH|st b c k r0 vs r st' Hb Hc _ IH
    |st b c b0 k vs0 r0 st0 vs r st' Hb Hc _ IH0 Hc0 _ IH|st b b0 k vs0 r0 st0 vs r st' Hb _ IH0 _ IH]; intros fs h f Ha Hf Hs Hh.
  all: assert (Hq : match code b with CoCall _ _ => True | _ => calls_of b = [] end) by (unfold calls_of; by destruct (code b)).
  - exists fs, b. split_and!; [apply msteps_refl | done | done | done | done].
  - rewrite Hb in Hq. destruct (IH (<[h := set_status Running (set_status (Suspended q k) f)]> (<[h := set_status (Suspended q k) f]> fs)) h
      (set_status Running (set_status (Suspended q k) f))) as (fs' & b' & Hm & He & Ha' & Hh' & Ho);
      [by apply agrees_other; [apply agrees_other|] | apply lookup_insert_eq | done | done |].
    exists fs', b'. split_and!; [ | done | done | done |].
    + eapply msteps_one; [apply mstep_quiet; [done|]; unfold coroutine_step; rewrite Hf, Hb; reflexivity|].
      eapply (msteps_step _ [Answered q v]); [|exact Hm]. apply (mstep_complete _ h). unfold complete. rewrite lookup_insert_eq. reflexivity.
    + intros h' Hn. destruct (Ho h' Hn) as [? ->]. split; [done|]. destruct (decide (h = h')) as [<-|Hne].
      * rewrite lookup_insert_eq, Hf. destruct f; cbn in *. by subst.
      * by rewrite !lookup_insert_ne.
  - destruct (IH fs h f Ha Hf Hs Hh) as (fs' & b1 & Hm & He & Ha' & Hh' & Ho). exists fs', b1. split_and!; [|done..].
    assert (H1 : mstep (fs, Run h b) (Called <$> calls_of b) (fs, Run h b')) by (apply mstep_run; unfold coroutine_step; by rewrite Hf, Hb).
    unfold calls_of in H1. rewrite Hb in H1. exact (msteps_step _ _ _ _ _ H1 Hm).
  - rewrite Hb in Hq. destruct (IH fs h f Ha Hf Hs Hh) as (fs' & b1 & Hm & He & Ha' & Hh' & Ho). exists fs', b1. split_and!; [|done..].
    eapply msteps_one; [apply mstep_quiet; [done|]; unfold coroutine_step; rewrite Hf, Hb; reflexivity | exact Hm].
  - rewrite Hb in Hq. destruct (IH fs h f Ha Hf Hs Hh) as (fs' & b1 & Hm & He & Ha' & Hh' & Ho). exists fs', b1. split_and!; [|done..].
    eapply msteps_one; [apply mstep_quiet; [done | by eapply ready_step] | exact Hm].
  - rewrite Hb in Hq. destruct (Ha c _ Hc) as (fc & Ec & Hkc & Hi & Hemp). assert (Hne : c <> h) by congruence.
    set (fh := set_status (Awaiting c k false) f). set (fc1 := set_status Running (set_continuation h fc)).
    set (fs1 := <[c := fc1]> (<[c := set_continuation h fc]> (<[h := fh]> fs))).
    assert (Hd : delete c st !! c = None) by apply lookup_delete_eq.
    destruct (IH0 fs1 c fc1) as (fs2 & b2 & Hm2 & He2 & Ha2 & Hc2 & Ho2).
    { apply agrees_other; [apply agrees_other; [|done]|done]. apply agrees_other; [by apply agrees_delete|].
      by rewrite lookup_delete_ne. }
    { apply lookup_insert_eq. }
    { done. }
    { done. }
    assert (Hdh : delete c st !! h = None) by (by rewrite lookup_delete_ne).
    assert (E2c : fs2 !! c = Some fc1) by (destruct (Ho2 c Hd) as [_ ->]; apply lookup_insert_eq).
    assert (E2h : fs2 !! h = Some fh).
    { destruct (Ho2 h Hdh) as [_ ->]. unfold fs1. by rewrite !lookup_insert_ne, lookup_insert_eq by done. }
    destruct (finish_transfers fs2 b2 c h fc1 fh k false r0 He2 E2c E2h Hne Hkc eq_refl eq_refl) as (fc' & Ef & Hk' & Hs' & Hr').
    destruct (IH (<[h := set_status Running fh]> (<[c := fc']> fs2)) h (set_status Running fh)) as (fs3 & b3 & Hm3 & He3 & Ha3 & Hh3 & Ho3).
    { apply agrees_other; [by apply agrees_finished | rewrite lookup_insert_ne by done; by apply Ho2]. }
    { apply lookup_insert_eq. }
    { done. }
    { rewrite lookup_insert_ne by done. by apply Ho2. }
    exists fs3, b3. split_and!; [ | done | done | done |].
    + eapply msteps_one; [apply mstep_quiet; [done | by eapply call_step]|].
      eapply msteps_trans; [exact Hm2|]. eapply msteps_one; [apply mstep_quiet; [by eapply calls_of_ends | exact Ef] | exact Hm3].
    + intros h' Hn. assert (c <> h') by congruence.
      destruct (Ho2 h') as [Hn2 E2]; [by rewrite lookup_delete_ne|].
      destruct (Ho3 h') as [Hn3 E3]; [by rewrite lookup_insert_ne|]. split; [done|]. rewrite E3.
      destruct (decide (h = h')) as [<-|Hne'].
      * rewrite lookup_insert_eq, Hf. destruct f; cbn in *. by subst.
      * rewrite !lookup_insert_ne by done. rewrite E2. unfold fs1. by rewrite !lookup_insert_ne.
  - rewrite Hb in Hq. set (c := fresh (dom fs)). destruct (fresh_handle st fs Ha) as [Hfc Hc]. fold c in Hfc, Hc. assert (Hne : c <> h) by congruence.
    set (fh := set_status (Awaiting c k true) f). set (fc1 := mk_frame (V := V) (E := E) (B := B) lazy_task Running empty (Some h)).
    set (fs1 := <[c := fc1]> (<[c := mk_frame lazy_task (Initial b0) empty (Some h)]> (<[h := fh]> (<[c := mk_frame lazy_task (Initial b0) empty None]> fs)))).
    destruct (IH0 fs1 c fc1) as (fs2 & b2 & Hm2 & He2 & Ha2 & Hc2 & Ho2); [by repeat apply agrees_other | apply lookup_insert_eq | done | done |].
    destruct (Ho2 c Hc) as [_ E2c]. unfold fs1 in E2c. rewrite lookup_insert_eq in E2c.
    destruct (Ho2 h Hh) as [Hh2 E2h]. unfold fs1 in E2h. rewrite !(lookup_insert_ne _ c h), lookup_insert_eq in E2h by done.
    destruct (finish_transfers fs2 b2 c h fc1 fh k true r0 He2 E2c E2h Hne eq_refl eq_refl eq_refl) as (fc' & Ef & _ & _ & _). cbn in Ef.
    destruct (IH (<[h := set_status Running fh]> (delete c (<[c := fc']> fs2))) h (set_status Running fh)) as (fs3 & b3 & Hm3 & He3 & Ha3 & Hh3 & Ho3);
      [by apply agrees_other; [apply agrees_destroy; [by apply agrees_other|]|] | apply lookup_insert_eq | done | done |].
    exists fs3, b3. split_and!; [ | done | done | done |].
    + eapply msteps_one; [apply mstep_quiet; [done | by apply new_step]|].
      eapply msteps_trans; [exact Hm2|]. eapply msteps_one; [apply mstep_quiet; [by eapply calls_of_ends | exact Ef] | exact Hm3].
    + intros h' Hn. destruct (Ho2 h' Hn) as [Hn2 E2]. destruct (Ho3 h' Hn2) as [Hn3 E3]. split; [done|]. rewrite E3.
      destruct (decide (h = h')) as [<-|Hne']; [rewrite lookup_insert_eq, Hf; destruct f; cbn in *; by subst|]. rewrite lookup_insert_ne by done.
      destruct (decide (c = h')) as [<-|Hnc]; [by rewrite lookup_delete_eq|]. rewrite lookup_delete_ne, lookup_insert_ne, E2 by done.
      unfold fs1. by rewrite !lookup_insert_ne.
Qed.
End Refinement.

Section Promises.
Context {V : Type} {E : outside} {B : Type} `{!Code V E B}.
Implicit Types (fs : frames V E B) (st : gmap handle (meaning V B)).

(** The last step of an eager coroutine that nobody awaits. *)
Lemma finish_eager fs b h f r : ends b r -> fs !! h = Some f -> the_kind f = eager_task -> who_await_me_ f = None ->
  exists f', coroutine_step fs h b = Some (<[h := f']> fs, Returned) /\ stands f' = Done /\ promise_result f' = Some r.
Proof.
  intros Hb Hf Hk Hw. unfold coroutine_step. rewrite Hf, Hb. cbn [mbind option_bind]. destruct f as [kd s0 r0 w0]. cbn in Hk, Hw. subst kd w0.
  destruct r as [v|e]; (eexists; split; [reflexivity | done]).
Qed.

(** The last step of an eager coroutine that another one awaits. *)
Lemma finish_eager_transfers fs b c h fc fh k r : ends b r ->
  fs !! c = Some fc -> fs !! h = Some fh -> c <> h -> the_kind fc = eager_task ->
  who_await_me_ fc = Some h -> stands fh = Awaiting c k false ->
  exists fc', coroutine_step fs c b = Some (<[h := set_status Running fh]> (<[c := fc']> fs), Run h (k r)).
Proof.
  intros Hb Hc Hh Hne Hk Hw Hs. unfold coroutine_step. rewrite Hc, Hb. cbn [mbind option_bind].
  destruct fc as [kd s0 r0 w0]. cbn in Hk, Hw. subst kd w0.
  destruct r as [v|e]; unfold final_suspend, async_task_final_suspend; cbn [the_kind return_value unhandled_exception who_await_me_];
    rewrite (lookup_insert_ne fs c h) by done; rewrite Hh; cbn [mbind option_bind]; unfold done; rewrite Hs; unfold resume;
    rewrite (lookup_insert_ne fs c h), Hh by done; cbn [mbind option_bind]; rewrite Hs; unfold await_resume; rewrite lookup_insert_eq;
    cbn [mbind option_bind promise_result set_status m_result]; (eexists; reflexivity).
Qed.

(** [C1] Awaiting a task is calling it.  Take coroutine bodies that await lazy
    tasks, wait for the outside, call it, return and throw, and give them their
    direct-style meaning, in which [co_await] is a call.  Whenever that
    meaning is a result, the machine of suspended frames and symmetric
    transfers, started on the same body, runs to the end with the same calls
    of the outside, questions and answers in the same order, hands control
    back to the caller and has stored exactly that result, value or exception;
    every task ran at most once and only from its first [co_await]. *)
Theorem tasks_run_like_calls st b vs r st' fs h :
  evals st b vs r st' -> agrees st fs -> st !! h = None ->
  exists fs' f', msteps (call eager_task b h fs) vs (fs', Returned) /\
    fs' !! h = Some f' /\ stands f' = Done /\ promise_result f' = Some r /\ agrees st' fs'.
Proof.
  intros He Ha Hh. cbn [call].
  destruct (evals_runs _ _ _ _ _ He (<[h := mk_frame eager_task Running empty None]> fs) h (mk_frame eager_task Running empty None))
    as (fs1 & b1 & Hm & He1 & Ha' & Hh' & Ho); [by apply agrees_other | apply lookup_insert_eq | done | done |].
  destruct (Ho h Hh) as [_ Ef]. rewrite lookup_insert_eq in Ef.
  destruct (finish_eager fs1 b1 h _ r He1 Ef eq_refl eq_refl) as (f' & Es & Hd & Hr).
  exists (<[h := f']> fs1), f'. split_and!; [ | apply lookup_insert_eq | done | done | by apply agrees_other].
  rewrite <- (app_nil_r vs). eapply msteps_trans; [exact Hm|]. eapply msteps_one; [apply mstep_quiet; [by eapply calls_of_ends | exact Es] | apply msteps_refl].
Qed.

(** [C34] Awaiting an eager task delivers its result whenever it is awaited.
    Awaited after it is done, it does not suspend the caller and yields the
    stored result; awaited while it waits for the outside, it gives control
    back, and when the outside completes it, the caller goes on with the
    result the rest of its body has. *)
Theorem eager_task_delivers st fs p fp c fc b k : code b = CoAwait (Some c) k ->
  agrees st fs -> st !! p = None -> st !! c = None -> p <> c ->
  fs !! p = Some fp -> stands fp = Running -> fs !! c = Some fc -> the_kind fc = eager_task ->
  (forall r, stands fc = Done -> promise_result fc = Some r ->
     mstep (fs, Run p b) [] (fs, Run p (k r))) /\
  (forall q k0 a vs r st', stands fc = Suspended q k0 -> evals st (k0 a) vs r st' ->
     exists fs', msteps (fs, Run p b) (Answered q a :: vs) (fs', Run p (k r)) /\ agrees st' fs').
Proof.
  intros Hb Ha Hp Hc Hne Ep Hrun Ec Hk. assert (Hq : calls_of b = []) by (unfold calls_of; by rewrite Hb). split.
  - intros r Hd Hr. apply mstep_quiet; [done|]. unfold coroutine_step. rewrite Ep, Hb. cbn [mbind option_bind await_ready await_resume].
    rewrite Ec. cbn [mbind option_bind]. unfold done. rewrite Hd. by rewrite Hr.
  - intros q k0 a vs r st' Hs He.
    set (fp1 := set_status (Awaiting c k false) fp). set (fc1 := set_continuation p fc). set (fc2 := set_status Running fc1).
    set (fs1 := <[c := fc1]> (<[p := fp1]> fs)).
    destruct (evals_runs _ _ _ _ _ He (<[c := fc2]> fs1) c fc2) as (fs2 & b2 & Hm & He2 & Ha2 & Hc2 & Ho);
      [ | apply lookup_insert_eq | done | done |].
    { apply agrees_other; [|done]. apply agrees_other; [|done]. by apply agrees_other. }
    destruct (Ho c Hc) as [_ E2c]. rewrite lookup_insert_eq in E2c. destruct (Ho p Hp) as [Hp2 E2p].
    unfold fs1 in E2p. rewrite !(lookup_insert_ne _ c p), lookup_insert_eq in E2p by done.
    destruct (finish_eager_transfers fs2 b2 c p fc2 fp1 k r He2 E2c E2p ltac:(done) Hk eq_refl eq_refl) as (fc' & Es).
    exists (<[p := set_status Running fp1]> (<[c := fc']> fs2)). split; [|by apply agrees_other; [apply agrees_other|]].
    eapply msteps_one.
    { apply mstep_quiet; [done|]. unfold coroutine_step. rewrite Ep, Hb. cbn [mbind option_bind await_ready]. rewrite Ec. cbn [mbind option_bind].
      unfold done. rewrite Hs, Hk. unfold async_task_await_suspend. fold fp1.
      rewrite (lookup_insert_ne fs p c), Ec by done. cbn [mbind option_bind]. fold fc1 fs1. reflexivity. }
    eapply (msteps_step _ [Answered q a]); [apply (mstep_complete _ c); unfold complete, fs1; rewrite lookup_insert_eq; cbn [mbind option_bind];
      unfold fc1 at 1; cbn [stands set_continuation]; rewrite Hs; reflexivity|].
    rewrite <- (app_nil_r vs). eapply msteps_trans; [exact Hm|]. eapply msteps_one; [apply mstep_quiet; [by eapply calls_of_ends | exact Es] | apply msteps_refl].
Qed.
End Promises.

(** A body that awaits a task which waits for a value and throws when it is
    odd; the exception is caught. *)
Definition numbers : outside := mk_outside Empty_set unit Z.
Inductive number_code : Type := Child | ChildHas (v : Z) | Parent | ParentHas (r : Z + exn) | Doubler | DoublerHas (r : Z + exn) | Echoes (v : Z).
#[local] Instance number_instr : Code Z numbers number_code := fun b =>
  match b with
  | Child => CoSuspend (E := numbers) tt ChildHas
  | ChildHas v => if Z.odd v then CoThrow (user_exception v) else CoReturn (v + 1)
  | Parent => CoAwait (Some 5%nat) ParentHas
  | ParentHas r => CoReturn (match r with inl v => 10 * v | inr _ => -1 end)
  | Doubler => CoAwait (Some 2%nat) DoublerHas
  | DoublerHas r => CoReturn (match r with inl v => v * 2 | inr _ => 0 end)
  | Echoes v => CoReturn v
  end.
Definition one_task : frames Z numbers number_code := {[ 5%nat := mk_frame lazy_task (Initial Child) empty None ]}.

Lemma one_task_agrees : agrees {[ 5%nat := Unstarted Child ]} one_task.
Proof. intros h m [<- <-]%lookup_singleton_Some. eexists. split; [reflexivity | done]. Qed.

Lemma tasks_run_like_calls_witness :
  exists fs' f', msteps (call eager_task Parent 1%nat one_task) [Answered (E := numbers) tt 4] (fs', Returned) /\
    fs' !! 1%nat = Some f' /\ promise_result f' = Some (inl 50).
Proof.
  destruct (tasks_run_like_calls {[ 5%nat := Unstarted Child ]} Parent [Answered (E := numbers) tt 4] (inl 50) (<[5%nat := Finished (inl 5)]> ∅)
    one_task 1%nat) as (fs' & f' & Hm & Hf & _ & Hr & _).
  - change [Answered (E := numbers) tt 4] with ([Answered (E := numbers) tt 4] ++ []). eapply evals_call.
    + reflexivity.
    + reflexivity.
    + eapply evals_suspend; [reflexivity|]. by apply (evals_ends _ (ChildHas 4) (inl 5)).
    + reflexivity.
    + replace (delete 5%nat {[ 5%nat := Unstarted Child ]}) with (∅ : gmap handle (meaning Z number_code)) by (by rewrite delete_singleton_eq).
      by apply evals_ends.
  - apply one_task_agrees.
  - reflexivity.
  - exists fs', f'. split_and!; [exact Hm | exact Hf | exact Hr].
Defined.

Lemma eager_task_delivers_witness :
  exists fs', msteps (E := numbers) (<[1%nat := mk_frame eager_task Running empty None]> {[ 2%nat := mk_frame eager_task (Suspended (E := numbers) tt Echoes) empty None ]},
                      Run 1%nat Doubler) [Answered (E := numbers) tt 21]
                     (fs', Run 1%nat (DoublerHas (inl 21))).
Proof.
  destruct (eager_task_delivers (V := Z) (E := numbers) ∅ (<[1%nat := mk_frame eager_task Running empty None]>
      {[ 2%nat := mk_frame eager_task (Suspended (E := numbers) tt Echoes) empty None ]}) 1%nat
      (mk_frame eager_task Running empty None) 2%nat (mk_frame eager_task (Suspended (E := numbers) tt Echoes) empty None)
      Doubler DoublerHas eq_refl) as [_ H]; try reflexivity.
  - intros h m Hm. discriminate Hm.
  - discriminate.
  - destruct (H tt Echoes 21 [] (inl 21) ∅ eq_refl ltac:(by apply evals_ends)) as (fs' & Hm & _). exists fs'. exact Hm.
Defined.

(** * Who owns the frames *)

Module Owner.

(** The task objects in scope, each with [my_continuation_], and the frames
    that exist. *)
Record store : Type := mk_store { objects : gmap nat (option handle); live : gset handle }.

(** [coroutine_handle::destroy()] *)
Definition destroy (h : option handle) (s : gset handle) : option (gset handle) :=
  match h with
  | None => Some s
  | Some h => if decide (h ∈ s) then Some (s ∖ {[h]}) else None
  end.

Inductive action : Type :=
| Call (x : nat)                    (* [auto x = coroutine();] *)
| Default (x : nat)                 (* [task<> x;] *)
| MoveConstruct (x y : nat)         (* [task<> x{std::move(y)};] *)
| MoveAssign (x y : nat)            (* [x = std::move(y);] *)
| Destruct (x : nat).

(** [None]: a name used twice or not in scope, or a frame destroyed twice. *)
Definition act (a : action) (s : store) : option store :=
  match a with
  | Call x =>
    let h := fresh (live s) in
    match objects s !! x with
    | None => Some (mk_store (<[x := Some h]> (objects s)) ({[h]} ∪ live s))
    | Some _ => None
    end
  | Default x =>
    match objects s !! x with
    | None => Some (mk_store (<[x := None]> (objects s)) (live s))
    | Some _ => None
    end
  | MoveConstruct x y =>
    match objects s !! x, objects s !! y with
    | None, Some h => Some (mk_store (<[x := h]> (<[y := None]> (objects s))) (live s))
    | _, _ => None
    end
  | MoveAssign x y =>
    hx ← objects s !! x;
    hy ← objects s !! y;
    if decide (x = y) then Some s
    else l ← destroy hx (live s); Some (mk_store (<[y := None]> (<[x := hy]> (objects s))) l)
  | Destruct x =>
    hx ← objects s !! x;
    l ← destroy hx (live s);
    Some (mk_store (delete x (objects s)) l)
  end.
Definition step : store -> action -> store -> Prop := steps_of act.
Definition start : store := mk_store ∅ ∅.

(** Every frame has one owner. *)
Record inv (s : store) : Prop := mk_inv {
  owned_live : forall x h, objects s !! x = Some (Some h) -> h ∈ live s;
  live_owned : forall h, h ∈ live s -> exists x, objects s !! x = Some (Some h);
  one_owner : forall x y h, objects s !! x = Some (Some h) -> objects s !! y = Some (Some h) -> x = y
}.

Lemma destroy_frame_owned s x h : inv s -> objects s !! x = Some h -> exists l, destroy h (live s) = Some l /\
  (forall g, g ∈ l <-> g ∈ live s /\ h <> Some g).
Proof.
  intros H Hx. destruct h as [h|]; cbn.
  - rewrite decide_True by (by eapply owned_live). eexists. split; [done|]. set_solver.
  - eexists. split; [done|]. set_solver.
Qed.

(** A step on names in scope always succeeds and keeps the invariant. *)
Definition in_scope (a : action) (s : store) : Prop :=
  match a with
  | Call x | Default x => objects s !! x = None
  | MoveConstruct x y => objects s !! x = None /\ is_Some (objects s !! y)
  | MoveAssign x y => is_Some (objects s !! x) /\ is_Some (objects s !! y)
  | Destruct x => is_Some (objects s !! x)
  end.

Ltac lookups := repeat match goal with
  | H : context [<[?i := _]> _ !! ?j] |- _ => rewrite lookup_insert in H; destruct (decide (i = j)); simplify_eq
  | H : context [delete ?i _ !! ?j] |- _ => rewrite lookup_delete in H; destruct (decide (i = j)); simplify_eq
  end.

Lemma owner_act_inv s a : inv s -> in_scope a s -> exists s', act a s = Some s' /\ inv s'.
Proof.
  intros H Hin. destruct a as [x|x|x y|x y|x]; cbn in *.
  - rewrite Hin. eexists. split; [done|]. pose proof (is_fresh (live s)) as Hf. split; cbn.
    + intros z h Hz. lookups; [set_solver|]. pose proof (owned_live _ H _ _ Hz). set_solver.
    + intros h [->%elem_of_singleton|Hh]%elem_of_union; [exists x; apply lookup_insert_eq|].
      destruct (live_owned _ H h Hh) as [z Hz]. exists z. rewrite lookup_insert_ne; congruence.
    + intros z w h Hz Hw. lookups; try done; try (by eapply one_owner);
        exfalso; apply Hf; by eapply owned_live.
  - rewrite Hin. eexists. split; [done|]. split; cbn.
    + intros z h Hz. lookups. by eapply owned_live.
    + intros h Hh. destruct (live_owned _ H h Hh) as [z Hz]. exists z. rewrite lookup_insert_ne; congruence.
    + intros z w h Hz Hw. lookups. by eapply one_owner.
  - destruct Hin as [Hx [h Hy]]. rewrite Hx, Hy. eexists. split; [done|]. assert (x <> y) by congruence. split; cbn.
    + intros z g Hz. lookups; by eapply owned_live.
    + intros g Hg. destruct (live_owned _ H g Hg) as [z Hz]. destruct (decide (z = y)) as [->|].
      * exists x. rewrite lookup_insert_eq. congruence.
      * exists z. rewrite !lookup_insert_ne; congruence.
    + intros z w g Hz Hw. lookups; try done; try (by eapply one_owner); exfalso;
        match goal with H1 : _ !! ?a = Some (Some g), H2 : _ !! ?b = Some (Some g) |- _ => pose proof (one_owner _ H a b g H1 H2) end; congruence.
  - destruct Hin as [[hx Hx] [hy Hy]]. rewrite Hx, Hy. cbn. case_decide as Hxy; [by exists s|].
    destruct (destroy_frame_owned _ _ _ H Hx) as (l & -> & Hl). cbn. eexists. split; [done|]. split; cbn.
    + intros z g Hz. apply Hl. lookups.
      * split; [by eapply owned_live|]. intros ->. by pose proof (one_owner _ H _ _ _ Hx Hy).
      * split; [by eapply owned_live|]. intros ->. by pose proof (one_owner _ H _ _ _ Hx Hz).
    + intros g [Hg Hne]%Hl. destruct (live_owned _ H g Hg) as [z Hz]. destruct (decide (z = y)) as [->|].
      * exists x. rewrite lookup_insert_ne, lookup_insert_eq by done. congruence.
      * exists z. rewrite !lookup_insert_ne; congruence.
    + intros z w g Hz Hw. lookups; try done; try (by eapply one_owner); exfalso;
        match goal with H1 : _ !! ?a = Some (Some g), H2 : _ !! ?b = Some (Some g) |- _ => pose proof (one_owner _ H a b g H1 H2) end; congruence.
  - destruct Hin as [hx Hx]. rewrite Hx. cbn. destruct (destroy_frame_owned _ _ _ H Hx) as (l & -> & Hl). cbn.
    eexists. split; [done|]. split; cbn.
    + intros z g Hz. apply Hl. lookups. split; [by eapply owned_live|]. intros ->. by pose proof (one_owner _ H _ _ _ Hx Hz).
    + intros g [Hg Hne]%Hl. destruct (live_owned _ H g Hg) as [z Hz]. exists z. rewrite lookup_delete_ne; congruence.
    + intros z w g Hz Hw. lookups. by eapply one_owner.
Qed.

Lemma act_in_scope a s s' : act a s = Some s' -> in_scope a s.
Proof.
  destruct a as [x|x|x y|x y|x]; cbn; intros E.
  - by destruct (objects s !! x).
  - by destruct (objects s !! x).
  - destruct (objects s !! x), (objects s !! y); done || eauto.
  - destruct (objects s !! x), (objects s !! y); done || eauto.
  - destruct (objects s !! x); done || eauto.
Qed.

(** [C29] Task objects neither leak nor double-free coroutine frames.  After
    any sequence of calls, moves, move assignments (also onto itself) and
    destructions, the existing frames are exactly those held by the objects
    in scope, each by one object; the next operation on names in scope never
    destroys a frame that is gone; and when no object is left in scope no
    frame is left either. *)
Theorem task_objects_own_frames acts s :
  star step start acts s ->
  (forall h, h ∈ live s <-> exists x, objects s !! x = Some (Some h)) /\
  (forall x y h, objects s !! x = Some (Some h) -> objects s !! y = Some (Some h) -> x = y) /\
  (forall a, in_scope a s -> is_Some (act a s)) /\
  (objects s = ∅ -> live s = ∅).
Proof.
  intros Hs. assert (H : inv s).
  { eapply star_inv; [ | | exact Hs].
    - split; cbn; intros; set_solver.
    - intros t a t' Ht E. unfold step, steps_of in E. destruct (owner_act_inv t a Ht) as (t2 & E2 & H2); [|congruence].
      by eapply act_in_scope. }
  split_and!.
  - intros h. split; [apply (live_owned _ H) | intros [x Hx]; by eapply owned_live].
  - apply (one_owner _ H).
  - intros a Ha. destruct (owner_act_inv s a H Ha) as (s' & -> & _). eauto.
  - intros He. apply set_eq. intros h. split; [|set_solver]. intros Hh. destruct (live_owned _ H h Hh) as [x Hx].
    rewrite He in Hx. done.
Qed.

Lemma task_objects_own_frames_witness : exists s,
  star step start [Call 1; Call 2; MoveConstruct 3 1; MoveAssign 2 3; MoveAssign 2 2; Destruct 1; Destruct 3; Destruct 2] s /\ live s = ∅.
Proof.
  assert (Hs : exists s, star step start [Call 1; Call 2; MoveConstruct 3 1; MoveAssign 2 3; MoveAssign 2 2; Destruct 1; Destruct 3; Destruct 2] s /\ objects s = ∅).
  { eexists. split; [apply run_acts_star; vm_compute; reflexivity | reflexivity]. }
  destruct Hs as (s & Hs & He). exists s. split; [exact Hs|]. apply (task_objects_own_frames _ s Hs). exact He.
Defined.
End Owner.
