(* ===== verification/Control.v ===== *)
(** Control over coroutines.  What the transfers of [task.hpp] and
    [async_task.hpp] do until a coroutine waits for the outside ([advance]),
    and the program in which awaiting a task is calling it, with a stack of
    calls; the frames go step by step with that program. *)
From S2P Require Import Prelude Events Task.

(** * Until a coroutine waits *)

Section Advance.
Context {V : Type} {E : outside} {B : Type} `{!Code V E B}.
Implicit Types (fs : frames V E B) (b : B) (c : config V E B).

(** Where control is: back with the caller, and a coroutine waits for the
    outside or none that ran does; [Failed] where the machine has no step;
    [Still] in a coroutine that has not come to a pause yet. *)
Inductive pause : Type := Waits fs (h : handle) (q : question E) | Over fs | Failed | Still c.
(** At most [n] steps, with the calls of the outside. *)
Fixpoint advance (n : nat) c : list (function_call E) * pause :=
  match c with
  | (fs, Returned) => ([], Over fs)
  | (fs, Run h b) =>
    match n with
    | O => ([], Still c)
    | S n' =>
      match coroutine_step fs h b with
      | None => ([], Failed)
      | Some c' =>
        match code b with
        | CoSuspend q _ => ([], Waits c'.1 h q)
        | _ => let r := advance n' c' in (calls_of b ++ r.1, r.2)
        end
      end
    end
  end.

Lemma calls_of_suspend b q k : code b = CoSuspend q k -> calls_of b = [].
Proof. unfold calls_of. by intros ->. Qed.
(** It is the machine that advances. *)
Lemma advance_is_the_machine n : forall c, match (advance n c).2 with
  | Waits fs h q => msteps c (Called <$> (advance n c).1) (fs, Returned) /\ exists f k, fs !! h = Some f /\ stands f = Suspended q k
  | Over fs => msteps c (Called <$> (advance n c).1) (fs, Returned)
  | Failed => exists fs h b, msteps c (Called <$> (advance n c).1) (fs, Run h b) /\ coroutine_step fs h b = None
  | Still c' => msteps c (Called <$> (advance n c).1) c'
  end.
Proof.
  induction n as [|n IH]; intros [fs [h b|]]; cbn [advance fst snd]; try constructor.
  destruct (coroutine_step fs h b) as [c'|] eqn:Hs; [|exists fs, h, b; by split; [constructor|]].
  specialize (IH c'). pose proof (mstep_run fs h b c' Hs) as H1.
  assert (Hgo : forall d, msteps c' (Called <$> (advance n c').1) d -> msteps (fs, Run h b) (Called <$> (calls_of b ++ (advance n c').1)) d)
    by (intros d Hd; rewrite fmap_app; by eapply msteps_step).
  destruct (code b) as [v|e|t k|b0 k|q k|x b0] eqn:Hb; cbn [fst snd].
  5:{ pose proof (calls_of_suspend b q k Hb) as Hq. unfold coroutine_step in Hs. rewrite Hb in Hs. destruct (fs !! h) as [f|] eqn:Hf; [|done].
      injection Hs as <-. split; [eapply msteps_one; [by apply mstep_quiet; [|unfold coroutine_step; rewrite Hf, Hb] | constructor]|].
      eexists _, k. split; [apply lookup_insert_eq | done]. }
  all: destruct (advance n c').2 as [fs' h' q'|fs'| |c2]; [destruct IH as [I1 I2]; split; [by apply Hgo | exact I2] | by apply Hgo | | by apply Hgo];
    destruct IH as (fs' & h' & b' & I1 & I2); exists fs', h', b'; split; [by apply Hgo | exact I2].
Qed.
End Advance.
Arguments pause V E B : clear implicits.

(** * The program in which awaiting a task is calling it *)

Section Programs.
Context {V : Type} {E : outside} {B : Type} `{!Code V E B}.
#[local] Abbreviation tasks := (gmap handle (meaning V B)).
Implicit Types (fs : frames V E B) (st : tasks).

(** A program without coroutines: where it is, the named tasks that were not
    called yet or have a result, and the stack of calls, each with the task
    it called (none for a temporary) and where the caller goes on. *)
Record call_frame : Type := mk_call { callee : option handle; then_ : V + exn -> B }.
Record program : Type := mk_program { at_ : B; tasks_ : tasks; stack : list call_frame }.
(** It ends, with some tasks finished, or asks the outside and goes on with the
    answer.  [Wrong]: it awaits a task that cannot be awaited (there is none,
    or it is being called), or nobody catches an exception. *)
Inductive stop : Type := Ends (st : tasks) | Asks (q : question E) (go_on : answer E -> program) | Wrong | StillRuns (p : program).

(** [async_run] swallows what its body throws, the [oneway_task] of
    [async_scope::spawn] ends the process. *)
Context (swallows : bool).
Definition at_end (r : V + exn) (st : tasks) : stop :=
  match r with inl _ => Ends st | inr _ => if swallows then Ends st else Wrong end.
Definition return_to (r : V + exn) (st : tasks) (K : list call_frame) : program + stop :=
  match K with
  | [] => inr (at_end r st)
  | w :: K => inl (mk_program (then_ w r) (match callee w with Some h => <[h := Finished r]> st | None => st end) K)
  end.
Definition program_step (p : program) : program + stop :=
  let st := tasks_ p in
  match code (at_ p) with
  | CoReturn v => return_to (inl v) st (stack p)
  | CoThrow e => return_to (inr e) st (stack p)
  | CoAwait None k => inl (mk_program (k (inr broken_promise)) st (stack p))
  | CoAwait (Some h) k =>
    match st !! h with
    | Some (Finished r) => inl (mk_program (k r) st (stack p))
    | Some (Unstarted b0) => inl (mk_program b0 (delete h st) (mk_call (Some h) k :: stack p))
    | None => inr Wrong
    end
  | CoAwaitNew b0 k => inl (mk_program b0 st (mk_call None k :: stack p))
  | CoSuspend q k => inr (Asks q (fun a => mk_program (k a) st (stack p)))
  | CoCall x b => inl (mk_program b st (stack p))
  end.
(** At most [n] steps, up to the next question or the end. *)
Fixpoint until (n : nat) (p : program) : list (function_call E) * stop :=
  match n with
  | O => ([], StillRuns p)
  | S n' =>
    match program_step p with
    | inl p' => let r := until n' p' in (calls_of (at_ p) ++ r.1, r.2)
    | inr s => ([], s)
    end
  end.
(** It comes to [s], with the calls [xs]. *)
Definition comes_to (p : program) (xs : list (function_call E)) (s : stop) : Prop :=
  exists n, until n p = (xs, s) /\ match s with StillRuns _ => False | _ => True end.
Lemma until_more n : forall m p xs s, until n p = (xs, s) -> match s with StillRuns _ => False | _ => True end -> (n <= m)%nat -> until m p = (xs, s).
Proof.
  induction n as [|n IH]; intros m p xs s E0 Hs Hm; [by injection E0 as <- <-|]. destruct m as [|m]; [lia|]. cbn [until] in *.
  destruct (program_step p) as [p'|s']; [|done]. destruct (until n p') as [ys s'] eqn:E1. cbn in E0. injection E0 as <- <-.
  by rewrite (IH m p' ys s' E1 Hs ltac:(lia)).
Qed.
Lemma comes_to_unique p xs s xs' s' : comes_to p xs s -> comes_to p xs' s' -> xs = xs' /\ s = s'.
Proof.
  intros (n & E1 & H1) (m & E2 & H2). apply (until_more n (n + m)) in E1; [|done|lia]. apply (until_more m (n + m)) in E2; [|done|lia].
  rewrite E1 in E2. by injection E2.
Qed.

(** [evals] of [Task], the direct-style meaning as a relation, is what these
    programs do. *)
Inductive follows : program -> list (dealing (E := E)) -> program -> Prop :=
| follows_refl p : follows p [] p
| follows_step p p' ds p'' : program_step p = inl p' -> follows p' ds p'' -> follows p ((Called <$> calls_of (at_ p)) ++ ds) p''
| follows_ask p q f a ds p' : program_step p = inr (Asks q f) -> follows (f a) ds p' -> follows p (Answered q a :: ds) p'.
Lemma follows_trans p ds p' ds' p'' : follows p ds p' -> follows p' ds' p'' -> follows p (ds ++ ds') p''.
Proof. induction 1; intros; [done | rewrite <- app_assoc; econstructor; eauto | econstructor; eauto]. Qed.
Lemma follows_quiet p p' ds p'' : calls_of (at_ p) = [] -> program_step p = inl p' -> follows p' ds p'' -> follows p ds p''.
Proof. intros Hc Hp H. pose proof (follows_step p p' ds p'' Hp H) as H1. by rewrite Hc in H1. Qed.
Lemma ends_step b r st K : ends b r -> program_step (mk_program b st K) = return_to r st K.
Proof. unfold ends, program_step. cbn. intros ->. by destruct r. Qed.
Theorem evals_program st b ds r st' : evals st b ds r st' ->
  forall K, exists b', ends b' r /\ follows (mk_program b st K) ds (mk_program b' st' K).
Proof.
  induction 1 as [st b r Hb|st b q k v vs r st' Hb _ IH|st b x b' vs r st' Hb _ IH|st b k vs r st' Hb _ IH|st b h k r0 vs r st' Hb Hh _ IH
    |st b h b0 k vs0 r0 st0 vs r st' Hb Hh _ IH0 _ _ IH|st b b0 k vs0 r0 st0 vs r st' Hb _ IH0 _ IH]; intros K.
  all: assert (Hq : match code b with CoCall _ _ => True | _ => calls_of b = [] end) by (unfold calls_of; by destruct (code b)).
  - exists b. split; [done | constructor].
  - destruct (IH K) as (b1 & He & Hf). exists b1. split; [done|]. eapply follows_ask; [unfold program_step; cbn; by rewrite Hb | exact Hf].
  - destruct (IH K) as (b1 & He & Hf). exists b1. split; [done|].
    assert (H1 : follows (mk_program b st K) ((Called <$> calls_of b) ++ vs) (mk_program b1 st' K))
      by (eapply follows_step; [unfold program_step; cbn; by rewrite Hb | exact Hf]). unfold calls_of in H1. by rewrite Hb in H1.
  - rewrite Hb in Hq. destruct (IH K) as (b1 & He & Hf). exists b1. split; [done|].
    eapply follows_quiet; [done | unfold program_step; cbn; by rewrite Hb | exact Hf].
  - rewrite Hb in Hq. destruct (IH K) as (b1 & He & Hf). exists b1. split; [done|].
    eapply follows_quiet; [done | unfold program_step; cbn; by rewrite Hb, Hh | exact Hf].
  - rewrite Hb in Hq. destruct (IH0 (mk_call (Some h) k :: K)) as (b2 & He2 & Hf2), (IH K) as (b1 & He & Hf). exists b1. split; [done|].
    eapply follows_quiet; [done | unfold program_step; cbn; by rewrite Hb, Hh |]. eapply follows_trans; [exact Hf2|].
    eapply follows_quiet; [by eapply calls_of_ends | by rewrite (ends_step _ _ _ _ He2) | exact Hf].
  - rewrite Hb in Hq. destruct (IH0 (mk_call None k :: K)) as (b2 & He2 & Hf2), (IH K) as (b1 & He & Hf). exists b1. split; [done|].
    eapply follows_quiet; [done | unfold program_step; cbn; by rewrite Hb |]. eapply follows_trans; [exact Hf2|].
    eapply follows_quiet; [by eapply calls_of_ends | by rewrite (ends_step _ _ _ _ He2) | exact Hf].
Qed.

(** ** The machine does what the program does *)

(** Who waits for whom: [child] was awaited with [next] to go on, down to the
    root. *)
Record waiting : Type := mk_waiting { child : handle; next : V + exn -> B; temporary : bool }.
Definition call_of (w : waiting) : call_frame := mk_call (if temporary w then None else Some (child w)) (next w).
Definition root_kind : kind := if swallows then fire_and_forget else oneway_task.
Inductive chain fs (root : handle) : handle -> list waiting -> Prop :=
| chain_root f : fs !! root = Some f -> the_kind f = root_kind -> chain fs root root []
| chain_cons c h k tmp K fc fh : fs !! c = Some fc -> the_kind fc = lazy_task -> who_await_me_ fc = Some h ->
    fs !! h = Some fh -> stands fh = Awaiting c k tmp -> chain fs root h K -> chain fs root c (mk_waiting c k tmp :: K).
Definition active (root : handle) (K : list waiting) : list handle := (child <$> K) ++ [root].
(** The running coroutine of [c] and all that wait for it are where [p] is. *)
Definition does (root : handle) (c : config V E B) (p : program) : Prop :=
  exists fs h b st K, c = (fs, Run h b) /\ agrees st fs /\ chain fs root h K /\ NoDup (active root K) /\
    (forall g, g ∈ active root K -> st !! g = None) /\ p = mk_program b st (call_of <$> K).

Lemma chain_head fs root h K : chain fs root h K -> exists K', active root K = h :: K'.
Proof. destruct 1; by eexists. Qed.
Lemma chain_tail fs fs' root h K : chain fs root h K -> (forall g, g ∈ active root K -> fs' !! g = fs !! g) -> chain fs' root h K.
Proof.
  induction 1 as [f Hf Hk|c h k tmp K fc fh Hc Hkc Hw Hh Hs Hch IH]; intros Heq.
  - econstructor; [|done]. rewrite Heq; [done | by left].
  - destruct (chain_head _ _ _ _ Hch) as [K' EK]. eapply chain_cons; [| done | done | | exact Hs |].
    + rewrite Heq; [done | by left].
    + rewrite Heq; [done|]. right. change (h ∈ active root K). rewrite EK. by left.
    + apply IH. intros g Hg. apply Heq. by right.
Qed.
(** Only the top of the chain changes, and neither its kind nor who awaits
    it. *)
Lemma chain_top fs fs' root h K f f' : chain fs root h K -> NoDup (active root K) -> fs !! h = Some f -> fs' !! h = Some f' ->
  the_kind f' = the_kind f -> who_await_me_ f' = who_await_me_ f -> (forall g, g ∈ active root K -> g <> h -> fs' !! g = fs !! g) ->
  chain fs' root h K.
Proof.
  intros Hch Hnd Hf Hf' Hk Hw Heq. destruct Hch as [f0 Hf0 Hk0|c h k tmp K fc fh Hc Hkc Hwc Hh Hs Hch].
  - simplify_eq. econstructor; [done | by rewrite Hk].
  - simplify_eq. cbn in Hnd. apply NoDup_cons in Hnd as [Hn Hnd]. change (c ∉ active root K) in Hn. destruct (chain_head _ _ _ _ Hch) as [K' EK].
    assert (Hne : forall g, g ∈ active root K -> g <> c) by (intros g Hg ->; done).
    assert (Hr : forall g, g ∈ active root K -> fs' !! g = fs !! g) by (intros g Hg; apply Heq; [by right | by apply Hne]).
    eapply chain_cons; [done | by rewrite Hk | by rewrite Hw | | exact Hs | by eapply chain_tail].
    rewrite Hr; [done|]. rewrite EK. by left.
Qed.
Lemma chain_active fs root h K g : chain fs root h K -> g ∈ active root K -> exists f, fs !! g = Some f.
Proof.
  induction 1 as [f Hf Hk|c h k tmp K fc fh Hc Hkc Hw Hh Hs Hch IH].
  - intros ->%list_elem_of_singleton. by exists f.
  - intros [->|Hg]%elem_of_cons; [by exists fc | by apply IH].
Qed.
Lemma chain_frame fs root h K : chain fs root h K -> exists f, fs !! h = Some f.
Proof. destruct 1; by eexists. Qed.

(** A coroutine that ends: the root, or one that was awaited. *)
Lemma root_ends fs root b r st : ends b r -> agrees st fs -> chain fs root root [] -> st !! root = None -> at_end r st <> Wrong ->
  exists fs', coroutine_step fs root b = Some (fs', Returned) /\ at_end r st = Ends st /\ agrees st fs' /\ fs' !! root = None.
Proof.
  intros Hb Ha Hch Hr Hw. inversion Hch as [f Hf Hk|]; subst. destruct f as [kd s0 m0 w0]. cbn in Hk. subst kd. unfold coroutine_step.
  rewrite Hf, Hb. cbn [mbind option_bind].
  assert (Hd : forall f', agrees st (delete root (<[root := f']> fs)) /\ delete root (<[root := f']> fs) !! root = None).
  { intros f'. split; [|apply lookup_delete_eq]. intros g m Hg. assert (root <> g) by congruence.
    rewrite lookup_delete_ne, lookup_insert_ne by done. by apply Ha. }
  unfold root_kind in *. destruct r as [v|e]; unfold at_end in *.
  - destruct swallows; (eexists; split; [reflexivity | split; [done | apply Hd]]).
  - destruct swallows; [|done]. cbn. eexists. split; [reflexivity | split; [done | apply Hd]].
Qed.
Lemma task_ends fs root h b r st w K : ends b r -> agrees st fs -> chain fs root h (w :: K) -> NoDup (active root (w :: K)) ->
  (forall g, g ∈ active root (w :: K) -> st !! g = None) ->
  exists c' p', coroutine_step fs h b = Some c' /\ return_to r st (call_of <$> w :: K) = inl p' /\ does root c' p'.
Proof.
  intros Hb Ha Hch Hnd Hact. inversion Hch as [|c h' k tmp K' fc fh Hc Hkc Hw Hh Hs Hch']; subst. cbn in Hnd. apply NoDup_cons in Hnd as [Hn Hnd].
  change (h ∉ active root K) in Hn. destruct (chain_head _ _ _ _ Hch') as [K1 EK].
  assert (Hne : h <> h') by (intros ->; apply Hn; rewrite EK; by left).
  assert (Hst : st !! h = None) by (apply Hact; by left).
  destruct (finish_transfers fs b h h' fc fh k tmp r Hb Hc Hh Hne Hkc Hw Hs) as (fc' & E1 & Hk' & Hs' & Hr').
  eexists _, _. split; [exact E1|]. split; [reflexivity|].
  assert (Hno : forall g, g ∈ active root K -> (if tmp then st else <[h := Finished r]> st) !! g = None).
  { intros g Hg. destruct tmp; [apply Hact; by right|]. rewrite lookup_insert_ne by (intros ->; done). apply Hact. by right. }
  eexists _, h', _, (if tmp then st else <[h := Finished r]> st), K. split; [reflexivity|]. split_and!; [| | done | done | by destruct tmp].
  - apply agrees_other; [|apply Hno; rewrite EK; by left].
    destruct tmp; [apply agrees_destroy; [by apply agrees_other | done] | by apply agrees_finished].
  - eapply (chain_top fs); [done | done | exact Hh | apply lookup_insert_eq | done | done |].
    intros g Hg Hgn. rewrite lookup_insert_ne by done.
    destruct tmp; [rewrite lookup_delete_ne by (intros ->; done)|]; by rewrite lookup_insert_ne by (intros ->; done).
Qed.

(** A transfer to a task: one that is awaited by name for the first time, or a
    temporary. *)
Lemma call_does fs root h f b st K c k b0 : code b = CoAwait (Some c) k -> fs !! h = Some f -> agrees st fs -> chain fs root h K ->
  NoDup (active root K) -> (forall g, g ∈ active root K -> st !! g = None) -> st !! h = None -> st !! c = Some (Unstarted b0) ->
  exists c', coroutine_step fs h b = Some c' /\ does root c' (mk_program b0 (delete c st) (mk_call (Some c) k :: (call_of <$> K))).
Proof.
  intros Hb Hf Ha Hch Hnd Hact Hh Hc. destruct (Ha c _ Hc) as (fc & Efc & Hkc & Hi & _).
  assert (Hne : c <> h) by congruence. eexists. split; [by eapply call_step|].
  eexists _, c, b0, (delete c st), (mk_waiting c k false :: K). split; [reflexivity|].
  assert (Hcn : c ∉ active root K) by (intros Hin; specialize (Hact c Hin); congruence).
  split_and!; [| | by apply NoDup_cons | | done].
  - apply agrees_other; [|apply lookup_delete_eq]. apply agrees_other; [|apply lookup_delete_eq].
    apply agrees_other; [by apply agrees_delete | by rewrite lookup_delete_ne].
  - eapply chain_cons; [apply lookup_insert_eq | done | done | by rewrite !lookup_insert_ne, lookup_insert_eq by done | done |].
    eapply (chain_top fs); [done | done | exact Hf | by rewrite !lookup_insert_ne, lookup_insert_eq by done | done | done |].
    intros g Hg Hgn. by rewrite !lookup_insert_ne by (intros ->; done).
  - intros g [->|Hg]%elem_of_cons; [apply lookup_delete_eq | apply lookup_delete_None; right; by apply Hact].
Qed.
Lemma new_does fs root h f b0 st K k b : code b0 = CoAwaitNew b k -> fs !! h = Some f -> agrees st fs -> chain fs root h K ->
  NoDup (active root K) -> (forall g, g ∈ active root K -> st !! g = None) -> st !! h = None ->
  exists c', coroutine_step fs h b0 = Some c' /\ does root c' (mk_program b st (mk_call None k :: (call_of <$> K))).
Proof.
  intros Hb Hf Ha Hch Hnd Hact Hh. destruct (fresh_handle st fs Ha) as [Hfc Hc]. remember (fresh (dom fs)) as c eqn:Ec.
  assert (Hne : c <> h) by congruence. eexists. split; [by eapply new_step|].
  eexists _, c, b, st, (mk_waiting c k true :: K). split; [reflexivity|].
  assert (Hcn : c ∉ active root K) by (intros Hin; destruct (chain_active _ _ _ _ c Hch Hin); congruence).
  split_and!; [by repeat apply agrees_other | | by apply NoDup_cons | | done].
  - eapply chain_cons; [apply lookup_insert_eq | done | done | by rewrite !lookup_insert_ne, lookup_insert_eq by done | done |].
    eapply (chain_top fs); [done | done | exact Hf | by rewrite !lookup_insert_ne, lookup_insert_eq by done | done | done |].
    intros g Hg Hgn. by rewrite !lookup_insert_ne by (intros ->; done).
  - intros g [->|Hg]%elem_of_cons; [done | by apply Hact].
Qed.

(** One step of the running coroutine is one step of the program. *)
Definition ended (root : handle) (st : tasks) (c : config V E B) : Prop := exists fs, c = (fs, Returned) /\ agrees st fs /\ fs !! root = None.
Definition asks_like (root : handle) fs (h : handle) (q : question E) (go_on : answer E -> program) : Prop :=
  forall a, exists c', complete fs h a = Some (q, c') /\ does root c' (go_on a).
Lemma does_step root fs h b p : does root (fs, Run h b) p -> match program_step p with
  | inl p' => exists c', coroutine_step fs h b = Some c' /\ does root c' p' /\ calls_of b = calls_of (at_ p) /\
      match code b with CoSuspend _ _ => False | _ => True end
  | inr (Ends st) => exists c', coroutine_step fs h b = Some c' /\ ended root st c' /\ calls_of b = [] /\
      match code b with CoSuspend _ _ => False | _ => True end
  | inr (Asks q go_on) => exists fs' k, coroutine_step fs h b = Some (fs', Returned) /\ code b = CoSuspend q k /\ asks_like root fs' h q go_on
  | inr Wrong => True
  | inr (StillRuns _) => False
  end.
Proof.
  intros (fs0 & h0 & b0 & st & K & Ec & Ha & Hch & Hnd & Hact & ->). injection Ec as <- <- <-.
  destruct (chain_head _ _ _ _ Hch) as [K1 EK]. destruct (chain_frame _ _ _ _ Hch) as [f Hf].
  assert (Hh : st !! h = None) by (apply Hact; rewrite EK; by left).
  assert (Hgo : forall b' c', c' = (fs, Run h b') -> does root c' (mk_program b' st (call_of <$> K))) by (intros b' c' ->; by exists fs, h, b', st, K).
  assert (Hend : forall r, ends b r -> match return_to r st (call_of <$> K) with
    | inl p' => exists c', coroutine_step fs h b = Some c' /\ does root c' p'
    | inr (Ends st) => exists c', coroutine_step fs h b = Some c' /\ ended root st c'
    | inr Wrong => True | _ => False end).
  { intros r Hr. destruct K as [|w K].
    - inversion Hch; subst. cbn. assert (Hw : at_end r st = Wrong \/ at_end r st <> Wrong) by (unfold at_end; destruct r, swallows; auto).
      destruct Hw as [->|Hw]; [done|]. destruct (root_ends fs h b r st Hr Ha Hch Hh Hw) as (fs' & E1 & -> & A1 & A2).
      eexists. split; [exact E1|]. by exists fs'.
    - destruct (task_ends fs root h b r st w K Hr Ha Hch Hnd Hact) as (c' & p' & E1 & -> & A1). by exists c'. }
  unfold program_step. cbn [at_ tasks_ stack]. unfold calls_of. destruct (code b) as [v|e|t k|b1 k|q k|x b1] eqn:Hb.
  - specialize (Hend (inl v) Hb). destruct (return_to _ _ _) as [p'|[| | |]]; try done; destruct Hend as (c' & E1 & H); by exists c'.
  - specialize (Hend (inr e) Hb). destruct (return_to _ _ _) as [p'|[| | |]]; try done; destruct Hend as (c' & E1 & H); by exists c'.
  - destruct t as [c|]; [destruct (st !! c) as [[b0|r]|] eqn:Hc; [| |done]|].
    + destruct (call_does fs root h f b st K c k b0 Hb Hf Ha Hch Hnd Hact Hh Hc) as (c' & E1 & Hd). by exists c'.
    + exists (fs, Run h (k r)). split_and!; [by eapply ready_step | by apply Hgo | done | done].
    + exists (fs, Run h (k (inr broken_promise))). split_and!; [unfold coroutine_step; by rewrite Hf, Hb | by apply Hgo | done | done].
  - destruct (new_does fs root h f b st K k b1 Hb Hf Ha Hch Hnd Hact Hh) as (c' & E1 & Hd). by exists c'.
  - eexists _, k. split; [unfold coroutine_step; rewrite Hf, Hb; reflexivity|]. split; [done|].
    intros a. unfold complete. rewrite lookup_insert_eq. cbn [mbind option_bind set_status stands]. eexists. split; [reflexivity|].
    eexists _, h, (k a), st, K. split; [reflexivity|]. split_and!; [| | done | done | done].
    + apply agrees_other; [by apply agrees_other | done].
    + eapply (chain_top fs); [done | done | exact Hf | apply lookup_insert_eq | done | done |].
      intros g Hg Hgn. by rewrite !lookup_insert_ne by (intros ->; done).
  - exists (fs, Run h b1). split_and!; [unfold coroutine_step; by rewrite Hf, Hb | by apply Hgo | done | done].
Qed.

(** After as many steps the machine has made the calls of the program, and it
    has paused where the program asks or ends, or runs where it runs. *)
Definition pauses_like (root : handle) (s : stop) (x : pause V E B) : Prop :=
  match s with
  | Ends st => exists fs, x = Over fs /\ agrees st fs /\ fs !! root = None
  | Asks q go_on => exists fs h, x = Waits fs h q /\ asks_like root fs h q go_on
  | StillRuns p => exists c, x = Still c /\ does root c p
  | Wrong => False
  end.
Lemma advance_does root n : forall c p, does root c p -> (until n p).2 = Wrong \/
  ((advance n c).1 = (until n p).1 /\ pauses_like root (until n p).2 (advance n c).2).
Proof.
  induction n as [|n IH]; intros c p Hd; pose proof Hd as (fs & h & b & st & K & -> & _).
  - right. cbn. split; [done|]. by eexists.
  - pose proof (does_step root fs h b p Hd) as Hs. cbn [until advance]. destruct (program_step p) as [p'|[st'|q g| |p']]; [ | | |by left|done].
    + destruct Hs as (c' & E1 & Hd' & Hc & Hb). rewrite E1. cbn [fst snd]. rewrite <- Hc.
      destruct (IH c' p' Hd') as [Hw|[I1 I2]]; [by left|]. right. rewrite <- I1. by destruct (code b).
    + destruct Hs as (c' & E1 & (fs' & -> & Ha & Hr) & Hc & Hb). right. rewrite E1. cbn [fst snd]. rewrite Hc.
      assert (E2 : advance n (fs', @Returned B) = ([], Over fs')) by (by destruct n). rewrite E2. destruct (code b); try done; (split; [done|]); by exists fs'.
    + destruct Hs as (fs' & k & E1 & Hb & Hg). right. rewrite E1, Hb. split; [done|]. by exists fs', h.
Qed.

(** The start: a root coroutine over tasks that were not called yet. *)
Definition start_root (root : handle) (b : B) (fs : frames V E B) : config V E B :=
  (<[root := mk_frame root_kind Running empty None]> fs, Run root b).
Lemma start_does st fs root b : agrees st fs -> st !! root = None -> does root (start_root root b fs) (mk_program b st []).
Proof.
  intros Ha Hr. eexists _, root, b, st, []. split; [reflexivity|]. split_and!; [by apply agrees_other | | apply NoDup_singleton | | done].
  - econstructor; [apply lookup_insert_eq | done].
  - by intros g ->%list_elem_of_singleton.
Qed.

(** Answers from outside, the program's and the machine's: what each called
    and asked before each answer, and where it is then. *)
Inductive talks : program -> list (answer E) -> list (list (function_call E) * question E) -> program -> Prop :=
| talks_nil p : talks p [] [] p
| talks_more p xs q go_on a answers log p' : comes_to p xs (Asks q go_on) -> talks (go_on a) answers log p' -> talks p (a :: answers) ((xs, q) :: log) p'.
Inductive machine_talks : config V E B -> list (answer E) -> list (list (function_call E) * question E) -> config V E B -> Prop :=
| machine_nil c : machine_talks c [] [] c
| machine_more c n xs fs h q a c1 answers log c' : advance n c = (xs, Waits fs h q) -> complete fs h a = Some (q, c1) ->
    machine_talks c1 answers log c' -> machine_talks c (a :: answers) ((xs, q) :: log) c'.
Lemma comes_to_does root c p xs s : does root c p -> comes_to p xs s -> s <> Wrong -> exists n x, advance n c = (xs, x) /\ pauses_like root s x.
Proof.
  intros Hd (n & Hn & _) Hw. exists n. destruct (advance_does root n c p Hd) as [H|[H1 H2]]; rewrite Hn in *; [done|].
  destruct (advance n c) as [ys x]. cbn in H1. subst ys. by exists x.
Qed.
Lemma talks_does root p answers log p' : talks p answers log p' -> forall c, does root c p -> exists c', machine_talks c answers log c' /\ does root c' p'.
Proof.
  induction 1 as [p|p xs q g a answers log p' Hc _ IH]; intros c Hd; [exists c; by split; [constructor|]|].
  destruct (comes_to_does root c p xs _ Hd Hc ltac:(done)) as (n & x & E1 & fs & h & -> & Hg). destruct (Hg a) as (c1 & E2 & Hd1).
  destruct (IH c1 Hd1) as (c' & Ht & Hd'). exists c'. split; [by econstructor | done].
Qed.

(** [C8] Symmetric transfer gives control back exactly where the program waits.
    Take any coroutine bodies (they may loop and call each other, for ever
    too), a coroutine that [async_scope::spawn] or [async_run] starts, the
    named tasks that it may await, and any answers from outside.  After them
    the frames are where the program is in which each [co_await] of a task is
    a call: the questions and the calls of the outside were the same, and
    from there the frames take step for step as long as the program.  When
    the program has come to its next question, the transfers have ended, with
    the question of that very coroutine; when it has ended, every coroutine
    of the chain has been resumed and has ended, its frame or its result is
    what the program says, and control is back with the caller; when it still
    runs after [n] steps, so does the machine, in no more and no less. *)
Theorem control_returns st fs root b answers log p : agrees st fs -> st !! root = None ->
  talks (mk_program b st []) answers log p ->
  exists c, machine_talks (start_root root b fs) answers log c /\
    forall n, (until n p).2 <> Wrong -> (advance n c).1 = (until n p).1 /\
      match (until n p).2 with
      | Ends st' => exists fs', (advance n c).2 = Over fs' /\ agrees st' fs' /\ fs' !! root = None
      | Asks q _ => exists fs' h f k, (advance n c).2 = Waits fs' h q /\ fs' !! h = Some f /\ stands f = Suspended q k
      | StillRuns _ => exists c', (advance n c).2 = Still c'
      | Wrong => False
      end.
Proof.
  intros Ha Hr Ht. destruct (talks_does root _ _ _ _ Ht _ (start_does st fs root b Ha Hr)) as (c & Hm & Hd). exists c. split; [done|].
  intros n Hw. destruct (advance_does root n c p Hd) as [H|[H1 H2]]; [done|]. split; [done|].
  pose proof (advance_is_the_machine n c) as Hx. destruct (until n p).2 as [st'|q g| |p'].
  - destruct H2 as (fs' & E1 & H2). by exists fs'.
  - destruct H2 as (fs' & h & E1 & _). rewrite E1 in Hx. destruct Hx as (_ & f & k & Hf & Hst). by exists fs', h, f, k.
  - done.
  - destruct H2 as (c' & E1 & _). by exists c'.
Qed.
End Programs.
Arguments call_frame V B : clear implicits.
Arguments program V B : clear implicits.
Arguments stop V E B : clear implicits.
Arguments waiting V B : clear implicits.

(** A coroutine that adds up numbers until it hears 0, each from a task of its
    own. *)
Inductive adder : Type := Adds (sum : Z) | Listens | Heard (v : Z) | HasHeard (sum : Z) (r : Z + exn).
#[local] Instance adder_code : Code Z numbers adder := fun b =>
  match b with
  | Adds sum => CoAwaitNew Listens (HasHeard sum)
  | Listens => CoSuspend (E := numbers) tt Heard
  | Heard v => CoReturn v
  | HasHeard sum (inl v) => if v =? 0 then CoReturn sum else CoAwaitNew Listens (HasHeard (sum + v))
  | HasHeard sum (inr e) => CoThrow e
  end.
Lemma control_returns_witness : exists c fs h f k, machine_talks (start_root true 0%nat (Adds 0) (∅ : frames Z numbers adder)) [7; 5] [([], tt); ([], tt)] c /\
  (advance 9 c).2 = Waits (E := numbers) fs h tt /\ fs !! h = Some f /\ stands f = Suspended (E := numbers) tt k.
Proof.
  destruct (control_returns (E := numbers) (B := adder) true ∅ ∅ 0%nat (Adds 0) [7; 5] [([], tt); ([], tt)]
    (mk_program (Heard 5) ∅ [mk_call None (HasHeard 7)])) as (c & Hm & H).
  - intros h m Hm. discriminate Hm.
  - reflexivity.
  - eapply (talks_more (E := numbers) true); [exists 9%nat; split; [reflexivity | done]|]. eapply (talks_more (E := numbers) true); [exists 9%nat; split; [reflexivity | done]|]. constructor.
  - destruct (H 9%nat ltac:(done)) as (_ & fs & h & f & k & E1 & E2 & E3). by exists c, fs, h, f, k.
Defined.
