(* ===== verification/IoUring.v ===== *)
(** The io_uring wrapper: [detail/io/io_uring_context.hpp] (class
    [io_uring_context]), [detail/io/io_awaitable.hpp] (the token a completion
    resumes) and the error conversion of [detail/io_utils.hpp].  liburing and
    the kernel are not part of the sources: they are the parameters of the
    class [Liburing], with their documented behaviour as laws. *)
From S2P Require Import Prelude Events.

(** * Submission queue entries *)

(** What the [io_uring_prep_*] helpers are asked for; pointers and paths are
    addresses. *)
Inductive request : Type :=
| Cancel (user_data flags : Z)
| Readv (fd iovecs nr_vecs offset : Z)
| Writev (fd iovecs nr_vecs offset : Z)
| Read (fd buf nbytes offset : Z)
| Write (fd buf nbytes offset : Z)
| ReadFixed (fd buf nbytes offset buf_index : Z)
| WriteFixed (fd buf nbytes offset buf_index : Z)
| Fsync (fd fsync_flags : Z)
| Recvmsg (sockfd msg flags : Z)
| Sendmsg (sockfd msg flags : Z)
| Recv (sockfd buf nbytes flags : Z)
| Send (sockfd buf nbytes flags : Z)
| PollAdd (fd poll_mask : Z)
| Nop
| Accept (fd addr addrlen flags : Z)
| Connect (fd addr addrlen : Z)
| Timeout (ts count flags : Z)
| Openat (dfd path flags mode : Z)
| Close (fd : Z)
| Statx (dfd path flags mask statxbuf : Z)
| Splice (fd_in off_in fd_out off_out nbytes flags : Z)
| Tee (fd_in fd_out nbytes flags : Z)
| Shutdown (fd how : Z)
| Renameat (olddfd oldpath newdfd newpath flags : Z)
| Mkdirat (dirfd pathname mode : Z)
| Symlinkat (target newdirfd linkpath : Z)
| Linkat (olddirfd oldpath newdirfd newpath flags : Z)
| Unlinkat (dfd path flags : Z)
| ProvideBuffers (addr len_buffer how_many group_id first_bid : Z)
| LinkTimeout (ts flags : Z)
| SyncFileRange (fd nbytes offset : Z).

(** A slot of the queue: the prepared request, the [IOSQE_*] flags, the
    [user_data], and the two union members the wrapper writes itself. *)
Record sqe : Type := mk_sqe {
  s_request : option request; s_flags : Z; s_data : Z; s_buf_group : Z; s_sync_range_flags : Z }.
Definition with_flags (z : Z) (s : sqe) : sqe := mk_sqe (s_request s) z (s_data s) (s_buf_group s) (s_sync_range_flags s).
Definition with_data (z : Z) (s : sqe) : sqe := mk_sqe (s_request s) (s_flags s) z (s_buf_group s) (s_sync_range_flags s).
Definition with_buf_group (z : Z) (s : sqe) : sqe := mk_sqe (s_request s) (s_flags s) (s_data s) z (s_sync_range_flags s).
Definition with_sync_range_flags (z : Z) (s : sqe) : sqe := mk_sqe (s_request s) (s_flags s) (s_data s) (s_buf_group s) z.

(** * liburing *)

(** The operations the wrapper calls on the ring, and what can be observed of
    it: the slots handed out and not submitted, what was submitted, and how
    far the completion queue was advanced.  ([R] stands for the ring and the
    kernel behind it, so what a call does may depend on more than the queues.)
    [spin_rounds] is no call: it is how often the model goes round the
    wrapper's endless loop. *)
Class Liburing (R : Type) := {
  io_uring_get_sqe : R -> option nat * R;
  sqe_of : R -> nat -> sqe;
  sqe_write : nat -> sqe -> R -> R;
  io_uring_prep : request -> sqe -> sqe;
  io_uring_submit : R -> R;
  io_uring_sqring_wait : R -> R;
  io_uring_cq_advance : Z -> R -> R;
  queued : R -> list nat;
  submitted : R -> list sqe;
  advanced : R -> Z;
  spin_rounds : R -> nat
}.

(** The first [k] entries of the queue go to the kernel. *)
Definition takes {R} `{!Liburing R} (k : nat) (r r' : R) : Prop :=
  queued r' = drop k (queued r) /\ submitted r' = submitted r ++ (sqe_of r <$> take k (queued r)) /\ advanced r' = advanced r /\
  forall j, sqe_of r' j = sqe_of r j.

(** Their documented behaviour.  [io_uring_prep_*] records the request and says
    nothing about [user_data].  [io_uring_submit] hands entries to the kernel
    in order, as many as it takes: none when it fails ([-EAGAIN], [-EBUSY]).
    So does [io_uring_sqring_wait], when a thread of the kernel polls the
    queue. *)
Class LiburingLaws (R : Type) `{Liburing R} := {
  prep_request : forall q s, s_request (io_uring_prep q s) = Some q;
  get_sqe_some : forall r i r', io_uring_get_sqe r = (Some i, r') ->
    (i ∉ queued r) /\ queued r' = queued r ++ [i] /\ submitted r' = submitted r /\ advanced r' = advanced r /\
    forall j, sqe_of r' j = sqe_of r j;
  get_sqe_none : forall r r', io_uring_get_sqe r = (None, r') -> r' = r;
  sqe_of_write : forall i s r j, sqe_of (sqe_write i s r) j = if decide (i = j) then s else sqe_of r j;
  write_frame : forall i s r, queued (sqe_write i s r) = queued r /\ submitted (sqe_write i s r) = submitted r /\
    advanced (sqe_write i s r) = advanced r;
  submit_takes : forall r, exists k, takes k r (io_uring_submit r);
  wait_takes : forall r, exists k, takes k r (io_uring_sqring_wait r);
  advance_frame : forall n r, queued (io_uring_cq_advance n r) = queued r /\
    submitted (io_uring_cq_advance n r) = submitted r /\ advanced (io_uring_cq_advance n r) = advanced r + n /\
    forall j, sqe_of (io_uring_cq_advance n r) j = sqe_of r j
}.

(** * [io_uring_context] *)

Section Context_.
Context {R : Type} `{!Liburing R}.

Record io_uring_context : Type := mk_ctx { ring : R; cqe_count : Z }.
Definition on_ring (f : R -> R) (c : io_uring_context) : io_uring_context := mk_ctx (f (ring c)) (cqe_count c).

(** A member that hands out a slot; [None] is a member that has not come out of
    the loop of the slow path. *)
Definition Op (A : Type) : Type := io_uring_context -> option (A * io_uring_context).
Definition op_bind {A B} (m : Op A) (k : A -> Op B) : Op B := fun c => r ← m c; k r.1 r.2.
#[local] Notation "'let*' x := m 'in' k" := (op_bind m (fun x => k)) (at level 10, x pattern, m at level 100, k at level 200).
Definition op_ret {A} (a : A) : Op A := fun c => Some (a, c).
Definition op_do (f : R -> R) : Op unit := fun c => Some (tt, on_ring f c).

(** [io_uring_get_sqe_safe()]: the loop of the slow path. *)
Fixpoint get_sqe_spin (fuel : nat) : Op nat := fun c =>
  match fuel with
  | O => None
  | S fuel' =>
    let r1 := io_uring_cq_advance (cqe_count c) (ring c) in
    let r2 := io_uring_sqring_wait (io_uring_submit r1) in
    match io_uring_get_sqe r2 with
    | (Some i, r3) => Some (i, mk_ctx r3 0)
    | (None, r3) => get_sqe_spin fuel' (mk_ctx r3 0)
    end
  end.
Definition io_uring_get_sqe_safe : Op nat := fun c =>
  match io_uring_get_sqe (ring c) with
  | (Some i, r) => Some (i, mk_ctx r (cqe_count c))
  | (None, r) => get_sqe_spin (spin_rounds r) (mk_ctx r (cqe_count c))
  end.

Definition io_uring_sqe_set_flags (i : nat) (flags : Z) : Op unit :=
  op_do (fun r => sqe_write i (with_flags flags (sqe_of r i)) r).
Definition io_uring_sqe_set_data (i : nat) (data : Z) : Op unit :=
  op_do (fun r => sqe_write i (with_data data (sqe_of r i)) r).
Definition prep (q : request) (i : nat) : Op unit :=
  op_do (fun r => sqe_write i (io_uring_prep q (sqe_of r i)) r).

(** [make_awaitable]: the flags, then the constructor of [io_awaitable_base]
    detaches the entry.  An awaitable is its slot. *)
Definition new_io_awaitable (i : nat) : Op nat := let* _ := io_uring_sqe_set_data i 0 in op_ret i.
Definition make_awaitable (i : nat) (iflags : Z) : Op nat :=
  let* _ := io_uring_sqe_set_flags i iflags in new_io_awaitable i.
(** The body all the operations share. *)
Definition operation (q : request) (iflags : Z) : Op nat :=
  let* i := io_uring_get_sqe_safe in
  let* _ := prep q i in
  make_awaitable i iflags.

(** ** The operations *)
Definition cancel (key flags iflags : Z) : Op nat := operation (Cancel key flags) iflags.
Definition readv (fd iovecs nr_vecs offset iflags : Z) : Op nat := operation (Readv fd iovecs nr_vecs offset) iflags.
Definition writev (fd iovecs nr_vecs offset iflags : Z) : Op nat := operation (Writev fd iovecs nr_vecs offset) iflags.
Definition read (fd buf nbytes offset iflags : Z) : Op nat := operation (Read fd buf nbytes offset) iflags.
Definition write (fd buf nbytes offset iflags : Z) : Op nat := operation (Write fd buf nbytes offset) iflags.
Definition read_fixed (fd buf nbytes offset buf_index iflags : Z) : Op nat := operation (ReadFixed fd buf nbytes offset buf_index) iflags.
Definition write_fixed (fd buf nbytes offset buf_index iflags : Z) : Op nat := operation (WriteFixed fd buf nbytes offset buf_index) iflags.
Definition fsync (fd fsync_flags iflags : Z) : Op nat := operation (Fsync fd fsync_flags) iflags.
Definition recvmsg (sockfd msg flags iflags : Z) : Op nat := operation (Recvmsg sockfd msg flags) iflags.
Definition sendmsg (sockfd msg flags iflags : Z) : Op nat := operation (Sendmsg sockfd msg flags) iflags.
Definition recv (sockfd buf nbytes flags iflags : Z) : Op nat := operation (Recv sockfd buf nbytes flags) iflags.
Definition send (sockfd buf nbytes flags iflags : Z) : Op nat := operation (Send sockfd buf nbytes flags) iflags.
Definition poll (fd poll_mask iflags : Z) : Op nat := operation (PollAdd fd poll_mask) iflags.
Definition yield (iflags : Z) : Op nat := operation Nop iflags.
Definition accept (fd addr addrlen flags iflags : Z) : Op nat := operation (Accept fd addr addrlen flags) iflags.
Definition connect (fd addr addrlen iflags : Z) : Op nat := operation (Connect fd addr addrlen) iflags.
Definition timeout_ts (ts flags iflags : Z) : Op nat := operation (Timeout ts 0 flags) iflags.
Definition openat (dfd path flags mode iflags : Z) : Op nat := operation (Openat dfd path flags mode) iflags.
Definition close (fd iflags : Z) : Op nat := operation (Close fd) iflags.
Definition statx (dfd path flags mask statxbuf iflags : Z) : Op nat := operation (Statx dfd path flags mask statxbuf) iflags.
Definition splice_ (fd_in off_in fd_out off_out nbytes flags iflags : Z) : Op nat := operation (Splice fd_in off_in fd_out off_out nbytes flags) iflags.
Definition tee (fd_in fd_out nbytes flags iflags : Z) : Op nat := operation (Tee fd_in fd_out nbytes flags) iflags.
Definition shutdown (fd how iflags : Z) : Op nat := operation (Shutdown fd how) iflags.
Definition renameat (olddfd oldpath newdfd newpath flags iflags : Z) : Op nat := operation (Renameat olddfd oldpath newdfd newpath flags) iflags.
Definition mkdirat (dirfd pathname mode iflags : Z) : Op nat := operation (Mkdirat dirfd pathname mode) iflags.
Definition symlinkat (target newdirfd linkpath iflags : Z) : Op nat := operation (Symlinkat target newdirfd linkpath) iflags.
Definition linkat (olddirfd oldpath newdirfd newpath flags iflags : Z) : Op nat := operation (Linkat olddirfd oldpath newdirfd newpath flags) iflags.
Definition unlinkat (dfd path flags iflags : Z) : Op nat := operation (Unlinkat dfd path flags) iflags.
Definition provide_buffers (addr len_buffer how_many group_id first_bid iflags : Z) : Op nat := operation (ProvideBuffers addr len_buffer how_many group_id first_bid) iflags.

Definition IOSQE_BUFFER_SELECT : Z := 32.
Definition read_buffer_select (fd gid nbytes offset iflags : Z) : Op nat :=
  let iflags := Z.lor iflags IOSQE_BUFFER_SELECT in
  let* i := io_uring_get_sqe_safe in
  let* _ := prep (Read fd 0 nbytes offset) i in
  let* _ := op_do (fun r => sqe_write i (with_buf_group gid (sqe_of r i)) r) in
  make_awaitable i iflags.
Definition sync_file_range (fd offset nbytes sync_range_flags iflags : Z) : Op nat :=
  let* i := io_uring_get_sqe_safe in
  let* _ := prep (SyncFileRange fd nbytes offset) i in
  let* _ := op_do (fun r => sqe_write i (with_sync_range_flags sync_range_flags (sqe_of r i)) r) in
  make_awaitable i iflags.

(** [link_timeout(ts, flags, iflags)] *)
Definition link_timeout (ts flags iflags : Z) : Op unit :=
  let* i := io_uring_get_sqe_safe in
  let* _ := prep (LinkTimeout ts flags) i in
  let* _ := io_uring_sqe_set_flags i iflags in
  io_uring_sqe_set_data i 0.
(** [link_timeout(async_op, ts, flags, iflags)] *)
Definition link_timeout_to (async_op : nat) (ts flags iflags : Z) : Op nat :=
  let* i := io_uring_get_sqe_safe in
  let* _ := prep (LinkTimeout ts flags) i in
  let* _ := io_uring_sqe_set_flags i iflags in
  op_ret async_op.

(** [co_await] of an awaitable: [await_suspend] stores the address of the token. *)
Definition await_suspend (i : nat) (token : Z) : Op unit := io_uring_sqe_set_data i token.
End Context_.
Arguments io_uring_context R : clear implicits.

(** * What every operation does *)

(** The calls a coroutine can make on the context. *)
Inductive call : Type :=
| Plain (q : request) (iflags : Z)
| BufferSelect (fd gid nbytes offset iflags : Z)
| SyncRange (fd offset nbytes sync_range_flags iflags : Z)
| Link (ts flags iflags : Z).

(** The entry it should put in the queue, up to the union members. *)
Definition wanted (k : call) (e : sqe) : Prop :=
  match k with
  | Plain q f => s_request e = Some q /\ s_flags e = f
  | BufferSelect fd gid n off f =>
    s_request e = Some (Read fd 0 n off) /\ s_flags e = Z.lor f IOSQE_BUFFER_SELECT /\ s_buf_group e = gid
  | SyncRange fd off n sf f => s_request e = Some (SyncFileRange fd n off) /\ s_flags e = f /\ s_sync_range_flags e = sf
  | Link ts fl f => s_request e = Some (LinkTimeout ts fl) /\ s_flags e = f
  end.

Section Effects.
Context {R : Type} `{Laws : LiburingLaws R}.
Implicit Types c : io_uring_context R.

Definition run_call (k : call) : Op nat :=
  match k with
  | Plain q f => operation q f
  | BufferSelect fd gid n off f => read_buffer_select fd gid n off f
  | SyncRange fd off n sf f => sync_file_range fd off n sf f
  | Link ts fl f => fun c => r ← link_timeout ts fl f c; Some (0%nat, r.2)
  end.

(** Every entry ever put in the queue, in order: what was submitted and what
    the slots handed out since then hold now. *)
Definition entries c : list sqe := submitted (ring c) ++ (sqe_of (ring c) <$> queued (ring c)).
(** Completions counted as consumed. *)
Definition consumed c : Z := advanced (ring c) + cqe_count c.

(** Slot [i] is the last one handed out, and is not handed out twice. *)
Definition owns c (i : nat) : Prop := exists q, queued (ring c) = q ++ [i] /\ (i ∉ q).

(** Entries that go to the kernel stay where they are in the order. *)
Lemma entries_takes k r r' n n' : takes k r r' -> entries (mk_ctx r' n') = entries (mk_ctx r n) /\ advanced r' = advanced r.
Proof.
  intros (Hq & Hs & Ha & Hsq). split; [|done]. unfold entries. cbn. rewrite Hq, Hs, <- app_assoc. f_equal.
  rewrite (list_fmap_ext (sqe_of r') (sqe_of r)) by (intros; apply Hsq). rewrite <- fmap_app. by rewrite take_drop.
Qed.

(** One round of the slow path. *)
Definition spin_round c : io_uring_context R :=
  mk_ctx (io_uring_sqring_wait (io_uring_submit (io_uring_cq_advance (cqe_count c) (ring c)))) 0.
Lemma spin_round_spec c : entries (spin_round c) = entries c /\ consumed (spin_round c) = consumed c.
Proof.
  destruct (advance_frame (cqe_count c) (ring c)) as (Hq & Hs & Ha & Hsq). unfold spin_round, consumed. set (r1 := io_uring_cq_advance _ _) in *.
  destruct (submit_takes r1) as [k Hk], (wait_takes (io_uring_submit r1)) as [k' Hk'].
  destruct (entries_takes _ _ _ 0 0 Hk) as [E1 A1], (entries_takes _ _ _ 0 0 Hk') as [E2 A2]. rewrite E2, E1. cbn. rewrite A2, A1, Ha.
  split; [|lia]. unfold entries. cbn. rewrite Hq, Hs. f_equal. apply list_fmap_ext. intros. apply Hsq.
Qed.

Definition fits c : Prop := is_Some (io_uring_get_sqe (ring c)).1.
Lemma get_sqe_fits c i r n : io_uring_get_sqe (ring c) = (Some i, r) -> let c' := mk_ctx r n in
  owns c' i /\ entries c' = entries c ++ [sqe_of (ring c') i] /\ advanced r = advanced (ring c).
Proof.
  intros E c'. destruct (get_sqe_some _ _ _ E) as (Hi & Hq & Hs & Ha & Hsq). unfold entries, owns. cbn. rewrite Hq, Hs, fmap_app, <- app_assoc.
  split_and!; [by exists (queued (ring c)) | | done]. cbn. do 2 f_equal. apply list_fmap_ext. intros. apply Hsq.
Qed.
Lemma get_sqe_spin_spec fuel : forall c, 
  (forall i c', get_sqe_spin fuel c = Some (i, c') -> owns c' i /\ entries c' = entries c ++ [sqe_of (ring c') i] /\ consumed c' = consumed c) /\
  (is_Some (get_sqe_spin fuel c) <-> exists n, (n < fuel)%nat /\ fits (Nat.iter (S n) spin_round c)).
Proof.
  induction fuel as [|fuel IH]; intros c; [split; [done | split; [by intros [? ?] | intros (n & Hn & _); lia]]|].
  destruct (spin_round_spec c) as [He Hc]. 
  change (get_sqe_spin (S fuel) c) with (match io_uring_get_sqe (ring (spin_round c)) with
    (Some i, r3) => Some (i, mk_ctx r3 0) | (None, r3) => get_sqe_spin fuel (mk_ctx r3 0) end). destruct (io_uring_get_sqe (ring (spin_round c))) as [[i|] r] eqn:E.
  - destruct (get_sqe_fits _ _ _ 0 E) as (H1 & H2 & H3). split.
    + intros i' c' [= <- <-]. rewrite <- He, <- Hc. split_and!; [done..|]. unfold consumed. cbn. rewrite H3. done.
    + split; [intros _; exists 0%nat; split; [lia|]; change (is_Some (io_uring_get_sqe (ring (spin_round c))).1); by rewrite E | by eexists].
  - pose proof (get_sqe_none _ _ E) as ->. change (mk_ctx (ring (spin_round c)) 0) with (spin_round c).
    destruct (IH (spin_round c)) as [IH1 IH2]. split; [rewrite <- He, <- Hc; exact IH1|]. rewrite IH2. split.
    + intros (n & Hn & Hf). exists (S n). split; [lia|]. by rewrite Nat.iter_succ_r.
    + intros ([|n] & Hn & Hf); [change (is_Some (io_uring_get_sqe (ring (spin_round c))).1) in Hf; rewrite E in Hf; by destruct Hf|]. exists n. split; [lia|]. by rewrite <- Nat.iter_succ_r.
Qed.

(** The wrapper finds a slot at once or after some rounds of the slow path. *)
Definition finds_room c : Prop := exists n, (n <= spin_rounds (ring c))%nat /\ fits (Nat.iter n spin_round c).
Lemma get_sqe_safe_spec c :
  (forall i c', io_uring_get_sqe_safe c = Some (i, c') -> owns c' i /\ entries c' = entries c ++ [sqe_of (ring c') i] /\ consumed c' = consumed c) /\
  (is_Some (io_uring_get_sqe_safe c) <-> finds_room c).
Proof.
  unfold io_uring_get_sqe_safe, finds_room. destruct (io_uring_get_sqe (ring c)) as [[i|] r] eqn:E.
  - destruct (get_sqe_fits _ _ _ (cqe_count c) E) as (H1 & H2 & H3). split.
    + intros i' c' [= <- <-]. split_and!; [done..|]. unfold consumed. cbn. by rewrite H3.
    + split; [intros _; exists 0%nat; split; [lia|]; unfold fits; cbn; by rewrite E | by eexists].
  - pose proof (get_sqe_none _ _ E) as ->. destruct (get_sqe_spin_spec (spin_rounds (ring c)) c) as [H1 H2].
    assert (Ec : mk_ctx (ring c) (cqe_count c) = c) by (by destruct c). rewrite Ec. split; [done|]. rewrite H2. split.
    + intros (n & Hn & Hf). exists (S n). split; [lia | done].
    + intros ([|n] & Hn & Hf); [unfold fits in Hf; cbn in Hf; rewrite E in Hf; by destruct Hf|]. exists n. split; [lia | done].
Qed.

(** Writing to the slot just handed out changes the last entry only. *)
Definition last_entry c (i : nat) (l : list sqe) (n : Z) (e : sqe) : Prop :=
  owns c i /\ entries c = l ++ [e] /\ e = sqe_of (ring c) i /\ consumed c = n.

Lemma write_last c i l n e f : last_entry c i l n e ->
  last_entry (on_ring (fun r => sqe_write i (f (sqe_of r i)) r) c) i l n (f e).
Proof.
  intros ((q & Hq & Hi) & He & -> & Hn). unfold last_entry, owns, entries, consumed in *. cbn.
  destruct (write_frame i (f (sqe_of (ring c) i)) (ring c)) as (E1 & E2 & E3). rewrite E1, E2, E3.
  assert (Hw : forall j, sqe_of (sqe_write i (f (sqe_of (ring c) i)) (ring c)) j = if decide (i = j) then f (sqe_of (ring c) i) else sqe_of (ring c) j)
    by (intros; apply sqe_of_write).
  split_and!; [by exists q | | by rewrite Hw, decide_True | done].
  rewrite Hq in *. rewrite fmap_app, app_assoc in He. apply app_inj_tail in He as [He _]. rewrite fmap_app, app_assoc. cbn.
  rewrite Hw, decide_True by done. f_equal. rewrite <- He. f_equal. apply list_fmap_ext. intros k x Hk. rewrite Hw, decide_False; [done|].
  intros <-. apply Hi. by eapply list_elem_of_lookup_2.
Qed.

(** The operations, with the entry they leave. *)
Definition is_link (k : call) : bool := match k with Link _ _ _ => true | _ => false end.
Lemma run_call_result k c i0 c' : run_call k c = Some (i0, c') -> exists i e, (is_link k = false -> i0 = i) /\
  last_entry c' i (entries c) (consumed c) e /\ wanted k e /\ s_data e = 0.
Proof.
  destruct (get_sqe_safe_spec c) as [Hspec _].
  assert (Hsome : forall i c1, io_uring_get_sqe_safe c = Some (i, c1) -> last_entry c1 i (entries c) (consumed c) (sqe_of (ring c1) i)).
  { intros i c1 E. by destruct (Hspec i c1 E) as (Ho & He & Hn). }
  destruct k as [q f|fd gid n off f|fd off n sf f|ts fl f]; cbn [run_call].
  all: unfold operation, read_buffer_select, sync_file_range, link_timeout, op_bind; destruct (io_uring_get_sqe_safe c) as [[i c1]|]; [|done].
  all: specialize (Hsome i c1 eq_refl); cbn; intros [= <- <-]; eexists i, _; (split; [by intros|]).
  - apply (write_last _ _ _ _ _ (io_uring_prep q)) in Hsome. apply (write_last _ _ _ _ _ (with_flags f)) in Hsome.
    apply (write_last _ _ _ _ _ (with_data 0)) in Hsome. split; [exact Hsome|]. cbn. by rewrite prep_request.
  - apply (write_last _ _ _ _ _ (io_uring_prep (Read fd 0 n off))) in Hsome. apply (write_last _ _ _ _ _ (with_buf_group gid)) in Hsome.
    apply (write_last _ _ _ _ _ (with_flags (Z.lor f IOSQE_BUFFER_SELECT))) in Hsome. apply (write_last _ _ _ _ _ (with_data 0)) in Hsome.
    split; [exact Hsome|]. cbn. by rewrite prep_request.
  - apply (write_last _ _ _ _ _ (io_uring_prep (SyncFileRange fd n off))) in Hsome. apply (write_last _ _ _ _ _ (with_sync_range_flags sf)) in Hsome.
    apply (write_last _ _ _ _ _ (with_flags f)) in Hsome. apply (write_last _ _ _ _ _ (with_data 0)) in Hsome.
    split; [exact Hsome|]. cbn. by rewrite prep_request.
  - apply (write_last _ _ _ _ _ (io_uring_prep (LinkTimeout ts fl))) in Hsome. apply (write_last _ _ _ _ _ (with_flags f)) in Hsome.
    apply (write_last _ _ _ _ _ (with_data 0)) in Hsome. split; [exact Hsome|]. cbn. by rewrite prep_request.
Qed.
Lemma run_call_returns k c : is_Some (run_call k c) <-> finds_room c.
Proof.
  rewrite <- (proj2 (get_sqe_safe_spec c)). destruct k; cbn [run_call];
    unfold operation, read_buffer_select, sync_file_range, link_timeout, op_bind; destruct (io_uring_get_sqe_safe c) as [[i c1]|];
    (split; [intros [? ?] | intros [? ?]; try by eexists]); done || by eexists.
Qed.
End Effects.

(** Where the slow path always ends: after finitely many submissions there is
    room again. *)
Class LiburingProgress (R : Type) `{Liburing R} := room_again : forall c : io_uring_context R, finds_room c.

Lemma run_call_spec {R} `{!Liburing R, !LiburingLaws R, !LiburingProgress R} k (c : io_uring_context R) :
  exists i c' e, (exists i0, run_call k c = Some (i0, c') /\ (forall q f, k = Plain q f -> i0 = i)) /\
    last_entry c' i (entries c) (consumed c) e /\ wanted k e /\ s_data e = 0.
Proof.
  destruct (proj2 (run_call_returns k c) (room_again c)) as [[i0 c'] E]. destruct (run_call_result k c i0 c' E) as (i & e & Hi & H).
  exists i, c', e. split; [exists i0; split; [done | intros q f ->; by apply Hi] | done].
Qed.

(** * The members by name *)

(** The member functions that start an operation, with their arguments but for
    [iflags]. *)
Inductive member : Type :=
| MCancel (key flags : Z)
| MReadv (fd iovecs nr_vecs offset : Z)
| MWritev (fd iovecs nr_vecs offset : Z)
| MRead (fd buf nbytes offset : Z)
| MWrite (fd buf nbytes offset : Z)
| MReadFixed (fd buf nbytes offset buf_index : Z)
| MWriteFixed (fd buf nbytes offset buf_index : Z)
| MReadBufferSelect (fd gid nbytes offset : Z)
| MFsync (fd fsync_flags : Z)
| MSyncFileRange (fd offset nbytes sync_range_flags : Z)
| MRecvmsg (sockfd msg flags : Z)
| MSendmsg (sockfd msg flags : Z)
| MRecv (sockfd buf nbytes flags : Z)
| MSend (sockfd buf nbytes flags : Z)
| MPoll (fd poll_mask : Z)
| MYield
| MAccept (fd addr addrlen flags : Z)
| MConnect (fd addr addrlen : Z)
| MTimeout (ts flags : Z)
| MOpenat (dfd path flags mode : Z)
| MClose (fd : Z)
| MStatx (dfd path flags mask statxbuf : Z)
| MSplice (fd_in off_in fd_out off_out nbytes flags : Z)
| MTee (fd_in fd_out nbytes flags : Z)
| MShutdown (fd how : Z)
| MRenameat (olddfd oldpath newdfd newpath flags : Z)
| MMkdirat (dirfd pathname mode : Z)
| MSymlinkat (target newdirfd linkpath : Z)
| MLinkat (olddirfd oldpath newdirfd newpath flags : Z)
| MUnlinkat (dfd path flags : Z)
| MProvideBuffers (addr len_buffer how_many group_id first_bid : Z)
| MLinkTimeout (ts flags : Z).

Section Members.
Context {R : Type} `{!Liburing R}.

Definition run_member (m : member) (iflags : Z) : Op (R := R) nat :=
  match m with
  | MCancel key flags => cancel key flags iflags
  | MReadv fd iovecs nr_vecs offset => readv fd iovecs nr_vecs offset iflags
  | MWritev fd iovecs nr_vecs offset => writev fd iovecs nr_vecs offset iflags
  | MRead fd buf nbytes offset => read fd buf nbytes offset iflags
  | MWrite fd buf nbytes offset => write fd buf nbytes offset iflags
  | MReadFixed fd buf nbytes offset buf_index => read_fixed fd buf nbytes offset buf_index iflags
  | MWriteFixed fd buf nbytes offset buf_index => write_fixed fd buf nbytes offset buf_index iflags
  | MReadBufferSelect fd gid nbytes offset => read_buffer_select fd gid nbytes offset iflags
  | MFsync fd fsync_flags => fsync fd fsync_flags iflags
  | MSyncFileRange fd offset nbytes sync_range_flags => sync_file_range fd offset nbytes sync_range_flags iflags
  | MRecvmsg sockfd msg flags => recvmsg sockfd msg flags iflags
  | MSendmsg sockfd msg flags => sendmsg sockfd msg flags iflags
  | MRecv sockfd buf nbytes flags => recv sockfd buf nbytes flags iflags
  | MSend sockfd buf nbytes flags => send sockfd buf nbytes flags iflags
  | MPoll fd poll_mask => poll fd poll_mask iflags
  | MYield => yield iflags
  | MAccept fd addr addrlen flags => accept fd addr addrlen flags iflags
  | MConnect fd addr addrlen => connect fd addr addrlen iflags
  | MTimeout ts flags => timeout_ts ts flags iflags
  | MOpenat dfd path flags mode => openat dfd path flags mode iflags
  | MClose fd => close fd iflags
  | MStatx dfd path flags mask statxbuf => statx dfd path flags mask statxbuf iflags
  | MSplice fd_in off_in fd_out off_out nbytes flags => splice_ fd_in off_in fd_out off_out nbytes flags iflags
  | MTee fd_in fd_out nbytes flags => tee fd_in fd_out nbytes flags iflags
  | MShutdown fd how => shutdown fd how iflags
  | MRenameat olddfd oldpath newdfd newpath flags => renameat olddfd oldpath newdfd newpath flags iflags
  | MMkdirat dirfd pathname mode => mkdirat dirfd pathname mode iflags
  | MSymlinkat target newdirfd linkpath => symlinkat target newdirfd linkpath iflags
  | MLinkat olddirfd oldpath newdirfd newpath flags => linkat olddirfd oldpath newdirfd newpath flags iflags
  | MUnlinkat dfd path flags => unlinkat dfd path flags iflags
  | MProvideBuffers addr len_buffer how_many group_id first_bid => provide_buffers addr len_buffer how_many group_id first_bid iflags
  | MLinkTimeout ts flags => fun c => r ← link_timeout ts flags iflags c; Some (0%nat, r.2)
  end.
(** Only the overload of [link_timeout] without an awaitable returns none. *)
Definition returns_awaitable (m : member) : bool := match m with MLinkTimeout _ _ => false | _ => true end.

(** What the caller asks the kernel for, in the order of the parameters of the
    system call it is named after. *)
Definition request_of (m : member) : request :=
  match m with
  | MCancel key flags => Cancel key flags
  | MReadv fd iovecs nr_vecs offset => Readv fd iovecs nr_vecs offset
  | MWritev fd iovecs nr_vecs offset => Writev fd iovecs nr_vecs offset
  | MRead fd buf nbytes offset => Read fd buf nbytes offset
  | MWrite fd buf nbytes offset => Write fd buf nbytes offset
  | MReadFixed fd buf nbytes offset buf_index => ReadFixed fd buf nbytes offset buf_index
  | MWriteFixed fd buf nbytes offset buf_index => WriteFixed fd buf nbytes offset buf_index
  | MReadBufferSelect fd gid nbytes offset => Read fd 0 nbytes offset
  | MFsync fd fsync_flags => Fsync fd fsync_flags
  | MSyncFileRange fd offset nbytes sync_range_flags => SyncFileRange fd nbytes offset
  | MRecvmsg sockfd msg flags => Recvmsg sockfd msg flags
  | MSendmsg sockfd msg flags => Sendmsg sockfd msg flags
  | MRecv sockfd buf nbytes flags => Recv sockfd buf nbytes flags
  | MSend sockfd buf nbytes flags => Send sockfd buf nbytes flags
  | MPoll fd poll_mask => PollAdd fd poll_mask
  | MYield => Nop
  | MAccept fd addr addrlen flags => Accept fd addr addrlen flags
  | MConnect fd addr addrlen => Connect fd addr addrlen
  | MTimeout ts flags => Timeout ts 0 flags
  | MOpenat dfd path flags mode => Openat dfd path flags mode
  | MClose fd => Close fd
  | MStatx dfd path flags mask statxbuf => Statx dfd path flags mask statxbuf
  | MSplice fd_in off_in fd_out off_out nbytes flags => Splice fd_in off_in fd_out off_out nbytes flags
  | MTee fd_in fd_out nbytes flags => Tee fd_in fd_out nbytes flags
  | MShutdown fd how => Shutdown fd how
  | MRenameat olddfd oldpath newdfd newpath flags => Renameat olddfd oldpath newdfd newpath flags
  | MMkdirat dirfd pathname mode => Mkdirat dirfd pathname mode
  | MSymlinkat target newdirfd linkpath => Symlinkat target newdirfd linkpath
  | MLinkat olddirfd oldpath newdirfd newpath flags => Linkat olddirfd oldpath newdirfd newpath flags
  | MUnlinkat dfd path flags => Unlinkat dfd path flags
  | MProvideBuffers addr len_buffer how_many group_id first_bid => ProvideBuffers addr len_buffer how_many group_id first_bid
  | MLinkTimeout ts flags => LinkTimeout ts flags
  end.
Definition flags_of (m : member) (iflags : Z) : Z := match m with MReadBufferSelect _ _ _ _ => Z.lor iflags IOSQE_BUFFER_SELECT | _ => iflags end.
Definition union_ok (m : member) (e : sqe) : Prop :=
  match m with
  | MReadBufferSelect _ gid _ _ => s_buf_group e = gid
  | MSyncFileRange _ _ _ sf => s_sync_range_flags e = sf
  | _ => True
  end.
Definition asked_for (m : member) (iflags : Z) (e : sqe) : Prop := s_request e = Some (request_of m) /\ s_flags e = flags_of m iflags /\ union_ok m e.

(** A member is one of the calls. *)
Definition call_of (m : member) (iflags : Z) : call :=
  match m with
  | MReadBufferSelect fd gid nbytes offset => BufferSelect fd gid nbytes offset iflags
  | MSyncFileRange fd offset nbytes sf => SyncRange fd offset nbytes sf iflags
  | MLinkTimeout ts flags => Link ts flags iflags
  | _ => Plain (request_of m) iflags
  end.
Lemma member_call m iflags : (forall c, run_member m iflags c = run_call (call_of m iflags) c) /\
  (forall e, wanted (call_of m iflags) e -> asked_for m iflags e) /\ returns_awaitable m = negb (is_link (call_of m iflags)).
Proof.
  split_and!; [by destruct m | | by destruct m]. intros e. unfold asked_for, flags_of, union_ok. destruct m; cbn; naive_solver.
Qed.
End Members.

Section MemberFacts.
Context {R : Type} `{Laws : LiburingLaws R}.
Implicit Types c : io_uring_context R.

(** [C14] Every operation of the class, by name, puts exactly one entry in the
    submission queue: the request with the caller's arguments in their places
    and with the caller's flags; it comes after everything queued before,
    also when the queue was full and was submitted first; it is detached
    ([user_data] null) until it is awaited, awaiting the awaitable at once
    stores the token in that very entry and no other, and the count of
    consumed completions is unchanged.  The operation returns exactly when
    there is a slot at once or after some rounds of submitting, however many
    entries io_uring takes in each; otherwise it spins. *)
Theorem operation_enqueues_once m iflags c :
  (forall i0 c', run_member m iflags c = Some (i0, c') -> exists i e, (returns_awaitable m = true -> i0 = i) /\
    entries c' = entries c ++ [e] /\ asked_for m iflags e /\ s_data e = 0 /\ consumed c' = consumed c /\
    forall token, exists c'', await_suspend i token c' = Some (tt, c'') /\
      entries c'' = entries c ++ [with_data token e] /\ consumed c'' = consumed c) /\
  (is_Some (run_member m iflags c) <-> finds_room c).
Proof.
  destruct (member_call m iflags) as (Hk & Hw & Hs). rewrite Hk. set (k := call_of m iflags) in *. split; [|apply run_call_returns]. intros i0 c' E.
  destruct (run_call_result k c i0 c' E) as (i & e & Hi & Hl & Hwk & Hd). exists i, e. pose proof Hl as (_ & He & _ & Hn).
  split_and!; [ | done | by apply Hw | done | done |].
  - intros Hm. apply Hi. rewrite Hs in Hm. by apply negb_true_iff.
  - intros token. eexists. split; [reflexivity|]. apply (write_last _ _ _ _ _ (with_data token)) in Hl. by destruct Hl as (_ & ? & _ & ?).
Qed.
End MemberFacts.

(** * A ring to run on *)

(** A queue of four slots that hands out the lowest free one; a prepared slot
    keeps its old [user_data].  The next [busy] submissions fail. *)
Record model_ring : Type := mk_model { slots : gmap nat sqe; taken : list nat; given : list sqe; adv : Z; busy : nat }.
Definition blank : sqe := mk_sqe None 0 0 0 0.
Definition slot_at (r : model_ring) (i : nat) : sqe := default blank (slots r !! i).
Definition free_slot (taken : list nat) : option nat := head (filter (fun i => i ∉ taken) (seq 0 4)).
Definition empty_ring : model_ring := mk_model ∅ [] [] 0 0.

#[export] Instance model_liburing : Liburing model_ring := {
  io_uring_get_sqe r :=
    match free_slot (taken r) with
    | Some i => (Some i, mk_model (slots r) (taken r ++ [i]) (given r) (adv r) (busy r))
    | None => (None, r)
    end;
  sqe_of := slot_at;
  sqe_write i s r := mk_model (<[i := s]> (slots r)) (taken r) (given r) (adv r) (busy r);
  io_uring_prep q s := mk_sqe (Some q) 0 (s_data s) 0 0;
  io_uring_submit r :=
    match busy r with
    | O => mk_model (slots r) [] (given r ++ (slot_at r <$> taken r)) (adv r) 0
    | S n => mk_model (slots r) (taken r) (given r) (adv r) n
    end;
  io_uring_sqring_wait r := r;
  io_uring_cq_advance n r := mk_model (slots r) (taken r) (given r) (adv r + n) (busy r);
  queued := taken;
  submitted := given;
  advanced := adv;
  spin_rounds r := S (busy r)
}.

#[export] Program Instance model_liburing_laws : LiburingLaws model_ring.
Next Obligation. done. Qed.
Next Obligation.
  intros r i r' E. cbn in E. destruct (free_slot (taken r)) as [j|] eqn:Ef; [|done]. injection E as <- <-.
  split_and!; try done. cbn. unfold free_slot in Ef. apply head_Some_elem_of in Ef. by apply list_elem_of_filter in Ef as [? _].
Qed.
Next Obligation. intros r r' E. cbn in E. by destruct (free_slot (taken r)); simplify_eq. Qed.
Next Obligation.
  intros i s r j. cbn. unfold slot_at. cbn. case_decide as Hij; [subst; by rewrite lookup_insert_eq | by rewrite lookup_insert_ne].
Qed.
Next Obligation. done. Qed.
Next Obligation.
  intros r. cbn. destruct (busy r); [exists (length (taken r)) | exists 0%nat]; split_and!; cbn; try done.
  - by rewrite drop_all.
  - by rewrite firstn_all.
  - by rewrite app_nil_r.
Qed.
Next Obligation. intros r. exists 0%nat. split_and!; cbn; [done | by rewrite app_nil_r | done..]. Qed.
Next Obligation. done. Qed.
(** It has room after the submissions that fail and one more. *)
Lemma model_ring_room n : forall c : io_uring_context model_ring, busy (ring c) = n -> fits (Nat.iter (S n) spin_round c).
Proof.
  induction n as [|n IH]; intros c Hb.
  - unfold fits, spin_round. cbn. rewrite Hb. by eexists.
  - rewrite Nat.iter_succ_r. apply IH. unfold spin_round. cbn. by rewrite Hb.
Qed.
#[export] Instance model_liburing_progress : LiburingProgress model_ring.
Proof. intros c. exists (S (busy (ring c))). split; [done | by apply model_ring_room]. Qed.

(** A full queue, whose first submission fails. *)
Definition full_and_busy : io_uring_context model_ring := mk_ctx (mk_model ∅ [0; 1; 2; 3]%nat [] 0 1) 0.
Lemma operation_enqueues_once_witness : exists i c' e,
  run_member (MRenameat 3 4096 4 8192 1) 16 full_and_busy = Some (i, c') /\
  entries c' = [blank; blank; blank; blank; e] /\ s_request e = Some (Renameat 3 4096 4 8192 1) /\ s_flags e = 16 /\ s_data e = 0.
Proof.
  destruct (operation_enqueues_once (MRenameat 3 4096 4 8192 1) 16 full_and_busy) as [H1 H2].
  destruct (proj2 H2) as [[i c'] E]; [exists 2%nat; split; [apply le_n | by eexists]|].
  destruct (H1 i c' E) as (i' & e & _ & He & (Hq & Hf & _) & Hd & _).
  exists i, c', e. split_and!; [exact E | exact He | exact Hq | exact Hf | exact Hd].
Defined.

(** * Tokens *)

(** [LIBURING_UDATA_TIMEOUT] and the test of [handle_completions]. *)
Definition LIBURING_UDATA_TIMEOUT : Z := 2 ^ 64 - 1.
Definition dispatched (data : Z) : bool := negb (data =? 0) && negb (data =? LIBURING_UDATA_TIMEOUT).

Section Tokens.
Context {R : Type} `{Laws : LiburingLaws R}.

(** The context; which entries (by position) have completed; the [user_data] of
    the posted completions and how many of them were handled; the tokens of
    the coroutines that are suspended. *)
Record system : Type := mk_system {
  uc : io_uring_context R; completed : gset nat; posted : list Z; handled : nat; live : gset Z }.

Inductive action : Type :=
| Fire (k : call)                  (* an operation that is never awaited *)
| Await (q : request) (iflags token : Z)   (* [co_await] of an operation *)
| Submit
| Complete (n : nat)               (* the kernel finishes entry [n] *)
| Handle.                          (* one iteration of [handle_completions] *)

(** [None]: not possible here, or a completion that reaches a token whose
    coroutine is gone. *)
Definition act (a : action) (s : system) : option system :=
  match a with
  | Fire k => r ← run_call k (uc s); Some (mk_system r.2 (completed s) (posted s) (handled s) (live s))
  | Await q f token =>
    if decide ((token ∉ live s) /\ dispatched token = true) then
      r ← operation q f (uc s);
      r' ← await_suspend r.1 token r.2;
      Some (mk_system r'.2 (completed s) (posted s) (handled s) ({[token]} ∪ live s))
    else None
  | Submit => Some (mk_system (on_ring io_uring_submit (uc s)) (completed s) (posted s) (handled s) (live s))
  | Complete n =>
    match submitted (ring (uc s)) !! n with
    | Some e => if decide (n ∈ completed s) then None
                else Some (mk_system (uc s) ({[n]} ∪ completed s) (posted s ++ [s_data e]) (handled s) (live s))
    | None => None
    end
  | Handle =>
    match posted s !! handled s with
    | Some data =>
      if dispatched data then
        if decide (data ∈ live s) then Some (mk_system (uc s) (completed s) (posted s) (S (handled s)) (live s ∖ {[data]})) else None
      else Some (mk_system (uc s) (completed s) (posted s) (S (handled s)) (live s))
    | None => None
    end
  end.

(** The tokens still on their way: in entries not completed and in
    completions not handled. *)
Fixpoint unfinished (d : gset nat) (k : nat) (l : list sqe) : list sqe :=
  match l with
  | [] => []
  | e :: l' => if decide (k ∈ d) then unfinished d (S k) l' else e :: unfinished d (S k) l'
  end.
Definition tokens (l : list Z) : list Z := filter (fun z => dispatched z = true) l.
Definition on_the_way (s : system) : list Z :=
  tokens (s_data <$> unfinished (completed s) 0 (entries (uc s))) ++ tokens (drop (handled s) (posted s)).

Record tinv (s : system) : Prop := mk_tinv {
  tinv_tokens : on_the_way s ≡ₚ elements (live s);
  tinv_completed : forall n, n ∈ completed s -> (n < length (entries (uc s)))%nat;
  tinv_handled : (handled s <= length (posted s))%nat
}.

Lemma unfinished_app d l1 : forall k l2,
  unfinished d k (l1 ++ l2) = unfinished d k l1 ++ unfinished d (k + length l1) l2.
Proof.
  induction l1 as [|e l1 IH]; intros k l2; cbn; [by rewrite Nat.add_0_r|].
  rewrite IH. replace (S k + length l1)%nat with (k + S (length l1))%nat by lia. by case_decide.
Qed.

Lemma unfinished_new d k l : (forall n, n ∈ d -> (n < k)%nat) -> unfinished d k l = l.
Proof.
  revert k. induction l as [|e l IH]; intros k Hd; [done|]. cbn. rewrite decide_False; [|intros Hin; specialize (Hd k Hin); lia].
  f_equal. apply IH. intros n Hn. specialize (Hd n Hn). lia.
Qed.

Lemma unfinished_complete d j e : forall l k, l !! j = Some e -> (k + j)%nat ∉ d ->
  unfinished d k l ≡ₚ e :: unfinished ({[(k + j)%nat]} ∪ d) k l.
Proof.
  assert (Hout : forall l k m, (m < k)%nat -> unfinished ({[m]} ∪ d) k l = unfinished d k l).
  { induction l as [|x l IH]; intros k m Hm; [done|]. cbn. rewrite IH by lia.
    destruct (decide (k ∈ d)), (decide (k ∈ {[m]} ∪ d)); try done; set_solver by lia. }
  induction j as [|j IH]; intros l k Hl Hn; destruct l as [|x l]; try done; cbn in Hl |- *.
  - injection Hl as ->. rewrite Nat.add_0_r in *. rewrite decide_False, decide_True by set_solver. rewrite Hout by lia. done.
  - replace (k + S j)%nat with (S k + j)%nat in * by lia. pose proof (IH l (S k) Hl Hn) as E.
    destruct (decide (k ∈ d)), (decide (k ∈ {[(S k + j)%nat]} ∪ d)); [exact E | set_solver by lia | set_solver by lia |].
    rewrite E. apply Permutation_swap.
Qed.

Lemma tokens_app l1 l2 : tokens (l1 ++ l2) = tokens l1 ++ tokens l2.
Proof. apply filter_app. Qed.
#[local] Instance tokens_perm : Proper (Permutation ==> Permutation) tokens.
Proof. intros l1 l2 Hl. unfold tokens. by rewrite Hl. Qed.

Definition start (c : io_uring_context R) : system := mk_system c ∅ [] 0 ∅.
Definition step : system -> action -> system -> Prop := steps_of act.

(** Appending one entry. *)
Lemma on_the_way_append s c' e : tinv s -> entries c' = entries (uc s) ++ [e] ->
  on_the_way (mk_system c' (completed s) (posted s) (handled s) (live s)) ≡ₚ tokens [s_data e] ++ on_the_way s.
Proof.
  intros [_ Hc _] He. unfold on_the_way. cbn. rewrite He, unfinished_app, fmap_app, tokens_app.
  rewrite (unfinished_new _ (0 + length (entries (uc s)))) by (intros n Hn; specialize (Hc n Hn); lia). cbn [fmap list_fmap].
  rewrite <- app_assoc, Permutation_app_swap_app. done.
Qed.

Lemma append_tinv s c' e l : tinv s -> entries c' = entries (uc s) ++ [e] ->
  elements l ≡ₚ tokens [s_data e] ++ elements (live s) ->
  tinv (mk_system c' (completed s) (posted s) (handled s) l).
Proof.
  intros Hs He Hl. split.
  - cbn [live]. rewrite Hl, <- (tinv_tokens s Hs). by apply on_the_way_append.
  - cbn. intros n Hn. rewrite He, length_app. apply (tinv_completed s Hs) in Hn. lia.
  - apply (tinv_handled s Hs).
Qed.

Lemma entries_submit c : entries (on_ring io_uring_submit c) = entries c.
Proof.
  destruct (submit_takes (ring c)) as [k Hk]. destruct c as [r n]. exact (proj1 (entries_takes k r _ n n Hk)).
Qed.

Lemma token_live s data : tinv s -> posted s !! handled s = Some data -> dispatched data = true ->
  data ∈ live s /\ tokens (s_data <$> unfinished (completed s) 0 (entries (uc s))) ++ tokens (drop (S (handled s)) (posted s)) ≡ₚ elements (live s ∖ {[data]}).
Proof.
  intros Hs Hp Hd. pose proof (tinv_tokens s Hs) as Ht. unfold on_the_way in Ht.
  rewrite (drop_S _ _ _ Hp) in Ht. unfold tokens in Ht at 2. rewrite filter_cons_True in Ht by done. fold tokens in Ht.
  rewrite <- Permutation_middle in Ht.
  assert (Hin : data ∈ live s) by (apply elem_of_elements; rewrite <- Ht; left). split; [done|].
  assert (E : elements (live s) ≡ₚ data :: elements (live s ∖ {[data]})).
  { rewrite <- elements_union_singleton by set_solver. f_equiv. intros z.
    destruct (decide (z = data)); set_solver. }
  rewrite E in Ht. by apply Permutation.Permutation_cons_inv in Ht.
Qed.

Lemma token_act_inv s a s' : tinv s -> act a s = Some s' -> tinv s'.
Proof.
  intros Hs E. destruct a as [k|q f token| |n|]; cbn [act] in E.
  - destruct (run_call k (uc s)) as [[i0 c']|] eqn:Er; [|done]. destruct (run_call_result k (uc s) i0 c' Er) as (i & e & _ & (_ & He & _) & _ & Hd).
    injection E as <-. eapply append_tinv; [done | exact He |]. by rewrite Hd.
  - case_decide as Ht; [|done]. destruct Ht as [Hfresh Htok].
    destruct (operation q f (uc s)) as [[i0 c']|] eqn:Er; [|done]. change (operation q f) with (run_call (Plain q f)) in Er.
    destruct (run_call_result (Plain q f) (uc s) i0 c' Er) as (i & e & Hi & Hl & _ & Hd).
    cbn [mbind option_bind fst snd] in E. rewrite (Hi eq_refl) in E.
    apply (write_last _ _ _ _ _ (with_data token)) in Hl as (_ & He & _). injection E as <-.
    eapply append_tinv; [done | exact He |]. cbn [s_data with_data]. unfold tokens. rewrite filter_cons_True by done.
    cbn. by apply elements_union_singleton.
  - injection E as <-. destruct Hs as [H1 H2 H3]. split; unfold on_the_way in *; cbn in *; by rewrite ?entries_submit.
  - destruct (submitted (ring (uc s)) !! n) as [e|] eqn:En; [|done]. case_decide as Hn; [done|]. injection E as <-.
    assert (Hen : entries (uc s) !! n = Some e) by (unfold entries; by apply lookup_app_l_Some).
    split; cbn.
    + rewrite <- (tinv_tokens s Hs). unfold on_the_way. cbn.
      rewrite (unfinished_complete (completed s) n e (entries (uc s)) 0 Hen Hn). cbn [Nat.add fmap list_fmap].
      change (s_data e :: ?l) with ([s_data e] ++ l). rewrite !tokens_app.
      rewrite drop_app_le, tokens_app by apply (tinv_handled s Hs).
      rewrite <- app_assoc, (Permutation_app_comm (tokens [s_data e])). by rewrite app_assoc.
    + intros m [->%elem_of_singleton|Hm]%elem_of_union; [by eapply lookup_lt_Some | by apply (tinv_completed s Hs)].
    + rewrite length_app. pose proof (tinv_handled s Hs). lia.
  - destruct (posted s !! handled s) as [data|] eqn:Ep; [|done]. destruct (dispatched data) eqn:Ed.
    + destruct (token_live s data Hs Ep Ed) as [Hin Hperm]. rewrite decide_True in E by done. injection E as <-.
      split; [exact Hperm | apply (tinv_completed s Hs) | cbn; by eapply lookup_lt_Some].
    + injection E as <-. split; [|apply (tinv_completed s Hs) | cbn; by eapply lookup_lt_Some]. rewrite <- (tinv_tokens s Hs). unfold on_the_way. cbn.
      rewrite (drop_S _ _ _ Ep). f_equiv. unfold tokens. by rewrite (filter_cons_False _ data) by congruence.
Qed.

(** [C15] Completions reach the right coroutine, once.  In every run that
    starts from an empty queue and mixes fire-and-forget operations,
    [co_await]ed operations (also when the queue is full), submissions,
    completions in any order and handling: a completion that is handled
    never touches the token of a coroutine that is gone, and the tokens on
    their way are exactly those of the suspended coroutines, each once, so
    that none is forgotten and none is resumed twice. *)
Theorem completions_reach_their_coroutine c acts s :
  entries c = [] -> star step (start c) acts s ->
  (is_Some (posted s !! handled s) -> is_Some (act Handle s)) /\
  on_the_way s ≡ₚ elements (live s) /\ NoDup (on_the_way s).
Proof.
  intros Hc Hs. assert (Ht : tinv s).
  { eapply star_inv; [ | | exact Hs].
    - split; cbn; [unfold on_the_way; cbn; by rewrite Hc | set_solver | lia].
    - intros x l x'. apply token_act_inv. }
  split_and!.
  - intros [data Ep]. cbn. rewrite Ep. destruct (dispatched data) eqn:Ed; [|eauto].
    destruct (token_live s data Ht Ep Ed) as [Hin _]. rewrite decide_True by done. eauto.
  - apply (tinv_tokens s Ht).
  - rewrite (tinv_tokens s Ht). apply NoDup_elements.
Qed.
End Tokens.
Arguments system R : clear implicits.

(** Two reads, awaited and submitted; the second completes first. *)
Definition two_reads : list action :=
  [Await (Read 3 100 8 0) 0 77; Fire (Plain Nop 0); Await (Read 4 200 8 0) 0 78; Submit; Complete 2; Complete 1].

Lemma completions_reach_their_coroutine_witness : exists s,
  star step (start (mk_ctx empty_ring 0)) two_reads s /\ posted s = [78; 0] /\ is_Some (act Handle s) /\ on_the_way s ≡ₚ elements (live s).
Proof.
  assert (Hs : exists s, star step (start (mk_ctx empty_ring 0)) two_reads s /\ posted s = [78; 0] /\ handled s = 0%nat).
  { eexists. split; [apply run_acts_star; vm_compute; reflexivity | split; reflexivity]. }
  destruct Hs as (s & Hs & Hp & Hh). exists s.
  destruct (completions_reach_their_coroutine (mk_ctx empty_ring 0) two_reads s) as (H1 & H2 & _); [reflexivity | exact Hs |].
  split_and!; [exact Hs | exact Hp | | exact H2]. apply H1. rewrite Hp, Hh. eauto.
Defined.

(** * The helper overload of [link_timeout] *)

(** [co_await link_timeout(op(...), ts)]: the operation, the helper, and only
    then [await_suspend]. *)
Definition await_with_link_timeout (q : request) (iflags ts token : Z) : Op (R := model_ring) unit := fun c =>
  r ← operation q iflags c;
  r' ← link_timeout_to r.1 ts 0 0 r.2;
  await_suspend r'.1 token r'.2.

(** A queue whose slots were all used and handled before, and one with a
    single free slot. *)
Definition used_before : option (system model_ring) :=
  run_acts act [Await (Read 3 100 8 0) 0 77; Await (Read 4 200 8 0) 0 78; Submit; Complete 0; Complete 1; Handle; Handle]
    (start (mk_ctx empty_ring 0)).
Definition nearly_full : option (system model_ring) :=
  run_acts act [Fire (Plain Nop 0); Fire (Plain Nop 0); Fire (Plain Nop 0)] (start (mk_ctx empty_ring 0)).

(** The [link_timeout] overload that takes an awaitable is not safe with
    a liburing whose preparation functions leave [user_data] alone: it never
    detaches its own entry, so the entry carries the token of an earlier,
    finished coroutine; and when it has to submit a full queue it submits
    the operation before it was awaited, so the token is stored in no entry
    and the coroutine is never resumed. *)
Theorem link_timeout_helper_unsafe :
  (s ← used_before; r ← await_with_link_timeout (Read 3 100 8 0) 4 900 79 (uc s);
   Some (live s, s_data <$> drop 2 (entries r.2))) = Some (∅, [79; 78]) /\
  (s ← nearly_full; r ← await_with_link_timeout (Read 3 100 8 0) 4 900 79 (uc s);
   Some (s_data <$> entries r.2)) = Some [0; 0; 0; 0; 0].
Proof. split; vm_compute; reflexivity. Qed.

(** * [handle_completions] *)

Section Completions.
Context {R : Type} `{Laws : LiburingLaws R, !LiburingProgress R}.

Record cqe : Type := mk_cqe { user_data : Z; res : Z; cqe_flags : Z }.

(** [io_token]: the handle is not stored, the token is known by its address. *)
Record io_token : Type := mk_token { result : Z; flags : Z }.

(** What the three kinds of awaitables return from [await_resume]. *)
Definition IORING_CQE_BUFFER_SHIFT : Z := 16.
Definition await_resume_res (t : io_token) : Z := result t.
Definition await_resume_flag (t : io_token) : Z :=
  if result t <=? 0 then result t else swrap 32 (Z.shiftr (flags t) IORING_CQE_BUFFER_SHIFT).
Definition await_resume_res_flag (t : io_token) : Z * Z :=
  (result t, swrap 32 (Z.shiftr (flags t) IORING_CQE_BUFFER_SHIFT)).

(** What a resumed coroutine does before it suspends again: calls on the
    context, while the kernel may post further completions. *)
Context {W : Type} (continue : Z -> io_token -> W -> W * list call * list cqe).

(** The context, all completions the kernel has posted so far, the world, and
    the tokens resolved so far. *)
Record loop : Type := mk_loop {
  ctx : io_uring_context R; cqes : list cqe; world : W; resolved : list (Z * io_token) }.

Fixpoint run_calls (ks : list call) (c : io_uring_context R) : option (io_uring_context R) :=
  match ks with
  | [] => Some c
  | k :: ks' => r ← run_call k c; run_calls ks' r.2
  end.

(** [coro->resolve(cqe->res, cqe->flags)] *)
Definition resolve (token : Z) (e : cqe) (s : loop) : option loop :=
  let t := mk_token (res e) (cqe_flags e) in
  let '(w, ks, new) := continue token t (world s) in
  c ← run_calls ks (ctx s);
  Some (mk_loop c (cqes s ++ new) w (resolved s ++ [(token, t)])).

(** [io_uring_for_each_cqe]: the tail is read again in every round. *)
Fixpoint for_each_cqe (fuel : nat) (head : nat) (s : loop) : option loop :=
  match cqes s !! head with
  | None => Some s
  | Some e =>
    match fuel with
    | O => None
    | S fuel' =>
      let s1 := mk_loop (mk_ctx (ring (ctx s)) (cqe_count (ctx s) + 1)) (cqes s) (world s) (resolved s) in
      s2 ← (if dispatched (user_data e) then resolve (user_data e) e s1 else Some s1);
      for_each_cqe fuel' (S head) s2
    end
  end.

Definition handle_completions (fuel : nat) (s : loop) : option loop :=
  let head := Z.to_nat (advanced (ring (ctx s))) in
  s' ← for_each_cqe fuel head s;
  Some (mk_loop (mk_ctx (io_uring_cq_advance (cqe_count (ctx s')) (ring (ctx s'))) 0) (cqes s') (world s') (resolved s')).

(** The completions that name a token. *)
Definition deliveries (l : list cqe) : list (Z * io_token) :=
  (fun e => (user_data e, mk_token (res e) (cqe_flags e))) <$> filter (fun e => dispatched (user_data e) = true) l.

(** The kernel posts finitely many completions: [budget] bounds what is still
    to come. *)
Context (budget : W -> nat).
Hypothesis continue_budget : forall token t w,
  (length (continue token t w).2 + budget (continue token t w).1.1 <= budget w)%nat.

Lemma run_calls_consumed ks : forall c, exists c', run_calls ks c = Some c' /\ consumed c' = consumed c.
Proof.
  induction ks as [|k ks IH]; intros c; cbn; [by exists c|].
  destruct (run_call_spec k c) as (i & c1 & e & (i0 & -> & _) & (_ & _ & _ & Hn) & _). cbn.
  destruct (IH c1) as (c2 & -> & Hn2). exists c2. split; [done|]. congruence.
Qed.

Lemma for_each_spec fuel : forall head s,
  consumed (ctx s) = Z.of_nat head -> (head <= length (cqes s))%nat ->
  (length (cqes s) - head + budget (world s) <= fuel)%nat ->
  exists s', for_each_cqe fuel head s = Some s' /\ consumed (ctx s') = Z.of_nat (length (cqes s')) /\
    cqes s `prefix_of` cqes s' /\ resolved s' = resolved s ++ deliveries (drop head (cqes s')).
Proof.
  induction fuel as [|fuel IH]; intros head s Hc Hh Hf.
  - exists s. assert (head = length (cqes s)) as -> by lia. cbn. rewrite lookup_ge_None_2 by lia.
    rewrite drop_all. unfold deliveries. cbn. by rewrite app_nil_r.
  - cbn [for_each_cqe]. destruct (cqes s !! head) as [e|] eqn:Ee.
    2: { apply lookup_ge_None_1 in Ee. exists s. assert (head = length (cqes s)) as -> by lia.
         rewrite drop_all. unfold deliveries. cbn. by rewrite app_nil_r. }
    apply lookup_lt_Some in Ee as Hlt.
    set (s1 := mk_loop (mk_ctx (ring (ctx s)) (cqe_count (ctx s) + 1)) (cqes s) (world s) (resolved s)).
    assert (Hc1 : consumed (ctx s1) = Z.of_nat (S head)) by (unfold consumed in *; cbn; lia).
    assert (Hstep : exists s2 new, (if dispatched (user_data e) then resolve (user_data e) e s1 else Some s1) = Some s2 /\
      consumed (ctx s2) = Z.of_nat (S head) /\ cqes s2 = cqes s ++ new /\
      (length new + budget (world s2) <= budget (world s))%nat /\ resolved s2 = resolved s ++ deliveries [e]).
    { unfold deliveries. rewrite filter_cons. destruct (dispatched (user_data e)) eqn:Ed.
      - rewrite decide_True by done. unfold resolve.
        destruct (continue (user_data e) (mk_token (res e) (cqe_flags e)) (world s1)) as [[w ks] new] eqn:Ek.
        destruct (run_calls_consumed ks (ctx s1)) as (c' & -> & Hn). eexists _, new. split; [reflexivity|]. cbn.
        pose proof (continue_budget (user_data e) (mk_token (res e) (cqe_flags e)) (world s1)) as Hb. rewrite Ek in Hb. cbn in Hb.
        split_and!; [congruence | done | exact Hb | done].
      - rewrite decide_False by done. exists s1, []. cbn. rewrite !app_nil_r. split_and!; [done | exact Hc1 | done | lia | done]. }
    destruct Hstep as (s2 & new & -> & Hc2 & Hq2 & Hb2 & Hr2). cbn [mbind option_bind].
    destruct (IH (S head) s2 Hc2) as (s3 & -> & Hc3 & Hq3 & Hr3).
    { rewrite Hq2, length_app. lia. }
    { rewrite Hq2, length_app. lia. }
    exists s3. split_and!; [done | done | |].
    + etrans; [|exact Hq3]. rewrite Hq2. by apply prefix_app_r.
    + rewrite Hr3, Hr2, <- app_assoc. f_equal.
      assert (Ee3 : cqes s3 !! head = Some e).
      { eapply prefix_lookup_Some; [|exact Hq3]. rewrite Hq2. by apply lookup_app_l_Some. }
      rewrite (drop_S _ _ _ Ee3). unfold deliveries. by rewrite <- fmap_app, <- filter_app.
Qed.

(** [handle_completions] handles every completion once, in the order the
    kernel posted them, including those posted while it runs; detached and
    internal ones are skipped, every other one resolves its token with its
    result and flags; and the completion queue is advanced by exactly the
    number handled, although resumed coroutines may advance it themselves
    when they find the submission queue full. *)
Theorem handle_completions_exact s fuel :
  cqe_count (ctx s) = 0 -> 0 <= advanced (ring (ctx s)) <= Z.of_nat (length (cqes s)) ->
  (length (cqes s) - Z.to_nat (advanced (ring (ctx s))) + budget (world s) <= fuel)%nat ->
  exists s', handle_completions fuel s = Some s' /\ cqes s `prefix_of` cqes s' /\
    resolved s' = resolved s ++ deliveries (drop (Z.to_nat (advanced (ring (ctx s)))) (cqes s')) /\
    advanced (ring (ctx s')) = Z.of_nat (length (cqes s')) /\ cqe_count (ctx s') = 0.
Proof.
  intros H0 Ha Hf. unfold handle_completions.
  destruct (for_each_spec fuel (Z.to_nat (advanced (ring (ctx s)))) s) as (s' & -> & Hc & Hq & Hr); [unfold consumed; lia | lia | done |].
  eexists. split; [reflexivity|]. cbn. split_and!; [done | done | | done].
  destruct (advance_frame (cqe_count (ctx s')) (ring (ctx s'))) as (_ & _ & -> & _). exact Hc.
Qed.
End Completions.

(** One completion whose coroutine starts two operations and one more
    completion arriving meanwhile; a detached one in between. *)
Definition echo (token : Z) (t : io_token) (w : nat) : nat * list call * list cqe :=
  match w with
  | O => (O, [], [])
  | S w' => (w', [Plain (Send 5 10 (result t) 0) 0; Plain (Recv 5 10 64 0) 0], [mk_cqe (token + 1) 7 0])
  end.

Lemma handle_completions_exact_witness : exists s',
  handle_completions echo 9 (mk_loop (mk_ctx empty_ring 0) [mk_cqe 70 3 0; mk_cqe 0 0 0] 1%nat []) = Some s' /\
  resolved s' = [(70, mk_token 3 0); (71, mk_token 7 0)] /\ advanced (ring (ctx s')) = 3.
Proof.
  destruct (handle_completions_exact (R := model_ring) echo (fun w => w) ltac:(by intros ? ? [|w]; cbn; lia)
    (mk_loop (mk_ctx empty_ring 0) [mk_cqe 70 3 0; mk_cqe 0 0 0] 1%nat []) 9) as (s' & E & _ & Hr & Ha & _).
  - reflexivity.
  - cbn. lia.
  - cbn. lia.
  - exists s'. vm_compute in E. injection E as <-. split_and!; [vm_compute; reflexivity | exact Hr | exact Ha].
Defined.

(** * Errors *)

Definition ETIME : Z := 62.
(** [ret | panic_on_err(command, use_errno)] *)
Definition panic_on_err (ret : Z) (use_errno : bool) (errno : Z) : outcome Z :=
  if ret <? 0 then
    if use_errno then Exn (system_error errno)
    else if ret =? - ETIME then Val ret else Exn (system_error (- ret))
  else Val ret.
