(* ===== verification/IoContext.v ===== *)
(** The event loop of [io_context.hpp]: the coroutine that serves user-level
    timers (Section [TimerService]); and the loop with the eventfd messages
    that stop and wake it, the signal reader, the timer service (here by the
    number of its timers), the list of scheduled tasks and the binding of a
    context to its thread, over any number of runs (Section [Loop]). *)
From Stdlib Require Import Sorting.Sorted.
From stdpp Require Import sorting.
From S2P Require Import Prelude Skiplist SkiplistFacts SkiplistSpec Timer Events.

(** * Timers *)

(** Where [init_timeout_callback] is: not called yet, which [do_run] does after
    the scheduled tasks have run, suspended in [co_await timer_event_] or in
    [co_await timeout(&tmp)] with the time the kernel will complete it, or
    ended. *)
Inductive timer_service : Type := NotStarted | WaitEvent | WaitTimeout (expires_ns : Z) | Ended.
#[global] Instance timer_service_eq_dec : EqDecision timer_service.
Proof. solve_decision. Defined.

Section TimerService.
Context {H Q : Type} `{!OrderedMultimap H Q}.
Context {W : Type} (resume : H -> W -> W * list (add_call (H := H))).

(** [timer_], the service coroutine, whether [timer_event_] is set, and
    [stopped_]; the world counts the timers asked for so far, and the log
    lists the coroutines resumed. *)
Record timers : Type := mk_timers {
  timer_ : Q; service : timer_service; timer_event_ : bool; stopped_ : bool; world_ : W * nat; fired_log : list H }.

Definition counting_resume (t : H) (w : W * nat) : (W * nat) * list (add_call (H := H)) :=
  let r := resume t w.1 in ((r.1, (w.2 + length r.2)%nat), r.2).

(** From the top of the outer loop to the next suspension, at time [now_ns].
    An event that is already set is consumed and the loop goes round once
    more. *)
Definition arm (now_ns : Z) (s : timers) : option timers :=
  ts ← get_next_expiration now_ns (timer_ s);
  Some (mk_timers (timer_ s) (WaitTimeout (now_ns + (tv_sec ts * 1000000000 + tv_nsec ts))) (timer_event_ s) (stopped_ s) (world_ s) (fired_log s)).
Fixpoint serve (rounds : nat) (now_ns : Z) (s : timers) : option timers :=
  match rounds with
  | O => None
  | S rounds' =>
    if stopped_ s then Some (mk_timers (timer_ s) Ended (timer_event_ s) true (world_ s) (fired_log s))
    else if has_more_timeouts (timer_ s) then arm now_ns s
    else if timer_event_ s then serve rounds' now_ns (mk_timers (timer_ s) (service s) false (stopped_ s) (world_ s) (fired_log s))
    else Some (mk_timers (timer_ s) WaitEvent false (stopped_ s) (world_ s) (fired_log s))
  end.

(** [init_timeout_callback()], called by [do_run]. *)
Definition init_timeout_callback (now_ns : Z) (s : timers) : option timers := serve 2 now_ns s.

(** The kernel completes the timeout: the rest of the inner loop. *)
Definition on_timeout (now_ns later_ns : Z) (s : timers) : option timers :=
  r ← handle_events (counting_resume) now_ns (world_ s) (timer_ s);
  let asked := negb ((r.1.2.2 =? (world_ s).2)%nat) in
  let s' := mk_timers r.2 (service s) (timer_event_ s || asked) (stopped_ s) r.1.2 (fired_log s ++ r.1.1.2) in
  if has_more_timeouts (timer_ s') then arm later_ns s' else serve 2 later_ns s'.

(** [register_timeout(cont, exp)] from outside [handle_events]: [set()] resumes
    the service if it waits for the event. *)
Definition register_timeout (a : add_call (H := H)) (later_ns : Z) (s : timers) : option timers :=
  q ← add_event a (timer_ s);
  let w := ((world_ s).1, S (world_ s).2) in
  match service s with
  | WaitEvent => serve 2 later_ns (mk_timers q (service s) false (stopped_ s) w (fired_log s))
  | _ => Some (mk_timers q (service s) true (stopped_ s) w (fired_log s))
  end.

(** What can happen to the service, in one run of the context.  Clock readings
    are nanoseconds since the epoch before the year 2116, timeouts at most
    2^50 microseconds, fewer than 2^64 timeouts are asked for in all, and the
    kernel does not complete a timeout early; anything else is refused. *)
Inductive timer_action : Type :=
| StartService (now_ns : Z)
| Register (a : add_call (H := H)) (later_ns : Z)
| Expire (now_ns later_ns : Z)
| Stop.
Definition clock_ok (now_ns : Z) : Prop := 0 <= now_ns < 2 ^ 62.
Definition call_ok (a : add_call (H := H)) : Prop := clock_ok (add_now a) /\ Z.abs (timeout a) <= 2 ^ 50.
#[global] Instance clock_ok_dec n : Decision (clock_ok n).
Proof. unfold clock_ok. apply _. Defined.
#[global] Instance call_ok_dec a : Decision (call_ok a).
Proof. unfold call_ok. apply _. Defined.

Definition unless_full (s : timers) : option timers := if decide (Z.of_nat (world_ s).2 < 2 ^ 64) then Some s else None.
Definition timer_act (x : timer_action) (s : timers) : option timers :=
  match x with
  | StartService now_ns =>
    match service s with
    | NotStarted => if decide (clock_ok now_ns) then init_timeout_callback now_ns s else None
    | _ => None
    end
  | Register a later_ns =>
    if decide (call_ok a /\ clock_ok later_ns) then s' ← register_timeout a later_ns s; unless_full s' else None
  | Expire now_ns later_ns =>
    match service s with
    | WaitTimeout d =>
      if decide (d <= now_ns /\ clock_ok now_ns /\ clock_ok later_ns) then s' ← on_timeout now_ns later_ns s; unless_full s'
      else None
    | _ => None
    end
  | Stop => Some (mk_timers (timer_ s) (service s) (timer_event_ s) true (world_ s) (fired_log s))
  end.
Definition timer_step : timers -> timer_action -> timers -> Prop := steps_of timer_act.

(** A context that starts to run: no timer yet, and the service is started
    after the scheduled tasks, which may register timers and stop the loop. *)
Definition timers_start (w : W) : timers := mk_timers mm_new NotStarted false false (w, O) [].
End TimerService.

Section TimerServiceFacts.
Context {H Q : Type} `{Laws : OrderedMultimapLaws time_point_max_v H Q}.
Context {W : Type} (resume : H -> W -> W * list (add_call (H := H))).
Hypothesis resume_calls : forall t w, Forall call_ok (resume t w).2.
Implicit Types (s : timers (H := H) (Q := Q) (W := W)) (l : list (Z * H)).

Definition key_ok (p : Z * H) : Prop := - 2 ^ 50 <= p.1 <= 2 ^ 62 / 1000 + 2 ^ 50.

Lemma ns_to_us_bounds n : clock_ok n -> 0 <= ns_to_us n <= 2 ^ 62 / 1000 /\ 1000 * ns_to_us n <= n < 1000 * ns_to_us n + 1000.
Proof.
  intros [Hn0 Hn1]. unfold ns_to_us. rewrite Z.quot_div_nonneg by lia. pose proof (Z.div_mod n 1000 ltac:(lia)).
  pose proof (Z.mod_pos_bound n 1000 ltac:(lia)). split; [|lia]. split; [apply Z.div_pos; lia|]. apply Z.div_le_mono; lia.
Qed.

Lemma call_ok_key a : call_ok a -> key_ok (wakeup_point a, cont a) /\ add_ok a.
Proof.
  intros [Hc Ht]. pose proof (ns_to_us_bounds _ Hc) as [Hn _]. unfold key_ok, add_ok, wakeup_point in *. cbn.
  assert (2 ^ 62 / 1000 = 4611686018427387) as E by reflexivity. rewrite E in *. lia.
Qed.

Lemma counting_ok t w : Forall add_ok (counting_resume resume t w).2.
Proof. cbn. eapply Forall_impl; [apply resume_calls|]. intros a Ha. by apply call_ok_key. Qed.

(** The bookkeeping of a run of resumed coroutines. *)
Lemma spec_resume_count ts : forall w l, let r := spec_resume (counting_resume resume) ts w l in
  (r.1.1.2 = w.2 + length r.1.2)%nat /\ Forall key_ok r.1.2.
Proof.
  induction ts as [|t ts IH]; intros w l; [cbn; split; [lia | constructor]|]. cbn [spec_resume fst snd].
  destruct (IH (counting_resume resume t w).1 (spec_adds (counting_resume resume t w).2 l)) as [IH1 IH2]. split.
  - rewrite IH1, length_app. unfold requests. rewrite length_fmap. 
    assert (E : (counting_resume resume t w).1.2 = (w.2 + length (counting_resume resume t w).2)%nat) by done. lia.
  - apply Forall_app. split; [|exact IH2]. unfold requests. apply Forall_fmap.
    apply (Forall_impl call_ok); [apply resume_calls|]. intros a Ha. by apply call_ok_key.
Qed.

Lemma spec_handle_count now w l : let r := spec_handle (counting_resume resume) now w l in
  ((world r).2 = w.2 + length (requested r))%nat /\ Forall key_ok (requested r).
Proof.
  unfold spec_handle. cbn [requested world]. set (r1 := spec_resume _ (due now l).*2 w (pending now l)).
  destruct (spec_resume_count (due now l).*2 w (pending now l)) as [E1 F1]. fold r1 in E1, F1.
  destruct (spec_resume_count (due now r1.2).*2 r1.1.1 (pending now r1.2)) as [E2 F2].
  split; [rewrite E2, E1, length_app; lia | by apply Forall_app].
Qed.

(** What is left after a visit is bounded by what there was and what was asked
    for, and the keys stay in range. *)
Lemma spec_handle_remaining now w l : Forall key_ok l ->
  let r := spec_handle (counting_resume resume) now w l in
  Forall key_ok (remaining r) /\ (length (remaining r) + w.2 <= length l + (world r).2)%nat.
Proof.
  intros Hl r. destruct (spec_handle_count now w l) as [Ec Fc]. fold r in Ec, Fc.
  pose proof (spec_handle_balance (counting_resume resume) now w l) as Hb. fold r in Hb. split.
  - assert (Hall : Forall key_ok (l ++ requested r)) by (by apply Forall_app). rewrite Hb in Hall.
    apply Forall_app in Hall as [_ Hall]. by apply Forall_app in Hall as [_ ?].
  - apply Permutation_length in Hb. rewrite !length_app in Hb. lia.
Qed.

(** The invariant of the service. *)
Definition armed_for (d : Z) l : Prop := exists p, p ∈ l /\ 1000 * p.1 <= d.
Definition tinv s : Prop := exists l, mm_repr quiet (timer_ s) l /\ Forall key_ok l /\ (length l <= (world_ s).2)%nat /\
  match service s with
  | NotStarted => True
  | WaitEvent => l = [] /\ timer_event_ s = false
  | WaitTimeout d => armed_for d l
  | Ended => stopped_ s = true
  end.

Lemma has_more_spec q l : mm_repr quiet q l -> Z.of_nat (length l) < 2 ^ 64 -> has_more_timeouts q = bool_decide (l <> []).
Proof.
  intros Hq Hl. unfold has_more_timeouts. rewrite (mm_empty_law q l Hq Hl). by destruct l.
Qed.

(** Arming waits exactly for the earliest entry. *)
Lemma arm_spec now_ns s p l : clock_ok now_ns -> mm_repr quiet (timer_ s) (p :: l) -> key_ok p ->
  exists d, arm now_ns s = Some (mk_timers (timer_ s) (WaitTimeout d) (timer_event_ s) (stopped_ s) (world_ s) (fired_log s)) /\
    now_ns <= d /\ 1000 * p.1 <= d < 1000 * Z.max p.1 (ns_to_us now_ns) + 1000.
Proof.
  intros Hc Hq [Hp1 Hp2]. pose proof (ns_to_us_bounds _ Hc) as [[Hn1 Hn2] Hn3]. unfold arm, get_next_expiration.
  assert (2 ^ 62 / 1000 = 4611686018427387) as E by reflexivity. rewrite E in *.
  rewrite (mm_first_law quiet _ _ _ Hq). cbn [mbind option_bind]. rewrite int64_ok by lia. cbn [mbind option_bind].
  unfold make_timespec. rewrite int64_ok by lia. cbn [mbind option_bind tv_sec tv_nsec].
  pose proof (Z.quot_rem' (Z.max 0 (p.1 - ns_to_us now_ns) * 1000) 1000000000).
  eexists. split; [reflexivity|]. unfold clock_ok in Hc. lia.
Qed.

Lemma serve_tinv now_ns s l : clock_ok now_ns -> mm_repr quiet (timer_ s) l -> Forall key_ok l ->
  (length l <= (world_ s).2)%nat -> Z.of_nat (world_ s).2 < 2 ^ 64 ->
  exists s', serve 2 now_ns s = Some s' /\ tinv s' /\ timer_ s' = timer_ s /\ world_ s' = world_ s /\ fired_log s' = fired_log s /\
    stopped_ s' = stopped_ s.
Proof.
  intros Hc Hq Hk Hl Hw. pose proof (has_more_spec _ _ Hq ltac:(lia)) as Hm.
  assert (Harm : l <> [] -> exists s', arm now_ns s = Some s' /\ tinv s' /\ timer_ s' = timer_ s /\ world_ s' = world_ s /\
    fired_log s' = fired_log s /\ stopped_ s' = stopped_ s).
  { intros Hne. destruct l as [|p l]; [done|]. apply Forall_cons in Hk as [Hkp Hk].
    destruct (arm_spec now_ns s p l Hc Hq Hkp) as (d & -> & _ & Hd). eexists. split; [done|]. cbn. split_and!; try done.
    exists (p :: l). cbn. split_and!; [done | by constructor | done |]. exists p. split; [left | lia]. }
  cbn [serve]. destruct (stopped_ s) eqn:Es.
  { eexists. split; [done|]. cbn. split_and!; try done. by exists l. }
  rewrite Hm. case_bool_decide as Hne; [by apply Harm|].
  assert (l = []) as -> by (destruct l; [done | by destruct Hne]).
  destruct (timer_event_ s); cbn [timer_ stopped_ timer_event_].
  - rewrite Hm. cbn. eexists. split; [done|]. cbn. split_and!; try done. exists []. by split_and!.
  - eexists. split; [done|]. cbn. split_and!; try done. exists []. by split_and!.
Qed.

(** A completed timeout fires everything that is due. *)
Lemma on_timeout_spec now_ns later_ns s l d : clock_ok now_ns -> clock_ok later_ns ->
  mm_repr quiet (timer_ s) l -> Forall key_ok l -> (length l <= (world_ s).2)%nat -> l <> [] -> service s = WaitTimeout d ->
  let r := spec_handle (counting_resume resume) (ns_to_us now_ns) (world_ s) l in
  Z.of_nat (world r).2 < 2 ^ 64 ->
  exists s', on_timeout resume now_ns later_ns s = Some s' /\ tinv s' /\ world_ s' = world r /\
    mm_repr quiet (timer_ s') (remaining r) /\ fired_log s' = fired_log s ++ (round1 r).*2 ++ (round2 r).*2 /\
    stopped_ s' = stopped_ s.
Proof.
  intros Hc Hc' Hq Hk Hl Hne Hs r Hw. pose proof (ns_to_us_bounds _ Hc) as [[_ Hn] _].
  destruct (spec_handle_count (ns_to_us now_ns) (world_ s) l) as [Ec _]. fold r in Ec.
  destruct (spec_handle_remaining (ns_to_us now_ns) (world_ s) l Hk) as [Hk' Hl']. fold r in Hk', Hl'.
  assert (2 ^ 62 / 1000 = 4611686018427387) as E by reflexivity. rewrite E in *.
  destruct (handle_events_law (counting_resume resume) counting_ok now_ns (world_ s) _ l Hq ltac:(lia) Hne
    ltac:(unfold time_point_max_v; lia)) as (q' & Eh & Hq'). fold r in Eh, Hq'.
  unfold on_timeout. rewrite Eh. cbn [mbind option_bind fst snd timer_].
  set (s1 := mk_timers q' _ _ _ _ _).
  destruct (serve_tinv later_ns s1 (remaining r) Hc' Hq' Hk' ltac:(unfold s1; cbn [world_]; lia) ltac:(unfold s1; cbn [world_]; lia))
    as (s' & Es & Hi & Et & Ew & Ef & Est).
  rewrite (has_more_spec q' (remaining r) Hq' ltac:(lia)). case_bool_decide as Hr.
  - destruct (remaining r) as [|p l'] eqn:Er; [done|]. apply Forall_cons in Hk' as [Hkp Hk'].
    destruct (arm_spec later_ns s1 p l' Hc' Hq' Hkp) as (d' & -> & _ & Hd). eexists. split; [done|]. cbn.
    split_and!; try done. exists (p :: l'). cbn. split_and!; [done | by constructor | cbn in Hl'; lia |].
    exists p. split; [left | lia].
  - exists s'. rewrite Es, Et, Ew, Ef, Est. by cbn.
Qed.

Lemma armed_for_perm d l l' : l ⊆+ l' -> armed_for d l -> armed_for d l'.
Proof. intros Hl (p & Hp & Hd). exists p. split; [|done]. eapply elem_of_submseteq; eassumption. Qed.

Lemma register_spec a later_ns s : call_ok a -> clock_ok later_ns -> tinv s -> Z.of_nat (S (world_ s).2) < 2 ^ 64 ->
  exists s', register_timeout a later_ns s = Some s' /\ tinv s' /\ (world_ s').2 = S (world_ s).2 /\
    (forall d, service s = WaitTimeout d -> service s' = WaitTimeout d).
Proof.
  intros Ha Hc (l & Hq & Hk & Hl & Hs) Hw. destruct (call_ok_key a Ha) as [Hka Hok].
  destruct (add_event_law quiet _ l a Hq Hok) as (q' & Eq & Hq' & _). unfold register_timeout. rewrite Eq.
  cbn [mbind option_bind]. set (l' := insert_before _ _ l) in *.
  assert (Hp : l' ≡ₚ (wakeup_point a, cont a) :: l) by apply insert_before_perm.
  assert (Hk' : Forall key_ok l') by (rewrite Hp; by constructor).
  assert (Hl' : (length l' <= S (world_ s).2)%nat) by (rewrite Hp; cbn; lia).
  destruct (service s) as [| |d|] eqn:Es.
  - eexists. split; [done|]. cbn. split_and!; try done. by exists l'.
  - destruct (serve_tinv later_ns (mk_timers q' WaitEvent false (stopped_ s) ((world_ s).1, S (world_ s).2) (fired_log s)) l')
      as (s' & E & Hi & _ & Ew & _); try done. exists s'. rewrite Ew. by split_and!.
  - eexists. split; [done|]. cbn. split_and!; try done. exists l'. cbn. split_and!; try done.
    eapply armed_for_perm; [|exact Hs]. rewrite Hp. by apply submseteq_cons.
  - eexists. split; [done|]. cbn. split_and!; try done. by exists l'.
Qed.

(** What the service does to reach its next suspension leaves the world alone. *)
Lemma arm_world now_ns s s' : arm now_ns s = Some s' -> world_ s' = world_ s.
Proof. unfold arm. intros E. destruct (get_next_expiration _ _); [|done]. by injection E as <-. Qed.
Lemma serve_world n now_ns : forall s s', serve n now_ns s = Some s' -> world_ s' = world_ s.
Proof.
  induction n as [|n IH]; cbn [serve]; intros s s' E; [done|]. destruct (stopped_ s); [by injection E as <-|].
  destruct (has_more_timeouts _); [by eapply arm_world|]. destruct (timer_event_ s); [by apply IH in E | by injection E as <-].
Qed.

Lemma serve_started n now_ns : forall s s', serve n now_ns s = Some s' -> service s' <> NotStarted.
Proof.
  induction n as [|n IH]; cbn [serve]; intros s s' E; [done|]. destruct (stopped_ s); [by injection E as <-|].
  destruct (has_more_timeouts _); [unfold arm in E; destruct (get_next_expiration _ _); [by injection E as <- | done]|].
  destruct (timer_event_ s); [by apply IH in E | by injection E as <-].
Qed.

Definition reachable_inv s : Prop := tinv s /\ Z.of_nat (world_ s).2 < 2 ^ 64.

Lemma unless_full_inv (o : option timers) s : o ≫= unless_full = Some s -> o = Some s /\ Z.of_nat (world_ s).2 < 2 ^ 64.
Proof. destruct o as [s1|]; [|done]. cbn. unfold unless_full. case_decide; [|done]. by intros [= <-]. Qed.

Lemma expire_step s d now_ns later_ns s' : reachable_inv s -> service s = WaitTimeout d -> clock_ok now_ns -> clock_ok later_ns ->
  on_timeout resume now_ns later_ns s = Some s' -> Z.of_nat (world_ s').2 < 2 ^ 64 -> reachable_inv s'.
Proof.
  intros [(l & Hq & Hk & Hl & Hs) Hw] Es Hc Hc' E Hw'. split; [|done]. rewrite Es in Hs.
  assert (l <> []) as Hne by (destruct Hs as (p & Hp & _); intros ->; by apply not_elem_of_nil in Hp).
  pose proof (ns_to_us_bounds _ Hc) as [[_ Hn] _]. assert (2 ^ 62 / 1000 = 4611686018427387) as E' by reflexivity.
  destruct (handle_events_law (counting_resume resume) counting_ok now_ns (world_ s) _ l Hq ltac:(lia) Hne
    ltac:(unfold time_point_max_v; lia)) as (q' & Eh & _).
  assert (Ew : world_ s' = world (spec_handle (counting_resume resume) (ns_to_us now_ns) (world_ s) l)).
  { revert E. unfold on_timeout. rewrite Eh. cbn [mbind option_bind fst snd timer_].
    destruct (has_more_timeouts q'); [intros ->%arm_world | intros ->%serve_world]; done. }
  rewrite Ew in Hw'. destruct (on_timeout_spec now_ns later_ns s l d) as (s1 & E1 & H1 & _); try done. naive_solver.
Qed.

Lemma timer_step_inv s x s' : reachable_inv s -> timer_step resume s x s' -> reachable_inv s'.
Proof.
  unfold timer_step, steps_of. intros Hi Hx. pose proof Hi as [Ht Hw]. destruct x as [now|a later|now later|]; cbn [timer_act] in Hx.
  - destruct (service s) eqn:Es; try done. case_decide as Hc; [|done]. destruct Ht as (l & Hq & Hk & Hl & _).
    destruct (serve_tinv now s l Hc Hq Hk Hl Hw) as (s1 & E & H1 & _ & Ew & _). unfold init_timeout_callback in Hx. simplify_eq.
    split; [done | by rewrite Ew].
  - case_decide as Hok; [|done]. destruct Hok as [Ha Hc]. apply unless_full_inv in Hx as [Hx Hw'].
    assert (Hlt : Z.of_nat (S (world_ s).2) < 2 ^ 64).
    { unfold register_timeout in Hx. destruct (add_event a (timer_ s)) as [q|]; [|done]. cbn [mbind option_bind] in Hx.
      destruct (service s); first [injection Hx as <-; exact Hw' | apply serve_world in Hx; by rewrite Hx in Hw']. }
    destruct (register_spec a later s Ha Hc Ht Hlt) as (s1 & E & H1 & _). rewrite E in Hx. by simplify_eq.
  - destruct (service s) as [| |d|] eqn:Es; try done. case_decide as Hok; [|done]. destruct Hok as (_ & Hc & Hc').
    apply unless_full_inv in Hx as [Hx Hw']. exact (expire_step s d now later s' Hi Es Hc Hc' Hx Hw').
  - injection Hx as <-. split; [|done]. destruct Ht as (l & ? & ? & ? & Hs). exists l. cbn. destruct (service s); naive_solver.
Qed.

Lemma timer_reachable w ls s : star (timer_step resume) (timers_start w) ls s -> reachable_inv s.
Proof.
  apply (star_inv _ reachable_inv); [|apply timer_step_inv]. split; [|done]. exists []. cbn. split_and!; try done. apply mm_new_repr.
Qed.


(** A timeout registered while the service waits for a kernel timeout does not
    shorten that wait: [set()] finds nobody to resume, and the pending
    [co_await timeout(&tmp)] keeps its deadline [d], however much earlier the
    new one is. *)
Theorem armed_deadline_is_not_shortened w ls s a later_ns d :
  star (timer_step resume) (timers_start w) ls s -> service s = WaitTimeout d ->
  call_ok a -> clock_ok later_ns -> Z.of_nat (S (world_ s).2) < 2 ^ 64 ->
  exists s', timer_act resume (Register a later_ns) s = Some s' /\ service s' = WaitTimeout d /\
    forall now later, now < d -> timer_act resume (Expire now later) s' = None.
Proof.
  intros Hr Es Ha Hc Hw. destruct (timer_reachable _ _ _ Hr) as [Ht _].
  destruct (register_spec a later_ns s Ha Hc Ht Hw) as (s' & E & _ & Ew & Ed). exists s'. specialize (Ed d Es). split_and!.
  - cbn [timer_act]. rewrite decide_True, E by done. cbn [mbind option_bind]. unfold unless_full. by rewrite decide_True by lia.
  - exact Ed.
  - intros now later Hlt. cbn [timer_act]. rewrite Ed. apply decide_False. lia.
Qed.
End TimerServiceFacts.

(** Two timeouts, the first asked for by a scheduled task and the second one
    shorter: both fire when the first deadline is reached. *)
Definition two_timeouts : list (timer_action (H := nat)) :=
  [Register (mk_add 7%nat 10000000 1000000000 (fun _ => false)) 1000000000; StartService 1000000000;
   Register (mk_add 8%nat 1000 1000000000 (fun _ => false)) 1000000000].
Definition no_more (_ : nat) (w : unit) : unit * list (add_call (H := nat)) := (w, []).

Lemma no_more_world ts : forall w l, (spec_resume (counting_resume no_more) ts w l).1.1 = w.
Proof. induction ts as [|t ts IH]; intros [[] n] l; [done|]. cbn [spec_resume fst]. rewrite IH. cbn. by rewrite Nat.add_0_r. Qed.


(** * The loop *)

Section Loop.
Context {T : Type}.

(** What a coroutine does with the context before it suspends, in order:
    [schedule], a [register_timeout] (by [co_await timeout(...)] in one of the
    coroutines it runs), [stop()]. *)
Inductive burst_call : Type := CallSchedule (t : T) | CallTimeout | CallStop.
Definition burst : Type := list burst_call.
Definition schedules (b : burst) : list T := omap (fun x => match x with CallSchedule t => Some t | _ => None end) b.
Context (run_task : T -> burst).

(** The timers as the loop sees them: how many are pending, [timer_event_] (a
    null pointer, [this], or the coroutine that waits), and how many calls of
    [init_timeout_callback] are suspended in [co_await timeout(&tmp)].
    ([TimerService] has the details of one call.) *)
Inductive event_state : Type := NotSet | IsSet | HasWaiter.
Record timing : Type := mk_timing { pending_timers : nat; event_of : event_state; timeout_waiters : nat }.
Definition no_timing : timing := mk_timing 0 NotSet 0.

Definition EV_BIG_VALUE : Z := 0x1fffffffffffffff.
Definition EV_SMALL_VALUE : Z := 0x1.
Definition EV_STOP_MSG : Z := EV_BIG_VALUE.
Definition EV_WAKEUP_MSG : Z := EV_SMALL_VALUE.
Definition SIGINT : Z := 2.

(** A context and the thread-local pointers [coro::io_context_thread_local] of
    the process.  [event_fd] is the counter of [internal_event_fd_],
    [event_readers] and [signal_readers] the coroutines suspended in a read of
    the two descriptors; [loop_thread] is the thread inside [run()].
    Ghost fields: the tasks executed and scheduled so far, the signals passed
    to the handler, and the stop and wake-up messages not read yet. *)
Record context : Type := mk_context {
  todo_list_ : list T; ctx_stopped : bool; event_fd : Z; event_readers : nat;
  internal_signal_fd_ : bool; signal_func_ : bool; signal_readers : nat;
  loop_thread : option nat; io_context_thread_local : gmap nat nat;
  executed : list T; scheduled : list T; handled : list Z; unread : nat * nat; the_timing : timing }.

Definition set_todo ts done sch c := mk_context ts (ctx_stopped c) (event_fd c) (event_readers c) (internal_signal_fd_ c)
  (signal_func_ c) (signal_readers c) (loop_thread c) (io_context_thread_local c) done sch (handled c) (unread c) (the_timing c).
Definition set_stopped b c := mk_context (todo_list_ c) b (event_fd c) (event_readers c) (internal_signal_fd_ c)
  (signal_func_ c) (signal_readers c) (loop_thread c) (io_context_thread_local c) (executed c) (scheduled c) (handled c) (unread c) (the_timing c).
Definition set_event n r u c := mk_context (todo_list_ c) (ctx_stopped c) n r (internal_signal_fd_ c)
  (signal_func_ c) (signal_readers c) (loop_thread c) (io_context_thread_local c) (executed c) (scheduled c) (handled c) u (the_timing c).
Definition set_signal fd f r log c := mk_context (todo_list_ c) (ctx_stopped c) (event_fd c) (event_readers c) fd
  f r (loop_thread c) (io_context_thread_local c) (executed c) (scheduled c) log (unread c) (the_timing c).
Definition set_thread t tl c := mk_context (todo_list_ c) (ctx_stopped c) (event_fd c) (event_readers c) (internal_signal_fd_ c)
  (signal_func_ c) (signal_readers c) t tl (executed c) (scheduled c) (handled c) (unread c) (the_timing c).
Definition set_timing x c := mk_context (todo_list_ c) (ctx_stopped c) (event_fd c) (event_readers c) (internal_signal_fd_ c)
  (signal_func_ c) (signal_readers c) (loop_thread c) (io_context_thread_local c) (executed c) (scheduled c) (handled c) (unread c) x.

(** [io_context(...)] after [create_eventfd()]; [None] stands for the
    [runtime_error] when there is no descriptor. *)
Definition create_eventfd (fd : Z) (tl : gmap nat nat) : option context :=
  if fd =? -1 then None else Some (mk_context [] true 0 0 false false 0 None tl [] [] [] (O, O) no_timing).
Definition register_signals (fd : Z) (func : bool) c : option context :=
  if fd =? -1 then None else Some (set_signal true func (signal_readers c) (handled c) c).

(** The pointers of [struct coro]. *)
Definition get_io_context (thread : nat) c : option nat := io_context_thread_local c !! thread.
Definition get_io_context_ref (thread : nat) c : nat + string :=
  match get_io_context thread c with Some p => inl p | None => inr "no io_context bind"%string end.
Definition provide (thread : nat) (p : option nat) c : gmap nat nat :=
  partial_alter (fun _ => p) thread (io_context_thread_local c).

Context (me : nat).
Definition on_this_thread (thread : nat) c : bool := bool_decide (get_io_context thread c = Some me).

(** Writing to an eventfd adds to its counter; a write that would pass
    2^64 - 2 blocks, which is no step here. *)
Definition notify (msg : Z) (u : nat * nat) c : option context :=
  let n := event_fd c + msg in if n <=? 2 ^ 64 - 2 then Some (set_event n (event_readers c) u c) else None.
Definition wakeup c : option context := notify EV_WAKEUP_MSG ((unread c).1, S (unread c).2) c.
Definition stop (thread : nat) c : option context :=
  if on_this_thread thread c then Some (set_stopped true c) else notify EV_STOP_MSG (S (unread c).1, (unread c).2) c.

(** [schedule], both overloads; the second also returns the caller's list. *)
Definition schedule (t : T) c : context := set_todo (todo_list_ c ++ [t]) (executed c) (scheduled c ++ [t]) c.
Definition schedule_list (task_list : list T) c : list T * context :=
  if bool_decide (todo_list_ c = []) then (todo_list_ c, set_todo task_list (executed c) (scheduled c ++ task_list) c)
  else ([], set_todo (todo_list_ c ++ task_list) (executed c) (scheduled c ++ task_list) c).

(** [init_timeout_callback] from the top of its outer loop ([test]) or its
    inner one to the next suspension.  [None] is the assertion of
    [co_await timer_event_] when another coroutine waits for the event; an
    event that is set is consumed, and the outer loop goes round. *)
Fixpoint run_service (rounds : nat) (test : bool) c : option context :=
  let p := pending_timers (the_timing c) in
  let n := timeout_waiters (the_timing c) in
  match rounds with
  | O => None
  | S rounds' =>
    if test && ctx_stopped c then Some c
    else if (0 <? p)%nat then Some (set_timing (mk_timing p (event_of (the_timing c)) (S n)) c)
    else match event_of (the_timing c) with
      | NotSet => Some (set_timing (mk_timing p HasWaiter n) c)
      | IsSet => run_service rounds' true (set_timing (mk_timing p NotSet n) c)
      | HasWaiter => None
      end
  end.
Definition start_service c : option context := run_service 2 true c.
(** [register_timeout]: [set()] resumes the coroutine that waits. *)
Definition register_timer c : option context :=
  let t := the_timing c in
  let set e := set_timing (mk_timing (S (pending_timers t)) e (timeout_waiters t)) c in
  match event_of t with
  | HasWaiter => run_service 2 true (set NotSet)
  | _ => Some (set IsSet)
  end.

(** A coroutine runs on thread [thread] until it suspends. *)
Definition burst_step (thread : nat) (x : burst_call) c : option context :=
  match x with CallSchedule t => Some (schedule t c) | CallTimeout => register_timer c | CallStop => stop thread c end.
Fixpoint run_burst (thread : nat) (b : burst) c : option context :=
  match b with [] => Some c | x :: b' => c' ← burst_step thread x c; run_burst thread b' c' end.
(** [timer_.handle_events()]: timers fire, one after the other. *)
Fixpoint fire_timers (thread : nat) (bs : list burst) c : option context :=
  match bs with
  | [] => Some c
  | b :: bs' =>
    let t := the_timing c in
    match pending_timers t with
    | O => None
    | S p => c' ← run_burst thread b (set_timing (mk_timing p (event_of t) (timeout_waiters t)) c); fire_timers thread bs' c'
    end
  end.
Definition execute (thread : nat) (t : T) c : option context :=
  run_burst thread (run_task t) (set_todo (todo_list_ c) (executed c ++ [t]) (scheduled c) c).
Fixpoint execute_all (thread : nat) (ts : list T) c : option context :=
  match ts with [] => Some c | t :: ts' => c' ← execute thread t c; execute_all thread ts' c' end.
Definition do_todo_list (thread : nat) c : option context :=
  let local_copy := todo_list_ c in execute_all thread local_copy (set_todo [] (executed c) (scheduled c) c).

(** A completion resumes [init_eventfd], [init_signalfd],
    [init_timeout_callback], which fires timers, or another coroutine. *)
Inductive completion : Type := EventRead | SignalRead (signo : Z) | TimeoutExpires (bs : list burst) | Resumed (b : burst).
Definition handle_completion (thread : nat) (x : completion) c : option context :=
  match x with
  | EventRead =>
    if (0 <? event_fd c) && (0 <? event_readers c)%nat then
      let msg := event_fd c in
      let stopped' := ctx_stopped c || (EV_STOP_MSG <=? msg) in
      let readers' := if stopped' then pred (event_readers c) else event_readers c in
      Some (set_stopped stopped' (set_event 0 readers' (O, O) c))
    else None
  | SignalRead signo =>
    if (0 <? signal_readers c)%nat then
      let stopped' := ctx_stopped c || (signo =? SIGINT) in
      let readers' := if stopped' then pred (signal_readers c) else signal_readers c in
      Some (set_stopped stopped' (set_signal (internal_signal_fd_ c) (signal_func_ c) readers'
        (if signal_func_ c then handled c ++ [signo] else handled c) c))
    else None
  | TimeoutExpires bs =>
    let t := the_timing c in
    match timeout_waiters t with
    | O => None
    | S n => c' ← fire_timers thread bs (set_timing (mk_timing (pending_timers t) (event_of t) n) c); run_service 2 false c'
    end
  | Resumed b => run_burst thread b c
  end.
Fixpoint handle_completions_of (thread : nat) (xs : list completion) c : option context :=
  match xs with [] => Some c | x :: xs' => c' ← handle_completion thread x c; handle_completions_of thread xs' c' end.

(** [run] and [do_run] up to [do_todo_list], and up to the loop; one round of
    the loop, and the return of [run]. *)
Definition run_start (thread : nat) c : context :=
  let c1 := set_stopped false (set_thread (Some thread) (provide thread (Some me) c) c) in
  let c2 := set_event (event_fd c1) (S (event_readers c1)) (unread c1) c1 in
  if internal_signal_fd_ c2 then set_signal true (signal_func_ c2) (S (signal_readers c2)) (handled c2) c2 else c2.
Definition run_prologue (thread : nat) c : option context :=
  c' ← do_todo_list thread (run_start thread c); start_service c'.
Definition run_round (thread : nat) (xs : list completion) c : option context :=
  c' ← handle_completions_of thread xs c; do_todo_list thread c'.
Definition run_return (thread : nat) c : context := set_thread None (provide thread None c) c.

(** What the process does: tasks scheduled from outside, [wakeup()] and
    [stop()] from any thread, and the context's own run. *)
Inductive loop_action : Type :=
| Schedule (t : T) | ScheduleList (ts : list T) | Wakeup | StopFrom (thread : nat) | RegisterSignals (func : bool)
| Run (thread : nat) | Round (xs : list completion) | Return.
Definition loop_act (x : loop_action) c : option context :=
  match x with
  | Schedule t => Some (schedule t c)
  | ScheduleList ts => Some (schedule_list ts c).2
  | Wakeup => wakeup c
  | StopFrom thread => stop thread c
  | RegisterSignals func => register_signals 3 func c
  | Run thread => match loop_thread c, get_io_context thread c with None, None => run_prologue thread c | _, _ => None end
  | Round xs =>
    match loop_thread c with Some thread => if ctx_stopped c || bool_decide (xs = []) then None else run_round thread xs c | None => None end
  | Return => match loop_thread c with Some thread => if ctx_stopped c then Some (run_return thread c) else None | None => None end
  end.
Definition loop_step : context -> loop_action -> context -> Prop := steps_of loop_act.
End Loop.

(** The frames of the context's own coroutines that are suspended: in a read of
    the two descriptors, in a timeout, in [co_await timer_event_]. *)
Definition timer_frames (t : timing) : nat := timeout_waiters t + (if event_of t is HasWaiter then 1 else 0).
Definition service_frames {T} (c : context (T := T)) : nat := event_readers c + signal_readers c + timer_frames (the_timing c).

Section LoopFacts.
Context {T : Type} (run_task : T -> burst (T := T)) (me : nat).
Implicit Types (c : context (T := T)) (local_copy : list T).

(** The invariant, while [local_copy] is still to be executed. *)
Record linv local_copy c : Prop := {
  in_order : executed c ++ local_copy ++ todo_list_ c = scheduled c;
  counted : event_fd c = EV_STOP_MSG * Z.of_nat (unread c).1 + EV_WAKEUP_MSG * Z.of_nat (unread c).2;
  bound_iff : forall t, io_context_thread_local c !! t = Some me <-> loop_thread c = Some t;
  reading : loop_thread c <> None -> ctx_stopped c = false -> (0 < event_readers c)%nat;
  nothing_missed : event_of (the_timing c) = HasWaiter -> pending_timers (the_timing c) = O
}.

Lemma on_this_thread_iff l c t : linv l c -> on_this_thread me t c = bool_decide (loop_thread c = Some t).
Proof. intros Hi. unfold on_this_thread, get_io_context. apply bool_decide_ext, (bound_iff l c Hi). Qed.

(** What runs on the loop's thread between two visits to the descriptors:
    nothing but the to-do list, [stopped_] and the timers changes, no
    coroutine starts to wait for [timer_event_], and there are no more calls
    of [init_timeout_callback] suspended than before. *)
Definition local c c' : Prop := loop_thread c' = loop_thread c /\ event_fd c' = event_fd c /\ unread c' = unread c /\
  event_readers c' = event_readers c /\ (ctx_stopped c = true -> ctx_stopped c' = true) /\
  (event_of (the_timing c) <> HasWaiter -> event_of (the_timing c') <> HasWaiter) /\
  signal_readers c' = signal_readers c /\ (timer_frames (the_timing c') <= timer_frames (the_timing c))%nat.
#[export] Instance local_pre : PreOrder local.
Proof. split; [intros c | intros c1 c2 c3 H1 H2]; unfold local in *; naive_solver (congruence || lia). Qed.

(** What [c'] has in common with [c] when only the timers differ. *)
Definition same_loop c c' : Prop := set_timing (the_timing c) c' = c.
Lemma same_loop_linv l c c' : same_loop c c' -> (event_of (the_timing c') = HasWaiter -> pending_timers (the_timing c') = O) -> linv l c -> linv l c'.
Proof. intros E Ht [? ? ? ? ?]. destruct c, c'. injection E as -> -> -> -> -> -> -> -> -> -> -> -> ->. by split. Qed.
Lemma same_loop_fields c c' : same_loop c c' -> loop_thread c' = loop_thread c /\ event_fd c' = event_fd c /\ unread c' = unread c /\
  event_readers c' = event_readers c /\ ctx_stopped c' = ctx_stopped c /\ executed c' = executed c /\ scheduled c' = scheduled c /\
  todo_list_ c' = todo_list_ c /\ io_context_thread_local c' = io_context_thread_local c /\ signal_readers c' = signal_readers c.
Proof. intros E. destruct c, c'. by injection E as -> -> -> -> -> -> -> -> -> -> -> -> ->. Qed.

Lemma run_service_frames rounds : forall test c c', run_service rounds test c = Some c' ->
  (timer_frames (the_timing c') <= S (timer_frames (the_timing c)))%nat.
Proof.
  induction rounds as [|rounds IH]; intros test c c' E; [done|]. cbn [run_service] in E. unfold timer_frames in *.
  destruct (test && ctx_stopped c); [injection E as <-; lia|]. destruct (_ <? _)%nat; [injection E as <-; cbn; lia|].
  destruct (event_of (the_timing c)) eqn:Ee; [injection E as <-; cbn; lia | | done]. apply IH in E. cbn in E. lia.
Qed.
Lemma run_service_same rounds : forall test c c', run_service rounds test c = Some c' ->
  (event_of (the_timing c) = HasWaiter -> pending_timers (the_timing c) = O) ->
  same_loop c c' /\ (event_of (the_timing c') = HasWaiter -> pending_timers (the_timing c') = O).
Proof.
  induction rounds as [|rounds IH]; intros test c c' E Hw; [done|]. cbn [run_service] in E.
  destruct (test && ctx_stopped c); [injection E as <-; split; [by destruct c | done]|].
  destruct (Nat.ltb_spec 0 (pending_timers (the_timing c))); [injection E as <-; split; [by destruct c | done]|].
  destruct (event_of (the_timing c)); [injection E as <-; split; [by destruct c | cbn; lia] | | done].
  apply IH in E as [E Hp]; [|done]. split; [|exact Hp]. destruct c, c'. injection E. intros. by subst.
Qed.
(** The service can always be started unless an earlier one still waits. *)
Lemma start_service_ok c : event_of (the_timing c) <> HasWaiter -> is_Some (start_service c).
Proof.
  intros Hw. unfold start_service. cbn [run_service andb]. destruct (ctx_stopped c) eqn:Es; [by eexists|]. destruct (pending_timers (the_timing c)) as [|p] eqn:Ep; [|by eexists].
  destruct (event_of (the_timing c)); [by eexists | | done]. cbn. rewrite Es. by eexists.
Qed.
Lemma register_timer_ok l c : linv l c -> exists c', register_timer c = Some c' /\ linv l c' /\ same_loop c c' /\
  event_of (the_timing c') <> HasWaiter /\ (timer_frames (the_timing c') <= timer_frames (the_timing c))%nat.
Proof.
  intros Hi. assert (H1 : forall e, same_loop c (set_timing (mk_timing (S (pending_timers (the_timing c))) e (timeout_waiters (the_timing c))) c)) by (by destruct c).
  assert (Hset : linv l (set_timing (mk_timing (S (pending_timers (the_timing c))) IsSet (timeout_waiters (the_timing c))) c)) by (by eapply same_loop_linv).
  unfold register_timer. destruct (event_of (the_timing c)) eqn:Ee;
    [eexists; split_and!; [done | exact Hset | apply H1 | done | unfold timer_frames; rewrite Ee; cbn; lia].. |]. cbn [run_service andb ctx_stopped set_timing].
  destruct (ctx_stopped c); cbn [the_timing pending_timers set_timing Nat.ltb Nat.leb].
  - eexists. split; [done|]. split_and!; [by eapply same_loop_linv | apply H1 | done | unfold timer_frames; rewrite Ee; cbn; lia].
  - eexists. split; [done|]. split_and!; [| by destruct c | done | unfold timer_frames; rewrite Ee; cbn; lia]. eapply (same_loop_linv l c); [by destruct c | done | done].
Qed.

Lemma same_loop_local c c' : same_loop c c' -> event_of (the_timing c') <> HasWaiter ->
  (timer_frames (the_timing c') <= timer_frames (the_timing c))%nat -> local c c'.
Proof. intros (A1 & A2 & A3 & A4 & A5 & _ & _ & _ & _ & A6)%same_loop_fields Hn Hf. split_and!; [done..| by rewrite A5 | done | done | done]. Qed.
Lemma burst_step_ok l t x c : linv l c -> loop_thread c = Some t -> exists c', burst_step me t x c = Some c' /\ linv l c' /\
  local c c' /\ executed c' = executed c /\ scheduled c' = scheduled c ++ schedules [x].
Proof.
  intros Hi Ht. destruct x as [x| |]; cbn [burst_step].
  - eexists. split; [done|]. split_and!; try done. destruct Hi as [Ho ?]. split; try done. cbn. by rewrite <- Ho, !app_assoc.
  - destruct (register_timer_ok l c Hi) as (c' & E & H1 & Hs & Hn & Hf). exists c'. cbn [schedules omap list_omap]. rewrite app_nil_r.
    pose proof (same_loop_fields _ _ Hs) as (_ & _ & _ & _ & _ & A6 & A7 & _). split_and!; try done. by apply same_loop_local.
  - unfold stop. rewrite (on_this_thread_iff l), bool_decide_eq_true_2 by done. eexists. split; [done|]. cbn. rewrite app_nil_r.
    split_and!; try done. by destruct Hi.
Qed.
Lemma run_burst_ok l t b : forall c, linv l c -> loop_thread c = Some t -> exists c', run_burst me t b c = Some c' /\ linv l c' /\
  local c c' /\ executed c' = executed c /\ scheduled c' = scheduled c ++ schedules b.
Proof.
  induction b as [|x b IH]; intros c Hi Ht; [exists c; cbn; by rewrite app_nil_r|].
  destruct (burst_step_ok l t x c Hi Ht) as (c1 & E1 & H1 & L1 & X1 & S1). cbn [run_burst]. rewrite E1. cbn [mbind option_bind].
  destruct (IH c1 H1) as (c' & E' & H' & L' & X' & S'); [by rewrite (proj1 L1)|]. exists c'. split_and!; [done | done | by transitivity c1 | congruence |].
  rewrite S', S1, <- app_assoc. do 2 f_equal. by destruct x.
Qed.
Lemma fire_timers_inv t bs : forall c c', linv [] c -> loop_thread c = Some t -> fire_timers me t bs c = Some c' ->
  linv [] c' /\ local c c'.
Proof.
  induction bs as [|b bs IH]; intros c c' Hi Ht E; [injection E as <-; by split|]. cbn [fire_timers] in E.
  destruct (pending_timers (the_timing c)) as [|p] eqn:Ep; [done|].
  destruct (run_burst_ok [] t b (set_timing (mk_timing p (event_of (the_timing c)) (timeout_waiters (the_timing c))) c)) as (c1 & E1 & H1 & L1 & _).
  { eapply (same_loop_linv [] c); [by destruct c | | done]. cbn. intros Hw. pose proof (nothing_missed [] c Hi Hw). lia. }
  { done. }
  rewrite E1 in E. destruct (IH c1 c' H1) as [H2 L2]; [by rewrite (proj1 L1) | exact E |]. split; [done|]. etrans; [|exact L2]. exact L1.
Qed.

Lemma execute_all_ok t ts : forall c, linv ts c -> loop_thread c = Some t ->
  exists c' new, execute_all run_task me t ts c = Some c' /\ linv [] c' /\ local c c' /\ executed c' = executed c ++ ts /\
    scheduled c' = scheduled c ++ new.
Proof.
  induction ts as [|x ts IH]; intros c Hi Ht; [exists c, []; by rewrite !app_nil_r|].
  assert (Hi1 : linv ts (set_todo (todo_list_ c) (executed c ++ [x]) (scheduled c) c)).
  { destruct Hi as [Ho ?]. split; try done. cbn. by rewrite <- Ho, <- app_assoc. }
  destruct (run_burst_ok ts t (run_task x) _ Hi1 Ht) as (c1 & E1 & H1 & L1 & X1 & S1).
  destruct (IH c1 H1) as (c' & new & E' & H' & L' & X' & S'); [by rewrite (proj1 L1)|].
  exists c', (schedules (run_task x) ++ new). cbn [execute_all]. unfold execute. rewrite E1. cbn [mbind option_bind].
  split; [exact E'|]. split; [exact H'|]. split; [by transitivity c1|]. rewrite X', X1, S', S1. cbn. by rewrite <- !app_assoc.
Qed.

Lemma do_todo_list_ok t c : linv [] c -> loop_thread c = Some t -> exists c', do_todo_list run_task me t c = Some c' /\
  linv [] c' /\ local c c' /\ executed c' = scheduled c.
Proof.
  intros Hi Ht. destruct (execute_all_ok t (todo_list_ c) (set_todo [] (executed c) (scheduled c) c)) as (c' & new & E & H' & L & X & _).
  { destruct Hi as [Ho ?]. split; try done. cbn. by rewrite app_nil_r. }
  { done. }
  exists c'. split; [exact E|]. split; [done|]. split; [exact L|]. rewrite X. apply (in_order [] c Hi).
Qed.

Lemma handle_completion_inv t x c c' : linv [] c -> loop_thread c = Some t -> handle_completion me t x c = Some c' ->
  linv [] c' /\ loop_thread c' = Some t.
Proof.
  intros Hi Ht E. destruct x as [|signo|bs|b]; cbn [handle_completion] in E.
  - destruct (_ && _) eqn:Er; [|done]. injection E as <-. apply andb_true_iff in Er as [_ Hr%Nat.ltb_lt].
    split; [|done]. destruct Hi. split; try done. cbn. intros _ Hs. rewrite Hs. done.
  - destruct (0 <? signal_readers c)%nat; [|done]. injection E as <-. split; [|done]. destruct Hi as [? ? ? Hr Hw]. split; try done.
    cbn. intros Hl [Hs _]%orb_false_iff. by apply Hr.
  - destruct (timeout_waiters (the_timing c)) as [|n]; [done|]. set (c0 := set_timing _ c) in E.
    assert (Hi0 : linv [] c0) by (eapply (same_loop_linv [] c); [by destruct c | apply (nothing_missed [] c Hi) | done]).
    destruct (fire_timers me t bs c0) as [c1|] eqn:E1; [|done]. cbn [mbind option_bind] in E. destruct (fire_timers_inv t bs c0 c1 Hi0 Ht E1) as [H1 L1].
    apply run_service_same in E as [Hs Hw]; [|apply (nothing_missed [] c1 H1)]. split; [by eapply same_loop_linv|].
    by rewrite (proj1 (same_loop_fields _ _ Hs)), (proj1 L1).
  - destruct (run_burst_ok [] t b c Hi Ht) as (c1 & E1 & H1 & L1 & _). rewrite E1 in E. injection E as <-.
    split; [done|]. by rewrite (proj1 L1).
Qed.
Lemma handle_completions_inv t xs : forall c c', linv [] c -> loop_thread c = Some t ->
  handle_completions_of me t xs c = Some c' -> linv [] c' /\ loop_thread c' = Some t.
Proof.
  induction xs as [|x xs IH]; intros c c' Hi Ht E; [by injection E as <-|]. cbn [handle_completions_of] in E.
  destruct (handle_completion me t x c) as [c1|] eqn:E1; [|done]. destruct (handle_completion_inv t x c c1 Hi Ht E1). by eapply IH.
Qed.

Lemma notify_linv l msg u c c' : linv l c -> msg = EV_STOP_MSG * (Z.of_nat u.1 - Z.of_nat (unread c).1) +
    EV_WAKEUP_MSG * (Z.of_nat u.2 - Z.of_nat (unread c).2) -> notify msg u c = Some c' -> linv l c'.
Proof.
  intros [? Hc ? ? ?] Em E. unfold notify in E. destruct (_ <=? _); [|done]. injection E as <-. split; try done. cbn. rewrite Hc, Em. lia.
Qed.

Lemma run_start_ok t c : linv [] c -> loop_thread c = None -> io_context_thread_local c !! t = None ->
  linv [] (run_start me t c) /\ loop_thread (run_start me t c) = Some t /\ scheduled (run_start me t c) = scheduled c /\
  the_timing (run_start me t c) = the_timing c.
Proof.
  intros [Ho Hc Hb Hr Hw] Hl Ht. assert (Hb' : forall t', provide t (Some me) c !! t' = Some me <-> Some t = Some t').
  { intros t'. unfold provide. destruct (decide (t = t')) as [->|Hn]; [by rewrite lookup_partial_alter_eq|].
    rewrite lookup_partial_alter_ne by done. split; [intros H1%Hb; congruence | congruence]. }
  unfold run_start. cbn. destruct (internal_signal_fd_ c); (split; [split; cbn; try done; lia | split_and!; done]).
Qed.
Lemma run_prologue_inv t c c' : linv [] c -> loop_thread c = None -> io_context_thread_local c !! t = None ->
  run_prologue run_task me t c = Some c' -> linv [] c' /\ loop_thread c' = Some t /\ executed c' = scheduled c.
Proof.
  intros Hi Hl Ht E. destruct (run_start_ok t c Hi Hl Ht) as (H3 & L3 & S3 & _). destruct (do_todo_list_ok t _ H3 L3) as (c1 & E1 & H1 & L1 & X).
  unfold run_prologue in E. rewrite E1 in E. cbn [mbind option_bind] in E. apply run_service_same in E as [Hs Hw]; [|apply (nothing_missed [] c1 H1)].
  pose proof (same_loop_fields _ _ Hs) as (A1 & _ & _ & _ & _ & A6 & _). split; [by eapply same_loop_linv|]. rewrite A1, A6, X, S3, (proj1 L1). done.
Qed.
Lemma run_prologue_ok t c : linv [] c -> loop_thread c = None -> io_context_thread_local c !! t = None ->
  event_of (the_timing c) <> HasWaiter -> is_Some (run_prologue run_task me t c).
Proof.
  intros Hi Hl Ht Hn. destruct (run_start_ok t c Hi Hl Ht) as (H3 & L3 & _ & T3).
  destruct (do_todo_list_ok t _ H3 L3) as (c1 & E & H' & (_ & _ & _ & _ & _ & Hw & _) & _). unfold run_prologue. rewrite E.
  apply start_service_ok, Hw. by rewrite T3.
Qed.
(** [run()] of a context whose service still waits for the event. *)
Lemma run_prologue_again t c : linv [] c -> todo_list_ c = [] -> event_of (the_timing c) = HasWaiter -> run_prologue run_task me t c = None.
Proof.
  intros Hi Hd Hw. pose proof (nothing_missed [] c Hi Hw) as Hp. unfold run_prologue, do_todo_list, run_start. cbn.
  destruct (internal_signal_fd_ c); cbn; rewrite Hd; cbn; unfold start_service; cbn; by rewrite Hp, Hw.
Qed.
(** Before the first [run()] nobody waits for the event. *)
Lemma not_run_yet ls : forall c c', star (loop_step run_task me) c ls c' -> (forall t, Run t ∉ ls) -> loop_thread c = None ->
  event_of (the_timing c) <> HasWaiter -> loop_thread c' = None /\ event_of (the_timing c') <> HasWaiter.
Proof.
  intros c c' Hs. induction Hs as [|c ls c1 x c2 _ IH Hx]; intros Hr Hl Hw; [done|].
  destruct IH as [Hl1 Hw1]; [intros t Hin; apply (Hr t), elem_of_app; by left | done | done |].
  assert (Hx' : forall t, x <> Run t) by (intros t ->; apply (Hr t), elem_of_app; right; left). unfold loop_step, steps_of in Hx.
  destruct x as [t|ts| |t|f|t|xs|]; cbn [loop_act] in Hx; rewrite ?Hl1 in Hx; try done; try (by injection Hx as <-).
  - injection Hx as <-. unfold schedule_list. by case_bool_decide.
  - unfold wakeup, notify in Hx. by case_match; simplify_eq.
  - unfold stop, notify in Hx. by repeat case_match; simplify_eq.
  - by destruct (Hx' t).
Qed.

Lemma run_return_inv t c : linv [] c -> loop_thread c = Some t -> linv [] (run_return t c).
Proof.
  intros [Ho Hc Hb Hr Hw] Ht. split; try done. cbn. intros t'. unfold provide. split; [|done].
  destruct (decide (t = t')) as [->|Hn]; [by rewrite lookup_partial_alter_eq|].
  rewrite lookup_partial_alter_ne by done. intros H1%Hb. congruence.
Qed.

Lemma loop_step_inv c x c' : linv [] c -> loop_step run_task me c x c' -> linv [] c'.
Proof.
  unfold loop_step, steps_of. intros Hi E. destruct x as [t|ts| |t|f|t|xs|]; cbn [loop_act] in E.
  - injection E as <-. destruct Hi as [Ho ?]. split; try done. cbn. rewrite <- Ho. cbn. by rewrite app_assoc.
  - injection E as <-. unfold schedule_list. destruct Hi as [Ho ?]. case_bool_decide as Hn; split; try done; cbn; rewrite <- Ho; cbn;
      [by rewrite Hn, app_nil_r | by rewrite !app_assoc].
  - eapply notify_linv; [done | | done]. cbn. lia.
  - unfold stop in E. rewrite (on_this_thread_iff []) in E by done. case_bool_decide.
    + injection E as <-. by destruct Hi.
    + eapply notify_linv; [done | | done]. cbn. lia.
  - injection E as <-. by destruct Hi.
  - destruct (loop_thread c) eqn:Hl; [done|]. unfold get_io_context in E. destruct (io_context_thread_local c !! t) eqn:Ht; [done|].
    by destruct (run_prologue_inv t c c' Hi Hl Ht E).
  - destruct (loop_thread c) as [t|] eqn:Hl; [|done]. destruct (_ || _); [done|]. unfold run_round in E.
    destruct (handle_completions_of me t xs c) as [c1|] eqn:E1; [|done]. cbn [mbind option_bind] in E.
    destruct (handle_completions_inv t xs c c1 Hi Hl E1) as [H1 L1].
    destruct (do_todo_list_ok t c1 H1 L1) as (c2 & E2 & H2 & _). rewrite E2 in E. by injection E as <-.
  - destruct (loop_thread c) as [t|] eqn:Hl; [|done]. destruct (ctx_stopped c); [|done]. injection E as <-. by apply run_return_inv.
Qed.

(** ** The frames of the context's own coroutines *)

Lemma local_frames c c' : local c c' -> (service_frames c' <= service_frames c)%nat.
Proof. unfold local, service_frames. lia. Qed.
Lemma handle_completion_frames t x c c' : linv [] c -> loop_thread c = Some t -> handle_completion me t x c = Some c' ->
  (service_frames c' <= service_frames c)%nat.
Proof.
  intros Hi Ht E. destruct x as [|signo|bs|b]; cbn [handle_completion] in E; unfold service_frames.
  - destruct (_ && _); [|done]. injection E as <-. cbn. destruct (_ || _); lia.
  - destruct (_ <? _)%nat; [|done]. injection E as <-. cbn. destruct (_ || _); lia.
  - destruct (timeout_waiters (the_timing c)) as [|n] eqn:En; [done|]. set (c0 := set_timing _ c) in E.
    assert (Hi0 : linv [] c0) by (eapply (same_loop_linv [] c); [by destruct c | apply (nothing_missed [] c Hi) | done]).
    destruct (fire_timers me t bs c0) as [c1|] eqn:E1; [|done]. cbn [mbind option_bind] in E. destruct (fire_timers_inv t bs c0 c1 Hi0 Ht E1) as [H1 L1].
    pose proof (run_service_frames _ _ _ _ E) as Hf. apply run_service_same in E as [Hs Hw]; [|apply (nothing_missed [] c1 H1)].
    pose proof (same_loop_fields _ _ Hs) as (_ & _ & _ & A4 & _ & _ & _ & _ & _ & A10). destruct L1 as (_ & _ & _ & L4 & _ & _ & L7 & L8).
    rewrite A4, A10, L4, L7. unfold timer_frames in *. cbn in *. rewrite En. lia.
  - destruct (run_burst_ok [] t b c Hi Ht) as (c1 & E1 & _ & L1 & _). rewrite E1 in E. injection E as <-. by apply local_frames.
Qed.
Lemma handle_completions_frames t xs : forall c c', linv [] c -> loop_thread c = Some t ->
  handle_completions_of me t xs c = Some c' -> (service_frames c' <= service_frames c)%nat.
Proof.
  induction xs as [|x xs IH]; intros c c' Hi Ht E; [by injection E as <-|]. cbn [handle_completions_of] in E.
  destruct (handle_completion me t x c) as [c1|] eqn:E1; [|done]. destruct (handle_completion_inv t x c c1 Hi Ht E1) as [H1 L1].
  pose proof (handle_completion_frames t x c c1 Hi Ht E1). specialize (IH c1 c' H1 L1 E). lia.
Qed.
Lemma run_prologue_frames t c c' : linv [] c -> loop_thread c = None -> io_context_thread_local c !! t = None ->
  run_prologue run_task me t c = Some c' -> (service_frames c' <= 3 + service_frames c)%nat.
Proof.
  intros Hi Hl Ht E. destruct (run_start_ok t c Hi Hl Ht) as (H3 & L3 & _). destruct (do_todo_list_ok t _ H3 L3) as (c1 & E1 & H1 & L1 & _).
  unfold run_prologue in E. rewrite E1 in E. cbn [mbind option_bind] in E. pose proof (run_service_frames _ _ _ _ E) as Hf.
  apply run_service_same in E as [Hs _]; [|apply (nothing_missed [] c1 H1)].
  pose proof (same_loop_fields _ _ Hs) as (_ & _ & _ & A4 & _ & _ & _ & _ & _ & A10). apply local_frames in L1.
  assert (H0 : (service_frames (run_start me t c) <= 2 + service_frames c)%nat)
    by (unfold service_frames, run_start; cbn; destruct (internal_signal_fd_ c); cbn; lia).
  unfold service_frames in *. lia.
Qed.
Definition is_run (x : loop_action (T := T)) : bool := match x with Run _ => true | _ => false end.
Definition runs_of (ls : list loop_action) : nat := length (filter (fun x => is_run x = true) ls).
(** A call of [run()] starts at most three of them. *)
Lemma loop_step_frames c x c' : linv [] c -> loop_step run_task me c x c' -> (service_frames c' <= 3 * runs_of [x] + service_frames c)%nat.
Proof.
  unfold loop_step, steps_of. intros Hi E. assert (Hsame : service_frames c' = service_frames c -> (service_frames c' <= 3 * runs_of [x] + service_frames c)%nat)
    by lia.
  destruct x as [t|ts| |t|f|t|xs|]; cbn [loop_act] in E.
  - injection E as <-. by apply Hsame.
  - injection E as <-. apply Hsame. unfold schedule_list. by case_bool_decide.
  - unfold wakeup, notify in E. case_match; [injection E as <-; by apply Hsame | done].
  - unfold stop, notify in E. repeat case_match; try done; injection E as <-; by apply Hsame.
  - injection E as <-. by apply Hsame.
  - destruct (loop_thread c) eqn:Hl; [done|]. unfold get_io_context in E. destruct (io_context_thread_local c !! t) eqn:Ht; [done|].
    exact (run_prologue_frames t c c' Hi Hl Ht E).
  - destruct (loop_thread c) as [t|] eqn:Hl; [|done]. destruct (_ || _); [done|]. unfold run_round in E.
    destruct (handle_completions_of me t xs c) as [c1|] eqn:E1; [|done]. cbn [mbind option_bind] in E.
    destruct (handle_completions_inv t xs c c1 Hi Hl E1) as [H1 L1]. pose proof (handle_completions_frames t xs c c1 Hi Hl E1).
    destruct (do_todo_list_ok t c1 H1 L1) as (c2 & E2 & _ & L2%local_frames & _). rewrite E2 in E. injection E as <-. lia.
  - destruct (loop_thread c) as [t|] eqn:Hl; [|done]. destruct (ctx_stopped c); [|done]. injection E as <-. by apply Hsame.
Qed.

(** A context just made: its address is nowhere in the thread-local pointers. *)
Definition fresh_context (tl : gmap nat nat) c : Prop := create_eventfd 3 tl = Some c /\ forall t, tl !! t <> Some me.
Lemma loop_reachable tl c0 ls c : fresh_context tl c0 -> star (loop_step run_task me) c0 ls c -> linv [] c.
Proof.
  intros [E Hn]. apply (star_inv _ (linv [])); [|apply loop_step_inv]. injection E as <-. split; try done.
  cbn. intros t. split; [intros H1; by destruct (Hn t) | done].
Qed.

Lemma frames_per_run tl c0 ls c : fresh_context tl c0 -> star (loop_step run_task me) c0 ls c -> (service_frames c <= 3 * runs_of ls)%nat.
Proof.
  intros Hc Hs. induction Hs as [|c0 ls c1 x c2 Hs IH Hx]; [destruct Hc as [[= <-] _]; done|].
  pose proof (loop_step_frames c1 x c2 (loop_reachable tl c0 ls c1 Hc Hs) Hx). specialize (IH Hc). unfold runs_of in *. rewrite filter_app, length_app. lia.
Qed.

(** The batch of completions of coroutines that only schedule tasks or stop. *)
Lemma resumed_all_ok t bs : forall c, linv [] c -> loop_thread c = Some t ->
  exists c', handle_completions_of me t (Resumed <$> bs) c = Some c' /\ linv [] c' /\ loop_thread c' = Some t /\
    scheduled c' = scheduled c ++ (bs ≫= schedules).
Proof.
  induction bs as [|b bs IH]; intros c Hi Ht; [exists c; by rewrite app_nil_r|]. cbn [fmap list_fmap handle_completions_of handle_completion].
  destruct (run_burst_ok [] t b c Hi Ht) as (c1 & E1 & H1 & L1 & _ & S1). rewrite E1. cbn [mbind option_bind].
  destruct (IH c1 H1) as (c' & E' & H' & L' & S'); [by rewrite (proj1 L1)|]. exists c'. split_and!; [done..|].
  rewrite S', S1, <- app_assoc. done.
Qed.

(** [C17] Every scheduled task is executed exactly once, in the order of
    scheduling.  In every reachable state the tasks executed so far followed
    by [todo_list_] are exactly the tasks scheduled so far, by either overload
    of [schedule] and from any coroutine.  Starting the loop succeeds and
    executes all tasks scheduled before, whatever they do, provided that no
    [init_timeout_callback] of an earlier [run()] still waits for
    [timer_event_], as is the case before the first [run()]; when one does
    and no task is scheduled, starting the loop fails, by the assertion in
    [co_await timer_event_].  A round in which coroutines are resumed never
    fails and executes all tasks scheduled before it and by those coroutines,
    whether or not the context was stopped meanwhile; tasks scheduled by the
    tasks themselves wait for the next round. *)
Theorem scheduled_tasks_run_once_in_order tl c0 ls c : fresh_context tl c0 -> star (loop_step run_task me) c0 ls c ->
  executed c ++ todo_list_ c = scheduled c /\
  (forall t, loop_thread c = None -> get_io_context t c = None -> event_of (the_timing c) <> HasWaiter ->
    exists c', loop_act run_task me (Run t) c = Some c' /\ executed c' = scheduled c /\ get_io_context_ref t c' = inl me) /\
  ((forall t, Run t ∉ ls) -> loop_thread c = None /\ event_of (the_timing c) <> HasWaiter) /\
  (forall t, event_of (the_timing c) = HasWaiter -> todo_list_ c = [] -> loop_act run_task me (Run t) c = None) /\
  (forall t bs, loop_thread c = Some t -> ctx_stopped c = false -> bs <> [] ->
    exists c', loop_act run_task me (Round (Resumed <$> bs)) c = Some c' /\ executed c' = scheduled c ++ (bs ≫= schedules)).
Proof.
  intros H0 Hr. pose proof (loop_reachable _ _ _ _ H0 Hr) as Hi. split_and!; [apply (in_order [] c Hi) | | | |].
  - intros t Hl Ht Hw. destruct (run_prologue_ok t c Hi Hl Ht Hw) as [c' E]. destruct (run_prologue_inv t c c' Hi Hl Ht E) as (H' & L' & X).
    exists c'. cbn [loop_act]. rewrite Hl, Ht. split_and!; [done..|]. unfold get_io_context_ref, get_io_context.
    by rewrite (proj2 (bound_iff [] c' H' t) L').
  - intros Hn. eapply not_run_yet; [exact Hr | exact Hn | |]; destruct H0 as [[= <-] _]; done.
  - intros t Hw Hd. cbn [loop_act]. destruct (loop_thread c), (get_io_context t c); try done. by apply run_prologue_again.
  - intros t bs Hl Hs Hne. destruct (resumed_all_ok t bs c Hi Hl) as (c1 & E1 & H1 & L1 & S1).
    destruct (do_todo_list_ok t c1 H1 L1) as (c' & E' & _ & _ & X). exists c'. cbn [loop_act]. rewrite Hl, Hs.
    rewrite bool_decide_eq_false_2 by (by destruct bs). cbn [orb]. unfold run_round. rewrite E1. cbn [mbind option_bind].
    split; [exact E'|]. by rewrite X.
Qed.

(** [C18] [stop()] reaches the loop, and wake-ups do not stop it.  In every
    reachable state with fewer than 2^61 - 1 unread wake-ups: a call of
    [stop()] is taken for a local one exactly on the thread inside [run()],
    and from any other thread it is written to the eventfd (up to seven unread
    ones without blocking) whether the loop runs yet or not.  While the loop
    runs, unread messages always find a pending read; the read takes all of
    them and stops the loop if and only if one was a stop, after which the
    round finishes and [run()] can return. *)
Theorem stop_messages_stop_the_loop tl c0 ls c : fresh_context tl c0 -> star (loop_step run_task me) c0 ls c ->
  Z.of_nat (unread c).2 < 2 ^ 61 - 1 ->
  (forall t, on_this_thread me t c = bool_decide (loop_thread c = Some t)) /\
  (forall t, loop_thread c <> Some t -> ((unread c).1 < 7)%nat -> exists c', loop_act run_task me (StopFrom t) c = Some c' /\
    unread c' = (S (unread c).1, (unread c).2) /\ loop_thread c' = loop_thread c /\ ctx_stopped c' = ctx_stopped c) /\
  (forall t, loop_thread c = Some t -> ctx_stopped c = false -> unread c <> (O, O) ->
    exists c' c'', handle_completion me t EventRead c = Some c' /\ unread c' = (O, O) /\
      ctx_stopped c' = bool_decide (0 < (unread c).1)%nat /\
      loop_act run_task me (Round [EventRead]) c = Some c'' /\
      ((0 < (unread c).1)%nat -> ctx_stopped c'' = true /\ exists c3, loop_act run_task me Return c'' = Some c3)).
Proof.
  intros H0 Hr Hw. pose proof (loop_reachable _ _ _ _ H0 Hr) as Hi. pose proof (counted [] c Hi) as Hc.
  unfold EV_STOP_MSG, EV_BIG_VALUE, EV_WAKEUP_MSG, EV_SMALL_VALUE in Hc. split_and!.
  - intros t. by apply on_this_thread_iff with [].
  - intros t Ht H7. cbn [loop_act]. unfold stop, notify. rewrite (on_this_thread_iff []), bool_decide_eq_false_2 by done.
    rewrite (proj2 (Z.leb_le _ _)) by (unfold EV_STOP_MSG, EV_BIG_VALUE; lia). eexists. split; [done|]. done.
  - intros t Ht Hs Hu. pose proof (reading [] c Hi ltac:(by rewrite Ht) Hs) as Hrd.
    assert (Hpos : 0 < event_fd c) by (destruct (unread c) as [u1 u2]; cbn in *; destruct u1, u2; [done | lia..]).
    set (b := bool_decide (0 < (unread c).1)%nat).
    assert (Eb : (EV_STOP_MSG <=? event_fd c) = b).
    { unfold b, EV_STOP_MSG, EV_BIG_VALUE. case_bool_decide; [apply Z.leb_le | apply Z.leb_gt]; lia. }
    eassert (E : handle_completion me t EventRead c = Some _).
    { cbn [handle_completion]. rewrite (proj2 (Z.ltb_lt _ _)), (proj2 (Nat.ltb_lt _ _)), Hs, Eb by done. cbn [andb orb]. reflexivity. }
    destruct (handle_completion_inv t _ _ _ Hi Ht E) as [H1 L1]. destruct (do_todo_list_ok t _ H1 L1) as (c'' & E2 & H2 & L2 & _).
    eexists _, c''. split; [exact E|]. split_and!; [done | done | |].
    + cbn [loop_act]. rewrite Ht, Hs. cbn [bool_decide orb]. unfold run_round. cbn [handle_completions_of]. rewrite E. exact E2.
    + intros Hp. destruct L2 as (L2 & _ & _ & _ & St & _). cbn in St. rewrite St by (unfold b; by apply bool_decide_eq_true_2).
      split; [done|]. cbn [loop_act]. rewrite L2. cbn [loop_thread set_stopped set_event]. rewrite Ht, St by (unfold b; by apply bool_decide_eq_true_2).
      by eexists.
Qed.
End LoopFacts.

(** Task 1 schedules task 5 and task 3 registers a timeout; thread 1 runs
    context 9 and thread 2 stops it. *)
Definition one_schedules_five (t : nat) : burst (T := nat) := match t with 1%nat => [CallSchedule 5%nat] | 3%nat => [CallTimeout] | _ => [] end.
Definition a_run : list (loop_action (T := nat)) := [Schedule 1%nat; ScheduleList [2; 3]%nat; Run 1; Wakeup; StopFrom 2].
Definition after_a_run : option (context (T := nat)) :=
  c ← create_eventfd 3 ∅; run_acts (loop_act one_schedules_five 9) a_run c.

Lemma after_a_run_reached : exists c0 c, fresh_context 9 ∅ c0 /\ star (loop_step one_schedules_five 9) c0 a_run c /\
  after_a_run = Some c.
Proof.
  eexists _, _. split_and!.
  - split; [vm_compute; reflexivity | intros t; by rewrite lookup_empty].
  - apply run_acts_star. vm_compute. reflexivity.
  - vm_compute. reflexivity.
Qed.

Lemma scheduled_tasks_run_once_in_order_witness : exists c c', after_a_run = Some c /\ executed c = [1; 2; 3]%nat /\
  todo_list_ c = [5]%nat /\
  loop_act one_schedules_five 9 (Round (Resumed <$> [[CallSchedule 6%nat]])) c = Some c' /\ executed c' = [1; 2; 3; 5; 6]%nat.
Proof.
  destruct after_a_run_reached as (c0 & c & Hf & Hs & E).
  destruct (scheduled_tasks_run_once_in_order _ _ _ _ _ _ Hf Hs) as (_ & _ & _ & _ & Hround).
  assert (V : (fun c => (loop_thread c, ctx_stopped c, scheduled c)) <$> after_a_run = Some (Some 1%nat, false, [1; 2; 3; 5]%nat))
    by (vm_compute; reflexivity). rewrite E in V. injection V as V1 V2 V3.
  destruct (Hround 1%nat [[CallSchedule 6%nat]] V1 V2 ltac:(done)) as (c' & Ec & X). exists c, c'. rewrite X, V3.
  split_and!; [done | | | done | done]; vm_compute in E; injection E as <-; reflexivity.
Defined.

Lemma stop_messages_stop_the_loop_witness : exists c c', after_a_run = Some c /\ unread c = (1, 1)%nat /\
  loop_act one_schedules_five 9 (Round [EventRead]) c = Some c' /\ ctx_stopped c' = true.
Proof.
  destruct after_a_run_reached as (c0 & c & Hf & Hs & E).
  assert (V : (fun c => (loop_thread c, ctx_stopped c, unread c)) <$> after_a_run = Some (Some 1%nat, false, (1, 1)%nat))
    by (vm_compute; reflexivity). rewrite E in V. injection V as V1 V2 V3.
  destruct (stop_messages_stop_the_loop _ _ _ _ _ _ Hf Hs) as (_ & _ & Hm); [by rewrite V3|].
  destruct (Hm 1%nat V1 V2 ltac:(by rewrite V3)) as (c1 & c' & _ & _ & _ & Er & Hst). exists c, c'. rewrite V3 in Hst.
  split_and!; [done | exact V3 | exact Er |]. apply Hst. cbn. lia.
Defined.

(** A context cannot be run twice.  After a first run in which nothing was
    scheduled, stopped by another thread, the service of that run still waits
    for [timer_event_]; the second [run()] starts another one, whose
    [co_await timer_event_] fails its assertion. *)
Definition run_and_stop : list (loop_action (T := nat)) := [Run 1; StopFrom 2; Round [EventRead]; Return].
Theorem second_run_fails_assertion : exists c, (c0 ← create_eventfd 3 ∅; run_acts (loop_act one_schedules_five 9) run_and_stop c0) = Some c /\
  loop_thread c = None /\ event_of (the_timing c) = HasWaiter /\ forall t, loop_act one_schedules_five 9 (Run t) c = None.
Proof.
  eexists. split; [vm_compute; reflexivity|]. split_and!; [reflexivity.. |]. intros t. cbn [loop_act loop_thread].
  destruct (get_io_context t _); [done|]. by apply (run_prologue_again one_schedules_five 9 t _).
Qed.
(** What [run()] leaves behind: the timer service when another thread stopped
    the context, the reader of the eventfd too when a coroutine did, and the
    reader of the signals. *)
Theorem runs_leave_frames_behind : forall handler, exists c1 c2 c3,
  (c0 ← create_eventfd 3 ∅; run_acts (loop_act one_schedules_five 9) run_and_stop c0) = Some c1 /\ service_frames c1 = 1%nat /\
  (c0 ← create_eventfd 3 ∅; run_acts (loop_act one_schedules_five 9) [Run 1; StopFrom 1; Return] c0) = Some c2 /\ service_frames c2 = 2%nat /\
  (c0 ← create_eventfd 3 ∅; run_acts (loop_act one_schedules_five 9) [RegisterSignals handler; Run 1; StopFrom 1; Return] c0) = Some c3 /\ service_frames c3 = 3%nat.
Proof. intros [|]; eexists _, _, _; split_and!; vm_compute; reflexivity. Qed.
