(* ===== verification/SocketIO.v ===== *)
(** Reading from and writing to a connection through a buffer:
    [socket_reader.hpp], [socket_writer.hpp] and the [recv_some]/[send_some] of
    [tcp_connection.hpp] they call.  A coroutine consumes one answer of the
    kernel per [recv]/[send]; when there is none left it is still suspended. *)
From S2P Require Import Prelude Endian Buffer.

(** What the kernel answers.  The overloads with a duration link a timeout to
    the request; when it expires the answer is [-ECANCELED], one of the
    failures. *)
Inductive recv_reply : Type := Received (bs : list byte) | EndOfStream | RecvFailed (errno : Z).
Inductive send_reply : Type := Accepted (n : nat) | NotAccepted | SendFailed (errno : Z).

#[global] Instance send_reply_eq_dec : EqDecision send_reply.
Proof. solve_decision. Defined.

Definition EINTR : Z := 4.
Definition ECANCELED : Z := 125.

(** The caller's buffer and the bytes handed to the kernel so far. *)
Record conn : Type := mk_conn { buf : buffer; wire : list byte }.
Definition on_buf {A} (m : M buffer A) : M conn A := fun c =>
  let r := m (buf c) in (r.1, mk_conn r.2 (wire c)).

(** A coroutine that has returned, with the answers it did not use, or that is
    suspended for lack of one. *)
Inductive progress (R A : Type) : Type :=
| Returned (o : outcome A) (c : conn) (rest : list R)
| Suspended (c : conn).
Arguments Returned {R A} o c rest.
Arguments Suspended {R A} c.
Definition conn_of {R A} (p : progress R A) : conn := match p with Returned _ c _ => c | Suspended c => c end.

(** [recv_some] and [send_some]: the length is converted to [unsigned]. *)
Definition recv_some (r : recv_reply) (dst nbytes : Z) : M conn Z :=
  match r with
  | Received bs =>
    let got := take (Z.to_nat (wrap 32 nbytes)) bs in
    on_buf (store_M dst got);; M_ret (Z.of_nat (length got))
  | EndOfStream => M_ret 0
  | RecvFailed errno => M_ret (- errno)
  end.
Definition send_some (r : send_reply) (src nbytes : Z) : M conn Z :=
  match r with
  | Accepted n =>
    let! l := on_buf (load_M src (wrap 32 nbytes)) in
    let sent := take n l in
    modify (fun c => mk_conn (buf c) (wire c ++ sent));; M_ret (Z.of_nat (length sent))
  | NotAccepted => M_ret 0
  | SendFailed errno => M_ret (- errno)
  end.

(** The tests on the result that the readers share. *)
Definition check_received (ret : Z) : M conn unit :=
  if ret =? 0 then throw eof_error else if ret <? 0 then throw (system_error (- ret)) else M_ret tt.
Definition recv_back (r : recv_reply) : M conn Z :=
  let! dst := gets (fun c => back (buf c)) in
  let! n := gets (fun c => writable (buf c)) in
  recv_some r dst n.

(** * [socket_reader.hpp] *)

Definition read_some (K : MakeRoom) (r : recv_reply) : M conn Z :=
  on_buf (make_room READ_BUFFER_AT_LEAST_WRITABLE);;
  let! ret := recv_back r in
  check_received ret;;
  on_buf (has_written (wrap 64 ret));;
  M_ret ret.

Fixpoint read_certain (nbytes : Z) (rs : list recv_reply) (c : conn) : progress recv_reply unit :=
  if readable (buf c) <? wrap 64 nbytes then
    match rs with
    | [] => Suspended c
    | r :: rs' =>
      match (let! ret := recv_back r in check_received ret) c with
      | (Val _, c') => read_certain nbytes rs' c'
      | (Exn e, c') => Returned (Exn e) c' rs'
      | (Fault f, c') => Returned (Fault f) c' rs'
      end
    end
  else Returned (Val tt) c rs.

(** The four line readers: [find] is [find_eol] or [find_crlf], [extra] the
    constant added to the distance. *)
Section ReadUntil.
Context (find : buffer -> option Z) (extra : Z).
Fixpoint read_until_loop (end_ : option Z) (rs : list recv_reply) (c : conn) : progress recv_reply Z :=
  match end_, rs with
  | Some e, _ => Returned (Val (swrap 32 (e - front (buf c) + extra))) c rs
  | None, [] => Suspended c
  | None, r :: rs' =>
    match recv_back r c with
    | (Val ret, c1) =>
      let end' := find (buf c1) in
      match check_received ret c1 with
      | (Val _, c') => read_until_loop end' rs' c'
      | (Exn e, c') => Returned (Exn e) c' rs'
      | (Fault f, c') => Returned (Fault f) c' rs'
      end
    | (Exn e, c') => Returned (Exn e) c' rs'
    | (Fault f, c') => Returned (Fault f) c' rs'
    end
  end.
Definition read_until (rs : list recv_reply) (c : conn) : progress recv_reply Z :=
  read_until_loop (if 0 <? readable (buf c) then find (buf c) else None) rs c.
End ReadUntil.

Definition read_line : list recv_reply -> conn -> progress recv_reply Z := read_until find_eol 1.
Definition read_line_dur : list recv_reply -> conn -> progress recv_reply Z := read_until find_eol 1.
Definition read_crlf_line : list recv_reply -> conn -> progress recv_reply Z := read_until find_crlf 2.
Definition read_crlf_line_dur : list recv_reply -> conn -> progress recv_reply Z := read_until find_crlf 1.

(** * [socket_writer.hpp] *)

Definition send_front (r : send_reply) : M conn Z :=
  let! src := gets (fun c => front (buf c)) in
  let! n := gets (fun c => readable (buf c)) in
  send_some r src n.
Definition check_sent (n : Z) : M conn unit :=
  if (n <? 0) && negb (n =? - EINTR) then throw (system_error (- n)) else M_ret tt.

Definition write_some (r : send_reply) : M conn Z :=
  let! n := send_front r in
  check_sent n;;
  on_buf (has_read (wrap 64 n));;
  M_ret n.

(** One turn of the loops of [write_certain] and [write_all]. *)
Definition write_turn (r : send_reply) : M conn Z :=
  let! n := send_front r in
  (if n =? 0 then throw eof_error else M_ret tt);;
  check_sent n;;
  on_buf (has_read (wrap 64 n));;
  M_ret n.

Fixpoint write_certain (total : Z) (rs : list send_reply) (c : conn) : progress send_reply unit :=
  if total =? 0 then Returned (Val tt) c rs
  else match rs with
  | [] => Suspended c
  | r :: rs' =>
    match write_turn r c with
    | (Val n, c') => write_certain (swrap 32 (total - n)) rs' c'
    | (Exn e, c') => Returned (Exn e) c' rs'
    | (Fault f, c') => Returned (Fault f) c' rs'
    end
  end.

Fixpoint write_all (rs : list send_reply) (c : conn) : progress send_reply unit :=
  if readable (buf c) =? 0 then Returned (Val tt) c rs
  else match rs with
  | [] => Suspended c
  | r :: rs' =>
    match write_turn r c with
    | (Val n, c') => write_all rs' c'
    | (Exn e, c') => Returned (Exn e) c' rs'
    | (Fault f, c') => Returned (Fault f) c' rs'
    end
  end.

(** * Receiving *)

Definition recv_ok (r : recv_reply) : Prop :=
  match r with Received bs => bs <> [] | EndOfStream => True | RecvFailed e => 0 < e end.
Definition send_ok (r : send_reply) : Prop :=
  match r with Accepted n => (0 < n)%nat | NotAccepted => True | SendFailed e => 0 < e end.

(** What a [recv] may put behind the readable bytes leaves them alone. *)
Lemma recv_back_keeps r c : wf (buf c) -> exists ret c', recv_back r c = (Val ret, c') /\ wf (buf c') /\ wire c' = wire c /\
  index_read_ (buf c') = index_read_ (buf c) /\ index_write_ (buf c') = index_write_ (buf c) /\
  contents (buf c') = contents (buf c) /\
  match r with
  | Received bs => ret = Z.of_nat (length (take (Z.to_nat (wrap 32 (writable (buf c)))) bs)) /\
      container_ (buf c') = splice (Z.to_nat (index_write_ (buf c))) (take (Z.to_nat (wrap 32 (writable (buf c)))) bs) (container_ (buf c))
  | EndOfStream => ret = 0 /\ c' = c
  | RecvFailed e => ret = - e /\ c' = c
  end.
Proof.
  intros Hwf. destruct r as [bs| |e]; [|by exists 0, c | by exists (- e), c].
  pose proof (writable_wf _ Hwf) as Hw. pose proof (Z.mod_pos_bound (writable (buf c)) (2 ^ 32) ltac:(lia)) as Hm.
  assert (Hle : wrap 32 (writable (buf c)) <= writable (buf c)) by (unfold wrap; apply Z.mod_le; [unbuf; lia | lia]).
  unfold recv_back, recv_some, on_buf. run_M. set (got := take _ bs).
  assert (Hg : Z.of_nat (length got) <= writable (buf c)) by (unfold got; rewrite length_take; unfold wrap in *; lia).
  assert (Hs : (Z.to_nat (index_write_ (buf c)) + length got <= length (container_ (buf c)))%nat) by (unbuf; lia).
  rewrite store_wf by (unfold back; unbuf; lia). eexists _, _. split; [reflexivity|]. cbn [buf wire set_container container_ index_read_ index_write_].
  split_and!; try done.
  - unfold back. unbuf. rewrite length_splice by done. lia.
  - unfold contents, back. cbn. apply slice_splice_before; unbuf; lia.
Qed.

Lemma check_received_cases ret c :
  check_received ret c = (Val tt, c) /\ 0 < ret \/ check_received ret c = (Exn eof_error, c) /\ ret = 0 \/
  check_received ret c = (Exn (system_error (- ret)), c) /\ ret < 0.
Proof.
  unfold check_received. destruct (Z.eqb_spec ret 0); [by right; left|]. destruct (Z.ltb_spec ret 0); [by right; right|].
  left. split; [done | lia].
Qed.

Lemma contents_at_zero b : wf b -> index_read_ b = 0 -> contents b = take (Z.to_nat (index_write_ b)) (container_ b).
Proof. intros _ E. unfold contents, slice. by rewrite E, drop_0, Nat.sub_0_r. Qed.

(** [read_some] appends what arrived.  For every buffer class that meets
    the contract of [make_room], below 2^32 bytes, the coroutine either
    returns a positive count and the buffer holds the head of its container
    followed by exactly that many bytes of the stream (all that was there, or
    at least 128), or throws [eof_error] at the end of the stream, the
    kernel's error, or the exception of [make_room], and then no byte is
    added; it never writes outside the buffer. *)
Theorem read_some_appends (K : MakeRoom) {HK : MakeRoomLaws K} r c :
  wf (buf c) -> recv_ok r -> (forall b1, make_room 128 (buf c) = (Val tt, b1) -> size b1 < 2 ^ 32) ->
  match read_some K r c with
  | (Val n, c') => exists bs, r = Received bs /\ 0 < n <= Z.of_nat (length bs) /\ wf (buf c') /\ wire c' = wire c /\
      contents (buf c') = head_bytes (buf c) ++ take (Z.to_nat n) bs /\ (n = Z.of_nat (length bs) \/ 128 <= n)
  | (Exn e, c') => wf (buf c') /\ wire c' = wire c /\ contents (buf c') = head_bytes (buf c) /\
      (e = eof_error /\ r = EndOfStream \/ (exists errno, e = system_error errno /\ r = RecvFailed errno) \/
       (make_room 128 (buf c)).1 = Exn e)
  | (Fault _, _) => False
  end.
Proof.
  intros Hwf Hr Hsz. unfold read_some, READ_BUFFER_AT_LEAST_WRITABLE, on_buf at 1. run_M.
  pose proof (make_room_ok (buf c) 128 Hwf ltac:(unfold PTRDIFF_MAX; lia)) as Hm.
  destruct (make_room 128 (buf c)) as [[[]|e|f] b1] eqn:Em; cbn [fst snd]; [| |done].
  2: { subst b1. cbn. split_and!; [by apply wf_compacted | done | | by right; right].
       rewrite contents_at_zero by (done || by apply wf_compacted). done. }
  destruct Hm as (Hwf1 & Hir & Hiw & Hwr & Hhd). specialize (Hsz _ eq_refl). set (c1 := mk_conn b1 (wire c)).
  assert (Hc1 : contents b1 = head_bytes (buf c)) by (rewrite contents_at_zero, Hiw, Hhd by done; done).
  destruct (recv_back_keeps r c1 Hwf1) as (ret & c2 & E2 & Hwf2 & Hw2 & Hr2 & Hi2 & Hc2 & Hk). rewrite E2. cbn [buf wire c1] in *.
  rewrite Hc1 in Hc2.
  destruct (check_received_cases ret c2) as [[-> Hret]|[[-> Hret]|[-> Hret]]].
  - destruct r as [bs| |errno]; [|lia|cbn in Hr; lia]. destruct Hk as [Ek Ec].
    pose proof (writable_wf _ Hwf1) as Hw1. unfold wrap in Ek, Ec. rewrite Z.mod_small in Ek, Ec by (unbuf; lia).
    set (got := take _ bs) in *. assert (Hgl : Z.of_nat (length got) <= writable b1) by (unfold got; rewrite length_take; lia).
    assert (Hg : got = take (Z.to_nat ret) bs).
    { rewrite Ek, Nat2Z.id. unfold got. rewrite length_take. destruct (Nat.le_ge_cases (Z.to_nat (writable b1)) (length bs)).
      - f_equal. lia.
      - rewrite !take_ge; [done | lia | lia]. }
    unfold on_buf, has_written. run_M. exists bs. unfold got in Ek. rewrite length_take in Ek.
    rewrite (wrap_small 64 ret), wrap_small by (unfold in_u; unbuf; lia).
    assert (Hlen : size (buf c2) = size b1) by (unfold size; rewrite Ec, length_splice by (unbuf; lia); done).
    split_and!; [done | lia | lia | | done | | lia].
    + unfold wf in *. cbn. unfold size, set_index_write in *. cbn. lia.
    + rewrite contents_at_zero; [|unfold wf in *; cbn; unfold size, set_index_write in *; cbn; lia | cbn; lia].
      cbn. rewrite Ec, <- Hg, <- Hc1, contents_at_zero by done. rewrite Hi2.
      replace (Z.to_nat (index_write_ b1 + ret)) with (Z.to_nat (index_write_ b1) + length got)%nat.
      2: { rewrite Hg, length_take. unbuf. lia. }
      unfold splice. rewrite app_assoc, take_app_le by (rewrite length_app, length_take; unbuf; lia).
      rewrite take_ge; [done | rewrite length_app, length_take; unbuf; lia].
  - destruct r as [bs| |errno]; [|cbn; by split_and!; [.. | left] | cbn in Hr; lia]. exfalso. destruct Hk as [Ek _].
    pose proof (writable_wf _ Hwf1) as Hw1. unfold wrap in Ek. rewrite Z.mod_small in Ek by (unbuf; lia).
    rewrite length_take in Ek. destruct bs; [done|]. cbn [length] in Ek. lia.
  - destruct r as [bs| |errno]; [lia | lia|]. destruct Hk as [-> ->]. cbn. split_and!; try done. right. left. exists errno.
    by rewrite Z.opp_involutive.
Qed.

Lemma read_some_appends_witness :
  let c := mk_conn (mk_buffer (replicate 4 x41) 0 2) [] in
  wf (buf c) /\ exists bs n c', read_some flex_buffer (Received [x42; x43; x44]) c = (Val n, c') /\ Received [x42; x43; x44] = Received bs /\
    contents (buf c') = [x41; x41] ++ take (Z.to_nat n) bs.
Proof.
  intros c. assert (Hw : wf (buf c)) by (vm_compute; split_and!; discriminate). split; [done|].
  pose proof (read_some_appends flex_buffer (Received [x42; x43; x44]) c Hw ltac:(done)
    ltac:(intros b1 E; vm_compute in E; injection E as <-; vm_compute; reflexivity)) as Hs.
  assert (V : (read_some flex_buffer (Received [x42; x43; x44]) c).1 = Val 3) by (vm_compute; reflexivity).
  destruct (read_some _ _ _) as [o c']. cbn in V. subst o. destruct Hs as (bs & Eb & _ & _ & _ & Hc & _).
  exists bs, 3, c'. split_and!; [done | exact Eb | exact Hc].
Defined.

(** * The readers that wait for more *)

Lemma read_certain_spec nbytes rs : forall c, wf (buf c) ->
  match read_certain nbytes rs c with
  | Returned (Val _) c' rest => c' = c /\ rest = rs /\ wrap 64 nbytes <= readable (buf c)
  | Returned (Exn _) c' _ | Suspended c' => contents (buf c') = contents (buf c) /\ readable (buf c) < wrap 64 nbytes
  | Returned (Fault _) _ _ => False
  end.
Proof.
  induction rs as [|r rs IH]; intros c Hwf; cbn [read_certain]; (destruct (Z.ltb_spec (readable (buf c)) (wrap 64 nbytes)) as [Hlt|]; [|done]); [done|].
  destruct (recv_back_keeps r c Hwf) as (ret & c1 & E & Hwf1 & _ & Hr & Hw & Hc & _). unfold M_bind at 1. rewrite E.
  destruct (check_received_cases ret c1) as [[-> _]|[[-> _]|[-> _]]]; [|done..].
  specialize (IH c1 Hwf1). assert (Er : readable (buf c1) = readable (buf c)) by (unfold readable; congruence).
  rewrite Er, Hc in IH. destruct (read_certain nbytes rs c1) as [[|e|f] c2 rest|c2]; [lia | done..].
Qed.

Section ReadUntilFacts.
Context (find : buffer -> option Z) (extra : Z).
(** The search looks at the readable bytes only. *)
Hypothesis find_contents : forall b b', contents b = contents b' -> index_read_ b = index_read_ b' ->
  index_write_ b = index_write_ b' -> find b = find b'.

Lemma read_until_loop_spec rs : forall c, wf (buf c) -> find (buf c) = None ->
  match read_until_loop find extra None rs c with
  | Returned (Val _) _ _ | Returned (Fault _) _ _ => False
  | Returned (Exn _) c' _ | Suspended c' => contents (buf c') = contents (buf c)
  end.
Proof.
  induction rs as [|r rs IH]; intros c Hwf Hf; cbn [read_until_loop]; [done|].
  destruct (recv_back_keeps r c Hwf) as (ret & c1 & E & Hwf1 & _ & Hr & Hw & Hc & _). rewrite E.
  destruct (check_received_cases ret c1) as [[-> _]|[[-> _]|[-> _]]]; [|done..].
  assert (find (buf c1) = None) as Hf1 by (rewrite (find_contents _ (buf c)); done). rewrite Hf1.
  specialize (IH c1 Hwf1 Hf1). destruct (read_until_loop _ _ _ rs c1) as [[|e|f] c2 rest|c2]; congruence.
Qed.

Lemma read_until_spec rs c : wf (buf c) -> (readable (buf c) = 0 -> find (buf c) = None) ->
  match find (buf c) with
  | Some e => read_until find extra rs c = Returned (Val (swrap 32 (e - front (buf c) + extra))) c rs
  | None => match read_until find extra rs c with
    | Returned (Val _) _ _ | Returned (Fault _) _ _ => False
    | Returned (Exn _) c' _ | Suspended c' => contents (buf c') = contents (buf c)
    end
  end.
Proof.
  intros Hwf H0. unfold read_until. pose proof (Z.mod_pos_bound (index_write_ (buf c) - index_read_ (buf c)) (2 ^ 64) ltac:(lia)) as Hm.
  destruct (find (buf c)) as [e|] eqn:Ef.
  - destruct (Z.ltb_spec 0 (readable (buf c))) as [|Hge]; [by destruct rs|].
    specialize (H0 ltac:(unfold readable, wrap in *; lia)). done.
  - replace (if 0 <? readable (buf c) then None else None) with (@None Z) by (by destruct (0 <? _)). by apply read_until_loop_spec.
Qed.
End ReadUntilFacts.

Lemma memchr_spec l ch : match memchr l ch with
  | Some k => l !! k = Some ch /\ ch ∉ take k l
  | None => ch ∉ l end.
Proof.
  induction l as [|x l IH]; cbn; [apply not_elem_of_nil|]. case_decide as Hx.
  - subst. split; [done | apply not_elem_of_nil].
  - destruct (memchr l ch) as [k|]; cbn.
    + destruct IH as [Hk Hn]. split; [done|]. apply not_elem_of_cons. by split; [apply not_eq_sym|].
    + apply not_elem_of_cons. by split; [apply not_eq_sym|].
Qed.

Lemma find_eol_contents b b' : contents b = contents b' -> index_read_ b = index_read_ b' ->
  index_write_ b = index_write_ b' -> find_eol b = find_eol b'.
Proof. unfold find_eol, findEOL, front, back. fold (contents b) (contents b'). intros -> -> _. done. Qed.
Lemma find_crlf_contents b b' : contents b = contents b' -> index_read_ b = index_read_ b' ->
  index_write_ b = index_write_ b' -> find_crlf b = find_crlf b'.
Proof. unfold find_crlf, find_kcrlf, front, back. fold (contents b) (contents b'). intros -> -> ->. done. Qed.

Lemma find_crlf_bounds b : wf b -> match find_crlf b with
  | Some e => index_read_ b <= e < index_write_ b
  | None => True end.
Proof.
  intros Hwf. unfold find_crlf, find_kcrlf, front, back. destruct (search_spec (take 2 kCRLF) (contents b)) as [Hs _].
  pose proof (length_contents _ Hwf) as Hlc. rewrite readable_wf in Hlc by done. fold (contents b).
  destruct (Z.eqb_spec (index_read_ b + Z.of_nat (search (contents b) (take 2 kCRLF))) (index_write_ b)); [done | unbuf; lia].
Qed.

(** The readers that wait for more never get it.  [read_certain],
    [read_line] and [read_crlf_line] receive into the buffer but never call
    [has_written], so whatever the peer sends they return normally only when
    the buffer already holds enough on entry, and then at once and without
    receiving: [read_line] with the length of the first line.  Otherwise the
    readable bytes never change, and the coroutine can only end with an
    exception. *)
Theorem waiting_readers_never_progress rs c nbytes : wf (buf c) -> size (buf c) < 2 ^ 31 - 1 -> 0 <= nbytes < 2 ^ 31 ->
  match read_certain nbytes rs c with
  | Returned (Val _) c' rest => c' = c /\ rest = rs /\ nbytes <= readable (buf c)
  | Returned (Exn _) c' _ | Suspended c' => contents (buf c') = contents (buf c) /\ readable (buf c) < nbytes
  | Returned (Fault _) _ _ => False
  end /\
  match read_line rs c with
  | Returned (Val n) c' rest => c' = c /\ rest = rs /\ 0 < n /\
      contents (buf c) !! Z.to_nat (n - 1) = Some x0a /\ x0a ∉ take (Z.to_nat (n - 1)) (contents (buf c))
  | Returned (Exn _) c' _ | Suspended c' => contents (buf c') = contents (buf c) /\ x0a ∉ contents (buf c)
  | Returned (Fault _) _ _ => False
  end /\
  match find_crlf (buf c) with
  | Some e => read_crlf_line rs c = Returned (Val (e - front (buf c) + 2)) c rs /\
      read_crlf_line_dur rs c = Returned (Val (e - front (buf c) + 1)) c rs
  | None => match read_crlf_line rs c with
    | Returned (Val _) _ _ | Returned (Fault _) _ _ => False
    | Returned (Exn _) c' _ | Suspended c' => contents (buf c') = contents (buf c)
    end
  end.
Proof.
  intros Hwf Hsz Hn. pose proof (length_contents _ Hwf) as Hlc. pose proof (readable_wf _ Hwf) as Hrd.
  assert (Hrs : 0 <= readable (buf c) < 2 ^ 31 - 1) by (unbuf; lia). split_and!.
  - pose proof (read_certain_spec nbytes rs c Hwf) as H1. by rewrite wrap_small in H1 by (unfold in_u; lia).
  - pose proof (read_until_spec find_eol 1 find_eol_contents rs c Hwf) as H1. fold read_line in H1.
    pose proof (memchr_spec (contents (buf c)) x0a) as Hm.
    unfold find_eol at 1 2, findEOL in H1. fold (back (buf c)) in H1. change (slice _ _ _) with (contents (buf c)) in H1.
    destruct (memchr (contents (buf c)) x0a) as [k|]; cbn [fmap option_fmap option_map] in H1.
    + destruct Hm as [Hk Hk']. pose proof (lookup_lt_Some _ _ _ Hk) as Hlt. rewrite H1 by lia.
      rewrite swrap_small by (try lia; unfold in_s; lia).
      replace (Z.to_nat (front (buf c) + Z.of_nat k - front (buf c) + 1 - 1)) with k by lia. split_and!; try done. lia.
    + specialize (H1 ltac:(done)). destruct (read_line rs c) as [[|e|f] c2 rest|c2]; done.
  - pose proof (find_crlf_bounds _ Hwf) as Hb.
    pose proof (read_until_spec find_crlf 2 find_crlf_contents rs c Hwf ltac:(intros; destruct (find_crlf (buf c)); [lia | done])) as H2.
    pose proof (read_until_spec find_crlf 1 find_crlf_contents rs c Hwf ltac:(intros; destruct (find_crlf (buf c)); [lia | done])) as H1.
    fold read_crlf_line in H2. fold read_crlf_line_dur in H1. destruct (find_crlf (buf c)) as [e|]; [|exact H2].
    rewrite H1, H2. rewrite !swrap_small by (try lia; unfold in_s, front; lia). done.
Qed.

Definition line_then_more : conn := mk_conn (mk_buffer [x00; x41; x0a; x42; x00; x00; x00] 1 4) [].
Lemma waiting_readers_never_progress_witness : wf (buf line_then_more) /\
  read_line [Received [x43; x0a]] line_then_more = Returned (Val 2) line_then_more [Received [x43; x0a]] /\
  exists c', read_certain 5 [Received [x43; x0a]; Received [x44]] line_then_more = Suspended c' /\
    contents (buf c') = contents (buf line_then_more).
Proof.
  assert (Hw : wf (buf line_then_more)) by (vm_compute; split_and!; discriminate). split; [done|].
  split; [vm_compute; reflexivity|].
  pose proof (waiting_readers_never_progress [Received [x43; x0a]; Received [x44]] line_then_more 5 Hw ltac:(done) ltac:(done)) as [H1 _].
  assert (V : match read_certain 5 [Received [x43; x0a]; Received [x44]] line_then_more with Suspended _ => True | _ => False end)
    by (vm_compute; exact I).
  destruct (read_certain _ _ _) as [| c']; [done|]. exists c'. split; [done | apply H1].
Defined.

(** * Sending *)

(** One turn moves a prefix of the readable bytes to the wire. *)
Lemma write_turn_spec r c : wf (buf c) -> 0 < readable (buf c) < 2 ^ 32 -> send_ok r -> r <> SendFailed EINTR ->
  match write_turn r c with
  | (Val n, c') => wf (buf c') /\ 0 < n <= readable (buf c) /\ wire c' = wire c ++ take (Z.to_nat n) (contents (buf c)) /\
      contents (buf c') = drop (Z.to_nat n) (contents (buf c)) /\ exists k, r = Accepted k
  | (Exn e, c') => c' = c /\ (e = eof_error /\ r = NotAccepted \/ exists errno, e = system_error errno /\ r = SendFailed errno)
  | (Fault _, _) => False
  end.
Proof.
  intros Hwf Hrd Hr Hne. pose proof (length_contents _ Hwf) as Hlc. unfold write_turn, send_front, send_some.
  destruct r as [k| |errno]; cbn in Hr.
  - unfold on_buf at 1. run_M. rewrite (wrap_small 32) by (unfold in_u; lia). rewrite load_front_wf by (done || lia). cbn [fst snd buf wire].
    rewrite (take_ge (contents (buf c)) (Z.to_nat (readable (buf c)))) by lia. set (sent := take k (contents (buf c))). 
    assert (Hs : Z.of_nat (length sent) = Z.min (Z.of_nat k) (readable (buf c))) by (unfold sent; rewrite length_take; lia).
    destruct (Z.eqb_spec (Z.of_nat (length sent)) 0); [lia|]. unfold check_sent. destruct (Z.ltb_spec (Z.of_nat (length sent)) 0); [lia|].
    cbn [andb]. run_M. rewrite wrap_small by (unfold in_u; lia). unfold on_buf. cbn [buf wire].
    destruct (has_read_wf (Z.of_nat (length sent)) (buf c) Hwf ltac:(lia)) as (b' & -> & Hwf' & _ & Hc'). cbn [fst snd buf wire].
    split_and!; [done | lia | lia | | exact Hc' | by exists k]. f_equal. unfold sent. rewrite Nat2Z.id, length_take.
    destruct (Nat.le_ge_cases k (length (contents (buf c)))); [f_equal; lia | rewrite !take_ge; [done | lia | lia]].
  - run_M. split; [done | by left].
  - run_M. destruct (Z.eqb_spec (- errno) 0); [lia|]. unfold check_sent. rewrite (proj2 (Z.ltb_lt _ _)) by lia.
    destruct (Z.eqb_spec (- errno) (- EINTR)); [exfalso; apply Hne; f_equal; lia|]. cbn. split; [done|]. right. exists errno.
    by rewrite Z.opp_involutive.
Qed.

Lemma write_all_inv rs : forall c, wf (buf c) -> readable (buf c) < 2 ^ 32 -> Forall send_ok rs -> SendFailed EINTR ∉ rs ->
  match write_all rs c with
  | Returned (Val _) c' _ => wf (buf c') /\ contents (buf c') = [] /\ wire c' = wire c ++ contents (buf c)
  | Returned (Exn e) c' _ => wf (buf c') /\ wire c' ++ contents (buf c') = wire c ++ contents (buf c) /\ contents (buf c') <> [] /\
      (e = eof_error /\ NotAccepted ∈ rs \/ exists errno, e = system_error errno /\ SendFailed errno ∈ rs)
  | Returned (Fault _) _ _ => False
  | Suspended c' => wf (buf c') /\ wire c' ++ contents (buf c') = wire c ++ contents (buf c) /\
      (length (contents (buf c')) + length rs <= length (contents (buf c)))%nat /\ contents (buf c') <> []
  end.
Proof.
  induction rs as [|r rs IH]; intros c Hwf Hrd Hok Hne; cbn [write_all]; pose proof (length_contents _ Hwf) as Hlc;
    (destruct (Z.eqb_spec (readable (buf c)) 0) as [H0|H0];
     [assert (contents (buf c) = []) as -> by (apply nil_length_inv; lia); by rewrite app_nil_r|]).
  { split_and!; [done | done | cbn; lia | intros E; rewrite E in Hlc; cbn in Hlc; lia]. }
  apply Forall_cons in Hok as [Hr Hok]. apply not_elem_of_cons in Hne as [Hn Hne].
  pose proof (write_turn_spec r c Hwf ltac:(lia) Hr (not_eq_sym Hn)) as Ht. destruct (write_turn r c) as [[n|e|f] c1]; [| |done].
  - destruct Ht as (Hwf1 & Hn1 & Hw1 & Hc1 & _). pose proof (length_contents _ Hwf1) as Hlc1. rewrite Hc1, length_drop in Hlc1.
    specialize (IH c1 Hwf1 ltac:(lia) Hok Hne). rewrite Hw1, Hc1, <- app_assoc, take_drop, length_drop in IH.
    destruct (write_all rs c1) as [[|e|f] c2 rest|c2]; [done | | done |].
    + destruct IH as (? & ? & ? & [[? ?]|(errno & ? & ?)]); split_and!; try done; [left | right; exists errno]; split; done || by right.
    + destruct IH as (? & ? & Hl & ?). split_and!; try done. cbn. lia.
  - destruct Ht as [-> He]. split_and!; [done | done | intros E; rewrite E in Hlc; cbn in Hlc; lia |].
    destruct He as [[-> ->]|(errno & -> & ->)]; [left | right; exists errno]; split; done || by left.
Qed.

(** [C27] [write_all] sends exactly the readable bytes, in order.  Whatever the
    kernel accepts in each send, as long as no send is interrupted by a
    signal: nothing is lost, sent twice or reordered (what is on the wire
    followed by what is still readable never changes); when the coroutine
    returns normally all of it was sent and the buffer is empty; an exception
    is the end of the connection or an error of the kernel; and it returns
    once the kernel has answered as many times as there were bytes. *)
Theorem write_all_sends_everything rs c : wf (buf c) -> readable (buf c) < 2 ^ 32 -> Forall send_ok rs -> SendFailed EINTR ∉ rs ->
  let p := write_all rs c in
  wire (conn_of p) ++ contents (buf (conn_of p)) = wire c ++ contents (buf c) /\ wf (buf (conn_of p)) /\
  match p with
  | Returned (Val _) c' _ => contents (buf c') = []
  | Returned (Exn e) _ _ => e = eof_error /\ NotAccepted ∈ rs \/ exists errno, e = system_error errno /\ SendFailed errno ∈ rs
  | Returned (Fault _) _ _ => False
  | Suspended _ => Z.of_nat (length rs) < readable (buf c)
  end.
Proof.
  intros Hwf Hrd Hok Hne p. pose proof (write_all_inv rs c Hwf Hrd Hok Hne) as Hi. pose proof (length_contents _ Hwf) as Hlc.
  unfold p. destruct (write_all rs c) as [[|e|f] c'|c']; cbn [conn_of].
  - destruct Hi as (? & E & ->). rewrite E, app_nil_r. done.
  - naive_solver.
  - done.
  - destruct Hi as (? & ? & ? & Hc). split_and!; try done. destruct (contents (buf c')); [done|]. cbn [length] in *. lia.
Qed.

Lemma write_all_sends_everything_witness :
  let c := mk_conn (mk_buffer [x41; x42; x43; x44] 1 4) [x40] in
  exists c', write_all [Accepted 2; Accepted 9] c = Returned (Val tt) c' [] /\ wire c' = [x40; x42; x43; x44].
Proof.
  intros c. assert (Hw : wf (buf c)) by (vm_compute; split_and!; discriminate).
  destruct (write_all_sends_everything [Accepted 2; Accepted 9] c Hw ltac:(done)
    ltac:(repeat constructor) ltac:(by apply (bool_decide_unpack _)))
    as (Hwire & _ & Hc).
  assert (V : match write_all [Accepted 2; Accepted 9] c with Returned (Val _) _ [] => True | _ => False end) by (vm_compute; exact I).
  destruct (write_all _ _) as [[[]| |] c' [|]|]; try done. exists c'. split; [done|].
  cbn [conn_of] in Hwire. rewrite Hc, app_nil_r in Hwire. exact Hwire.
Defined.

(** A send interrupted by a signal is let through by the test for errors and
    its [-EINTR] reaches [has_read] as a huge count: the assertion fails. *)
Theorem interrupted_send_fails_assertion c rs : wf (buf c) -> 0 < readable (buf c) ->
  (write_some (SendFailed EINTR) c).1 = Fault assertion_failed /\
  exists c' rest, write_all (SendFailed EINTR :: rs) c = Returned (Fault assertion_failed) c' rest.
Proof.
  intros Hwf Hpos. pose proof (readable_wf _ Hwf) as Hr.
  assert (Hlt : readable (buf c) < wrap 64 (- EINTR)) by (change (wrap 64 (- EINTR)) with (2 ^ 64 - 4); unbuf; lia).
  split.
  - unfold write_some, send_front, send_some, check_sent, on_buf. run_M. by rewrite has_read_too_long.
  - cbn [write_all]. destruct (Z.eqb_spec (readable (buf c)) 0); [lia|].
    unfold write_turn, send_front, send_some, check_sent, on_buf. run_M. rewrite has_read_too_long by done. cbn. by eexists _, _.
Qed.

(** [write_certain] offers all readable bytes to every send, not the bytes
    still asked for.  When the kernel takes them all, more than [nbytes] go
    out, the count becomes negative and the next turn throws [eof_error]. *)
Theorem write_certain_sends_too_much c nbytes k r rs : wf (buf c) -> readable (buf c) < 2 ^ 31 ->
  0 < nbytes < readable (buf c) -> readable (buf c) <= Z.of_nat k -> (exists j, r = Accepted j) \/ r = NotAccepted ->
  exists c', write_certain nbytes (Accepted k :: r :: rs) c = Returned (Exn eof_error) c' rs /\ wire c' = wire c ++ contents (buf c).
Proof.
  intros Hwf Hrd Hn Hk Hr. pose proof (length_contents _ Hwf) as Hlc. cbn [write_certain]. destruct (Z.eqb_spec nbytes 0); [lia|].
  pose proof (write_turn_spec (Accepted k) c Hwf ltac:(lia) ltac:(cbn; lia) ltac:(done)) as Ht.
  assert (V : (write_turn (Accepted k) c).1 = Val (readable (buf c))).
  { unfold write_turn, send_front, send_some, on_buf. run_M. rewrite (wrap_small 32) by (unfold in_u; lia).
    rewrite load_front_wf by (done || lia). cbn [fst snd buf wire]. rewrite !take_ge by (rewrite ?length_take; lia). rewrite Hlc.
    destruct (Z.eqb_spec (readable (buf c)) 0); [lia|]. unfold check_sent. rewrite (proj2 (Z.ltb_ge _ _)) by lia. cbn [andb]. run_M.
    rewrite wrap_small by (unfold in_u; lia). by destruct (has_read_wf (readable (buf c)) (buf c) Hwf ltac:(lia)) as (b' & -> & _). }
  destruct (write_turn (Accepted k) c) as [o c1]. cbn in V. subst o. destruct Ht as (Hwf1 & _ & Hw & Hc & _).
  rewrite take_ge in Hw by lia. rewrite drop_ge in Hc by lia. rewrite swrap_small by (try lia; unfold in_s; lia).
  destruct (Z.eqb_spec (nbytes - readable (buf c)) 0); [lia|]. exists c1.
  assert (E0 : readable (buf c1) = 0) by (pose proof (length_contents _ Hwf1) as H1; rewrite Hc in H1; done).
  assert (E : write_turn r c1 = (Exn eof_error, c1)).
  { destruct Hr as [[j ->]| ->]; [|done]. unfold write_turn, send_front, send_some, on_buf. run_M.
    rewrite E0. change (wrap 32 0) with 0. rewrite load_front_wf by (done || lia). cbn [fst snd buf wire Z.to_nat take].
    destruct j; cbn; rewrite app_nil_r; by destruct c1. }
  rewrite E. done.
Qed.
