(* ===== verification/BufferPool.v ===== *)
(** Buffer selection: [buffer_pool.hpp].  The pool keeps its groups of blocks
    in a map; the kernel keeps the blocks it may fill; a
    [selected_buffer_resource] owns a block between the read that filled it
    and its destruction. *)
From S2P Require Import Prelude Events.

(** [selected_buffer]: a [fixed_buffer] at an address, with its two ids. *)
Record selected_buffer : Type := mk_selected {
  sb_data : Z; sb_size : Z; sb_read : Z; sb_write : Z; group_id_ : Z; buf_id_ : Z }.
Definition new_selected_buffer (s len gid bid : Z) : selected_buffer := mk_selected s len 0 0 gid bid.
Definition sb_clear (b : selected_buffer) : selected_buffer := mk_selected (sb_data b) (sb_size b) 0 0 (group_id_ b) (buf_id_ b).
Definition sb_has_written (n : Z) (b : selected_buffer) : selected_buffer :=
  mk_selected (sb_data b) (sb_size b) (sb_read b) (wrap 64 (sb_write b + n)) (group_id_ b) (buf_id_ b).
Definition sb_readable (b : selected_buffer) : Z := wrap 64 (sb_write b - sb_read b).

Record provided_buffer_group : Type := mk_group { group_id : Z; nbytes_per_block : Z; blocks : list selected_buffer }.
Definition empty_group : provided_buffer_group := mk_group 0 0 [].

(** A buffer the kernel may fill: [len] bytes at [addr] under a group and id. *)
Record entry : Type := mk_entry { e_gid : Z; e_addr : Z; e_len : Z; e_bid : Z }.
#[global] Instance entry_eq_dec : EqDecision entry.
Proof. solve_decision. Defined.

(** The pool, the kernel's buffers, the requests [provide_buffers] that the
    kernel has not processed yet, and the blocks (by group and position) that
    live [selected_buffer_resource]s point to. *)
Record pool : Type := mk_pool {
  map_ : gmap Z provided_buffer_group; kernel : list entry; in_flight : list entry; held : list (Z * nat) }.

Definition get_or_create_group_by_id (gid : Z) (s : pool) : provided_buffer_group := default empty_group (map_ s !! gid).
Definition find_group (gid : Z) (s : pool) : provided_buffer_group + exn :=
  match map_ s !! gid with Some g => inl g | None => inr (runtime_error "wrong group id for buffer selection") end.
Definition set_block (gid : Z) (i : nat) (f : selected_buffer -> selected_buffer) (s : pool) : gmap Z provided_buffer_group :=
  alter (fun g => mk_group (group_id g) (nbytes_per_block g) (alter f i (blocks g))) gid (map_ s).

(** [io_uring_prep_provide_buffers(addr, len, nr, bgid, bid)] offers [nr]
    consecutive buffers with consecutive ids. *)
Definition provided (addr len : Z) (nr : nat) (gid bid : Z) : list entry :=
  (fun k => mk_entry gid (addr + len * Z.of_nat k) len (wrap 16 (bid + Z.of_nat k))) <$> seq 0 nr.

(** The loop that lists the blocks; [todo] bounds the number of turns. *)
Fixpoint list_blocks (todo : nat) (cur end_ nb gid i : Z) : list selected_buffer :=
  match todo with
  | O => []
  | S todo' => if cur <? end_ then new_selected_buffer cur nb gid i :: list_blocks todo' (cur + nb) end_ nb gid (wrap 16 (i + 1)) else []
  end.

Definition provide_group_contiguous (ret base nb : Z) (how_many : nat) (g_name : Z) : M pool unit := fun s =>
  if ret <? 0 then (Exn (system_error (- ret)), s)
  else
    let g := get_or_create_group_by_id g_name s in
    let bs := list_blocks how_many base (base + nb * Z.of_nat how_many) nb g_name 0 in
    (Val tt, mk_pool (<[g_name := mk_group g_name nb (blocks g ++ bs)]> (map_ s))
       (kernel s ++ provided base nb how_many g_name 0) (in_flight s) (held s)).

(** How the kernel answers a read with buffer selection: an error or the end
    of the file, or [n] bytes in its [k]-th buffer. *)
Inductive selection : Type := Unfilled (res : Z) | Filled (k : nat) (n : Z).

(** [read]: on success the position of the block in its group. *)
Definition read (g_name : Z) (a : selection) : M pool (Z * nat) := fun s =>
  match find_group g_name s with
  | inr e => (Exn e, s)
  | inl g =>
    match a with
    | Unfilled res => (Exn (system_error (- res)), s)
    | Filled k n =>
      match kernel s !! k with
      | None => (Fault undefined_behaviour, s)
      | Some e =>
        let flag := Z.to_nat (e_bid e) in
        match blocks g !! flag with
        | None => (Fault undefined_behaviour, s)
        | Some _ => (Val (g_name, flag), mk_pool (set_block g_name flag (sb_has_written n) s) (delete k (kernel s)) (in_flight s) (held s ++ [(g_name, flag)]))
        end
      end
    end
  end.

Definition block_at (p : Z * nat) (s : pool) : option selected_buffer := g ← map_ s !! p.1; blocks g !! p.2.
Definition entry_for (b : selected_buffer) : list entry := provided (sb_data b) (swrap 32 (sb_size b)) 1 (group_id_ b) (buf_id_ b).

(** [return_back]; and the destructor of the [i]-th live resource. *)
Definition return_back (p : Z * nat) : M pool unit := fun s =>
  match block_at p s with
  | None => (Fault undefined_behaviour, s)
  | Some b => (Val tt, mk_pool (set_block p.1 p.2 sb_clear s) (kernel s) (in_flight s ++ entry_for b) (held s))
  end.
(** [returned_back]: the same, and the answer of the kernel. *)
Definition returned_back (p : Z * nat) (ret : Z) : M pool Z := return_back p;; M_ret ret.
Definition drop_resource (i : nat) : M pool unit := fun s =>
  match held s !! i with
  | None => (Fault undefined_behaviour, s)
  | Some p =>
    match block_at p s with
    | None => (Fault undefined_behaviour, s)
    | Some b => (Val tt, mk_pool (set_block p.1 p.2 sb_clear s) (kernel s) (in_flight s ++ entry_for b) (delete i (held s)))
    end
  end.

(** What happens to a pool: a region is provided under a name, reads complete,
    resources are destroyed, the block of the [i]-th one is given back by
    [return_back] or [returned_back], and the kernel processes a request. *)
Inductive pool_action : Type :=
| Provide (base nb : Z) (how_many : nat) (g_name : Z) | ReadInto (k : nat) (n : Z) | Drop (i : nat) | ReturnBack (i : nat) | Process (k : nat).
Definition returns (r : outcome (Z * nat) * pool) : option pool := match r.1 with Val _ => Some r.2 | _ => None end.
Definition pool_act (x : pool_action) (s : pool) : option pool :=
  match x with
  | Provide base nb how_many g_name =>
    if decide (0 < nb < 2 ^ 16 /\ Z.of_nat how_many <= 2 ^ 16)
    then Some (provide_group_contiguous 0 base nb how_many g_name s).2 else None
  | ReadInto k n =>
    e ← kernel s !! k; if decide (0 < n <= e_len e) then returns (read (e_gid e) (Filled k n) s) else None
  | Drop i => if decide (i < length (held s))%nat then Some (drop_resource i s).2 else None
  | ReturnBack i => p ← held s !! i; Some (return_back p s).2
  | Process k => e ← in_flight s !! k; Some (mk_pool (map_ s) (kernel s ++ [e]) (delete k (in_flight s)) (held s))
  end.
Definition pool_step : pool -> pool_action -> pool -> Prop := steps_of pool_act.
Definition new_pool : pool := mk_pool ∅ [] [] [].
(** The names regions are provided under; and a use of the pool that provides
    each name once and leaves giving back to the destructors. *)
Definition names (ls : list pool_action) : list Z := omap (fun x => match x with Provide _ _ _ g => Some g | _ => None end) ls.
Definition by_the_resources (x : pool_action) : Prop := match x with ReturnBack _ => False | _ => True end.
Definition careful (ls : list pool_action) : Prop := NoDup (names ls) /\ Forall by_the_resources ls.

(** * Each block has one owner *)

Definition ekey (e : entry) : Z * nat := (e_gid e, Z.to_nat (e_bid e)).
Definition owners (s : pool) : list (Z * nat) := (ekey <$> kernel s ++ in_flight s) ++ held s.

Definition block_ok (p : Z * nat) (b : selected_buffer) : Prop :=
  group_id_ b = p.1 /\ buf_id_ b = Z.of_nat p.2 /\ 0 < sb_size b < 2 ^ 16 /\ Z.of_nat p.2 < 2 ^ 16.
Definition entry_ok (e : entry) (b : selected_buffer) : Prop :=
  sb_data b = e_addr e /\ sb_size b = e_len e /\ sb_read b = 0 /\ sb_write b = 0.
Record pinv (s : pool) : Prop := {
  exclusive : NoDup (owners s);
  owned : forall p, p ∈ owners s <-> is_Some (block_at p s);
  blocks_ok : forall p b, block_at p s = Some b -> block_ok p b;
  entries_ok : forall e, e ∈ kernel s ++ in_flight s -> exists b, block_at (ekey e) s = Some b /\ entry_ok e b
}.

Lemma block_at_set gid i f s p : block_at p (mk_pool (set_block gid i f s) (kernel s) (in_flight s) (held s)) =
  (if decide (p = (gid, i)) then f <$> block_at p s else block_at p s).
Proof.
  destruct p as [g j]. unfold block_at, set_block. cbn [map_ fst snd]. destruct (decide (g = gid)) as [->|Hn].
  - rewrite lookup_alter_eq. destruct (map_ s !! gid) as [gr|]; cbn; [|by case_decide].
    destruct (decide (i = j)) as [->|Hj]; [rewrite list_lookup_alter_eq, decide_True by done; done|].
    rewrite list_lookup_alter_ne by done. rewrite decide_False by congruence. done.
  - rewrite lookup_alter_ne by done. rewrite decide_False by congruence. done.
Qed.
Lemma block_at_map s s' p : map_ s = map_ s' -> block_at p s = block_at p s'.
Proof. unfold block_at. by intros ->. Qed.

(** Providing a new group. *)
Lemma list_blocks_lookup todo : forall cur nb gid i0 j, 0 < nb -> (j < todo)%nat -> in_u 16 i0 ->
  list_blocks todo cur (cur + nb * Z.of_nat todo) nb gid i0 !! j =
  Some (new_selected_buffer (cur + nb * Z.of_nat j) nb gid (wrap 16 (i0 + Z.of_nat j))).
Proof.
  induction todo as [|todo IH]; intros cur nb gid i0 j Hnb Hj Hi; [lia|]. cbn [list_blocks].
  rewrite (proj2 (Z.ltb_lt _ _)) by nia. destruct j as [|j]; cbn.
  - rewrite !Z.add_0_r, wrap_small by done. by rewrite Z.mul_0_r, Z.add_0_r.
  - replace (cur + nb * Z.of_nat (S todo)) with (cur + nb + nb * Z.of_nat todo) by lia.
    rewrite IH by (try lia; by apply wrap_range). f_equal. f_equal; [lia|]. unfold wrap. rewrite Zplus_mod_idemp_l. f_equal. lia.
Qed.
Lemma list_blocks_length todo : forall cur nb gid i0, 0 < nb ->
  length (list_blocks todo cur (cur + nb * Z.of_nat todo) nb gid i0) = todo.
Proof.
  induction todo as [|todo IH]; intros cur nb gid i0 Hnb; [done|]. cbn [list_blocks].
  rewrite (proj2 (Z.ltb_lt _ _)) by nia. cbn. replace (cur + nb * Z.of_nat (S todo)) with (cur + nb + nb * Z.of_nat todo) by lia.
  by rewrite IH.
Qed.

Lemma provided_keys addr len nr gid : Z.of_nat nr <= 2 ^ 16 -> ekey <$> provided addr len nr gid 0 = (fun k => (gid, k)) <$> seq 0 nr.
Proof.
  intros Hn. unfold provided. rewrite <- list_fmap_compose. apply list_fmap_ext. intros k j Hk.
  apply lookup_seq in Hk as [-> Hk]. unfold ekey. cbn. rewrite wrap_small by (unfold in_u; lia). f_equal. lia.
Qed.

Lemma provide_inv s base nb n gid : pinv s -> map_ s !! gid = None -> 0 < nb < 2 ^ 16 -> Z.of_nat n <= 2 ^ 16 ->
  pinv (provide_group_contiguous 0 base nb n gid s).2.
Proof.
  intros Hi Hg Hnb Hn. unfold provide_group_contiguous, get_or_create_group_by_id. rewrite Hg. cbn [default blocks empty_group app Z.ltb Z.compare snd].
  set (bs := list_blocks _ _ _ _ _ _). set (s' := mk_pool _ _ _ _).
  assert (Hat : forall p, block_at p s' = if decide (p.1 = gid) then bs !! p.2 else block_at p s).
  { intros [g j]. unfold block_at, s'. cbn. case_decide as E; [subst; by rewrite lookup_insert_eq | by rewrite lookup_insert_ne]. }
  assert (Hold : forall p, p.1 = gid -> block_at p s = None) by (intros [g j]; cbn; intros ->; unfold block_at; cbn; by rewrite Hg).
  assert (Hbs : forall j, (j < n)%nat -> bs !! j = Some (new_selected_buffer (base + nb * Z.of_nat j) nb gid (Z.of_nat j))).
  { intros j Hj. unfold bs. rewrite list_blocks_lookup by (try done; unfold in_u; lia). rewrite wrap_small by (unfold in_u; lia). done. }
  assert (Hbl : length bs = n) by (apply list_blocks_length; lia).
  assert (Hperm : owners s' ≡ₚ ((fun k => (gid, k)) <$> seq 0 n) ++ owners s).
  { unfold owners, s'. cbn. rewrite <- provided_keys with (addr := base) (len := nb) by done. rewrite !fmap_app. solve_Permutation. }
  assert (Hne : forall e, e ∈ kernel s ++ in_flight s -> (ekey e).1 <> gid).
  { intros e He Hge. destruct (entries_ok s Hi e He) as (b & Hb & _). by rewrite Hold in Hb. }
  split.
  - rewrite Hperm. apply NoDup_app. split_and!; [apply NoDup_fmap; [intros ?? [= ->]; done | apply NoDup_seq] | | apply Hi].
    intros p (k & -> & _)%list_elem_of_fmap Hp. apply (owned s Hi) in Hp as [b Hb]. by rewrite Hold in Hb.
  - intros p. rewrite Hperm, elem_of_app, (owned s Hi), Hat. rewrite list_elem_of_fmap. setoid_rewrite elem_of_seq. case_decide as E.
    + rewrite (Hold p E). rewrite lookup_lt_is_Some, Hbl. destruct p as [g k]. cbn in E |- *. subst g. split; [intros [(? & [= ->] & ?)|[? ?]]; [lia | done]|].
      intros. left. exists k. split; [done | lia].
    + split; [intros [(k & -> & _)|?]; done | by right].
  - intros p b. rewrite Hat. case_decide as E; [|apply (blocks_ok s Hi)]. intros Hb.
    pose proof (lookup_lt_Some _ _ _ Hb) as Hlt. rewrite Hbs in Hb by lia. injection Hb as <-. unfold block_ok. cbn. split_and!; try lia; done.
  - intros e He. unfold s' in He. cbn in He. rewrite !elem_of_app in He. rewrite Hat.
    assert (Hcase : e ∈ kernel s ++ in_flight s \/ e ∈ provided base nb n gid 0) by (rewrite elem_of_app; tauto).
    destruct Hcase as [He'|He']; [rewrite decide_False by (by apply Hne); by apply (entries_ok s Hi)|].
    unfold provided in He'. apply list_elem_of_fmap in He' as (k & -> & [_ Hk]%elem_of_seq). cbn.
    rewrite decide_True by done. rewrite Z.add_0_l, wrap_small by (unfold in_u; lia). rewrite Nat2Z.id, Hbs by lia.
    eexists. split; [done|]. by unfold entry_ok.
Qed.

(** A block changes hands: the same blocks have owners, only one block's
    indices change, and no entry is left for that block unless it is clear. *)
Lemma handover_inv s m' ker fl hd gid i f : pinv s -> m' = set_block gid i f s ->
  owners (mk_pool m' ker fl hd) ≡ₚ owners s -> (forall b, sb_data (f b) = sb_data b /\ sb_size (f b) = sb_size b /\
    group_id_ (f b) = group_id_ b /\ buf_id_ (f b) = buf_id_ b) ->
  (forall e, e ∈ ker ++ fl -> e ∈ kernel s ++ in_flight s /\ ekey e <> (gid, i) \/
    exists b, block_at (gid, i) s = Some b /\ ekey e = (gid, i) /\ entry_ok e (f b)) ->
  pinv (mk_pool m' ker fl hd).
Proof.
  intros Hi -> Hp Hf He. set (s' := mk_pool _ _ _ _) in *.
  assert (Hat : forall p, block_at p s' = if decide (p = (gid, i)) then f <$> block_at p s else block_at p s)
    by (intros p; rewrite <- block_at_set; by apply block_at_map).
  split.
  - rewrite Hp. apply Hi.
  - intros p. rewrite Hp, Hat, (owned s Hi). case_decide; [|done]. by rewrite fmap_is_Some.
  - intros p b. rewrite Hat. case_decide as E; [|apply (blocks_ok s Hi)]. destruct (block_at p s) as [b0|] eqn:E0; [|done].
    cbn. intros [= <-]. pose proof (blocks_ok s Hi p b0 E0) as Hb. unfold block_ok in *. destruct (Hf b0) as (_ & -> & -> & ->). done.
  - intros e Hin. rewrite Hat. destruct (He e Hin) as [[Hold Hne]|(b & Hb & Hk & Hok)].
    + rewrite decide_False by done. by apply (entries_ok s Hi).
    + rewrite decide_True, Hk, Hb by done. by exists (f b).
Qed.

Lemma read_inv s k n e : pinv s -> kernel s !! k = Some e -> 0 < n <= e_len e ->
  exists s' b, read (e_gid e) (Filled k n) s = (Val (ekey e), s') /\ pinv s' /\ (ekey e ∉ held s) /\ held s' = held s ++ [ekey e] /\
    block_at (ekey e) s' = Some b /\ sb_data b = e_addr e /\ sb_readable b = n.
Proof.
  intros Hi Hk Hn. pose proof (delete_Permutation _ _ _ Hk) as Hperm.
  assert (He : e ∈ kernel s ++ in_flight s) by (apply elem_of_app; left; by eapply list_elem_of_lookup_2).
  destruct (entries_ok s Hi e He) as (b & Hb & Hd & Hsz & Hr & Hw). pose proof (blocks_ok s Hi _ _ Hb) as Hbk.
  assert (Hown : owners s ≡ₚ ekey e :: (ekey <$> delete k (kernel s) ++ in_flight s) ++ held s)
    by (unfold owners; generalize dependent (delete k (kernel s)); intros rest Hperm; by rewrite Hperm).
  assert (Hnd : NoDup (ekey e :: (ekey <$> delete k (kernel s) ++ in_flight s) ++ held s)) by (rewrite <- Hown; apply Hi).
  apply NoDup_cons in Hnd as [Hnin _]. rewrite elem_of_app in Hnin.
  unfold read, find_group. unfold block_at in Hb. destruct (map_ s !! (ekey e).1) as [g|] eqn:Eg; [|done]. cbn [mbind option_bind] in Hb.
  cbn [ekey fst snd] in Eg, Hb. rewrite Eg, Hk, Hb. eexists _, _. split; [reflexivity|]. split_and!.
  - eapply (handover_inv s _ _ _ _ (e_gid e) (Z.to_nat (e_bid e)) (sb_has_written n)); [done | done | | done |].
    + rewrite Hown. unfold owners. cbn [kernel in_flight held]. fold (ekey e). solve_Permutation.
    + intros e' He'. left. split; [rewrite elem_of_app in *; rewrite Hperm, elem_of_cons; tauto|]. fold (ekey e). intros E. apply Hnin. left. rewrite <- E.
      by apply list_elem_of_fmap_2.
  - tauto.
  - done.
  - rewrite <- (block_at_map (mk_pool (set_block (e_gid e) (Z.to_nat (e_bid e)) (sb_has_written n) s) (kernel s) (in_flight s) (held s))) by done.
    rewrite block_at_set, decide_True by done. unfold block_at. cbn [ekey fst snd]. rewrite Eg. cbn [mbind option_bind]. rewrite Hb. reflexivity.
  - done.
  - unfold sb_readable, sb_has_written. cbn. unfold block_ok in Hbk. rewrite Hr, Hw. rewrite Z.add_0_l, Z.sub_0_r, wrap_idemp, wrap_small; [done | unfold in_u; lia].
Qed.

Lemma entry_for_ok p b : block_ok p b -> exists e, entry_for b = [e] /\ ekey e = p /\ e_addr e = sb_data b /\ e_len e = sb_size b.
Proof.
  destruct p as [g i]. intros (Hg & Hb & Hs & Hi). cbn in *. unfold entry_for, provided. cbn. eexists. split; [reflexivity|].
  unfold ekey. cbn. rewrite Hb, Hg, Z.add_0_r, wrap_small, Nat2Z.id by (unfold in_u; lia).
  rewrite swrap_small by (try lia; unfold in_s; lia). split_and!; [done | lia | done].
Qed.

Lemma drop_inv s i p : pinv s -> held s !! i = Some p ->
  exists s' e, drop_resource i s = (Val tt, s') /\ pinv s' /\ held s' = delete i (held s) /\
    in_flight s' = in_flight s ++ [e] /\ ekey e = p /\ kernel s' = kernel s.
Proof.
  intros Hi Hp. pose proof (delete_Permutation _ _ _ Hp) as Hperm.
  assert (Hin : p ∈ owners s) by (apply elem_of_app; right; by eapply list_elem_of_lookup_2).
  assert (Hown : owners s ≡ₚ p :: (ekey <$> kernel s ++ in_flight s) ++ delete i (held s))
    by (unfold owners; generalize dependent (delete i (held s)); intros rest Hperm; rewrite Hperm; solve_Permutation).
  assert (Hnd : NoDup (p :: (ekey <$> kernel s ++ in_flight s) ++ delete i (held s))) by (rewrite <- Hown; apply Hi).
  apply NoDup_cons in Hnd as [Hnin _]. rewrite elem_of_app in Hnin.
  destruct (proj1 (owned s Hi p) Hin) as [b Hb]. destruct (entry_for_ok p b (blocks_ok s Hi p b Hb)) as (e & Ee & Ek & Ea & El).
  unfold drop_resource. rewrite Hp, Hb, Ee. eexists _, e. split; [reflexivity|]. split; [|done].
  eapply (handover_inv s _ _ _ _ p.1 p.2 sb_clear); [done | done | | done |].
  - rewrite Hown. unfold owners. cbn [kernel in_flight held]. rewrite app_assoc, fmap_app. cbn. rewrite Ek. solve_Permutation.
  - destruct p as [g j]. cbn [fst snd]. intros e'. rewrite app_assoc, elem_of_app, list_elem_of_singleton. intros [He'| ->].
    + left. split; [done|]. intros E. apply Hnin. left. rewrite <- E. by apply list_elem_of_fmap_2.
    + right. exists b. by unfold entry_ok.
Qed.

Lemma process_inv s k e : pinv s -> in_flight s !! k = Some e ->
  pinv (mk_pool (map_ s) (kernel s ++ [e]) (delete k (in_flight s)) (held s)).
Proof.
  intros Hi Hk. pose proof (delete_Permutation _ _ _ Hk) as Hperm.
  assert (Hp : (kernel s ++ [e]) ++ delete k (in_flight s) ≡ₚ kernel s ++ in_flight s).
  { generalize dependent (delete k (in_flight s)). intros rest Hperm. rewrite Hperm. solve_Permutation. }
  set (s' := mk_pool _ _ _ _). change (kernel s' ++ in_flight s' ≡ₚ kernel s ++ in_flight s) in Hp.
  assert (Ho : owners s' ≡ₚ owners s) by (unfold owners; rewrite Hp; done).
  assert (Hat : forall p, block_at p s' = block_at p s) by (intros; by apply block_at_map). split.
  - rewrite Ho. apply Hi.
  - intros p. rewrite Ho, Hat. apply Hi.
  - intros p b. rewrite Hat. apply Hi.
  - intros e'. rewrite Hp. setoid_rewrite Hat. apply Hi.
Qed.

Lemma pool_step_inv s x s' : pinv s -> by_the_resources x -> (forall base nb n g, x = Provide base nb n g -> map_ s !! g = None) ->
  pool_step s x s' -> pinv s'.
Proof.
  unfold pool_step, steps_of. intros Hi Hx Hnew E. destruct x as [base nb n g|k n|i|i|k]; cbn [pool_act] in E; [| | |done|].
  - case_decide as Hg; [|done]. destruct Hg as [? ?]. injection E as <-. apply provide_inv; [done | by eapply Hnew | done..].
  - destruct (kernel s !! k) as [e|] eqn:Ek; [|done]. cbn [mbind option_bind] in E. case_decide as Hn; [|done].
    destruct (read_inv s k n e Hi Ek Hn) as (s1 & b & Er & H1 & _). rewrite Er in E. by injection E as <-.
  - case_decide as Hlt; [|done]. apply lookup_lt_is_Some_2 in Hlt as [p Hp].
    destruct (drop_inv s i p Hi Hp) as (s1 & e & Ed & H1 & _). rewrite Ed in E. by injection E as <-.
  - destruct (in_flight s !! k) as [e|] eqn:Ek; [|done]. injection E as <-. by apply process_inv.
Qed.
(** Groups are made by providing them only. *)
Lemma pool_step_names s x s' g : pool_step s x s' -> is_Some (map_ s' !! g) -> is_Some (map_ s !! g) \/ g ∈ names [x].
Proof.
  unfold pool_step, steps_of. intros E Hg. assert (Hset : forall a i f, is_Some (set_block a i f s !! g) -> is_Some (map_ s !! g)).
  { intros a i f. unfold set_block. destruct (decide (a = g)) as [->|]; [by rewrite lookup_alter_eq, fmap_is_Some | by rewrite lookup_alter_ne]. }
  destruct x as [base nb n h|k n|i|i|k]; cbn [pool_act] in E.
  - case_decide; [|done]. injection E as <-. revert Hg. unfold provide_group_contiguous. cbn. destruct (decide (h = g)) as [->|].
    + intros _. right. cbn. by left.
    + rewrite lookup_insert_ne by done. by left.
  - destruct (kernel s !! k) as [e|]; [|done]. cbn [mbind option_bind] in E. case_decide; [|done]. unfold read in E.
    destruct (find_group (e_gid e) s) as [gr|]; [|done]. destruct (kernel s !! k) as [e'|]; [|done]. destruct (blocks gr !! _); [|done].
    injection E as <-. left. exact (Hset _ _ _ Hg).
  - case_decide; [|done]. injection E as <-. left. unfold drop_resource in Hg. destruct (held s !! i) as [p|]; [|done].
    destruct (block_at p s); [exact (Hset _ _ _ Hg) | exact Hg].
  - destruct (held s !! i) as [p|]; [|done]. injection E as <-. left. unfold return_back in Hg. destruct (block_at p s); [exact (Hset _ _ _ Hg) | exact Hg].
  - destruct (in_flight s !! k); [|done]. injection E as <-. by left.
Qed.

Lemma pool_reachable ls s : star pool_step new_pool ls s -> careful ls -> pinv s.
Proof.
  intros Hs [Hn Hr]. enough (H : pinv s /\ forall g, is_Some (map_ s !! g) -> g ∈ names ls) by apply H. remember new_pool as s0 eqn:E0.
  induction Hs as [s|s0 ls s1 x s2 _ IH Hx]; subst.
  - split; [|intros g [gr Hg]; unfold new_pool in Hg; cbn [map_] in Hg; by rewrite lookup_empty in Hg].
    split; [constructor | | done | intros e He; by apply not_elem_of_nil in He].
    intros p. split; [intros Hp; by apply not_elem_of_nil in Hp | intros [b Hb]; unfold block_at, new_pool in Hb; cbn [map_] in Hb; by rewrite lookup_empty in Hb].
  - unfold names in Hn. rewrite omap_app in Hn. apply NoDup_app in Hn as (Hn1 & Hn2 & _). apply Forall_app in Hr as [Hr1 Hr2].
    rewrite Forall_singleton in Hr2. destruct (IH eq_refl Hn1 Hr1) as [Hi Hd]. split.
    + eapply pool_step_inv; [exact Hi | exact Hr2 | | exact Hx]. intros base nb n g ->. destruct (map_ s1 !! g) as [gr|] eqn:Eg; [|done].
      exfalso. apply (Hn2 g); [apply Hd; by eexists | cbn; by left].
    + intros g Hg. unfold names. rewrite omap_app, elem_of_app. destruct (pool_step_names _ _ _ g Hx Hg) as [H1|H1]; [left; by apply Hd | by right].
Qed.


Definition pool_run : list pool_action := [Provide 4096 100 3 7; ReadInto 1 40; Drop 0; ReadInto 0 10; Process 0].

(** Providing a second region under a name that is in use numbers its blocks
    from zero again: the kernel fills the new memory, and [read] returns the
    block of the old one. *)
Theorem reprovided_group_mixes_blocks : exists s s',
  run_acts pool_act [Provide 4096 100 1 7; Provide 8192 100 1 7] new_pool = Some s /\
  e_addr <$> kernel s !! 1%nat = Some 8192 /\
  read 7 (Filled 1 40) s = (Val (7, 0%nat), s') /\ sb_data <$> block_at (7, 0%nat) s' = Some 4096.
Proof. eexists _, _. split_and!; [vm_compute; reflexivity..]. Qed.

(** [return_back] gives the block to the kernel while the resource still owns
    it, and its destructor gives it a second time. *)
Theorem return_back_provides_twice : exists s s',
  run_acts pool_act [Provide 4096 100 1 7; ReadInto 0 40; ReturnBack 0] new_pool = Some s /\
  held s = [(7, 0%nat)] /\ ekey <$> in_flight s = [(7, 0%nat)] /\
  pool_act (Drop 0) s = Some s' /\ ekey <$> in_flight s' = [(7, 0%nat); (7, 0%nat)].
Proof. eexists _, _. split_and!; [vm_compute; reflexivity..]. Qed.
