(* ===== verification/Tcp.v ===== *)
(** Who owns a descriptor: [file_descriptor.hpp], the connections of
    [socket.hpp] and [tcp_connection.hpp] and the ways to make them, and
    [acceptor.hpp].  System calls and completions answer with the values the
    operations are given. *)
From S2P Require Import Prelude Events SocketIO.

(** The objects of class [file_descriptor] or a class derived from it, by the
    value of their [fd_]; the descriptors the process has opened; and the
    [close] calls and requests made, in order. *)
Record fds : Type := mk_fds { objects : list Z; opened : list Z; closes : list Z }.
Definition do_open (fd : Z) : M fds unit := modify (fun w => mk_fds (objects w) (opened w ++ [fd]) (closes w)).
Definition do_close (fd : Z) : M fds unit := modify (fun w => mk_fds (objects w) (opened w) (closes w ++ [fd])).

(** * [file_descriptor] *)

Definition invalid (fd_ : Z) : bool := fd_ <? 0.
Definition construct (fd : Z) : M fds nat := fun w => (Val (length (objects w)), mk_fds (objects w ++ [fd]) (opened w) (closes w)).
Definition get_fd (o : nat) : M fds Z := fun w =>
  match objects w !! o with Some fd => (Val fd, w) | None => (Fault undefined_behaviour, w) end.
Definition make_invalid (o : nat) : M fds unit := modify (fun w => mk_fds (<[o := -1]> (objects w)) (opened w) (closes w)).
(** [file_descriptor(file_descriptor &&rhs)] *)
Definition move_construct (rhs : nat) : M fds nat := let! fd := get_fd rhs in make_invalid rhs;; construct fd.
(** [close()] *)
Definition close (o : nat) : M fds unit := let! fd := get_fd o in do_close fd;; make_invalid o.
(** [~file_descriptor()]: the object is gone, and a valid descriptor is closed
    by a spawned task. *)
Definition destroy (o : nat) : M fds unit :=
  let! fd := get_fd o in
  (if invalid fd then M_ret tt else do_close fd);;
  modify (fun w => mk_fds (delete o (objects w)) (opened w) (closes w)).

(** Uses of descriptors that give each one to one object: a call that returned
    a new descriptor is followed by the constructor. *)
Inductive fd_action : Type := Adopt (fd : Z) | Placeholder | MoveFrom (o : nat) | CloseIt (o : nat) | Destroy (o : nat).
Definition returned {A} (r : outcome A * fds) : option fds := match r.1 with Val _ => Some r.2 | _ => None end.
Definition fd_act (x : fd_action) (w : fds) : option fds :=
  match x with
  | Adopt fd => if decide (0 <= fd /\ fd ∉ opened w) then returned ((do_open fd;; construct fd) w) else None
  | Placeholder => returned (construct (-1) w)
  | MoveFrom o => returned (move_construct o w)
  | CloseIt o => returned (close o w)
  | Destroy o => returned (destroy o w)
  end.
Definition fd_step : fds -> fd_action -> fds -> Prop := steps_of fd_act.
Definition no_fds : fds := mk_fds [] [] [].

Definition valid_fds (l : list Z) : list Z := filter (fun fd => 0 <= fd) l.

Lemma insert_perm {A} (l : list A) i x y : l !! i = Some x -> <[i := y]> l ≡ₚ y :: delete i l.
Proof.
  revert i. induction l as [|z l IH]; intros [|i]; cbn; [done | done | done |]. intros Hi. rewrite IH by done. apply Permutation_swap.
Qed.
Lemma valid_fds_perm l l' : l ≡ₚ l' -> valid_fds l ≡ₚ valid_fds l'.
Proof. intros E. unfold valid_fds. by rewrite E. Qed.
Lemma valid_fds_app l l' : valid_fds (l ++ l') = valid_fds l ++ valid_fds l'.
Proof. apply filter_app. Qed.

Record fd_inv (w : fds) : Prop := {
  accounted : opened w ≡ₚ valid_fds (closes w) ++ valid_fds (objects w);
  distinct : NoDup (opened w) }.

Lemma get_fd_inv {A} o (k : Z -> M fds A) w a w' : (let! fd := get_fd o in k fd) w = (Val a, w') ->
  exists fd, objects w !! o = Some fd /\ k fd w = (Val a, w').
Proof. unfold M_bind, get_fd. destruct (objects w !! o) as [fd|] eqn:E; [|done]. intros Hk. by exists fd. Qed.
Lemma returned_inv {A} (r : outcome A * fds) w : returned r = Some w -> exists a, r = (Val a, w).
Proof. unfold returned. destruct r as [[a| |] w']; cbn; [|done..]. intros [= <-]. by exists a. Qed.

(** Taking a descriptor out of its object, by destroying or emptying it. *)
Lemma vacated l o fd : l !! o = Some fd ->
  valid_fds l ≡ₚ valid_fds [fd] ++ valid_fds (delete o l) /\ valid_fds l ≡ₚ valid_fds [fd] ++ valid_fds (<[o := -1]> l).
Proof.
  intros Ho. assert (E : valid_fds l ≡ₚ valid_fds [fd] ++ valid_fds (delete o l))
    by (rewrite <- valid_fds_app; apply valid_fds_perm, (delete_Permutation _ _ _ Ho)).
  split; [exact E|]. rewrite E. apply Permutation_app_head. rewrite (valid_fds_perm _ _ (insert_perm _ _ _ (-1) Ho)).
  unfold valid_fds. by rewrite filter_cons_False by lia.
Qed.

Lemma fd_step_inv w x w' : fd_inv w -> fd_step w x w' -> fd_inv w'.
Proof.
  unfold fd_step, steps_of. intros [Ha Hd] E. destruct x as [fd| |o|o|o]; cbn [fd_act] in E.
  - case_decide as Hf; [|done]. apply returned_inv in E as [a E]. injection E as _ <-. destruct Hf as [H0 Hn]. split; cbn.
    + rewrite valid_fds_app, app_assoc, <- Ha. unfold valid_fds at 1. by rewrite filter_cons_True.
    + apply NoDup_app. split_and!; [done | intros y Hy ->%list_elem_of_singleton; done | apply NoDup_singleton].
  - injection E as <-. split; [|done]. cbn. by rewrite valid_fds_app, app_nil_r.
  - apply returned_inv in E as [a E]. apply get_fd_inv in E as (fd & Ho & E). injection E as _ <-. split; [|done]. cbn.
    destruct (vacated _ _ _ Ho) as [_ Hv]. rewrite Ha, Hv, valid_fds_app. solve_Permutation.
  - apply returned_inv in E as [a E]. apply get_fd_inv in E as (fd & Ho & E). injection E as _ <-. split; [|done]. cbn.
    destruct (vacated _ _ _ Ho) as [_ Hv]. rewrite Ha, Hv, valid_fds_app. solve_Permutation.
  - apply returned_inv in E as [a E]. apply get_fd_inv in E as (fd & Ho & E). unfold invalid in E. destruct (vacated _ _ _ Ho) as [Hv _].
    destruct (Z.ltb_spec fd 0) as [Hlt|Hge]; injection E as _ <-; (split; [|done]); cbn; rewrite Ha, Hv, ?valid_fds_app.
    + unfold valid_fds at 2. by rewrite filter_cons_False by lia.
    + solve_Permutation.
Qed.

(** [C28] Descriptors are closed exactly once.  Whatever is moved, closed and
    destroyed in whatever order, no descriptor is closed twice, none is closed
    that was not opened, and those not closed yet are exactly the ones that
    some object still holds; when all objects are gone all are closed. *)
Theorem descriptors_closed_exactly_once ls w : star fd_step no_fds ls w ->
  NoDup (valid_fds (closes w)) /\ opened w ≡ₚ valid_fds (closes w) ++ valid_fds (objects w) /\
  NoDup (valid_fds (objects w)) /\ (objects w = [] -> opened w ≡ₚ valid_fds (closes w)).
Proof.
  intros Hr. assert (Hi : fd_inv w) by (revert Hr; apply (star_inv _ fd_inv); [by split; [|constructor] | apply fd_step_inv]).
  destruct Hi as [Ha Hd]. pose proof Hd as Hd'. rewrite Ha in Hd'. apply NoDup_app in Hd' as (H1 & _ & H2). split_and!; [done..|].
  intros E. by rewrite Ha, E, app_nil_r.
Qed.

Definition fd_run : list fd_action := [Adopt 5; Placeholder; MoveFrom 0; Adopt 6; CloseIt 3; Destroy 0; Destroy 2; Destroy 1; Destroy 0].
Lemma descriptors_closed_exactly_once_witness : exists w, star fd_step no_fds fd_run w /\ closes w = [6; 5] /\ opened w ≡ₚ valid_fds (closes w).
Proof.
  eassert (E : run_acts fd_act fd_run no_fds = Some _) by (vm_compute; reflexivity). apply run_acts_star in E.
  destruct (descriptors_closed_exactly_once _ _ E) as (_ & _ & _ & Hall). eexists. split_and!; [exact E | reflexivity | by apply Hall].
Defined.

(** * Making connections *)

Definition ENFILE : Z := 23.
Definition no_socket : exn := runtime_error "no resource available for socket allocation".
Definition connect_timeout : exn := runtime_error "try connect to peer timeout, canceled".

(** [ret] is what [::socket] returns. *)
Definition new_socket_safe (ret : Z) : M fds Z := if ret <? 0 then throw no_socket else do_open ret;; M_ret ret.
Definition make_socket (ret : Z) : M fds nat := let! fd := new_socket_safe ret in construct fd.
(** [ret] and [errno] after [::bind]. *)
Definition safe_bind_socket (ret errno : Z) : M fds unit := if ret <? 0 then throw (system_error errno) else M_ret tt.

(** [handle_connect_error], both overloads. *)
Definition handle_connect_error (ret_code : Z) : M fds unit :=
  if ret_code =? 0 then M_ret tt
  else if ret_code =? ECANCELED then throw connect_timeout else throw (system_error ret_code).
Definition handle_connect_error_fd (ret_code tempfd_to_close : Z) : M fds unit :=
  if ret_code =? 0 then M_ret tt
  else do_close tempfd_to_close;;
    (if ret_code =? ECANCELED then throw connect_timeout else throw (system_error ret_code)).

(** [connection_base(int fd) : socket{fd}, AddrOption{fd_}]: the parameter of
    the constructor of [AddrOption] is a [const socket &], so a temporary
    [socket] is made from [fd_] and destroyed when the member is built. *)
Definition connection_from_int (fd : Z) : M fds nat :=
  let! self := construct fd in
  let! tmp := construct fd in
  destroy tmp;;
  M_ret self.
(** [connection_base(socket &&so, ...)], called with a temporary [socket]. *)
Definition connection_from_socket (fd : Z) : M fds nat :=
  let! tmp := construct fd in
  let! self := move_construct tmp in
  destroy tmp;;
  M_ret (pred self).

(** [connect_to(peer)] and [connect_to(peer, dur)]; [connect] is the result of
    the request, to which the second links a timeout. *)
Definition connect_to (socket_ret connect : Z) : M fds nat :=
  let! fd := new_socket_safe socket_ret in
  handle_connect_error_fd (- connect) fd;;
  connection_from_int fd.
(** [connect_to(local, peer, dur)] *)
Definition connect_to_from (socket_ret bind_ret bind_errno connect : Z) : M fds nat :=
  let! fd := new_socket_safe socket_ret in
  safe_bind_socket bind_ret bind_errno;;
  handle_connect_error_fd (- connect) fd;;
  connection_from_socket fd.
(** [connect_to(fd, peer, dur)] *)
Definition connect_to_fd (fd connect : Z) : M fds nat :=
  handle_connect_error (- connect);;
  connection_from_int fd.

(** * [acceptor] *)

Record acceptor : Type := mk_acceptor { listenfd_ : Z; backupfd_ : Z }.
(** [create_new_fd]; [backupfd_] is left uninitialised. *)
Definition create_new_fd (socket_ret bind_ret uninit : Z) : M fds acceptor :=
  if socket_ret <? 0 then throw no_socket
  else do_open socket_ret;;
    (if bind_ret <? 0 then throw (runtime_error "cannot bind port or sth wrong with the socket fd")
     else M_ret (mk_acceptor socket_ret uninit)).
Definition better_enable (openat_ret : Z) (a : acceptor) : M fds acceptor :=
  (if 0 <=? openat_ret then do_open openat_ret else M_ret tt);; M_ret (mk_acceptor (listenfd_ a) openat_ret).

(** A descriptor that a call returned is open. *)
Definition got_fd (ret : Z) : M fds Z := (if 0 <=? ret then do_open ret else M_ret tt);; M_ret ret.

(** [accept()]: [r1] and [r2] are the results of its two accept requests,
    [null_fd] that of reopening /dev/null. *)
Definition accept (r1 r2 null_fd : Z) (a : acceptor) : M fds (nat * acceptor) :=
  let! c1 := got_fd r1 in
  let! ca := (if c1 =? - ENFILE then
                do_close (backupfd_ a);;
                let! c2 := got_fd r2 in
                if 0 <? c2 then do_close c2;; let! nfd := got_fd null_fd in M_ret (c2, mk_acceptor (listenfd_ a) nfd)
                else M_ret (c2, a)
              else M_ret (c1, a)) in
  (if (ca.1 <? 0) && negb (ca.1 =? - EINTR) then throw (system_error (- ca.1)) else M_ret tt);;
  let! o := connection_from_socket ca.1 in
  M_ret (o, ca.2).

(** [sync_accept()]: one answer of [::accept] per turn (with [errno]); a turn
    that sees [ENFILE] needs a second one and reopens /dev/null. *)
Record accept_answer : Type := mk_answer { r_fd : Z; r_errno : Z; r_again : Z; r_null : Z }.
Fixpoint sync_accept (answers : list accept_answer) (a : acceptor) (w : fds) : option (outcome (nat * acceptor) * fds) :=
  match answers with
  | [] => None
  | x :: rest =>
    if 0 <=? r_fd x then Some ((let! fd := got_fd (r_fd x) in let! o := connection_from_socket fd in M_ret (o, a)) w)
    else if r_errno x =? ENFILE then
      match (do_close (backupfd_ a);; let! c2 := got_fd (r_again x) in
             if 0 <? c2 then do_close c2;; let! nfd := got_fd (r_null x) in M_ret (mk_acceptor (listenfd_ a) nfd) else M_ret a) w with
      | (Val a', w') => sync_accept rest a' w'
      | (Exn e, w') => Some (Exn e, w')
      | (Fault f, w') => Some (Fault f, w')
      end
    else if negb (r_errno x =? EINTR) then Some (Exn (system_error (- r_fd x)), w)
    else sync_accept rest a w
  end.
(** [~acceptor()] *)
Definition destroy_acceptor (a : acceptor) : M fds unit := do_close (listenfd_ a).

Lemma lookup_last {A} (l : list A) x : (l ++ [x]) !! length l = Some x.
Proof. by rewrite lookup_app_r, Nat.sub_diag by lia. Qed.
Lemma delete_last {A} (l : list A) x : delete (length l) (l ++ [x]) = l.
Proof. induction l; cbn; [done | by f_equal]. Qed.

Lemma connection_from_int_spec fd w : 0 <= fd ->
  connection_from_int fd w = (Val (length (objects w)), mk_fds (objects w ++ [fd]) (opened w) (closes w ++ [fd])).
Proof.
  intros Hf. unfold connection_from_int, construct, destroy, get_fd, do_close, invalid. run_M.
  rewrite lookup_last, (proj2 (Z.ltb_ge _ _)) by lia. run_M. by rewrite delete_last.
Qed.
Lemma connection_from_socket_spec fd w :
  connection_from_socket fd w = (Val (length (objects w)), mk_fds (objects w ++ [fd]) (opened w) (closes w)).
Proof.
  unfold connection_from_socket, construct, move_construct, make_invalid, destroy, get_fd, do_close, invalid. run_M.
  rewrite lookup_last. run_M. rewrite insert_app_r_alt, Nat.sub_diag by lia. cbn [insert list_insert].
  rewrite lookup_app_l, lookup_last by (rewrite length_app; cbn; lia). cbn. rewrite <- app_assoc. cbn.
  f_equal; [f_equal; rewrite length_app; cbn; lia|]. f_equal.
  clear. induction (objects w); cbn; [done | by f_equal].
Qed.

Lemma new_socket_ok fd w : 0 <= fd -> new_socket_safe fd w = (Val fd, mk_fds (objects w) (opened w ++ [fd]) (closes w)).
Proof. intros. unfold new_socket_safe. by rewrite (proj2 (Z.ltb_ge _ _)) by lia. Qed.
Lemma got_fd_ok fd w : 0 <= fd -> got_fd fd w = (Val fd, mk_fds (objects w) (opened w ++ [fd]) (closes w)).
Proof. intros. unfold got_fd. by rewrite (proj2 (Z.leb_le _ _)) by lia. Qed.

Lemma handle_connect_error_cases connect fd w : connect <> 0 ->
  let failed := if decide (connect = - ECANCELED) then connect_timeout else system_error (- connect) in
  handle_connect_error (- connect) w = (Exn failed, w) /\
    handle_connect_error_fd (- connect) fd w = (Exn failed, mk_fds (objects w) (opened w) (closes w ++ [fd])).
Proof.
  cbn zeta. intros E0. unfold handle_connect_error, handle_connect_error_fd, do_close. run_M.
  destruct (Z.eqb_spec (- connect) 0); [lia|]. destruct (Z.eqb_spec (- connect) ECANCELED), (decide (connect = - ECANCELED)); try lia; done.
Qed.

(** [C39] The descriptors of a connection attempt.  A failed [socket()] opens
    nothing.  When the connection fails, the descriptor made for it is closed
    exactly once and the exception tells a timeout from an error of the
    kernel.  When it succeeds the descriptor belongs to the connection
    returned, but both forms that build the connection from the bare [int]
    have by then also asked to close it, through the temporary [socket] in
    the constructor; the form with a local address does not, but leaks the
    descriptor when [bind] fails. *)
Theorem connect_descriptor_outcomes fd errno connect w : 0 <= fd -> 0 < errno -> connect <= 0 ->
  (forall c, connect_to (-1) c w = (Exn no_socket, w)) /\
  let w1 := mk_fds (objects w) (opened w ++ [fd]) (closes w) in
  let failed := if decide (connect = - ECANCELED) then connect_timeout else system_error (- connect) in
  (connect < 0 -> connect_to fd connect w = (Exn failed, mk_fds (objects w) (opened w ++ [fd]) (closes w ++ [fd])) /\
     connect_to_from fd 0 0 connect w = (Exn failed, mk_fds (objects w) (opened w ++ [fd]) (closes w ++ [fd])) /\
     connect_to_fd fd connect w = (Exn failed, w)) /\
  connect_to fd 0 w = (Val (length (objects w)), mk_fds (objects w ++ [fd]) (opened w ++ [fd]) (closes w ++ [fd])) /\
  connect_to_fd fd 0 w = (Val (length (objects w)), mk_fds (objects w ++ [fd]) (opened w) (closes w ++ [fd])) /\
  connect_to_from fd 0 0 0 w = (Val (length (objects w)), mk_fds (objects w ++ [fd]) (opened w ++ [fd]) (closes w)) /\
  connect_to_from fd (-1) errno connect w = (Exn (system_error errno), w1).
Proof.
  intros Hf He Hc. pose proof (new_socket_ok fd w Hf) as Hs. split; [intros c; reflexivity|]. cbn zeta.
  set (w1 := mk_fds (objects w) (opened w ++ [fd]) (closes w)) in *. split_and!.
  - intros Hneg. pose proof (fun w => handle_connect_error_cases connect fd w ltac:(lia)) as Hh.
    destruct (Hh w) as [H1 _]. destruct (Hh w1) as [_ H2]. unfold connect_to, connect_to_from, connect_to_fd. split_and!.
    + rewrite (M_bind_val _ _ _ _ _ Hs). by rewrite (M_bind_exn _ _ _ _ _ H2).
    + rewrite (M_bind_val _ _ _ _ _ Hs). rewrite (M_bind_val (safe_bind_socket 0 0) _ w1 tt w1 eq_refl).
      by rewrite (M_bind_exn _ _ _ _ _ H2).
    + by rewrite (M_bind_exn _ _ _ _ _ H1).
  - unfold connect_to. rewrite (M_bind_val _ _ _ _ _ Hs), (M_bind_val (handle_connect_error_fd (- 0) fd) _ w1 tt w1 eq_refl).
    by rewrite connection_from_int_spec.
  - unfold connect_to_fd. rewrite (M_bind_val (handle_connect_error (- 0)) _ w tt w eq_refl). by rewrite connection_from_int_spec.
  - unfold connect_to_from. rewrite (M_bind_val _ _ _ _ _ Hs), (M_bind_val (safe_bind_socket 0 0) _ w1 tt w1 eq_refl).
    rewrite (M_bind_val (handle_connect_error_fd (- 0) fd) _ w1 tt w1 eq_refl). by rewrite connection_from_socket_spec.
  - unfold connect_to_from. by rewrite (M_bind_val _ _ _ _ _ Hs).
Qed.

Lemma connect_descriptor_outcomes_witness :
  connect_to 7 (- ECANCELED) no_fds = (Exn connect_timeout, mk_fds [] [7] [7]) /\
  connect_to 7 0 no_fds = (Val 0%nat, mk_fds [7] [7] [7]).
Proof.
  destruct (connect_descriptor_outcomes 7 98 (- ECANCELED) no_fds ltac:(lia) ltac:(lia) ltac:(done)) as (_ & Hfail & Hok & _).
  split; [apply Hfail; reflexivity | exact Hok].
Defined.

(** A connection that [accept()] returns normally.  The ordinary one owns the
    descriptor of the kernel.  After [ENFILE] the second connection is closed
    to shed load but returned to the caller all the same, and an interrupted
    accept is returned as a connection with the descriptor -4. *)
Theorem accept_returns_closed_connection a fd null_fd w : 0 < fd -> 0 <= null_fd ->
  (forall r2 n, accept fd r2 n a w = (Val (length (objects w), a), mk_fds (objects w ++ [fd]) (opened w ++ [fd]) (closes w))) /\
  accept (- ENFILE) fd null_fd a w = (Val (length (objects w), mk_acceptor (listenfd_ a) null_fd),
    mk_fds (objects w ++ [fd]) (opened w ++ [fd; null_fd]) (closes w ++ [backupfd_ a; fd])) /\
  (forall r2 n, accept (- EINTR) r2 n a w = (Val (length (objects w), a), mk_fds (objects w ++ [- EINTR]) (opened w) (closes w))).
Proof.
  intros Hf Hn. unfold accept. split_and!; intros.
  - rewrite (M_bind_val _ _ _ _ _ (got_fd_ok fd w ltac:(lia))). destruct (Z.eqb_spec fd (- ENFILE)); [unfold ENFILE in *; lia|].
    rewrite (M_bind_val (M_ret _) _ _ _ _ eq_refl). cbn [fst snd]. rewrite (proj2 (Z.ltb_ge _ _)) by lia. cbn [andb].
    rewrite (M_bind_val (M_ret _) _ _ _ _ eq_refl). by rewrite (M_bind_val _ _ _ _ _ (connection_from_socket_spec _ _)).
  - rewrite (M_bind_val (got_fd (- ENFILE)) _ _ _ _ eq_refl). change (- ENFILE =? - ENFILE) with true. cbn iota.
    set (step := M_bind _ (do_close (backupfd_ a))).
    assert (E : step w = (Val (fd, mk_acceptor (listenfd_ a) null_fd),
      mk_fds (objects w) ((opened w ++ [fd]) ++ [null_fd]) ((closes w ++ [backupfd_ a]) ++ [fd]))).
    { unfold step. rewrite (M_bind_val (do_close (backupfd_ a)) _ w tt _ eq_refl). rewrite (M_bind_val _ _ _ _ _ (got_fd_ok fd _ ltac:(lia))).
      rewrite (proj2 (Z.ltb_lt 0 fd)) by lia. rewrite (M_bind_val (do_close fd) _ _ tt _ eq_refl).
      by rewrite (M_bind_val _ _ _ _ _ (got_fd_ok null_fd _ ltac:(lia))). }
    rewrite (M_bind_val _ _ _ _ _ E). cbn [fst snd]. rewrite (proj2 (Z.ltb_ge fd 0)) by lia. cbn [andb].
    rewrite (M_bind_val (M_ret tt) _ _ _ _ eq_refl). rewrite (M_bind_val _ _ _ _ _ (connection_from_socket_spec _ _)).
    unfold M_ret. cbn. by rewrite <- !app_assoc.
  - rewrite (M_bind_val (got_fd (- EINTR)) _ w (- EINTR) w eq_refl). change (- EINTR =? - ENFILE) with false. cbn iota.
    rewrite (M_bind_val (M_ret _) _ _ _ _ eq_refl). cbn [fst snd].
    change ((- EINTR <? 0) && negb (- EINTR =? - EINTR)) with false. cbn iota.
    rewrite (M_bind_val (M_ret tt) _ _ _ _ eq_refl). by rewrite (M_bind_val _ _ _ _ _ (connection_from_socket_spec _ _)).
Qed.
