(* ===== verification/Endpoint.v ===== *)
(** Addresses: [endpoint.hpp] and the number formatting of
    [detail/str_utils.hpp].  The resolver and [inet_pton] are parameters. *)
From S2P Require Import Prelude Endian.

(** * [str_utils.hpp] *)

(** [str_util_parse_digits], and the pointer into its middle. *)
Definition str_util_parse_digits : list byte :=
  [x39; x38; x37; x36; x35; x34; x33; x32; x31; x30; x31; x32; x33; x34; x35; x36; x37; x38; x39;
   x41; x42; x43; x44; x45; x46; x30; x31; x32; x33; x34; x35; x36; x37; x38; x39; x61; x62; x63; x64; x65; x66].
Definition str_util_parse_zero (lsd : Z) : byte := nth (Z.to_nat (9 + lsd)) str_util_parse_digits x00.

(** The loop of [itoad], least significant digit first: at most ten turns for
    an [int]. *)
Fixpoint itoad_loop (turns : nat) (i : Z) : list byte :=
  match turns with
  | O => []
  | S turns' =>
    let lsd := Z.rem i 10 in
    let i' := Z.quot i 10 in
    str_util_parse_zero lsd :: (if i' =? 0 then [] else itoad_loop turns' i')
  end.
Definition itoad (val : Z) : list byte := reverse (itoad_loop 10 val ++ if val <? 0 then [x2d] else []).
(** Into an array of [cap] chars, with the terminating NUL; [None] when it
    writes behind the array. *)
Definition itoad_into (cap : nat) (val : Z) : option (list byte) :=
  let s := itoad val in if decide (S (length s) <= cap)%nat then Some s else None.

(** [itoa2], unsigned, with a radix from 2 to 16. *)
Definition itoa2_zero (cap : bool) (lsd : Z) : byte :=
  nth (Z.to_nat ((if cap then 9 else 25) + lsd)) str_util_parse_digits x00.
Fixpoint itoa2_loop (turns : nat) (cap : bool) (rdx i : Z) : list byte :=
  match turns with
  | O => []
  | S turns' => itoa2_zero cap (i mod rdx) :: (if i / rdx =? 0 then [] else itoa2_loop turns' cap rdx (i / rdx))
  end.
Definition itoa2 (val rdx : Z) (cap : bool) : list byte := reverse (itoa2_loop 32 cap rdx (wrap 32 val)).

(** [atoi] of the C library: white space, a sign, digits. *)
Definition digit_value (c : byte) : option Z :=
  let v := Z_of_byte c - 48 in if decide (0 <= v <= 9) then Some v else None.
Fixpoint digits_value (acc : Z) (l : list byte) : Z :=
  match l with
  | [] => acc
  | c :: l' => match digit_value c with Some d => digits_value (10 * acc + d) l' | None => acc end
  end.
Definition is_space (c : byte) : bool := let v := Z_of_byte c in (v =? 32) || ((9 <=? v) && (v <=? 13)).
Fixpoint skip_spaces (l : list byte) : list byte :=
  match l with c :: l' => if is_space c then skip_spaces l' else l | [] => [] end.
Definition atoi (l : list byte) : Z :=
  match skip_spaces l with
  | x2d :: l' => - digits_value 0 l'
  | x2b :: l' => digits_value 0 l'
  | l' => digits_value 0 l'
  end.

(** * [endpoint] *)

Definition AF_INET : Z := 2.
(** [addr4_]: [sin_port] and [sin_addr] as the integers a little-endian host
    reads there. *)
Record endpoint : Type := mk_endpoint { sin_family : Z; sin_port : Z; sin_addr : Z }.
Definition wrong_form : exn := runtime_error "wrong ip address form".

Section Endpoint.
Context (inet_pton : list byte -> option Z) (gethostbyname : list byte -> option Z).

Definition endpoint_of_port (port : Z) : endpoint := mk_endpoint AF_INET (host_to_network U16 port) 0.
Definition endpoint_of_ip (ip : list byte) (port : Z) : endpoint + exn :=
  match inet_pton ip with
  | Some a => inl (mk_endpoint AF_INET (host_to_network U16 port) a)
  | None => inr wrong_form
  end.
(** [strchr], as an offset. *)
Fixpoint strchr (l : list byte) (c : byte) : option nat :=
  match l with
  | [] => None
  | x :: l' => if decide (x = c) then Some 0%nat else S <$> strchr l' c
  end.
Definition endpoint_of_ip_port (ip_port : list byte) : endpoint + exn :=
  match strchr ip_port x3a with
  | None => inr (runtime_error "not a ip_port address")
  | Some split => endpoint_of_ip (take split ip_port) (wrap 16 (atoi (drop split ip_port)))
  end.

(** [resolve] and both [from_resolve]; the argument 80 of the first is an
    [int]. *)
Definition resolve (hostname : list byte) (out : endpoint) : option endpoint :=
  a ← gethostbyname hostname; Some (mk_endpoint AF_INET (sin_port out) a).
Definition set_port (p : Z) (e : endpoint) : endpoint := mk_endpoint (sin_family e) (wrap 16 p) (sin_addr e).
Definition from_resolve (hostname : list byte) : endpoint + exn :=
  match resolve hostname (endpoint_of_port 0) with
  | None => inr (runtime_error "address resolve fails")
  | Some res => inl (set_port (host_to_network I32 80) res)
  end.
Definition from_resolve_port (hostname : list byte) (port : Z) : endpoint + exn :=
  match resolve hostname (endpoint_of_port 0) with
  | None => inr (runtime_error "address resolve fails")
  | Some res => inl (set_port (host_to_network U16 port) res)
  end.
End Endpoint.

(** The number printed for byte [i] of the address, and the four pieces. *)
Definition printed_octet (ipv4_int : Z) (i : nat) : Z :=
  let pos := 8 * Z.of_nat i in
  let and_v := Z.land ipv4_int (wrap 32 (Z.shiftl 255 pos)) in
  Z.shiftr (swrap 32 and_v) pos.
Definition ip_strs (e : endpoint) : option (list (list byte)) := mapM (fun i => itoad_into 4 (printed_octet (sin_addr e) i)) (seq 0 4).
Definition dotted (l : list (list byte)) : list byte :=
  match l with [a; b; c; d] => a ++ [x2e] ++ b ++ [x2e] ++ c ++ [x2e] ++ d | _ => [] end.
Definition address_str (e : endpoint) : option (list byte) := dotted <$> ip_strs e.
(** [port_buf\[0\] = ':'] and then [itoad(port_buf, ...)] from its start. *)
Definition to_str (e : endpoint) : option (list byte) :=
  l ← ip_strs e; p ← itoad_into 10 (network_to_host U16 (sin_port e)); Some (dotted l ++ p).

(** * Numbers survive printing *)

Lemma digit_zero d : 0 <= d <= 9 -> digit_value (str_util_parse_zero d) = Some d /\ str_util_parse_zero (- d) = str_util_parse_zero d.
Proof.
  intros Hd. assert (Hc : d = 0 \/ d = 1 \/ d = 2 \/ d = 3 \/ d = 4 \/ d = 5 \/ d = 6 \/ d = 7 \/ d = 8 \/ d = 9) by lia.
  destruct Hc as [->|[->|[->|[->|[->|[->|[->|[->|[->| ->]]]]]]]]]; by vm_compute.
Qed.

Lemma digits_value_snoc l : forall acc c d, Forall (fun x => is_Some (digit_value x)) l -> digit_value c = Some d ->
  digits_value acc (l ++ [c]) = 10 * digits_value acc l + d.
Proof.
  induction l as [|x l IH]; intros acc c d Hl Hc; cbn; [by rewrite Hc|].
  apply Forall_cons in Hl as [[v Hv] Hl]. rewrite Hv. by apply IH.
Qed.

Lemma itoad_loop_spec n : forall i, Z.abs i < 10 ^ Z.of_nat n -> (0 < n)%nat ->
  Forall (fun x => is_Some (digit_value x)) (itoad_loop n i) /\ digits_value 0 (reverse (itoad_loop n i)) = Z.abs i.
Proof.
  induction n as [|n IH]; intros i Hi Hn; [lia|]. cbn [itoad_loop].
  assert (Hq : Z.abs i = 10 * Z.abs (Z.quot i 10) + Z.abs (Z.rem i 10)) by (Z.to_euclidean_division_equations; lia).
  assert (Hr : 0 <= Z.abs (Z.rem i 10) <= 9) by (Z.to_euclidean_division_equations; lia).
  destruct (digit_zero _ Hr) as [Hd Hs].
  assert (Hz : str_util_parse_zero (Z.rem i 10) = str_util_parse_zero (Z.abs (Z.rem i 10))).
  { destruct (Z.abs_spec (Z.rem i 10)) as [[_ E]|[_ E]]; rewrite E in *; [done|]. by rewrite <- Hs, Z.opp_involutive. }
  rewrite Hz. destruct (Z.eqb_spec (Z.quot i 10) 0) as [E|E].
  - split; [constructor; [by rewrite Hd | constructor]|]. change (reverse [?c]) with ([] ++ [c]).
    rewrite digits_value_snoc with (d := Z.abs (Z.rem i 10)); [cbn [digits_value]; lia | constructor | done].
  - assert (Hn' : (0 < n)%nat) by (destruct n; [cbn in Hi; lia | lia]).
    destruct (IH (Z.quot i 10)) as [H1 H2]; [|done|].
    { rewrite Nat2Z.inj_succ, Z.pow_succ_r in Hi by lia. lia. }
    split; [constructor; [by rewrite Hd | done]|]. rewrite reverse_cons, digits_value_snoc with (d := Z.abs (Z.rem i 10)); [lia | | done].
    by apply Forall_reverse.
Qed.

Lemma atoi_digits c l : is_Some (digit_value c) -> atoi (c :: l) = digits_value 0 (c :: l).
Proof. unfold atoi. intros [d Hd]. destruct c; try (vm_compute in Hd; discriminate); reflexivity. Qed.

(** [atoi] reads back what [itoad] writes for any [int]. *)
Lemma atoi_itoad v : in_s 32 v -> atoi (itoad v) = v.
Proof.
  intros Hv. unfold in_s in Hv. destruct (itoad_loop_spec 10 v) as [Hd Hval]; [lia | lia|].
  unfold itoad. rewrite reverse_app. destruct (Z.ltb_spec v 0) as [Hlt|Hge].
  - change (reverse [x2d]) with [x2d]. cbn [app]. change (atoi (x2d :: ?l)) with (- digits_value 0 l). lia.
  - cbn [reverse rev_append app]. apply Forall_reverse in Hd. destruct (reverse (itoad_loop 10 v)) as [|c l]; [cbn in *; lia|].
    apply Forall_cons in Hd as [Hc _]. rewrite atoi_digits by done. lia.
Qed.


(** * The text of an address *)

Lemma land_octet x p : 0 <= p -> Z.land x (Z.shiftl 255 p) = Z.shiftl (Z.shiftr x p mod 256) p.
Proof.
  intros Hp. change 256 with (2 ^ 8). rewrite <- Z.land_ones by lia. change (Z.ones 8) with 255. apply Z.bits_inj'. intros n Hn.
  rewrite Z.land_spec, !Z.shiftl_spec by done. destruct (Z.le_gt_cases p n).
  - rewrite Z.land_spec, Z.shiftr_spec by lia. f_equal. f_equal. lia.
  - rewrite !(Z.testbit_neg_r _ (n - p)) by lia. apply andb_false_r.
Qed.

Definition in_addr (o0 o1 o2 o3 : Z) : Z := o0 + 256 * (o1 + 256 * (o2 + 256 * o3)).
Definition octet (o : Z) : Prop := 0 <= o < 256.

Lemma printed_octets o0 o1 o2 o3 : octet o0 -> octet o1 -> octet o2 -> octet o3 ->
  printed_octet (in_addr o0 o1 o2 o3) <$> seq 0 4 = [o0; o1; o2; if o3 <? 128 then o3 else o3 - 256].
Proof.
  unfold octet. intros H0 H1 H2 H3. unfold printed_octet, in_addr. cbn [fmap list_fmap seq Z.of_nat].
  assert (E : forall p, p ∈ [0; 8; 16; 24] -> wrap 32 (Z.shiftl 255 p) = Z.shiftl 255 p).
  { intros p Hp. rewrite !elem_of_cons, elem_of_nil in Hp. destruct Hp as [->|[->|[->|[->|[]]]]]; reflexivity. }
  rewrite !E by (rewrite !elem_of_cons; cbn; tauto). rewrite !land_octet by lia. rewrite !Z.shiftr_div_pow2, !Z.shiftl_mul_pow2 by lia.
  set (x := o0 + _). assert (D0 : x / 2 ^ 0 mod 256 = o0) by (unfold x; Z.to_euclidean_division_equations; lia).
  assert (D1 : x / 2 ^ 8 mod 256 = o1) by (unfold x; Z.to_euclidean_division_equations; lia).
  assert (D2 : x / 2 ^ 16 mod 256 = o2) by (unfold x; Z.to_euclidean_division_equations; lia).
  assert (D3 : x / 2 ^ 24 mod 256 = o3) by (unfold x; Z.to_euclidean_division_equations; lia).
  change (8 * Z.pos 1) with 8. change (8 * Z.pos 2) with 16. change (8 * Z.pos 3) with 24. change (8 * 0) with 0.
  rewrite ?D0, ?D1, ?D2, ?D3. unfold swrap.
  f_equal; [|f_equal; [|f_equal; [|f_equal]]]; try (Z.to_euclidean_division_equations; lia).
  destruct (Z.ltb_spec o3 128); Z.to_euclidean_division_equations; lia.
Qed.

(** Every octet fits its four-char array; of the negative numbers only those
    above -100 do. *)
Lemma octet_fits o : octet o -> itoad_into 4 o = Some (itoad o).
Proof.
  intros Ho. unfold octet in Ho. apply decide_True.
  assert (Hall : forallb (fun k => length (itoad (Z.of_nat k)) <=? 3)%nat (seq 0 256) = true) by (vm_compute; reflexivity).
  apply (proj1 (forallb_forall _ _)) with (x := Z.to_nat o) in Hall; [|apply in_seq; lia].
  apply Nat.leb_le in Hall. rewrite Z2Nat.id in Hall by lia. lia.
Qed.
Lemma negative_octet_fits o : 128 <= o < 256 -> itoad_into 4 (o - 256) = if o <? 157 then None else Some (itoad (o - 256)).
Proof.
  intros Ho. unfold itoad_into.
  assert (Hall : forallb (fun k => Nat.eqb (length (itoad (Z.of_nat k - 256))) (if Z.of_nat k <? 157 then 4%nat else if Z.of_nat k <? 247 then 3%nat else 2%nat))
    (seq 128 128) = true) by (vm_compute; reflexivity).
  apply (proj1 (forallb_forall _ _)) with (x := Z.to_nat o) in Hall; [|apply in_seq; lia].
  apply Nat.eqb_eq in Hall. rewrite Z2Nat.id in Hall by lia. rewrite Hall.
  destruct (o <? 157); [done | by destruct (o <? 247)].
Qed.

Lemma ip_strs_spec f p o0 o1 o2 o3 : octet o0 -> octet o1 -> octet o2 -> octet o3 ->
  ip_strs (mk_endpoint f p (in_addr o0 o1 o2 o3)) =
  s3 ← itoad_into 4 (if o3 <? 128 then o3 else o3 - 256); Some [itoad o0; itoad o1; itoad o2; s3].
Proof.
  intros H0 H1 H2 H3. pose proof (printed_octets o0 o1 o2 o3 H0 H1 H2 H3) as E. unfold ip_strs. cbn [sin_addr].
  cbn [fmap list_fmap seq] in E. injection E as E0 E1 E2 E3. cbn [seq mapM]. rewrite E0, E1, E2, E3, (octet_fits o0), (octet_fits o1), (octet_fits o2) by done.
  cbn [mbind option_bind]. by destruct (itoad_into 4 _).
Qed.

Lemma port_back port : in_u 16 port -> network_to_host U16 (host_to_network U16 port) = port.
Proof. intros Hp. unfold network_to_host, host_to_network. rewrite betoh_htobe. by apply wrap_small. Qed.

Lemma itoad_length n : forall i, Z.abs i < 10 ^ Z.of_nat n -> (0 < n)%nat -> forall m, (length (itoad_loop (n + m) i) <= n)%nat.
Proof.
  induction n as [|n IH]; intros i Hi Hn m; [lia|]. cbn [itoad_loop Nat.add length]. destruct (Z.eqb_spec (Z.quot i 10) 0) as [E|E]; cbn; [lia|].
  apply le_n_S, IH; [|destruct n; [|lia]].
  - rewrite Nat2Z.inj_succ, Z.pow_succ_r in Hi by lia. Z.to_euclidean_division_equations. lia.
  - exfalso. apply E. apply Z.quot_small_iff; cbn in *; lia.
Qed.
Lemma port_fits port : in_u 16 port -> itoad_into 10 port = Some (itoad port).
Proof.
  intros [Hp0 Hp1]. unfold itoad_into. apply decide_True. unfold itoad. rewrite (proj2 (Z.ltb_ge _ _)), app_nil_r, length_reverse by lia.
  pose proof (itoad_length 5 port ltac:(cbn; lia) ltac:(lia) 5). cbn [Nat.add] in *. lia.
Qed.

Lemma text_of f port a l : in_u 16 port -> let e := mk_endpoint f (host_to_network U16 port) a in ip_strs e = Some l ->
  address_str e = Some (dotted l) /\ to_str e = Some (dotted l ++ itoad port).
Proof.
  intros Hp e E. assert (Hport : itoad_into 10 (network_to_host U16 (sin_port e)) = Some (itoad port)).
  { unfold e. cbn [sin_port]. rewrite port_back by done. by apply port_fits. }
  unfold address_str, to_str. revert Hport. generalize (itoad_into 10 (network_to_host U16 (sin_port e))). generalize (itoad port).
  intros p o ->. rewrite E. done.
Qed.

(** [C40] The text of an address.  For every IPv4 address whose last octet is
    below 128, [address_str] is the four octets in decimal with dots, each of
    which [atoi] reads back; [to_str] then appends the port in decimal, but
    without the colon, which [itoad] overwrites.  A last octet from 157 on is
    printed as that number minus 256, and one from 128 to 156 overflows the
    four-char array. *)
Theorem address_text o0 o1 o2 o3 port : octet o0 -> octet o1 -> octet o2 -> octet o3 -> in_u 16 port ->
  let e := mk_endpoint AF_INET (host_to_network U16 port) (in_addr o0 o1 o2 o3) in
  (forall o, o ∈ [o0; o1; o2; o3; o3 - 256; port] -> atoi (itoad o) = o) /\
  (o3 < 128 -> address_str e = Some (dotted (itoad <$> [o0; o1; o2; o3])) /\
    to_str e = Some (dotted (itoad <$> [o0; o1; o2; o3]) ++ itoad port)) /\
  (157 <= o3 -> address_str e = Some (dotted (itoad <$> [o0; o1; o2; o3 - 256]))) /\
  (128 <= o3 < 157 -> address_str e = None /\ to_str e = None).
Proof.
  intros H0 H1 H2 H3 Hp e. split_and!.
  - intros o Ho. apply atoi_itoad. rewrite !elem_of_cons, elem_of_nil in Ho. unfold octet, in_u, in_s in *. lia.
  - intros Hlt. apply (text_of AF_INET port _ _ Hp). unfold e. rewrite ip_strs_spec, (proj2 (Z.ltb_lt _ _)), octet_fits by done. reflexivity.
  - intros Hge. apply (text_of AF_INET port _ _ Hp). unfold e. rewrite ip_strs_spec, (proj2 (Z.ltb_ge _ _)), negative_octet_fits, (proj2 (Z.ltb_ge _ _))
      by (done || unfold octet in *; lia). reflexivity.
  - intros [Hge Hlt]. unfold address_str, to_str.
    assert (E : ip_strs e = None); [|by rewrite E]. unfold e.
    rewrite ip_strs_spec, (proj2 (Z.ltb_ge _ _)), negative_octet_fits, (proj2 (Z.ltb_lt _ _)) by (done || unfold octet in *; lia). reflexivity.
Qed.

Lemma address_text_witness : address_str (mk_endpoint AF_INET (host_to_network U16 80) (in_addr 127 0 0 1)) =
    Some (dotted (itoad <$> [127; 0; 0; 1])) /\ address_str (mk_endpoint AF_INET (host_to_network U16 80) (in_addr 10 0 0 130)) = None.
Proof.
  destruct (address_text 127 0 0 1 80) as (_ & Ha & _); [done.. |]. destruct (address_text 10 0 0 130 80) as (_ & _ & _ & Hb); [done..|].
  split; [by apply Ha | by apply Hb].
Defined.

(** The port of an endpoint made from text with a colon is always zero:
    [atoi] is given the colon. *)
Theorem ip_port_has_no_port pton ip_port e : endpoint_of_ip_port pton ip_port = inl e -> sin_port e = 0.
Proof.
  unfold endpoint_of_ip_port, endpoint_of_ip. destruct (strchr ip_port x3a) as [k|] eqn:Ek; [|done].
  assert (Hd : exists rest, drop k ip_port = x3a :: rest).
  { clear -Ek. revert k Ek. induction ip_port as [|x l IH]; cbn; intros k Ek; [done|]. case_decide; [subst; injection Ek as <-; by exists l|].
    destruct (strchr l x3a) as [j|]; [|done]. injection Ek as <-. cbn. by apply IH. }
  destruct Hd as [rest ->]. change (atoi (x3a :: rest)) with 0. destruct (pton _); [|done]. by intros [= <-].
Qed.

(** The default port of [from_resolve(hostname)] is zero as well: 80 is an
    [int], whose four bytes are swapped and then cut to two. *)
Theorem from_resolve_has_no_port ghbn hostname e : from_resolve ghbn hostname = inl e -> sin_port e = 0.
Proof. unfold from_resolve, resolve. destruct (ghbn hostname); cbn; [|done]. by intros [= <-]. Qed.
