(* ===== verification/Logger.v ===== *)
(** The logger: calendar and clock fields of [timestamp.hpp], their text in
    [detail/logging/log_timestamp.hpp], the backend of [async_logger.hpp] and
    [source/logging/async_logger.cpp], and the output file of
    [source/logging/log_file.cpp].  A time point is a number of nanoseconds
    since the epoch. *)
From S2P Require Import Prelude Endian Endpoint.

(** * [timestamp] *)

Definition ns_per_day : Z := 86400000000000.
Definition floor_days (ts : Z) : Z := ts / ns_per_day.
Definition floor_seconds (ts : Z) : Z := ts / 1000000000.

(** [std::chrono::year_month_day] of a day number. *)
Definition ymd_data (days : Z) : Z * Z * Z :=
  let z := days + 719468 in
  let era := z / 146097 in
  let doe := z mod 146097 in
  let yoe := (doe - doe / 1460 + doe / 36524 - doe / 146096) / 365 in
  let doy := doe - (365 * yoe + yoe / 4 - yoe / 100) in
  let mp := (5 * doy + 2) / 153 in
  let d := doy - (153 * mp + 2) / 5 + 1 in
  let m := if mp <? 10 then mp + 3 else mp - 9 in
  (yoe + 400 * era + (if m <=? 2 then 1 else 0), m, d).
(** [hms_data_]: microseconds since midnight, both casts truncating. *)
Definition hms_data (ts : Z) : Z := Z.quot (ts - ns_per_day * Z.quot ts ns_per_day) 1000.

Definition year (ts : Z) : Z := (ymd_data (floor_days ts)).1.1.
Definition month (ts : Z) : Z := (ymd_data (floor_days ts)).1.2.
Definition day (ts : Z) : Z := (ymd_data (floor_days ts)).2.
Definition hour (ts : Z) : Z := hms_data ts / 3600000000.
Definition minute (ts : Z) : Z := hms_data ts / 60000000 mod 60.
Definition second (ts : Z) : Z := hms_data ts / 1000000 mod 60.
Definition microsecond (ts : Z) : Z := hms_data ts mod 1000000.
Definition same_date (a b : Z) : bool := floor_days a =? floor_days b.
Definition same_second (a b : Z) : bool := floor_seconds a =? floor_seconds b.

(** [timestamp::swap] on the three members of two objects. *)
Definition members : Type := Z * (Z * Z * Z) * Z.
Definition timestamp_of (ts : Z) : members := (ts, ymd_data (floor_days ts), hms_data ts).
Definition timestamp_swap (this ts : members) : members * members :=
  ((ts.1.1, this.1.2, ts.2), (this.1.1, ts.1.2, this.2)).

(** * [log_timestamp] *)

(** The conversions %0<w>d and %<w>d of a number. *)
Definition pad (c : byte) (w : nat) (v : Z) : list byte := replicate (w - length (itoad v)) c ++ itoad v.
Definition TS_FMT_DATE (ts : Z) : list byte :=
  pad x20 4 (year ts) ++ [x2d] ++ pad x30 2 (month ts) ++ [x2d] ++ pad x30 2 (day ts) ++ [x20].
Definition TS_FMT_BASE_TIME (ts : Z) : list byte :=
  pad x30 2 (hour ts) ++ [x3a] ++ pad x30 2 (minute ts) ++ [x3a] ++ pad x30 2 (second ts) ++ [x20].
Definition TS_FMT_MICRO_SEC (ts : Z) : list byte := [x2e] ++ pad x30 6 (microsecond ts) ++ [x20].
Definition fmt_date_len : nat := 11.
Definition fmt_base_time_len : nat := 9.
Definition fmt_micro_second_len : nat := 8.
Definition time_string_len : nat := fmt_date_len + fmt_base_time_len + fmt_micro_second_len.

(** [snprintf(buf, n, ...)] at an offset: at most [n - 1] chars and a NUL; the
    result is the pointer behind the whole text. *)
Definition snprintf (off n : nat) (s : list byte) : M (list byte) nat := fun buf =>
  let out := take (n - 1) s ++ [x00] in
  if decide (off + length out <= length buf)%nat then (Val (off + length s)%nat, splice off out buf)
  else (Fault undefined_behaviour, buf).
Definition format_date_to (ts : Z) (off : nat) : M (list byte) nat := snprintf off (fmt_date_len + 1) (TS_FMT_DATE ts).
Definition format_base_time_to (ts : Z) (off : nat) : M (list byte) nat := snprintf off (fmt_base_time_len + 1) (TS_FMT_BASE_TIME ts).
Definition format_micro_to (ts : Z) (off : nat) : M (list byte) nat := snprintf off (fmt_micro_second_len + 1) (TS_FMT_MICRO_SEC ts).
Definition format_time_to (ts : Z) (off : nat) : M (list byte) nat := let! n := format_base_time_to ts off in format_micro_to ts n.
Definition format_to (ts : Z) (off : nat) : M (list byte) nat := let! n := format_date_to ts off in format_time_to ts n.

(** * The cached text of [async_logger] *)

Record clock : Type := mk_clock { last_time_ : Z; time_buffer_ : list byte }.
Definition on_time_buffer {A} (m : M (list byte) A) : M clock A := fun c =>
  let r := m (time_buffer_ c) in (r.1, mk_clock (last_time_ c) r.2).
Definition assert_end (end_ : nat) : M clock unit := cpp_assert (end_ =? time_string_len)%nat.

Definition update_datetime_all : M clock unit :=
  let! t := gets last_time_ in let! end_ := on_time_buffer (format_to t 0) in assert_end end_.
Definition update_datetime_time : M clock unit :=
  let! t := gets last_time_ in let! end_ := on_time_buffer (format_time_to t fmt_date_len) in assert_end end_.
Definition update_datetime_micro : M clock unit :=
  let! t := gets last_time_ in
  let! end_ := on_time_buffer (format_micro_to t (fmt_date_len + fmt_base_time_len)) in assert_end end_.
(** [update_datetime(ts)]: [std::swap] first, so [ts] is the old time. *)
Definition update_datetime (new : Z) : M clock unit :=
  let! old := gets last_time_ in
  modify (fun c => mk_clock new (time_buffer_ c));;
  (if same_date old new then if same_second old new then update_datetime_micro else update_datetime_time
   else update_datetime_all).
(** The part of the constructor that fills the buffer, zeroed before. *)
Definition init_clock (now : Z) : M clock unit :=
  modify (fun _ => mk_clock now (replicate (S time_string_len) x00));;
  update_datetime_all;;
  modify (fun c => mk_clock (last_time_ c) (<[(time_string_len - 1)%nat := x00]> (time_buffer_ c))).

(** What the text should be. *)
Definition datetime_text (ts : Z) : list byte := TS_FMT_DATE ts ++ TS_FMT_BASE_TIME ts ++ TS_FMT_MICRO_SEC ts.
Definition time_ok (ts : Z) : Prop := 0 <= ts < 2 ^ 63.

(** * The fields fit their widths *)

Lemma itoad_width v w : 0 <= v < 10 ^ Z.of_nat w -> (0 < w <= 10)%nat -> (length (itoad v) <= w)%nat.
Proof.
  intros Hv Hw. unfold itoad. rewrite (proj2 (Z.ltb_ge _ _)), app_nil_r, length_reverse by lia.
  replace 10%nat with (w + (10 - w))%nat by lia. apply itoad_length; [lia | lia].
Qed.
Lemma pad_length c w v : 0 <= v < 10 ^ Z.of_nat w -> (0 < w <= 10)%nat -> length (pad c w v) = w.
Proof. intros Hv Hw. pose proof (itoad_width v w Hv Hw). unfold pad. rewrite length_app, length_replicate. lia. Qed.

Lemma ymd_bounds days : 0 <= days <= 2 ^ 17 ->
  0 <= (ymd_data days).1.1 < 10000 /\ 1 <= (ymd_data days).1.2 <= 12 /\ 1 <= (ymd_data days).2 <= 31.
Proof.
  intros Hd. unfold ymd_data. cbn [fst snd]. set (z := days + 719468). set (doe := z mod 146097).
  assert (Hdoe : 0 <= doe < 146097) by (apply Z.mod_pos_bound; lia).
  assert (Hera : 0 <= z / 146097 <= 10) by (unfold z; Z.to_euclidean_division_equations; lia).
  set (yoe := (doe - doe / 1460 + doe / 36524 - doe / 146096) / 365).
  set (doy := doe - (365 * yoe + yoe / 4 - yoe / 100)).
  assert (Hyoe : 0 <= yoe <= 399) by (unfold yoe; clearbody doe; Z.to_euclidean_division_equations; lia).
  assert (Hdoy : 0 <= doy <= 365) by (unfold doy, yoe; clearbody doe; Z.to_euclidean_division_equations; lia).
  clearbody doy yoe. set (mp := (5 * doy + 2) / 153). assert (Hmp : 0 <= mp <= 11) by (unfold mp; Z.to_euclidean_division_equations; lia).
  split_and!.
  - destruct (Z.ltb_spec mp 10); case_match; lia.
  - destruct (Z.ltb_spec mp 10); case_match; lia.
  - destruct (Z.ltb_spec mp 10); lia.
  - destruct (Z.ltb_spec mp 10); lia.
  - unfold mp. Z.to_euclidean_division_equations. lia.
  - unfold mp. Z.to_euclidean_division_equations. lia.
Qed.

Lemma hms_seconds ts : 0 <= ts -> 0 <= hms_data ts < 86400000000 /\ hms_data ts / 1000000 = floor_seconds ts mod 86400.
Proof.
  intros Hts. unfold hms_data, floor_seconds, ns_per_day. rewrite (Z.quot_div_nonneg ts) by lia.
  set (q := ts / 86400000000000). set (r := ts mod 86400000000000).
  assert (Er : ts = 86400000000000 * q + r) by (apply Z.div_mod; lia). assert (Hr : 0 <= r < 86400000000000) by (apply Z.mod_pos_bound; lia).
  replace (ts - 86400000000000 * q) with r by lia. rewrite Z.quot_div_nonneg by lia. split.
  - split; [apply Z.div_pos; lia | apply Z.div_lt_upper_bound; lia].
  - rewrite Z.div_div by lia. replace ts with (86400 * q * 1000000000 + r) by lia. rewrite Z.div_add_l by lia.
    rewrite (Z.mul_comm 86400 q), (Z.add_comm (q * 86400)), Z_mod_plus_full. symmetry. apply Z.mod_small.
    split; [apply Z.div_pos; lia | apply Z.div_lt_upper_bound; lia].
Qed.

Lemma date_length ts : time_ok ts -> length (TS_FMT_DATE ts) = fmt_date_len.
Proof.
  intros Hts. assert (Hd : 0 <= floor_days ts <= 2 ^ 17) by (unfold time_ok, floor_days, ns_per_day in *; Z.to_euclidean_division_equations; lia).
  pose proof (ymd_bounds _ Hd) as Hb. unfold TS_FMT_DATE, year, month, day. destruct (ymd_data (floor_days ts)) as [[y mo] d].
  cbn [fst snd] in *. rewrite !length_app, !pad_length by (cbn; lia). done.
Qed.
Lemma base_time_length ts : time_ok ts -> length (TS_FMT_BASE_TIME ts) = fmt_base_time_len.
Proof.
  intros [Hts _]. pose proof (proj1 (hms_seconds ts Hts)) as Hh. unfold TS_FMT_BASE_TIME, hour, minute, second.
  generalize dependent (hms_data ts). intros us Hh. rewrite !length_app, !pad_length by (cbn; Z.to_euclidean_division_equations; lia). done.
Qed.
Lemma micro_length ts : time_ok ts -> length (TS_FMT_MICRO_SEC ts) = fmt_micro_second_len.
Proof.
  intros [Hts _]. unfold TS_FMT_MICRO_SEC, microsecond.
  generalize (hms_data ts). intros us. rewrite !length_app, !pad_length by (cbn; Z.to_euclidean_division_equations; lia). done.
Qed.

(** The text of the date depends on the day, that of the time on the second. *)
Lemma same_date_text a b : same_date a b = true -> TS_FMT_DATE a = TS_FMT_DATE b.
Proof. unfold same_date, TS_FMT_DATE, year, month, day. by intros ->%Z.eqb_eq. Qed.
Lemma same_second_text a b : time_ok a -> time_ok b -> same_second a b = true -> TS_FMT_BASE_TIME a = TS_FMT_BASE_TIME b.
Proof.
  intros [Ha _] [Hb _] E%Z.eqb_eq. destruct (hms_seconds a Ha) as [_ Ea]. destruct (hms_seconds b Hb) as [_ Eb]. rewrite E in Ea.
  assert (Hs : hms_data a / 1000000 = hms_data b / 1000000) by lia. unfold TS_FMT_BASE_TIME, hour, minute, second.
  assert (Hdiv : forall x k, 0 < k -> x / (1000000 * k) = x / 1000000 / k) by (intros; rewrite Z.div_div by lia; done).
  change 3600000000 with (1000000 * 3600). change 60000000 with (1000000 * 60). rewrite !Hdiv, Hs by lia. done.
Qed.

Lemma snprintf_spec off n s buf : length s = n -> (off + S n <= length buf)%nat ->
  snprintf off (n + 1) s buf = (Val (off + n)%nat, splice off (s ++ [x00]) buf).
Proof.
  intros Hs Hb. unfold snprintf. rewrite Nat.add_sub, take_ge by lia. rewrite decide_True by (rewrite length_app; cbn; lia). by rewrite Hs.
Qed.
Lemma splice_take {A} off (s : list A) z l : (off + S (length s) <= length l)%nat ->
  take (off + length s) (splice off (s ++ [z]) l) = take off l ++ s /\ length (splice off (s ++ [z]) l) = length l.
Proof.
  intros Hl. split; [|apply length_splice; rewrite length_app; cbn; lia]. unfold splice. rewrite <- app_assoc, app_assoc.
  rewrite take_app_le by (rewrite length_app, length_take; lia). rewrite take_ge; [done | rewrite length_app, length_take; lia].
Qed.

(** Writing a text of known length behind a known prefix extends the prefix. *)
Definition holds (p : list byte) (buf : list byte) : Prop := length buf = S time_string_len /\ take (length p) buf = p.
Lemma snprintf_extends p n s buf : holds p buf -> length s = n -> (length p + n <= time_string_len)%nat ->
  exists buf', snprintf (length p) (n + 1) s buf = (Val (length (p ++ s)), buf') /\ holds (p ++ s) buf'.
Proof.
  intros [Hl Hp] Hs Hn. destruct (splice_take (length p) s x00 buf) as [H1 H2]; [rewrite Hs, Hl; unfold time_string_len in *; lia|].
  eexists. rewrite snprintf_spec by lia. rewrite length_app, Hs. split; [done|]. split; [by rewrite H2|].
  rewrite length_app, H1. by rewrite Hp.
Qed.
Lemma holds_prefix p q buf : holds (p ++ q) buf -> holds p buf.
Proof.
  intros [Hl Hp]. split; [done|]. apply (f_equal (take (length p))) in Hp. rewrite take_take, take_app_length in Hp.
  rewrite length_app in Hp. replace (length p `min` (length p + length q))%nat with (length p) in Hp by lia. done.
Qed.

Lemma on_time_buffer_val {A} (m : M (list byte) A) c a buf' : m (time_buffer_ c) = (Val a, buf') ->
  on_time_buffer m c = (Val a, mk_clock (last_time_ c) buf').
Proof. unfold on_time_buffer. by intros ->. Qed.

(** The invariant between updates: the date and the time of day, without the
    microseconds (the constructor cuts the last char off). *)
Definition clock_inv (c : clock) : Prop := time_ok (last_time_ c) /\
  holds (TS_FMT_DATE (last_time_ c) ++ TS_FMT_BASE_TIME (last_time_ c)) (time_buffer_ c).
Definition up_to_date (c : clock) : Prop := clock_inv c /\ take time_string_len (time_buffer_ c) = datetime_text (last_time_ c).

Lemma micro_ok c : time_ok (last_time_ c) -> holds (TS_FMT_DATE (last_time_ c) ++ TS_FMT_BASE_TIME (last_time_ c)) (time_buffer_ c) ->
  exists c', update_datetime_micro c = (Val tt, c') /\ up_to_date c' /\ last_time_ c' = last_time_ c.
Proof.
  intros Ht Hh. set (t := last_time_ c) in *. pose proof (micro_length t Ht) as Hm.
  assert (Hlen : length (TS_FMT_DATE t ++ TS_FMT_BASE_TIME t) = (fmt_date_len + fmt_base_time_len)%nat)
    by (rewrite length_app, date_length, base_time_length; done).
  destruct (snprintf_extends _ _ (TS_FMT_MICRO_SEC t) _ Hh Hm) as (buf' & E & Hh'); [rewrite Hlen; done|].
  rewrite Hlen in E. unfold update_datetime_micro. rewrite (M_bind_val (gets last_time_) _ c t c eq_refl).
  rewrite (M_bind_val _ _ _ _ _ (on_time_buffer_val _ _ _ _ E)). rewrite length_app, Hlen, Hm.
  eexists. split; [reflexivity|]. split; [|done]. pose proof (holds_prefix _ _ _ Hh') as Hp. destruct Hh' as [Hl Htk].
  split; [by split|]. cbn [time_buffer_ last_time_]. rewrite length_app, Hlen, Hm in Htk. unfold datetime_text. by rewrite app_assoc.
Qed.
Lemma time_ok_micro c : time_ok (last_time_ c) -> holds (TS_FMT_DATE (last_time_ c)) (time_buffer_ c) ->
  exists c', update_datetime_time c = (Val tt, c') /\ up_to_date c' /\ last_time_ c' = last_time_ c.
Proof.
  intros Ht Hh. set (t := last_time_ c) in *.
  destruct (snprintf_extends _ _ (TS_FMT_BASE_TIME t) _ Hh (base_time_length t Ht)) as (b1 & E1 & H1); [rewrite date_length by done; by apply Nat.leb_le|].
  destruct (micro_ok (mk_clock t b1) Ht H1) as (c' & E & Hu & Hl). exists c'. split; [|done]. rewrite <- E.
  rewrite date_length in E1 by done.
  unfold update_datetime_time, update_datetime_micro, format_time_to. rewrite (M_bind_val (gets last_time_) _ c t c eq_refl).
  rewrite (M_bind_val (gets last_time_) _ (mk_clock t b1) t _ eq_refl). unfold M_bind at 1 3, on_time_buffer. cbn [time_buffer_ last_time_].
  unfold M_bind. unfold format_base_time_to. rewrite E1. rewrite length_app, date_length, base_time_length by done. done.
Qed.
Lemma all_ok c : time_ok (last_time_ c) -> length (time_buffer_ c) = S time_string_len ->
  exists c', update_datetime_all c = (Val tt, c') /\ up_to_date c' /\ last_time_ c' = last_time_ c.
Proof.
  intros Ht Hlen. set (t := last_time_ c) in *. assert (H0 : holds [] (time_buffer_ c)) by done.
  destruct (snprintf_extends [] _ (TS_FMT_DATE t) _ H0 (date_length t Ht)) as (b1 & E1 & H1); [by apply Nat.leb_le|].
  destruct (time_ok_micro (mk_clock t b1) Ht H1) as (c' & E & Hu & Hl). exists c'. split; [|done]. rewrite <- E.
  unfold update_datetime_all, update_datetime_time, format_to. rewrite (M_bind_val (gets last_time_) _ c t c eq_refl).
  rewrite (M_bind_val (gets last_time_) _ (mk_clock t b1) t _ eq_refl). cbn [length app] in E1. rewrite date_length in E1 by done.
  unfold M_bind at 1 3, on_time_buffer. cbn [time_buffer_ last_time_]. rewrite (M_bind_val (format_date_to t 0) _ _ _ _ E1). done.
Qed.

Lemma update_ok new c : clock_inv c -> time_ok new ->
  exists c', update_datetime new c = (Val tt, c') /\ up_to_date c' /\ last_time_ c' = new.
Proof.
  intros [Ht Hh] Hn. unfold update_datetime. rewrite (M_bind_val (gets last_time_) _ c _ c eq_refl).
  rewrite (M_bind_val (modify _) _ c tt (mk_clock new (time_buffer_ c)) eq_refl). set (c1 := mk_clock new (time_buffer_ c)).
  destruct (same_date (last_time_ c) new) eqn:Ed; [|apply (all_ok c1 Hn), Hh]. pose proof (same_date_text _ _ Ed) as Et.
  destruct (same_second (last_time_ c) new) eqn:Es.
  - apply (micro_ok c1 Hn). unfold c1. cbn [time_buffer_ last_time_]. by rewrite <- Et, <- (same_second_text _ _ Ht Hn Es).
  - apply (time_ok_micro c1 Hn). unfold c1. cbn [time_buffer_ last_time_]. rewrite <- Et. by eapply holds_prefix.
Qed.

Lemma init_ok now c : time_ok now -> exists c', init_clock now c = (Val tt, c') /\ clock_inv c' /\ last_time_ c' = now.
Proof.
  intros Hn. unfold init_clock. set (c0 := mk_clock now (replicate (S time_string_len) x00)).
  rewrite (M_bind_val (modify _) _ c tt c0 eq_refl). destruct (all_ok c0 Hn ltac:(apply length_replicate)) as (c1 & E & [[Ht Hh] _] & El).
  rewrite (M_bind_val _ _ _ _ _ E). eexists. split; [reflexivity|]. split; [|exact El]. split; [exact Ht|]. cbn [time_buffer_ last_time_].
  destruct Hh as [Hl Hp]. split; [by rewrite length_insert|]. rewrite take_insert_ge; [exact Hp|].
  rewrite length_app, date_length, base_time_length by done. by apply Nat.leb_le.
Qed.

(** * The backend *)

(** A log entry with the text its formatting function writes; [pid_string_] and
    the name of the level are texts of fixed width. *)
Record log_entry : Type := mk_log { file_ : list byte; line_ : Z; lv_ : nat; ts_ : Z; pid_string_ : list byte; message : list byte }.
Definition log_level_map_ : list (list byte) :=
  [[x54; x52; x41; x43; x45]; [x44; x45; x42; x55; x47]; [x49; x4e; x46; x4f; x20]; [x57; x41; x52; x4e; x20];
   [x45; x52; x52; x4f; x52]; [x46; x41; x54; x41; x4c]].
Definition SHOULD_EMIT (LOG_LEVEL exp : nat) : bool := (LOG_LEVEL <=? exp)%nat.
(** [file_name_converter]: what follows the last slash. *)
Fixpoint after_slash (l : list byte) : option (list byte) :=
  match l with
  | [] => None
  | c :: l' => match after_slash l' with Some r => Some r | None => if decide (c = x2f) then Some l' else None end
  end.
Definition file_name_converter (arr : list byte) : list byte := default arr (after_slash arr).

Definition k_max_buffer : Z := 1000 * 4000.
Definition suggested_single_log_max_len : Z := 500.

(** The logger: its clock, [writing_buffer_], the two flags, [log_rings_] (the
    entries in each thread's ring, oldest first), what was handed to the
    output, and how much of it was flushed. *)
Record async_logger : Type := mk_logger {
  the_clock : clock; writing_buffer_ : list byte; signal_ : bool; force_flush_ : bool; stop_requested : bool;
  log_rings_ : list (list log_entry); output : list byte; flushed : nat }.

(** What one entry adds to [writing_buffer_], from the text in [time_buffer_]. *)
Definition write_prefix (time_buf : list byte) (e : log_entry) : list byte :=
  take time_string_len time_buf ++ pid_string_ e ++ default [] (log_level_map_ !! lv_ e).
Definition write_entry (time_buf : list byte) (e : log_entry) : list byte :=
  write_prefix time_buf e ++ [x20] ++ file_ e ++ ([x3a] ++ itoad (line_ e) ++ [x20]) ++ message e.
Fixpoint write_backlogs (backlogs : list log_entry) (c : clock) (w : list byte) : outcome unit * (clock * list byte) :=
  match backlogs with
  | [] => (Val tt, (c, w))
  | h :: rest =>
    match update_datetime (ts_ h) c with
    | (Val _, c') => write_backlogs rest c' (w ++ write_entry (time_buffer_ c') h)
    | (Exn e, c') => (Exn e, (c', w))
    | (Fault f, c') => (Fault f, (c', w))
    end
  end.

(** What the threads log at some moment, by the number of their ring. *)
Definition arrivals : Type := nat -> list log_entry.
Definition arrive (new : arrivals) (rings : list (list log_entry)) : list (list log_entry) := imap (fun i r => r ++ new i) rings.
(** One turn of the collecting loop: [batch_out] of every ring. *)
Definition sweep (rings : list (list log_entry)) : list log_entry * list (list log_entry) := (concat rings, (fun _ => []) <$> rings).
(** The loop of [poll].  [sched] is what arrives before each turn; what is left
    of it when the loop ends arrives then.  After its end one more turn finds
    the rings empty. *)
Fixpoint collect (stops : nat -> bool) (sched : list arrivals) (signal force : bool) (rings : list (list log_entry))
    : list log_entry * bool * list (list log_entry) :=
  match sched with
  | [] => let r := sweep rings in (r.1, false, r.2)
  | new :: sched' =>
    let r := sweep (arrive new rings) in
    let rest := foldl (fun rs n => arrive n rs) r.2 sched' in
    if bool_decide (r.1 = []) || signal || force then (r.1, false, rest)
    else if stops 0%nat then (r.1, signal, rest)
    else let k := collect (fun n => stops (S n)) sched' signal force r.2 in (r.1 ++ k.1.1, k.1.2, k.2)
  end.

(** [stops n]: what [stop_requested()] answers after turn [n]. *)
Definition poll (stops : nat -> bool) (sched : list arrivals) (s : async_logger) : outcome unit * async_logger :=
  let k := collect stops sched (signal_ s) (force_flush_ s) (log_rings_ s) in
  let backlogs := k.1.1 in
  if bool_decide (backlogs = []) && bool_decide (writing_buffer_ s = []) then
    (Val tt, mk_logger (the_clock s) (writing_buffer_ s) k.1.2 (force_flush_ s) (stop_requested s) k.2 (output s) (flushed s))
  else
    let r := write_backlogs backlogs (the_clock s) (writing_buffer_ s) in
    let w := r.2.2 in
    match r.1 with
    | Val _ =>
      if force_flush_ s || (k_max_buffer - suggested_single_log_max_len <=? Z.of_nat (length w)) then
        let out := output s ++ w in
        (Val tt, mk_logger r.2.1 [] k.1.2 false (stop_requested s) k.2 out (if force_flush_ s then length out else flushed s))
      else (Val tt, mk_logger r.2.1 w k.1.2 (force_flush_ s) (stop_requested s) k.2 (output s) (flushed s))
    | o => (o, mk_logger r.2.1 w k.1.2 (force_flush_ s) (stop_requested s) k.2 (output s) (flushed s))
    end.

(** [append] on a thread that has no ring yet registers one first. *)
Definition register_ring (s : async_logger) : async_logger :=
  mk_logger (the_clock s) (writing_buffer_ s) true (force_flush_ s) (stop_requested s) (log_rings_ s ++ [[]]) (output s) (flushed s).
Definition append (ring : nat) (e : log_entry) (s : async_logger) : async_logger :=
  mk_logger (the_clock s) (writing_buffer_ s) (signal_ s) (force_flush_ s) (stop_requested s)
    (alter (fun r => r ++ [e]) ring (log_rings_ s)) (output s) (flushed s).

(** [logging_loop]: a turn per wait on the condition variable, during which
    more may arrive, then the last [poll] and the final flush. *)
Definition set_force_flush (s : async_logger) : async_logger :=
  mk_logger (the_clock s) (writing_buffer_ s) (signal_ s) true (stop_requested s) (log_rings_ s) (output s) (flushed s).
Definition flush_output (s : async_logger) : async_logger :=
  mk_logger (the_clock s) (writing_buffer_ s) (signal_ s) (force_flush_ s) (stop_requested s) (log_rings_ s) (output s) (length (output s)).
Definition request_stop (s : async_logger) : async_logger :=
  mk_logger (the_clock s) (writing_buffer_ s) (signal_ s) true true (log_rings_ s) (output s) (flushed s).
Fixpoint logging_loop (turns : list (list arrivals)) (last : list arrivals) (s : async_logger) : outcome unit * async_logger :=
  match turns with
  | [] =>
    match poll (fun _ => true) last (set_force_flush (request_stop s)) with
    | (Val _, s') => (Val tt, flush_output s')
    | r => r
    end
  | sched :: turns' =>
    match poll (fun _ => stop_requested s) sched s with
    | (Val _, s') => logging_loop turns' last (set_force_flush s')
    | r => r
    end
  end.

(** * Nothing is lost *)

Definition render (e : log_entry) : list byte := write_entry (datetime_text (ts_ e)) e.
Definition entry_ok (e : log_entry) : Prop := time_ok (ts_ e).

Lemma write_entry_up_to_date c e : up_to_date c -> last_time_ c = ts_ e -> write_entry (time_buffer_ c) e = render e.
Proof.
  intros [[Ht Hh] Hd] Hl. unfold render, write_entry, write_prefix. rewrite Hd, Hl.
  rewrite take_ge; [done|]. unfold datetime_text. rewrite <- Hl.
  rewrite !length_app, date_length, base_time_length, micro_length by done. done.
Qed.

Lemma write_backlogs_ok bs : forall c w, clock_inv c -> Forall entry_ok bs ->
  exists c', write_backlogs bs c w = (Val tt, (c', w ++ concat (render <$> bs))) /\ clock_inv c'.
Proof.
  induction bs as [|e bs IH]; intros c w Hc Hb; cbn [write_backlogs]; [exists c; by rewrite app_nil_r|].
  apply Forall_cons in Hb as [He Hb]. destruct (update_ok (ts_ e) c Hc He) as (c1 & E1 & Hu & Hl). rewrite E1.
  destruct (IH c1 (w ++ write_entry (time_buffer_ c1) e) (proj1 Hu) Hb) as (c' & E & Hc'). exists c'. split; [|done].
  rewrite E, write_entry_up_to_date, <- app_assoc by done. done.
Qed.

(** What arrives in ring [i], and in all [n] rings. *)
Definition ring_news (i : nat) (sched : list arrivals) : list log_entry := concat ((fun new => new i) <$> sched).
Definition all_news (n : nat) (sched : list arrivals) : list log_entry := concat ((fun new => concat (new <$> seq 0 n)) <$> sched).

Lemma arrive_length new rings : length (arrive new rings) = length rings.
Proof. apply length_imap. Qed.
Lemma arrive_all_length sched : forall rings, length (foldl (fun rs n => arrive n rs) rings sched) = length rings.
Proof. induction sched as [|new sched IH]; intros rings; cbn; [done | by rewrite IH, arrive_length]. Qed.
Lemma arrive_perm rings : forall new, concat (arrive new rings) ≡ₚ concat rings ++ concat (new <$> seq 0 (length rings)).
Proof.
  induction rings as [|r rings IH]; intros new; [done|]. unfold arrive in *. cbn [imap concat length seq fmap list_fmap].
  change (imap _ rings) with (imap (fun i r => r ++ (new ∘ S) i) rings). rewrite IH. rewrite <- fmap_S_seq, <- list_fmap_compose. solve_Permutation.
Qed.
Lemma arrive_all_perm sched : forall rings, concat (foldl (fun rs n => arrive n rs) rings sched) ≡ₚ concat rings ++ all_news (length rings) sched.
Proof.
  induction sched as [|new sched IH]; intros rings; cbn; [by rewrite app_nil_r|].
  rewrite IH, arrive_length, arrive_perm. unfold all_news. solve_Permutation.
Qed.
Lemma swept rings : concat (sweep rings).2 = [] /\ length (sweep rings).2 = length rings.
Proof. cbn. rewrite length_fmap. split; [|done]. induction rings; cbn; done. Qed.

(** Every entry is collected or still in its ring. *)
Lemma collect_perm sched sig force : forall stops rings, let k := collect stops sched sig force rings in
  k.1.1 ++ concat k.2 ≡ₚ concat rings ++ all_news (length rings) sched /\ length k.2 = length rings /\
  (sched = [] -> concat k.2 = []).
Proof.
  induction sched as [|new sched IH]; intros stops rings; cbn [collect].
  { destruct (swept rings) as [H1 H2]. cbn [fst snd]. rewrite H1, H2. done. }
  set (r := sweep (arrive new rings)). destruct (swept (arrive new rings)) as [H1 H2]. fold r in H1, H2. rewrite arrive_length in H2.
  assert (Hr : r.1 ≡ₚ concat rings ++ concat (new <$> seq 0 (length rings))) by apply arrive_perm.
  assert (Hstop : r.1 ++ concat (foldl (fun rs n => arrive n rs) r.2 sched) ≡ₚ concat rings ++ all_news (length rings) (new :: sched)).
  { rewrite arrive_all_perm, H1, H2, Hr. unfold all_news. cbn. solve_Permutation. }
  destruct (_ || _ || _); [cbn [fst snd]; by rewrite arrive_all_length|].
  destruct (stops 0%nat); [cbn [fst snd]; by rewrite arrive_all_length|]. cbn [fst snd].
  destruct (IH (fun n => stops (S n)) r.2) as (P1 & P2 & _). rewrite H1, H2 in *. split_and!; [|done|done].
  rewrite <- app_assoc, P1, Hr. unfold all_news. cbn. solve_Permutation.
Qed.

(** What is in the rings at the start is collected. *)
Lemma collect_takes sched sig force : forall stops rings, concat rings ⊆+ (collect stops sched sig force rings).1.1.
Proof.
  assert (Ha : forall new rings, concat rings ⊆+ concat (arrive new rings))
    by (intros new rings; rewrite arrive_perm; by apply submseteq_inserts_r).
  induction sched as [|new sched IH]; intros stops rings; cbn [collect]; [done|].
  destruct (_ || _ || _); [apply Ha|]. destruct (stops 0%nat); [apply Ha|]. cbn [fst snd]. apply submseteq_inserts_r, Ha.
Qed.

(** The entries of one thread, all in ring [i], keep their order. *)
Section Thread.
Context (P : log_entry -> Prop) `{!forall e, Decision (P e)} (i : nat).
Definition only (rings : list (list log_entry)) : Prop := forall j r, rings !! j = Some r -> j <> i -> filter P r = [].
Definition only_new (new : arrivals) : Prop := forall j, j <> i -> filter P (new j) = [].
Definition of_thread (rings : list (list log_entry)) : list log_entry := filter P (default [] (rings !! i)).

Lemma arrive_only new rings : only rings -> only_new new -> only (arrive new rings).
Proof.
  intros Ho Hn j r Hj Hne. unfold arrive in Hj. rewrite list_lookup_imap in Hj. destruct (rings !! j) as [r0|] eqn:E; [|done].
  cbn in Hj. injection Hj as <-. rewrite filter_app, (Ho _ _ E Hne), (Hn _ Hne). done.
Qed.
Lemma arrive_thread new rings : (i < length rings)%nat -> of_thread (arrive new rings) = of_thread rings ++ filter P (new i).
Proof.
  intros Hi. unfold of_thread, arrive. rewrite list_lookup_imap. apply lookup_lt_is_Some_2 in Hi as [r ->]. cbn. apply filter_app.
Qed.
End Thread.
Lemma filter_concat_only (P : log_entry -> Prop) `{!forall e, Decision (P e)} rings : forall i, only P i rings ->
  filter P (concat rings) = of_thread P i rings.
Proof.
  unfold of_thread. induction rings as [|r rings IH]; intros i Ho; [done|]. cbn [concat]. rewrite filter_app. destruct i as [|i].
  - cbn. rewrite (filter_none P (concat rings)); [apply app_nil_r|]. intros e He HP. apply list_elem_of_In, in_concat in He as (r' & Hr & Her).
    apply list_elem_of_In, list_elem_of_lookup in Hr as [j Hj]. apply list_elem_of_In in Her. specialize (Ho (S j) r' Hj ltac:(done)).
    assert (Hin : e ∈ filter P r') by (by apply list_elem_of_filter). rewrite Ho in Hin. by apply not_elem_of_nil in Hin.
  - rewrite (Ho 0%nat r eq_refl ltac:(done)). cbn. apply IH. intros j r' Hj Hne. apply (Ho (S j)); [done | congruence].
Qed.

Lemma swept_thread P `{!forall e, Decision (P e)} i rings : of_thread P i (sweep rings).2 = [] /\ only P i (sweep rings).2.
Proof.
  unfold of_thread, only. cbn. split; [rewrite list_lookup_fmap; by destruct (rings !! i)|].
  intros j r Hj _. rewrite list_lookup_fmap in Hj. destruct (rings !! j); [|done]. by injection Hj as <-.
Qed.
Lemma arrive_all_thread P `{!forall e, Decision (P e)} i sched : forall rings, (i < length rings)%nat -> only P i rings ->
  Forall (only_new P i) sched -> let rings' := foldl (fun rs n => arrive n rs) rings sched in
  of_thread P i rings' = of_thread P i rings ++ filter P (ring_news i sched) /\ only P i rings'.
Proof.
  induction sched as [|new sched IH]; intros rings Hi Ho Hs; cbn; [by rewrite app_nil_r|]. apply Forall_cons in Hs as [Hn Hs].
  destruct (IH (arrive new rings)) as [H1 H2]; [by rewrite arrive_length | by apply arrive_only | done|].
  split; [|done]. rewrite H1, arrive_thread by done. unfold ring_news. cbn. by rewrite filter_app, app_assoc.
Qed.
Lemma collect_thread P `{!forall e, Decision (P e)} i sched sig force : forall stops rings, (i < length rings)%nat -> only P i rings ->
  Forall (only_new P i) sched -> let k := collect stops sched sig force rings in
  filter P k.1.1 ++ of_thread P i k.2 = of_thread P i rings ++ filter P (ring_news i sched) /\ only P i k.2.
Proof.
  induction sched as [|new sched IH]; intros stops rings Hi Ho Hs; cbn [collect].
  { destruct (swept_thread P i rings) as [H1 H2]. cbn [fst snd] in *. rewrite H1, !app_nil_r. split; [by apply filter_concat_only | done]. }
  apply Forall_cons in Hs as [Hn Hs]. set (r := sweep (arrive new rings)).
  destruct (swept_thread P i (arrive new rings)) as [H1 H2]. fold r in H1, H2.
  destruct (swept (arrive new rings)) as [_ H3]. fold r in H3. rewrite arrive_length in H3.
  assert (Hr : filter P r.1 = of_thread P i rings ++ filter P (new i)).
  { cbn [r sweep fst]. rewrite filter_concat_only with (i := i) by (by apply arrive_only). by apply arrive_thread. }
  destruct (arrive_all_thread P i sched r.2 ltac:(lia) H2 Hs) as [H4 H5]. rewrite H1 in H4. cbn [app] in H4.
  assert (Hall : filter P r.1 ++ filter P (ring_news i sched) = of_thread P i rings ++ filter P (ring_news i (new :: sched)))
    by (rewrite Hr; unfold ring_news; cbn; by rewrite filter_app, app_assoc).
  destruct (_ || _ || _); [cbn [fst snd]; by rewrite H4|]. destruct (stops 0%nat); [cbn [fst snd]; by rewrite H4|]. cbn [fst snd].
  destruct (IH (fun n => stops (S n)) r.2 ltac:(lia) H2 Hs) as [H6 H7]. rewrite H1 in H6. split; [|done].
  rewrite filter_app, <- app_assoc, H6. cbn [app]. exact Hall.
Qed.

(** [bs] is what was written between two states while [sched] arrived. *)
Definition accounts (sched : list arrivals) (bs : list log_entry) (s s' : async_logger) : Prop :=
  output s' ++ writing_buffer_ s' = output s ++ writing_buffer_ s ++ concat (render <$> bs) /\
  bs ++ concat (log_rings_ s') ≡ₚ concat (log_rings_ s) ++ all_news (length (log_rings_ s)) sched /\
  length (log_rings_ s') = length (log_rings_ s) /\
  forall (P : log_entry -> Prop) (HP : forall e, Decision (P e)) i, (i < length (log_rings_ s))%nat -> only P i (log_rings_ s) ->
    Forall (only_new P i) sched ->
    filter P bs ++ of_thread P i (log_rings_ s') = of_thread P i (log_rings_ s) ++ filter P (ring_news i sched) /\ only P i (log_rings_ s').

Lemma accounts_trans sched1 sched2 bs1 bs2 s s1 s2 : accounts sched1 bs1 s s1 -> accounts sched2 bs2 s1 s2 ->
  accounts (sched1 ++ sched2) (bs1 ++ bs2) s s2.
Proof.
  intros (O1 & P1 & L1 & T1) (O2 & P2 & L2 & T2). split_and!.
  - rewrite O2, app_assoc, O1, fmap_app, concat_app, <- !app_assoc. done.
  - rewrite L1 in P2. unfold all_news in *. rewrite fmap_app, concat_app, (app_assoc (concat (log_rings_ s))), <- P1.
    rewrite <- app_assoc, P2. solve_Permutation.
  - congruence.
  - intros P HP i Hi Ho Hn. apply Forall_app in Hn as [Hn1 Hn2]. destruct (T1 P HP i Hi Ho Hn1) as [F1 O1'].
    destruct (T2 P HP i ltac:(lia) O1' Hn2) as [F2 O2']. split; [|done]. unfold ring_news in *.
    rewrite filter_app, <- app_assoc, F2, app_assoc, F1, fmap_app, concat_app, filter_app, <- app_assoc. done.
Qed.

Definition arrivals_ok (n : nat) (sched : list arrivals) : Prop := Forall entry_ok (all_news n sched).

Lemma poll_ok stops sched s : clock_inv (the_clock s) -> Forall entry_ok (concat (log_rings_ s)) -> arrivals_ok (length (log_rings_ s)) sched ->
  exists bs s', poll stops sched s = (Val tt, s') /\ accounts sched bs s s' /\ clock_inv (the_clock s') /\
    Forall entry_ok (concat (log_rings_ s')) /\ (force_flush_ s = true -> writing_buffer_ s' = []) /\
    (sched = [] -> concat (log_rings_ s') = []) /\ concat (log_rings_ s) ⊆+ bs.
Proof.
  intros Hc He Hn. unfold poll. set (k := collect _ _ _ _ _).
  destruct (collect_perm sched (signal_ s) (force_flush_ s) stops (log_rings_ s)) as (Hp & Hl & Hq). fold k in Hp, Hl, Hq.
  assert (Hall : Forall entry_ok (k.1.1 ++ concat k.2)) by (rewrite Hp; by apply Forall_app). apply Forall_app in Hall as [Hb Hr].
  assert (Hacc : forall s', log_rings_ s' = k.2 -> output s' ++ writing_buffer_ s' = output s ++ writing_buffer_ s ++ concat (render <$> k.1.1) ->
    accounts sched k.1.1 s s').
  { intros s' Er Eo. unfold accounts. rewrite Er. split_and!; [done.. |]. intros P HP i Hi Ho Hs. by apply collect_thread. }
  assert (Hsub : concat (log_rings_ s) ⊆+ k.1.1) by apply collect_takes.
  exists k.1.1. destruct (bool_decide (k.1.1 = []) && _) eqn:Eb.
  - apply andb_true_iff in Eb as [E1%bool_decide_eq_true E2%bool_decide_eq_true]. eexists. split; [done|].
    split; [apply Hacc; [done|]; rewrite E1, E2; done|]. done.
  - destruct (write_backlogs_ok k.1.1 (the_clock s) (writing_buffer_ s) Hc Hb) as (c' & Ew & Hc'). rewrite Ew. cbn [fst snd].
    destruct (force_flush_ s || _) eqn:Ef; (eexists; split; [done|]); cbn [the_clock log_rings_ writing_buffer_].
    + split; [apply Hacc; [done|]; cbn; by rewrite app_nil_r|]. done.
    + split; [apply Hacc; done|]. apply orb_false_iff in Ef as [Ef _]. rewrite Ef. done.
Qed.

(** The log is complete and in order.  Whatever the threads log while the
    backend runs, every [poll] and the whole loop succeed, with every
    assertion on the cached time text holding.  In the end everything that
    was handed to the output is flushed, nothing is left in the buffer, and
    what was added is the texts of the collected entries, each with its own
    date, time and microseconds although the text of the time is only updated
    where it changed.  Every entry logged is either written exactly once or
    still in its ring, none is left if nothing arrives at the end, and the
    entries of one thread keep their order. *)
Theorem log_is_complete_and_ordered turns last : forall s,
  clock_inv (the_clock s) -> Forall entry_ok (concat (log_rings_ s)) -> arrivals_ok (length (log_rings_ s)) (concat turns ++ last) ->
  exists bs s', logging_loop turns last s = (Val tt, s') /\
    output s' = output s ++ writing_buffer_ s ++ concat (render <$> bs) /\ writing_buffer_ s' = [] /\ flushed s' = length (output s') /\
    bs ++ concat (log_rings_ s') ≡ₚ concat (log_rings_ s) ++ all_news (length (log_rings_ s)) (concat turns ++ last) /\
    (last = [] -> concat (log_rings_ s') = []) /\
    forall (P : log_entry -> Prop) (HP : forall e, Decision (P e)) i, (i < length (log_rings_ s))%nat -> only P i (log_rings_ s) ->
      Forall (only_new P i) (concat turns ++ last) ->
      filter P bs ++ of_thread P i (log_rings_ s') = of_thread P i (log_rings_ s) ++ filter P (ring_news i (concat turns ++ last)).
Proof.
  intros s Hc He Hn. assert (Hgoal : exists bs s', logging_loop turns last s = (Val tt, s') /\ accounts (concat turns ++ last) bs s s' /\
    writing_buffer_ s' = [] /\ flushed s' = length (output s') /\ (last = [] -> concat (log_rings_ s') = [])).
  { revert s Hc He Hn. induction turns as [|sched turns IH]; intros s Hc He Hn; cbn [logging_loop].
    - destruct (poll_ok (fun _ => true) last (set_force_flush (request_stop s)) Hc He Hn) as (bs & s1 & E & Ha & _ & _ & Hf & Hq & _). rewrite E.
      exists bs, (flush_output s1). split_and!; [done | exact Ha | by apply Hf | done | exact Hq].
    - cbn [concat app] in Hn. unfold arrivals_ok, all_news in Hn. rewrite <- app_assoc, fmap_app, concat_app in Hn. apply Forall_app in Hn as [Hn1 Hn2].
      destruct (poll_ok (fun _ => stop_requested s) sched s Hc He Hn1) as (bs1 & s1 & E1 & A1 & C1 & R1 & _). rewrite E1.
      destruct (IH (set_force_flush s1) C1 R1) as (bs2 & s' & E & A2 & Hw & Hf & Hq).
      { cbn [set_force_flush log_rings_]. destruct A1 as (_ & _ & -> & _). exact Hn2. }
      exists (bs1 ++ bs2), s'. split; [exact E|]. split; [|done]. cbn [concat]. rewrite <- app_assoc. eapply accounts_trans; [exact A1 | exact A2]. }
  destruct Hgoal as (bs & s' & E & (Ho & Hp & _ & Ht) & Hw & Hf & Hq). exists bs, s'. rewrite Hw, app_nil_r in Ho.
  split_and!; try done. intros P HP i Hi Hon Hs. by apply (Ht P HP i Hi Hon Hs).
Qed.

(** Two entries of one thread, in different seconds, after a start at the
    epoch. *)
Definition first_log : log_entry := mk_log [x61] 7 2 1000000000 (replicate 6 x31) [x68; x69; x0a].
Definition second_log : log_entry := mk_log [x61] 8 2 86400000123000 (replicate 6 x31) [x68; x6f; x0a].
Definition started : async_logger :=
  mk_logger (init_clock 0 (mk_clock 0 [])).2 [] true false false [[first_log]] [] 0.

Definition then_second (i : nat) : list log_entry := if (i =? 0)%nat then [second_log] else [].
Lemma logs_ok : Forall entry_ok [first_log] /\ Forall entry_ok [second_log].
Proof. by split; apply Forall_singleton; unfold entry_ok, time_ok. Qed.

Lemma log_is_complete_and_ordered_witness : exists bs s',
  logging_loop [[then_second]] [] started = (Val tt, s') /\ output s' = concat (render <$> bs) /\ bs = [first_log; second_log].
Proof.
  destruct (init_ok 0 (mk_clock 0 []) ltac:(done)) as (c & Ec & Hc & _).
  destruct (log_is_complete_and_ordered [[then_second]] [] started) as (bs & s' & E & Ho & _ & _ & Hp & Hq & Ht).
  - cbn [started the_clock]. by rewrite Ec.
  - apply logs_ok.
  - apply logs_ok.
  - exists bs, s'. split; [exact E|]. split; [exact Ho|].
    specialize (Ht (fun _ => True) _ 0%nat ltac:(cbn; lia)). rewrite filter_all in Ht by done.
    assert (Hrest : of_thread (fun _ => True) 0 (log_rings_ s') = []).
    { unfold of_thread. destruct (log_rings_ s') as [|r rs]; [done|]. cbn in Hq. specialize (Hq eq_refl).
      apply app_nil in Hq as [-> _]. done. }
    rewrite Hrest, (app_nil_r bs) in Ht. rewrite Ht; [reflexivity | |].
    + change (log_rings_ started) with [[first_log]]. intros [|j] r Hj Hne; [congruence | discriminate].
    + apply Forall_singleton. intros [|j] Hj; [congruence | reflexivity].
Defined.

(** [timestamp::swap] exchanges the date of its argument with itself: the two
    dates stay where they were. *)
Theorem timestamp_swap_keeps_dates a b :
  let r := timestamp_swap (timestamp_of a) (timestamp_of b) in
  r.1.1.1 = b /\ r.2.1.1 = a /\ r.1.1.2 = ymd_data (floor_days a) /\ r.2.1.2 = ymd_data (floor_days b).
Proof. done. Qed.

(** * The cached text against a fresh one *)

Fixpoint update_all (ts : list Z) : M clock unit :=
  match ts with [] => M_ret tt | t :: ts' => update_datetime t;; update_all ts' end.

Lemma update_all_ok ts : forall c, clock_inv c -> Forall time_ok ts -> ts <> [] ->
  exists c', update_all ts c = (Val tt, c') /\ up_to_date c' /\ Some (last_time_ c') = last ts.
Proof.
  induction ts as [|t ts IH]; intros c Hc Ht Hne; [done|]. apply Forall_cons in Ht as [Ht Hts]. cbn [update_all].
  destruct (update_ok t c Hc Ht) as (c1 & E1 & Hu & Hl). rewrite (M_bind_val _ _ _ _ _ E1).
  destruct ts as [|t' ts]; [exists c1; rewrite <- Hl; done|].
  destruct (IH c1 (proj1 Hu) Hts ltac:(done)) as (c' & E & Hu' & Hl'). exists c'. by rewrite E.
Qed.

(** [C20] The cached text of the time equals a fresh one.  From the
    constructor on and through any sequence of entries, forwards or backwards
    in time, of which only the part that changed is formatted anew, no
    assertion fails, no byte outside [time_buffer_] is written, and after each
    entry the text is, char for char, what formatting its time from scratch
    into an empty buffer gives. *)
Theorem cached_time_equals_fresh now ts t c : time_ok now -> Forall time_ok (ts ++ [t]) ->
  exists c', (init_clock now;; update_all (ts ++ [t])) c = (Val tt, c') /\
    length (time_buffer_ c') = S time_string_len /\
    exists fresh, format_to t 0 (replicate (S time_string_len) x00) = (Val time_string_len, fresh) /\
      take time_string_len (time_buffer_ c') = take time_string_len fresh /\ take time_string_len fresh = datetime_text t.
Proof.
  intros Hn Hts. destruct (init_ok now c Hn) as (c0 & E0 & H0 & _). rewrite (M_bind_val _ _ _ _ _ E0).
  destruct (update_all_ok (ts ++ [t]) c0 H0 Hts) as (c' & E & [[_ [Hl _]] Hd] & Hlast); [by destruct ts|].
  rewrite last_snoc in Hlast. injection Hlast as Et. exists c'. split; [exact E|]. split; [exact Hl|]. rewrite Et in Hd.
  assert (Ht : time_ok t) by (apply (Forall_forall _ (ts ++ [t])); [exact Hts | apply elem_of_app; right; by apply list_elem_of_singleton]).
  destruct (all_ok (mk_clock t (replicate (S time_string_len) x00)) Ht (length_replicate _ _)) as (f & Ef & [_ Hf] & Hlf).
  revert Ef. unfold update_datetime_all. rewrite (M_bind_val (gets last_time_) _ (mk_clock t _) t _ eq_refl). unfold M_bind, on_time_buffer.
  cbn [time_buffer_ last_time_] in *. destruct (format_to t 0 _) as [[n|e|x] b] eqn:Eb; cbn [fst snd]; [|done..].
  unfold assert_end, cpp_assert. destruct (Nat.eqb_spec n time_string_len) as [->|]; [|done]. intros [= <-].
  exists b. cbn [time_buffer_ last_time_] in Hf. split; [done|]. by rewrite Hd, Hf.
Qed.

Lemma cached_time_equals_fresh_witness : exists c',
  (init_clock 0;; update_all ([86399999999000] ++ [86400000000000])) (mk_clock 0 []) = (Val tt, c') /\
  take time_string_len (time_buffer_ c') = datetime_text 86400000000000.
Proof.
  assert (Hok : Forall time_ok ([86399999999000] ++ [86400000000000])) by (apply Forall_cons; split; [done|]; by apply Forall_singleton).
  destruct (cached_time_equals_fresh 0 [86399999999000] 86400000000000 (mk_clock 0 []) ltac:(done) Hok)
    as (c' & E & _ & fresh & _ & E1 & E2). exists c'. split; [exact E|]. by rewrite E1, E2.
Defined.

(** * [log_file] without [CORING_ASYNC_LOGGER_STDOUT] *)

(** The files written so far with their contents, the current one last. *)
Record log_file : Type := mk_file { name_ : list byte; roll_size_ : Z; files : list (list byte * list byte) }.
(** [roll_file]: the date without its trailing space, and ".log", are appended
    to [name_], and that file is opened for appending. *)
Definition roll_file (now : Z) (f : log_file) : log_file :=
  let name := name_ f ++ take (fmt_date_len - 1) (TS_FMT_DATE now) ++ [x2e; x6c; x6f; x67] in
  mk_file name (roll_size_ f) (files f ++ [(name, [])]).
Definition new_log_file (name : list byte) (roll_size now : Z) : log_file := roll_file now (mk_file name roll_size []).
Definition tellp (f : log_file) : Z := match last (files f) with Some p => Z.of_nat (length p.2) | None => -1 end.
Definition os_write (data : list byte) (f : log_file) : log_file :=
  mk_file (name_ f) (roll_size_ f) (alter (fun p => (p.1, p.2 ++ data)) (pred (length (files f))) (files f)).
Definition log_file_append (data : list byte) (now : Z) (f : log_file) : log_file :=
  os_write data (if roll_size_ f <=? tellp f then roll_file now f else f).
Fixpoint append_all (calls : list (list byte * Z)) (f : log_file) : log_file :=
  match calls with [] => f | c :: cs => append_all cs (log_file_append c.1 c.2 f) end.

Lemma os_write_data data f : files f <> [] -> concat (files (os_write data f)).*2 = concat (files f).*2 ++ data /\ files (os_write data f) <> [].
Proof.
  destruct (files f) as [|p l _] eqn:E using rev_ind; [done|]. intros _. unfold os_write. cbn [files]. rewrite E, length_app. cbn [length].
  replace (pred (length l + 1)) with (length l + 0)%nat by lia. rewrite alter_app_r. cbn.
  rewrite !fmap_app, !concat_app. cbn. rewrite !app_nil_r, app_assoc. split; [done | by destruct l].
Qed.
Lemma roll_data now f : concat (files (roll_file now f)).*2 = concat (files f).*2 /\ files (roll_file now f) <> [].
Proof.
  unfold roll_file. generalize (name_ f ++ take (fmt_date_len - 1) (TS_FMT_DATE now) ++ [x2e; x6c; x6f; x67]). intros name. cbn [files].
  rewrite fmap_app, concat_app. cbn. rewrite app_nil_r. split; [done | by destruct (files f)].
Qed.

(** Rolling loses no bytes, and every roll lengthens the name: the second file
    is called after the first one with the date and suffix once more. *)
Theorem log_files_hold_everything calls : forall f, files f <> [] ->
  concat (files (append_all calls f)).*2 = concat (files f).*2 ++ concat calls.*1.
Proof.
  induction calls as [|[data now] calls IH]; intros f Hf; cbn [append_all]; [cbn; by rewrite app_nil_r|]. unfold log_file_append. cbn [fst snd].
  destruct (roll_size_ f <=? tellp f).
  - destruct (roll_data now f) as [H1 H2]. destruct (os_write_data data _ H2) as [H3 H4].
    rewrite IH by exact H4. rewrite H3, H1. cbn. by rewrite <- app_assoc.
  - destruct (os_write_data data f Hf) as [H3 H4]. rewrite IH by exact H4. rewrite H3. cbn. by rewrite <- app_assoc.
Qed.
Theorem rolled_name_grows name roll_size now1 now2 :
  name_ (roll_file now2 (new_log_file name roll_size now1)) = name_ (new_log_file name roll_size now1) ++
    take (fmt_date_len - 1) (TS_FMT_DATE now2) ++ [x2e; x6c; x6f; x67].
Proof. done. Qed.
