(* ===== verification/File.v ===== *)
(** Regular files: [file.hpp].  A file object is a descriptor, owned as in
    [Tcp], and a [full_status], which owns the [struct statx] that
    [get_statx] fills on first use. *)
From S2P Require Import Prelude Events SocketIO Tcp.

(** * [full_status] *)

(** The fields the library's users read. *)
Record statx : Type := mk_statx { stx_mode : Z; stx_size : Z }.
(** The live [full_status] objects by their [statx_buf_]; the structs allocated
    so far, [None] while uninitialised; and the [delete]s, in order. *)
Record heap : Type := mk_heap { statuses : list (option nat); structs : list (option statx); deleted : list nat }.

Definition get_status (o : nat) : M heap (option nat) := fun h =>
  match statuses h !! o with Some p => (Val p, h) | None => (Fault undefined_behaviour, h) end.
Definition set_status (o : nat) (p : option nat) : M heap unit :=
  modify (fun h => mk_heap (<[o := p]> (statuses h)) (structs h) (deleted h)).
Definition construct_status (p : option nat) : M heap nat := fun h =>
  (Val (length (statuses h)), mk_heap (statuses h ++ [p]) (structs h) (deleted h)).
(** [new struct statx], and access through a pointer that must be live. *)
Definition new_statx (v : option statx) : M heap nat := fun h =>
  (Val (length (structs h)), mk_heap (statuses h) (structs h ++ [v]) (deleted h)).
Definition deref (p : nat) : M heap (option statx) := fun h =>
  match structs h !! p with
  | Some v => if decide (p ∈ deleted h) then (Fault undefined_behaviour, h) else (Val v, h)
  | None => (Fault undefined_behaviour, h)
  end.

Definition default_status : M heap nat := construct_status None.
Definition copy_status (src : nat) : M heap nat :=
  let! p := get_status src in
  match p with
  | None => construct_status None
  | Some q => let! v := deref q in let! n := new_statx v in construct_status (Some n)
  end.
Definition move_status (src : nat) : M heap nat :=
  let! p := get_status src in set_status src None;; construct_status p.
Definition destroy_status (o : nat) : M heap unit :=
  let! p := get_status o in
  modify (fun h => mk_heap (delete o (statuses h)) (structs h) (match p with Some q => deleted h ++ [q] | None => deleted h end)).
Definition init (o : nat) : M heap unit := let! p := new_statx None in set_status o (Some p).
Definition view (o : nat) : M heap (option nat) := get_status o.

(** * [file_base<full_status>] *)

Record files : Type := mk_files { descriptors : fds; status_heap : heap }.
Definition on_fds {A} (m : M fds A) : M files A := fun s => let r := m (descriptors s) in (r.1, mk_files r.2 (status_heap s)).
Definition on_heap {A} (m : M heap A) : M files A := fun s => let r := m (status_heap s) in (r.1, mk_files (descriptors s) r.2).

Definition file_of_fd (ffd : Z) : M files nat := let! o := on_fds (construct ffd) in on_heap default_status;; M_ret o.
Definition move_file (rhs : nat) : M files nat := let! o := on_fds (move_construct rhs) in on_heap (move_status rhs);; M_ret o.
(** The destructor: the member first, then the base. *)
Definition destroy_file (o : nat) : M files unit := on_heap (destroy_status o);; on_fds (destroy o).

(** [get_statx]: [ret] is the result of the statx request and [st] what a
    successful one stores. *)
Definition get_statx (o : nat) (ret : Z) (st : statx) : M files (option nat) :=
  let! p := on_heap (view o) in
  (match p with
   | Some _ => M_ret tt
   | None =>
     on_heap (init o);;
     if ret <? 0 then throw (bad_file (- ret))
     else on_heap (let! q := view o in modify (fun h => mk_heap (statuses h)
       (match q with Some q => <[q := Some st]> (structs h) | None => structs h end) (deleted h)))
   end);;
  on_heap (view o).

(** [openat], [ret] being the new descriptor or an error: [co_return] moves the
    file into the promise and destroys the temporary. *)
Definition openat (ret : Z) : M files nat :=
  if ret <? 0 then throw (bad_file (- ret))
  else
    on_fds (do_open ret);;
    let! temp := file_of_fd ret in
    move_file temp;;
    destroy_file temp;;
    M_ret temp.

(** What happens to files. *)
Inductive file_action : Type := OpenFile (fd : Z) | EmptyFile | MoveFile (o : nat) | GetStatx (o : nat) (ret : Z) (st : statx) | DropFile (o : nat).
Definition after {A} (r : outcome A * files) : option files := match r.1 with Fault _ => None | _ => Some r.2 end.
Definition file_act (x : file_action) (s : files) : option files :=
  match x with
  | OpenFile fd => if decide (0 <= fd -> fd ∉ opened (descriptors s)) then after (openat fd s) else None
  | EmptyFile => after (file_of_fd (-1) s)
  | MoveFile o => after (move_file o s)
  | GetStatx o ret st => after (get_statx o ret st s)
  | DropFile o => after (destroy_file o s)
  end.
Definition file_step : files -> file_action -> files -> Prop := steps_of file_act.
Definition no_files : files := mk_files no_fds (mk_heap [] [] []).

(** * Nothing leaks, nothing is freed twice *)

Definition held_structs (l : list (option nat)) : list nat := omap id l.
Definition heap_inv (h : heap) : Prop := deleted h ++ held_structs (statuses h) ≡ₚ seq 0 (length (structs h)).

Lemma held_app l l' : held_structs (l ++ l') = held_structs l ++ held_structs l'.
Proof. apply omap_app. Qed.
Lemma held_perm l l' : l ≡ₚ l' -> held_structs l ≡ₚ held_structs l'.
Proof. intros E. unfold held_structs. by rewrite E. Qed.
Lemma held_insert l o p q : l !! o = Some p -> held_structs (<[o := q]> l) ≡ₚ held_structs [q] ++ held_structs (delete o l).
Proof. intros Ho. rewrite <- held_app. by apply held_perm, (insert_perm _ _ p q). Qed.
Lemma held_take l o p : l !! o = Some p -> held_structs l ≡ₚ held_structs [p] ++ held_structs (delete o l).
Proof. intros Ho. rewrite <- held_app. by apply held_perm, delete_Permutation. Qed.

Lemma default_status_ok h : heap_inv h -> heap_inv (default_status h).2.
Proof. unfold heap_inv. cbn. rewrite held_app. cbn. by rewrite app_nil_r. Qed.
(** Outcomes on a live object. *)
Lemma move_file_spec o fd p s : objects (descriptors s) !! o = Some fd -> statuses (status_heap s) !! o = Some p ->
  move_file o s = (Val (length (objects (descriptors s))),
    mk_files (mk_fds (<[o := -1]> (objects (descriptors s)) ++ [fd]) (opened (descriptors s)) (closes (descriptors s)))
      (mk_heap (<[o := None]> (statuses (status_heap s)) ++ [p]) (structs (status_heap s)) (deleted (status_heap s)))).
Proof.
  intros Ho Hp. unfold move_file, move_construct, move_status, on_fds, on_heap, get_fd, get_status, make_invalid, set_status, construct, construct_status.
  run_M. rewrite Ho. cbn. rewrite Hp. cbn. by rewrite length_insert.
Qed.
Lemma destroy_file_spec o fd p s : objects (descriptors s) !! o = Some fd -> statuses (status_heap s) !! o = Some p ->
  destroy_file o s = (Val tt, mk_files
    (mk_fds (delete o (objects (descriptors s))) (opened (descriptors s)) (if fd <? 0 then closes (descriptors s) else closes (descriptors s) ++ [fd]))
    (mk_heap (delete o (statuses (status_heap s))) (structs (status_heap s)) (match p with Some q => deleted (status_heap s) ++ [q] | None => deleted (status_heap s) end))).
Proof.
  intros Ho Hp. unfold destroy_file, destroy_status, destroy, on_fds, on_heap, get_fd, get_status, invalid, do_close.
  run_M. rewrite Hp. cbn. rewrite Ho. cbn. by destruct (fd <? 0).
Qed.
Lemma openat_spec ret s : 0 <= ret -> length (statuses (status_heap s)) = length (objects (descriptors s)) ->
  openat ret s = (Val (length (objects (descriptors s))), mk_files
    (mk_fds (objects (descriptors s) ++ [ret]) (opened (descriptors s) ++ [ret]) (closes (descriptors s)))
    (mk_heap (statuses (status_heap s) ++ [None]) (structs (status_heap s)) (deleted (status_heap s)))).
Proof.
  intros Hr Hl. unfold openat. rewrite (proj2 (Z.ltb_ge _ _)) by done. destruct s as [[ob op cl] [st str de]]. cbn [descriptors status_heap objects opened closes statuses structs deleted] in *.
  set (s1 := mk_files (mk_fds (ob ++ [ret]) (op ++ [ret]) cl) (mk_heap (st ++ [None]) str de)).
  set (s0 := mk_files (mk_fds ob op cl) (mk_heap st str de)).
  rewrite (M_bind_val (on_fds (do_open ret)) _ s0 tt (mk_files (mk_fds ob (op ++ [ret]) cl) (mk_heap st str de)) eq_refl).
  rewrite (M_bind_val (file_of_fd ret) _ (mk_files (mk_fds ob (op ++ [ret]) cl) (mk_heap st str de)) (length ob) s1 eq_refl).
  assert (Hm := move_file_spec (length ob) ret None s1 ltac:(by apply list_lookup_middle) ltac:(by apply list_lookup_middle)).
  rewrite (M_bind_val _ _ _ _ _ Hm). cbn [s1 descriptors status_heap objects opened closes statuses structs deleted].
  assert (Hins : forall {A} (l : list A) x y z, length l = length ob -> <[length ob := y]> (l ++ [x]) ++ [z] = l ++ [y; z]).
  { intros A l x y z El. rewrite insert_app_r_alt by lia. rewrite El, Nat.sub_diag. cbn. by rewrite <- app_assoc. }
  rewrite !Hins by done. set (s2 := mk_files _ _).
  assert (Hd := destroy_file_spec (length ob) (-1) None s2 ltac:(by apply list_lookup_middle) ltac:(by apply list_lookup_middle)).
  rewrite (M_bind_val _ _ _ _ _ Hd). unfold s2. cbn. rewrite delete_middle. rewrite <- Hl at 2. by rewrite delete_middle.
Qed.

Record files_inv (s : files) : Prop := {
  inv_fds : fd_inv (descriptors s);
  inv_heap : heap_inv (status_heap s);
  inv_length : length (statuses (status_heap s)) = length (objects (descriptors s)) }.

Lemma fresh_struct h o p v q : heap_inv h -> statuses h !! o = Some None -> p = length (structs h) -> q = deleted h ->
  heap_inv (mk_heap (<[o := Some p]> (statuses h)) (structs h ++ [v]) q).
Proof.
  unfold heap_inv. intros Hh Ho -> ->. cbn [statuses structs deleted]. rewrite (held_insert _ _ _ _ Ho), length_app, seq_app. cbn.
  rewrite (held_take _ _ _ Ho) in Hh. cbn in Hh. rewrite <- Hh. solve_Permutation.
Qed.

(** What an action may name. *)
Definition names_live (x : file_action) (s : files) : Prop :=
  match x with
  | OpenFile fd => 0 <= fd -> fd ∉ opened (descriptors s)
  | EmptyFile => True
  | MoveFile o | GetStatx o _ _ | DropFile o => (o < length (objects (descriptors s)))%nat
  end.

(** The outcomes of [get_statx]. *)
Definition with_status (s : files) (h : heap) : files := mk_files (descriptors s) h.
Lemma get_statx_spec o ret st s p : statuses (status_heap s) !! o = Some p -> let h := status_heap s in
  get_statx o ret st s = match p with
    | Some q => (Val (Some q), s)
    | None =>
      let n := length (structs h) in
      if ret <? 0 then (Exn (bad_file (- ret)), with_status s (mk_heap (<[o := Some n]> (statuses h)) (structs h ++ [None]) (deleted h)))
      else (Val (Some n), with_status s (mk_heap (<[o := Some n]> (statuses h)) (structs h ++ [Some st]) (deleted h)))
    end.
Proof.
  intros Hp h. destruct s as [fs h']. cbn [status_heap] in *. subst h. unfold get_statx, with_status, on_heap, view, get_status, init, new_statx, set_status, throw.
  run_M. rewrite Hp. cbn. destruct p as [q|]; cbn; [by rewrite Hp|]. destruct (ret <? 0); cbn; [done|].
  rewrite list_lookup_insert_eq by (by eapply lookup_lt_Some). cbn. rewrite list_lookup_insert_eq by (by eapply lookup_lt_Some). cbn.
  rewrite insert_app_r_alt by done. by rewrite Nat.sub_diag.
Qed.

Lemma file_step_ok x s : files_inv s -> names_live x s -> exists s', file_act x s = Some s' /\ files_inv s'.
Proof.
  intros [Hf Hh Hl] Hn. assert (Hlive : forall o, (o < length (objects (descriptors s)))%nat -> exists fd p,
    objects (descriptors s) !! o = Some fd /\ statuses (status_heap s) !! o = Some p).
  { intros o Ho. destruct (lookup_lt_is_Some_2 _ _ Ho) as [fd E]. rewrite <- Hl in Ho. destruct (lookup_lt_is_Some_2 _ _ Ho) as [p E']. eauto. }
  destruct x as [fd| |o|o ret st|o]; cbn [file_act names_live] in *.
  - rewrite decide_True by done. destruct (Z.ltb_spec fd 0) as [Hneg|Hpos].
    + unfold openat. rewrite (proj2 (Z.ltb_lt _ _)) by done. by exists s.
    + rewrite openat_spec by done. eexists. split; [reflexivity|]. split; cbn [descriptors status_heap statuses objects snd].
      * apply (fd_step_inv (descriptors s) (Adopt fd)); [done|]. unfold fd_step, steps_of. cbn. rewrite decide_True by auto. done.
      * by apply default_status_ok.
      * by rewrite !length_app, Hl.
  - eexists. split; [reflexivity|]. split; cbn.
    + by apply (fd_step_inv (descriptors s) Placeholder).
    + by apply default_status_ok.
    + by rewrite !length_app, Hl.
  - destruct (Hlive o Hn) as (fd & p & Ho & Hp). rewrite (move_file_spec _ _ _ _ Ho Hp). eexists. split; [reflexivity|]. split; cbn.
    + apply (fd_step_inv (descriptors s) (MoveFrom o)); [done|]. unfold fd_step, steps_of. cbn. unfold move_construct, get_fd, make_invalid, construct.
      run_M. rewrite Ho. done.
    + unfold heap_inv in *. cbn. rewrite held_app, (held_insert _ _ _ _ Hp), <- Hh, (held_take _ _ _ Hp). solve_Permutation.
    + by rewrite !length_app, !length_insert, Hl.
  - destruct (Hlive o Hn) as (fd & p & _ & Hp). rewrite (get_statx_spec _ _ _ _ _ Hp).
    destruct p as [q|]; [by exists s|]. destruct (ret <? 0); (eexists; split; [reflexivity|]); split; try done; cbn;
      [by apply fresh_struct | by rewrite length_insert | by apply fresh_struct | by rewrite length_insert].
  - destruct (Hlive o Hn) as (fd & p & Ho & Hp). rewrite (destroy_file_spec _ _ _ _ Ho Hp). eexists. split; [reflexivity|]. split; cbn.
    + apply (fd_step_inv (descriptors s) (Destroy o)); [done|]. unfold fd_step, steps_of. cbn. unfold destroy, get_fd, invalid, do_close.
      run_M. rewrite Ho. cbn. by destruct (fd <? 0).
    + unfold heap_inv in *. cbn. rewrite <- Hh, (held_take _ _ _ Hp). destruct p; cbn; solve_Permutation.
    + rewrite !length_delete by eauto. by rewrite Hl.
Qed.
Lemma file_step_live x s s' : files_inv s -> file_step s x s' -> names_live x s.
Proof.
  intros [_ _ Hl]. unfold file_step, steps_of. destruct x as [fd| |o|o ret st|o]; cbn [file_act names_live]; [by case_decide | done |..].
  - destruct (decide (o < length (objects (descriptors s)))%nat) as [|Hn]; [done|]. unfold move_file, on_fds, move_construct, get_fd. run_M.
    rewrite lookup_ge_None_2 by lia. done.
  - destruct (decide (o < length (objects (descriptors s)))%nat) as [|Hn]; [done|]. unfold get_statx, on_heap, view, get_status. run_M.
    rewrite lookup_ge_None_2 by lia. done.
  - destruct (decide (o < length (objects (descriptors s)))%nat) as [|Hn]; [done|]. unfold destroy_file, on_heap, destroy_status, get_status. run_M.
    rewrite lookup_ge_None_2 by lia. done.
Qed.

(** Files release what they own exactly once.  However files are opened,
    moved, queried and destroyed, every descriptor that was opened is closed
    at most once and every [struct statx] deleted at most once; what is not
    released yet is exactly what the live objects hold, so when all are gone
    nothing leaks; and no use of a live object runs into undefined behaviour. *)
Theorem files_release_everything ls s : star file_step no_files ls s ->
  opened (descriptors s) ≡ₚ valid_fds (closes (descriptors s)) ++ valid_fds (objects (descriptors s)) /\ NoDup (opened (descriptors s)) /\
  deleted (status_heap s) ++ held_structs (statuses (status_heap s)) ≡ₚ seq 0 (length (structs (status_heap s))) /\
  NoDup (deleted (status_heap s)) /\
  (objects (descriptors s) = [] -> opened (descriptors s) ≡ₚ valid_fds (closes (descriptors s)) /\
     deleted (status_heap s) ≡ₚ seq 0 (length (structs (status_heap s)))) /\
  forall x, names_live x s -> exists s', file_step s x s'.
Proof.
  intros Hr. assert (Hi : files_inv s).
  { revert Hr. apply (star_inv _ files_inv).
    - split; [split; [done | by apply NoDup_nil] | by unfold heap_inv | done].
    - intros s1 x s2 H1 H2. destruct (file_step_ok x s1 H1 (file_step_live _ _ _ H1 H2)) as (s2' & E & H3). unfold file_step, steps_of in H2. congruence. }
  pose proof Hi as [[Ha Hd] Hh Hl]. split_and!; [done..| | |].
  - pose proof (NoDup_seq 0 (length (structs (status_heap s)))) as Hs. unfold heap_inv in Hh. rewrite <- Hh in Hs. by apply NoDup_app in Hs as [Hs _].
  - intros E. rewrite E in Ha, Hl. cbn in Ha, Hl. rewrite app_nil_r in Ha. apply nil_length_inv in Hl. unfold heap_inv in Hh. rewrite Hl in Hh. cbn in Hh.
    by rewrite app_nil_r in Hh.
  - intros x Hx. destruct (file_step_ok x s Hi Hx) as (s' & E & _). by exists s'.
Qed.
Definition file_run : list file_action := [OpenFile 5; GetStatx 0 0 (mk_statx 1 2); MoveFile 0; OpenFile (-2); GetStatx 1 0 (mk_statx 3 4); DropFile 0; DropFile 0].
Lemma files_release_everything_witness : exists s, star file_step no_files file_run s /\ closes (descriptors s) = [5] /\ deleted (status_heap s) = [0%nat] /\
  opened (descriptors s) ≡ₚ valid_fds (closes (descriptors s)).
Proof.
  eassert (E : run_acts file_act file_run no_files = Some _) by (vm_compute; reflexivity). apply run_acts_star in E.
  destruct (files_release_everything _ _ E) as (_ & _ & _ & _ & Hall & _). eexists. split_and!; [exact E | reflexivity | reflexivity | by apply Hall].
Defined.

(** [get_statx] asks the kernel once.  A failed request leaves the struct it
    allocated behind, so that the next call returns it, uninitialised, as if
    it were the answer. *)
Theorem get_statx_after_failure o ret ret2 st st2 s : ret < 0 -> statuses (status_heap s) !! o = Some None -> exists s' q,
  get_statx o ret st s = (Exn (bad_file (- ret)), s') /\ get_statx o ret2 st2 s' = (Val (Some q), s') /\ structs (status_heap s') !! q = Some None.
Proof.
  intros Hr Hp. rewrite (get_statx_spec _ _ _ _ _ Hp). rewrite (proj2 (Z.ltb_lt _ _)) by done. eexists _, _. split; [done|].
  rewrite (get_statx_spec _ _ _ _ (Some (length (structs (status_heap s))))) by (apply list_lookup_insert_eq; by eapply lookup_lt_Some).
  split; [done|]. by apply list_lookup_middle.
Qed.
