(* ===== verification/Http.v ===== *)
(** The example HTTP server's messages: [examples/http1/http_request.hpp], the
    incremental parser [http_context.hpp] over a [flex_buffer], and
    [http_response.hpp].  A range of two [const char *] is the list of its
    bytes; [isspace] and [tolower] are those of the C locale. *)
From Stdlib Require Import Sorting.Sorted.
From S2P Require Import Prelude Endian Buffer Endpoint.

Definition text (s : string) : list byte := String.list_byte_of_string s.
#[global] Arguments text s%_string_scope.

(** * [std::map<string, string>] *)

(** [std::string::compare]: lexicographic on unsigned chars. *)
Fixpoint str_compare (a b : list byte) : comparison :=
  match a, b with
  | [], [] => Eq
  | [], _ => Lt
  | _, [] => Gt
  | x :: a', y :: b' => match Z_of_byte x ?= Z_of_byte y with Eq => str_compare a' b' | c => c end
  end.

(** The nodes in the order of their keys. *)
Definition headers : Type := list (list byte * list byte).
Fixpoint map_assign (key value : list byte) (hs : headers) : headers :=
  match hs with
  | [] => [(key, value)]
  | (k, v) :: hs' =>
    match str_compare key k with
    | Lt => (key, value) :: hs
    | Eq => (k, value) :: hs'
    | Gt => (k, v) :: map_assign key value hs'
    end
  end.
Fixpoint map_find (key : list byte) (hs : headers) : option (list byte) :=
  match hs with
  | [] => None
  | (k, v) :: hs' => match str_compare key k with Eq => Some v | Lt => None | Gt => map_find key hs' end
  end.

(** * [HttpRequest] *)

Inductive Method : Type := kInvalid | kGet | kPost | kHead | kPut | kDelete.
Inductive Version : Type := kUnknown | kHttp10 | kHttp11.
#[global] Instance Method_eq_dec : EqDecision Method.
Proof. solve_decision. Defined.
#[global] Instance Version_eq_dec : EqDecision Version.
Proof. solve_decision. Defined.

Record HttpRequest : Type := mk_request {
  method_ : Method; version_ : Version; path_ : list byte; query_ : list byte; headers_ : headers }.
Definition new_request : HttpRequest := mk_request kInvalid kUnknown [] [] [].

Definition setVersion (v : Version) (r : HttpRequest) : HttpRequest := mk_request (method_ r) v (path_ r) (query_ r) (headers_ r).
Definition method_of (m : list byte) : Method :=
  if decide (m = text "GET") then kGet
  else if decide (m = text "POST") then kPost
  else if decide (m = text "HEAD") then kHead
  else if decide (m = text "PUT") then kPut
  else if decide (m = text "DELETE") then kDelete
  else kInvalid.
Definition setMethod (m : list byte) (r : HttpRequest) : bool * HttpRequest :=
  let k := method_of m in
  (negb (bool_decide (k = kInvalid)), mk_request k (version_ r) (path_ r) (query_ r) (headers_ r)).
Definition methodString (r : HttpRequest) : list byte :=
  match method_ r with
  | kGet => text "GET" | kPost => text "POST" | kHead => text "HEAD" | kPut => text "PUT" | kDelete => text "DELETE"
  | kInvalid => text "UNKNOWN"
  end.
Definition setPath (range : list byte) (r : HttpRequest) : HttpRequest :=
  mk_request (method_ r) (version_ r)
    (if decide (range = [x2f]) then text "public/index.html" else text "public" ++ range) (query_ r) (headers_ r).
Definition setQuery (range : list byte) (r : HttpRequest) : HttpRequest :=
  mk_request (method_ r) (version_ r) (path_ r) range (headers_ r).

(** [addHeader]: [colon] is the text behind the colon.  Leading and trailing
    white space of the value is dropped. *)
Fixpoint drop_trailing (l : list byte) : list byte :=
  match l with
  | [] => []
  | c :: l' => match drop_trailing l' with [] => if is_space c then [] else [c] | t => c :: t end
  end.
Definition addHeader (field colon : list byte) (r : HttpRequest) : HttpRequest :=
  mk_request (method_ r) (version_ r) (path_ r) (query_ r) (map_assign field (drop_trailing (skip_spaces colon)) (headers_ r)).
Definition getHeader (field : list byte) (r : HttpRequest) : list byte := default [] (map_find field (headers_ r)).
Definition keepalive (r : HttpRequest) : bool :=
  let connection := getHeader (text "Connection") r in
  bool_decide (connection = text "close") ||
  (bool_decide (version_ r = kHttp10) && negb (bool_decide (connection = text "Keep-Alive"))).
Definition request_swap (this that : HttpRequest) : HttpRequest * HttpRequest := (that, this).

(** * [HttpContext] *)

Inductive HttpRequestParseState : Type := kExpectRequestLine | kExpectHeaders | kExpectBody | kGotAll.
#[global] Instance state_eq_dec : EqDecision HttpRequestParseState.
Proof. solve_decision. Defined.
Record HttpContext : Type := mk_context { state_ : HttpRequestParseState; request_ : HttpRequest }.
Definition new_context : HttpContext := mk_context kExpectRequestLine new_request.
Definition gotAll (c : HttpContext) : bool := bool_decide (state_ c = kGotAll).
Definition context_reset (c : HttpContext) : HttpContext :=
  let dummy := new_request in mk_context kExpectRequestLine (request_swap (request_ c) dummy).1.

(** The version in the last of the three words of the request line. *)
Definition processVersion (word : list byte) (r : HttpRequest) : bool * HttpRequest :=
  if decide (length word = 8%nat /\ take 7 word = text "HTTP/1.") then
    match drop 7 word with
    | [x31] => (true, setVersion kHttp11 r)
    | [x30] => (true, setVersion kHttp10 r)
    | _ => (false, r)
    end
  else (false, r).
Definition processTarget (target : list byte) (r : HttpRequest) : HttpRequest :=
  match memchr target x3f with
  | Some q => setQuery (drop q target) (setPath (take q target) r)
  | None => setPath target r
  end.
Definition processRequestLine (line : list byte) (r : HttpRequest) : bool * HttpRequest :=
  match memchr line x20 with
  | None => (false, r)
  | Some n =>
    let m := setMethod (take n line) r in
    if m.1 then
      let rest := drop (S n) line in
      match memchr rest x20 with
      | None => (false, m.2)
      | Some k => processVersion (drop (S k) rest) (processTarget (take k rest) m.2)
      end
    else (false, m.2)
  end.

(** The parser and the buffer it reads from. *)
Definition parser : Type := HttpContext * buffer.
Definition on_pbuf {A} (m : M buffer A) : M parser A := fun p => let r := m p.2 in (r.1, (p.1, r.2)).
Definition on_request {A} (f : HttpRequest -> A * HttpRequest) : M parser A := fun p =>
  let r := f (request_ p.1) in (Val r.1, (mk_context (state_ p.1) r.2, p.2)).
Definition set_state (st : HttpRequestParseState) : M parser unit := modify (fun p => (mk_context st (request_ p.1), p.2)).

(** One turn of the loop of [parseRequest]: the new [ok] and [hasMore]. *)
Definition request_line_turn (ok : bool) : M parser (bool * bool) :=
  let! found := gets (fun p => find_crlf p.2) in
  let! begin := gets (fun p => front p.2) in
  match found with
  | Some crlf =>
    let! line := on_pbuf (load_M begin (crlf - begin)) in
    let! ok' := on_request (processRequestLine line) in
    if (ok' : bool) then on_pbuf (has_read (crlf + 2 - begin));; set_state kExpectHeaders;; M_ret (ok', true)
    else M_ret (ok', false)
  | None => M_ret (ok, false)
  end.
Definition header_turn (ok : bool) : M parser (bool * bool) :=
  let! found := gets (fun p => find_crlf p.2) in
  let! begin := gets (fun p => front p.2) in
  match found with
  | Some crlf =>
    let! line := on_pbuf (load_M begin (crlf - begin)) in
    let! hasMore := match memchr line x3a with
      | Some colon => on_request (fun r => (true, addHeader (take colon line) (drop (S colon) line) r))
      | None => set_state kGotAll;; M_ret false
      end in
    on_pbuf (has_read (crlf + 2 - begin));; M_ret (ok, hasMore)
  | None => M_ret (ok, false)
  end.
Definition parse_turn (ok : bool) : M parser (bool * bool) :=
  let! st := gets (fun p => state_ p.1) in
  match st with
  | kExpectRequestLine => request_line_turn ok
  | kExpectHeaders => header_turn ok
  | kExpectBody | kGotAll => M_ret (ok, true)
  end.

(** The loop, for at most [fuel] turns: [None] when it is still running. *)
Fixpoint parse_loop (fuel : nat) (ok : bool) : M parser (option bool) :=
  match fuel with
  | O => M_ret None
  | S fuel' => let! r := parse_turn ok in if (r.2 : bool) then parse_loop fuel' r.1 else M_ret (Some r.1)
  end.
Definition parseRequest (fuel : nat) : M parser (option bool) := parse_loop fuel true.

(** * The order of keys *)

Lemma str_compare_refl a : str_compare a a = Eq.
Proof. induction a as [|x a IH]; cbn; [done|]. by rewrite Z.compare_refl. Qed.
Lemma str_compare_eq a : forall b, str_compare a b = Eq -> a = b.
Proof.
  induction a as [|x a IH]; intros [|y b]; cbn; try done. destruct (Z.compare_spec (Z_of_byte x) (Z_of_byte y)) as [E| |]; try done.
  intros H%IH. f_equal; [|done]. by rewrite <- (byte_of_Z_of_byte x), E, byte_of_Z_of_byte.
Qed.
Lemma str_compare_antisym a : forall b, str_compare b a = CompOpp (str_compare a b).
Proof. induction a as [|x a IH]; intros [|y b]; cbn; try done. rewrite Z.compare_antisym. destruct (Z_of_byte x ?= Z_of_byte y); cbn; auto. Qed.
Lemma str_compare_trans a : forall b c, str_compare a b = Lt -> str_compare b c = Lt -> str_compare a c = Lt.
Proof.
  induction a as [|x a IH]; intros [|y b] [|z c]; cbn; try done.
  destruct (Z.compare_spec (Z_of_byte x) (Z_of_byte y)) as [E|Hlt|]; try done.
  - rewrite E. destruct (Z_of_byte y ?= Z_of_byte z); try done. apply IH.
  - intros _. destruct (Z.compare_spec (Z_of_byte y) (Z_of_byte z)) as [E|Hlt'|]; try done; intros _.
    + by rewrite (proj2 (Z.compare_lt_iff _ _)) by lia.
    + by rewrite (proj2 (Z.compare_lt_iff _ _)) by lia.
Qed.

Definition before (p q : list byte * list byte) : Prop := str_compare p.1 q.1 = Lt.
Definition sorted (hs : headers) : Prop := StronglySorted before hs.

Lemma map_assign_keys (P : list byte * list byte -> Prop) key value hs :
  P (key, value) -> Forall P hs -> Forall P (map_assign key value hs).
Proof.
  intros Hp. induction hs as [|[k v] hs IH]; intros Ha; cbn; [by apply Forall_singleton|]. apply Forall_cons in Ha as [H1 H2].
  destruct (str_compare key k) eqn:E; [apply str_compare_eq in E as <- | |]; repeat (apply Forall_cons; split); auto.
Qed.
Lemma map_assign_sorted key value hs : sorted hs -> sorted (map_assign key value hs).
Proof.
  induction 1 as [|[k v] hs Hs IH Ha]; cbn; [by repeat constructor|]. destruct (str_compare key k) eqn:E.
  - by constructor.
  - constructor; [by constructor|]. constructor; [done|]. eapply Forall_impl; [exact Ha|]. intros q. by apply str_compare_trans.
  - constructor; [done|]. apply map_assign_keys; [|done]. unfold before. cbn. by rewrite str_compare_antisym, E.
Qed.
(** [std::map] finds the value last assigned, in whatever order. *)
Lemma map_find_assign key value k hs : sorted hs ->
  map_find k (map_assign key value hs) = if decide (k = key) then Some value else map_find k hs.
Proof.
  assert (Hne : forall a b, a <> b -> str_compare a b <> Eq) by (intros a b Hab E; by apply Hab, str_compare_eq).
  induction 1 as [|[k' v] hs Hs IH Ha]; cbn.
  - case_decide as Hk; [subst; by rewrite str_compare_refl|]. specialize (Hne _ _ Hk). by destruct (str_compare k key).
  - destruct (str_compare key k') eqn:E; cbn.
    + apply str_compare_eq in E as <-. case_decide as Hk; [subst; by rewrite str_compare_refl|].
      specialize (Hne _ _ Hk). by destruct (str_compare k key).
    + case_decide as Hk; [subst; by rewrite str_compare_refl|]. specialize (Hne _ _ Hk). destruct (str_compare k key) eqn:E2; try done.
      by rewrite (str_compare_trans _ _ _ E2 E).
    + case_decide as Hk; [subst; by rewrite E, IH|].
      destruct (str_compare k k'); done.
Qed.
Lemma map_assign_last hs key value : sorted (hs ++ [(key, value)]) -> map_assign key value hs = hs ++ [(key, value)].
Proof.
  induction hs as [|[k v] hs IH]; intros Hs; cbn in *; [done|]. apply StronglySorted_inv in Hs as [Hs Ha].
  apply Forall_app in Ha as [_ Ha]. apply Forall_cons in Ha as [Ha _]. unfold before in Ha. cbn in Ha.
  by rewrite str_compare_antisym, Ha, IH.
Qed.

Lemma sorted_prefix hs hs' : sorted (hs ++ hs') -> sorted hs.
Proof.
  induction hs as [|h hs IH]; intros Hs; [constructor|]. apply StronglySorted_inv in Hs as [Hs Ha].
  constructor; [by apply IH | by apply Forall_app in Ha as [Ha _]].
Qed.

(** * Lines *)

Definition CRLF : list byte := [x0d; x0a].
Definition next_line (l : list byte) : option (list byte * list byte) :=
  let k := search l CRLF in if decide (k = length l) then None else Some (take k l, drop (k + 2) l).
Definition crlf_free (l : list byte) : Prop := search l CRLF = length l.

Lemma crlf_free_occurs l : crlf_free l <-> forall k, ~ occurs_at CRLF l k.
Proof.
  unfold crlf_free. pose proof (search_spec CRLF l) as (S1 & S2 & S3). split.
  - intros E k Ho. apply (S3 k); [|done]. rewrite E. by eapply occurs_at_bound; [|exact Ho].
  - intros Hn. destruct (decide (search l CRLF = length l)); [done|]. exfalso. apply (Hn (search l CRLF)), S2. lia.
Qed.
Lemma occurs_app_l a b k : occurs_at CRLF a k -> occurs_at CRLF (a ++ b) k.
Proof.
  unfold occurs_at. intros Ho. assert (2 <= length (drop k a))%nat by (apply (f_equal length) in Ho; rewrite length_take in Ho; change (length CRLF) with 2%nat in Ho; lia).
  rewrite length_drop in *. rewrite drop_app_le by lia. rewrite take_app_le by (rewrite length_drop; change (length CRLF) with 2%nat; lia). done.
Qed.
Lemma occurs_app_r a b k : occurs_at CRLF b k -> occurs_at CRLF (a ++ b) (length a + k).
Proof. unfold occurs_at. rewrite drop_app_add. done. Qed.
Lemma crlf_free_app a b : crlf_free (a ++ b) -> crlf_free a /\ crlf_free b.
Proof. rewrite !crlf_free_occurs. intros Hn. split; intros k Ho; [eapply Hn, occurs_app_l, Ho | eapply Hn, occurs_app_r, Ho]. Qed.
(** A char that is neither CR nor LF separates. *)
Lemma crlf_free_cons x b : x <> x0d -> crlf_free b -> crlf_free (x :: b).
Proof. unfold crlf_free. cbn. intros Hx ->. rewrite decide_False; [done|]. by destruct b; intros [= ->]. Qed.
Lemma crlf_free_sep a x b : x <> x0d -> x <> x0a -> crlf_free a -> crlf_free b -> crlf_free (a ++ x :: b).
Proof.
  intros H1 H2 Ha Hb. induction a as [|y a IH]; [by apply crlf_free_cons|].
  assert (Ha' : crlf_free a) by (by apply (crlf_free_app [y] a)). specialize (IH Ha'). unfold crlf_free in *. cbn [app search length] in *.
  rewrite IH. rewrite decide_False; [done|]. revert Ha. case_decide as E; [done|]. intros _ E'. unfold CRLF in *.
  clear Hb IH Ha'. destruct a as [|z a]; simplify_eq/=.
Qed.

Lemma search_line l m : crlf_free l -> search (l ++ CRLF ++ m) CRLF = length l.
Proof.
  induction l as [|x l IH]; intros Hl; cbn [app search length]; [done|].
  assert (Hl' : crlf_free l) by (by apply (crlf_free_app [x] l)). unfold crlf_free in Hl. cbn [search length] in Hl. revert Hl.
  case_decide as E; [done|]. intros _. rewrite decide_False; [by rewrite <- (IH Hl')|].
  intros E'. unfold CRLF in *. clear IH Hl'. destruct l as [|y l]; simplify_eq/=.
Qed.
Lemma next_line_app l m : crlf_free l -> next_line (l ++ CRLF ++ m) = Some (l, m).
Proof.
  intros Hl. unfold next_line. rewrite search_line by done. rewrite decide_False by (rewrite !length_app; cbn; lia).
  f_equal. f_equal; [apply take_app_length|]. rewrite app_assoc. rewrite drop_app_ge by (rewrite length_app; cbn; lia).
  rewrite length_app. cbn. replace (length l + 2 - (length l + 2))%nat with 0%nat by lia. done.
Qed.
Lemma next_line_some l line rest : next_line l = Some (line, rest) <-> l = line ++ CRLF ++ rest /\ crlf_free line.
Proof.
  split; [|intros [-> Hl]; by apply next_line_app]. unfold next_line. pose proof (search_spec CRLF l) as (S1 & S2 & S3).
  set (k := search l CRLF) in *. case_decide as E; [done|]. intros [= <- <-]. assert (Ho : occurs_at CRLF l k) by (apply S2; lia).
  split.
  - rewrite <- (take_drop k l) at 1. f_equal. rewrite <- (take_drop 2 (drop k l)) at 1. rewrite drop_drop. f_equal. exact Ho.
  - apply crlf_free_occurs. intros j Hj. assert (j < length (take k l))%nat by (by eapply occurs_at_bound; [|exact Hj]).
    rewrite length_take in H. apply (S3 j); [lia|]. rewrite <- (take_drop k l). by apply occurs_app_l.
Qed.
Lemma next_line_none l : next_line l = None <-> crlf_free l.
Proof. unfold next_line, crlf_free. case_decide; naive_solver. Qed.

(** * The parser on the bytes themselves *)

(** One turn: [ok], [hasMore], the context, and the bytes left. *)
Definition spec_turn (ok : bool) (c : HttpContext) (l : list byte) : bool * bool * HttpContext * list byte :=
  match state_ c with
  | kExpectRequestLine =>
    match next_line l with
    | None => (ok, false, c, l)
    | Some (line, rest) =>
      let r := processRequestLine line (request_ c) in
      if r.1 then (true, true, mk_context kExpectHeaders r.2, rest) else (false, false, mk_context kExpectRequestLine r.2, l)
    end
  | kExpectHeaders =>
    match next_line l with
    | None => (ok, false, c, l)
    | Some (line, rest) =>
      match memchr line x3a with
      | Some n => (ok, true, mk_context kExpectHeaders (addHeader (take n line) (drop (S n) line) (request_ c)), rest)
      | None => (ok, false, mk_context kGotAll (request_ c), rest)
      end
    end
  | kExpectBody | kGotAll => (ok, true, c, l)
  end.
Fixpoint spec_parse (fuel : nat) (ok : bool) (c : HttpContext) (l : list byte) : option bool * HttpContext * list byte :=
  match fuel with
  | O => (None, c, l)
  | S fuel' => let t := spec_turn ok c l in if t.1.1.2 then spec_parse fuel' t.1.1.1 t.1.2 t.2 else (Some t.1.1.1, t.1.2, t.2)
  end.

(** Reading leaves the container alone and rewinds a buffer it empties. *)
Definition rewound (b : buffer) : Prop := contents b = [] -> index_read_ b = 0 /\ index_write_ b = 0.
Definition kept (b b' : buffer) : Prop := container_ b' = container_ b /\ (rewound b -> rewound b').
Lemma has_read_kept n b : wf b -> 0 <= n <= readable b ->
  exists b', has_read n b = (Val tt, b') /\ wf b' /\ contents b' = drop (Z.to_nat n) (contents b) /\ kept b b'.
Proof.
  intros Hwf Hn. destruct (has_read_wf n b Hwf Hn) as (b' & E & Hw & Hc & Hd). exists b'. split_and!; [done..|]. split; [done|]. intros _ He.
  rewrite Hd in He. apply (f_equal length) in He. rewrite length_drop in He. pose proof (length_contents b Hwf) as Hl. cbn in He.
  assert (Er : n = readable b) by lia. revert E. unfold has_read. run_M. rewrite (proj2 (Z.leb_le _ _)) by lia.
  rewrite (proj2 (Z.eqb_eq _ _)) by done. unfold clear. run_M. by intros [= <-].
Qed.

(** What [find_crlf] and the reads after it see is the first line. *)
Lemma find_crlf_line b : wf b ->
  match next_line (contents b) with
  | None => find_crlf b = None
  | Some (line, rest) => exists crlf, find_crlf b = Some crlf /\ load_M (front b) (crlf - front b) b = (Val line, b) /\
      exists b', has_read (crlf + 2 - front b) b = (Val tt, b') /\ wf b' /\ contents b' = rest /\ kept b b'
  end.
Proof.
  intros Hwf. pose proof (length_contents b Hwf) as Hl. pose proof (readable_wf b Hwf) as Hr.
  assert (Ef : find_crlf b = let k := Z.of_nat (search (contents b) CRLF) in
    if front b + k =? back b then None else Some (front b + k)) by done.
  pose proof (search_spec CRLF (contents b)) as (S1 & S2 & _).
  unfold next_line. set (k := search (contents b) CRLF) in *. cbn zeta in Ef. rewrite Ef. unfold front, back in *.
  case_decide as E; [by rewrite (proj2 (Z.eqb_eq _ _)) by lia|]. rewrite (proj2 (Z.eqb_neq _ _)) by lia.
  exists (index_read_ b + Z.of_nat k). split; [done|]. replace (index_read_ b + Z.of_nat k - index_read_ b) with (Z.of_nat k) by lia.
  assert (Hk : (k + 2 <= length (contents b))%nat).
  { specialize (S2 ltac:(lia)). unfold occurs_at in S2. apply (f_equal length) in S2. rewrite length_take, length_drop in S2.
    change (length CRLF) with 2%nat in S2. lia. }
  split; [pose proof (load_front_wf (Z.of_nat k) b Hwf ltac:(lia)) as Hld; unfold front in Hld; by rewrite Hld, Nat2Z.id|].
  destruct (has_read_kept (index_read_ b + Z.of_nat k + 2 - index_read_ b) b Hwf) as (b' & E1 & H1 & H2 & H3); [lia|].
  exists b'. split_and!; [done | done | | done]. rewrite H2. f_equal. lia.
Qed.

(** The two parsers agree, and the buffer's accesses stay inside it. *)
Lemma parse_turn_refines ok c b : wf b -> exists b', wf b' /\
  let t := spec_turn ok c (contents b) in parse_turn ok (c, b) = (Val (t.1.1.1, t.1.1.2), (t.1.2, b')) /\ contents b' = t.2 /\ kept b b'.
Proof.
  intros Hwf. pose proof (find_crlf_line b Hwf) as Hf. unfold parse_turn, spec_turn. destruct c as [st r]. run_M. destruct st.
  - unfold request_line_turn. run_M. destruct (next_line (contents b)) as [[line rest]|].
    + destruct Hf as (crlf & -> & E1 & b1 & E2 & H1 & H2 & H3). unfold on_pbuf, on_request. run_M. rewrite E1. cbn [fst snd].
      destruct (processRequestLine line r) as [[] r'] eqn:Ep; cbn [fst snd].
      * rewrite E2. cbn [fst snd]. by exists b1.
      * exists b. by split.
    + rewrite Hf. by exists b.
  - unfold header_turn. run_M. destruct (next_line (contents b)) as [[line rest]|].
    + destruct Hf as (crlf & -> & E1 & b1 & E2 & H1 & H2 & H3). unfold on_pbuf, on_request. run_M. rewrite E1. cbn [fst snd].
      destruct (memchr line x3a) as [n|]; cbn [fst snd]; rewrite E2; cbn [fst snd]; by exists b1.
    + rewrite Hf. by exists b.
  - by exists b.
  - by exists b.
Qed.
Lemma parse_refines fuel : forall ok c b, wf b -> exists b', wf b' /\
  let t := spec_parse fuel ok c (contents b) in parse_loop fuel ok (c, b) = (Val t.1.1, (t.1.2, b')) /\ contents b' = t.2 /\ kept b b'.
Proof.
  induction fuel as [|fuel IH]; intros ok c b Hwf; cbn [spec_parse parse_loop]; [by exists b|].
  destruct (parse_turn_refines ok c b Hwf) as (b1 & Hwf1 & E1 & H1 & Hk). rewrite (M_bind_val _ _ _ _ _ E1). cbn [fst snd].
  destruct (spec_turn ok c (contents b)) as [[[ok' more] c'] l']. cbn [fst snd] in *. destruct more; [|by exists b1]. subst l'.
  destruct (IH ok' c' b1 Hwf1) as (b' & H2 & H3 & H4 & H5). exists b'. split_and!; [done.. |]. unfold kept in *. destruct Hk, H5. split; [congruence | auto].
Qed.

Definition parsing (c : HttpContext) : Prop := state_ c = kExpectRequestLine \/ state_ c = kExpectHeaders.

Lemma next_line_shorter l line rest : next_line l = Some (line, rest) -> (length rest + 2 <= length l)%nat.
Proof. intros [-> _]%next_line_some. rewrite !length_app. cbn. lia. Qed.

(** A turn that goes on has used up at least the two bytes of a line end. *)
Lemma spec_turn_progress ok c l : parsing c -> let t := spec_turn ok c l in
  t.1.1.2 = true -> parsing t.1.2 /\ (length t.2 + 2 <= length l)%nat /\ t.1.1.1 = (ok || bool_decide (state_ c = kExpectRequestLine)).
Proof.
  intros Hp. unfold spec_turn. destruct c as [st r]. unfold parsing in *. cbn [state_ request_] in *.
  destruct st; [| | destruct Hp; done..]; destruct (next_line l) as [[line rest]|] eqn:El; cbn [fst snd]; try done; apply next_line_shorter in El.
  - destruct (processRequestLine line r) as [[] r']; cbn [fst snd state_]; [|done]. rewrite orb_true_r. auto.
  - destruct (memchr line x3a); cbn [fst snd state_]; [|done]. rewrite orb_false_r. auto.
Qed.
Lemma spec_parse_ends fuel : forall ok c l, parsing c -> (length l < fuel)%nat -> exists o c' l', spec_parse fuel ok c l = (Some o, c', l').
Proof.
  induction fuel as [|fuel IH]; intros ok c l Hp Hl; cbn [spec_parse]; [lia|].
  pose proof (spec_turn_progress ok c l Hp) as Hg. destruct (spec_turn ok c l) as [[[ok' more] c'] l']. cbn [fst snd] in *.
  destruct more; [|eauto]. destruct (Hg eq_refl) as (H1 & H2 & _). apply IH; [done | lia].
Qed.

(** [C23] [parseRequest] terminates exactly when it should be called.  From the
    states a fresh or half-filled context is in, the loop ends after at most
    one turn more than there are readable bytes, never reading outside the
    buffer; in the two other states (a request is complete, or a body is
    expected) no number of turns ends it, so a caller must [reset] first. *)
Theorem parse_terminates_iff c b : wf b ->
  (parsing c -> exists ok c' b', parseRequest (S (length (contents b))) (c, b) = (Val (Some ok), (c', b')) /\ wf b') /\
  (~ parsing c -> forall fuel, parseRequest fuel (c, b) = (Val None, (c, b))).
Proof.
  intros Hwf. split.
  - intros Hp. destruct (parse_refines (S (length (contents b))) true c b Hwf) as (b' & Hwf' & E & _).
    destruct (spec_parse_ends (S (length (contents b))) true c (contents b) Hp ltac:(lia)) as (o & c' & l' & Es).
    rewrite Es in E. by exists o, c', b'.
  - intros Hn fuel. unfold parseRequest. induction fuel as [|fuel IH]; cbn [parse_loop]; [done|].
    assert (E : parse_turn true (c, b) = (Val (true, true), (c, b))).
    { unfold parse_turn. run_M. unfold parsing in Hn. destruct c as [[] r]; cbn in *; try done; exfalso; auto. }
    by rewrite (M_bind_val _ _ _ _ _ E).
Qed.
Lemma parse_terminates_iff_witness :
  (exists ok c' b', parseRequest 5 (new_context, mk_buffer (x41 :: CRLF ++ [x42; x00]) 0 4) = (Val (Some ok), (c', b'))) /\
  forall fuel, parseRequest fuel (mk_context kGotAll new_request, new_flex_buffer 4) = (Val None, (mk_context kGotAll new_request, new_flex_buffer 4)).
Proof.
  split.
  - destruct (proj1 (parse_terminates_iff new_context (mk_buffer (x41 :: CRLF ++ [x42; x00]) 0 4) ltac:(vm_compute; split_and!; discriminate))
      ltac:(by left)) as (ok & c' & b' & E & _). by exists ok, c', b'.
  - apply (proj2 (parse_terminates_iff (mk_context kGotAll new_request) (new_flex_buffer 4) ltac:(vm_compute; split_and!; discriminate))).
    intros [|]; discriminate.
Defined.

(** * Pieces *)

Lemma next_line_more l m line rest : next_line l = Some (line, rest) -> next_line (l ++ m) = Some (line, rest ++ m).
Proof. intros [-> Hl]%next_line_some. apply next_line_some. by rewrite <- !app_assoc. Qed.

(** More bytes behind a turn that used some up change nothing but the rest. *)
Lemma spec_turn_more ok c l m : parsing c -> let t := spec_turn ok c l in
  t.1.1.2 = true \/ t.1.1.1 = false /\ ok = true \/ gotAll t.1.2 = true ->
  spec_turn ok c (l ++ m) = (t.1.1.1, t.1.1.2, t.1.2, t.2 ++ m).
Proof.
  intros Hp. unfold spec_turn, gotAll. destruct c as [st r]. unfold parsing in *. cbn [state_ request_] in *.
  destruct st; [| | destruct Hp; done..]; destruct (next_line l) as [[line rest]|] eqn:El; cbn [fst snd].
  - rewrite (next_line_more _ m _ _ El). by destruct (processRequestLine line r) as [[] r'].
  - intros [|[[-> ?]|?%bool_decide_eq_true]]; done.
  - rewrite (next_line_more _ m _ _ El). by destruct (memchr line x3a).
  - intros [|[[-> ?]|?%bool_decide_eq_true]]; done.
Qed.
Lemma spec_parse_fuel fuel : forall ok c l o c' l' fuel', spec_parse fuel ok c l = (Some o, c', l') -> (fuel <= fuel')%nat ->
  spec_parse fuel' ok c l = (Some o, c', l').
Proof.
  induction fuel as [|fuel IH]; intros ok c l o c' l' [|fuel'] E Hf; cbn [spec_parse] in *; try done; [lia|].
  destruct (spec_turn ok c l) as [[[ok' []] c1] l1]; cbn [fst snd] in *; [|done]. apply IH; [done | lia].
Qed.
(** A turn that stops for lack of a line has changed nothing. *)
Lemma spec_turn_waits c l : parsing c -> let t := spec_turn true c l in
  t.1.1.2 = false -> t.1.1.1 = true -> gotAll t.1.2 = false -> t.1.2 = c /\ t.2 = l.
Proof.
  intros Hp. unfold spec_turn. destruct c as [st r]. unfold parsing in *. cbn [state_ request_] in *.
  destruct st; [| | destruct Hp; done..]; destruct (next_line l) as [[line rest]|]; cbn [fst snd]; try done.
  - by destruct (processRequestLine line r) as [[] r'].
  - by destruct (memchr line x3a).
Qed.
Lemma spec_parse_pieces fuel m : forall c l o c' l', parsing c -> spec_parse fuel true c l = (Some o, c', l') ->
  if o && negb (gotAll c') then parsing c' /\ forall fuel' r, spec_parse fuel' true c' (l' ++ m) = (Some r.1.1, r.1.2, r.2) ->
    spec_parse (fuel + fuel') true c (l ++ m) = (Some r.1.1, r.1.2, r.2)
  else spec_parse fuel true c (l ++ m) = (Some o, c', l' ++ m).
Proof.
  induction fuel as [|fuel IH]; intros c l o c' l' Hp E; cbn [spec_parse] in *; [done|].
  pose proof (spec_turn_progress true c l Hp) as Hg. pose proof (spec_turn_more true c l m Hp) as Hm.
  pose proof (spec_turn_waits c l Hp) as Hw. destruct (spec_turn true c l) as [[[ok' more] c1] l1]. cbn [fst snd orb] in *. destruct more.
  - destruct (Hg eq_refl) as (H1 & _ & ->). rewrite (Hm ltac:(by left)). cbn [fst snd]. specialize (IH _ _ _ _ _ H1 E).
    destruct (o && negb (gotAll c')); [|done]. destruct IH as [H2 IH]. split; [done|]. intros fuel' r Er. cbn [Nat.add spec_parse].
    rewrite (Hm ltac:(by left)). by apply IH.
  - injection E as -> -> ->. destruct o; [destruct (gotAll c') eqn:Eg|]; cbn [andb negb].
    + by rewrite (Hm ltac:(by right; right)).
    + destruct (Hw eq_refl eq_refl eq_refl) as [-> ->]. split; [done|]. intros fuel' r Er.
      change (S fuel + fuel')%nat with (S (fuel + fuel')). by eapply spec_parse_fuel; [exact Er | lia].
    + by rewrite (Hm ltac:(right; by left)).
Qed.

(** A parser that has answered: enough turns for the bytes there are. *)
Definition parse_all (c : HttpContext) (b : buffer) : outcome (option bool) * parser := parseRequest (S (length (contents b))) (c, b).
Definition same_answer (r1 r2 : outcome (option bool) * parser) : Prop :=
  r1.1 = r2.1 /\ r1.2.1 = r2.2.1 /\ contents r1.2.2 = contents r2.2.2.

Lemma parse_all_spec c b : wf b -> parsing c -> exists o c' l' b',
  spec_parse (S (length (contents b))) true c (contents b) = (Some o, c', l') /\
  parse_all c b = (Val (Some o), (c', b')) /\ wf b' /\ contents b' = l' /\ kept b b'.
Proof.
  intros Hwf Hp. destruct (parse_refines (S (length (contents b))) true c b Hwf) as (b' & Hwf' & E & Hc & Hk).
  destruct (spec_parse_ends (S (length (contents b))) true c (contents b) Hp ltac:(lia)) as (o & c' & l' & Es).
  rewrite Es in E, Hc. by exists o, c', l', b'.
Qed.

(** [C22] Parsing piece by piece is parsing the whole.  When the bytes at hand
    do not complete a request, parsing again once more have been appended to
    the unread ones gives the answer, the request and the bytes left that
    parsing everything at once gives; and when they do complete one, or are
    refused, the bytes behind them play no part. *)
Theorem parse_in_pieces c b more whole : wf b -> parsing c -> wf whole -> contents whole = contents b ++ more ->
  exists ok c' b', parse_all c b = (Val (Some ok), (c', b')) /\ wf b' /\
    if ok && negb (gotAll c')
    then forall b2, wf b2 -> contents b2 = contents b' ++ more -> parsing c' /\ same_answer (parse_all c' b2) (parse_all c whole)
    else exists bw, parse_all c whole = (Val (Some ok), (c', bw)) /\ wf bw /\ contents bw = contents b' ++ more.
Proof.
  intros Hwf Hp Hw Ew. destruct (parse_all_spec c b Hwf Hp) as (o & c' & l' & b' & Es & E & Hwf' & Hc' & Hk).
  exists o, c', b'. split_and!; [done.. |]. pose proof (spec_parse_pieces _ more _ _ _ _ _ Hp Es) as Hpc.
  destruct (parse_all_spec c whole Hw Hp) as (o1 & c1 & l1 & bw & Es1 & E1 & Hw1 & Hc1 & _). rewrite Ew in Es1.
  destruct (o && negb (gotAll c')).
  - destruct Hpc as [Hp' Hpc]. intros b2 H2 E2. split; [done|]. destruct (parse_all_spec c' b2 H2 Hp') as (o2 & c2 & l2 & b2' & Es2 & E3 & _ & Hc2 & _).
    rewrite E2, Hc' in Es2. specialize (Hpc _ (o2, c2, l2) Es2). cbn [fst snd] in Hpc. rewrite E1, E3. unfold same_answer. cbn [fst snd].
    assert (Eq : (Some o1, c1, l1) = (Some o2, c2, l2)).
    { set (n := Nat.max (S (length (contents b ++ more))) (S (length (contents b)) + S (length (contents b' ++ more)))).
      rewrite <- (spec_parse_fuel _ _ _ _ _ _ _ n Es1) by lia. rewrite <- Hc', <- E2 in Hpc.
      rewrite E2 in Hpc. by rewrite <- (spec_parse_fuel _ _ _ _ _ _ _ n Hpc) by lia. }
    injection Eq as -> -> ->. by rewrite Hc1, Hc2.
  - exists bw. apply (spec_parse_fuel _ _ _ _ _ _ _ (S (length (contents b ++ more)))) in Hpc; [|rewrite length_app; lia].
    rewrite Hpc in Es1. injection Es1 as -> -> <-. by rewrite E1, Hc1, Hc'.
Qed.

(** The request of a browser, cut inside its header. *)
Definition sample_head : list byte := text "GET /a?b HTTP/1.1" ++ CRLF ++ text "Ho".
Definition sample_tail : list byte := text "st: x " ++ CRLF ++ CRLF ++ text "GET".
Definition buffer_of (l : list byte) : buffer := mk_buffer l 0 (Z.of_nat (length l)).
Lemma buffer_of_ok l : Z.of_nat (length l) < 2 ^ 63 -> wf (buffer_of l) /\ contents (buffer_of l) = l.
Proof.
  intros Hl. split; [unfold wf, buffer_of, size, PTRDIFF_MAX in *; cbn [container_ index_read_ index_write_]; lia|].
  unfold contents, buffer_of, slice. cbn. rewrite drop_0, Nat.sub_0_r, Nat2Z.id. by apply take_ge.
Qed.

Lemma parse_in_pieces_witness : exists c' b', parse_all new_context (buffer_of sample_head) = (Val (Some true), (c', b')) /\
  contents b' = text "Ho" /\
  same_answer (parse_all c' (buffer_of (text "Ho" ++ sample_tail))) (parse_all new_context (buffer_of (sample_head ++ sample_tail))).
Proof.
  destruct (parse_in_pieces new_context (buffer_of sample_head) sample_tail (buffer_of (sample_head ++ sample_tail)))
    as (ok & c' & b' & E & _ & Hr).
  - by apply buffer_of_ok.
  - by left.
  - by apply buffer_of_ok.
  - reflexivity.
  - assert (V : parse_all new_context (buffer_of sample_head) = (Val (Some true), (mk_context kExpectHeaders
      (mk_request kGet kHttp11 (text "public/a") (text "?b") []), mk_buffer sample_head 19 21))) by (vm_compute; reflexivity).
    rewrite V in E. injection E as <- <- <-. eexists _, (mk_buffer sample_head 19 21). split; [exact V|]. split; [reflexivity|].
    pose proof (proj1 (buffer_of_ok (text "Ho" ++ sample_tail) ltac:(vm_compute; reflexivity))) as Hw.
    exact (proj2 (Hr (buffer_of (text "Ho" ++ sample_tail)) Hw eq_refl)).
Defined.

(** * What a parsed request looks like *)

Lemma memchr_app a c b : c ∉ a -> memchr (a ++ c :: b) c = Some (length a).
Proof.
  induction a as [|x a IH]; intros Hc; cbn; [by rewrite decide_True|]. apply not_elem_of_cons in Hc as [Hx Hc].
  rewrite decide_False by congruence. by rewrite IH.
Qed.
Lemma memchr_none l c : memchr l c = None <-> c ∉ l.
Proof.
  induction l as [|x l IH]; cbn; [split; [intros _; apply not_elem_of_nil | done]|]. rewrite not_elem_of_cons. case_decide as E.
  - split; [done | intros [? _]; congruence].
  - destruct (memchr l c); cbn; naive_solver.
Qed.
Lemma memchr_some l c n : memchr l c = Some n -> l = take n l ++ c :: drop (S n) l /\ c ∉ take n l.
Proof.
  revert n. induction l as [|x l IH]; intros n; cbn; [done|]. case_decide as E.
  - intros [= <-]. subst. split; [done | apply not_elem_of_nil].
  - destruct (memchr l c) as [k|]; [|done]. intros [= <-]. destruct (IH k eq_refl) as [H1 H2]. cbn. split; [by f_equal|].
    apply not_elem_of_cons. split; [congruence | done].
Qed.

Definition trimmed (v : list byte) : Prop := skip_spaces v = v /\ drop_trailing v = v.
Lemma skip_spaces_suffix l : exists p, l = p ++ skip_spaces l.
Proof. induction l as [|c l [p IH]]; [by exists []|]. cbn. destruct (is_space c); [exists (c :: p); cbn; by f_equal | by exists []]. Qed.
Lemma drop_trailing_prefix l : exists p, l = drop_trailing l ++ p.
Proof.
  induction l as [|c l [p IH]]; [by exists []|]. cbn. destruct (drop_trailing l) as [|d t]; [|exists p; cbn in *; congruence].
  destruct (is_space c); [by exists (c :: l) | exists l; done].
Qed.
Lemma skip_spaces_idemp l : skip_spaces (skip_spaces l) = skip_spaces l.
Proof. induction l as [|c l IH]; [done|]. cbn. destruct (is_space c) eqn:E; [done|]. cbn. by rewrite E. Qed.
Lemma drop_trailing_idemp l : drop_trailing (drop_trailing l) = drop_trailing l.
Proof.
  induction l as [|c l IH]; [done|]. cbn. destruct (drop_trailing l) as [|d t] eqn:E.
  - destruct (is_space c) eqn:Ec; [done|]. cbn. by rewrite Ec.
  - cbn [drop_trailing] in *. by rewrite IH.
Qed.
Lemma value_trimmed l : trimmed (drop_trailing (skip_spaces l)).
Proof.
  split; [|apply drop_trailing_idemp]. pose proof (skip_spaces_idemp l) as Hs. destruct (skip_spaces l) as [|c t]; [done|].
  cbn in Hs. destruct (is_space c) eqn:E.
  - destruct (skip_spaces_suffix t) as [p Ep]. apply (f_equal length) in Ep, Hs. rewrite length_app in Ep. cbn in *. lia.
  - cbn. rewrite E. by destruct (drop_trailing t); cbn; rewrite E.
Qed.

Definition header_ok (h : list byte * list byte) : Prop := x3a ∉ h.1 /\ crlf_free h.1 /\ trimmed h.2 /\ crlf_free h.2.
Definition headers_ok (hs : headers) : Prop := sorted hs /\ Forall header_ok hs.
Definition query_ok (q : list byte) : Prop := q = [] \/ exists q', q = x3f :: q' /\ x20 ∉ q' /\ crlf_free q'.
Definition target_ok (t : list byte) : Prop := t <> [x2f] /\ x20 ∉ t /\ x3f ∉ t /\ crlf_free t.
Definition line_ok (r : HttpRequest) : Prop :=
  method_ r <> kInvalid /\ version_ r <> kUnknown /\ exists t, path_ r = text "public" ++ t /\ target_ok t.
(** The invariant of [HttpContext]: the request line is complete once headers
    are expected; the header map is sorted without duplicates, its keys have
    no colon, its values no outer white space. *)
Definition context_ok (c : HttpContext) : Prop :=
  query_ok (query_ (request_ c)) /\ headers_ok (headers_ (request_ c)) /\ (state_ c = kExpectRequestLine \/ line_ok (request_ c)).
Definition request_ok (r : HttpRequest) : Prop := query_ok (query_ r) /\ headers_ok (headers_ r) /\ line_ok r.

Lemma add_header_ok k l r : x3a ∉ k -> crlf_free k -> crlf_free l -> headers_ok (headers_ r) -> headers_ok (headers_ (addHeader k l r)).
Proof.
  intros H1 H2 H3 [Hs Ha]. cbn. split; [by apply map_assign_sorted|]. apply map_assign_keys; [|done]. split_and!; try done.
  - apply value_trimmed.
  - cbn. destruct (skip_spaces_suffix l) as [p Ep]. rewrite Ep in H3. apply crlf_free_app in H3 as [_ H3].
    destruct (drop_trailing_prefix (skip_spaces l)) as [q Eq]. rewrite Eq in H3. by apply crlf_free_app in H3 as [H3 _].
Qed.
Lemma set_path_ok t r : x20 ∉ t -> x3f ∉ t -> crlf_free t -> exists t', path_ (setPath t r) = text "public" ++ t' /\ target_ok t'.
Proof.
  intros H1 H2 H3. cbn. case_decide; [|by exists t].
  exists (text "/index.html"). split; [done|]. unfold target_ok. split_and!; [done | vm_compute; set_solver.. | done].
Qed.
Lemma process_line_ok line r : crlf_free line -> query_ok (query_ r) -> headers_ok (headers_ r) ->
  let p := processRequestLine line r in query_ok (query_ p.2) /\ headers_ok (headers_ p.2) /\ (p.1 = true -> line_ok p.2).
Proof.
  intros Hl Hq Hh. unfold processRequestLine. destruct (memchr line x20) as [n|] eqn:En; [|done].
  destruct (setMethod (take n line) r) as [om r1] eqn:Em. injection Em as <- <-. cbn [fst snd].
  destruct (bool_decide _) eqn:Ek; [done|]. apply bool_decide_eq_false in Ek. cbn [negb].
  destruct (memchr (drop (S n) line) x20) as [k|] eqn:Ek2; [|done].
  apply memchr_some in En as [En _]. rewrite En in Hl. apply crlf_free_app in Hl as [_ Hl]. apply (crlf_free_app [_]) in Hl as [_ Hl].
  apply memchr_some in Ek2 as [Er Ht]. rewrite Er in Hl. apply crlf_free_app in Hl as [Hl _].
  generalize dependent (take k (drop (S n) line)). intros target Hl _ Ht.
  generalize (drop (S k) (drop (S n) line)). intros word. set (r1 := mk_request _ _ _ _ _). set (r2 := processTarget target r1).
  assert (Hp : query_ok (query_ r2) /\ headers_ r2 = headers_ r /\ method_ r2 <> kInvalid /\
    exists t, path_ r2 = text "public" ++ t /\ target_ok t).
  { unfold r2, processTarget. destruct (memchr target x3f) as [q|] eqn:Eq.
    - apply memchr_some in Eq as [Eq Hnq]. rewrite Eq in Hl, Ht. apply not_elem_of_app in Ht as [Ht1 Ht2]. apply not_elem_of_cons in Ht2 as [_ Ht2].
      apply crlf_free_app in Hl as [Hl1 Hl2]. apply (crlf_free_app [_]) in Hl2 as [_ Hl2]. split_and!; [| done | done | by apply set_path_ok].
      right. exists (drop (S q) target). split; [|done]. cbn. rewrite Eq at 1. rewrite drop_app_ge by (rewrite length_take; lia).
      assert (Hlq : length (take q target) = q); [|by rewrite Hlq, Nat.sub_diag].
      apply (f_equal length) in Eq. rewrite length_app in Eq. cbn in Eq. rewrite length_drop, length_take in *. lia.
    - apply memchr_none in Eq. split_and!; [done.. | by apply set_path_ok]. }
  destruct Hp as (H1 & H2 & H3 & H4). clearbody r2. rewrite <- H2 in Hh.
  unfold processVersion. case_decide; [|done].
  assert (Hv : forall v, v <> kUnknown -> line_ok (setVersion v r2)) by (intros v Hv; by split_and!).
  destruct (drop 7 word) as [|[] []]; try done; (split; [done|]; split; [done|]; intros _; by apply Hv).
Qed.
Lemma spec_turn_ok ok c l : context_ok c -> context_ok (spec_turn ok c l).1.2.
Proof.
  intros (Hq & Hh & Hl). unfold spec_turn. destruct c as [st r]. cbn [state_ request_] in *. destruct st; [| |done..].
  - destruct (next_line l) as [[line rest]|] eqn:El; [|done]. apply next_line_some in El as [_ Hf].
    destruct (process_line_ok line r Hf Hq Hh) as (H1 & H2 & H3). destruct (processRequestLine line r) as [[] r']; cbn [fst snd] in *;
      (split; [done|]; split; [done|]); [right; by apply H3 | by left].
  - destruct (next_line l) as [[line rest]|] eqn:El; [|done]. apply next_line_some in El as [_ Hf].
    destruct Hl as [|Hl]; [done|]. destruct (memchr line x3a) as [n|] eqn:En; [|split_and!; [done.. | by right]].
    apply memchr_some in En as [En Hn]. split; [done|]. split; [|right; exact Hl]. cbn [fst snd request_ headers_].
    rewrite En in Hf. apply crlf_free_app in Hf as [H1 H2]. apply (crlf_free_app [_]) in H2 as [_ H2]. by apply add_header_ok.
Qed.
Lemma spec_parse_ok fuel : forall ok c l, context_ok c -> context_ok (spec_parse fuel ok c l).1.2.
Proof.
  induction fuel as [|fuel IH]; intros ok c l Hc; cbn [spec_parse]; [done|]. pose proof (spec_turn_ok ok c l Hc) as H1.
  destruct (spec_turn ok c l) as [[[ok' []] c'] l']; cbn [fst snd] in *; auto.
Qed.

(** [C25] Whatever arrives, the parser only builds well-formed requests.  A
    fresh context and a reset one are well formed, and every number of turns
    on every buffer, finished or not, accepted or refused, keeps the context
    so: keys without colon or line end, strictly increasing; values without
    white space around them; once headers are expected a known method and
    version, and as path the word "public" followed by a text that is not a
    single slash and has no space, question mark or line end; it need not
    start with a slash and may have dot segments ([target_is_not_checked]).  A
    complete request is well formed as a whole, and looking a header up finds
    what was last assigned to it. *)
Theorem parsed_requests_are_wellformed :
  context_ok new_context /\ (forall c, context_ok (context_reset c)) /\
  (forall fuel c b, wf b -> context_ok c -> exists o c' b', parseRequest fuel (c, b) = (Val o, (c', b')) /\ wf b' /\ context_ok c' /\
     (gotAll c' = true -> request_ok (request_ c'))) /\
  (forall c k l k', context_ok c -> getHeader k' (addHeader k l (request_ c)) =
     if decide (k' = k) then drop_trailing (skip_spaces l) else getHeader k' (request_ c)).
Proof.
  assert (Hn : context_ok new_context) by (split; [by left|]; split; [split; constructor | by left]).
  split_and!; [done | intros c; exact Hn | |].
  - intros fuel c b Hwf Hc. destruct (parse_refines fuel true c b Hwf) as (b' & Hwf' & E & _). eexists _, _, _. split; [exact E|]. split; [done|].
    pose proof (spec_parse_ok fuel true c (contents b) Hc) as Hc'. split; [exact Hc'|]. destruct Hc' as (H1 & H2 & H3).
    intros Hg%bool_decide_eq_true. split_and!; [done..|]. destruct H3 as [H3|]; [congruence | done].
  - intros c k l k' (_ & [Hs _] & _). unfold getHeader, addHeader. cbn [headers_]. rewrite map_find_assign by done. by case_decide.
Qed.
Lemma parsed_requests_are_wellformed_witness : exists o c' b',
  parseRequest 9 (new_context, buffer_of (sample_head ++ sample_tail)) = (Val o, (c', b')) /\ request_ok (request_ c').
Proof.
  destruct parsed_requests_are_wellformed as (H1 & _ & H2 & _).
  destruct (H2 9%nat new_context (buffer_of (sample_head ++ sample_tail)) (proj1 (buffer_of_ok (sample_head ++ sample_tail) ltac:(vm_compute; reflexivity))) H1)
    as (o & c' & b' & E & _ & _ & Hg). exists o, c', b'. split; [exact E|]. apply Hg.
  revert E. vm_compute. by intros [= _ <- _].
Defined.

(** Nothing keeps the path inside the public directory: a target needs no
    slash in front, and its dot segments are kept. *)
Theorem target_is_not_checked :
  (exists r, processRequestLine (text "GET foo HTTP/1.1") new_request = (true, r) /\ path_ r = text "publicfoo") /\
  (exists r, processRequestLine (text "GET /../secret HTTP/1.1") new_request = (true, r) /\ path_ r = text "public/../secret").
Proof. split; eexists; (split; [vm_compute; reflexivity | vm_compute; reflexivity]). Qed.

(** * Printing a request *)

Definition version_text (v : Version) : list byte :=
  match v with kHttp10 => text "HTTP/1.0" | kHttp11 => text "HTTP/1.1" | kUnknown => [] end.
Definition print_header (h : list byte * list byte) : list byte := h.1 ++ text ": " ++ h.2 ++ CRLF.
(** The target is the path without the leading public and the query. *)
Definition print_request (r : HttpRequest) : list byte :=
  methodString r ++ x20 :: (drop 6 (path_ r) ++ query_ r) ++ x20 :: version_text (version_ r) ++ CRLF ++
  concat (print_header <$> headers_ r) ++ CRLF.

Lemma method_of_string m : m <> kInvalid -> method_of (methodString (mk_request m kUnknown [] [] [])) = m /\
  x20 ∉ methodString (mk_request m kUnknown [] [] []) /\ crlf_free (methodString (mk_request m kUnknown [] [] [])).
Proof. intros Hm. destruct m; [done|..]; (split; [reflexivity|]; split; [vm_compute; set_solver | reflexivity]). Qed.

Lemma print_line_parses r : request_ok r -> exists line,
  print_request r = line ++ CRLF ++ concat (print_header <$> headers_ r) ++ CRLF /\ crlf_free line /\
  processRequestLine line new_request = (true, mk_request (method_ r) (version_ r) (path_ r) (query_ r) []).
Proof.
  intros (Hq & _ & Hm & Hv & t & Hp & Ht1 & Ht2 & Ht3 & Ht4).
  destruct (method_of_string _ Hm) as (M1 & M2 & M3). change (methodString (mk_request _ _ _ _ _)) with (methodString r) in M1, M2, M3.
  exists (methodString r ++ x20 :: (drop 6 (path_ r) ++ query_ r) ++ x20 :: version_text (version_ r)).
  assert (Hd : drop 6 (path_ r) = t) by (rewrite Hp; apply (drop_app_length (text "public"))). rewrite Hd.
  assert (Hvt : crlf_free (version_text (version_ r)) /\ forall r', processVersion (version_text (version_ r)) r' = (true, setVersion (version_ r) r')).
  { destruct (version_ r); [done|..]; (split; [reflexivity|]; intros r'; unfold processVersion; rewrite decide_True; [reflexivity | done]). }
  destruct Hvt as [V1 V2]. assert (Htq : x20 ∉ t ++ query_ r /\ crlf_free (t ++ query_ r)).
  { destruct Hq as [-> | (q & -> & Q1 & Q2)]; [by rewrite app_nil_r|]. split; [|by apply crlf_free_sep].
    apply not_elem_of_app. split; [done|]. by apply not_elem_of_cons. }
  destruct Htq as [T1 T2]. split_and!.
  - unfold print_request. rewrite Hd, <- !app_assoc. cbn [app]. by rewrite <- !app_assoc.
  - apply crlf_free_sep; [done..|]. by apply crlf_free_sep.
  - unfold processRequestLine. rewrite memchr_app by done. rewrite take_app_length.
    assert (Hrest : forall (a : list byte) x b, drop (S (length a)) (a ++ x :: b) = b).
    { intros a x b. rewrite drop_app_ge by lia. replace (S (length a) - length a)%nat with 1%nat by lia. done. }
    rewrite Hrest, memchr_app, Hrest, take_app_length, V2 by done. unfold setMethod. rewrite M1. cbn [fst snd].
    rewrite bool_decide_eq_false_2 by done. cbn [negb]. f_equal. unfold processTarget.
    destruct Hq as [Eq | (q & Eq & Q1 & Q2)].
    + rewrite Eq, app_nil_r. rewrite (proj2 (memchr_none t x3f)) by done. unfold setPath, setVersion. cbn.
      rewrite decide_False by done. by rewrite Hp.
    + rewrite Eq, memchr_app, take_app_length, drop_app_length by done. unfold setPath, setQuery, setVersion. cbn.
      rewrite decide_False by done. by rewrite Hp.
Qed.

Lemma header_parses h m : header_ok h -> forall r hs, sorted (hs ++ [h]) -> headers_ r = hs -> exists line,
  print_header h ++ m = line ++ CRLF ++ m /\ crlf_free line /\ exists n, memchr line x3a = Some n /\
  addHeader (take n line) (drop (S n) line) r = mk_request (method_ r) (version_ r) (path_ r) (query_ r) (hs ++ [h]).
Proof.
  intros (H1 & H2 & [H3 H4] & H5) r hs Hs Er. exists (h.1 ++ x3a :: x20 :: h.2). split_and!.
  - unfold print_header. rewrite <- !app_assoc. done.
  - apply crlf_free_sep; [done.. |]. by apply crlf_free_cons.
  - exists (length h.1). split; [by apply memchr_app|]. rewrite take_app_length, drop_app_ge by lia.
    replace (S (length h.1) - length h.1)%nat with 1%nat by lia. cbn [drop]. unfold addHeader. f_equal. rewrite Er.
    change (skip_spaces (x20 :: h.2)) with (skip_spaces h.2). rewrite H3, H4. destruct h as [k v]. by apply map_assign_last.
Qed.

(** Reading the headers one after the other, up to the empty line. *)
Lemma headers_parse m hs : forall r done_, Forall header_ok hs -> sorted (done_ ++ hs) -> headers_ r = done_ ->
  spec_parse (S (length hs)) true (mk_context kExpectHeaders r) (concat (print_header <$> hs) ++ CRLF ++ m) =
    (Some true, mk_context kGotAll (mk_request (method_ r) (version_ r) (path_ r) (query_ r) (done_ ++ hs)), m).
Proof.
  induction hs as [|h hs IH]; intros r dn Ha Hs Er.
  - cbn [fmap list_fmap concat app length]. unfold spec_parse, spec_turn. cbn [state_].
    change (CRLF ++ m) with ([] ++ CRLF ++ m). rewrite next_line_app by done. cbn. rewrite app_nil_r, <- Er. by destruct r.
  - apply Forall_cons in Ha as [Hh Ha]. change (dn ++ h :: hs) with (dn ++ [h] ++ hs) in *. rewrite (app_assoc dn [h] hs) in *.
    assert (Hs1 : sorted (dn ++ [h])) by (by eapply sorted_prefix).
    change (length (h :: hs)) with (S (length hs)). cbn [fmap list_fmap concat]. change (list_fmap _ _ print_header hs) with (print_header <$> hs). rewrite <- !app_assoc.
    destruct (header_parses h (concat (print_header <$> hs) ++ CRLF ++ m) Hh r dn Hs1 Er) as (line & -> & Hf & n & En & Eh).
    remember (S (length hs)) as fuel eqn:Ef. cbn [spec_parse]. unfold spec_turn. cbn [state_ request_]. rewrite next_line_app, En by done.
    cbn [fst snd]. rewrite Eh. subst fuel.
    rewrite (IH (mk_request (method_ r) (version_ r) (path_ r) (query_ r) (dn ++ [h])) (dn ++ [h])) by done. cbn. by rewrite <- app_assoc.
Qed.

Lemma print_parses r m b : request_ok r -> wf b -> contents b = print_request r ++ m ->
  exists b', parse_all new_context b = (Val (Some true), (mk_context kGotAll r, b')) /\ wf b' /\ contents b' = m /\ kept b b'.
Proof.
  intros Hr Hwf Ec. destruct (print_line_parses r Hr) as (line & El & Hf & Hp).
  destruct (parse_all_spec new_context b Hwf ltac:(by left)) as (o & c' & l' & b' & Es & E & Hwf' & Hc' & Hk).
  assert (Es' : spec_parse (S (S (length (headers_ r)))) true new_context (contents b) = (Some true, mk_context kGotAll r, m)).
  { rewrite Ec, El, <- !app_assoc. remember (S (length (headers_ r))) as fuel. cbn [spec_parse]. unfold spec_turn. cbn [new_context state_ request_].
    rewrite next_line_app, Hp by done. cbn [fst snd]. subst fuel. destruct Hr as (_ & [Hs Ha] & _).
    rewrite (headers_parse m (headers_ r) _ []) by done. by destruct r. }
  set (n := Nat.max (S (length (contents b))) (S (S (length (headers_ r))))).
  assert (Eq := spec_parse_fuel _ _ _ _ _ _ _ n Es ltac:(lia)). rewrite (spec_parse_fuel _ _ _ _ _ _ _ n Es' ltac:(lia)) in Eq.
  injection Eq as <- <- <-. by exists b'.
Qed.

(** [C21] Parsing a printed request gives the request back: for every
    well-formed request and whatever follows it in the buffer, a fresh parser
    accepts the text, is at its end, and holds exactly that request; the
    bytes behind it stay unread. *)
Theorem parse_print_roundtrip r m b : request_ok r -> wf b -> contents b = print_request r ++ m ->
  exists b', parse_all new_context b = (Val (Some true), (mk_context kGotAll r, b')) /\ wf b' /\ contents b' = m.
Proof.
  intros Hr Hw Hc. destruct (print_parses r m b Hr Hw Hc) as (b' & E & Hw' & Hc' & _). by exists b'.
Qed.
Definition sample_request : HttpRequest :=
  mk_request kPost kHttp10 (text "public/a/b") (text "?x=1") [(text "Connection", text "close"); (text "Host", text "a b")].
Lemma sample_request_ok : request_ok sample_request.
Proof.
  unfold request_ok, headers_ok, line_ok, sorted. split_and!; try done.
  - right. exists (text "x=1"). split_and!; [done | vm_compute; set_solver | done].
  - repeat constructor.
  - repeat (apply Forall_cons; split); [..|done]; (split_and!; [vm_compute; set_solver | done..]).
  - exists (text "/a/b"). split; [done|]. split_and!; [done | vm_compute; set_solver.. | done].
Qed.
Lemma parse_print_roundtrip_witness : exists b',
  parse_all new_context (buffer_of (print_request sample_request ++ [x47])) = (Val (Some true), (mk_context kGotAll sample_request, b')) /\
  contents b' = [x47].
Proof.
  destruct (buffer_of_ok (print_request sample_request ++ [x47]) ltac:(vm_compute; reflexivity)) as [H1 H2].
  destruct (parse_print_roundtrip sample_request [x47] _ sample_request_ok H1 H2) as (b' & E & _ & Hc). exists b'. split; [exact E | exact Hc].
Defined.
