(* ===== verification/HttpServer.v ===== *)
(** The example HTTP server: the response of [examples/http1/http_response.hpp]
    and the coroutines of [examples/http_server.cpp], over the readers and
    writers of [SocketIO] and the parser of [Http]. *)
From S2P Require Import Prelude Endian Buffer SocketIO Endpoint File Http.

(** * [HttpResponse] *)

Inductive HttpStatusCode : Type := kUnknownStatus | k200Ok | k301MovedPermanently | k400BadRequest | k404NotFound.
Definition status_value (c : HttpStatusCode) : Z :=
  match c with kUnknownStatus => 0 | k200Ok => 200 | k301MovedPermanently => 301 | k400BadRequest => 400 | k404NotFound => 404 end.
Record HttpResponse : Type := mk_response {
  rheaders_ : headers; statusCode_ : HttpStatusCode; statusMessage_ : list byte; closeConnection_ : bool }.
Definition new_response : HttpResponse := mk_response [] kUnknownStatus [] false.

Definition setStatusCode (c : HttpStatusCode) (r : HttpResponse) : HttpResponse :=
  mk_response (rheaders_ r) c
    (match c with
     | kUnknownStatus => statusMessage_ r
     | k200Ok => text "OK" | k301MovedPermanently => text "Move Permanently"
     | k400BadRequest => text "Bad Request" | k404NotFound => text "Not Found"
     end) (closeConnection_ r).
Definition setCloseConnection (on : bool) (r : HttpResponse) : HttpResponse :=
  mk_response (rheaders_ r) (statusCode_ r) (statusMessage_ r) on.
Definition addResponseHeader (key value : list byte) (r : HttpResponse) : HttpResponse :=
  mk_response (map_assign key value (rheaders_ r)) (statusCode_ r) (statusMessage_ r) (closeConnection_ r).
Definition setContentType (t : list byte) : HttpResponse -> HttpResponse := addResponseHeader (text "Content-Type") t.
(** [std::to_string] of a [size_t]: at most twenty digits. *)
Definition to_string (n : Z) : list byte := reverse (itoad_loop 20 n).
Definition setContentLength (len : Z) : HttpResponse -> HttpResponse := addResponseHeader (text "Content-Length") (to_string len).

(** A C string: the bytes before the first NUL. *)
Definition c_str (s : list byte) : list byte := match memchr s x00 with Some n => take n s | None => s end.
Definition tolower (c : byte) : byte := let v := Z_of_byte c in if (65 <=? v) && (v <=? 90) then byte_of_Z (v + 32) else c.
Definition strtolower (s : list byte) : list byte := tolower <$> s.
Fixpoint strrchr (l : list byte) (c : byte) : option nat :=
  match l with
  | [] => None
  | x :: l' => match strrchr l' c with Some n => Some (S n) | None => if decide (x = c) then Some 0%nat else None end
  end.
Definition get_filename_ext (filename : list byte) : list byte :=
  match strrchr filename x2e with None | Some O => [] | Some n => drop (S n) filename end.
Definition content_types : list (list byte * list byte) :=
  [(text "jpeg", text "image/jpeg"); (text "png", text "image/png"); (text "jpg", text "image/jpeg"); (text "gif", text "image/gif");
   (text "htm", text "text/html"); (text "html", text "text/html"); (text "js", text "application/javascript"); (text "css", text "text/css");
   (text "txt", text "text/plain"); (text "mp4", text "video/mpeg4")].
Fixpoint try_set_content_type (types : list (list byte * list byte)) (file_ext : list byte) (r : HttpResponse) : HttpResponse :=
  match types with
  | [] => r
  | (suffix, t) :: types' => if decide (suffix = file_ext) then setContentType t r else try_set_content_type types' file_ext r
  end.
(** [char small_case_path[1024]; strcpy(...)]: the copy includes the NUL. *)
Definition small_case_path_size : nat := 1024.
Definition setContentTypeByPath (path : list byte) : M HttpResponse unit :=
  if decide (length (c_str path) < small_case_path_size)%nat
  then modify (try_set_content_type content_types (get_filename_ext (strtolower (c_str path))))
  else faults undefined_behaviour.

(** [std::back_inserter] on a [flex_buffer] calls [push_back] for each char. *)
Fixpoint back_insert (l : list byte) : M buffer unit :=
  match l with [] => M_ret tt | c :: l' => flex_push_back_char c;; back_insert l' end.
Fixpoint append_headers (hs : headers) : M buffer unit :=
  match hs with [] => M_ret tt | h :: hs' => back_insert (print_header h);; append_headers hs' end.
Definition appendToBuffer (r : HttpResponse) : M buffer unit :=
  back_insert (text "HTTP/1.0 " ++ itoad (status_value (statusCode_ r)) ++ [x20] ++ statusMessage_ r ++ CRLF);;
  back_insert (if closeConnection_ r then text "Connection: close" ++ CRLF else text "Connection: Keep-Alive" ++ CRLF);;
  append_headers (rheaders_ r);;
  back_insert CRLF.

(** * [http_server.cpp] *)

(** What the kernel answers when a path is opened and its status queried, and
    to each read of the file into a buffer of the pool. *)
Inductive file_answer : Type := OpenFails (errno : Z) | StatFails (errno : Z) | Opened (st : statx) (data : list byte).
Inductive read_reply : Type := Chunk (n : nat) | ReadFails (errno : Z).

Record session : Type := mk_session {
  ctx : HttpContext; read_buffer : buffer; sent : list byte; sends : list send_reply; freads : list read_reply }.
(** A coroutine that has ended, or still waits for the kernel. *)
Inductive flow (A : Type) : Type := Done (o : outcome A) | Waiting.
Arguments Done {A} o.
Arguments Waiting {A}.
Definition W (A : Type) : Type := session -> flow A * session.
Definition W_ret {A} (a : A) : W A := fun s => (Done (Val a), s).
Definition W_throw {A} (e : exn) : W A := fun s => (Done (Exn e), s).
Definition W_bind {A B} (k : A -> W B) (m : W A) : W B := fun s =>
  match m s with
  | (Done (Val a), s') => k a s'
  | (Done (Exn e), s') => (Done (Exn e), s')
  | (Done (Fault f), s') => (Done (Fault f), s')
  | (Waiting, s') => (Waiting, s')
  end.
(** A computation that does not suspend and does not touch the session. *)
Definition lift {A} (o : outcome A) : W A := fun s => (Done o, s).
Notation "'await' x := m 'in' k" := (W_bind (fun x => k) m) (at level 10, x pattern, m at level 100, k at level 200) : cpp_scope.
Notation "m ';!' k" := (W_bind (fun _ => k) m) (at level 100, k at level 200, right associativity) : cpp_scope.

(** [co_await write_all(conn, &b)]. *)
Definition write_all_conn (b : buffer) : W unit := fun s =>
  match write_all (sends s) (mk_conn b (sent s)) with
  | Returned o c rest => (Done o, mk_session (ctx s) (read_buffer s) (wire c) rest (freads s))
  | Suspended c => (Waiting, mk_session (ctx s) (read_buffer s) (wire c) [] (freads s))
  end.
Definition send_header (res : HttpResponse) : W unit :=
  let r := appendToBuffer res (new_flex_buffer 512) in
  lift r.1 ;! write_all_conn r.2.
Definition send_bad_request (res : HttpResponse) : W unit := send_header (setStatusCode k400BadRequest res).

(** [pool->read(file, GID, off)]: at most a block, an exception at the end. *)
Definition BUFFER_BLOCK_SIZE : nat := 2048.
Definition read_block (data : list byte) (off : nat) (r : read_reply) : outcome (list byte) :=
  match r with
  | Chunk n => let bs := take (Nat.min n BUFFER_BLOCK_SIZE) (drop off data) in
      if decide (bs = []) then Exn (system_error 0) else Val bs
  | ReadFails errno => Exn (system_error errno)
  end.
Definition set_freads (rs : list read_reply) : W unit := fun s => (Done (Val tt), mk_session (ctx s) (read_buffer s) (sent s) (sends s) rs).
(** The loop of [send_file]; the block is a buffer with its bytes readable. *)
Fixpoint send_blocks (data : list byte) (total_size sent_bytes : Z) (rs : list read_reply) : W unit :=
  if sent_bytes <? total_size then
    match rs with
    | [] => fun s => (Waiting, s)
    | r :: rs' =>
      set_freads rs' ;!
      await bf := lift (read_block data (Z.to_nat sent_bytes) r) in
      write_all_conn (buffer_of bf) ;!
      send_blocks data total_size (sent_bytes + Z.of_nat (length bf)) rs'
    end
  else W_ret tt.

Definition S_ISDIR (mode : Z) : bool := Z.land mode 61440 =? 16384.

Section Server.
Context (open_path : list byte -> file_answer).

Definition send_file (res : HttpResponse) (path : list byte) : W unit :=
  if decide (path = text "public/bench") then send_header (setStatusCode k404NotFound res)
  else
    match open_path (c_str path) with
    | OpenFails _ | StatFails _ => W_ret tt
    | Opened st data =>
      let dir := S_ISDIR (stx_mode st) in
      let total_size := if dir then 0 else swrap 64 (stx_size st) in
      let res1 := setStatusCode (if dir then k404NotFound else k200Ok) res in
      await res2 := (if 0 <? total_size
        then (let r := setContentTypeByPath path res1 in lift r.1 ;! W_ret (setContentLength total_size r.2)) else W_ret res1) in
      send_header res2 ;!
      (if total_size =? 0 then W_ret tt
       else fun s => send_blocks data total_size 0 (freads s) s)
    end.

(** One turn of the loop of [do_http], up to the reset: whether to close. *)
Definition set_buffer (c : HttpContext) (b : buffer) (w : list byte) (s : session) : session := mk_session c b w (sends s) (freads s).
Definition http_turn (r : recv_reply) : W bool := fun s =>
  match read_some flex_buffer r (mk_conn (read_buffer s) (sent s)) with
  | (Val _, c) =>
    let p := parseRequest (S (length (contents (buf c)))) (ctx s, buf c) in
    let s' := set_buffer p.2.1 p.2.2 (wire c) s in
    match p.1 with
    | Val (Some false) => (send_bad_request (setCloseConnection true new_response) ;! W_ret true) s'
    | Val (Some true) =>
      if gotAll (ctx s') then
        let close := keepalive (request_ (ctx s')) in
        (send_file (setCloseConnection close new_response) (path_ (request_ (ctx s'))) ;! W_ret close) s'
      else (Done (Val false), s')
    | Val None => (Waiting, s')
    | Exn e => (Done (Exn e), s')
    | Fault f => (Done (Fault f), s')
    end
  | (Exn e, c) => (Done (Exn e), set_buffer (ctx s) (buf c) (wire c) s)
  | (Fault f, c) => (Done (Fault f), set_buffer (ctx s) (buf c) (wire c) s)
  end.
Definition reset_session (s : session) : session := set_buffer (context_reset (ctx s)) (read_buffer s) (sent s) s.
(** [do_http]: the kernel's answers to the reads, one per turn.  Exceptions are
    caught and end the connection. *)
Fixpoint do_http (close : bool) (rs : list recv_reply) : W unit := fun s =>
  if close then (Done (Val tt), s)
  else match rs with
  | [] => (Waiting, s)
  | r :: rs' =>
    match http_turn r s with
    | (Done (Val close'), s') => do_http close' rs' (reset_session s')
    | (Done (Exn _), s') => (Done (Val tt), s')
    | (Done (Fault f), s') => (Done (Fault f), s')
    | (Waiting, s') => (Waiting, s')
    end
  end.
End Server.
Definition new_session (ss : list send_reply) (fs : list read_reply) : session :=
  mk_session new_context (new_flex_buffer BUFFER_BLOCK_SIZE) [] ss fs.

(** * The response *)

Definition render_response (r : HttpResponse) : list byte :=
  text "HTTP/1.0 " ++ itoad (status_value (statusCode_ r)) ++ [x20] ++ statusMessage_ r ++ CRLF ++
  (if closeConnection_ r then text "Connection: close" ++ CRLF else text "Connection: Keep-Alive" ++ CRLF) ++
  concat (print_header <$> rheaders_ r) ++ CRLF.

(** Appending keeps a buffer whose first byte is unread at offset 0. *)
Definition appends (m : M buffer unit) (out : list byte) : Prop := forall b, wf b -> index_read_ b = 0 ->
  readable b + Z.of_nat (length out) <= PTRDIFF_MAX ->
  exists b', m b = (Val tt, b') /\ wf b' /\ index_read_ b' = 0 /\ contents b' = contents b ++ out.

Lemma appends_bind m1 m2 o1 o2 : appends m1 o1 -> appends m2 o2 -> appends (m1 ;; m2) (o1 ++ o2).
Proof.
  intros H1 H2 b Hw Hi Hr. rewrite length_app in Hr. destruct (H1 b Hw Hi ltac:(lia)) as (b1 & E1 & Hw1 & Hi1 & Hc1).
  pose proof (length_contents b Hw) as L0. pose proof (length_contents b1 Hw1) as L1. rewrite Hc1, length_app in L1.
  destruct (H2 b1 Hw1 Hi1 ltac:(lia)) as (b2 & E2 & Hw2 & Hi2 & Hc2). exists b2. rewrite (M_bind_val _ _ _ _ _ E1).
  split_and!; [done.. |]. by rewrite Hc2, Hc1, app_assoc.
Qed.
Lemma appends_nil : appends (M_ret tt) [].
Proof. intros b Hw Hi _. exists b. by rewrite app_nil_r. Qed.
Lemma appends_char c : appends (flex_push_back_char c) [c].
Proof.
  intros b Hw Hi Hr. unfold flex_push_back_char. rewrite push_back_char_eq.
  destruct (flex_push_back_succeeds [c] b Hw ltac:(cbn in *; lia)) as [b' E]. exists b'. split; [done|].
  pose proof (push_back_wf flex_buffer [c] b Hw ltac:(vm_compute; discriminate)) as Hp. rewrite E in Hp. destruct Hp as (H1 & H2 & H3).
  by rewrite H3, head_bytes_at_zero.
Qed.
Lemma appends_text l : appends (back_insert l) l.
Proof. induction l as [|c l IH]; [apply appends_nil|]. apply (appends_bind _ _ [c]); [apply appends_char | exact IH]. Qed.
Lemma appends_headers hs : appends (append_headers hs) (concat (print_header <$> hs)).
Proof. induction hs as [|h hs IH]; [apply appends_nil|]. apply appends_bind; [apply appends_text | exact IH]. Qed.
Lemma appends_response r : appends (appendToBuffer r) (render_response r).
Proof.
  unfold appendToBuffer, render_response.
  replace (text "HTTP/1.0 " ++ itoad (status_value (statusCode_ r)) ++ [x20] ++ statusMessage_ r ++ CRLF ++
    (if closeConnection_ r then text "Connection: close" ++ CRLF else text "Connection: Keep-Alive" ++ CRLF) ++
    concat (print_header <$> rheaders_ r) ++ CRLF)
  with ((text "HTTP/1.0 " ++ itoad (status_value (statusCode_ r)) ++ [x20] ++ statusMessage_ r ++ CRLF) ++
    (if closeConnection_ r then text "Connection: close" ++ CRLF else text "Connection: Keep-Alive" ++ CRLF) ++
    concat (print_header <$> rheaders_ r) ++ CRLF) by (by rewrite <- !app_assoc).
  apply appends_bind; [apply appends_text|]. apply appends_bind; [apply appends_text|].
  apply appends_bind; [apply appends_headers | apply appends_text].
Qed.

(** * What a coroutine sends *)

(** What is left of the answers is a part of them; each normal return has used
    at most one per byte. *)
Lemma write_all_rest rs : forall c o c' rest, wf (buf c) -> readable (buf c) < 2 ^ 32 -> Forall send_ok rs -> SendFailed EINTR ∉ rs ->
  write_all rs c = Returned o c' rest -> exists used, rs = used ++ rest /\ (o = Val tt -> (length used <= length (contents (buf c)))%nat).
Proof.
  induction rs as [|r rs IH]; intros c o c' rest Hwf Hrd Hok Hne; cbn [write_all]; pose proof (length_contents _ Hwf) as Hlc;
    (destruct (Z.eqb_spec (readable (buf c)) 0) as [H0|H0]; [intros [= <- <- <-]; exists []; cbn; split; [done | lia]|]); [done|].
  apply Forall_cons in Hok as [Hr Hok]. apply not_elem_of_cons in Hne as [Hn Hne].
  pose proof (write_turn_spec r c Hwf ltac:(lia) Hr (not_eq_sym Hn)) as Ht. destruct (write_turn r c) as [[n|e|f] c1]; [| |done].
  - destruct Ht as (Hwf1 & Hn1 & Hw1 & Hc1 & _). pose proof (length_contents _ Hwf1) as Hlc1. rewrite Hc1, length_drop in Hlc1. intros E.
    destruct (IH c1 o c' rest Hwf1 ltac:(lia) Hok Hne E) as (used & -> & Hu). exists (r :: used). split; [done|]. intros Eo.
    specialize (Hu Eo). rewrite Hc1, length_drop in Hu. cbn. lia.
  - intros [= <- <- <-]. exists [r]. by split.
Qed.

Definition read_ok (r : read_reply) : Prop := match r with Chunk n => (0 < n)%nat | ReadFails e => 0 < e end.
Definition streams_ok (s : session) : Prop := Forall send_ok (sends s) /\ SendFailed EINTR ∉ sends s /\ Forall read_ok (freads s).
Definition accepted (r : send_reply) : Prop := match r with Accepted _ => True | _ => False end.
Definition is_chunk (r : read_reply) : Prop := match r with Chunk _ => True | _ => False end.
(** The kernel will take at least [a] more sends and deliver [f] more blocks. *)
Definition willing (a f : nat) (s : session) : Prop :=
  Forall accepted (sends s) /\ (a <= length (sends s))%nat /\ Forall is_chunk (freads s) /\ (f <= length (freads s))%nat.
Definition same_parser (s s' : session) : Prop := ctx s' = ctx s /\ read_buffer s' = read_buffer s.

(** From [s], [m] sends [out], or a prefix of it when it fails or waits; it
    does not fail or wait if the kernel is willing often enough. *)
Definition emits {A} (m : W A) (out : list byte) (reads : nat) (post : A -> session -> Prop) (s : session) : Prop :=
  exists fl s' part, m s = (fl, s') /\ same_parser s s' /\ sent s' = sent s ++ part /\ part `prefix_of` out /\ streams_ok s' /\
    match fl with Done (Val a) => part = out /\ post a s' | Done (Fault _) => False | _ => True end /\
    forall a f, willing a f s -> (length out <= a)%nat -> (reads <= f)%nat ->
      (exists v, fl = Done (Val v)) /\ willing (a - length out) (f - reads) s'.

Lemma same_parser_trans s1 s2 s3 : same_parser s1 s2 -> same_parser s2 s3 -> same_parser s1 s3.
Proof. unfold same_parser. intros [-> ->] [-> ->]. done. Qed.

Lemma emits_bind {A B} (m : W A) (k : A -> W B) o1 o2 r1 r2 P Q s : emits m o1 r1 P s ->
  (forall a s', P a s' -> streams_ok s' -> emits (k a) o2 r2 Q s') -> emits (W_bind k m) (o1 ++ o2) (r1 + r2) Q s.
Proof.
  intros (fl & s1 & part & E & Hp & Hs & Hpre & Hok & Hfl & Hw) Hk. unfold emits, W_bind. rewrite E.
  assert (Hstop : (forall v, fl <> Done (Val v)) -> forall fl' : flow B, match fl' with Done (Val _) | Done (Fault _) => False | _ => True end ->
    emits (fun _ => (fl', s1)) (o1 ++ o2) (r1 + r2) Q s).
  { intros Hne fl' Hfl'. exists fl', s1, part. split_and!; [done.. | by apply prefix_app_r | done | |].
    - by destruct fl' as [[]|].
    - intros a f Hwill Ha Hf. rewrite length_app in Ha. destruct (Hw a f Hwill ltac:(lia) ltac:(lia)) as [[v ->] _]. by destruct (Hne v). }
  destruct fl as [[a|e|f]|]; [|by apply (Hstop ltac:(done) (Done (Exn e))) | done | by apply (Hstop ltac:(done) Waiting)].
  destruct Hfl as [-> HP]. destruct (Hk a s1 HP Hok) as (fl2 & s2 & p2 & E2 & Hp2 & Hs2 & Hpre2 & Hok2 & Hfl2 & Hw2).
  exists fl2, s2, (o1 ++ p2). split_and!; [exact E2 | by eapply same_parser_trans | by rewrite Hs2, Hs, app_assoc | by apply prefix_app | done | |].
  - destruct fl2 as [[]|]; try done. destruct Hfl2 as [-> ?]. done.
  - intros n f Hwill Hn Hf. rewrite length_app in Hn. destruct (Hw n f Hwill ltac:(lia) ltac:(lia)) as [_ Hwill2].
    destruct (Hw2 _ _ Hwill2 ltac:(lia) ltac:(lia)) as [Hv Hwill3]. split; [done|]. rewrite length_app.
    replace (n - (length o1 + length o2))%nat with (n - length o1 - length o2)%nat by lia. by replace (f - (r1 + r2))%nat with (f - r1 - r2)%nat by lia.
Qed.
Lemma emits_ret {A} (a : A) (P : A -> session -> Prop) s : streams_ok s -> P a s -> emits (W_ret a) [] 0 P s.
Proof.
  intros Hs HP. exists (Done (Val a)), s, []. split_and!; [done | done | by rewrite app_nil_r | done.. |].
  intros n f Hw _ _. split; [by eexists|]. by rewrite !Nat.sub_0_r.
Qed.
Lemma emits_more {A} (m : W A) out r1 r2 P Q s : emits m out r1 P s -> (r1 <= r2)%nat -> (forall a s', P a s' -> Q a s') -> emits m out r2 Q s.
Proof.
  intros (fl & s1 & part & E & Hp & Hs & Hpre & Hok & Hfl & Hw) Hr HPQ. exists fl, s1, part. split_and!; try done.
  - destruct fl as [[]|]; try done. destruct Hfl. auto.
  - intros n f Hwill Hn Hf. destruct (Hw n f Hwill Hn ltac:(lia)) as [Hv (W1 & W2 & W3 & W4)]. split; [done|]. split_and!; try done. lia.
Qed.

(** Nothing on the wire is taken back. *)
Lemma write_all_appends rs : forall c, wf (buf c) -> readable (buf c) < 2 ^ 32 -> Forall send_ok rs -> SendFailed EINTR ∉ rs ->
  wire c `prefix_of` wire (conn_of (write_all rs c)).
Proof.
  induction rs as [|r rs IH]; intros c Hwf Hrd Hok Hne; cbn [write_all]; pose proof (length_contents _ Hwf) as Hlc;
    (destruct (Z.eqb_spec (readable (buf c)) 0) as [H0|H0]; [done|]); [done|].
  apply Forall_cons in Hok as [Hr Hok]. apply not_elem_of_cons in Hne as [Hn Hne].
  pose proof (write_turn_spec r c Hwf ltac:(lia) Hr (not_eq_sym Hn)) as Ht. destruct (write_turn r c) as [[n|e|f] c1]; [|by destruct Ht as [-> _] | done].
  destruct Ht as (Hwf1 & Hn1 & Hw1 & Hc1 & _). pose proof (length_contents _ Hwf1) as Hlc1. rewrite Hc1, length_drop in Hlc1.
  specialize (IH c1 Hwf1 ltac:(lia) Hok Hne). rewrite Hw1 in IH. eapply prefix_app_l, IH.
Qed.
Lemma write_all_emits b s : wf b -> readable b < 2 ^ 32 -> streams_ok s ->
  emits (write_all_conn b) (contents b) 0 (fun _ s' => freads s' = freads s) s.
Proof.
  intros Hwf Hrd (H1 & H2 & H3). unfold emits, write_all_conn. set (c := mk_conn b (sent s)).
  pose proof (write_all_inv (sends s) c Hwf Hrd H1 H2) as Hi. destruct (write_all_appends (sends s) c Hwf Hrd H1 H2) as [part Hpart].
  assert (Hpre : forall c', sent s ++ part ++ contents (buf c') = sent s ++ contents b -> part `prefix_of` contents b)
    by (intros c' E%app_inv_head; rewrite <- E; by apply prefix_app_r).
  destruct (write_all (sends s) c) as [o c' rest|c'] eqn:E; cbn [conn_of] in Hpart; cbn [c wire buf] in Hi, Hpart.
  - destruct (write_all_rest (sends s) c o c' rest Hwf Hrd H1 H2 E) as (used & Eu & Hu). cbn [c buf] in Hu. set (s' := mk_session _ _ _ _ _).
    assert (Hok : streams_ok s').
    { unfold streams_ok. cbn. rewrite Eu in H1, H2. split_and!; [by apply Forall_app in H1 as [_ H1] | by apply not_elem_of_app in H2 as [_ H2] | done]. }
    exists (Done o), s', part. split; [done|]. split; [done|]. split; [exact Hpart|]. destruct o as [[]|e|f]; [| |done].
    + destruct Hi as (_ & _ & Hw). rewrite Hpart in Hw. apply app_inv_head in Hw as ->. split_and!; [done..|].
      intros a f (W1 & W2 & W3 & W4) Ha _. split; [by eexists|]. specialize (Hu eq_refl). rewrite Eu, length_app in W2. rewrite Eu in W1.
      apply Forall_app in W1 as [_ W1]. split_and!; cbn; [done | lia | done | lia].
    + destruct Hi as (_ & Hw & _ & He). rewrite Hpart, <- app_assoc in Hw. split_and!; [by apply (Hpre c') | done | done |].
      intros a f (W1 & _) _ _. exfalso. rewrite Forall_forall in W1. destruct He as [[_ He]|(x & _ & He)]; exact (W1 _ He).
  - destruct Hi as (_ & Hw & Hl & Hne). rewrite Hpart, <- app_assoc in Hw. set (s' := mk_session _ _ _ _ _).
    exists Waiting, s', part. split_and!; [done | done | exact Hpart | by apply (Hpre c') | | done |].
    + split_and!; [by apply Forall_nil | apply not_elem_of_nil | done].
    + intros a f (_ & W2 & _) Ha _. exfalso. destruct (contents (buf c')); [done|]. cbn [length] in *. lia.
Qed.

Lemma emits_lift {A} (a : A) (P : A -> session -> Prop) s : streams_ok s -> P a s -> emits (lift (Val a)) [] 0 P s.
Proof. apply (emits_ret a P s). Qed.

Lemma itoad_loop_length n : forall i, (length (itoad_loop n i) <= n)%nat.
Proof. induction n as [|n IH]; intros i; cbn; [lia|]. destruct (_ =? 0); cbn; [lia|]. specialize (IH (Z.quot i 10)). lia. Qed.

Lemma send_header_emits res s : Z.of_nat (length (render_response res)) < 2 ^ 32 -> streams_ok s ->
  emits (send_header res) (render_response res) 0 (fun _ s' => freads s' = freads s) s.
Proof.
  intros Hlen Hs. assert (Hw : wf (new_flex_buffer 512)) by (vm_compute; split_and!; discriminate).
  assert (Hr : readable (new_flex_buffer 512) = 0) by reflexivity.
  destruct (appends_response res (new_flex_buffer 512) Hw eq_refl ltac:(rewrite Hr; unfold PTRDIFF_MAX; lia)) as (b & E & Hwb & _ & Hc).
  unfold send_header. rewrite E. cbn [fst snd]. change (contents (new_flex_buffer 512)) with (@nil byte) in Hc. cbn [app] in Hc. rewrite <- Hc.
  apply (emits_bind _ _ [] _ 0 0 (fun _ s' => s' = s)); [by apply emits_lift|]. intros _ s' -> _.
  apply write_all_emits; [done | | done]. rewrite <- length_contents by done. by rewrite Hc.
Qed.

(** One block of the file. *)
Lemma read_block_emits data off r rs s : streams_ok s -> freads s = r :: rs -> (off < length data)%nat ->
  emits (set_freads rs ;! lift (read_block data off r)) [] 1
    (fun bf s' => freads s' = rs /\ exists n, (0 < n)%nat /\ bf = take n (drop off data) /\ (n <= BUFFER_BLOCK_SIZE)%nat) s.
Proof.
  intros (H1 & H2 & H3) Er Ho. rewrite Er in H3. apply Forall_cons in H3 as [Hr H3].
  exists (Done (read_block data off r)), (mk_session (ctx s) (read_buffer s) (sent s) (sends s) rs), [].
  assert (Hbs : forall n, (0 < n)%nat -> take (Nat.min n BUFFER_BLOCK_SIZE) (drop off data) <> []).
  { intros n Hn E. apply (f_equal length) in E. rewrite length_take, length_drop in E. unfold BUFFER_BLOCK_SIZE in E. cbn [length] in E. lia. }
  assert (Ev : read_ok r -> forall n, r = Chunk n -> read_block data off r = Val (take (Nat.min n BUFFER_BLOCK_SIZE) (drop off data))).
  { intros Hn n ->. unfold read_block. cbn in Hn. by rewrite decide_False by auto. }
  split_and!; [ | done | by rewrite app_nil_r | done | by split_and! | |].
  - unfold W_bind, set_freads, lift. by destruct (read_block data off r).
  - destruct r as [n|e]; [|done]. rewrite (Ev Hr n eq_refl). split; [done|]. split; [done|]. exists (Nat.min n BUFFER_BLOCK_SIZE).
    cbn in Hr. unfold BUFFER_BLOCK_SIZE. split_and!; [lia | done | lia].
  - intros a f (W1 & W2 & W3 & W4) _ Hf. rewrite Er in W3, W4. apply Forall_cons in W3 as [W W3]. destruct r as [n|e]; [|done].
    split; [rewrite (Ev Hr n eq_refl); by eexists|]. cbn in W4. split_and!; cbn; try done; lia.
Qed.

Lemma W_assoc {A B C} (m1 : W A) (m2 : A -> W B) (k : B -> W C) out reads P s :
  emits (W_bind k (W_bind m2 m1)) out reads P s -> emits (W_bind (fun x => W_bind k (m2 x)) m1) out reads P s.
Proof. unfold emits, W_bind. by destruct (m1 s) as [[[]|] s1]. Qed.

Lemma send_blocks_emits data rs : forall off s, streams_ok s -> freads s = rs -> (off <= length data)%nat ->
  emits (send_blocks data (Z.of_nat (length data)) (Z.of_nat off) rs) (drop off data) (length data - off) (fun _ _ => True) s.
Proof.
  assert (Hend : forall off s, (length data <= off)%nat -> streams_ok s -> emits (W_ret tt) (drop off data) (length data - off) (fun _ _ => True) s).
  { intros off s Ho Hs. rewrite drop_ge by lia. apply (emits_more _ _ 0 _ (fun _ _ => True)); [by apply emits_ret | lia | done]. }
  induction rs as [|r rs IH]; intros off s Hs Er Ho; cbn [send_blocks];
    (destruct (Z.ltb_spec (Z.of_nat off) (Z.of_nat (length data))) as [Hlt|Hge]; [|apply Hend; [lia | done]]).
  - exists Waiting, s, []. split_and!; [done | done | by rewrite app_nil_r | apply prefix_nil | done | done |].
    intros a f (_ & _ & _ & W) _ Hf. rewrite Er in W. cbn in W. lia.
  - rewrite Nat2Z.id. apply W_assoc. replace (length data - off)%nat with (1 + (length data - off - 1))%nat by lia.
    apply (emits_bind _ _ [] (drop off data) 1 (length data - off - 1) _ _ _ (read_block_emits data off r rs s Hs Er ltac:(lia))).
    intros bf s1 (Er1 & n & Hn & -> & Hb) Hs1. unfold BUFFER_BLOCK_SIZE in Hb. set (bf := take n (drop off data)).
    assert (Hl : length bf = Nat.min n (length data - off)) by (unfold bf; by rewrite length_take, length_drop).
    destruct (buffer_of_ok bf ltac:(lia)) as [Hwb Hcb].
    replace (drop off data) with (contents (buffer_of bf) ++ drop (off + length bf) data).
    2: { rewrite Hcb, Hl, <- drop_drop. unfold bf. destruct (Nat.le_ge_cases n (length data - off)).
         - rewrite Nat.min_l by done. apply take_drop.
         - rewrite take_ge by (rewrite length_drop; lia). rewrite (drop_ge (drop off data)) by (rewrite length_drop; lia). apply app_nil_r. }
    apply (emits_more _ _ (0 + (length data - (off + length bf))) _ (fun _ _ => True)); [|lia | done].
    refine (emits_bind (write_all_conn (buffer_of bf)) _ (contents (buffer_of bf)) (drop (off + length bf) data) 0 _ (fun _ s' => freads s' = freads s1) _ s1 _ _).
    + apply write_all_emits; [done | | done]. rewrite <- length_contents by done. rewrite Hcb. lia.
    + intros _ s2 Er2 Hs2. rewrite <- Nat2Z.inj_add. apply IH; [done | congruence | lia].
Qed.

(** * What the server answers *)

(** The file has the size its status says. *)
Definition answer_ok (a : file_answer) : Prop :=
  match a with Opened st data => stx_size st = Z.of_nat (length data) /\ stx_size st < 2 ^ 63 | _ => True end.
Definition header_for (st : statx) (path : list byte) (res : HttpResponse) : HttpResponse :=
  if S_ISDIR (stx_mode st) then setStatusCode k404NotFound res
  else let ok := setStatusCode k200Ok res in
  if 0 <? stx_size st
  then setContentLength (stx_size st) (try_set_content_type content_types (get_filename_ext (strtolower (c_str path))) ok)
  else ok.
Definition file_response (close : bool) (path : list byte) (a : file_answer) : list byte :=
  let res := setCloseConnection close new_response in
  if decide (path = text "public/bench") then render_response (setStatusCode k404NotFound res)
  else match a with
  | OpenFails _ | StatFails _ => []
  | Opened st data => render_response (header_for st path res) ++ (if S_ISDIR (stx_mode st) then [] else data)
  end.

(** The headers stay small. *)
Lemma content_type_cases types ext r : Forall (fun t => (length t.2 <= 30)%nat) types ->
  try_set_content_type types ext r = r \/ exists t, (length t <= 30)%nat /\ try_set_content_type types ext r = setContentType t r.
Proof.
  induction 1 as [|[suf t] types Ht Hts IH]; cbn; [by left|]. case_decide; [right; by exists t | done].
Qed.
Lemma render_ok_length hs close : (length (render_response (mk_response hs k200Ok (text "OK") close)) <= length (concat (print_header <$> hs)) + 60)%nat.
Proof.
  unfold render_response. cbn [statusCode_ statusMessage_ closeConnection_ rheaders_]. rewrite !length_app.
  change (length (text "HTTP/1.0 ")) with 9%nat. change (length (itoad (status_value k200Ok))) with 3%nat. change (length [x20]) with 1%nat.
  change (length (text "OK")) with 2%nat. change (length CRLF) with 2%nat.
  set (n := length (if close then _ else _)). assert (n <= 30)%nat by (by destruct close; apply Nat.leb_le). lia.
Qed.
Lemma header_for_small st path close : Z.of_nat (length (render_response (header_for st path (setCloseConnection close new_response)))) < 2 ^ 32.
Proof.
  assert (Hts : (length (to_string (stx_size st)) <= 20)%nat) by (unfold to_string; rewrite length_reverse; apply itoad_loop_length).
  assert (Hb : forall hs, (length (concat (print_header <$> hs)) <= 200)%nat ->
    Z.of_nat (length (render_response (mk_response hs k200Ok (text "OK") close))) < 2 ^ 32).
  { intros hs Hhs. pose proof (render_ok_length hs close). lia. }
  unfold header_for. destruct (S_ISDIR (stx_mode st)); [by destruct close|]. destruct (0 <? stx_size st); [|by destruct close].
  destruct (content_type_cases content_types (get_filename_ext (strtolower (c_str path))) (setStatusCode k200Ok (setCloseConnection close new_response)))
    as [->|(t & Ht & ->)]; [repeat constructor; by apply Nat.leb_le | |]; unfold setContentLength; generalize dependent (to_string (stx_size st)); intros n Hn.
  - apply (Hb [(text "Content-Length", n)]). cbn [fmap list_fmap concat]. unfold print_header. rewrite !length_app. cbn. lia.
  - apply (Hb [(text "Content-Length", n); (text "Content-Type", t)]). cbn [fmap list_fmap concat]. unfold print_header. rewrite !length_app. cbn. lia.
Qed.

Section Serving.
Context (open_path : list byte -> file_answer) (answers : forall p, answer_ok (open_path p)).

Definition data_of (a : file_answer) : nat := match a with Opened _ data => length data | _ => 0 end.

Lemma send_file_emits close path s : (length (c_str path) < small_case_path_size)%nat -> streams_ok s ->
  emits (send_file open_path (setCloseConnection close new_response) path) (file_response close path (open_path (c_str path)))
    (data_of (open_path (c_str path))) (fun _ _ => True) s.
Proof.
  intros Hp Hs. unfold send_file, file_response. case_decide as Hbench.
  { apply (emits_more _ _ 0 _ (fun _ s' => freads s' = freads s)); [|lia | done].
    apply send_header_emits; [by destruct close | done]. }
  pose proof (answers (c_str path)) as Ha. destruct (open_path (c_str path)) as [e|e|st data]; [by apply emits_ret | by apply emits_ret|].
  cbn [answer_ok data_of] in *. destruct Ha as [Hsz Hmax]. set (res := setCloseConnection close new_response).
  set (total := if S_ISDIR (stx_mode st) then 0 else swrap 64 (stx_size st)).
  assert (Ht : total = if S_ISDIR (stx_mode st) then 0 else stx_size st).
  { unfold total. destruct (S_ISDIR (stx_mode st)); [done|]. apply swrap_small; [lia|]. unfold in_s. lia. }
  refine (emits_bind _ _ [] _ 0 (length data) (fun r s' => r = header_for st path res /\ s' = s) _ s _ _).
  { unfold header_for. rewrite Ht. destruct (S_ISDIR (stx_mode st)); [by apply emits_ret|]. destruct (0 <? stx_size st); [|by apply emits_ret].
    unfold setContentTypeByPath. rewrite decide_True by done. cbn [modify fst snd].
    apply (emits_bind _ _ [] [] 0 0 (fun _ s' => s' = s)); [by apply emits_lift|]. intros _ s' -> _. by apply emits_ret. }
  intros r s1 [-> ->] _.
  refine (emits_bind _ _ _ _ 0 (length data) (fun _ s' => freads s' = freads s) _ s _ _).
  { apply send_header_emits; [apply header_for_small | done]. }
  intros _ s2 _ Hs2. rewrite Ht. destruct (S_ISDIR (stx_mode st)).
  { apply (emits_more _ _ 0 _ (fun _ _ => True)); [by apply emits_ret | lia | done]. }
  destruct (Z.eqb_spec (stx_size st) 0) as [E0|Hne].
  { assert (data = []) as -> by (apply nil_length_inv; lia). by apply emits_ret. }
  pose proof (send_blocks_emits data (freads s2) 0 s2 Hs2 eq_refl ltac:(lia)) as Hb. rewrite Hsz. rewrite drop_0, Nat.sub_0_r in Hb. exact Hb.
Qed.

(** Between two requests: a reset context and an empty, rewound buffer. *)
Definition idle (s : session) : Prop :=
  ctx s = new_context /\ wf (read_buffer s) /\ index_read_ (read_buffer s) = 0 /\ index_write_ (read_buffer s) = 0 /\
  size (read_buffer s) = Z.of_nat BUFFER_BLOCK_SIZE.

(** A request that fits into the buffer arrives at once. *)
Lemma read_request bs s : idle s -> bs <> [] -> (length bs <= BUFFER_BLOCK_SIZE)%nat ->
  exists b, read_some flex_buffer (Received bs) (mk_conn (read_buffer s) (sent s)) = (Val (Z.of_nat (length bs)), mk_conn b (sent s)) /\
    wf b /\ contents b = bs /\ size b = Z.of_nat BUFFER_BLOCK_SIZE.
Proof.
  intros (_ & Hwf & Hr & Hw & Hsz) Hne Hl. destruct (read_buffer s) as [c ir iw]. cbn in Hr, Hw. subst ir iw. unfold size in Hsz. cbn in Hsz.
  unfold BUFFER_BLOCK_SIZE in *. exists (mk_buffer (splice 0 bs c) 0 (Z.of_nat (length bs))).
  assert (Hpos : 0 < Z.of_nat (length bs)) by (destruct bs; cbn; [done | lia]).
  assert (Hwr : writable (mk_buffer c 0 0) = 2048) by (rewrite writable_wf by done; unfold size; cbn; lia).
  assert (Hsp : length (splice 0 bs c) = length c) by (apply length_splice; lia).
  split_and!.
  - unfold read_some, on_buf at 1, make_room, flex_buffer, flex_make_room, compact. run_M. rewrite Hwr. cbn [Z.ltb Z.compare fst snd].
    unfold recv_back, recv_some, on_buf. run_M. unfold back. cbn [buf index_write_]. rewrite Hwr.
    change (wrap 32 2048) with 2048. rewrite take_ge by lia. rewrite store_wf by (unfold size; cbn; lia). cbn.
    unfold check_received. rewrite (proj2 (Z.eqb_neq _ _)), (proj2 (Z.ltb_ge _ _)) by lia. cbn. unfold has_written. run_M.
    rewrite (wrap_small 64 (Z.of_nat (length bs))) by (unfold in_u; lia). by rewrite wrap_small by (unfold in_u; lia).
  - unfold wf, size in *. cbn in *. lia.
  - unfold contents. cbn. rewrite Nat2Z.id. change (length bs) with (0 + length bs)%nat. apply slice_splice_new. lia.
  - unfold size. cbn. lia.
Qed.

(** A request the server can take: well formed, no longer than a block, its
    path no longer than what [setContentTypeByPath] has room for. *)
Definition servable (r : HttpRequest) : Prop :=
  request_ok r /\ (length (print_request r) <= BUFFER_BLOCK_SIZE)%nat /\ (length (c_str (path_ r)) < small_case_path_size)%nat.
Definition response_to (r : HttpRequest) : list byte := file_response (keepalive r) (path_ r) (open_path (c_str (path_ r))).
Definition reads_for (r : HttpRequest) : nat := data_of (open_path (c_str (path_ r))).

Lemma http_turn_serves r s : idle s -> streams_ok s -> servable r ->
  exists b, let s1 := mk_session (mk_context kGotAll r) b (sent s) (sends s) (freads s) in
    http_turn open_path (Received (print_request r)) s = (send_file open_path (setCloseConnection (keepalive r) new_response) (path_ r) ;! W_ret (keepalive r)) s1 /\
    (forall s2, same_parser s1 s2 -> idle (reset_session s2)) /\
    emits (send_file open_path (setCloseConnection (keepalive r) new_response) (path_ r) ;! W_ret (keepalive r)) (response_to r) (reads_for r)
      (fun close _ => close = keepalive r) s1.
Proof.
  intros Hidle Hs (Hr & Hlen & Hpath). assert (Hne : print_request r <> []).
  { destruct (print_line_parses r Hr) as (line & -> & _). by destruct line. }
  destruct (read_request _ s Hidle Hne Hlen) as (b & Erd & Hwb & Hcb & Hsz).
  destruct (print_parses r [] b Hr Hwb ltac:(by rewrite app_nil_r)) as (b' & Ep & Hwb' & Hcb' & [Hcont Hrew]).
  destruct Hidle as (Hctx & _). exists b'. cbn zeta. split_and!.
  - unfold http_turn. rewrite Erd, Hctx. cbn [buf wire]. unfold parse_all in Ep. rewrite Ep. done.
  - intros s2 [E1 E2]. cbn in E1, E2. unfold idle, reset_session, set_buffer. cbn [ctx read_buffer]. rewrite E2.
    destruct (Hrew ltac:(intros E; congruence) Hcb') as [I1 I2]. split_and!; [done.. |]. unfold size in *. by rewrite Hcont.
  - unfold response_to, reads_for. rewrite <- (app_nil_r (file_response _ _ _)), <- (Nat.add_0_r (data_of _)).
    refine (emits_bind _ _ _ [] _ 0 (fun _ _ => True) _ _ _ _); [by apply send_file_emits|]. intros _ s' _ Hs'. by apply emits_ret.
Qed.

(** What should go out for a sequence of requests: the connection is closed
    after the first one whose [keepalive] says so. *)
Fixpoint responses (rs : list HttpRequest) : list byte :=
  match rs with [] => [] | r :: rs' => response_to r ++ (if keepalive r then [] else responses rs') end.
Definition total_reads (rs : list HttpRequest) : nat := sum_list (reads_for <$> rs).
Definition sends_close (rs : list HttpRequest) : Prop := Exists (fun r => keepalive r = true) rs.

(** [C3] The server answers each request with the file it names.  On a
    connection where each request is well formed, arrives in one piece that
    fits into a block of the pool and names a path shorter than the 1024 chars
    of [small_case_path] ([servable]; a longer path overruns that array,
    [content_type_buffer_bound]), whatever the kernel accepts of each send and
    delivers of each file, serving does not fault, and what is sent is always a
    prefix of the responses to the requests in order, up to the first that asks
    to close: status, headers and the whole file.  When the kernel keeps
    accepting and delivering, all of it is sent, and the connection ends
    exactly if a request asked for it. *)
Theorem server_answers_in_order reqs : forall s, idle s -> streams_ok s -> Forall servable reqs ->
  let p := do_http open_path false ((fun r => Received (print_request r)) <$> reqs) s in
  (exists part, sent p.2 = sent s ++ part /\ part `prefix_of` responses reqs) /\ (forall f, p.1 <> Done (Fault f)) /\
  (willing (length (responses reqs)) (total_reads reqs) s ->
     sent p.2 = sent s ++ responses reqs /\ (sends_close reqs -> p.1 = Done (Val tt)) /\ (~ sends_close reqs -> p.1 = Waiting)).
Proof.
  induction reqs as [|r reqs IH]; intros s Hi Hs Ha; cbn [fmap list_fmap do_http responses].
  { cbn. split_and!; [by exists []; rewrite app_nil_r | done |]. intros _. rewrite app_nil_r. split_and!; [done | intros Hx; inversion Hx | done]. }
  apply Forall_cons in Ha as [Hr Ha]. destruct (http_turn_serves r s Hi Hs Hr) as (b & Et & Hidle & Hem). cbn zeta in *. rewrite Et.
  set (s1 := mk_session _ _ _ _ _) in *. destruct Hem as (fl & s2 & part & E & Hp & Hsent & Hpre & Hok & Hfl & Hw). rewrite E. cbn [sent s1] in Hsent.
  assert (Hstop : (forall v, fl <> Done (Val v)) -> ~ willing (length (responses (r :: reqs))) (total_reads (r :: reqs)) s).
  { intros Hne (W1 & W2 & W3 & W4). cbn [responses] in W2. unfold total_reads in W4. cbn in W4. rewrite length_app in W2.
    destruct (Hw (length (response_to r)) (reads_for r)) as [[v ->] _]; [split_and!; cbn; try done; lia | lia | lia|]. by destruct (Hne v). }
  destruct fl as [[close|e|f]|]; [|split_and!; [exists part; split; [exact Hsent | by apply prefix_app_r] | done | intros Hx; by destruct (Hstop ltac:(done) Hx)]
    | done | split_and!; [exists part; split; [exact Hsent | by apply prefix_app_r] | done | intros Hx; by destruct (Hstop ltac:(done) Hx)]].
  destruct Hfl as [-> ->]. destruct (keepalive r) eqn:Ek.
  - assert (E' : do_http open_path true ((fun r => Received (print_request r)) <$> reqs) (reset_session s2) = (Done (Val tt), reset_session s2)) by (by destruct reqs).
    change (list_fmap _ _ _ reqs) with ((fun r => Received (print_request r)) <$> reqs). rewrite E'. cbn [fst snd reset_session set_buffer sent].
    rewrite app_nil_r. split_and!; [by exists (response_to r) | done |]. intros _. split_and!; [done | done |].
    intros Hx. destruct Hx. by apply Exists_cons_hd.
  - specialize (IH (reset_session s2) (Hidle s2 Hp) Hok Ha). cbn zeta in IH. cbn [reset_session set_buffer sent] in IH. rewrite Hsent in IH.
    change (list_fmap _ _ _ reqs) with ((fun r => Received (print_request r)) <$> reqs).
    destruct IH as ((p2 & H1 & H2) & H3 & H4). split_and!; [|done|].
    + exists (response_to r ++ p2). rewrite H1, app_assoc. split; [done | by apply prefix_app].
    + intros (W1 & W2 & W3 & W4). rewrite length_app in W2. unfold total_reads in W4. cbn in W4.
      destruct (Hw (length (responses (r :: reqs))) (total_reads (r :: reqs))) as [_ Hw2];
        [split_and!; cbn; rewrite ?Ek, ?length_app; try done; lia | cbn [responses]; rewrite length_app; lia | unfold total_reads; cbn; lia|].
      destruct H4 as (H5 & H6 & H7).
      { destruct Hw2 as (V1 & V2 & V3 & V4). cbn [responses] in V2. rewrite Ek, length_app in V2. unfold total_reads in V4. cbn in V4.
        split_and!; cbn; [exact V1 | lia | exact V3 | unfold total_reads; lia]. }
      rewrite H5, app_assoc. split_and!; [done | |].
      * intros Hx. apply H6. inversion Hx; [congruence | done].
      * intros Hx. apply H7. intros Hy. by apply Hx, Exists_cons_tl.
Qed.
End Serving.

(** A site of one page, and two requests for it. *)
Definition page : list byte := text "<p>hi</p>".
Definition site (path : list byte) : file_answer :=
  if decide (path = text "public/index.html") then Opened (mk_statx 33188 9) page else OpenFails 2.
Lemma site_ok p : answer_ok (site p).
Proof. unfold site. case_decide; [|done]. by split. Qed.
Definition get_page (version : Version) : HttpRequest := mk_request kGet version (text "public/index.html") [] [].
Lemma get_page_servable v : v <> kUnknown -> servable (get_page v).
Proof.
  intros Hv. unfold servable, request_ok, headers_ok, line_ok, sorted. split_and!; try done.
  - by left.
  - constructor.
  - exists (text "/index.html"). split; [done|]. split_and!; [done | vm_compute; set_solver.. | done].
  - apply Nat.leb_le. by destruct v.
  - by apply Nat.ltb_lt.
Qed.
Definition willing_session : session := new_session (replicate 400 (Accepted 7)) (replicate 400 (Chunk 4)).
Lemma willing_session_ok : idle willing_session /\ streams_ok willing_session /\ forall a f, (a <= 400)%nat -> (f <= 400)%nat -> willing a f willing_session.
Proof.
  assert (H1 : Forall accepted (replicate 400 (Accepted 7))) by (by apply Forall_replicate).
  assert (H2 : Forall is_chunk (replicate 400 (Chunk 4))) by (by apply Forall_replicate).
  split_and!.
  - unfold idle. split_and!; try done; vm_compute; split_and!; discriminate.
  - split_and!; cbn [willing_session new_session sends freads].
    + apply Forall_replicate. cbn. lia.
    + intros Hin. rewrite Forall_forall in H1. by apply (H1 _ Hin).
    + apply Forall_replicate. cbn. lia.
  - intros a f Ha Hf. split_and!; try done; cbn [willing_session new_session sends freads]; by rewrite length_replicate.
Qed.
Lemma server_answers_in_order_witness :
  let p := do_http site false ((fun r => Received (print_request r)) <$> [get_page kHttp11; get_page kHttp10]) willing_session in
  p.1 = Done (Val tt) /\ sent p.2 =
    (text "HTTP/1.0 200 OK" ++ CRLF ++ text "Connection: Keep-Alive" ++ CRLF ++ text "Content-Length: 9" ++ CRLF ++ text "Content-Type: text/html" ++ CRLF ++ CRLF ++ page) ++
    (text "HTTP/1.0 200 OK" ++ CRLF ++ text "Connection: close" ++ CRLF ++ text "Content-Length: 9" ++ CRLF ++ text "Content-Type: text/html" ++ CRLF ++ CRLF ++ page).
Proof.
  destruct willing_session_ok as (H1 & H2 & H3).
  destruct (server_answers_in_order site site_ok [get_page kHttp11; get_page kHttp10] willing_session H1 H2) as (_ & _ & Hw).
  - repeat (apply Forall_cons; split); [by apply get_page_servable.. | apply Forall_nil; exact I].
  - destruct Hw as (E1 & E2 & _); [apply H3; apply Nat.leb_le; vm_compute; reflexivity|]. split.
    + apply E2. apply Exists_cons_tl, Exists_cons_hd. reflexivity.
    + rewrite E1. vm_compute. reflexivity.
Defined.

(** A request that is not understood is answered and the connection
    closed.  When the first line that arrives is not a method, a target and a
    version the parser knows, what is sent is a prefix of the 400 response,
    the file system is never asked and nothing is written outside a buffer;
    once the kernel has accepted all of it the coroutine ends. *)
Theorem bad_request_refused open_path bs line rest s : idle s -> streams_ok s -> bs <> [] -> (length bs <= BUFFER_BLOCK_SIZE)%nat ->
  next_line bs = Some (line, rest) -> (processRequestLine line new_request).1 = false ->
  let refusal := render_response (setStatusCode k400BadRequest (setCloseConnection true new_response)) in
  let p := do_http open_path false [Received bs] s in
  (exists part, sent p.2 = sent s ++ part /\ part `prefix_of` refusal) /\ (forall f, p.1 <> Done (Fault f)) /\
  (willing (length refusal) 0 s -> p.1 = Done (Val tt) /\ sent p.2 = sent s ++ refusal).
Proof.
  intros Hi Hs Hne Hlen Hl Hbad refusal p. destruct (read_request bs s Hi Hne Hlen) as (b & Erd & Hwb & Hcb & Hsz).
  destruct (parse_refines (S (length (contents b))) true new_context b Hwb) as (b' & _ & Ep & _).
  assert (Es : exists c', spec_parse (S (length (contents b))) true new_context (contents b) = (Some false, c', bs)).
  { rewrite Hcb. cbn [spec_parse]. unfold spec_turn. cbn [new_context state_ request_]. rewrite Hl.
    destruct (processRequestLine line new_request) as [[] r']; [done|]. by eexists. }
  destruct Es as [c' Es]. rewrite Es in Ep. cbn [fst snd] in Ep. pose proof Hi as (Hctx & _).
  set (s1 := mk_session c' b' (sent s) (sends s) (freads s)).
  assert (Et : http_turn open_path (Received bs) s = (send_bad_request (setCloseConnection true new_response) ;! W_ret true) s1).
  { unfold http_turn. rewrite Erd, Hctx. cbn [buf wire]. unfold parseRequest. rewrite Ep. done. }
  assert (Hem : emits (send_bad_request (setCloseConnection true new_response) ;! W_ret true) refusal 0 (fun close _ => close = true) s1).
  { rewrite <- (app_nil_r refusal). refine (emits_bind _ _ refusal [] 0 0 (fun _ s' => freads s' = freads s1) _ s1 _ _).
    - by apply send_header_emits.
    - intros _ s' _ Hs'. by apply emits_ret. }
  clearbody refusal. destruct Hem as (fl & s2 & part & E & _ & Hsent & Hpre & _ & Hfl & Hw). unfold p. cbn [do_http]. rewrite Et, E. cbn [sent s1] in Hsent.
  assert (Hwill : willing (length refusal) 0 s -> exists v, fl = Done (Val v)).
  { intros Hx. destruct (Hw (length refusal) 0%nat Hx ltac:(lia) ltac:(lia)) as [Hv _]. exact Hv. }
  clear E Et Hw Ep Es Erd Hbad Hl. destruct fl as [[close|e|f]|]; cbn [fst snd].
  - destruct Hfl as [-> ->]. split; [exists refusal; split; [exact Hsent | reflexivity]|]. split; [intros f; discriminate|]. intros _. split; [reflexivity | exact Hsent].
  - split; [by exists part|]. split; [intros f; discriminate|]. intros Hx. destruct (Hwill Hx) as [v Hv]. discriminate.
  - destruct Hfl.
  - split; [by exists part|]. split; [intros f; discriminate|]. intros Hx. destruct (Hwill Hx) as [v Hv]. discriminate.
Qed.
Lemma bad_request_refused_witness :
  let p := do_http site false [Received (text "PUSH / HTTP/1.1" ++ CRLF)] willing_session in
  p.1 = Done (Val tt) /\ sent p.2 = text "HTTP/1.0 400 Bad Request" ++ CRLF ++ text "Connection: close" ++ CRLF ++ CRLF.
Proof.
  destruct willing_session_ok as (H1 & H2 & H3).
  destruct (bad_request_refused site (text "PUSH / HTTP/1.1" ++ CRLF) (text "PUSH / HTTP/1.1") [] willing_session H1 H2) as (_ & _ & Hw);
    [done | by apply Nat.leb_le | reflexivity | reflexivity |].
  destruct Hw as [E1 E2]; [apply H3; apply Nat.leb_le; vm_compute; reflexivity|]. split; [exact E1|]. rewrite E2. vm_compute. reflexivity.
Defined.

(** * The content type and its buffer *)

Lemma strrchr_app base c ext : c ∉ ext -> strrchr (base ++ c :: ext) c = Some (length base).
Proof.
  intros Hn. assert (He : strrchr ext c = None).
  { induction ext as [|x ext IH]; [done|]. apply not_elem_of_cons in Hn as [H1 H2]. cbn. rewrite IH by done. by rewrite decide_False by congruence. }
  induction base as [|x base IH]; cbn; [by rewrite He, decide_True|]. by rewrite IH.
Qed.
Lemma tolower_dot x : tolower x = x2e -> x = x2e.
Proof. by destruct x. Qed.
Lemma find_type types ext t r : NoDup types.*1 -> (ext, t) ∈ types -> try_set_content_type types ext r = setContentType t r.
Proof.
  induction types as [|[suf u] types IH]; intros Hnd Hin; [by apply not_elem_of_nil in Hin|]. cbn in *. apply NoDup_cons in Hnd as [H1 H2].
  apply elem_of_cons in Hin as [[= <- <-]|Hin]; [by rewrite decide_True|]. rewrite decide_False; [auto|]. intros ->. apply H1.
  apply (list_elem_of_fmap_2 fst _ _ Hin).
Qed.

(** [C24] [setContentTypeByPath] and the 1024 chars of its copy.  With a path
    shorter than that, the type set is the one listed for the extension in
    any mixture of cases, the text behind the last dot, and an extension that
    is not listed changes nothing; with any longer path the copy overruns the
    array, so that an existing file of non-zero size asked for by a long
    enough path, which fits into one read, is undefined behaviour. *)
Theorem content_type_buffer_bound :
  (forall base ext t r, x2e ∉ ext -> x00 ∉ base ++ x2e :: ext -> base <> [] -> (length base + length ext < 1023)%nat ->
     (strtolower ext, t) ∈ content_types ->
     exists r', setContentTypeByPath (base ++ x2e :: ext) r = (Val tt, r') /\ r' = addResponseHeader (text "Content-Type") t r) /\
  (forall path r, (length (c_str path) < 1024)%nat -> (forall t, (get_filename_ext (strtolower (c_str path)), t) ∉ content_types) ->
     setContentTypeByPath path r = (Val tt, r)) /\
  (forall path r, (1024 <= length (c_str path))%nat -> setContentTypeByPath path r = (Fault undefined_behaviour, r)) /\
  (forall open_path req st data s, idle s -> request_ok req -> (length (print_request req) <= BUFFER_BLOCK_SIZE)%nat ->
     path_ req <> text "public/bench" -> open_path (c_str (path_ req)) = Opened st data -> S_ISDIR (stx_mode st) = false ->
     0 < stx_size st < 2 ^ 63 -> (1024 <= length (c_str (path_ req)))%nat ->
     (do_http open_path false [Received (print_request req)] s).1 = Done (Fault undefined_behaviour)).
Proof.
  split_and!.
  - intros base ext t r Hd Hnul Hb Hl Hin. unfold setContentTypeByPath. assert (Ec : c_str (base ++ x2e :: ext) = base ++ x2e :: ext).
    { unfold c_str. by rewrite (proj2 (memchr_none _ _) Hnul). }
    rewrite Ec, decide_True by (rewrite length_app; unfold small_case_path_size; cbn [length]; lia). eexists. split; [reflexivity|]. unfold strtolower in *.
    rewrite fmap_app. cbn [fmap list_fmap]. change (tolower x2e) with x2e. change (list_fmap _ _ tolower ext) with (tolower <$> ext).
    assert (Hd' : x2e ∉ tolower <$> ext) by (intros (x & Ex & Hx)%list_elem_of_fmap_1; symmetry in Ex; apply tolower_dot in Ex as ->; done).
    unfold get_filename_ext. rewrite strrchr_app by done. rewrite length_fmap. destruct base as [|x base]; [done|]. cbn [length].
    rewrite drop_app_ge by (rewrite length_fmap; cbn; lia). rewrite length_fmap. cbn [length].
    replace (S (S (length base)) - S (length base))%nat with 1%nat by lia. cbn [drop]. apply find_type; [|done].
    apply (bool_decide_eq_true_1 (NoDup content_types.*1)). vm_compute. reflexivity.
  - intros path r Hl Hn. unfold setContentTypeByPath. rewrite decide_True by done. unfold modify. f_equal.
    revert Hn. generalize (get_filename_ext (strtolower (c_str path))). intros ext. induction content_types as [|[suf u] types IH]; intros Hn; [done|]. cbn.
    rewrite decide_False; [|intros ->; apply (Hn u); apply elem_of_cons; by left]. apply IH. intros t Ht. apply (Hn t). apply elem_of_cons. by right.
  - intros path r Hl. unfold setContentTypeByPath. by rewrite decide_False by (unfold small_case_path_size; lia).
  - intros open_path req st data s Hi Hr Hlen Hbench Ho Hdir Hsz Hl. assert (Hne : print_request req <> []).
    { destruct (print_line_parses req Hr) as (line & -> & _). by destruct line. }
    destruct (read_request _ s Hi Hne Hlen) as (b & Erd & Hwb & Hcb & _).
    destruct (print_parses req [] b Hr Hwb ltac:(by rewrite app_nil_r)) as (b' & Ep & _). destruct Hi as (Hctx & _).
    assert (Et : exists s', http_turn open_path (Received (print_request req)) s = (Done (Fault undefined_behaviour), s')).
    { unfold http_turn. rewrite Erd, Hctx. cbn [buf wire]. unfold parse_all in Ep. rewrite Ep. cbn [fst snd ctx set_buffer].
      change (gotAll (mk_context kGotAll req)) with true. cbn [request_]. unfold W_bind at 1, send_file. rewrite decide_False by done. rewrite Ho, Hdir.
      rewrite swrap_small by (unfold in_s; lia). rewrite (proj2 (Z.ltb_lt _ _)) by lia. unfold setContentTypeByPath.
      rewrite decide_False by (unfold small_case_path_size; lia). by eexists. }
    destruct Et as [s' Et]. cbn [do_http]. by rewrite Et.
Qed.

(** The page asked for through a thousand and more dots. *)
Definition dots : list byte := text "public/" ++ concat (replicate 600 (text "./")) ++ text "index.html".
Definition dotted_site (path : list byte) : file_answer := Opened (mk_statx 33188 9) page.
Lemma content_type_buffer_bound_witness :
  (exists r', setContentTypeByPath (text "public/a.JPG") new_response = (Val tt, r') /\ rheaders_ r' = [(text "Content-Type", text "image/jpeg")]) /\
  (do_http dotted_site false [Received (print_request (mk_request kGet kHttp11 dots [] []))] willing_session).1 = Done (Fault undefined_behaviour).
Proof.
  destruct content_type_buffer_bound as (H1 & _ & _ & H4). split.
  - destruct (H1 (text "public/a") (text "JPG") (text "image/jpeg") new_response) as (r' & E & ->).
    + vm_compute. set_solver.
    + vm_compute. set_solver.
    + done.
    + apply Nat.ltb_lt. reflexivity.
    + apply list_elem_of_In. vm_compute. auto.
    + eexists. split; [exact E | reflexivity].
  - apply (H4 _ _ (mk_statx 33188 9) page).
    + apply willing_session_ok.
    + unfold request_ok, headers_ok, line_ok, sorted. split_and!; [by left | constructor | constructor | done | done|].
      exists (drop 6 dots). split; [vm_compute; reflexivity|]. split_and!.
      * vm_compute. discriminate.
      * apply memchr_none. vm_compute. reflexivity.
      * apply memchr_none. vm_compute. reflexivity.
      * unfold crlf_free. vm_compute. reflexivity.
    + apply Nat.leb_le. vm_compute. reflexivity.
    + vm_compute. discriminate.
    + reflexivity.
    + reflexivity.
    + cbn. lia.
    + apply Nat.leb_le. vm_compute. reflexivity.
Defined.

(** A request for a file that does not exist is not answered at all: [send_file]
    sets the 404 status in its handler and returns without sending. *)
Theorem missing_file_gets_no_response open_path e r : path_ r <> text "public/bench" -> open_path (c_str (path_ r)) = OpenFails e ->
  response_to open_path r = [].
Proof. intros Hb Ho. unfold response_to, file_response. by rewrite decide_False, Ho. Qed.
(** A request cut inside its header is refused, although the parser could have
    gone on: [do_http] resets the context after every read. *)
Theorem cut_request_is_refused : exists s', do_http site false [Received sample_head; Received sample_tail] willing_session = (Done (Val tt), s') /\
  sent s' = text "HTTP/1.0 400 Bad Request" ++ CRLF ++ text "Connection: close" ++ CRLF ++ CRLF.
Proof.
  assert (V : (do_http site false [Received sample_head; Received sample_tail] willing_session).1 = Done (Val tt) /\
    sent (do_http site false [Received sample_head; Received sample_tail] willing_session).2 =
      text "HTTP/1.0 400 Bad Request" ++ CRLF ++ text "Connection: close" ++ CRLF ++ CRLF) by (split; vm_compute; reflexivity).
  destruct (do_http _ _ _ _) as [fl s']. destruct V as [V1 V2]. cbn in V1, V2. subst fl. by exists s'.
Qed.
