(* ===== verification/EchoServer.v ===== *)
(** The example echo server, [examples/echo_server.cpp]: any number of
    [echo_loop] coroutines that share one [buffer_pool].  A block holds what
    the kernel wrote into it last; a coroutine sends straight from the block
    it got, so it relies on nobody else writing there meanwhile. *)
From S2P Require Import Prelude Endian Buffer Events SocketIO BufferPool Tcp.

(** A connection: what the kernel read from it, what was sent to it, and the
    block the coroutine owns ([read_buffer]) with its indices. *)
Record client : Type := mk_client {
  received : list byte; echoed : list byte; read_block_ : option ((Z * nat) * (Z * Z)); ended : bool }.
(** The server: the pool, the contents of its blocks, the connections. *)
Record server : Type := mk_server { the_pool : pool; memory : gmap (Z * nat) (list byte); clients : list client }.

Definition new_client : client := mk_client [] [] None false.
(** The selected buffer a coroutine writes from. *)
Definition block_buffer (m : gmap (Z * nat) (list byte)) (b : (Z * nat) * (Z * Z)) : buffer :=
  mk_buffer (default [] (m !! b.1)) b.2.1 b.2.2.

(** The destructor of the coroutine's [selected_buffer_resource]. *)
Definition release (p : Z * nat) (s : pool) : option pool :=
  i ← fst <$> list_find (fun q => q = p) (held s);
  match drop_resource i s with (Val _, s') => Some s' | _ => None end.

(** What can happen next: a connection is accepted; a read of connection [c]
    completes with [bs] in the [k]-th buffer the kernel has; a send of it is
    answered; a read of it fails; the kernel processes a returned buffer. *)
Inductive echo_action : Type :=
| AcceptOne | ReadDone (c k : nat) (bs : list byte) | SendDone (c : nat) (r : send_reply) | ReadFailed (c : nat) (res : Z) | Recycle (k : nat).

Definition set_client (c : nat) (x : client) (p : pool) (m : gmap (Z * nat) (list byte)) (s : server) : server :=
  mk_server p m (<[c := x]> (clients s)).

#[global] Instance send_ok_dec r : Decision (send_ok r).
Proof. destruct r; cbn; apply _. Defined.

(** One turn of [echo_loop] after the read: a turn of [write_all], and at its
    end the destructor, also when it throws. *)
Definition echo_write (c : nat) (x : client) (b : (Z * nat) * (Z * Z)) (r : send_reply) (s : server) : option server :=
  match write_turn r (mk_conn (block_buffer (memory s) b) (echoed x)) with
  | (Val _, c') =>
    if readable (buf c') =? 0 then
      p ← release b.1 (the_pool s);
      Some (set_client c (mk_client (received x) (wire c') None false) p (memory s) s)
    else Some (set_client c (mk_client (received x) (wire c') (Some (b.1, (index_read_ (buf c'), index_write_ (buf c')))) false) (the_pool s) (memory s) s)
  | (Exn _, c') =>
    p ← release b.1 (the_pool s);
    Some (set_client c (mk_client (received x) (wire c') None true) p (memory s) s)
  | (Fault _, _) => None
  end.
Definition echo_read (c : nat) (x : client) (k : nat) (bs : list byte) (s : server) : option server :=
  e ← kernel (the_pool s) !! k;
  if decide (0 < Z.of_nat (length bs) <= e_len e) then
    match BufferPool.read (e_gid e) (Filled k (Z.of_nat (length bs))) (the_pool s) with
    | (Val p, pool') => Some (set_client c (mk_client (received x ++ bs) (echoed x) (Some (p, (0, Z.of_nat (length bs)))) false)
        pool' (<[ekey e := bs]> (memory s)) s)
    | _ => None
    end
  else None.

Definition echo_act (a : echo_action) (s : server) : option server :=
  match a with
  | AcceptOne => Some (mk_server (the_pool s) (memory s) (clients s ++ [new_client]))
  | ReadDone c k bs =>
    x ← clients s !! c;
    match read_block_ x, ended x with None, false => echo_read c x k bs s | _, _ => None end
  | SendDone c r =>
    x ← clients s !! c;
    match read_block_ x with
    | Some b => if decide (send_ok r /\ r <> SendFailed EINTR) then echo_write c x b r s else None
    | None => None
    end
  | ReadFailed c res =>
    x ← clients s !! c;
    match read_block_ x, ended x with
    | None, false => Some (set_client c (mk_client (received x) (echoed x) None true) (the_pool s) (memory s) s)
    | _, _ => None
    end
  | Recycle k => p ← pool_act (Process k) (the_pool s); Some (mk_server p (memory s) (clients s))
  end.
Definition echo_step : server -> echo_action -> server -> Prop := steps_of echo_act.
(** [event_loop] after [provide_group_contiguous]. *)
Definition new_server (base nb : Z) (how_many : nat) (gid : Z) : server :=
  mk_server (provide_group_contiguous 0 base nb how_many gid new_pool).2 ∅ [].

(** * Each client gets its own bytes back *)

Definition blocks_held (cs : list client) : list (Z * nat) := omap (fun x => fst <$> read_block_ x) cs.
Definition client_ok (m : gmap (Z * nat) (list byte)) (x : client) : Prop :=
  match read_block_ x with
  | Some b => wf (block_buffer m b) /\ 0 < readable (block_buffer m b) < 2 ^ 32 /\
      echoed x ++ contents (block_buffer m b) = received x /\ ended x = false
  | None => echoed x `prefix_of` received x /\ (ended x = false -> echoed x = received x)
  end.
Record echo_inv (s : server) : Prop := {
  echo_pool : pinv (the_pool s);
  echo_held : held (the_pool s) ≡ₚ blocks_held (clients s);
  echo_clients : Forall (client_ok (memory s)) (clients s) }.

Lemma blocks_held_insert cs c x x' : cs !! c = Some x ->
  exists rest, blocks_held cs ≡ₚ blocks_held [x] ++ rest /\ blocks_held (<[c := x']> cs) ≡ₚ blocks_held [x'] ++ rest.
Proof.
  intros Hc. exists (blocks_held (delete c cs)). unfold blocks_held. split.
  - rewrite <- omap_app. by rewrite (delete_Permutation _ _ _ Hc) at 1.
  - rewrite <- omap_app. by rewrite (insert_perm _ _ x x' Hc).
Qed.

Lemma release_block_ok p s : pinv s -> p ∈ held s -> exists s', release p s = Some s' /\ pinv s' /\ held s ≡ₚ p :: held s'.
Proof.
  intros Hi Hp. unfold release. destruct (list_find (fun q => q = p) (held s)) as [[i q]|] eqn:E.
  - apply list_find_Some in E as (Hi' & -> & _). destruct (drop_inv s i p Hi Hi') as (s' & e & Ed & H1 & H2 & _). cbn. rewrite Ed.
    exists s'. split_and!; [done | done |]. rewrite H2. by apply delete_Permutation.
  - apply list_find_None in E. rewrite Forall_forall in E. by destruct (E p Hp).
Qed.

Lemma client_ok_other m p bs x : client_ok m x -> (forall b, read_block_ x = Some b -> b.1 <> p) -> client_ok (<[p := bs]> m) x.
Proof.
  unfold client_ok. destruct (read_block_ x) as [b|]; [|done]. intros Hx Hne. unfold block_buffer in *. by rewrite lookup_insert_ne by (apply not_eq_sym, Hne; done).
Qed.

Lemma has_read_container n b u b' : has_read n b = (Val u, b') -> container_ b' = container_ b.
Proof. unfold has_read. run_M. destruct (n <=? readable b); [|done]. by destruct (n =? readable b); intros [= _ <-]. Qed.
Lemma write_turn_container r c n c' : write_turn r c = (Val n, c') -> container_ (buf c') = container_ (buf c).
Proof.
  unfold write_turn, send_front, gets, M_bind. destruct (send_some r (front (buf c)) (readable (buf c)) c) as [[k|e|f] c1] eqn:Es; [|done..].
  assert (E1 : buf c1 = buf c).
  { revert Es. destruct r; cbn; [|by intros [= _ <-]..]. unfold M_bind, on_buf, load_M. cbn.
    destruct (load _ _ (buf c)); cbn; [|done]. by intros [= _ <-]. }
  unfold check_sent, on_buf, M_ret, throw. destruct (k =? 0); [done|]. cbn beta iota. destruct (_ && _); [done|]. cbn beta iota.
  destruct (has_read (wrap 64 k) (buf c1)) as [[u|e|f] b'] eqn:Eh; cbn [fst snd]; [|done..]. intros [= _ <-]. cbn [buf].
  apply has_read_container in Eh. congruence.
Qed.

Lemma echo_write_ok c x b r s : echo_inv s -> clients s !! c = Some x -> read_block_ x = Some b -> send_ok r -> r <> SendFailed EINTR ->
  exists s', echo_write c x b r s = Some s' /\ echo_inv s'.
Proof.
  intros [Hp Hh Hc] Hx Hb Hr Hne. assert (Hok : client_ok (memory s) x) by (rewrite Forall_lookup in Hc; eauto).
  unfold client_ok in Hok. rewrite Hb in Hok. destruct Hok as (Hwf & Hrd & He & Hend). unfold echo_write.
  set (c0 := mk_conn (block_buffer (memory s) b) (echoed x)). pose proof (write_turn_spec r c0 Hwf Hrd Hr Hne) as Ht.
  assert (Hin : b.1 ∈ held (the_pool s)).
  { rewrite Hh. destruct (blocks_held_insert _ _ _ x Hx) as (rest & -> & _). unfold blocks_held. cbn. rewrite Hb. cbn. by apply elem_of_cons; left. }
  destruct (release_block_ok _ _ Hp Hin) as (p' & Erel & Hp' & Hh').
  assert (Hfree : forall x', read_block_ x' = None -> client_ok (memory s) x' -> echo_inv (set_client c x' p' (memory s) s)).
  { intros x' Hx' Hok. split; cbn; [done | | by apply Forall_insert]. destruct (blocks_held_insert _ _ _ x' Hx) as (rest & E1 & E2).
    rewrite E2. rewrite Hh', E1 in Hh. unfold blocks_held in Hh at 1. unfold blocks_held at 1. cbn in *. rewrite Hx'. rewrite Hb in Hh. cbn in *.
    by apply Permutation_cons_inv in Hh. }
  destruct (write_turn r c0) as [[n|e|f] c1] eqn:Ew; [| |done].
  - destruct Ht as (Hwf1 & Hn & Hw & Hcn & _). pose proof (length_contents _ Hwf1) as Hl1. pose proof (length_contents _ Hwf) as Hl0.
    cbn [c0 wire buf] in *. destruct (Z.eqb_spec (readable (buf c1)) 0) as [E0|Hn0].
    + rewrite Erel. eexists. split; [reflexivity|]. apply Hfree; [done|]. unfold client_ok. cbn. assert (Eall : wire c1 = received x).
      { assert (Hnil : contents (buf c1) = []) by (apply nil_length_inv; lia). rewrite Hcn in Hnil. rewrite Hw, <- He. f_equal.
        rewrite <- (take_drop (Z.to_nat n) (contents _)) at 2. by rewrite Hnil, app_nil_r. }
      rewrite Eall. split; done.
    + eexists. split; [reflexivity|]. set (x' := mk_client _ _ _ _).
      apply write_turn_container in Ew. cbn [c0 buf block_buffer container_] in Ew.
      assert (Ebuf : block_buffer (memory s) (b.1, (index_read_ (buf c1), index_write_ (buf c1))) = buf c1)
        by (unfold block_buffer; cbn [fst snd]; rewrite <- Ew; by destruct (buf c1)).
      assert (Hok : client_ok (memory s) x').
      { unfold client_ok. cbn [x' read_block_ echoed received ended]. rewrite Ebuf. rewrite Hcn, Hw, <- app_assoc, take_drop.
        rewrite Hcn, length_drop in Hl1. split_and!; try done; unbuf; lia. }
      split; cbn; [done | | by apply Forall_insert]. destruct (blocks_held_insert _ _ _ x' Hx) as (rest & E1 & E2). rewrite E2, Hh, E1.
      unfold blocks_held. cbn. by rewrite Hb.
  - destruct Ht as [-> He']. rewrite Erel. eexists. split; [reflexivity|]. apply Hfree; [done|]. unfold client_ok. cbn. split; [|done].
    rewrite <- He. by apply prefix_app_r.
Qed.

Lemma echo_step_ok a s : echo_inv s -> match echo_act a s with Some s' => echo_inv s' | None => True end.
Proof.
  intros Hi. pose proof Hi as [Hp Hh Hc]. destruct a as [|c k bs|c r|c res|k]; cbn [echo_act].
  - split; cbn; [done | | apply Forall_app; split; [done | by repeat constructor]]. unfold blocks_held in *. rewrite omap_app. cbn. by rewrite app_nil_r.
  - destruct (clients s !! c) as [x|] eqn:Hx; [|done]. cbn. destruct (read_block_ x) as [b|] eqn:Hb; [done|]. destruct (ended x) eqn:Hend; [done|].
    unfold echo_read. destruct (kernel (the_pool s) !! k) as [e|] eqn:Ek; [|done]. cbn. case_decide as Hn; [|done].
    destruct (read_inv (the_pool s) k (Z.of_nat (length bs)) e Hp Ek Hn) as (s' & blk & -> & Hp' & Hnin & Hheld & Hblk & _ & Hrd).
    assert (Hsz : Z.of_nat (length bs) < 2 ^ 16).
    { assert (He : e ∈ kernel (the_pool s) ++ in_flight (the_pool s)) by (apply elem_of_app; left; by eapply list_elem_of_lookup_2).
      destruct (entries_ok _ Hp e He) as (b0 & Hb0 & _ & Hs0 & _). destruct (blocks_ok _ Hp _ _ Hb0) as (_ & _ & Hs1 & _). lia. }
    assert (Hok : client_ok (memory s) x) by (rewrite Forall_lookup in Hc; eauto). unfold client_ok in Hok. rewrite Hb in Hok. destruct Hok as [_ Hok].
    specialize (Hok Hend). set (x' := mk_client _ _ _ _).
    assert (Hbuf : block_buffer (<[ekey e := bs]> (memory s)) (ekey e, (0, Z.of_nat (length bs))) = mk_buffer bs 0 (Z.of_nat (length bs)))
      by (unfold block_buffer; cbn [fst snd]; by rewrite lookup_insert_eq).
    assert (Hwb : wf (mk_buffer bs 0 (Z.of_nat (length bs)))) by (unfold wf, size, PTRDIFF_MAX; cbn; lia).
    split; cbn; [done | |].
    + rewrite Hheld, Hh. destruct (blocks_held_insert _ _ _ x' Hx) as (rest & E1 & E2). rewrite E2, E1. unfold blocks_held. cbn. rewrite Hb. cbn.
      symmetry. apply Permutation_cons_append.
    + apply Forall_insert.
      * rewrite Forall_forall in *. intros y Hy. apply client_ok_other; [by apply Hc|]. intros b' Hb' Eb. apply Hnin. rewrite Hh, <- Eb.
        apply list_elem_of_omap. exists y. by rewrite Hb'.
      * unfold client_ok. cbn [x' read_block_ echoed received ended]. rewrite Hbuf, Hok. split_and!; [done | | | | done].
        -- rewrite readable_wf by done. cbn. lia.
        -- rewrite readable_wf by done. cbn. lia.
        -- f_equal. unfold contents, slice. cbn. rewrite drop_0, Nat.sub_0_r, Nat2Z.id. by apply take_ge.
  - destruct (clients s !! c) as [x|] eqn:Hx; [|done]. cbn. destruct (read_block_ x) as [b|] eqn:Hb; [|done]. case_decide as Hr; [|done].
    destruct (echo_write_ok c x b r s Hi Hx Hb (proj1 Hr) (proj2 Hr)) as (s' & -> & H'). done.
  - destruct (clients s !! c) as [x|] eqn:Hx; [|done]. cbn. destruct (read_block_ x) as [b|] eqn:Hb; [done|]. destruct (ended x) eqn:Hend; [done|].
    set (x' := mk_client _ _ _ _). split; cbn; [done | |].
    + rewrite Hh. destruct (blocks_held_insert _ _ _ x' Hx) as (rest & E1 & E2). rewrite E2, E1. unfold blocks_held. cbn. by rewrite Hb.
    + apply Forall_insert; [done|]. assert (Hok : client_ok (memory s) x) by (rewrite Forall_lookup in Hc; eauto).
      unfold client_ok in *. rewrite Hb in Hok. cbn. destruct Hok as [H1 _]. done.
  - destruct (pool_act (Process k) (the_pool s)) as [p|] eqn:E; [|done]. cbn. split; cbn; [by apply (pool_step_inv (the_pool s) (Process k)); [| constructor | |] | | done].
    cbn [pool_act] in E. destruct (in_flight (the_pool s) !! k); [|done]. by injection E as <-.
Qed.

Lemma echo_reachable base nb n gid ls s : 0 < nb < 2 ^ 16 -> Z.of_nat n <= 2 ^ 16 -> star echo_step (new_server base nb n gid) ls s -> echo_inv s.
Proof.
  intros Hnb Hn. apply (star_inv _ echo_inv).
  - split; cbn; [|done | constructor]. apply provide_inv; [|done..]. apply (pool_reachable [] new_pool); repeat constructor.
  - intros s1 a s2 Hi E. pose proof (echo_step_ok a s1 Hi) as Hs. unfold echo_step, steps_of in E. by rewrite E in Hs.
Qed.

(** [C4] Every client gets its own bytes back.  However the reads, partial
    sends, failures and returned buffers of all connections interleave, what
    was sent to a client is a prefix of what was read from it, all of it
    whenever its coroutine waits for the next read; while a coroutine sends,
    the rest is still intact in its block, which no other connection and not
    the kernel owns; every answer to a send but [EINTR], which is left out, has
    a defined outcome; and every block is with a sending connection or offered
    to the kernel, so no buffer is ever lost, also when connections end by an
    error. *)
Theorem echo_returns_own_bytes base nb n gid ls s : 0 < nb < 2 ^ 16 -> Z.of_nat n <= 2 ^ 16 ->
  star echo_step (new_server base nb n gid) ls s ->
  (forall c x, clients s !! c = Some x -> echoed x `prefix_of` received x /\
     (read_block_ x = None -> ended x = false -> echoed x = received x) /\
     (forall b, read_block_ x = Some b -> echoed x ++ contents (block_buffer (memory s) b) = received x /\
        (forall c' x' b', c' <> c -> clients s !! c' = Some x' -> read_block_ x' = Some b' -> b'.1 <> b.1) /\
        b.1 ∉ (ekey <$> kernel (the_pool s) ++ in_flight (the_pool s)) /\
        forall r, send_ok r -> r <> SendFailed EINTR -> exists s', echo_step s (SendDone c r) s')) /\
  (forall p, is_Some (block_at p (the_pool s)) <->
     (exists c x b, clients s !! c = Some x /\ read_block_ x = Some b /\ b.1 = p) \/ p ∈ (ekey <$> kernel (the_pool s) ++ in_flight (the_pool s))).
Proof.
  intros Hnb Hn Hr. pose proof (echo_reachable base nb n gid ls s Hnb Hn Hr) as Hi. pose proof Hi as [Hp Hh Hc].
  pose proof (exclusive _ Hp) as Hnd. unfold owners in Hnd. apply NoDup_app in Hnd as (_ & Hdis & Hnd). rewrite Forall_lookup in Hc.
  assert (Hheld : forall p, p ∈ held (the_pool s) <-> exists c x b, clients s !! c = Some x /\ read_block_ x = Some b /\ b.1 = p).
  { intros p. rewrite Hh. unfold blocks_held. rewrite list_elem_of_omap. split.
    - intros (x & [c Hx]%list_elem_of_lookup & E). destruct (read_block_ x) as [b|] eqn:Hb; [|done]. injection E as <-. by exists c, x, b.
    - intros (c & x & b & Hx & Hb & <-). exists x. split; [by eapply list_elem_of_lookup_2 | by rewrite Hb]. }
  split.
  - intros c x Hx. pose proof (Hc c x Hx) as Hok. unfold client_ok in Hok. split_and!.
    + destruct (read_block_ x); [|by destruct Hok]. destruct Hok as (_ & _ & <- & _). by apply prefix_app_r.
    + intros Hb. rewrite Hb in Hok. by destruct Hok.
    + intros b Hb. rewrite Hb in Hok. destruct Hok as (_ & _ & He & _). split_and!; [done | | |].
      * intros c' x' b' Hne Hx' Hb' Eb. rewrite Hh in Hnd. destruct (blocks_held_insert _ _ _ new_client Hx) as (rest & E1 & E2).
        rewrite E1 in Hnd. unfold blocks_held at 1 in Hnd. cbn in Hnd. rewrite Hb in Hnd. cbn in Hnd. apply NoDup_cons in Hnd as [Hnin _]. apply Hnin.
        assert (Hin : b.1 ∈ blocks_held (<[c := new_client]> (clients s))).
        { apply list_elem_of_omap. exists x'. split; [|by rewrite Hb'; cbn; rewrite Eb]. apply (list_elem_of_lookup_2 _ c'). by rewrite list_lookup_insert_ne. }
        rewrite E2 in Hin. exact Hin.
      * intros Hk. apply (Hdis _ Hk). apply Hheld. by exists c, x, b.
      * intros r Hr1 Hr2. destruct (echo_write_ok c x b r s Hi Hx Hb Hr1 Hr2) as (s' & E & _). exists s'. unfold echo_step, steps_of. cbn [echo_act].
        rewrite Hx. cbn. rewrite Hb. by rewrite decide_True.
  - intros p. rewrite <- (owned _ Hp). unfold owners. rewrite elem_of_app, Hheld. tauto.
Qed.
(** Two clients whose sends interleave; the second one's connection breaks. *)
Definition echo_run : list echo_action :=
  [AcceptOne; AcceptOne; ReadDone 0 0 [x41; x42; x43]; ReadDone 1 0 [x61; x62]; SendDone 0 (Accepted 2); SendDone 1 (SendFailed 32);
   Recycle 0; SendDone 0 (Accepted 9)].
Lemma echo_returns_own_bytes_witness : exists s x, star echo_step (new_server 4096 100 2 7) echo_run s /\ clients s !! 0%nat = Some x /\
  echoed x = [x41; x42; x43] /\ echoed x = received x.
Proof.
  eassert (E : run_acts echo_act echo_run (new_server 4096 100 2 7) = Some _) by (vm_compute; reflexivity). apply run_acts_star in E.
  destruct (echo_returns_own_bytes 4096 100 2 7 echo_run _ ltac:(lia) ltac:(lia) E) as [H _].
  destruct (H 0%nat _ eq_refl) as (_ & H1 & _). eexists _, _. split; [exact E|]. split; [reflexivity|]. split; [reflexivity|]. by apply H1.
Defined.
