(* ===== verification/Promise.v ===== *)
(** How a coroutine's result is stored: the three promises of
    [async_task.hpp], for a value, [void] and a reference ([task.hpp] has the
    same text), the lifetimes of the objects in their union, and the
    awaitables that read them. *)
From S2P Require Import Prelude.

(** What a class of promises offers to the coroutine machinery: [A] is what
    [co_return] is given, [R] what [result()] returns; [result] is the lvalue
    form, [take_result] the rvalue form. *)
Class Promise (P A R : Type) : Type := {
  promise_new : P;
  store_value : A -> M P unit;
  unhandled_exception : exn -> M P unit;
  result : M P R;
  take_result : M P R;
  promise_destroy : M P unit }.

(** How a coroutine body ends.  The destructor of a local variable may throw
    after [co_return] has stored the value. *)
Inductive ending (A : Type) : Type := Returns (a : A) | Throws (e : exn) | ReturnsThenThrows (a : A) (e : exn).
Arguments Returns {A} a.
Arguments Throws {A} e.
Arguments ReturnsThenThrows {A} a e.

(** What the compiler makes of an ending: an exception out of [return_value]
    reaches [unhandled_exception] like any other. *)
Definition finish {P A R} `{Promise P A R} (x : ending A) : M P unit := fun p =>
  match x with
  | Throws e => unhandled_exception e p
  | Returns a =>
    match store_value a p with (Exn e, p') => unhandled_exception e p' | r => r end
  | ReturnsThenThrows a e =>
    match store_value a p with
    | (Val _, p') => unhandled_exception e p'
    | (Exn e', p') => unhandled_exception e' p'
    | r => r
    end
  end.

(** * [async_task_promise<T>] *)

Section Value.
Context {T : Type} (moved : T -> T).

Inductive result_type : Type := empty | value | exception.
(** The union: which member is alive. *)
Inductive union_ : Type := Raw | M_value (v : T) | M_exception (e : exn).
(** [constructed] and [destroyed] count the objects placed in the union. *)
Record async_task_promise : Type := mk_promise {
  m_resultType : result_type; m_union : union_; constructed : nat; destroyed : nat }.

Definition rethrow_or_value (after : T -> T) : M async_task_promise T := fun p =>
  match m_resultType p, m_union p with
  | exception, M_exception e => (Exn e, p)
  | exception, _ => (Fault undefined_behaviour, p)
  | value, M_value v => (Val v, mk_promise value (M_value (after v)) (constructed p) (destroyed p))
  | value, _ => (Fault undefined_behaviour, p)
  | empty, _ => (Fault assertion_failed, p)
  end.
(** [return_value]: the construction of the [T] may throw. *)
Definition return_value (a : T + exn) : M async_task_promise unit := fun p =>
  match a with
  | inl v => (Val tt, mk_promise value (M_value v) (S (constructed p)) (destroyed p))
  | inr e => (Exn e, p)
  end.
Definition value_unhandled_exception (e : exn) : M async_task_promise unit := fun p =>
  (Val tt, mk_promise exception (M_exception e) (S (constructed p)) (destroyed p)).
(** [~async_task_promise]: the member that [m_resultType] names. *)
Definition destroy_promise : M async_task_promise unit := fun p =>
  match m_resultType p, m_union p with
  | value, M_value _ | exception, M_exception _ => (Val tt, mk_promise (m_resultType p) Raw (constructed p) (S (destroyed p)))
  | empty, _ => (Val tt, p)
  | _, _ => (Fault undefined_behaviour, p)
  end.
#[global] Instance value_promise : Promise async_task_promise (T + exn) T := {|
  promise_new := mk_promise empty Raw 0 0;
  store_value := return_value;
  unhandled_exception := value_unhandled_exception;
  result := rethrow_or_value id;
  take_result := rethrow_or_value moved;
  promise_destroy := destroy_promise |}.
End Value.
Arguments async_task_promise T : clear implicits.

(** * [async_task_promise<void>] and [async_task_promise<T &>] *)

Definition promise_void : Type := option exn.
Definition return_void (_ : unit) : M promise_void unit := M_ret tt.
Definition set_exception (e : exn) : M promise_void unit := modify (fun _ => Some e).
Definition void_result : M promise_void unit := fun p => match p with Some e => (Exn e, p) | None => (Val tt, p) end.
#[global] Instance void_promise : Promise promise_void unit unit := {|
  promise_new := None; store_value := return_void; unhandled_exception := set_exception;
  result := void_result; take_result := void_result; promise_destroy := M_ret tt |}.

Record promise_ref : Type := mk_ref { ref_value : option nat; ref_exception : option exn }.
Definition return_ref (address : nat) : M promise_ref unit := modify (fun p => mk_ref (Some address) (ref_exception p)).
Definition ref_set_exception (e : exn) : M promise_ref unit := modify (fun p => mk_ref (ref_value p) (Some e)).
Definition ref_result : M promise_ref nat := fun p =>
  match ref_exception p, ref_value p with
  | Some e, _ => (Exn e, p)
  | None, Some a => (Val a, p)
  | None, None => (Fault undefined_behaviour, p)
  end.
#[global] Instance ref_promise : Promise promise_ref nat nat := {|
  promise_new := mk_ref None None; store_value := return_ref; unhandled_exception := ref_set_exception;
  result := ref_result; take_result := ref_result; promise_destroy := M_ret tt |}.

(** * The awaitables of [async_task] *)

(** A coroutine frame as its task sees it: the promise, whether the coroutine
    is done, and who is to be resumed.  [None] is a null handle. *)
Section Awaiting.
Context {P A R : Type} `{!Promise P A R}.

Record coroutine : Type := mk_coroutine { promise : P; is_done : bool; who_await_me_ : option nat }.
Definition on_promise {B} (m : M P B) : M coroutine B := fun c => let r := m (promise c) in (r.1, mk_coroutine r.2 (is_done c) (who_await_me_ c)).

Definition is_ready (t : option coroutine) : bool := match t with None => true | Some c => is_done c end.
Definition await_ready (t : option coroutine) : bool := match t with None => true | Some c => is_done c end.
Definition await_suspend (awaiting : nat) (c : coroutine) : coroutine := mk_coroutine (promise c) (is_done c) (Some awaiting).
(** [await_resume] of [co_await t], of [co_await std::move(t)] and of
    [co_await t.when_ready()]. *)
Definition on_task {B} (m : M P B) (t : option coroutine) : outcome B * option coroutine :=
  match t with
  | None => (Exn broken_promise, None)
  | Some c => let r := on_promise m c in (r.1, Some r.2)
  end.
Definition await_resume : option coroutine -> outcome R * option coroutine := on_task result.
Definition await_resume_move : option coroutine -> outcome R * option coroutine := on_task take_result.
Definition when_ready_resume (t : option coroutine) : outcome unit * option coroutine := (Val tt, t).

(** The coroutine's end: the promise is filled, and [final_suspend] names who
    runs next ([None] is [std::noop_coroutine()]). *)
Definition complete (x : ending A) (awaiter_done : bool) (c : coroutine) : outcome (option nat) * coroutine :=
  let r := finish x (promise c) in
  let c' := mk_coroutine r.2 true (who_await_me_ c) in
  match r.1 with
  | Val _ => (Val (match who_await_me_ c with Some h => if awaiter_done then None else Some h | None => None end), c')
  | Exn e => (Exn e, c')
  | Fault f => (Fault f, c')
  end.
Definition start_coroutine : coroutine := mk_coroutine promise_new false None.
End Awaiting.
Arguments coroutine P : clear implicits.

(** * The contract *)

(** What an ending means to whoever awaits it, [out] being what [result()]
    returns for a value that was given to [co_return]. *)
Class PromiseLaws (P A R : Type) `{!Promise P A R} (out : A -> R + exn) : Prop := {
  result_of : forall x, exists p, finish x promise_new = (Val tt, p) /\
    result p = (match x with
                | Returns a => match out a with inl v => Val v | inr e => Exn e end
                | Throws e => Exn e
                | ReturnsThenThrows a e => match out a with inl _ => Exn e | inr e' => Exn e' end
                end, p) /\
    (take_result p).1 = (result p).1 /\
    exists p', promise_destroy p = (Val tt, p') }.

#[global] Instance value_laws {T} (moved : T -> T) : @PromiseLaws _ _ _ (value_promise moved) id.
Proof. split. intros [[v|e]|e|[v|e'] e]; (eexists; split; [reflexivity|]); cbn; split_and!; try done; by eexists. Qed.
#[global] Instance void_laws : @PromiseLaws _ _ _ void_promise inl.
Proof. split. intros [[]|e|[] e]; (eexists; split; [reflexivity|]); cbn; split_and!; try done; by eexists. Qed.
#[global] Instance ref_laws : @PromiseLaws _ _ _ ref_promise inl.
Proof. split. intros [a|e|a e]; (eexists; split; [reflexivity|]); cbn; split_and!; try done; by eexists. Qed.

(** What awaiting a coroutine that ends with [x] gives. *)
Definition outcome_of {A R} (out : A -> R + exn) (x : ending A) : outcome R :=
  match x with
  | Returns a => match out a with inl v => Val v | inr e => Exn e end
  | Throws e => Exn e
  | ReturnsThenThrows a e => match out a with inl _ => Exn e | inr e' => Exn e' end
  end.

(** Awaiting an [async_task] gives what its coroutine ended with.  For
    each of the three promises, however the body ends (a value, an exception
    of the body, of the construction of the result or of a local's
    destructor): completion succeeds and resumes the awaiting coroutine; every
    [co_await] of the task as an lvalue gives that value or rethrows that
    exception, again and again; the first as an rvalue gives the same;
    [when_ready] never throws; the promise is destroyed without touching a
    member that is not alive; and a task without coroutine throws
    broken_promise. *)
Theorem awaiting_gives_the_outcome {P A R} `{Laws : PromiseLaws P A R out} (x : ending A) (h : nat) :
  exists c, complete x false (await_suspend h start_coroutine) = (Val (Some h), c) /\ is_done c = true /\
    await_resume (Some c) = (outcome_of out x, Some c) /\
    (await_resume_move (Some c)).1 = outcome_of out x /\
    when_ready_resume (Some c) = (Val tt, Some c) /\
    (exists p', promise_destroy (promise c) = (Val tt, p')) /\
    (await_resume (None : option (coroutine P))).1 = Exn broken_promise.
Proof.
  destruct (result_of x) as (p & E & Hr & Ht & p' & Hd). exists (mk_coroutine p true (Some h)).
  unfold complete, await_suspend, start_coroutine. cbn [promise who_await_me_ is_done]. rewrite E. cbn [fst snd].
  unfold await_resume, await_resume_move, on_task, on_promise. cbn [promise is_done who_await_me_]. rewrite Hr. cbn [fst snd].
  rewrite Ht, Hr. cbn [fst snd]. split_and!; try done. by exists p'.
Qed.

#[local] Instance number_promise : Promise (async_task_promise Z) (Z + exn) Z := value_promise (fun _ => 0).
Lemma awaiting_gives_the_outcome_witness : exists c : coroutine (async_task_promise Z),
  complete (ReturnsThenThrows (inl 7) eof_error) false (await_suspend 3 start_coroutine) = (Val (Some 3%nat), c) /\
  (await_resume (Some c)).1 = Exn eof_error.
Proof.
  destruct (awaiting_gives_the_outcome (Laws := value_laws (fun _ => 0)) (ReturnsThenThrows (inl 7) eof_error) 3) as (c & E & _ & Er & _).
  exists c. split; [exact E | exact (f_equal fst Er)].
Defined.

(** The objects in the union of [async_task_promise<T>]: each is destroyed with
    the promise, except that a value is leaked when an exception follows it;
    a second [co_await std::move(t)] gets the moved-from value; and asking
    for a result before the end is a failed assertion. *)
Theorem value_promise_lifetimes {T} (moved : T -> T) (v : T) (e : exn) :
  let P := value_promise moved in
  (forall x, exists p p', finish x promise_new = (Val tt, p) /\ promise_destroy p = (Val tt, p') /\
     (constructed p' = destroyed p' + match x with ReturnsThenThrows (inl _) _ => 1 | _ => 0 end)%nat) /\
  (exists p p', finish (Returns (inl v)) promise_new = (Val tt, p) /\ take_result p = (Val v, p') /\ (take_result p').1 = Val (moved v)) /\
  (result promise_new).1 = Fault assertion_failed.
Proof.
  split_and!; [|by eexists _, _ | done].
  intros [[w|e0]|e0|[w|e1] e0]; (eexists _, _; split; [reflexivity|]; split; [reflexivity|]; done).
Qed.
(** The other two have nothing to check: a [void] task that has not ended
    looks as if it had, and a reference is read through a null pointer. *)
Theorem unfinished_results : (@result _ _ _ void_promise promise_new).1 = Val tt /\ (@result _ _ _ ref_promise promise_new).1 = Fault undefined_behaviour.
Proof. done. Qed.
