(* ===== verification/LogArgs.v ===== *)
(** What a log call keeps of its arguments, [detail/logging/logging-inl.hpp].
    The text is made later by the thread of the logger, so an argument is
    safe only if what is kept does not refer to memory that may change. *)
From S2P Require Import Prelude.

(** The memory a C string is read from: the bytes of the array at an address;
    0 is the null pointer. *)
Notation memory := (gmap Z (list byte)).

(** [strlen]: a C string ends at its first NUL, which its array must hold. *)
Fixpoint c_string (l : list byte) : option (list byte) :=
  match l with
  | [] => None
  | x00 :: _ => Some []
  | b :: l => cons b <$> c_string l
  end.
Definition read_range (m : memory) (p : Z) (len : nat) : option (list byte) :=
  l ← m !! p; if decide (len <= length l)%nat then Some (take len l) else None.
Definition read_string (m : memory) (p : Z) : option (list byte) := if p =? 0 then None else m !! p ≫= c_string.

(** The type of an argument as [make_args_tuple] deduces it: an array of
    chars, a pointer to chars (is the pointer itself const, is it bound as an
    lvalue), a [string_view] of some length, or an object that owns its text,
    such as a number or a string. *)
Inductive arg_type : Type :=
| Array (const_chars : bool) | Pointer (const_chars const_pointer lvalue : bool) | View (len : nat) | Owner.
Record arg : Type := mk_arg { type : arg_type; where_ : Z; own_text : list byte }.

Definition should_trans (t : arg_type) : bool :=
  match t with Pointer _ const_pointer _ => negb const_pointer | _ => false end.
Definition should_copy (t : arg_type) : bool := match t with Array true => false | _ => true end.

(** An element of the tuple: a [std::string] or another object by value, or an
    address; an array is kept as a reference or decays to a pointer. *)
Inductive kept : Type := Text (t : list byte) | Address (p : Z) | Range (p : Z) (len : nat).

(** [trans(v)]: the string is built at once. *)
Definition trans (m : memory) (p : Z) : option kept := Text <$> read_string m p.
Definition make_tuple (a : arg) : kept :=
  match type a with
  | Owner => Text (own_text a)
  | View len => Range (where_ a) len
  | Array _ | Pointer _ _ _ => Address (where_ a)
  end.
Definition forward_as_tuple (a : arg) : kept := Address (where_ a).
Fixpoint make_args_tuple (m : memory) (args : list arg) : option (list kept) :=
  match args with
  | [] => Some []
  | first_arg :: args =>
    k ← (if should_copy (type first_arg) then
           if should_trans (type first_arg) then trans m (where_ first_arg) else Some (make_tuple first_arg)
         else Some (forward_as_tuple first_arg));
    cons k <$> make_args_tuple m args
  end.

(** The formatting of the fmt library, and the task: a closure over the tuple
    that formats it when it is called. *)
Section Formatting.
Context (vformat : list byte -> list (list byte) -> list byte).

Definition element_text (m : memory) (k : kept) : option (list byte) :=
  match k with Text t => Some t | Address p => read_string m p | Range p len => read_range m p len end.
Definition log_task : Type := list byte * list kept.
Definition make_log_tuple (m : memory) (fmt : list byte) (args : list arg) : option log_task := pair fmt <$> make_args_tuple m args.
Definition make_log_task (m : memory) (fmt : list byte) (args : list arg) : option log_task := make_log_tuple m fmt args.
Definition run_log_task (m : memory) (t : log_task) (output_it : list byte) : option (list byte) :=
  texts ← mapM (element_text m) t.2; Some (output_it ++ vformat t.1 texts).

(** * What reaches the log *)

(** The text an argument stands for, and whether only its address is kept. *)
Definition text_of (m : memory) (a : arg) : option (list byte) :=
  match type a with
  | Owner => Some (own_text a)
  | View len => read_range m (where_ a) len
  | Array _ | Pointer _ _ _ => read_string m (where_ a)
  end.
Definition kept_by_address (a : arg) : bool :=
  match type a with Array _ | Pointer _ true _ | View _ => true | Pointer _ false _ | Owner => false end.

Lemma keep_spec m later a : is_Some (text_of m a) ->
  exists k, (if should_copy (type a) then if should_trans (type a) then trans m (where_ a) else Some (make_tuple a)
             else Some (forward_as_tuple a)) = Some k /\
    element_text later k = text_of (if kept_by_address a then later else m) a.
Proof.
  unfold text_of, kept_by_address, make_tuple, forward_as_tuple, trans. destruct (type a) as [[]|c [] lv|len|]; cbn; intros [t Ht]; try by eexists.
  rewrite Ht. by eexists.
Qed.

Lemma tuple_spec m later args : Forall (fun a => is_Some (text_of m a)) args ->
  exists ks, make_args_tuple m args = Some ks /\
    mapM (element_text later) ks = mapM (fun a => text_of (if kept_by_address a then later else m) a) args.
Proof.
  induction 1 as [|a args Ha _ (ks & E & Hk)]; [by exists []|]. destruct (keep_spec m later a Ha) as (k & Ek & Hke).
  exists (k :: ks). cbn [make_args_tuple]. rewrite Ek. cbn. rewrite E. split; [done|]. cbn. by rewrite Hke, Hk.
Qed.

Lemma run_spec m later fmt args ks out : Forall (fun a => is_Some (text_of m a)) args -> make_args_tuple m args = Some ks ->
  run_log_task later (fmt, ks) out =
    (texts ← mapM (fun a => text_of (if kept_by_address a then later else m) a) args; Some (out ++ vformat fmt texts)).
Proof.
  intros Hargs E. destruct (tuple_spec m later args Hargs) as (ks' & E' & Hk). rewrite E in E'. injection E' as <-.
  unfold run_log_task. cbn [fst snd]. by rewrite Hk.
Qed.

Lemma later_texts m later args : Forall (fun a => kept_by_address a = true -> text_of later a = text_of m a) args ->
  mapM (fun a => text_of (if kept_by_address a then later else m) a) args = mapM (text_of m) args.
Proof. induction 1 as [|a args Ha _ IH]; [done|]. cbn. rewrite IH. destruct (kept_by_address a); [by rewrite Ha | done]. Qed.

Lemma deleted_text m a : kept_by_address a = true -> text_of (delete (where_ a) m) a = None.
Proof.
  unfold kept_by_address, text_of, read_string, read_range.
  destruct (type a) as [c|c [] lv|len|]; intros [=]; rewrite lookup_delete_eq; by try case_match.
Qed.

(** [C35] A log call prints what its arguments were when it was made.  The task
    is made without a read outside an array; when the thread of the logger
    runs it, in whatever memory, it appends the text that formatting at once
    would have given, provided the arrays, and the strings behind const
    pointers, still hold the same text; nothing is asked of the strings behind
    other pointers, which may have been overwritten or freed.  The provision
    is needed: for every argument that is kept by its address, once its array
    is gone the task reads through a dangling pointer. *)
Theorem log_prints_call_time_text m fmt args : Forall (fun a => is_Some (text_of m a)) args ->
  exists t texts, make_log_task m fmt args = Some t /\ mapM (text_of m) args = Some texts /\
    (forall later out, Forall (fun a => kept_by_address a = true -> text_of later a = text_of m a) args ->
       run_log_task later t out = Some (out ++ vformat fmt texts)) /\
    (forall a out, a ∈ args -> kept_by_address a = true -> run_log_task (delete (where_ a) m) t out = None).
Proof.
  intros Hargs. destruct (mapM_is_Some_2 (text_of m) args Hargs) as [texts Ht]. destruct (tuple_spec m m args Hargs) as (ks & E & _).
  exists (fmt, ks), texts. split_and!; [unfold make_log_task, make_log_tuple; by rewrite E | done | |].
  - intros later out Hsame. rewrite (run_spec m later fmt args ks out Hargs E), (later_texts m later args Hsame). by rewrite Ht.
  - intros a out Hin Hk. rewrite (run_spec m _ fmt args ks out Hargs E). rewrite (proj2 (mapM_None _ args)); [done|].
    apply Exists_exists. exists a. split; [done|]. rewrite Hk. by apply deleted_text.
Qed.
End Formatting.

(** A format that prints its arguments one after the other. *)
Definition plain (fmt : list byte) (texts : list (list byte)) : list byte := concat texts.
(** A name that is logged from a pointer and from an array, and the thread that
    reuses both buffers before the logger gets to the entry. *)
Definition two_names : memory := {[ 16 := [x41; x42; x00]; 32 := [x43; x00; x58] ]}.
Definition name_pointer : arg := mk_arg (Pointer false false true) 16 [].
Definition name_array : arg := mk_arg (Array false) 32 [].
Lemma log_prints_call_time_text_witness : exists t,
  make_log_task two_names [x25] [name_pointer; name_array] = Some t /\
  run_log_task plain (<[16 := [x58; x00]]> two_names) t [x3e] = Some [x3e; x41; x42; x43] /\
  run_log_task plain (delete 32 two_names) t [x3e] = None.
Proof.
  destruct (log_prints_call_time_text plain two_names [x25] [name_pointer; name_array]) as (t & texts & E & Et & H1 & H2).
  - repeat constructor; by eexists.
  - exists t. assert (Hx : texts = [[x41; x42]; [x43]]) by (vm_compute in Et; by injection Et as <-). subst texts.
    split_and!; [exact E | apply H1; repeat constructor; done | apply (H2 name_array); [right; left | done]].
Defined.

(** A const pointer and an array that is not const are kept by their address
    although their text is a C string like the one that is copied: the
    specialisations of [should_trans] match neither. *)
Lemma should_trans_misses : forall c lv, should_trans (Pointer c false lv) = true /\ should_trans (Pointer c true lv) = false /\
  should_trans (Array c) = false.
Proof. done. Qed.
