(* ===== verification/Threads.v ===== *)
(** The cached id of a thread, [detail/thread.hpp], and the field of a log line
    that is made from it; the signals a context waits for, [signals.hpp]. *)
From S2P Require Import Prelude Endpoint Logger.

(** * [detail/thread.hpp] *)

(** The thread-local members: the cached id, the array of 32 chars with its
    text ([None] is the null pointer), the length [snprintf] returned, and how
    often the kernel was asked. *)
Record thread : Type := mk_thread {
  t_cached_tid : Z; t_tid_string_ptr : option (list byte); t_tid_string_length : nat; gettid_calls : nat }.
Definition new_thread : thread := mk_thread 0 None 6 0.

(** The conversion "%5d ". *)
Definition tid_text (tid : Z) : list byte := pad x20 5 tid ++ [x20].

(** [cache_tid()]: [tid] is what the system call answers, [fresh] what a new
    array of 32 chars holds. *)
Definition cache_tid (tid : Z) (fresh : list byte) : M thread unit := fun t =>
  if t_cached_tid t =? 0 then
    match snprintf 0 32 (tid_text tid) fresh with
    | (Val n, ptr) => (Val tt, mk_thread tid (Some ptr) n (S (gettid_calls t)))
    | (Exn e, _) => (Exn e, t)
    | (Fault f, _) => (Fault f, t)
    end
  else (Val tt, t).
Definition tid (answer : Z) (fresh : list byte) : M thread Z := fun t =>
  ((if t_cached_tid t =? 0 then cache_tid answer fresh else M_ret tt);; gets t_cached_tid) t.
Definition tid_string (answer : Z) (fresh : list byte) : M thread (option (list byte)) := fun t =>
  ((if t_cached_tid t =? 0 then cache_tid answer fresh else M_ret tt);; gets t_tid_string_ptr) t.
Definition tid_string_length : M thread nat := gets t_tid_string_length.
Definition is_main_thread (getpid answer : Z) (fresh : list byte) : M thread bool :=
  let! t := tid answer fresh in M_ret (t =? getpid).

(** [logger::logger] keeps the pointer, and [write_pid] copies
    [pid_string_len] chars from it. *)
Definition pid_string_len : nat := 6.
Definition write_pid (ptr : option (list byte)) : option (list byte) :=
  l ← ptr; if decide (pid_string_len <= length l)%nat then Some (take pid_string_len l) else None.

(** Ids of Linux: positive, below PID_MAX_LIMIT. *)
Definition tid_ok (tid : Z) : Prop := 0 < tid <= 2 ^ 22.

Lemma tid_text_length t : tid_ok t -> (6 <= length (tid_text t) <= 8)%nat.
Proof.
  intros Ht. unfold tid_ok in Ht. pose proof (itoad_width t 7 ltac:(lia) ltac:(lia)). unfold tid_text, pad.
  rewrite !length_app, length_replicate. cbn [length]. lia.
Qed.

Lemma cache_tid_spec t fresh : tid_ok t -> length fresh = 32%nat ->
  exists ptr, cache_tid t fresh new_thread = (Val tt, mk_thread t (Some ptr) (length (tid_text t)) 1) /\ length ptr = 32%nat /\
    take (length (tid_text t)) ptr = tid_text t.
Proof.
  intros Ht Hf. pose proof (tid_text_length t Ht) as Hl. unfold cache_tid, snprintf. cbn [new_thread t_cached_tid Z.eqb].
  rewrite take_ge by lia. rewrite decide_True by (rewrite length_app; cbn [length]; lia). eexists. split; [reflexivity|].
  destruct (splice_take 0 (tid_text t) x00 fresh) as [H1 H2]; [lia|]. by rewrite H2.
Qed.

(** What any number of calls leave: the cache of the first. *)
Inductive thread_call : Type := Tid | TidString | IsMain (getpid : Z).
Definition call_thread (answer : Z) (fresh : list byte) (c : thread_call) (t : thread) : outcome unit * thread :=
  match c with
  | Tid => let r := tid answer fresh t in (match r.1 with Val _ => Val tt | Exn e => Exn e | Fault f => Fault f end, r.2)
  | TidString => let r := tid_string answer fresh t in (match r.1 with Val _ => Val tt | Exn e => Exn e | Fault f => Fault f end, r.2)
  | IsMain p => let r := is_main_thread p answer fresh t in (match r.1 with Val _ => Val tt | Exn e => Exn e | Fault f => Fault f end, r.2)
  end.
Fixpoint call_all (answer : Z) (fresh : list byte) (cs : list thread_call) (t : thread) : outcome unit * thread :=
  match cs with
  | [] => (Val tt, t)
  | c :: cs => match call_thread answer fresh c t with (Val _, t') => call_all answer fresh cs t' | r => r end
  end.

Lemma cached_calls answer fresh cs t : t_cached_tid t <> 0 -> call_all answer fresh cs t = (Val tt, t).
Proof.
  intros Ht. apply Z.eqb_neq in Ht. induction cs as [|[| |p] cs IH]; [done|..]; cbn [call_all call_thread];
    unfold is_main_thread, tid, tid_string, M_bind, M_ret, gets; rewrite Ht; exact IH.
Qed.
Lemma first_call answer fresh c : tid_ok answer -> length fresh = 32%nat ->
  call_thread answer fresh c new_thread = (Val tt, (cache_tid answer fresh new_thread).2).
Proof.
  intros Ha Hf. destruct (cache_tid_spec answer fresh Ha Hf) as (ptr & E & _).
  destruct c; cbn [call_thread]; unfold is_main_thread, tid, tid_string, M_bind, M_ret, gets; cbn [new_thread t_cached_tid Z.eqb];
    by rewrite E.
Qed.

(** The kernel is asked once per thread, the array never overflows, and the
    field of the log line is the whole text of the id exactly when the id has
    at most five digits.  Longer ids, which Linux hands out up to 2^22, are
    cut: the space behind them is missing, and from a million on threads whose
    ids differ in the last digit only are written alike. *)
Theorem tid_field_width answer fresh cs : tid_ok answer -> length fresh = 32%nat -> cs <> [] ->
  exists t field, call_all answer fresh cs new_thread = (Val tt, t) /\ gettid_calls t = 1%nat /\ t_cached_tid t = answer /\
    t_tid_string_length t = length (tid_text answer) /\
    write_pid (t_tid_string_ptr t) = Some field /\ length field = pid_string_len /\
    field `prefix_of` tid_text answer /\ (field = tid_text answer <-> (length (itoad answer) <= 5)%nat).
Proof.
  intros Ha Hf Hcs. destruct cs as [|c cs]; [done|]. destruct (cache_tid_spec answer fresh Ha Hf) as (ptr & E & Hl & Ht).
  cbn [call_all]. rewrite first_call, E by done. cbn [snd]. rewrite cached_calls by (cbn; unfold tid_ok in Ha; lia).
  pose proof (tid_text_length answer Ha) as Hlen. exists (mk_thread answer (Some ptr) (length (tid_text answer)) 1), (take 6 (tid_text answer)).
  assert (Hfield : take 6 ptr = take 6 (tid_text answer)) by (rewrite <- Ht, take_take; f_equal; lia).
  unfold write_pid, pid_string_len. cbn [t_tid_string_ptr mbind option_bind]. rewrite decide_True, Hfield by lia.
  split_and!; try done; [rewrite length_take; lia | exists (drop 6 (tid_text answer)); by rewrite take_drop |].
  assert (Hw : length (tid_text answer) = S (Nat.max 5 (length (itoad answer)))) by (unfold tid_text, pad; rewrite !length_app, length_replicate; cbn [length]; lia).
  split; intros H.
  - apply (f_equal length) in H. rewrite length_take in H. lia.
  - apply take_ge. lia.
Qed.
Lemma tid_field_width_witness : exists t, call_all 1234567 (replicate 32 x00) [TidString; Tid] new_thread = (Val tt, t) /\ gettid_calls t = 1%nat.
Proof.
  destruct (tid_field_width 1234567 (replicate 32 x00) [TidString; Tid]) as (t & f & E & H & _); [unfold tid_ok; lia | done..|].
  exists t. split; [exact E | exact H].
Defined.
Example threads_written_alike : take 6 (tid_text 1234567) = take 6 (tid_text 1234568) /\ tid_text 1234567 <> tid_text 1234568.
Proof. split; [reflexivity | vm_compute; discriminate]. Qed.

(** * [signals.hpp] *)

(** Which numbers [sigaddset] accepts, and which signals [sigprocmask] can
    block, is up to the system. *)
Section Signals.
Context (valid_signal blockable : Z -> bool).

(** A [signal_set], and the signals the process blocks. *)
Record signals : Type := mk_signals { set_ : gset Z; blocked : gset Z }.
Definition new_signal_set (b : gset Z) : signals := mk_signals ∅ b.
Definition sigaddset (x : gset Z) (signo : Z) : gset Z := if valid_signal signo then {[ signo ]} ∪ x else x.
Definition add_signals (args : list Z) (s : signals) : signals := mk_signals (foldl sigaddset (set_ s) args) (blocked s).
Definition remove_signal (signo : Z) (s : signals) : signals := mk_signals (set_ s ∖ {[ signo ]}) (blocked s).
Definition block_on_proc (s : signals) : signals := mk_signals (set_ s) (blocked s ∪ filter (fun x => blockable x = true) (set_ s)).
Definition sigint_for_context (b : gset Z) : signals := block_on_proc (add_signals [2] (new_signal_set b)).

Lemma elem_of_add_signals args : forall s x, x ∈ set_ (add_signals args s) <-> x ∈ set_ s \/ (x ∈ args /\ valid_signal x = true).
Proof.
  unfold add_signals. cbn [set_]. intros s. generalize (set_ s). induction args as [|a args IH]; intros y x; cbn [foldl]; [set_solver|].
  rewrite IH. unfold sigaddset. destruct (valid_signal a) eqn:E; rewrite elem_of_cons; [set_solver|]. split; [naive_solver|].
  intros [H|[[->|H] Hv]]; [by left | congruence | by right].
Qed.
(** A set that was built and blocked holds exactly the signals asked for, and
    nothing but them becomes blocked. *)
Theorem signal_set_spec args signo b x : let s := block_on_proc (remove_signal signo (add_signals args (new_signal_set b))) in
  (x ∈ set_ s <-> x ∈ args /\ valid_signal x = true /\ x <> signo) /\
  (x ∈ blocked s <-> x ∈ b \/ (x ∈ set_ s /\ blockable x = true)).
Proof.
  intros s. subst s. cbn [block_on_proc remove_signal set_ blocked]. split; [|set_solver]. rewrite elem_of_difference, elem_of_add_signals.
  cbn. set_solver.
Qed.
End Signals.
