(* ===== verification/Awaitables.v ===== *)
(** What can be awaited: how [co_await] finds an awaiter
    ([detail/async/get_awaiter.hpp]), the transformer [fmap.hpp], and
    [co_await timeout(d)] ([timeout.hpp], [timeout_awaitable.hpp]) on the timer
    service of [IoContext]. *)
From Stdlib Require Import Setoid Morphisms.
From S2P Require Import Prelude SkiplistFacts SkiplistSpec Timer Events IoContext.

(** * Awaiters *)

Section Awaiters.
(** [St] is the state of everything, the awaiter included; [C] the handles. *)
Context {St C : Type}.

(** What [await_suspend] answers: nothing or [true], [false], or a handle. *)
Inductive suspension : Type := StaySuspended | ResumeNow | TransferTo (c : C).
Record awaiter (R : Type) : Type := mk_awaiter {
  awaiter_ready : M St bool; awaiter_suspend : C -> M St suspension; awaiter_resume : M St R }.
Arguments mk_awaiter {R}.
Arguments awaiter_ready {R}.
Arguments awaiter_suspend {R}.
Arguments awaiter_resume {R}.

(** [co_await] up to the point where the coroutine goes on or is suspended; a
    suspended coroutine goes on with [awaiter_resume]. *)
Inductive awaiting (R : Type) : Type := GoesOn (r : R) | IsSuspended (transfer : option C).
Arguments GoesOn {R} r.
Arguments IsSuspended {R} transfer.
Definition co_await {R} (a : awaiter R) (c : C) : M St (awaiting R) :=
  let! ready := awaiter_ready a in
  match ready with
  | true => let! r := awaiter_resume a in M_ret (GoesOn r)
  | false =>
    let! s := awaiter_suspend a c in
    match s with
    | StaySuspended => M_ret (IsSuspended None)
    | TransferTo d => M_ret (IsSuspended (Some d))
    | ResumeNow => let! r := awaiter_resume a in M_ret (GoesOn r)
    end
  end.

(** A value in an expression: its member and free [operator co_await], and
    itself when it is an awaiter. [None] is code that does not compile. *)
Record awaitable (R : Type) : Type := mk_awaitable {
  member_co_await : option (awaiter R); free_co_await : option (awaiter R); is_awaiter : option (awaiter R) }.
Arguments mk_awaitable {R}.
Arguments member_co_await {R}.
Arguments free_co_await {R}.
Arguments is_awaiter {R}.
Definition get_awaiter {R} (value : awaitable R) : option (awaiter R) :=
  match member_co_await value, free_co_await value with
  | Some a, _ => Some a
  | None, Some a => Some a
  | None, None => is_awaiter value
  end.

(** * [fmap] *)

(** A void result is [unit], and [func] is then called without argument. *)
Definition fmap_awaiter {A B} (m_func : A -> M St B) (m_awaiter : awaiter A) : awaiter B :=
  mk_awaiter (awaiter_ready m_awaiter) (awaiter_suspend m_awaiter) (let! r := awaiter_resume m_awaiter in m_func r).
Definition fmap_awaitable {A B} (m_func : A -> M St B) (m_awaitable : awaitable A) : awaitable B :=
  mk_awaitable (fmap_awaiter m_func <$> get_awaiter m_awaitable) None None.
Record fmap_transform (A B : Type) : Type := mk_transform { func : A -> M St B }.
Arguments mk_transform {A B}.
Arguments func {A B}.
Definition fmap_func {A B} (f : A -> M St B) : fmap_transform A B := mk_transform f.
(** [value | transform] *)
Definition pipe {A B} (value : awaitable A) (transform : fmap_transform A B) : awaitable B := fmap_awaitable (func transform) value.

Lemma get_awaiter_pipe {A B} (value : awaitable A) (t : fmap_transform A B) :
  get_awaiter (pipe value t) = fmap_awaiter (func t) <$> get_awaiter value.
Proof. unfold get_awaiter at 1, pipe, fmap_awaitable. cbn [member_co_await free_co_await is_awaiter]. by destruct (get_awaiter value). Qed.

(** Two awaiters are the same when their members behave alike. *)
Definition awaiter_equiv {R} : relation (awaiter R) := fun a b =>
  (forall s, awaiter_ready a s = awaiter_ready b s) /\ (forall c s, awaiter_suspend a c s = awaiter_suspend b c s) /\
  (forall s, awaiter_resume a s = awaiter_resume b s).
#[global] Instance awaiter_equivalence {R} : Equivalence (@awaiter_equiv R).
Proof.
  split; [done | intros a b (H1 & H2 & H3); split_and!; intros; by rewrite ?H1, ?H2, ?H3 |].
  intros a b c (H1 & H2 & H3) (K1 & K2 & K3). split_and!; intros; by rewrite ?H1, ?H2, ?H3.
Qed.
#[global] Instance M_bind_proper {A B} : Proper (pointwise_relation A (pointwise_relation St eq) ==> pointwise_relation St eq ==> pointwise_relation St eq) (@M_bind St A B).
Proof. intros k k' Hk m m' Hm s. unfold M_bind. rewrite Hm. destruct (m' s) as [[a|e|f] s']; [apply Hk | done..]. Qed.
#[global] Instance fmap_awaiter_proper {A B} : Proper (pointwise_relation A (pointwise_relation St eq) ==> awaiter_equiv ==> awaiter_equiv) (@fmap_awaiter A B).
Proof. intros f g Hf a b (H1 & H2 & H3). split_and!; [done..|]. cbn. by apply M_bind_proper. Qed.

Lemma M_bind_assoc {A B D} (m : M St A) (k : A -> M St B) (k' : B -> M St D) s :
  M_bind k' (M_bind k m) s = M_bind (fun a => M_bind k' (k a)) m s.
Proof. unfold M_bind. by destruct (m s) as [[a|e|f] s']. Qed.
Lemma M_bind_ret_r {A} (m : M St A) s : M_bind M_ret m s = m s.
Proof. unfold M_bind, M_ret. by destruct (m s) as [[a|e|f] s']. Qed.

(** The functor laws. *)
Lemma fmap_identity {R} (a : awaiter R) : awaiter_equiv (fmap_awaiter M_ret a) a.
Proof. split_and!; [done..|]. intros s. apply M_bind_ret_r. Qed.
Lemma fmap_compose {A B D} (f : A -> M St B) (g : B -> M St D) (a : awaiter A) :
  awaiter_equiv (fmap_awaiter g (fmap_awaiter f a)) (fmap_awaiter (fun r => let! x := f r in g x) a).
Proof. split_and!; [done..|]. intros s. apply M_bind_assoc. Qed.

(** What a coroutine that awaits [a] does with the answer of [fmap]. *)
Definition map_awaiting {A B} (f : A -> M St B) (w : awaiting A) : M St (awaiting B) :=
  match w with
  | GoesOn r => let! x := f r in M_ret (GoesOn x)
  | IsSuspended t => M_ret (IsSuspended t)
  end.
Lemma co_await_fmap {A B} (f : A -> M St B) (a : awaiter A) c s :
  co_await (fmap_awaiter f a) c s = M_bind (map_awaiting f) (co_await a c) s.
Proof.
  unfold co_await, M_bind. cbn. destruct (awaiter_ready a s) as [[[]|e|x] s1]; [| |done..]; unfold M_bind, M_ret.
  - by destruct (awaiter_resume a s1) as [[r|e|x] s2].
  - destruct (awaiter_suspend a c s1) as [[[]|e|x] s2]; try done. by destruct (awaiter_resume a s2) as [[r|e|x] s3].
Qed.

(** A pipeline [a | fmap(f1) | ... | fmap(fn)] suspends exactly when and how
    [a] does; its result is the result of [a] put through the functions from
    left to right, the first exception ending the evaluation. *)
Definition pipeline {R} (value : awaitable R) (fs : list (R -> M St R)) : awaitable R := foldl (fun v f => pipe v (fmap_func f)) value fs.
Definition in_turn {R} (fs : list (R -> M St R)) (r : R) : M St R := foldl (fun m f => M_bind f m) (M_ret r) fs.

Lemma in_turn_bind {R} (fs : list (R -> M St R)) : forall (m : M St R) s, foldl (fun m f => M_bind f m) m fs s = M_bind (in_turn fs) m s.
Proof.
  unfold in_turn. induction fs as [|f fs IH]; intros m s; cbn [foldl]; [by rewrite M_bind_ret_r|]. rewrite IH, M_bind_assoc.
  apply M_bind_proper; [|done]. intros r s1. rewrite (IH (M_bind f (M_ret r))). by unfold M_bind, M_ret.
Qed.

Theorem pipeline_spec {R} (value : awaitable R) (fs : list (R -> M St R)) a : get_awaiter value = Some a ->
  exists b, get_awaiter (pipeline value fs) = Some b /\ awaiter_equiv b (fmap_awaiter (in_turn fs) a) /\
    forall c s, co_await b c s = M_bind (map_awaiting (in_turn fs)) (co_await a c) s.
Proof.
  intros Ha. enough (exists b, get_awaiter (pipeline value fs) = Some b /\ awaiter_equiv b (fmap_awaiter (in_turn fs) a)) as (b & Hb & He).
  { exists b. split_and!; [done..|]. intros c s. rewrite <- co_await_fmap. destruct He as (H1 & H2 & H3). unfold co_await.
    apply M_bind_proper; [|done]. intros [] s1; [by apply M_bind_proper|]. apply M_bind_proper; [|intros s2; apply H2].
    intros [] s2; try done. by apply M_bind_proper. }
  revert value a Ha. induction fs as [|f fs IH]; intros value a Ha; [by exists a; rewrite fmap_identity|].
  destruct (IH (pipe value (fmap_func f)) (fmap_awaiter f a)) as (b & Hb & He); [by rewrite get_awaiter_pipe, Ha|].
  exists b. split; [exact Hb|]. rewrite He, fmap_compose. apply fmap_awaiter_proper; [|done]. intros r s. unfold in_turn. cbn [foldl].
  rewrite in_turn_bind. by unfold M_bind, M_ret.
Qed.
End Awaiters.

(** * [co_await timeout(d)] *)

Section Timeouts.
Context {H Q : Type} `{Laws : OrderedMultimapLaws time_point_max_v H Q}.
Context {W : Type} (resume : H -> W -> W * list (add_call (H := H))).
Hypothesis resume_calls : forall t w, Forall call_ok (resume t w).2.

(** [std::chrono::duration<Rep, std::ratio<num, den>>]: [count] ticks of
    [num / den] seconds. *)
Record duration : Type := mk_duration { count : Z; num : Z; den : Z }.
(** [duration_cast<microseconds>], in [intmax_t]; [None] is an overflow. *)
Definition duration_cast_us (d : duration) : option Z :=
  let n := num d * 1000000 in
  let g := Z.gcd n (den d) in
  p ← int64 (count d * (n / g));
  Some (Z.quot p (den d / g)).

(** [timeout(expiration)] gives a [timeout_awaitable]: never ready, and its
    [await_suspend] registers the coroutine with the context. *)
Definition timeout_awaitable : Type := Z.
Definition make_timeout (d : duration) : option timeout_awaitable := duration_cast_us d.
Definition timeout_await_ready : bool := false.
Definition timeout_await_suspend (t : timeout_awaitable) (c : H) (now_ns later_ns : Z) (draw : nat -> bool) (s : timers (W := W)) : option timers :=
  register_timeout (mk_add c t now_ns draw) later_ns s.
(** [until(p)] *)
Definition until {A S : Type} : M S A := throw (runtime_error "NOT SUPPORTED YET, reported by coring::until task").

Lemma gcd_quot n d c : 0 < n -> 0 < d -> 0 <= c -> let g := Z.gcd n d in Z.quot (c * (n / g)) (d / g) = c * n / d.
Proof.
  intros Hn Hd Hc g. assert (Hg : 0 < g) by (apply Z.le_neq; split; [apply Z.gcd_nonneg | intros E; symmetry in E; apply Z.gcd_eq_0 in E; lia]).
  destruct (Z.gcd_divide_l n d) as [a Ea], (Z.gcd_divide_r n d) as [b Eb]. fold g in Ea, Eb.
  rewrite Ea, Eb, !Z.div_mul by lia. assert (0 < a) by nia. assert (0 < b) by nia.
  rewrite Z.quot_div_nonneg by nia. rewrite Z.mul_assoc. by rewrite Z.div_mul_cancel_r by lia.
Qed.

(** The durations that can be cast, non-negative and at most 2^50
    microseconds. *)
Definition duration_ok (d : duration) : Prop :=
  0 < num d /\ 0 < den d /\ 0 <= count d /\ count d * (num d * 1000000) < 2 ^ 63 /\ count d * (num d * 1000000) <= 2 ^ 50 * den d.

Lemma make_timeout_spec d : duration_ok d -> exists us, make_timeout d = Some us /\ 0 <= us <= 2 ^ 50 /\
  us * den d <= count d * num d * 1000000 < (us + 1) * den d.
Proof.
  intros (Hn & Hd & Hc & Hmax & Hus). unfold make_timeout, duration_cast_us. set (n := num d * 1000000) in *. set (g := Z.gcd n (den d)).
  assert (Hg : 1 <= g) by (enough (g <> 0) by (pose proof (Z.gcd_nonneg n (den d)); lia); intros E; apply Z.gcd_eq_0 in E; lia).
  assert (0 <= n / g <= n) by (split; [apply Z.div_pos; lia | apply Z.div_le_upper_bound; nia]).
  rewrite int64_ok by nia. cbn [mbind option_bind]. eexists. split; [reflexivity|].
  unfold g. rewrite gcd_quot by lia. pose proof (Z.div_mod (count d * n) (den d) ltac:(lia)) as E.
  pose proof (Z.mod_pos_bound (count d * n) (den d) ltac:(lia)). set (us := count d * n / den d) in *.
  replace (count d * num d * 1000000) with (count d * n) by lia. assert (0 <= us) by (apply Z.div_pos; nia). nia.
Qed.

Lemma register_repr a later_ns (s : timers (W := W)) l : call_ok a -> clock_ok later_ns -> mm_repr quiet (timer_ s) l -> Forall key_ok l ->
  (length l <= (world_ s).2)%nat -> Z.of_nat (S (world_ s).2) < 2 ^ 64 -> (service s = WaitEvent -> l = []) ->
  exists s', register_timeout a later_ns s = Some s' /\ mm_repr quiet (timer_ s') (insert_before (wakeup_point a) (cont a) l).
Proof.
  intros Ha Hc Hq Hk Hl Hw Hwait. destruct (call_ok_key a Ha) as [Hka Hok].
  destruct (add_event_law quiet _ l a Hq Hok) as (q' & Eq & Hq' & _). unfold register_timeout. rewrite Eq. cbn [mbind option_bind].
  destruct (service s) eqn:Es; [by eexists | | by eexists..]. rewrite (Hwait eq_refl) in *.
  destruct (serve_tinv later_ns (mk_timers q' WaitEvent false (stopped_ s) ((world_ s).1, S (world_ s).2) (fired_log s)) _ Hc Hq')
    as (s' & E & _ & Et & _); [rewrite insert_before_perm; by apply Forall_cons | cbn; lia | cbn; lia |]. exists s'. by rewrite Et.
Qed.

(** [C36] [co_await timeout(d)] for any unit of time.  In every state the loop can
    reach, the coroutine is suspended and its entry is pending, and its entry
    is due (so that the next visit of the service resumes it) from the time at
    which [d] has passed, and not before all but two microseconds of [d] have:
    the cast and the clock are truncated to microseconds. *)
Theorem timeout_is_due_on_time w ls s d c now_ns later_ns draw :
  star (timer_step resume) (timers_start w) ls s -> duration_ok d -> clock_ok now_ns -> clock_ok later_ns -> Z.of_nat (S (world_ s).2) < 2 ^ 64 ->
  exists t s' l k, make_timeout d = Some t /\ timeout_await_ready = false /\
    timeout_await_suspend t c now_ns later_ns draw s = Some s' /\ mm_repr quiet (timer_ s') l /\ (k, c) ∈ l /\
    forall at_ns, clock_ok at_ns ->
      (count d * num d * 10 ^ 9 <= (at_ns - now_ns) * den d -> (k, c) ∈ due (ns_to_us at_ns) l) /\
      ((k, c) ∈ due (ns_to_us at_ns) l -> count d * num d * 10 ^ 9 - 2000 * den d < (at_ns - now_ns) * den d).
Proof.
  intros Hr Hd Hc Hc' Hw. destruct (timer_reachable _ resume_calls _ _ _ Hr) as [(l & Hq & Hk & Hl & Hs) _].
  destruct (make_timeout_spec d Hd) as (us & Eus & Hus & Hcast). set (a := mk_add c us now_ns draw).
  assert (Ha : call_ok a) by (split; [done | cbn; lia]).
  destruct (register_repr a later_ns s l) as (s' & E & Hq'); try done. { intros Es. rewrite Es in Hs. by destruct Hs. }
  exists us, s', (insert_before (wakeup_point a) c l), (wakeup_point a). split_and!; [done.. | |].
  { rewrite insert_before_perm. left. }
  intros at_ns Hat. pose proof (ns_to_us_bounds _ Hat) as [_ Hx]. pose proof (ns_to_us_bounds _ Hc) as [_ Hy].
  unfold duration_ok in Hd. split.
  - intros Hge. apply list_elem_of_filter. split; [|rewrite insert_before_perm; left]. cbn. unfold wakeup_point. cbn [add_now Timer.timeout a]. nia.
  - intros [Hin _]%list_elem_of_filter. revert Hin. cbn. unfold wakeup_point. cbn [add_now Timer.timeout a]. intros Hin. nia.
Qed.
End Timeouts.

(** 250 ns wait for nothing at all, and 1.5 s for 1500000 microseconds. *)
Example short_timeouts : make_timeout (mk_duration 250 1 1000000000) = Some 0 /\ make_timeout (mk_duration 3 1 2) = Some 1500000.
Proof. done. Qed.
Lemma timeout_is_due_on_time_witness : exists (s' : timers (H := nat) (Q := timer_queue_t nat) (W := unit)) l k,
  timeout_await_suspend 1500000 5%nat 2000000000 2000000000 (fun _ => false) (timers_start tt) = Some s' /\
  mm_repr quiet (timer_ s') l /\ (k, 5%nat) ∈ due (ns_to_us 3500000000) l /\ (k, 5%nat) ∉ due (ns_to_us 3499998000) l.
Proof.
  destruct (timeout_is_due_on_time (Q := timer_queue_t nat) no_more ltac:(intros; constructor) tt [] (timers_start tt) (mk_duration 3 1 2) 5%nat
    2000000000 2000000000 (fun _ => false)) as (t & s' & l & k & Et & _ & E & Hq & _ & Hdue); [constructor | by unfold duration_ok; cbn; lia | done..|].
  assert (Ht : t = 1500000) by (vm_compute in Et; by injection Et as <-). subst t. exists s', l, k. split; [exact E|]. split; [exact Hq|]. split.
  - apply (Hdue 3500000000); [done | cbn; lia].
  - intros Hin. apply (Hdue 3499998000) in Hin; [cbn in Hin; lia | done].
Defined.
