(* ===== verification/Runtime.v ===== *)
(** Coroutines on the event loop: [io_context.hpp] on top of
    [detail/io/io_uring_context.hpp].  The two are modelled in [IoContext] and
    [IoUring]; here they run together, with the coroutines that schedule tasks,
    start operations and wait for them, one atomic part of the loop a step. *)
From S2P Require Import Prelude Events IoUring IoContext.

Section Runtime.
Context {R : Type} `{!Liburing R} {Co : Type}.

(** What a coroutine does between two suspensions: operations it does not
    await, [ctx.schedule(task)] and [ctx.stop()]; then it ends or awaits an
    operation, to go on with the answer. *)
Inductive command : Type := FireOp (k : call) | ScheduleTask (t : Co) | StopLoop.
Inductive suspending : Type := Finished | Awaits (q : request) (iflags : Z) (go_on : io_token -> Co).
(** The user's coroutines, the allocator of frames (an awaitable, and with it
    the token, lives in its coroutine's frame), the address of the context and
    the thread that runs it. *)
Context (body : Co -> list command * suspending) (new_token : gset Z -> Z) (me thread : nat).

(** A coroutine that was started: the answers it has received and the entries
    of the submission queue (by position) that its awaits have made. *)
Record coroutine : Type := mk_co { started : Co; received : list io_token; slots_of : list nat }.
(** Where [run()] is: not running, in [io_uring_submit_and_wait], or in the
    loop of [handle_completions]. *)
Inductive phase : Type := Idle | Waits | Handles.
#[global] Instance phase_eq_dec : EqDecision phase.
Proof. solve_decision. Defined.

(** [io] is the io_uring side and [the_loop] the rest of the context;
    [results] has the result and flags of every posted completion and
    [finished_order] the entry it belongs to; [suspended] are the frames of
    waiting coroutines by the address of their token. *)
Record runtime : Type := mk_runtime {
  io : system R; results : list io_token; finished_order : list nat;
  the_loop : context (T := Co); suspended : gmap Z (nat * (io_token -> Co)); coroutines : list coroutine; at_ : phase }.
Implicit Types (s : runtime).

Definition with_io i s := mk_runtime i (results s) (finished_order s) (the_loop s) (suspended s) (coroutines s) (at_ s).
Definition with_loop l s := mk_runtime (io s) (results s) (finished_order s) l (suspended s) (coroutines s) (at_ s).
Definition with_coroutines w cs s := mk_runtime (io s) (results s) (finished_order s) (the_loop s) w cs (at_ s).
Definition with_phase p s := mk_runtime (io s) (results s) (finished_order s) (the_loop s) (suspended s) (coroutines s) p.

(** ** Running a coroutine *)

Definition run_command (x : command) s : option runtime :=
  match x with
  | FireOp k => i ← act (Fire k) (io s); Some (with_io i s)
  | ScheduleTask t => Some (with_loop (schedule t (the_loop s)) s)
  | StopLoop => l ← stop me thread (the_loop s); Some (with_loop l s)
  end.
Fixpoint run_commands (xs : list command) s : option runtime :=
  match xs with [] => Some s | x :: xs => s' ← run_command x s; run_commands xs s' end.

(** [co_await ctx.op(...)]: the entry is the next one of the queue. *)
Definition add_slot (n : nat) (c : coroutine) : coroutine := mk_co (started c) (received c) (slots_of c ++ [n]).
Definition add_answer (t : io_token) (c : coroutine) : coroutine := mk_co (started c) (received c ++ [t]) (slots_of c).
Definition suspend (id : nat) (q : request) (iflags : Z) (k : io_token -> Co) s : option runtime :=
  let token := new_token (live (io s)) in
  let n := length (entries (uc (io s))) in
  i ← act (Await q iflags token) (io s);
  Some (with_coroutines (<[token := (id, k)]> (suspended s)) (alter (add_slot n) id (coroutines s)) (with_io i s)).

Definition resume (id : nat) (c : Co) s : option runtime :=
  s1 ← run_commands (body c).1 s;
  match (body c).2 with
  | Finished => Some s1
  | Awaits q f k => suspend id q f k s1
  end.

(** [execute(task)], and [do_todo_list()]. *)
Definition start_task (t : Co) s : option runtime :=
  resume (length (coroutines s)) t
    (with_coroutines (suspended s) (coroutines s ++ [mk_co t [] []])
      (with_loop (set_todo (todo_list_ (the_loop s)) (executed (the_loop s) ++ [t]) (scheduled (the_loop s)) (the_loop s)) s)).
Fixpoint start_tasks (ts : list Co) s : option runtime :=
  match ts with [] => Some s | t :: ts => s' ← start_task t s; start_tasks ts s' end.
Definition todo_list s : option runtime :=
  let local_copy := todo_list_ (the_loop s) in
  start_tasks local_copy (with_loop (set_todo [] (executed (the_loop s)) (scheduled (the_loop s)) (the_loop s)) s).

(** ** The loop *)

(** The test of the loop, and [io_uring_submit_and_wait] up to the wait; or
    the end of [run()]. *)
Definition loop_test s : option runtime :=
  if ctx_stopped (the_loop s) then Some (with_phase Idle (with_loop (run_return thread (the_loop s)) s))
  else i ← act Submit (io s); Some (with_phase Waits (with_io i s)).

(** One round of [handle_completions]. *)
Definition handle_next s : option runtime :=
  data ← posted (io s) !! IoUring.handled (io s);
  t ← results s !! IoUring.handled (io s);
  i ← act Handle (io s);
  if dispatched data then
    c ← suspended s !! data;
    resume c.1 (c.2 t) (with_coroutines (delete data (suspended s)) (alter (add_answer t) c.1 (coroutines s)) (with_io i s))
  else Some (with_io i s).

(** What can happen.  Tasks are scheduled from outside only before [run()],
    since [todo_list_] is not synchronised; messages from any thread. *)
Inductive event : Type :=
| Outside (t : Co)                  (* [schedule] before [run()] *)
| MessageWakeup | MessageStop (from : nat)
| RunLoop
| KernelCompletes (n : nat) (t : io_token)
| WaitReturns                       (* also without a completion: EINTR *)
| HandleNext
| ReadMessages                      (* the read of the eventfd completes *)
| EndRound.
Definition outside_call (x : loop_action) s : option runtime := l ← loop_act (fun _ => []) me x (the_loop s); Some (with_loop l s).
Definition runtime_act (x : event) s : option runtime :=
  match x with
  | Outside t => if decide (at_ s = Idle) then outside_call (Schedule t) s else None
  | MessageWakeup => outside_call Wakeup s
  | MessageStop from => if decide (from = thread) then None else outside_call (StopFrom from) s
  | RunLoop =>
    if decide (at_ s = Idle) then
      match get_io_context thread (the_loop s) with
      | None =>
        s1 ← todo_list (with_loop (run_start me thread (the_loop s)) s);
        l ← start_service (the_loop s1);
        loop_test (with_loop l s1)
      | Some _ => None
      end
    else None
  | KernelCompletes n t =>
    i ← act (Complete n) (io s);
    Some (mk_runtime i (results s ++ [t]) (finished_order s ++ [n]) (the_loop s) (suspended s) (coroutines s) (at_ s))
  | WaitReturns => if decide (at_ s = Waits) then Some (with_phase Handles s) else None
  | HandleNext => if decide (at_ s = Handles) then handle_next s else None
  | ReadMessages =>
    if decide (at_ s = Handles) then l ← handle_completion me thread EventRead (the_loop s); Some (with_loop l s) else None
  | EndRound =>
    if decide (at_ s = Handles /\ posted (io s) !! IoUring.handled (io s) = None) then s1 ← todo_list s; loop_test s1 else None
  end.
Definition runtime_step : runtime -> event -> runtime -> Prop := steps_of runtime_act.

Definition runtime_start (u : io_uring_context R) (c : context (T := Co)) : runtime := mk_runtime (IoUring.start u) [] [] c ∅ [] Idle.

(** * The direct-style program *)

(** What a coroutine that is written like a function would ask the kernel for,
    one request after the other, when the answers are [ts], and where it is
    then. *)
Fixpoint direct (c : Co) (ts : list io_token) : option (list (request * Z) * Co) :=
  match ts with
  | [] => Some ([], c)
  | t :: ts =>
    match (body c).2 with
    | Finished => None
    | Awaits q f k => r ← direct (k t) ts; Some ((q, f) :: r.1, r.2)
    end
  end.
(** The request it is waiting for then. *)
Definition waiting_for (c : Co) : list (request * Z) := match (body c).2 with Finished => [] | Awaits q f _ => [(q, f)] end.

(** The entry at position [n] asks for [qf], and the kernel has answered it
    with [t]. *)
Definition asks s (n : nat) (qf : request * Z) : Prop :=
  exists e, entries (uc (io s)) !! n = Some e /\ s_request e = Some qf.1 /\ s_flags e = qf.2.
Definition answered s (n : nat) (t : io_token) : Prop := exists h, finished_order s !! h = Some n /\ results s !! h = Some t.
End Runtime.
Arguments command Co : clear implicits.
Arguments suspending Co : clear implicits.
Arguments runtime R Co : clear implicits.
Arguments coroutine Co : clear implicits.

(** * The two sides never disagree *)

Section RuntimeFacts.
Context {R : Type} `{Laws : LiburingLaws R, !LiburingProgress R} {Co : Type}.
Context (body : Co -> list (command Co) * suspending Co) (new_token : gset Z -> Z) (me thread : nat).
Hypothesis new_token_fresh : forall X, (new_token X ∉ X) /\ dispatched (new_token X) = true.
Implicit Types (s : runtime R Co) (i : system R) (ts : list Co).
Local Notation all_entries i := (entries (uc i)).

(** What the steps of the io_uring side do to the entries. *)
Definition same_but_entries (i i' : system R) : Prop :=
  completed i' = completed i /\ posted i' = posted i /\ IoUring.handled i' = IoUring.handled i.

Lemma fire_spec k i : exists i' e, act (Fire k) i = Some i' /\ all_entries i' = all_entries i ++ [e] /\ dispatched (s_data e) = false /\
  same_but_entries i i' /\ live i' = live i.
Proof.
  destruct (run_call_spec k (uc i)) as (n & c & e & (n0 & E & _) & (_ & He & _) & _ & Hd). cbn [act]. rewrite E.
  eexists _, e. split; [reflexivity|]. by rewrite Hd.
Qed.
Lemma await_spec q f token i : (token ∉ live i) -> dispatched token = true ->
  exists i' e, act (Await q f token) i = Some i' /\ all_entries i' = all_entries i ++ [e] /\
    s_request e = Some q /\ s_flags e = f /\ s_data e = token /\ same_but_entries i i' /\ live i' = {[token]} ∪ live i.
Proof.
  intros Hf Ht. destruct (run_call_spec (Plain q f) (uc i)) as (n & c & e & (n0 & E & Hn) & Hl & [Hq Hfl] & _).
  cbn [act run_call] in *. rewrite decide_True, E by done. cbn [mbind option_bind fst snd]. rewrite (Hn q f eq_refl).
  apply (write_last _ _ _ _ _ (with_data token)) in Hl as (_ & He & _). eexists _, _. split; [reflexivity|]. split; [exact He|]. done.
Qed.
Lemma submit_spec i : exists i', act Submit i = Some i' /\ all_entries i' = all_entries i /\ same_but_entries i i' /\ live i' = live i.
Proof. eexists. split; [reflexivity|]. cbn. by rewrite entries_submit. Qed.
Lemma handle_spec i data : posted i !! IoUring.handled i = Some data -> (dispatched data = true -> data ∈ live i) ->
  exists i', act Handle i = Some i' /\ uc i' = uc i /\ completed i' = completed i /\ posted i' = posted i /\ IoUring.handled i' = S (IoUring.handled i) /\
    live i' = if dispatched data then live i ∖ {[data]} else live i.
Proof. intros Hp Hl. cbn [act]. rewrite Hp. destruct (dispatched data); [rewrite decide_True by auto|]; by eexists. Qed.

(** ** The invariant *)

Definition running s (c : coroutine Co) (now : Co) : Prop := exists reqs, direct body (started c) (received c) = Some (reqs, now) /\
  Forall2 (asks s) (slots_of c) reqs /\
  forall j t, received c !! j = Some t -> exists n, slots_of c !! j = Some n /\ answered s n t.
Definition parked s (id : nat) (c : coroutine Co) : Prop := exists reqs now, direct body (started c) (received c) = Some (reqs, now) /\
  Forall2 (asks s) (slots_of c) (reqs ++ waiting_for body now) /\
  (forall j t, received c !! j = Some t -> exists n, slots_of c !! j = Some n /\ answered s n t) /\
  forall q f k, (body now).2 = Awaits q f k -> exists token, suspended s !! token = Some (id, k).

(** Entry [n] carries the token and its completion has not been handled. *)
Definition carries s (n : nat) (token : Z) : Prop :=
  (exists e, all_entries (io s) !! n = Some e /\ s_data e = token) /\ dispatched token = true /\
  n ∉ take (IoUring.handled (io s)) (finished_order s).

(** [run]: the coroutine that runs at the moment, and where it is; [ts]: the
    tasks that [do_todo_list] has still to start. *)
Record rinv (run : option (nat * Co)) ts s : Prop := {
  r_loop : linv me ts (the_loop s);
  r_executed : executed (the_loop s) = started <$> coroutines s;
  r_results : length (results s) = length (posted (io s)) /\ length (finished_order s) = length (posted (io s));
  r_handled : (IoUring.handled (io s) <= length (posted (io s)))%nat;
  r_posted : forall h n, finished_order s !! h = Some n ->
    n ∈ completed (io s) /\ exists e, all_entries (io s) !! n = Some e /\ posted (io s) !! h = Some (s_data e);
  r_once : NoDup (finished_order s);
  r_live : live (io s) = dom (suspended s);
  r_coroutines : forall id c, coroutines s !! id = Some c ->
    match run with Some (id', now) => if decide (id = id') then running s c now else parked s id c | None => parked s id c end;
  r_frames : forall token id k, suspended s !! token = Some (id, k) -> id ∉ (fst <$> option_list run) /\
    exists c reqs now q f n, coroutines s !! id = Some c /\ direct body (started c) (received c) = Some (reqs, now) /\
      (body now).2 = Awaits q f k /\ last (slots_of c) = Some n /\ carries s n token;
  r_tokens : forall n token, carries s n token ->
    exists id k c, suspended s !! token = Some (id, k) /\ coroutines s !! id = Some c /\ last (slots_of c) = Some n;
  r_slots : NoDup (concat (slots_of <$> coroutines s));
  r_slots_lt : forall n, n ∈ concat (slots_of <$> coroutines s) -> (n < length (all_entries (io s)))%nat
}.

Lemma asks_mono s s' n qf : all_entries (io s) `prefix_of` all_entries (io s') -> asks s n qf -> asks s' n qf.
Proof. intros Hp (e & He & H1). exists e. split; [by eapply prefix_lookup_Some | done]. Qed.
Lemma answered_mono s s' n t : finished_order s `prefix_of` finished_order s' -> results s `prefix_of` results s' -> answered s n t -> answered s' n t.
Proof. intros H1 H2 (h & Ho & Hr). exists h. split; by eapply prefix_lookup_Some. Qed.
Definition grows s s' : Prop := all_entries (io s) `prefix_of` all_entries (io s') /\
  finished_order s `prefix_of` finished_order s' /\ results s `prefix_of` results s'.
Lemma running_mono s s' c now : grows s s' -> running s c now -> running s' c now.
Proof.
  intros (H1 & H2 & H3) (reqs & Hd & Ha & Hr). exists reqs. split_and!; [done | by eapply Forall2_impl; [|intros; by eapply asks_mono] |].
  intros j t Hj. destruct (Hr j t Hj) as (n & Hn & Ht). exists n. split; [done | by eapply answered_mono].
Qed.
Lemma parked_mono s s' id c : grows s s' -> (forall token k, suspended s !! token = Some (id, k) -> exists token', suspended s' !! token' = Some (id, k)) ->
  parked s id c -> parked s' id c.
Proof.
  intros (H1 & H2 & H3) Hs (reqs & now & Hd & Ha & Hr & Hw). exists reqs, now.
  split_and!; [done | by eapply Forall2_impl; [|intros; by eapply asks_mono] | |].
  - intros j t Hj. destruct (Hr j t Hj) as (n & Hn & Ht). exists n. split; [done | by eapply answered_mono].
  - intros q f k Hb. destruct (Hw q f k Hb) as [token Ht]. by eapply Hs.
Qed.

(** Changes that leave the coroutines alone: entries without a token, and the
    loop side. *)
Lemma lookup_snoc_cases {A} (l l' : list A) n x : (l ++ l') !! n = Some x -> l !! n = Some x \/ x ∈ l'.
Proof. rewrite lookup_app_Some. intros [Hx|[_ Hx]]; [by left | right; by eapply list_elem_of_lookup_2]. Qed.
Lemma carries_grow s i l n token : all_entries i = all_entries (io s) ++ l -> Forall (fun e => dispatched (s_data e) = false) l ->
  IoUring.handled i = IoUring.handled (io s) -> carries (with_io i s) n token <-> carries s n token.
Proof.
  intros He Hl Hh. unfold carries. cbn. rewrite He, Hh. split; intros ((e & Hn & Ht) & Hd & Hf).
  - split; [|done]. apply lookup_snoc_cases in Hn as [Hn|Hin]; [by exists e|]. rewrite Forall_forall in Hl. specialize (Hl e Hin). congruence.
  - split; [|done]. exists e. split; [by apply lookup_app_l_Some | done].
Qed.
Lemma rinv_io run ts s i l : rinv run ts s -> all_entries i = all_entries (io s) ++ l -> Forall (fun e => dispatched (s_data e) = false) l ->
  same_but_entries (io s) i -> live i = live (io s) -> rinv run ts (with_io i s).
Proof.
  intros [H1 H2 H3 H3' H4 H5 H6 H7 H8 H9 H10 H11] He Hl (Hc & Hp & Hh) Hv.
  assert (Hg : grows s (with_io i s)) by (split_and!; cbn; rewrite ?He; [by apply prefix_app_r | done..]).
  split; cbn; rewrite ?Hp, ?Hv, ?Hc, ?Hh; try done.
  - intros h n Hn. destruct (H4 h n Hn) as (Hin & e & Hen & Hpe). split; [done|]. exists e. rewrite He. split; [by apply lookup_app_l_Some | done].
  - intros id c Hid. specialize (H7 id c Hid). destruct run as [[id' now]|]; [case_decide|]; first [by eapply running_mono | by eapply parked_mono; eauto].
  - intros token id k Ht. destruct (H8 token id k Ht) as (Hne & c & reqs & now & q & f & n & Hid & Hd & Hb & Hla & Hca). split; [done|].
    exists c, reqs, now, q, f, n. split_and!; try done. by eapply carries_grow.
  - intros n token Hca. apply (carries_grow s i l n token He Hl Hh) in Hca. by apply H9.
  - intros n Hn. rewrite He, length_app. specialize (H11 n Hn). lia.
Qed.
Lemma rinv_loop run ts ts' s l : rinv run ts s -> linv me ts' l -> executed l = executed (the_loop s) -> rinv run ts' (with_loop l s).
Proof. intros [H1 H2 H3 H3' H4 H5 H6 H7 H8 H9 H10 H11] Hl He. split; try done. cbn. congruence. Qed.
Lemma rinv_phase run ts s p : rinv run ts s -> rinv run ts (with_phase p s).
Proof. by intros []. Qed.

(** ** Running a coroutine *)

(** What resuming coroutines leaves alone. *)
Definition keeps s s' : Prop := at_ s' = at_ s /\ posted (io s') = posted (io s) /\ IoUring.handled (io s') = IoUring.handled (io s) /\
  local (the_loop s) (the_loop s').
#[local] Instance keeps_pre : PreOrder keeps.
Proof.
  split; [by intros s|]. intros s1 s2 s3 (A1 & A2 & A3 & A4) (B1 & B2 & B3 & B4).
  split_and!; [congruence.. | by transitivity (the_loop s2)].
Qed.

Lemma run_command_ok run ts s x : rinv run ts s -> loop_thread (the_loop s) = Some thread ->
  exists s', run_command me thread x s = Some s' /\ rinv run ts s' /\ keeps s s' /\ coroutines s' = coroutines s /\
    executed (the_loop s') = executed (the_loop s).
Proof.
  intros Hi Ht. pose proof (r_loop _ _ _ Hi) as Hl. destruct x as [k|t|]; cbn [run_command].
  - destruct (fire_spec k (io s)) as (i & e & E & He & Hd & (Hc & Hp & Hh) & Hv). rewrite E. eexists. split; [reflexivity|].
    split_and!; try done. by eapply rinv_io with (l := [e]); [..|split_and!|]; auto.
  - eexists. split; [reflexivity|]. destruct (burst_step_ok me ts thread (CallSchedule t) _ Hl Ht) as (l & [= <-] & A1 & A2 & A3 & _).
    split_and!; try done. by eapply rinv_loop.
  - destruct (burst_step_ok me ts thread CallStop _ Hl Ht) as (l & E & A1 & A2 & A3 & _). cbn in E. rewrite E.
    eexists. split; [reflexivity|]. split_and!; try done. by eapply rinv_loop.
Qed.
Lemma run_commands_ok run ts xs : forall s, rinv run ts s -> loop_thread (the_loop s) = Some thread ->
  exists s', run_commands me thread xs s = Some s' /\ rinv run ts s' /\ keeps s s' /\ coroutines s' = coroutines s /\
    executed (the_loop s') = executed (the_loop s).
Proof.
  induction xs as [|x xs IH]; intros s Hi Ht; [by exists s|]. destruct (run_command_ok run ts s x Hi Ht) as (s1 & E & A1 & A2 & A3 & A4).
  destruct (IH s1 A1) as (s' & E' & B1 & B2 & B3 & B4); [by rewrite (proj1 (proj2 (proj2 (proj2 A2))))|].
  exists s'. cbn [run_commands]. rewrite E. split_and!; [exact E' | done | by transitivity s1 | congruence..].
Qed.

Lemma alter_fmap_same {A B} (f : A -> B) (g : A -> A) k (l : list A) : (forall x, f (g x) = f x) -> f <$> alter g k l = f <$> l.
Proof. intros Hf. revert k. induction l as [|x l IH]; intros [|k]; cbn; [done..| by rewrite Hf |]. f_equal. apply IH. Qed.
Lemma lookup_alter_cases {A} (f : A -> A) k (l : list A) j y : alter f k l !! j = Some y ->
  (j = k /\ exists x, l !! k = Some x /\ y = f x) \/ (j <> k /\ l !! j = Some y).
Proof.
  destruct (decide (j = k)) as [->|Hne]; [rewrite list_lookup_alter_eq | rewrite list_lookup_alter_ne by done; by right].
  intros (x & Hx & ->)%fmap_Some. left. eauto.
Qed.
Lemma add_slot_concat n id (cs : list (coroutine Co)) c : cs !! id = Some c ->
  concat (slots_of <$> alter (add_slot n) id cs) ≡ₚ n :: concat (slots_of <$> cs).
Proof.
  revert id. induction cs as [|x cs IH]; intros [|id] Hc; cbn in Hc |- *; [done..| |].
  - rewrite <- app_assoc. symmetry. apply Permutation_middle.
  - unfold alter in IH. rewrite (IH id Hc). symmetry. apply Permutation_middle.
Qed.
Lemma entry_bound run ts s h n : rinv run ts s -> finished_order s !! h = Some n -> (n < length (all_entries (io s)))%nat.
Proof. intros Hi Hh. destruct (r_posted _ _ _ Hi h n Hh) as (_ & e & He & _). by eapply lookup_lt_Some. Qed.

(** A new entry with a token. *)
Lemma carries_new s s' e n token : all_entries (io s') = all_entries (io s) ++ [e] -> finished_order s' = finished_order s ->
  IoUring.handled (io s') = IoUring.handled (io s) -> (length (all_entries (io s)) ∉ take (IoUring.handled (io s)) (finished_order s)) ->
  carries s' n token <-> carries s n token \/ (n = length (all_entries (io s)) /\ s_data e = token /\ dispatched token = true).
Proof.
  intros He Ho Hh Hnew. unfold carries. rewrite He, Ho, Hh. split.
  - intros ((e' & Hn & Ht) & Hd & Hf). apply lookup_app_Some in Hn as [Hn|[Hge Hn]]; [left; by eauto|].
    apply list_lookup_singleton_Some in Hn as [Hn <-]. right. split; [lia | done].
  - intros [((e' & Hn & Ht) & Hd & Hf)|(-> & Ht & Hd)].
    + split; [|done]. exists e'. split; [by apply lookup_app_l_Some | done].
    + split; [|done]. exists e. split; [by apply list_lookup_middle | done].
Qed.

Lemma running_waits s s' c now n q f k e : running s c now -> (body now).2 = Awaits q f k -> grows s s' ->
  all_entries (io s') !! n = Some e -> s_request e = Some q -> s_flags e = f -> forall id token,
  suspended s' !! token = Some (id, k) -> parked s' id (add_slot n c).
Proof.
  intros Hrun Hb Hg He Hq Hf id token Ht. eapply running_mono in Hrun as (reqs & Hd & Ha & Hr); [|exact Hg]. exists reqs, now. split_and!; [done | | |].
  - unfold waiting_for. rewrite Hb. apply Forall2_app; [done|]. constructor; [|constructor]. by exists e.
  - intros j t Hj. destruct (Hr j t Hj) as (m & Hm & Hans). exists m. split; [by apply lookup_app_l_Some | done].
  - intros q' f' k' Hb'. rewrite Hb in Hb'. injection Hb' as <- <- <-. by exists token.
Qed.

Lemma suspend_ok id now ts s q f k : rinv (Some (id, now)) ts s -> is_Some (coroutines s !! id) -> (body now).2 = Awaits q f k ->
  exists s', suspend new_token id q f k s = Some s' /\ rinv None ts s' /\ keeps s s' /\ the_loop s' = the_loop s.
Proof.
  intros Hi [c Hid] Hb. pose proof Hi as [H1 H2 H3 H3' H4 H5 H6 H7 H8 H9 H10 H11]. unfold suspend.
  destruct (new_token_fresh (live (io s))) as [Hfresh Hdisp]. set (token := new_token (live (io s))) in *.
  destruct (await_spec q f token (io s) Hfresh Hdisp) as (i & e & E & He & Hq & Hf & Hd & (Ec & Ep & Eh) & Ev). rewrite E.
  set (n := length (all_entries (io s))) in *. eexists. split; [reflexivity|]. split; [|by split_and!]. set (s' := with_coroutines _ _ _).
  assert (Hg : grows s s') by (split_and!; cbn; rewrite ?He; [by apply prefix_app_r | done..]).
  assert (Hnone : suspended s !! token = None) by (apply not_elem_of_dom; by rewrite <- H6).
  assert (Hen : all_entries (io s') !! n = Some e) by (cbn; rewrite He; by apply list_lookup_middle).
  assert (Hold : n ∉ take (IoUring.handled (io s)) (finished_order s)).
  { intros [h Hh]%list_elem_of_lookup. apply lookup_take_Some in Hh as [Hh _]. apply (entry_bound _ _ _ _ _ Hi) in Hh. unfold n in Hh. lia. }
  pose proof (carries_new s s' e) as Hcar. specialize (Hcar) with (1 := He) (2 := eq_refl) (3 := Eh) (4 := Hold).
  assert (Hother : forall t id' k', suspended s !! t = Some (id', k') -> t <> token /\ id' <> id).
  { intros t id' k' Ht. split; [intros ->; congruence|]. intros ->. by destruct (proj1 (H8 t id k' Ht)); left. }
  split; cbn; rewrite ?Ep, ?Eh, ?Ec, ?Ev; try done.
  - by rewrite alter_fmap_same.
  - intros h m Hm. destruct (H4 h m Hm) as (Hin & e' & Hem & Hpe). split; [done|]. exists e'. rewrite He. split; [by apply lookup_app_l_Some | done].
  - rewrite dom_insert_L, H6. done.
  - intros id' c' Hid'. apply lookup_alter_cases in Hid' as [(-> & c0 & Hc0 & ->)|[Hne Hid']].
    + rewrite Hid in Hc0. injection Hc0 as <-. specialize (H7 id c Hid). cbn in H7. rewrite decide_True in H7 by done.
      eapply (running_waits s s' c now n q f k e); try done. apply lookup_insert_eq.
    + specialize (H7 id' c' Hid'). cbn in H7. rewrite decide_False in H7 by done. eapply parked_mono; [exact Hg | | exact H7].
      intros t k' Ht. exists t. cbn. rewrite lookup_insert_ne; [done|]. by apply not_eq_sym, (Hother t id' k').
  - intros t id' k' Ht. split; [apply not_elem_of_nil|]. apply lookup_insert_Some in Ht as [[<- [= <- <-]]|[Hne Ht]].
    + specialize (H7 id c Hid). cbn in H7. rewrite decide_True in H7 by done. destruct H7 as (reqs & Hdir & _).
      exists (add_slot n c), reqs, now, q, f, n. split_and!; try done; [by rewrite list_lookup_alter_eq, Hid | by cbn; rewrite last_snoc |].
      apply Hcar. by right.
    + destruct (H8 t id' k' Ht) as (_ & c' & reqs & now' & q' & f' & m & Hid' & Hdir & Hb' & Hla & Hca). exists c', reqs, now', q', f', m.
      destruct (Hother t id' k' Ht) as [_ Hni]. rewrite list_lookup_alter_ne by done. split_and!; try done. apply Hcar. by left.
  - intros m t [Hca|(-> & <- & _)]%Hcar.
    + destruct (H9 m t Hca) as (id' & k' & c' & Ht & Hid' & Hla). destruct (Hother t id' k' Ht) as [Hnt Hni].
      exists id', k', c'. by rewrite lookup_insert_ne, list_lookup_alter_ne by done.
    + exists id, k, (add_slot n c). rewrite Hd, lookup_insert_eq, list_lookup_alter_eq, Hid. split_and!; try done. cbn. by rewrite last_snoc.
  - rewrite (add_slot_concat n id _ c Hid). apply NoDup_cons. split; [|done]. intros Hin. specialize (H11 n Hin). unfold n in H11. lia.
  - intros m Hm. rewrite (add_slot_concat n id _ c Hid) in Hm. rewrite He, length_app. cbn.
    apply elem_of_cons in Hm as [->|Hm]; [unfold n; lia | specialize (H11 m Hm); lia].
Qed.

Lemma finished_ok id now ts s : rinv (Some (id, now)) ts s -> (body now).2 = Finished -> rinv None ts s.
Proof.
  intros [H1 H2 H3 H3' H4 H5 H6 H7 H8 H9 H10 H11] Hb. split; try done.
  - intros id' c Hid. specialize (H7 id' c Hid). cbn in H7. case_decide; [|done]. destruct H7 as (reqs & Hd & Ha & Hr).
    exists reqs, now. unfold waiting_for. rewrite Hb, app_nil_r. by split_and!.
  - intros t id' k Ht. split; [apply not_elem_of_nil|]. by destruct (H8 t id' k Ht).
Qed.

Lemma resume_ok id now ts s : rinv (Some (id, now)) ts s -> is_Some (coroutines s !! id) -> loop_thread (the_loop s) = Some thread ->
  exists s', resume body new_token me thread id now s = Some s' /\ rinv None ts s' /\ keeps s s' /\ executed (the_loop s') = executed (the_loop s).
Proof.
  intros Hi Hid Ht. unfold resume. destruct (run_commands_ok _ ts (body now).1 s Hi Ht) as (s1 & -> & A1 & A2 & A3 & A4).
  cbn [mbind option_bind]. destruct ((body now).2) as [|q f k] eqn:Hb; [exists s1; split_and!; try done; by eapply finished_ok|].
  destruct (suspend_ok id now ts s1 q f k A1 ltac:(by rewrite A3) Hb) as (s' & E & B1 & B2 & B3). exists s'.
  split_and!; [done | done | by transitivity s1 | by rewrite B3].
Qed.

Lemma start_task_ok t ts s : rinv None (t :: ts) s -> loop_thread (the_loop s) = Some thread ->
  exists s', start_task body new_token me thread t s = Some s' /\ rinv None ts s' /\ keeps s s' /\ executed (the_loop s') = executed (the_loop s) ++ [t].
Proof.
  intros Hi Ht. unfold start_task. set (s1 := with_coroutines _ _ _).
  assert (Hi1 : rinv (Some (length (coroutines s), t)) ts s1).
  { destruct Hi as [H1 H2 H3 H3' H4 H5 H6 H7 H8 H9 H10 H11]. assert (Hlt : forall id c, coroutines s !! id = Some c -> id <> length (coroutines s))
      by (intros id c Hid; apply lookup_lt_Some in Hid; lia).
    assert (Hc : concat (slots_of <$> (coroutines s ++ [mk_co t [] []])) = concat (slots_of <$> coroutines s)) by (by rewrite fmap_app, concat_app; cbn; rewrite app_nil_r).
    split; cbn; rewrite ?Hc; try done.
    - destruct H1 as [Ho ?]. split; try done. cbn. by rewrite <- Ho, <- app_assoc.
    - by rewrite H2, fmap_app.
    - intros id c Hid. apply lookup_app_Some in Hid as [Hid|[Hge Hid]].
      + rewrite decide_False by (by apply (Hlt id c)). by apply (H7 id c).
      + apply list_lookup_singleton_Some in Hid as [Hid <-]. rewrite decide_True by lia. exists []. by split_and!.
    - intros token id k Hs. destruct (H8 token id k Hs) as (_ & c & reqs & now & q & f & n & Hid & Hrest). split.
      + intros Hin%list_elem_of_singleton. by apply (Hlt id c).
      + exists c, reqs, now, q, f, n. split; [by apply lookup_app_l_Some | done].
    - intros n token Hca. destruct (H9 n token Hca) as (id & k & c & Hs & Hid & Hla). exists id, k, c. split_and!; try done. by apply lookup_app_l_Some. }
  destruct (resume_ok _ _ _ s1 Hi1) as (s' & E & A1 & A2 & A3); [cbn; rewrite list_lookup_middle by done; by eexists | done |].
  exists s'. split_and!; [exact E | done | exact A2 | exact A3].
Qed.

Lemma start_tasks_ok ts : forall s, rinv None ts s -> loop_thread (the_loop s) = Some thread ->
  exists s', start_tasks body new_token me thread ts s = Some s' /\ rinv None [] s' /\ keeps s s' /\ executed (the_loop s') = executed (the_loop s) ++ ts.
Proof.
  induction ts as [|t ts IH]; intros s Hi Ht; [exists s; by rewrite app_nil_r|]. destruct (start_task_ok t ts s Hi Ht) as (s1 & E & A1 & A2 & A3).
  destruct (IH s1 A1) as (s' & E' & B1 & B2 & B3); [by rewrite (proj1 (proj2 (proj2 (proj2 A2))))|].
  exists s'. cbn [start_tasks]. rewrite E. split_and!; [exact E' | done | by transitivity s1 | by rewrite B3, A3, <- app_assoc].
Qed.

Lemma todo_list_ok s : rinv None [] s -> loop_thread (the_loop s) = Some thread ->
  exists s', todo_list body new_token me thread s = Some s' /\ rinv None [] s' /\ keeps s s' /\ executed (the_loop s') = scheduled (the_loop s).
Proof.
  intros Hi Ht. pose proof (r_loop _ _ _ Hi) as Hl. unfold todo_list. set (s1 := with_loop _ s).
  assert (Hi1 : rinv None (todo_list_ (the_loop s)) s1).
  { eapply rinv_loop; [exact Hi | | done]. destruct Hl as [Ho ?]. split; try done. cbn. by rewrite app_nil_r. }
  destruct (start_tasks_ok _ s1 Hi1 Ht) as (s' & E & A1 & A2 & A3). exists s'. split_and!; [exact E | done | exact A2 |].
  rewrite A3. apply (in_order _ _ _ Hl).
Qed.

(** ** Handling a completion *)

Lemma direct_snoc q f (k : io_token -> Co) t answers : forall c reqs now, direct body c answers = Some (reqs, now) -> (body now).2 = Awaits q f k ->
  direct body c (answers ++ [t]) = Some (reqs ++ [(q, f)], k t).
Proof.
  induction answers as [|t' answers IH]; intros c reqs now; cbn [direct app].
  - intros [= <- <-] ->. done.
  - destruct (body c).2 as [|q' f' k']; [done|]. destruct (direct body (k' t') answers) as [[reqs' now']|] eqn:E; [|done].
    cbn. intros [= <- <-] Hb. by rewrite (IH _ _ _ E Hb).
Qed.
Lemma direct_length answers : forall c reqs now, direct body c answers = Some (reqs, now) -> length reqs = length answers.
Proof.
  induction answers as [|t answers IH]; intros c reqs now; cbn [direct]; [by intros [= <- _]|]. destruct (body c).2; [done|].
  destruct (direct body _ answers) as [[reqs' now']|] eqn:E; [|done]. cbn. intros [= <- _]. cbn. by rewrite (IH _ _ _ E).
Qed.

(** The completion at the head of what is not handled belongs to entry [n]. *)
Definition after_handle s s1 n : Prop := uc (io s1) = uc (io s) /\ completed (io s1) = completed (io s) /\ posted (io s1) = posted (io s) /\
  IoUring.handled (io s1) = S (IoUring.handled (io s)) /\ finished_order s1 = finished_order s /\ results s1 = results s /\
  finished_order s !! IoUring.handled (io s) = Some n.
Lemma carries_handled s s1 n m token : NoDup (finished_order s) -> after_handle s s1 n -> carries s1 m token <-> carries s m token /\ m <> n.
Proof.
  intros Hnd (Hu & _ & _ & Hh & Ho & _ & Hn). unfold carries. rewrite Hu, Hh, Ho, (take_S_r _ _ _ Hn), not_elem_of_app.
  rewrite list_elem_of_singleton. naive_solver.
Qed.
Lemma grows_handled s s1 n : after_handle s s1 n -> grows s s1.
Proof. intros (Hu & _ & _ & _ & Ho & Hr & _). unfold grows. by rewrite Hu, Ho, Hr. Qed.

Lemma pending_entry s data : rinv None [] s -> posted (io s) !! IoUring.handled (io s) = Some data ->
  exists n t e, results s !! IoUring.handled (io s) = Some t /\ finished_order s !! IoUring.handled (io s) = Some n /\
    all_entries (io s) !! n = Some e /\ s_data e = data /\ (dispatched data = true -> carries s n data).
Proof.
  intros Hi Hp. pose proof (lookup_lt_Some _ _ _ Hp) as Hlt. destruct (r_results _ _ _ Hi) as [Hr Ho].
  destruct (lookup_lt_is_Some_2 (results s) (IoUring.handled (io s)) ltac:(lia)) as [t Ht].
  destruct (lookup_lt_is_Some_2 (finished_order s) (IoUring.handled (io s)) ltac:(lia)) as [n Hn].
  destruct (r_posted _ _ _ Hi _ _ Hn) as (_ & e & He & Hpe). rewrite Hp in Hpe. injection Hpe as Ed.
  exists n, t, e. split_and!; try done. intros Hd. split; [by exists e|]. split; [done|].
  pose proof (r_once _ _ _ Hi) as Hnd. rewrite <- (take_drop_middle _ _ _ Hn) in Hnd.
  apply NoDup_app in Hnd as (_ & Hnd & _). intros Hin. apply (Hnd n Hin). left.
Qed.

Lemma answer_running s s1 id c n t q f k now reqs : rinv None [] s -> after_handle s s1 n -> coroutines s !! id = Some c ->
  direct body (started c) (received c) = Some (reqs, now) -> (body now).2 = Awaits q f k -> last (slots_of c) = Some n ->
  results s !! IoUring.handled (io s) = Some t -> running s1 (add_answer t c) (k t).
Proof.
  intros Hi Ha Hid Hdir Hb Hla Ht. pose proof (r_coroutines _ _ _ Hi id c Hid) as (reqs' & now' & Hdir' & Hasks & Hans & _).
  rewrite Hdir in Hdir'. injection Hdir' as <- <-. unfold waiting_for in Hasks. rewrite Hb in Hasks.
  pose proof (grows_handled _ _ _ Ha) as Hg. destruct Hg as (G1 & G2 & G3).
  exists (reqs ++ [(q, f)]). split_and!; cbn [started received slots_of add_answer].
  - by eapply direct_snoc.
  - eapply Forall2_impl; [exact Hasks|]. intros m qf. by apply asks_mono.
  - intros j t' Hj. apply lookup_app_Some in Hj as [Hj|[Hge Hj]].
    + destruct (Hans j t' Hj) as (m & Hm & Hat). exists m. split; [done | by eapply answered_mono].
    + apply list_lookup_singleton_Some in Hj as [Hj <-]. exists n.
      apply Forall2_length in Hasks. rewrite length_app, (direct_length _ _ _ _ Hdir) in Hasks. cbn in Hasks.
      rewrite last_lookup in Hla. split; [rewrite <- Hla; f_equal; lia|]. exists (IoUring.handled (io s)).
      destruct Ha as (_ & _ & _ & _ & -> & -> & Hn). done.
Qed.

Lemma deliver_inv s i id c n t q f k now reqs data : rinv None [] s ->
  let s1 := with_coroutines (delete data (suspended s)) (alter (add_answer t) id (coroutines s)) (with_io i s) in
  after_handle s s1 n -> live i = live (io s) ∖ {[data]} -> suspended s !! data = Some (id, k) -> coroutines s !! id = Some c ->
  direct body (started c) (received c) = Some (reqs, now) -> (body now).2 = Awaits q f k -> last (slots_of c) = Some n ->
  carries s n data -> results s !! IoUring.handled (io s) = Some t -> rinv (Some (id, k t)) [] s1.
Proof.
  intros Hi s1 Ha Hv Hsus Hid Hdir Hb Hla Hca Ht. pose proof Hi as [H1 H2 H3 H3' H4 H5 H6 H7 H8 H9 H10 H11].
  pose proof (fun m token => carries_handled s s1 n m token H5 Ha) as Hcar.
  pose proof Ha as (Hu & Hc & Hp & Hh & Ho & Hr & Hn). cbn in Hu, Hc, Hp, Hh.
  assert (Hsame : forall x : coroutine Co, slots_of (add_answer t x) = slots_of x) by done.
  assert (Hother : forall token id' k', suspended s !! token = Some (id', k') -> token <> data -> id' <> id).
  { intros token id' k' Ht' Hne ->. destruct (H8 token id k' Ht') as (_ & c' & reqs' & now' & q' & f' & n' & Hid' & _ & _ & Hla' & ((e & He & Hd) & _)).
    rewrite Hid in Hid'. injection Hid' as <-. rewrite Hla in Hla'. injection Hla' as <-. destruct Hca as ((e' & He' & Hd') & _). congruence. }
  split; cbn; rewrite ?Hp, ?Hh, ?Hc, ?Hv, ?Hu; try done.
  - by rewrite alter_fmap_same.
  - apply lookup_lt_Some in Hn. lia.
  - by rewrite dom_delete_L, H6.
  - intros id' c' Hid'. apply lookup_alter_cases in Hid' as [(-> & c0 & Hc0 & ->)|[Hne Hid']].
    + rewrite Hid in Hc0. injection Hc0 as <-. rewrite decide_True by done. by eapply answer_running.
    + rewrite decide_False by done. eapply parked_mono; [by eapply grows_handled | | exact (H7 id' c' Hid')].
      intros token k' Ht'. exists token. cbn. rewrite lookup_delete_ne; [done|]. intros ->. congruence.
  - intros token id' k' [Hne Ht']%lookup_delete_Some. assert (Hni : id' <> id) by (by eapply Hother). split; [by intros ?%list_elem_of_singleton|].
    destruct (H8 token id' k' Ht') as (_ & c' & reqs' & now' & q' & f' & n' & Hid' & Hdir' & Hb' & Hla' & Hca').
    exists c', reqs', now', q', f', n'. rewrite list_lookup_alter_ne by done. split_and!; try done. apply Hcar. split; [done|]. intros ->.
    destruct Hca as ((e & He & Hd) & _), Hca' as ((e' & He' & Hd') & _). congruence.
  - intros m token [Hca' Hmn]%Hcar. destruct (H9 m token Hca') as (id' & k' & c' & Ht' & Hid' & Hla').
    assert (Hne : token <> data) by (intros ->; congruence). exists id', k', c'.
    rewrite lookup_delete_ne, list_lookup_alter_ne by (done || by apply not_eq_sym; eauto). done.
  - by rewrite alter_fmap_same.
  - by rewrite alter_fmap_same.
Qed.

Lemma skip_inv s i n data : rinv None [] s -> after_handle s (with_io i s) n -> live i = live (io s) ->
  (exists e, all_entries (io s) !! n = Some e /\ s_data e = data) -> dispatched data = false -> rinv None [] (with_io i s).
Proof.
  intros Hi Ha Hv (e & He & Hd) Hnd. pose proof Hi as [H1 H2 H3 H3' H4 H5 H6 H7 H8 H9 H10 H11].
  pose proof (fun m token => carries_handled s _ n m token H5 Ha) as Hcar.
  pose proof Ha as (Hu & Hc & Hp & Hh & Ho & Hr & Hn). cbn in Hu, Hc, Hp, Hh.
  split; cbn; rewrite ?Hp, ?Hh, ?Hc, ?Hv, ?Hu; try done.
  - apply lookup_lt_Some in Hn. lia.
  - intros id c Hid. eapply parked_mono; [by eapply grows_handled | | exact (H7 id c Hid)]. intros token k Ht. by exists token.
  - intros token id k Ht. destruct (H8 token id k Ht) as (Hne & c & reqs & now & q & f & m & Hid & Hdir & Hb & Hla & Hca). split; [done|].
    exists c, reqs, now, q, f, m. split_and!; try done. apply Hcar. split; [done|]. intros ->.
    destruct Hca as ((e' & He' & Hd') & Hdis & _). congruence.
  - intros m token [Hca _]%Hcar. by apply H9.
Qed.

Lemma handle_next_ok s data : rinv None [] s -> loop_thread (the_loop s) = Some thread -> posted (io s) !! IoUring.handled (io s) = Some data ->
  exists s', handle_next body new_token me thread s = Some s' /\ rinv None [] s' /\ at_ s' = at_ s /\
    local (the_loop s) (the_loop s') /\ IoUring.handled (io s') = S (IoUring.handled (io s)).
Proof.
  intros Hi Hth Hp. destruct (pending_entry s data Hi Hp) as (n & t & e & Ht & Hn & He & Hd & Hca). unfold handle_next. rewrite Hp, Ht.
  assert (Hlive : dispatched data = true -> data ∈ live (io s)).
  { intros Hdis. destruct (r_tokens _ _ _ Hi n data (Hca Hdis)) as (id & k & c & Hs & _). rewrite (r_live _ _ _ Hi). by apply elem_of_dom. }
  destruct (handle_spec (io s) data Hp Hlive) as (i & E & Eu & Ec & Ep & Eh & Ev). rewrite E. cbn [mbind option_bind].
  destruct (dispatched data) eqn:Hdis.
  - destruct (r_tokens _ _ _ Hi n data (Hca eq_refl)) as (id & k & c & Hs & Hid & Hla). rewrite Hs. cbn [mbind option_bind fst snd].
    destruct (r_frames _ _ _ Hi data id k Hs) as (_ & c' & reqs & now & q & f & n' & Hid' & Hdir & Hb & _). rewrite Hid in Hid'. injection Hid' as <-.
    set (s1 := with_coroutines _ _ _). assert (Ha : after_handle s s1 n) by (by split_and!).
    pose proof (deliver_inv s i id c n t q f k now reqs data Hi Ha Ev Hs Hid Hdir Hb Hla (Hca eq_refl) Ht) as Hi1.
    destruct (resume_ok id (k t) [] s1 Hi1) as (s' & E' & A1 & (A2 & _ & A3 & A4) & _); [cbn; rewrite list_lookup_alter_eq, Hid; by eexists | done |].
    exists s'. split_and!; [exact E' | done | exact A2 | exact A4 | rewrite A3; exact Eh].
  - eexists. split; [reflexivity|]. split_and!; [|done | done | exact Eh].
    eapply (skip_inv s i n data); [done | by split_and! | done | by exists e | done].
Qed.

(** ** The steps *)

Lemma complete_ok n t i s : rinv None [] s -> act (Complete n) (io s) = Some i ->
  rinv None [] (mk_runtime i (results s ++ [t]) (finished_order s ++ [n]) (the_loop s) (suspended s) (coroutines s) (at_ s)).
Proof.
  intros Hi E. pose proof Hi as [H1 H2 [H3a H3b] H3' H4 H5 H6 H7 H8 H9 H10 H11]. cbn [act] in E.
  destruct (submitted (ring (uc (io s))) !! n) as [e|] eqn:He; [|done]. case_decide as Hn; [done|]. injection E as <-.
  set (s' := mk_runtime _ _ _ _ _ _ _).
  assert (Hen : all_entries (io s) !! n = Some e) by (unfold entries; by apply lookup_app_l_Some).
  assert (Hg : grows s s') by (split_and!; cbn; [done | by apply prefix_app_r..]).
  assert (Htake : take (IoUring.handled (io s)) (finished_order s ++ [n]) = take (IoUring.handled (io s)) (finished_order s)) by (apply take_app_le; lia).
  assert (Hcar : forall m token, carries s' m token <-> carries s m token) by (intros; unfold carries; cbn; by rewrite Htake).
  split; cbn; try done.
  - rewrite !length_app. cbn. lia.
  - rewrite length_app. lia.
  - intros h m Hm. apply lookup_app_Some in Hm as [Hm|[Hge Hm]].
    + destruct (H4 h m Hm) as (Hin & e' & He' & Hp). split; [set_solver|]. exists e'. split; [done | by apply lookup_app_l_Some].
    + apply list_lookup_singleton_Some in Hm as [Hh <-]. split; [set_solver|]. exists e. split; [done|].
      replace h with (length (posted (io s))) by lia. by apply list_lookup_middle.
  - apply NoDup_app. split_and!; [done | | apply NoDup_singleton]. intros m [h Hh]%list_elem_of_lookup ->%list_elem_of_singleton.
    by destruct (H4 h n Hh).
  - intros id c Hid. eapply parked_mono; [exact Hg | | exact (H7 id c Hid)]. intros token k Ht. by exists token.
  - intros token id k Ht. destruct (H8 token id k Ht) as (Hne & c & reqs & now & q & f & m & Hid & Hdir & Hb & Hla & Hca). split; [done|].
    exists c, reqs, now, q, f, m. split_and!; try done. by apply Hcar.
  - intros m token Hca%Hcar. by apply H9.
Qed.

Definition phase_ok s : Prop := loop_thread (the_loop s) = if decide (at_ s = Idle) then None else Some thread.

Lemma outside_ok x s s' : rinv None [] s -> outside_call me x s = Some s' ->
  match x with Schedule _ | Wakeup | StopFrom _ => True | _ => False end ->
  rinv None [] s' /\ loop_thread (the_loop s') = loop_thread (the_loop s) /\ at_ s' = at_ s.
Proof.
  intros Hi E Hx. unfold outside_call in E. destruct (loop_act _ me x (the_loop s)) as [l|] eqn:El; [|done]. injection E as <-.
  pose proof (loop_step_inv _ me _ x l (r_loop _ _ _ Hi) El) as Hl.
  assert (Hs : executed l = executed (the_loop s) /\ loop_thread l = loop_thread (the_loop s)).
  { destruct x; try done; cbn [loop_act] in El; unfold wakeup, stop, notify in El; repeat case_match; simplify_eq; done. }
  destruct Hs as [He Ht]. split_and!; [by eapply rinv_loop | done | done].
Qed.

Lemma loop_test_ok s : rinv None [] s -> loop_thread (the_loop s) = Some thread ->
  exists s', loop_test thread s = Some s' /\ rinv None [] s' /\ phase_ok s' /\ executed (the_loop s') = executed (the_loop s) /\
    at_ s' = if ctx_stopped (the_loop s) then Idle else Waits.
Proof.
  intros Hi Ht. unfold loop_test. destruct (ctx_stopped (the_loop s)).
  - eexists. split; [reflexivity|]. split_and!; try done. apply rinv_phase. eapply rinv_loop; [exact Hi | | done].
    apply run_return_inv; [apply (r_loop _ _ _ Hi) | done].
  - destruct (submit_spec (io s)) as (i & E & He & (Hc & Hp & Hh) & Hv). rewrite E. eexists. split; [reflexivity|].
    split_and!; try done. apply rinv_phase. eapply (rinv_io _ _ _ _ []); try done. by rewrite app_nil_r.
Qed.

(** Both ways into the to-do list. *)
Lemma round_ends s : rinv None [] s -> loop_thread (the_loop s) = Some thread ->
  exists s', (s1 ← todo_list body new_token me thread s; loop_test thread s1) = Some s' /\ rinv None [] s' /\ phase_ok s' /\
    executed (the_loop s') = scheduled (the_loop s).
Proof.
  intros Hi Ht. destruct (todo_list_ok s Hi Ht) as (s1 & E1 & A1 & (_ & _ & _ & A2) & A3). rewrite E1. cbn [mbind option_bind].
  destruct (loop_test_ok s1 A1) as (s' & E & B1 & B2 & B3 & _); [by rewrite (proj1 A2)|]. exists s'. split_and!; [done..|]. by rewrite B3.
Qed.

(** Starting the loop: it fails only when the timer service cannot be
    started, which it can unless an earlier one still waits. *)
Lemma run_loop_starts s : rinv None [] s -> phase_ok s -> at_ s = Idle -> get_io_context thread (the_loop s) = None ->
  exists s1, todo_list body new_token me thread (with_loop (run_start me thread (the_loop s)) s) = Some s1 /\ rinv None [] s1 /\
    loop_thread (the_loop s1) = Some thread /\ executed (the_loop s1) = scheduled (the_loop s) /\
    (event_of (the_timing (the_loop s)) <> HasWaiter -> event_of (the_timing (the_loop s1)) <> HasWaiter).
Proof.
  intros Hi Hp Ha Hg. unfold phase_ok in Hp. rewrite decide_True in Hp by done.
  destruct (run_start_ok me thread _ (r_loop _ _ _ Hi) Hp Hg) as (A1 & A2 & A3 & A4).
  destruct (todo_list_ok (with_loop (run_start me thread (the_loop s)) s)) as (s1 & E & B1 & (_ & _ & _ & B2) & B3); [|done |].
  - eapply rinv_loop; [exact Hi | done |]. unfold run_start. by destruct (internal_signal_fd_ _).
  - exists s1. destruct B2 as (B2 & _ & _ & _ & _ & B4 & _). cbn [the_loop with_loop] in *. rewrite A4 in B4. split_and!; [done | done | by rewrite B2 | | done].
    by rewrite B3.
Qed.
Lemma service_inv s l : rinv None [] s -> start_service (the_loop s) = Some l -> rinv None [] (with_loop l s) /\
  loop_thread l = loop_thread (the_loop s) /\ executed l = executed (the_loop s).
Proof.
  intros Hi E. apply run_service_same in E as [Hs Hw]; [|apply (nothing_missed _ _ _ (r_loop _ _ _ Hi))].
  pose proof (same_loop_fields _ _ Hs) as (A1 & _ & _ & _ & _ & A6 & _). split_and!; [|done..].
  eapply rinv_loop; [exact Hi | by eapply same_loop_linv; [..|apply (r_loop _ _ _ Hi)] | done].
Qed.
Lemma run_loop_inv s s' : rinv None [] s -> phase_ok s -> runtime_act body new_token me thread RunLoop s = Some s' ->
  rinv None [] s' /\ phase_ok s' /\ executed (the_loop s') = scheduled (the_loop s).
Proof.
  intros Hi Hp E. cbn [runtime_act] in E. case_decide as Ha; [|done]. destruct (get_io_context thread (the_loop s)) eqn:Hg; [done|].
  destruct (run_loop_starts s Hi Hp Ha Hg) as (s1 & E1 & A1 & A2 & A3 & _). rewrite E1 in E. cbn [mbind option_bind] in E.
  destruct (start_service (the_loop s1)) as [l|] eqn:El; [|done]. destruct (service_inv s1 l A1 El) as (B1 & B2 & B3).
  destruct (loop_test_ok (with_loop l s1) B1) as (s2 & E2 & C1 & C2 & C3 & _); [cbn; congruence|].
  cbn [mbind option_bind] in E. rewrite E2 in E. injection E as <-. split_and!; [done..|]. rewrite C3. cbn. congruence.
Qed.
Lemma run_loop_ok s : rinv None [] s -> phase_ok s -> at_ s = Idle -> get_io_context thread (the_loop s) = None ->
  event_of (the_timing (the_loop s)) <> HasWaiter ->
  exists s', runtime_act body new_token me thread RunLoop s = Some s' /\ executed (the_loop s') = scheduled (the_loop s).
Proof.
  intros Hi Hp Ha Hg Hw. destruct (run_loop_starts s Hi Hp Ha Hg) as (s1 & E1 & A1 & A2 & A3 & A4).
  destruct (start_service_ok (the_loop s1) (A4 Hw)) as [l El]. destruct (service_inv s1 l A1 El) as (B1 & B2 & B3).
  destruct (loop_test_ok (with_loop l s1) B1) as (s2 & E2 & C1 & C2 & C3 & _); [cbn; congruence|].
  assert (E : runtime_act body new_token me thread RunLoop s = Some s2).
  { cbn [runtime_act]. rewrite decide_True, Hg by done. rewrite E1. cbn [mbind option_bind]. by rewrite El. }
  exists s2. split; [exact E|]. by apply (run_loop_inv s).
Qed.

Lemma runtime_step_inv x s s' : rinv None [] s /\ phase_ok s -> runtime_step body new_token me thread s x s' -> rinv None [] s' /\ phase_ok s'.
Proof.
  unfold runtime_step, steps_of. intros [Hi Hp] E.
  assert (Hout : forall a, outside_call me a s = Some s' -> match a with Schedule _ | Wakeup | StopFrom _ => True | _ => False end ->
    rinv None [] s' /\ phase_ok s').
  { intros a Ea Hx. destruct (outside_ok a s s' Hi Ea Hx) as (A1 & A2 & A3). split; [done|]. unfold phase_ok. by rewrite A2, A3. }
  assert (Hth : at_ s = Handles -> loop_thread (the_loop s) = Some thread) by (intros Ha; unfold phase_ok in Hp; by rewrite Ha in Hp).
  destruct x as [t| |from| |n t| | | |]; [| | | |cbn [runtime_act] in E..].
  - cbn [runtime_act] in E. case_decide; [|done]. by eapply Hout.
  - by eapply Hout.
  - cbn [runtime_act] in E. case_decide; [done|]. by eapply Hout.
  - destruct (run_loop_inv s s' Hi Hp E) as (A1 & A2 & _). by split.
  - destruct (act (Complete n) (io s)) as [i|] eqn:Ei; [|done]. injection E as <-. split; [by apply complete_ok | done].
  - case_decide as Ha; [|done]. injection E as <-. split; [by apply rinv_phase|]. unfold phase_ok in *. cbn. by rewrite Ha in Hp.
  - case_decide as Ha; [|done]. destruct (posted (io s) !! IoUring.handled (io s)) as [data|] eqn:Hd; [|unfold handle_next in E; by rewrite Hd in E].
    destruct (handle_next_ok s data Hi (Hth Ha) Hd) as (s1 & E1 & A1 & A2 & A3 & _). rewrite E in E1. injection E1 as <-.
    split; [done|]. unfold phase_ok in *. by rewrite (proj1 A3), A2.
  - case_decide as Ha; [|done]. destruct (handle_completion me thread EventRead (the_loop s)) as [l|] eqn:El; [|done]. injection E as <-.
    destruct (handle_completion_inv me thread EventRead _ l (r_loop _ _ _ Hi) (Hth Ha) El) as [A1 A2].
    assert (executed l = executed (the_loop s)) by (cbn [handle_completion] in El; by destruct (_ && _); simplify_eq).
    split; [by eapply rinv_loop|]. unfold phase_ok. cbn. by rewrite A2, Ha.
  - case_decide as Ha; [|done]. destruct (round_ends s Hi (Hth (proj1 Ha))) as (s1 & E1 & A1 & A2 & _). rewrite E in E1. by injection E1 as <-.
Qed.

Lemma runtime_reachable u c0 tl es s : entries u = [] -> fresh_context me tl c0 ->
  star (runtime_step body new_token me thread) (runtime_start u c0) es s -> rinv None [] s /\ phase_ok s.
Proof.
  intros Hu Hc. apply (star_inv _ (fun s => rinv None [] s /\ phase_ok s)); [|intros s1 x s2; apply runtime_step_inv].
  pose proof (loop_reachable (fun _ => []) me tl c0 [] c0 Hc (star_refl _ _)) as Hl.
  assert (Hcar : forall n token, ~ carries (runtime_start (Co := Co) u c0) n token) by (intros n token ((e & He & _) & _); cbn in He; by rewrite Hu in He).
  destruct Hc as [Ec _]. unfold create_eventfd in Ec. cbn in Ec. split; [|unfold phase_ok; by injection Ec as <-].
  split; cbn; try done; try (by injection Ec as <-); try apply NoDup_nil_2.
  - intros n token Hca. by destruct (Hcar n token).
  - intros n Hn. by apply not_elem_of_nil in Hn.
Qed.

(** Before the loop is started for the first time. *)
Lemma not_started_yet u c0 tl es s : fresh_context me tl c0 -> RunLoop ∉ es ->
  star (runtime_step body new_token me thread) (runtime_start u c0) es s -> at_ s = Idle /\ event_of (the_timing (the_loop s)) <> HasWaiter.
Proof.
  intros [Hc _] Hes Hs. injection Hc as Hc. remember (runtime_start u c0) as s0 eqn:E0. revert Hes.
  induction Hs as [|s0 es s1 x s2 _ IH Hx]; intros Hes; subst; [done|].
  apply not_elem_of_app in Hes as [Hes Hne]. destruct (IH eq_refl Hes) as [Hi Hw]. unfold runtime_step, steps_of in Hx.
  assert (Hx' : x <> RunLoop) by (intros ->; apply Hne; left).
  assert (Hout : forall a, outside_call me a s1 = Some s2 -> match a with Schedule _ | Wakeup | StopFrom _ => True | _ => False end ->
    at_ s2 = Idle /\ event_of (the_timing (the_loop s2)) <> HasWaiter).
  { intros a Ea Ha. unfold outside_call in Ea. destruct (loop_act _ me a (the_loop s1)) as [l|] eqn:El; [|done]. injection Ea as <-. split; [done|].
    destruct a; try done; cbn [loop_act] in El; unfold wakeup, stop, notify in El; repeat case_match; by simplify_eq. }
  destruct x; cbn [runtime_act] in Hx; rewrite ?Hi in Hx; try done.
  - rewrite decide_True in Hx by done. by eapply Hout.
  - by eapply Hout.
  - case_decide; [done|]. by eapply Hout.
  - destruct (act _ _); [|done]. by injection Hx as <-.
Qed.

(** What the loop can do next: it can be started when no timer service of an
    earlier [run()] still waits for its event. *)
Definition next_move s : Prop :=
  match at_ s with
  | Idle => get_io_context thread (the_loop s) = None -> event_of (the_timing (the_loop s)) <> HasWaiter ->
      exists s', runtime_act body new_token me thread RunLoop s = Some s' /\ executed (the_loop s') = scheduled (the_loop s)
  | Waits => is_Some (runtime_act body new_token me thread WaitReturns s)
  | Handles =>
    match posted (io s) !! IoUring.handled (io s) with
    | Some _ => exists s', runtime_act body new_token me thread HandleNext s = Some s' /\
        IoUring.handled (io s') = S (IoUring.handled (io s))
    | None => exists s', runtime_act body new_token me thread EndRound s = Some s' /\ executed (the_loop s') = scheduled (the_loop s)
    end
  end.
Lemma next_move_ok s : rinv None [] s -> phase_ok s -> next_move s.
Proof.
  intros Hi Hp. unfold next_move. destruct (at_ s) eqn:Ha.
  - intros Hg Hw. by apply run_loop_ok.
  - cbn [runtime_act]. rewrite Ha. by eexists.
  - assert (Hth : loop_thread (the_loop s) = Some thread) by (unfold phase_ok in Hp; by rewrite Ha in Hp).
    destruct (posted (io s) !! IoUring.handled (io s)) as [data|] eqn:Hd; cbn [runtime_act].
    + rewrite decide_True by done. destruct (handle_next_ok s data Hi Hth Hd) as (s' & E & _ & _ & _ & Hh). by exists s'.
    + rewrite decide_True by done. destruct (round_ends s Hi Hth) as (s' & E & _ & _ & X). by exists s'.
Qed.

(** Where a coroutine is, between two steps of the loop. *)
Lemma parked_where s id c : rinv None [] s -> coroutines s !! id = Some c ->
  exists reqs now, direct body (started c) (received c) = Some (reqs, now) /\
    Forall2 (asks s) (slots_of c) (reqs ++ waiting_for body now) /\
    (forall j t, received c !! j = Some t -> exists n, slots_of c !! j = Some n /\ answered s n t) /\
    (forall n t, (body now).2 <> Finished -> last (slots_of c) = Some n -> answered s n t ->
       exists h, (IoUring.handled (io s) <= h)%nat /\ finished_order s !! h = Some n).
Proof.
  intros Hi Hid. destruct (r_coroutines _ _ _ Hi id c Hid) as (reqs & now & Hdir & Hasks & Hans & Hwait).
  exists reqs, now. split_and!; [done..|]. intros n t Hb Hla (h & Hh & _). exists h. split; [|done].
  destruct ((body now).2) as [|q f k] eqn:Eb; [done|]. destruct (Hwait q f k eq_refl) as [token Ht].
  destruct (r_frames _ _ _ Hi token id k Ht) as (_ & c' & _ & _ & _ & _ & n' & Hid' & _ & _ & Hla' & _ & _ & Hca).
  rewrite Hid in Hid'. injection Hid' as <-. rewrite Hla in Hla'. injection Hla' as <-.
  destruct (decide (IoUring.handled (io s) <= h)%nat); [done|]. destruct Hca. apply list_elem_of_lookup. exists h.
  rewrite lookup_take_lt by lia. done.
Qed.

(** [C9] Coroutines on the event loop behave like functions that block.  For
    any coroutines, any kernel that answers in any order and at any time and
    takes entries off a full queue after finitely many submissions, and
    messages from other threads, in every reachable state:
    - every scheduled task was started, once and in order, or is still in
      [todo_list_];
    - every coroutine is exactly where a direct-style program would be that
      was given the same answers, the requests in its entries of the
      submission queue are exactly those that program would have made, in
      order, and each answer it got is what the kernel said about that very
      entry; no two coroutines share an entry;
    - when the kernel has answered the entry a coroutine waits for, the
      completion is among those the loop has still to handle;
    - and the loop, once started, never fails: it can always handle the next
      completion, or end its round by starting every task scheduled so far, or
      return from its wait; and it can be started, unless the timer service of
      an earlier [run()] still waits for its event, which is not so before
      the first. *)
Theorem coroutines_run_direct_style u tl c0 es s : entries u = [] -> fresh_context me tl c0 ->
  star (runtime_step body new_token me thread) (runtime_start u c0) es s ->
  executed (the_loop s) = started <$> coroutines s /\ executed (the_loop s) ++ todo_list_ (the_loop s) = scheduled (the_loop s) /\
  (forall id c, coroutines s !! id = Some c -> exists reqs now, direct body (started c) (received c) = Some (reqs, now) /\
     Forall2 (asks s) (slots_of c) (reqs ++ waiting_for body now) /\
     (forall j t, received c !! j = Some t -> exists n, slots_of c !! j = Some n /\ answered s n t) /\
     (forall n t, (body now).2 <> Finished -> last (slots_of c) = Some n -> answered s n t ->
        exists h, (IoUring.handled (io s) <= h)%nat /\ finished_order s !! h = Some n)) /\
  NoDup (concat (slots_of <$> coroutines s)) /\ next_move s /\
  (RunLoop ∉ es -> at_ s = Idle /\ event_of (the_timing (the_loop s)) <> HasWaiter).
Proof.
  intros Hu Hc Hs. destruct (runtime_reachable u c0 tl es s Hu Hc Hs) as [Hi Hp].
  split_and!; [apply (r_executed _ _ _ Hi) | apply (in_order _ _ _ (r_loop _ _ _ Hi)) | | apply (r_slots _ _ _ Hi) | by apply next_move_ok |
    intros Hn; by eapply not_started_yet].
  intros id c Hid. by apply (parked_where s id).
Qed.

(** ** Which coroutines there can be *)

Context (P : Co -> Prop).
Hypothesis schedules_only : forall c t, ScheduleTask t ∈ (body c).1 -> P t.
Definition all_scheduled s : Prop := Forall P (scheduled (the_loop s)).

Lemma run_command_scheduled x s s' : (forall t, x = ScheduleTask t -> P t) -> run_command me thread x s = Some s' -> all_scheduled s -> all_scheduled s'.
Proof.
  unfold all_scheduled. intros HP E Hs. destruct x as [k|t|]; cbn [run_command] in E.
  - destruct (act (Fire k) (io s)); [|done]. by injection E as <-.
  - injection E as <-. apply Forall_app. split; [done | by apply Forall_singleton, HP].
  - destruct (stop me thread (the_loop s)) as [l|] eqn:El; [|done]. injection E as <-. cbn. unfold stop, notify in El. by repeat case_match; simplify_eq.
Qed.
Lemma run_commands_scheduled xs : forall s s', (forall t, ScheduleTask t ∈ xs -> P t) -> run_commands me thread xs s = Some s' -> all_scheduled s -> all_scheduled s'.
Proof.
  induction xs as [|x xs IH]; intros s s' HP E Hs; cbn [run_commands] in E; [by injection E as <-|].
  destruct (run_command me thread x s) as [s1|] eqn:E1; [|done]. cbn [mbind option_bind] in E.
  eapply IH; [|exact E|]; [intros t Ht; apply HP; by right|]. eapply run_command_scheduled; [|exact E1 | done]. intros t ->. apply HP. by left.
Qed.
Lemma resume_scheduled id c s s' : resume body new_token me thread id c s = Some s' -> all_scheduled s -> all_scheduled s'.
Proof.
  unfold resume. destruct (run_commands me thread (body c).1 s) as [s1|] eqn:E1; [|done]. cbn [mbind option_bind]. intros E Hs.
  pose proof (run_commands_scheduled _ _ _ (schedules_only c) E1 Hs) as H1. destruct ((body c).2) as [|q f k]; [by injection E as <-|].
  unfold suspend in E. destruct (act _ _); [|done]. by injection E as <-.
Qed.
Lemma start_tasks_scheduled ts : forall s s', start_tasks body new_token me thread ts s = Some s' -> all_scheduled s -> all_scheduled s'.
Proof.
  induction ts as [|t ts IH]; intros s s' E Hs; cbn [start_tasks] in E; [by injection E as <-|].
  destruct (start_task body new_token me thread t s) as [s1|] eqn:E1; [|done]. eapply IH; [exact E|]. unfold start_task in E1.
  by eapply resume_scheduled.
Qed.
Lemma start_list_scheduled s s' : todo_list body new_token me thread s = Some s' -> all_scheduled s -> all_scheduled s'.
Proof. unfold todo_list. intros E Hs. by eapply start_tasks_scheduled. Qed.
Lemma service_scheduled s l : start_service (the_loop s) = Some l -> all_scheduled s -> all_scheduled (with_loop l s).
Proof.
  unfold all_scheduled, start_service. cbn [run_service andb]. intros E Hs. cbn. by repeat case_match; simplify_eq.
Qed.
Lemma loop_test_scheduled s s' : loop_test thread s = Some s' -> all_scheduled s -> all_scheduled s'.
Proof.
  unfold loop_test. intros E Hs. destruct (ctx_stopped (the_loop s)); [by injection E as <-|]. destruct (act Submit (io s)); [|done]. by injection E as <-.
Qed.
Lemma todo_list_scheduled s s' : (s1 ← todo_list body new_token me thread s; loop_test thread s1) = Some s' -> all_scheduled s -> all_scheduled s'.
Proof.
  destruct (todo_list body new_token me thread s) as [s1|] eqn:E1; [|done]. cbn [mbind option_bind]. intros E Hs.
  eapply loop_test_scheduled; [exact E|]. by eapply start_list_scheduled.
Qed.
Lemma runtime_step_scheduled s x s' : match x with Outside t => P t | _ => True end ->
  runtime_step body new_token me thread s x s' -> all_scheduled s -> all_scheduled s'.
Proof.
  unfold runtime_step, steps_of. intros Hx E Hs.
  assert (Hout : forall a, match a with Schedule t => P t | Wakeup | StopFrom _ => True | _ => False end -> outside_call me a s = Some s' -> all_scheduled s').
  { intros a Ha Ea. unfold outside_call in Ea. destruct (loop_act _ me a (the_loop s)) as [l|] eqn:El; [|done]. injection Ea as <-. unfold all_scheduled. cbn.
    assert (Hsame : scheduled l = scheduled (the_loop s) \/ exists t, P t /\ scheduled l = scheduled (the_loop s) ++ [t]).
    { destruct a as [t| | |from| | | |]; try by destruct Ha.
      - injection El as <-. right. by exists t.
      - left. cbn [loop_act] in El. unfold wakeup, notify in El. by case_match; simplify_eq.
      - left. cbn [loop_act] in El. unfold stop, notify in El. by repeat case_match; simplify_eq. }
    destruct Hsame as [->|(t & Ht & ->)]; [done|]. apply Forall_app. split; [done | by apply Forall_singleton]. }
  destruct x as [t| |from| |n t| | | |]; cbn [runtime_act] in E.
  - case_decide; [|done]. by apply (Hout (Schedule t)).
  - by apply (Hout Wakeup).
  - case_decide; [done|]. by apply (Hout (StopFrom from)).
  - case_decide; [|done]. destruct (get_io_context _ _); [done|].
    destruct (todo_list body new_token me thread _) as [s1|] eqn:E1; [|done]. cbn [mbind option_bind] in E.
    destruct (start_service (the_loop s1)) as [l|] eqn:El; [|done]. cbn [mbind option_bind] in E.
    eapply loop_test_scheduled; [exact E|]. eapply service_scheduled; [exact El|]. eapply start_list_scheduled; [exact E1|].
    unfold all_scheduled, run_start. cbn. by destruct (internal_signal_fd_ _).
  - destruct (act _ _); [|done]. by injection E as <-.
  - case_decide; [|done]. by injection E as <-.
  - case_decide; [|done]. unfold handle_next in E. destruct (posted _ !! _) as [data|]; [|done]. destruct (results s !! _); [|done].
    cbn [mbind option_bind] in E. destruct (act Handle (io s)); [|done]. cbn [mbind option_bind] in E. destruct (dispatched data); [|by injection E as <-].
    destruct (suspended s !! data) as [c|]; [|done]. by eapply resume_scheduled.
  - case_decide; [|done]. destruct (handle_completion _ _ _ _) as [l|] eqn:El; [|done]. injection E as <-.
    cbn [handle_completion] in El. destruct (_ && _); [|done]. by injection El as <-.
  - case_decide; [|done]. by eapply todo_list_scheduled.
Qed.
(** Every coroutine that was started satisfies [P], when those that are
    scheduled from outside do. *)
Lemma started_only u tl c0 es s : entries u = [] -> fresh_context me tl c0 -> Forall (fun x => match x with Outside t => P t | _ => True end) es ->
  star (runtime_step body new_token me thread) (runtime_start u c0) es s -> forall id c, coroutines s !! id = Some c -> P (started c).
Proof.
  intros Hu Hc Hes Hs id c Hid. destruct (runtime_reachable u c0 tl es s Hu Hc Hs) as [Hi _].
  assert (Ha : all_scheduled s).
  { clear Hi Hid. destruct Hc as [Ec _]. unfold create_eventfd in Ec. cbn in Ec. remember (runtime_start u c0) as s0 eqn:E0. revert Hes.
    induction Hs as [|s0 es s1 x s2 _ IH Hstep]; intros Hes; subst; [injection Ec as <-; constructor|].
    apply Forall_app in Hes as [H1 H2]. rewrite Forall_singleton in H2. eapply runtime_step_scheduled; [exact H2 | exact Hstep | by apply IH]. }
  unfold all_scheduled in Ha. rewrite <- (in_order _ _ _ (r_loop _ _ _ Hi)), (r_executed _ _ _ Hi) in Ha.
  apply Forall_app in Ha as [Ha _]. rewrite Forall_fmap in Ha. by eapply Forall_lookup_1 in Ha.
Qed.
End RuntimeFacts.

(** * A server with two tasks *)

(** An allocator, and coroutines: [Reader fd] reads, starts a writer task and
    reads again; [Writer fd n] writes [n] bytes and stops the loop. *)
Definition next_address (X : gset Z) : Z := 2 ^ 64 + set_fold Z.max 0 X.
Lemma next_address_fresh X : (next_address X ∉ X) /\ dispatched (next_address X) = true.
Proof.
  assert (Hmax : 0 <= set_fold Z.max 0 X /\ forall x, x ∈ X -> x <= set_fold Z.max 0 X).
  { apply (set_fold_ind_L (fun m Y => 0 <= m /\ forall x, x ∈ Y -> x <= m)); [set_solver|].
    intros x Y m Hx [H0 IH]. split; [lia|]. intros y [->%elem_of_singleton|Hy]%elem_of_union; [lia | specialize (IH y Hy); lia]. }
  destruct Hmax as [H0 Hmax]. unfold next_address, dispatched, LIBURING_UDATA_TIMEOUT. split; [intros Hin; specialize (Hmax _ Hin); lia|].
  apply andb_true_intro. split; apply negb_true_iff, Z.eqb_neq; lia.
Qed.
Inductive server_co : Type := Reader (fd : Z) | HasRead (fd n : Z) | Writer (fd n : Z) | HasWritten.
Definition server_body (c : server_co) : list (command server_co) * suspending server_co :=
  match c with
  | Reader fd => ([], Awaits (Recv fd 4096 64 0) 0 (fun t => HasRead fd (result t)))
  | HasRead fd n => ([ScheduleTask (Writer fd n)], Awaits (Recv fd 4096 64 0) 0 (fun t => HasRead fd (result t)))
  | Writer fd n => ([FireOp (Plain Nop 0)], Awaits (Send fd 4096 n 0) 0 (fun _ => HasWritten))
  | HasWritten => ([StopLoop], Finished)
  end.
Definition server_run : list event :=
  [Outside (Reader 5); Outside (Reader 6); RunLoop; KernelCompletes 1 (mk_token 20 0); WaitReturns; HandleNext;
   KernelCompletes 0 (mk_token 10 0); HandleNext; EndRound; KernelCompletes 7 (mk_token 10 0)].
Definition new_loop : context (T := server_co) := mk_context [] true 0 0 false false 0 None ∅ [] [] [] (O, O) no_timing.
Definition after_server_run : option (runtime model_ring server_co) :=
  run_acts (runtime_act server_body next_address 9 1) server_run (runtime_start (mk_ctx empty_ring 0) new_loop).
Lemma coroutines_run_direct_style_witness : exists s c, after_server_run = Some s /\
  started <$> coroutines s = [Reader 5; Reader 6; Writer 6 20; Writer 5 10] /\ at_ s = Waits /\
  coroutines s !! 3%nat = Some c /\ Forall2 (asks s) (slots_of c) [(Send 5 4096 10 0, 0)] /\ slots_of c = [7%nat] /\
  exists h, (IoUring.handled (io s) <= h)%nat /\ finished_order s !! h = Some 7%nat.
Proof.
  assert (Hf : fresh_context (T := server_co) 9 ∅ new_loop) by (split; [reflexivity | intros t; by rewrite lookup_empty]).
  assert (Hu : entries (mk_ctx empty_ring 0) = []) by reflexivity.
  assert (V : (fun s => (coroutines s, at_ s, finished_order s, results s)) <$> after_server_run =
    Some ([mk_co (Reader 5) [mk_token 10 0] [0; 3]; mk_co (Reader 6) [mk_token 20 0] [1; 2]; mk_co (Writer 6 20) [] [5]; mk_co (Writer 5 10) [] [7]]%nat,
      Waits, [1; 0; 7]%nat, [mk_token 20 0; mk_token 10 0; mk_token 10 0])) by (vm_compute; reflexivity).
  destruct after_server_run as [s|] eqn:E; [|done]. injection V as Vc Va Vo Vr. unfold after_server_run in E. apply run_acts_star in E.
  destruct (coroutines_run_direct_style server_body next_address 9 1 next_address_fresh (mk_ctx empty_ring 0) ∅ new_loop server_run s Hu Hf E)
    as (_ & _ & H2 & _).
  exists s, (mk_co (Writer 5 10) [] [7%nat]). rewrite Vc. destruct (H2 3%nat (mk_co (Writer 5 10) [] [7%nat])) as (reqs & now & Hd & Ha & _ & Hp); [by rewrite Vc|].
  injection Hd as <- <-. split_and!; [reflexivity | reflexivity | exact Va | reflexivity | exact Ha | reflexivity |].
  apply (Hp 7%nat (mk_token 10 0)); [done | reflexivity |]. exists 2%nat. by rewrite Vo, Vr.
Defined.
