(* ===== verification/TimedIo.v ===== *)
(** Operations with a duration: [recv_some], [send_some] and [connect_to] of
    [tcp_connection.hpp] with a timeout, and [io_uring_context::timeout] for a
    duration ([detail/io/io_uring_context.hpp]).  The [__kernel_timespec] is a
    local of the coroutine; the entry holds its address. *)
From S2P Require Import Prelude Events IoUring Timer.

Section TimedIo.
Context {R : Type} `{!Liburing R}.
#[local] Notation "'let*' x := m 'in' k" := (op_bind m (fun x => k)) (at level 10, x pattern, m at level 100, k at level 200).

Definition IOSQE_IO_LINK : Z := 4.

(** The operation linked to a timeout, then [co_await] of the operation: the
    body that [recv_some(dst, nbytes, dur)] and [send_some(...)] share. *)
Definition await_linked (q : request) (k token : Z) : Op (R := R) unit :=
  let* i := operation q IOSQE_IO_LINK in
  let* _ := link_timeout k 0 0 in
  await_suspend i token.

(** A coroutine's locals: its local [k], at an address. *)
Definition locals : Type := gmap Z __kernel_timespec.
Definition recv_some_for (fd dst nbytes fl us k token : Z) (mem : locals) (c : io_uring_context R) : option (locals * io_uring_context R) :=
  ts ← make_timespec us;
  r ← await_linked (Recv fd dst (wrap 32 nbytes) fl) k token c;
  Some (<[k := ts]> mem, r.2).
Definition send_some_for (fd dst nbytes fl us k token : Z) (mem : locals) (c : io_uring_context R) : option (locals * io_uring_context R) :=
  ts ← make_timespec us;
  r ← await_linked (Send fd dst (wrap 32 nbytes) fl) k token c;
  Some (<[k := ts]> mem, r.2).
(** The connect request of [connect_to(..., dur)]. *)
Definition connect_for (fd addr len us k token : Z) (mem : locals) (c : io_uring_context R) : option (locals * io_uring_context R) :=
  ts ← make_timespec us;
  r ← await_linked (Connect fd addr len) k token c;
  Some (<[k := ts]> mem, r.2).
(** [timeout(dur, flags, iflags)], a coroutine that awaits the other overload. *)
Definition timeout_for (us flags iflags ks token : Z) (mem : locals) (c : io_uring_context R) : option (locals * io_uring_context R) :=
  ts ← make_timespec us;
  r ← (let* i := timeout_ts ks (wrap 8 flags) (wrap 8 iflags) in await_suspend i token) c;
  Some (<[ks := ts]> mem, r.2).
End TimedIo.

Section TimedIoFacts.
Context {R : Type} `{Laws : LiburingLaws R, !LiburingProgress R}.
Implicit Types c : io_uring_context R.

(** There is a free slot. *)
Definition has_room c : Prop := is_Some (io_uring_get_sqe (ring c)).1.

(** A call that finds room submits nothing. *)
Lemma get_sqe_room c : has_room c -> exists i c', io_uring_get_sqe_safe c = Some (i, c') /\ (i ∉ queued (ring c)) /\
  queued (ring c') = queued (ring c) ++ [i] /\ submitted (ring c') = submitted (ring c).
Proof.
  unfold has_room, io_uring_get_sqe_safe. destruct (io_uring_get_sqe (ring c)) as [[i|] r] eqn:E; cbn; intros [x Hx]; [|done].
  destruct (get_sqe_some _ _ _ E) as (Hi & Hq & Hs & _). by exists i, (mk_ctx r (cqe_count c)).
Qed.
Lemma writes_frame c i f : queued (ring (on_ring (fun r => sqe_write i (f r) r) c)) = queued (ring c) /\
  submitted (ring (on_ring (fun r => sqe_write i (f r) r) c)) = submitted (ring c).
Proof. cbn. by destruct (write_frame i (f (ring c)) (ring c)) as (-> & -> & _). Qed.

Lemma operation_room q f c : has_room c -> exists i c' e, operation q f c = Some (i, c') /\ (i ∉ queued (ring c)) /\
  queued (ring c') = queued (ring c) ++ [i] /\ submitted (ring c') = submitted (ring c) /\
  entries c' = entries c ++ [e] /\ s_request e = Some q /\ s_flags e = f /\ s_data e = 0.
Proof.
  intros Hr. destruct (get_sqe_room c Hr) as (i & c1 & E & Hi & Hq & Hs).
  destruct (run_call_spec (Plain q f) c) as (j & c' & e & (j0 & Er & Hj) & (_ & He & _) & [H1 H2] & Hd). cbn [run_call] in Er.
  rewrite (Hj q f eq_refl) in Er. exists j, c', e. revert Er. unfold operation, op_bind. rewrite E. cbn. intros [= -> <-].
  rewrite !(fun i f c => proj1 (writes_frame c i f)), !(fun i f c => proj2 (writes_frame c i f)). by split_and!.
Qed.
Lemma link_room ts fl f c : has_room c -> exists i c' e, link_timeout ts fl f c = Some (tt, c') /\ (i ∉ queued (ring c)) /\
  queued (ring c') = queued (ring c) ++ [i] /\ submitted (ring c') = submitted (ring c) /\
  entries c' = entries c ++ [e] /\ s_request e = Some (LinkTimeout ts fl) /\ s_flags e = f /\ s_data e = 0.
Proof.
  intros Hr. destruct (get_sqe_room c Hr) as (i & c1 & E & Hi & Hq & Hs).
  destruct (run_call_spec (Link ts fl f) c) as (j & c' & e & (j0 & Er & _) & (_ & He & _) & [H1 H2] & Hd). cbn [run_call] in Er.
  revert Er. unfold link_timeout, op_bind. rewrite E. cbn. intros [= _ <-]. eexists i, _, e. split; [reflexivity|].
  rewrite !(fun i f c => proj1 (writes_frame c i f)), !(fun i f c => proj2 (writes_frame c i f)). by split_and!.
Qed.

(** Storing the token in the last entry but one. *)
Lemma await_last_but_one c l e1 e2 i j token : queued (ring c) = l ++ [i; j] -> i <> j -> (i ∉ l) ->
  forall before, entries c = before ++ [e1; e2] ->
  exists c', await_suspend i token c = Some (tt, c') /\ entries c' = before ++ [with_data token e1; e2] /\
    queued (ring c') = queued (ring c) /\ submitted (ring c') = submitted (ring c).
Proof.
  intros Hq Hij Hi before He. eexists. split; [reflexivity|]. unfold entries in *. cbn.
  destruct (write_frame i (with_data token (sqe_of (ring c) i)) (ring c)) as (Eq & Es & _). rewrite Eq, Es, Hq in *. split; [|done].
  assert (Hw : forall k, sqe_of (sqe_write i (with_data token (sqe_of (ring c) i)) (ring c)) k = if decide (i = k) then with_data token (sqe_of (ring c) i) else sqe_of (ring c) k)
    by (intros; apply sqe_of_write).
  rewrite !fmap_app in *. cbn in *. rewrite !Hw, decide_True, decide_False by done. rewrite app_assoc in *.
  apply (app_inj_2 _ _ [_; _] [_; _]) in He as [Hb [= E1 E2]]; [|done]. rewrite <- Hb, <- E1, <- E2. do 2 f_equal.
  apply list_fmap_ext. intros k x Hk. rewrite Hw, decide_False; [done|]. intros <-. apply Hi. by eapply list_elem_of_lookup_2.
Qed.

Lemma make_timespec_exact us : - 2 ^ 53 <= us <= 2 ^ 53 ->
  exists ts, make_timespec us = Some ts /\ tv_sec ts * 1000000000 + tv_nsec ts = us * 1000 /\ Z.abs (tv_nsec ts) < 1000000000.
Proof.
  intros Hus. unfold make_timespec. rewrite int64_ok by lia. eexists. split; [reflexivity|]. cbn. Z.to_euclidean_division_equations. lia.
Qed.
Lemma await_linked_room q k token c : has_room c -> (forall i c1, operation q IOSQE_IO_LINK c = Some (i, c1) -> has_room c1) ->
  exists c' e1 e2, await_linked q k token c = Some (tt, c') /\ submitted (ring c') = submitted (ring c) /\
    entries c' = entries c ++ [e1; e2] /\ s_request e1 = Some q /\ s_flags e1 = IOSQE_IO_LINK /\ s_data e1 = token /\
    s_request e2 = Some (LinkTimeout k 0) /\ s_flags e2 = 0 /\ s_data e2 = 0.
Proof.
  intros H1 H2. destruct (operation_room q IOSQE_IO_LINK c H1) as (i & c1 & e1 & E1 & Hi & Hq1 & Hs1 & He1 & A1 & A2 & A3).
  destruct (link_room k 0 0 c1 (H2 i c1 E1)) as (j & c2 & e2 & E2 & Hj & Hq2 & Hs2 & He2 & B1 & B2 & B3).
  rewrite Hq1, <- app_assoc in Hq2. cbn in Hq2. rewrite He1, <- app_assoc in He2. cbn in He2.
  assert (Hij : i <> j) by (intros ->; apply Hj; rewrite Hq1; apply elem_of_app; right; left).
  destruct (await_last_but_one c2 _ e1 e2 i j token Hq2 Hij Hi _ He2) as (c' & E & He & _ & Hs).
  exists c', (with_data token e1), e2. unfold await_linked, op_bind. rewrite E1. cbn [mbind option_bind fst snd]. rewrite E2. cbn [mbind option_bind fst snd].
  rewrite E. split_and!; try done. congruence.
Qed.

(** Local [k] holds a normalised timespec of exactly [us] microseconds. *)
Definition holds_duration us k (mem : locals) : Prop :=
  exists ts, mem !! k = Some ts /\ tv_sec ts * 1000000000 + tv_nsec ts = us * 1000 /\ Z.abs (tv_nsec ts) < 1000000000.
(** Two adjacent entries, that go to the kernel in one submission: the request,
    linked to the next entry, with the token, and a detached timeout. *)
Definition linked_pair q us k token c (r : option (locals * io_uring_context R)) : Prop :=
  exists mem' c' e1 e2, r = Some (mem', c') /\ submitted (ring c') = submitted (ring c) /\ entries c' = entries c ++ [e1; e2] /\
    s_request e1 = Some q /\ s_flags e1 = IOSQE_IO_LINK /\ s_data e1 = token /\
    s_request e2 = Some (LinkTimeout k 0) /\ s_flags e2 = 0 /\ s_data e2 = 0 /\ holds_duration us k mem'.

(** [C38] Operations with a timeout, of [dur] microseconds.  With room for two
    entries, [recv_some(dst, nbytes, dur)], [send_some(...)] and
    [connect_to(..., dur)] put exactly two adjacent entries in the queue, for
    one submission: the operation, linked to the next, with the token of the
    coroutine, and a detached timeout that points to a normalised timespec of
    exactly the duration.  [timeout(dur)] puts one entry, with the token, that
    points to such a timespec; also when the queue is full, io_uring taking
    entries off it after finitely many submissions. *)
Theorem timed_operations_exact fd dst nbytes fl us k token mem c : - 2 ^ 53 <= us <= 2 ^ 53 ->
  (has_room c -> (forall q i c1, operation q IOSQE_IO_LINK c = Some (i, c1) -> has_room c1) ->
   linked_pair (Recv fd dst (wrap 32 nbytes) fl) us k token c (recv_some_for fd dst nbytes fl us k token mem c) /\
   linked_pair (Send fd dst (wrap 32 nbytes) fl) us k token c (send_some_for fd dst nbytes fl us k token mem c) /\
   forall addr len, linked_pair (Connect fd addr len) us k token c (connect_for fd addr len us k token mem c)) /\
  (forall flags iflags, exists mem' c' e, timeout_for us flags iflags k token mem c = Some (mem', c') /\ entries c' = entries c ++ [e] /\
    s_request e = Some (Timeout k 0 (wrap 8 flags)) /\ s_flags e = wrap 8 iflags /\ s_data e = token /\ holds_duration us k mem').
Proof.
  intros Hus. destruct (make_timespec_exact us Hus) as (ts & Et & Hv & Hn).
  assert (Hk : holds_duration us k (<[k := ts]> mem)) by (exists ts; split; [apply lookup_insert_eq | done]). split.
  - intros H1 H2. split_and!; [unfold recv_some_for | unfold send_some_for | intros addr len; unfold connect_for]; rewrite Et; cbn [mbind option_bind].
    all: match goal with |- context [await_linked ?q _ _ _] =>
      destruct (await_linked_room q k token c H1 (H2 _)) as (c' & e1 & e2 & E & Hs & He & ? & ? & ? & ? & ? & ?) end.
    all: rewrite E; exists (<[k := ts]> mem), c', e1, e2; by split_and!.
  - intros flags iflags. destruct (run_call_spec (Plain (Timeout k 0 (wrap 8 flags)) (wrap 8 iflags)) c) as (i & c1 & e & (i0 & Er & Hi) & Hl & [Hq Hf] & _).
    cbn [run_call] in Er. rewrite (Hi _ _ eq_refl) in Er. apply (write_last _ _ _ _ _ (with_data token)) in Hl as (_ & He & _).
    eexists (<[k := ts]> mem), _, (with_data token e). unfold timeout_for, timeout_ts, op_bind. rewrite Et. cbn [mbind option_bind]. rewrite Er.
    split; [reflexivity|]. by split_and!.
Qed.
End TimedIoFacts.

(** A ring with room, and one with a single free slot. *)
Definition roomy : io_uring_context model_ring := mk_ctx empty_ring 0.
Lemma timed_operations_exact_witness : exists mem' c' e1 e2, recv_some_for 5 4096 100 0 2500000 64 77 ∅ roomy = Some (mem', c') /\
  entries c' = [e1; e2] /\ s_data e1 = 77 /\ s_flags e1 = IOSQE_IO_LINK /\ mem' !! 64 = Some (mk_timespec 2 500000000).
Proof.
  destruct (timed_operations_exact 5 4096 100 0 2500000 64 77 ∅ roomy ltac:(lia)) as [H _].
  destruct H as ((mem' & c' & e1 & e2 & E & _ & He & _ & Hf & Hd & _) & _).
  - by eexists.
  - intros q i c1 E. vm_compute in E. injection E as _ <-. by eexists.
  - exists mem', c', e1, e2. split_and!; [exact E | exact He | exact Hd | exact Hf |]. vm_compute in E. injection E as <- _. reflexivity.
Defined.

Lemma await_linked_nearly_full q token : exists s c', nearly_full = Some s /\ await_linked q 64 token (uc s) = Some (tt, c') /\
  submitted (ring c') !! 3%nat = Some (mk_sqe (Some q) IOSQE_IO_LINK 0 0 0) /\ Forall (fun e => s_data e = 0) (entries c').
Proof.
  eexists _, _. split; [vm_compute; reflexivity|]. split; [vm_compute; reflexivity|]. split; [vm_compute; reflexivity|].
  vm_compute. repeat constructor.
Qed.

(** With one free slot the link is broken and the coroutine is lost: the
    receive is submitted alone, detached, before it is awaited; the timeout
    goes into the next submission, and no entry carries the token, so that no
    completion ever resumes the coroutine. *)
Theorem timed_receive_is_lost_on_a_full_queue : forall fd dst nbytes us token, Z.abs us <= 2 ^ 53 -> token <> 0 ->
  exists s mem' c', nearly_full = Some s /\ recv_some_for fd dst nbytes 0 us 64 token ∅ (uc s) = Some (mem', c') /\
    submitted (ring c') !! 3%nat = Some (mk_sqe (Some (Recv fd dst (wrap 32 nbytes) 0)) IOSQE_IO_LINK 0 0 0) /\
    Forall (fun e => s_data e = 0) (entries c').
Proof.
  intros fd dst nbytes us token Hus Ht. destruct (await_linked_nearly_full (Recv fd dst (wrap 32 nbytes) 0) token) as (s & c' & Es & E & H1 & H2).
  unfold recv_some_for, make_timespec. rewrite int64_ok by lia. eexists s, _, c'. split; [done|]. split; [|done].
  cbn [mbind option_bind]. rewrite E. reflexivity.
Qed.
