(* ===== verification/Lifecycle.v ===== *)
(** Making and destroying an [io_context]: the constructors and the destructor
    of [io_context.hpp] and [detail/io/io_uring_context.hpp], the descriptors
    they own, [register_signals], the coroutine frames that are left, and the
    registration calls.  System calls and liburing answer with the values the
    operations are given. *)
From S2P Require Import Prelude Events IoContext IoUring Joins.
Import Joins.Scope.

(** * The objects *)

Record io_uring_params : Type := mk_params { p_flags : Z; p_wq_fd : Z }.
(** [suspended_frames] is a ghost field: the coroutine frames that wait for the
    ring or for [timer_event_] of the object. *)
Record io_context : Type := mk_io_context {
  internal_event_fd_ : Z; internal_signal_fd_ : Z; my_scope_ : async_scope; suspended_frames : nat }.
(** The rings that were set up and how many were given back, the descriptors
    opened and closed, the coroutine frames that nothing will ever resume or
    destroy, and the object. *)
Record world : Type := mk_world {
  inits : list io_uring_params; exits : nat; opened : list Z; closed : list Z; abandoned : nat; object : option io_context }.

Definition on_object (f : io_context -> io_context) : M world unit := fun w =>
  match object w with
  | Some o => (Val tt, mk_world (inits w) (exits w) (opened w) (closed w) (abandoned w) (Some (f o)))
  | None => (Fault undefined_behaviour, w)
  end.
Definition get_object : M world io_context := fun w => match object w with Some o => (Val o, w) | None => (Fault undefined_behaviour, w) end.
Definition set_object (o : option io_context) : M world unit :=
  modify (fun w => mk_world (inits w) (exits w) (opened w) (closed w) (abandoned w) o).
Definition got_descriptor (fd : Z) : M world unit :=
  modify (fun w => mk_world (inits w) (exits w) (opened w ++ [fd]) (closed w) (abandoned w) (object w)).
Definition close_descriptor (fd : Z) : M world unit :=
  modify (fun w => mk_world (inits w) (exits w) (opened w) (closed w ++ [fd]) (abandoned w) (object w)).
Definition with_event_fd (fd : Z) (o : io_context) : io_context := mk_io_context fd (internal_signal_fd_ o) (my_scope_ o) (suspended_frames o).
Definition with_signal_fd (fd : Z) (o : io_context) : io_context := mk_io_context (internal_event_fd_ o) fd (my_scope_ o) (suspended_frames o).
Definition with_scope (s : async_scope) (o : io_context) : io_context := mk_io_context (internal_event_fd_ o) (internal_signal_fd_ o) s (suspended_frames o).
Definition with_frames (n : nat) (o : io_context) : io_context := mk_io_context (internal_event_fd_ o) (internal_signal_fd_ o) (my_scope_ o) n.
Definition abandon (n : nat) : M world unit :=
  modify (fun w => mk_world (inits w) (exits w) (opened w) (closed w) (abandoned w + n) (object w)).

(** What a constructor whose body throws does to the parts it has built; an
    exception that leaves them a second time ends the program. *)
Definition on_unwind {A} (m : M world A) (cleanup : M world unit) : M world A := fun w =>
  match m w with
  | (Exn e, w') => match cleanup w' with (Val _, w'') => (Exn e, w'') | (Exn _, w'') => (Fault undefined_behaviour, w'') | (Fault f, w'') => (Fault f, w'') end
  | r => r
  end.

(** * [io_uring_context] *)

(** [io_uring_queue_init_params]: 0, or the negated error number and no ring. *)
Definition queue_init_params (p : io_uring_params) (ret : Z) : M world Z := fun w =>
  (Val ret, if ret =? 0 then mk_world (inits w ++ [p]) (exits w) (opened w) (closed w) (abandoned w) (object w) else w).
Definition checked {S} (ret : Z) : M S Z := fun w => (panic_on_err ret false 0, w).
Definition io_uring_context_ctor (p : io_uring_params) (init_ret : Z) : M world unit :=
  let! ret := queue_init_params p init_ret in
  let! _ := checked ret in
  M_ret tt.
Definition io_uring_context_dtor : M world unit :=
  modify (fun w => mk_world (inits w) (S (exits w)) (opened w) (closed w) (abandoned w) (object w)).

(** * [io_context] *)

Definition no_fd : exn := runtime_error "o/s fails to allocate more fd".
Definition create_eventfd (ret : Z) : M world unit :=
  on_object (with_event_fd ret);; (if ret =? -1 then throw no_fd else got_descriptor ret).
Definition scope_dtor (s : async_scope) : M world unit := cpp_assert (destructor_ok s).
(** The members and the base class; with the event and the ring goes what would
    resume the frames that wait for them. *)
Definition destroy_parts : M world unit :=
  let! o := get_object in scope_dtor (my_scope_ o);; io_uring_context_dtor;; abandon (suspended_frames o);; set_object None.
(** [io_context(entries, p)]; the other constructors fill in [p]. *)
Definition io_context_ctor (p : io_uring_params) (init_ret event_fd : Z) : M world unit :=
  io_uring_context_ctor p init_ret;;
  set_object (Some (mk_io_context (-1) (-1) new_scope 0));;
  on_unwind (create_eventfd event_fd) destroy_parts.
Definition params_of (flags wq_fd : Z) : io_uring_params := mk_params (wrap 32 flags) (wrap 32 wq_fd).

Definition IORING_SETUP_SQPOLL : Z := 2.
Definition IORING_SETUP_ATTACH_WQ : Z := 32.
(** [dup_from_big_brother]: the parameters, from the brother's ring. *)
Definition dup_from_big_brother (bro_flags bro_ring_fd : Z) : io_uring_params :=
  if negb (Z.land bro_flags IORING_SETUP_SQPOLL =? 0) then params_of (Z.lor bro_flags IORING_SETUP_ATTACH_WQ) bro_ring_fd
  else params_of bro_flags 0.

(** [register_signals(s, func)], with [create_signalfd]. *)
Definition register_signals (ret : Z) : M world unit :=
  on_object (with_signal_fd ret);; (if ret =? -1 then throw no_fd else got_descriptor ret).

(** [co_await my_scope_.join()] of the coroutine that the destructor starts. *)
Definition start_join (s : async_scope) : option async_scope :=
  s1 ← act AwaitReady s;
  match who s1 with Joined => Some s1 | _ => s2 ← act StoreContinuation s1; act AwaitSuspend s2 end.
Definition join_scope : M world unit := fun w =>
  match object w with
  | Some o =>
    match start_join (my_scope_ o) with
    | Some s => (Val tt, mk_world (inits w) (exits w) (opened w) (closed w)
        (abandoned w + match who s with Suspended => 1 | _ => 0 end) (Some (with_scope s o)))
    | None => (Fault undefined_behaviour, w)
    end
  | None => (Fault undefined_behaviour, w)
  end.
Definition io_context_dtor : M world unit :=
  let! o := get_object in
  close_descriptor (internal_event_fd_ o);;
  (if negb (internal_signal_fd_ o =? -1) then close_descriptor (internal_signal_fd_ o) else M_ret tt);;
  join_scope;;
  destroy_parts.

(** * Registration *)

Section Registration.
Context {K : Type} (io_uring_register_files io_uring_register_files_update : Z -> list Z -> K -> Z * K)
  (io_uring_register_buffers : list (Z * Z) -> K -> Z * K) (io_uring_unregister_files io_uring_unregister_buffers : K -> Z * K).

(** [call | panic_on_err(...)] *)
Definition or_panic (call : K -> Z * K) : M K unit := fun k => let r := call k in (let! _ := checked r.1 in M_ret tt) r.2.
Definition register_files (fds : list Z) : M K unit := or_panic (io_uring_register_files 0 fds).
Definition register_files_update (off : Z) (fds : list Z) : M K unit := or_panic (io_uring_register_files_update (wrap 32 off) fds).
Definition register_buffers (iovecs : list (Z * Z)) : M K unit := or_panic (io_uring_register_buffers iovecs).
Definition unregister_files (k : K) : Z * K := io_uring_unregister_files k.
Definition unregister_buffers (k : K) : Z * K := io_uring_unregister_buffers k.
End Registration.

(** * Facts *)

(** A caller that catches what [register_signals] throws. *)
Definition attempt (m : M world unit) : M world unit := fun w => match m w with (Exn _, w') => (Val tt, w') | r => r end.
Fixpoint registrations (rets : list Z) : M world unit :=
  match rets with [] => M_ret tt | r :: rets => attempt (register_signals r);; registrations rets end.
(** What is left of its calls of [run()], [c] being the loop as [IoContext] has
    it and [s] the scope: the frames of the context's own coroutines that are
    suspended, and those of the scope's. *)
Definition after_runs {T} (c : context (T := T)) (s : async_scope) (o : io_context) : io_context :=
  with_frames (service_frames c + running s) (with_scope s o).
(** A context that is made, is given signals, runs, and is destroyed. *)
Definition lifetime {T} (p : io_uring_params) (init_ret event_fd : Z) (signals : list Z) (c : context (T := T)) (s : async_scope) : M world unit :=
  io_context_ctor p init_ret event_fd;; registrations signals;; on_object (after_runs c s);; io_context_dtor.

(** The owner can always join a scope that was not joined. *)
Lemma start_join_ok acts s : star step new_scope acts s -> who s = NotJoined ->
  exists s', start_join s = Some s' /\ destructor_ok s' = true /\
    match who s' with Suspended => 1 | _ => 0 end%nat = (if decide (running s = 0) then 0 else 1)%nat.
Proof.
  intros Hs Hw. assert (Hi : inv s) by (eapply star_inv; [ | intros x l x'; apply scope_act_inv | exact Hs]; by split).
  destruct Hi as [Hc Hsm _]. rewrite Hw in Hc. cbn in Hc. unfold start_join. cbn [act]. rewrite Hw. cbn [mbind option_bind who m_count].
  rewrite (proj2 (Z.eqb_neq _ _)) by lia. cbn [act mbind option_bind who m_count].
  eexists. split; [reflexivity|]. split; [done|]. cbn. destruct (Z.ltb_spec 1 (m_count s)); case_decide; cbn; lia.
Qed.

Lemma dtor_ok acts s w o : star step new_scope acts s -> who s = NotJoined -> object w = Some o -> my_scope_ o = s ->
  io_context_dtor w = (Val tt, mk_world (inits w) (S (exits w)) (opened w)
    (closed w ++ internal_event_fd_ o :: (if internal_signal_fd_ o =? -1 then [] else [internal_signal_fd_ o]))
    (abandoned w + (if decide (running s = 0%nat) then 0 else 1) + suspended_frames o) None).
Proof.
  intros Hs Hw Ho <-. destruct (start_join_ok _ _ Hs Hw) as (s' & E & Hd & Hn).
  unfold io_context_dtor, get_object, M_bind. rewrite Ho. cbn -[start_join].
  destruct (internal_signal_fd_ o =? -1); cbn -[start_join]; unfold join_scope; cbn -[start_join]; rewrite Ho; cbn -[start_join]; rewrite E; cbn;
    unfold destroy_parts, M_bind, get_object; cbn; unfold scope_dtor, cpp_assert; rewrite Hd; cbn; rewrite Hn, <- ?app_assoc; done.
Qed.

(** The descriptors that [register_signals] was given, and the one it keeps. *)
Definition got (rets : list Z) : list Z := filter (fun r => r <> -1) rets.
Definition kept_fd (rets : list Z) (before : Z) : Z := default before (last rets).
Lemma registration_ok r w o : object w = Some o ->
  attempt (register_signals r) w =
    (Val tt, mk_world (inits w) (exits w) (opened w ++ got [r]) (closed w) (abandoned w) (Some (with_signal_fd r o))).
Proof.
  intros Ho. unfold attempt, register_signals, M_bind, on_object, got. rewrite Ho, filter_cons. cbn.
  destruct (Z.eqb_spec r (-1)) as [->|Hr]; cbn; [by rewrite app_nil_r | by rewrite decide_True].
Qed.
Lemma registrations_ok rets : forall w o, object w = Some o ->
  registrations rets w = (Val tt, mk_world (inits w) (exits w) (opened w ++ got rets) (closed w) (abandoned w)
    (Some (with_signal_fd (kept_fd rets (internal_signal_fd_ o)) o))).
Proof.
  induction rets as [|r rets IH]; intros w o Ho.
  - destruct w, o; cbn in *. subst. by rewrite app_nil_r.
  - cbn [registrations]. rewrite (M_bind_val _ _ _ _ _ (registration_ok r w o Ho)). erewrite IH by reflexivity. cbn -[got]. unfold kept_fd.
    rewrite last_cons. change (r :: rets) with ([r] ++ rets). unfold got. rewrite filter_app, app_assoc. by destruct (last rets).
Qed.

Lemma ctor_ok p event_fd w : event_fd <> -1 -> io_context_ctor p 0 event_fd w =
  (Val tt, mk_world (inits w ++ [p]) (exits w) (opened w ++ [event_fd]) (closed w) (abandoned w) (Some (mk_io_context event_fd (-1) new_scope 0))).
Proof.
  intros Hf. unfold io_context_ctor, io_uring_context_ctor, on_unwind, create_eventfd, M_bind. cbn. by rewrite (proj2 (Z.eqb_neq _ _) Hf).
Qed.
Lemma ctor_no_ring p init_ret event_fd w : init_ret < 0 -> init_ret <> - ETIME ->
  io_context_ctor p init_ret event_fd w = (Exn (system_error (- init_ret)), w).
Proof.
  intros H0 H1. unfold io_context_ctor, io_uring_context_ctor, M_bind, queue_init_params, checked, panic_on_err.
  rewrite (proj2 (Z.eqb_neq init_ret 0)), (proj2 (Z.ltb_lt _ _) H0), (proj2 (Z.eqb_neq _ _) H1) by lia. done.
Qed.

(** The descriptor that is closed with the object. *)
Definition last_kept (signals : list Z) : list Z := if kept_fd signals (-1) =? -1 then [] else [kept_fd signals (-1)].
Lemma lifetime_ok {T} (c : context (T := T)) acts s p w event_fd signals : star step new_scope acts s -> who s = NotJoined -> event_fd <> -1 ->
  lifetime p 0 event_fd signals c s w = (Val tt, mk_world (inits w ++ [p]) (S (exits w)) (opened w ++ event_fd :: got signals)
    (closed w ++ event_fd :: last_kept signals)
    (abandoned w + (if decide (running s = 0%nat) then 0 else 1) + (service_frames c + running s)) None).
Proof.
  intros Hs Hw Hf. unfold lifetime. rewrite (M_bind_val _ _ _ _ _ (ctor_ok p event_fd w Hf)).
  erewrite M_bind_val by (apply registrations_ok; reflexivity). unfold M_bind at 1. cbn -[io_context_dtor].
  erewrite (dtor_ok acts s) by done. cbn. by rewrite <- !app_assoc.
Qed.

Lemma land_bit x n : 0 <= n -> negb (Z.land x (2 ^ n) =? 0) = Z.testbit x n.
Proof.
  intros Hn. destruct (Z.testbit x n) eqn:E.
  - apply negb_true_iff, Z.eqb_neq. intros H0. apply (f_equal (fun y => Z.testbit y n)) in H0.
    by rewrite Z.land_spec, E, Z.pow2_bits_true, Z.bits_0 in H0.
  - apply negb_false_iff, Z.eqb_eq, Z.bits_inj'. intros m Hm. rewrite Z.land_spec, Z.bits_0.
    destruct (decide (n = m)) as [<-|Hne]; [by rewrite E | by rewrite Z.pow2_bits_false, andb_false_r].
Qed.
Lemma dup_params flags fd : 0 <= flags < 2 ^ 32 -> 0 <= fd < 2 ^ 32 ->
  dup_from_big_brother flags fd = if Z.testbit flags 1 then mk_params (Z.setbit flags 5) fd else mk_params flags 0.
Proof.
  intros Hfl Hfd. unfold dup_from_big_brother, params_of. change IORING_SETUP_SQPOLL with (2 ^ 1). rewrite land_bit by done.
  destruct (Z.testbit flags 1).
  - rewrite Z.setbit_spec'. change IORING_SETUP_ATTACH_WQ with (2 ^ 5). rewrite !wrap_small; [done | done |].
    split; [apply Z.lor_nonneg; lia|]. destruct (decide (Z.lor flags (2 ^ 5) = 0)) as [->|Hne]; [done|].
    apply Z.log2_lt_pow2; [|rewrite Z.log2_lor by lia]. 1: assert (0 <= Z.lor flags (2 ^ 5)) by (apply Z.lor_nonneg; lia); lia.
    assert (Z.log2 flags < 32) by (destruct (decide (flags = 0)) as [->|]; [done | apply Z.log2_lt_pow2; lia]).
    change (Z.log2 (2 ^ 5)) with 5. lia.
  - by rewrite !wrap_small.
Qed.

(** [C32] What a context gives back, and what it does not.  When the ring
    cannot be set up the constructor throws the error and nothing was taken;
    when there is no descriptor for the eventfd its unwinding fails an
    assertion.  Otherwise, whatever the loop did in its runs and whatever
    coroutines the scope ran, the destructor does not fail: it gives back the
    ring, closes the eventfd and the signalfd, and leaves behind for ever
    exactly the frames of the coroutines of the scope that still run, the one
    that joins them if there are any, and those of the context's own
    coroutines that were suspended, at most three for each call of [run()]
    and none when there was no call.  Every descriptor is closed exactly once
    unless [register_signals] was called a second time: it closes the last
    one, and none when the last call failed.  A duplicate shares the
    brother's kernel threads exactly when the brother has a submission
    thread. *)
Theorem contexts_release_everything {T} (run_task : T -> burst (T := T)) me tl c0 ls c acts s p w :
  fresh_context me tl c0 -> star (loop_step run_task me) c0 ls c -> loop_thread c = None ->
  star step new_scope acts s -> who s = NotJoined -> forall init_ret event_fd signals,
  (init_ret < 0 -> init_ret <> - ETIME -> lifetime p init_ret event_fd signals c s w = (Exn (system_error (- init_ret)), w)) /\
  (init_ret = 0 -> event_fd = -1 -> (lifetime p init_ret event_fd signals c s w).1 = Fault assertion_failed) /\
  (init_ret = 0 -> event_fd <> -1 -> exists w', lifetime p init_ret event_fd signals c s w = (Val tt, w') /\
    inits w' = inits w ++ [p] /\ exits w' = S (exits w) /\ object w' = None /\
    abandoned w' = (abandoned w + (if decide (running s = 0) then 0 else 1) + (service_frames c + running s))%nat /\
    (service_frames c <= 3 * runs_of ls)%nat /\
    opened w' = opened w ++ event_fd :: got signals /\
    closed w' = closed w ++ event_fd :: last_kept signals /\
    ((length signals <= 1)%nat -> exists fds, opened w' = opened w ++ fds /\ closed w' = closed w ++ fds)) /\
  (forall flags fd, 0 <= flags < 2 ^ 32 -> 0 <= fd < 2 ^ 32 -> dup_from_big_brother flags fd =
     if Z.testbit flags 1 then mk_params (Z.setbit flags 5) fd else mk_params flags 0).
Proof.
  intros Hc Hrun _ Hs Hw init_ret event_fd signals. split_and!.
  - intros H0 H1. unfold lifetime. by rewrite (M_bind_exn _ _ _ _ _ (ctor_no_ring p init_ret event_fd w H0 H1)).
  - by intros -> ->.
  - intros -> Hf. eexists. split; [by apply (lifetime_ok c acts)|]. split_and!; try done; [by eapply frames_per_run|].
    intros Hl. eexists. split; [done|]. destruct signals as [|r [|? ?]]; [done | | cbn in Hl; lia]. unfold got, last_kept, kept_fd. cbn.
    destruct (Z.eqb_spec r (-1)) as [->|Hr]; [done | by rewrite decide_True].
  - intros flags fd Hfl Hfd. apply dup_params; done.
Qed.

(** A context that registers signals once and is run once, stopped by another
    thread, with a coroutine still running at its end: that coroutine, the one
    that joins it and the timer service are left. *)
Lemma contexts_release_everything_witness : exists c w',
  (c0 ← IoContext.create_eventfd 3 ∅; run_acts (loop_act one_schedules_five 9) run_and_stop c0) = Some c /\
  lifetime (params_of 0 0) 0 3 [4] c (mk_scope 2 false 1 NotJoined 0) (mk_world [] 0 [] [] 0 None) = (Val tt, w') /\
  exits w' = 1%nat /\ closed w' = [3; 4] /\ opened w' = [3; 4] /\ abandoned w' = 3%nat.
Proof.
  assert (Hs : star step new_scope [Spawn] (mk_scope 2 false 1 NotJoined 0)) by (apply run_acts_star; vm_compute; reflexivity).
  destruct second_run_fails_assertion as (c & E & Hl & _). pose proof E as E'. destruct (IoContext.create_eventfd 3 ∅) as [c0|] eqn:Ec; [|discriminate E].
  cbn [mbind option_bind] in E'. apply run_acts_star in E'.
  assert (Hf : fresh_context 9 ∅ c0) by (split; [exact Ec | intros t; by rewrite lookup_empty]).
  destruct (contexts_release_everything one_schedules_five 9 ∅ c0 run_and_stop c [Spawn] _ (params_of 0 0) (mk_world [] 0 [] [] 0 None) Hf E' Hl Hs eq_refl 0 3 [4])
    as (_ & _ & H & _).
  destruct (H eq_refl ltac:(lia)) as (w' & E1 & _ & He & _ & Ha & _ & Ho & Hcl & _).
  assert (Hn : service_frames c = 1%nat) by (injection Ec as <-; vm_compute in E; injection E as <-; reflexivity).
  rewrite Hn in Ha. exists c, w'. split_and!; [exact E | exact E1 | exact He | exact Hcl | exact Ho | exact Ha].
Defined.

(** When the process has no descriptor left for the eventfd the exception does
    not reach the caller: it destroys the scope, which was not joined, and
    its destructor's assertion fails. *)
Theorem constructor_without_descriptor_asserts p w : (io_context_ctor p 0 (-1) w).1 = Fault assertion_failed.
Proof. done. Qed.
Definition tasks_none : context (T := Empty_set) := mk_context [] true 0 0 false false 0 None ∅ [] [] [] (O, O) no_timing.
(** A second [register_signals] leaks the first signalfd; also when it fails. *)
Theorem register_signals_twice_leaks : forall r, exists w',
  lifetime (params_of 0 0) 0 3 [4; r] tasks_none new_scope (mk_world [] 0 [] [] 0 None) = (Val tt, w') /\ 4 ∈ opened w' /\ (r <> 4 -> 4 ∉ closed w').
Proof.
  intros r. eexists. split; [apply (lifetime_ok tasks_none []); [constructor | done | done]|]. split; [set_solver|].
  intros Hr. unfold last_kept, kept_fd. cbn. destruct (r =? -1); set_solver.
Qed.
(** The registration calls report every error, except that they let the one of
    an expired timer pass. *)
Theorem registration_reports_errors {K} (call : K -> Z * K) k : let r := call k in
  (0 <= r.1 -> or_panic call k = (Val tt, r.2)) /\
  (r.1 < 0 -> r.1 <> - ETIME -> or_panic call k = (Exn (system_error (- r.1)), r.2)).
Proof.
  intros r. unfold or_panic, checked, panic_on_err, M_bind, M_ret. fold r. split.
  - intros H0. by rewrite (proj2 (Z.ltb_ge _ _) H0).
  - intros H0 H1. by rewrite (proj2 (Z.ltb_lt _ _) H0), (proj2 (Z.eqb_neq _ _) H1).
Qed.
