(* ===== verification/Sockets.v ===== *)
(** The calls of a socket that answer at once: its options, its error and its
    addresses ([socket.hpp], the setters of [tcp_connection.hpp]), and the
    making of UDP sockets.  The system calls are parameters with their
    documented behaviour as laws. *)
From S2P Require Import Prelude Endpoint Tcp.

Definition SOL_SOCKET : Z := 1.
Definition SO_REUSEADDR : Z := 2.
Definition SO_ERROR : Z := 4.
Definition SO_KEEPALIVE : Z := 9.
Definition SO_LINGER : Z := 13.
Definition SO_REUSEPORT : Z := 15.
Definition IPPROTO_TCP : Z := 6.
Definition TCP_NODELAY : Z := 1.

(** An option is a level and a name; its value the ints (or the fields of the
    struct) that are passed.  [inr] is a failed call, with [errno]. *)
Class SocketCalls (K : Type) : Type := {
  sys_setsockopt : Z -> Z * Z -> list Z -> K -> (unit + Z) * K;
  sys_getsockopt : Z -> Z * Z -> K -> (Z + Z) * K;
  sys_getsockname : Z -> K -> endpoint + Z;
  sys_getpeername : Z -> K -> endpoint + Z }.

Section Sockets.
Context {K : Type} `{!SocketCalls K}.

(** [error()], and the code of [error_code()]. *)
Definition error (fd : Z) : M K Z := fun k =>
  let r := sys_getsockopt fd (SOL_SOCKET, SO_ERROR) k in
  match r.1 with inr errno => (Val errno, r.2) | inl optval => (Val optval, r.2) end.
Definition error_code (fd : Z) : M K Z := error fd.

Definition local_endpoint (fd : Z) : M K endpoint := fun k =>
  match sys_getsockname fd k with inr errno => (Exn (system_error errno), k) | inl ep => (Val ep, k) end.
Definition peer_endpoint (fd : Z) : M K endpoint := fun k =>
  match sys_getpeername fd k with inr errno => (Exn (system_error errno), k) | inl ep => (Val ep, k) end.
(** [family()] and [port()] of an endpoint, which is in network order. *)
Definition family (e : endpoint) : Z := sin_family e.
Definition port (e : endpoint) : Z := sin_port e.
Definition is_self_connect (fd : Z) : M K bool :=
  let! local := local_endpoint fd in
  let! peer := peer_endpoint fd in
  M_ret (if family local =? AF_INET then
           (port local =? port peer) && (sin_addr local =? sin_addr peer)
         else false).

Definition setsockopt (fd : Z) (o : Z * Z) (v : list Z) : M K unit := fun k =>
  let r := sys_setsockopt fd o v k in
  match r.1 with inr errno => (Exn (system_error errno), r.2) | inl _ => (Val tt, r.2) end.
(** What the four setters of a flag do. *)
Definition set_flag (fd : Z) (o : Z * Z) (on : bool) : M K unit := fun k =>
  let optval := if on then 1 else 0 in
  let r := sys_setsockopt fd o [optval] k in
  match r.1 with inr errno => if on then (Exn (system_error errno), r.2) else (Val tt, r.2) | inl _ => (Val tt, r.2) end.
Definition set_reuse_port (fd : Z) (on : bool) : M K unit := set_flag fd (SOL_SOCKET, SO_REUSEPORT) on.
Definition set_tcp_no_delay (fd : Z) (on : bool) : M K unit := set_flag fd (IPPROTO_TCP, TCP_NODELAY) on.
Definition set_reuse_addr (fd : Z) (on : bool) : M K unit := set_flag fd (SOL_SOCKET, SO_REUSEADDR) on.
Definition set_keep_alive (fd : Z) (on : bool) : M K unit := set_flag fd (SOL_SOCKET, SO_KEEPALIVE) on.
Definition set_linger (fd onoff linger : Z) : M K unit := setsockopt fd (SOL_SOCKET, SO_LINGER) [wrap 16 onoff; wrap 16 linger].
End Sockets.

(** ** UDP *)

(** [new_udp_socket_safe], [make_udp_socket], [make_shared_udp_socket]; [ret] is
    what [::socket] returns. *)
Definition new_udp_socket_safe (ret : Z) : M fds Z := if ret <? 0 then throw no_socket else do_open ret;; M_ret ret.
Definition make_udp_socket (ret : Z) : M fds nat := if ret <? 0 then throw no_socket else do_open ret;; construct ret.
Definition make_shared_udp_socket (ret : Z) : M fds nat := if ret <? 0 then throw no_socket else do_open ret;; construct ret.

(** * Facts *)

(** setsockopt(2) and getsockopt(2): [option_of] is the value the kernel has;
    a call that fails changes nothing; the pending error is cleared when it
    is read; both ends of a connection have one family. *)
Class SocketLaws (K : Type) `{!SocketCalls K} : Type := {
  option_of : K -> Z -> Z * Z -> list Z;
  set_ok : forall fd o v k k', sys_setsockopt fd o v k = (inl tt, k') ->
    option_of k' fd o = v /\ forall fd' o', (fd', o') <> (fd, o) -> option_of k' fd' o' = option_of k fd' o';
  set_fails : forall fd o v k e k', sys_setsockopt fd o v k = (inr e, k') -> k' = k;
  names_agree : forall fd k l p, sys_getsockname fd k = inl l -> sys_getpeername fd k = inl p -> sin_family l = sin_family p }.

Section SocketFacts.
Context {K : Type} `{Laws : SocketLaws K}.
Implicit Types k : K.

(** The other options, and those of other sockets, are as before. *)
Definition only_changes fd o (v : list Z) k k' : Prop :=
  option_of k' fd o = v /\ forall fd' o', (fd', o') <> (fd, o) -> option_of k' fd' o' = option_of k fd' o'.

Lemma set_flag_exact fd o (on : bool) k :
  match set_flag fd o on k with
  | (Val _, k') => only_changes fd o [if on then 1 else 0] k k' \/ (on = false /\ k' = k)
  | (Exn e, k') => on = true /\ k' = k /\ exists errno, e = system_error errno /\ sys_setsockopt fd o [1] k = (inr errno, k)
  | (Fault _, _) => False
  end.
Proof.
  unfold set_flag. destruct (sys_setsockopt fd o [if on then 1 else 0] k) as [[[]|e] k'] eqn:E; cbn.
  - left. exact (set_ok _ _ _ _ _ E).
  - pose proof (set_fails _ _ _ _ _ _ E) as ->. destruct on; [|by right]. split_and!; [done..|]. by exists e.
Qed.

Definition flag_setters : list ((Z -> bool -> M K unit) * (Z * Z)) :=
  [(set_reuse_port, (SOL_SOCKET, SO_REUSEPORT)); (set_tcp_no_delay, (IPPROTO_TCP, TCP_NODELAY));
   (set_reuse_addr, (SOL_SOCKET, SO_REUSEADDR)); (set_keep_alive, (SOL_SOCKET, SO_KEEPALIVE))].

(** The setters of a socket do what they say or throw.  Turning a flag
    on either sets exactly that option or throws the error of the call and
    changes nothing; [set_linger] likewise, for its two 16-bit fields.
    Turning a flag off never throws: it clears exactly that option or, when
    the call fails, leaves it on without a word.  [is_self_connect] throws
    when the socket has no address or no peer and otherwise is true exactly
    when the peer is the socket's own IPv4 address and port. *)
Theorem socket_calls_exact fd k :
  Forall (fun x => forall on : bool,
    match x.1 fd on k with
    | (Val _, k') => only_changes fd x.2 [if on then 1 else 0] k k' \/ (on = false /\ k' = k)
    | (Exn e, k') => on = true /\ k' = k /\ exists errno, e = system_error errno /\ sys_setsockopt fd x.2 [1] k = (inr errno, k)
    | (Fault _, _) => False
    end) flag_setters /\
  (forall onoff linger : Z, match set_linger fd onoff linger k with
    | (Val _, k') => only_changes fd (SOL_SOCKET, SO_LINGER) [wrap 16 onoff; wrap 16 linger] k k'
    | (Exn e, k') => k' = k /\ exists errno, e = system_error errno
    | (Fault _, _) => False
    end) /\
  match is_self_connect fd k with
  | (Val b, k') => k' = k /\ exists l p, sys_getsockname fd k = inl l /\ sys_getpeername fd k = inl p /\
      (b = true <-> l = p /\ sin_family l = AF_INET)
  | (Exn e, k') => k' = k /\ exists errno, e = system_error errno /\
      (sys_getsockname fd k = inr errno \/ sys_getpeername fd k = inr errno)
  | (Fault _, _) => False
  end.
Proof.
  split_and!.
  - repeat constructor; intros on; apply set_flag_exact.
  - intros onoff linger. unfold set_linger, setsockopt. destruct (sys_setsockopt fd _ _ k) as [[[]|e] k'] eqn:E; cbn.
    + exact (set_ok _ _ _ _ _ E).
    + pose proof (set_fails _ _ _ _ _ _ E) as ->. split; [done | by exists e].
  - unfold is_self_connect, local_endpoint, peer_endpoint, M_bind.
    destruct (sys_getsockname fd k) as [l|e] eqn:El; [|split; [done|]; exists e; split; [done | by left]].
    destruct (sys_getpeername fd k) as [p|e] eqn:Ep; [|split; [done|]; exists e; split; [done | by right]].
    split; [done|]. exists l, p. split_and!; [done..|]. pose proof (names_agree fd k l p El Ep) as Hf.
    unfold family, port. destruct (Z.eqb_spec (sin_family l) AF_INET) as [Ef|Ef]; [|split; [done | by intros [_ ?]]].
    rewrite andb_true_iff, !Z.eqb_eq. split.
    + intros [Hpo Ha]. split; [|done]. destruct l, p. cbn in *. by subst.
    + by intros [-> _].
Qed.
End SocketFacts.

(** A kernel that keeps the options of open sockets. *)
Definition options : Type := gmap (Z * (Z * Z)) (list Z).
#[global] Instance options_calls : SocketCalls options := {|
  sys_setsockopt fd o v k := if fd <? 0 then (inr 9, k) else (inl tt, <[(fd, o) := v]> k);
  sys_getsockopt fd o k := if fd <? 0 then (inr 9, k) else (inl 0, k);
  sys_getsockname fd k := if fd <? 0 then inr 9 else inl (mk_endpoint AF_INET 20480 16777343);
  sys_getpeername fd k := if fd <? 0 then inr 9 else inl (mk_endpoint AF_INET 20480 16777343) |}.
#[global, refine] Instance options_laws : SocketLaws options := {| option_of k fd o := default [] (k !! (fd, o)) |}.
Proof.
  - intros fd o v k k'. cbn. destruct (fd <? 0); [done|]. intros [= <-]. unfold options in *. split; [by rewrite lookup_insert_eq|].
    intros fd' o' Hne. unfold options in *. by rewrite lookup_insert_ne by congruence.
  - intros fd o v k e k'. cbn. destruct (fd <? 0); [by intros [= _ ->] | done].
  - intros fd k l p. cbn. destruct (fd <? 0); [done|]. by intros [= <-] [= <-].
Defined.
Lemma socket_calls_exact_witness : exists k', set_tcp_no_delay (K := options) 5 true ∅ = (Val tt, k') /\ option_of k' 5 (IPPROTO_TCP, TCP_NODELAY) = [1] /\
  (is_self_connect (K := options) 5 ∅).1 = Val true.
Proof.
  destruct (socket_calls_exact (K := options) 5 ∅) as (H & _ & _). rewrite Forall_forall in H.
  specialize (H (set_tcp_no_delay, (IPPROTO_TCP, TCP_NODELAY)) ltac:(do 2 constructor) true).
  eexists. split; [reflexivity|]. split; [|reflexivity]. destruct H as [[H _]|[H _]]; [exact H | discriminate H].
Defined.

(** [port()] does not give back the port an endpoint was made with. *)
Theorem port_is_in_network_order : port (endpoint_of_port 80) = 20480.
Proof. reflexivity. Qed.
