(* ===== verification/JoinPromises.v ===== *)
(** The promises behind [when_all] and [sync_wait]:
    [detail/async/when_all_task.hpp] and [detail/async/sync_wait_task.hpp].
    The coroutine ends in [co_yield] with the result as its operand, which
    lives in the frame; the promise keeps its address.  [Joins] models how
    the coroutines are joined and takes from here only what they end with. *)
From S2P Require Import Prelude Events Joins Promise.

Section JoinPromises.
Context {T : Type} (moved : T -> T).

(** * [when_all_task_promise<RESULT>] *)

(** [m_result] is uninitialised until [yield_value]; the object it points to
    is the operand of [co_yield]. *)
Record when_all_task_promise : Type := mk_when_all { m_exception : option exn; m_result : option T }.
(** [co_yield e]: when the construction of the operand throws nothing is
    yielded. *)
Definition yield_value (a : T + exn) : M when_all_task_promise unit := fun p =>
  match a with inl v => (Val tt, mk_when_all (m_exception p) (Some v)) | inr e => (Exn e, p) end.
Definition when_all_unhandled (e : exn) : M when_all_task_promise unit := modify (fun p => mk_when_all (Some e) (m_result p)).
Definition rethrow_if_exception : M when_all_task_promise unit := fun p =>
  match m_exception p with Some e => (Exn e, p) | None => (Val tt, p) end.
(** [*m_result], whose object a caller that takes an rvalue moves from. *)
Definition pointee (after : T -> T) : M when_all_task_promise T := fun p =>
  match m_result p with
  | Some v => (Val v, mk_when_all (m_exception p) (Some (after v)))
  | None => (Fault undefined_behaviour, p)
  end.
Definition result_lvalue : M when_all_task_promise T := rethrow_if_exception;; pointee id.
Definition result_rvalue : M when_all_task_promise T := rethrow_if_exception;; pointee moved.
#[global] Instance when_all_promise : Promise when_all_task_promise (T + exn) T := {|
  promise_new := mk_when_all None None; store_value := yield_value; Promise.unhandled_exception := when_all_unhandled;
  Promise.result := result_lvalue; take_result := result_rvalue; promise_destroy := M_ret tt |}.

(** * [sync_wait_task_promise<RESULT>] *)

Record sync_wait_task_promise : Type := mk_sync_wait { s_result : option T; s_exception : option exn }.
Definition sync_yield_value (a : T + exn) : M sync_wait_task_promise unit := fun p =>
  match a with inl v => (Val tt, mk_sync_wait (Some v) (s_exception p)) | inr e => (Exn e, p) end.
Definition sync_unhandled (e : exn) : M sync_wait_task_promise unit := modify (fun p => mk_sync_wait (s_result p) (Some e)).
Definition sync_result : M sync_wait_task_promise T := fun p =>
  match s_exception p, s_result p with
  | Some e, _ => (Exn e, p)
  | None, Some v => (Val v, mk_sync_wait (Some (moved v)) None)
  | None, None => (Fault undefined_behaviour, p)
  end.

(** * The coroutines and the objects that own them *)

(** [make_when_all_task] and [make_sync_wait_task] of an awaitable that ends
    with [o], run to their final suspend point; [void] has [co_await] alone. *)
Definition make_when_all_task (o : T + exn) : outcome unit * when_all_task_promise :=
  finish (match o with inl v => Returns (inl v) | inr e => Throws e end) promise_new.
Definition make_when_all_task_void (o : unit + exn) : outcome unit * promise_void :=
  finish (match o with inl v => Returns v | inr e => Throws e end) promise_new.
Definition make_sync_wait_task (o : T + exn) : outcome unit * sync_wait_task_promise :=
  match o with
  | inl v => sync_yield_value (inl v) (mk_sync_wait None None)
  | inr e => sync_unhandled e (mk_sync_wait None None)
  end.
End JoinPromises.
Arguments when_all_task_promise T : clear implicits.
Arguments sync_wait_task_promise T : clear implicits.

Section JoinTasks.
Context {P A R : Type} `{!Promise P A R}.

(** [when_all_task]: the handle it owns, [None] when it was moved from. *)
Definition when_all_task : Type := option P.
Definition move_task (other : when_all_task) : when_all_task * when_all_task := (other, None).
(** [result() &], [result() &&] and [non_void_result], [void_value] being
    [unit]. *)
Definition on_handle {B} (m : M P B) : M when_all_task B := fun t =>
  match t with None => (Fault undefined_behaviour, None) | Some p => let r := m p in (r.1, Some r.2) end.
Definition task_result : M when_all_task R := on_handle Promise.result.
Definition task_result_rvalue : M when_all_task R := on_handle take_result.
Definition non_void_result : M when_all_task R := task_result.
(** The loops of [when_all] over the tasks; [take] when the vector is an
    rvalue. *)
Fixpoint collect_results (take : bool) (ts : list when_all_task) : outcome (list R) :=
  match ts with
  | [] => Val []
  | t :: ts' =>
    match ((if take then task_result_rvalue else task_result) t).1 with
    | Val v => match collect_results take ts' with Val l => Val (v :: l) | Exn e => Exn e | Fault f => Fault f end
    | Exn e => Exn e
    | Fault f => Fault f
    end
  end.
End JoinTasks.
Arguments when_all_task P : clear implicits.

(** * Facts *)

Section Facts.
Context {T : Type} (moved : T -> T).
#[local] Existing Instance when_all_promise.
#[global] Instance when_all_laws : @PromiseLaws _ _ _ (when_all_promise moved) id.
Proof. split. intros [[v|e]|e|[v|e'] e]; (eexists; split; [reflexivity|]); cbn; split_and!; try done; by eexists. Qed.

(** The outcome of the awaitable, as who asks for the result sees it. *)
Definition seen {R} (o : R + exn) : outcome R := match o with inl v => Val v | inr e => Exn e end.
#[local] Instance wp : Promise (when_all_task_promise T) (T + exn) T := when_all_promise moved.

Lemma task_results (o : T + exn) : exists p, make_when_all_task moved o = (Val tt, p) /\
  task_result (Some p) = (seen o, Some p) /\ (task_result_rvalue (Some p)).1 = seen o.
Proof. destruct o as [v|e]; (eexists; split; [reflexivity|]); by split. Qed.

(** What [Joins] uses is what the promises do.  For any awaitables, the tasks
    of [when_all] and the one of [sync_wait] end normally; reading a result
    gives the value or rethrows the exception the awaitable ended with, an
    lvalue as often as it is asked; the loop of [when_all] over all tasks
    gives what the model of [Joins] gives, whether the results are moved or
    not. *)
Theorem joined_promises_hold_the_outcome (os : list (T + exn)) (take : bool) :
  exists ps, Forall2 (fun o p => make_when_all_task moved o = (Val tt, p) /\ task_result (Some p) = (seen o, Some p)) os ps /\
    collect_results take (Some <$> ps) = WhenAll.collect (WhenAll.Notified <$> os) /\
    (forall o e, exists p, make_sync_wait_task o = (Val tt, p) /\
       Some (sync_result moved p).1 = SyncWait.result (SyncWait.mk_state SyncWait.Signalled (Some o) e)).
Proof.
  assert (Hs : forall (o : T + exn) e, exists p, make_sync_wait_task o = (Val tt, p) /\
       Some (sync_result moved p).1 = SyncWait.result (SyncWait.mk_state SyncWait.Signalled (Some o) e))
    by (intros [v|x] e; (eexists; split; [reflexivity | done])).
  induction os as [|o os (ps & Hf & Hc & _)]; [by exists []|].
  destruct (task_results o) as (p & E & H1 & H2). exists (p :: ps). split_and!; [by constructor | | done].
  cbn. rewrite Hc. assert (Hr : ((if take then task_result_rvalue else task_result) (Some p)).1 = seen o) by (destruct take; [done | by rewrite H1]).
  rewrite Hr. by destruct o.
Qed.
End Facts.
(** The void tasks, and a result that is asked for too early: a wild pointer is
    read, while [void] looks as if it had ended. *)
Theorem void_and_early_results (T : Type) (moved : T -> T) (o : unit + exn) :
  (exists p, make_when_all_task_void o = (Val tt, p) /\ (task_result (Some p)).1 = seen o) /\
  (result_lvalue (mk_when_all (T := T) None None)).1 = Fault undefined_behaviour /\
  (sync_result moved (mk_sync_wait None None)).1 = Fault undefined_behaviour /\
  (task_result (Some (promise_new : promise_void))).1 = Val tt.
Proof. split_and!; [|done..]. destruct o as [[]|e]; (eexists; split; [reflexivity | done]). Qed.
