(* ===== verification/LoggerThread.v ===== *)
(** The logger's thread: [run], [stop] and the destructor of [async_logger]
    against [logging_loop], from [source/logging/async_logger.cpp], with the
    mutex, the condition variable, the latch and the stop flag between them.
    [Logger] models what one [poll] does; here is when it is called. *)
From S2P Require Import Prelude Events Logger.

(** The writer in [logging_loop]: [Holds1] and [Holds2] own the mutex before
    and after [wait_for]; [Wakes] has to take it back.  [poll] takes it for a
    moment, so it starts when nobody has it. *)
Inductive writer : Type :=
| NotRunning | CountsDown | TestsStop | Polls | Locks | Holds1 | Waits | Wakes | Holds2 | LastForce | LastPoll | LastFlush | Ended.
#[global] Instance writer_eq_dec : EqDecision writer.
Proof. solve_decision. Defined.
(** The owner of the logger, outside its members or in [run] or [stop]. *)
Inductive owner : Type := Outside | WaitsLatch | StopLocks | StopHolds | StopNotifies | StopJoins | Gone.
#[global] Instance owner_eq_dec : EqDecision owner.
Proof. solve_decision. Defined.
(** Who called [stop]. *)
Inductive continuation : Type := Returns | StartsThread | Destroys.
(** What the writer does to the log, in order; a [Poll] with whether the stop
    had been requested before. *)
Inductive work : Type := Poll (stopping : bool) | Force | ForceAtEnd | Flush.

Record thread_state : Type := mk_thread {
  stop_requested_ : bool; mutex_ : bool; count_down_latch_ : nat; joinable : bool; writer_ : writer; owner_ : owner;
  then_ : continuation; works : list work }.
Implicit Types s : thread_state.
Definition new_logger : thread_state := mk_thread false false 1 false NotRunning Outside Returns [].

Definition set_writer (w : writer) (m : bool) (done : list work) s : thread_state :=
  mk_thread (stop_requested_ s) m (count_down_latch_ s) (joinable s) w (owner_ s) (then_ s) (works s ++ done).
Definition set_owner (o : owner) (m : bool) s : thread_state :=
  mk_thread (stop_requested_ s) m (count_down_latch_ s) (joinable s) (writer_ s) o (then_ s) (works s).

(** [thread_ = std::jthread{...}]; the owner goes on to [count_down_latch_.wait()]. *)
Definition start_thread s : thread_state :=
  mk_thread (stop_requested_ s) (mutex_ s) (count_down_latch_ s) true CountsDown WaitsLatch Returns (works s).
(** [stop()], first statement. *)
Definition begin_stop (k : continuation) s : thread_state :=
  mk_thread true (mutex_ s) (count_down_latch_ s) (joinable s) (writer_ s) StopLocks k (works s).
Definition run s : thread_state := if joinable s then begin_stop StartsThread s else start_thread s.
(** What follows [stop()] in its caller. *)
Definition end_stop s : thread_state :=
  let s1 := mk_thread (stop_requested_ s) (mutex_ s) (count_down_latch_ s) false (writer_ s) Outside Returns (works s) in
  match then_ s with
  | Returns => s1
  | StartsThread => start_thread s1
  | Destroys => mk_thread (stop_requested_ s) (mutex_ s) (count_down_latch_ s) false (writer_ s) Gone Returns (works s ++ [Flush])
  end.

(** A step of the writer; [None]: it is blocked, or it takes a latch below
    zero. *)
Definition writer_step s : option thread_state :=
  match writer_ s with
  | CountsDown =>
    match count_down_latch_ s with
    | S n => Some (mk_thread (stop_requested_ s) (mutex_ s) n (joinable s) TestsStop (owner_ s) (then_ s) (works s))
    | O => None
    end
  | TestsStop => Some (set_writer (if stop_requested_ s then LastForce else Polls) (mutex_ s) [] s)
  | Polls => if mutex_ s then None else Some (set_writer Locks false [Poll (stop_requested_ s)] s)
  | Locks => if mutex_ s then None else Some (set_writer Holds1 true [] s)
  | Holds1 => Some (set_writer Waits false [] s)
  | Wakes => if mutex_ s then None else Some (set_writer Holds2 true [] s)
  | Holds2 => Some (set_writer TestsStop false [Force] s)
  | LastForce => Some (set_writer LastPoll (mutex_ s) [ForceAtEnd] s)
  | LastPoll => if mutex_ s then None else Some (set_writer LastFlush false [Poll (stop_requested_ s)] s)
  | LastFlush => Some (set_writer Ended (mutex_ s) [Flush] s)
  | NotRunning | Waits | Ended => None
  end.
Definition wake s : thread_state := if decide (writer_ s = Waits) then set_writer Wakes (mutex_ s) [] s else s.
Definition owner_step s : option thread_state :=
  match owner_ s with
  | WaitsLatch => if decide (count_down_latch_ s = 0%nat) then Some (set_owner Outside (mutex_ s) s) else None
  | StopLocks => if mutex_ s then None else Some (set_owner StopHolds true s)
  | StopHolds => Some (set_owner StopNotifies false s)
  | StopNotifies => Some (set_owner StopJoins (mutex_ s) (wake s))
  | StopJoins => if joinable s && negb (bool_decide (writer_ s = Ended)) then None else Some (end_stop s)
  | Outside | Gone => None
  end.

(** [NotifyOne] is [append] on another thread; [Timeout] the end of
    [wait_for], which may also wake up for no reason. *)
Inductive thread_action : Type := Run | Stop | Destroy | OwnerStep | WriterStep | Timeout | NotifyOne.
Definition thread_act (a : thread_action) s : option thread_state :=
  match a with
  | Run => if decide (owner_ s = Outside) then Some (run s) else None
  | Stop => if decide (owner_ s = Outside) then Some (begin_stop Returns s) else None
  | Destroy => if decide (owner_ s = Outside) then Some (begin_stop Destroys s) else None
  | OwnerStep => owner_step s
  | WriterStep => writer_step s
  | Timeout => if decide (writer_ s = Waits) then Some (wake s) else None
  | NotifyOne => Some (wake s)
  end.
Definition thread_step : thread_state -> thread_action -> thread_state -> Prop := steps_of thread_act.
(** Histories in which [run] is called once at most. *)
Definition once_act (a : thread_action) s : option thread_state :=
  match a with Run => if decide (writer_ s = NotRunning) then thread_act Run s else None | _ => thread_act a s end.
Definition once_step : thread_state -> thread_action -> thread_state -> Prop := steps_of once_act.

(** * Invariant *)

Definition turns_work (bs : list bool) : list work := concat ((fun b => [Poll b; Force]) <$> bs).
Definition current_work (w : writer) : list work -> Prop := fun l =>
  match w with
  | Locks | Holds1 | Waits | Wakes | Holds2 => exists b, l = [Poll b]
  | LastPoll => l = [ForceAtEnd]
  | LastFlush => l = [ForceAtEnd; Poll true]
  | Ended => l = [ForceAtEnd; Poll true; Flush]
  | _ => l = []
  end.
Definition holds_mutex (w : writer) : bool := match w with Holds1 | Holds2 => true | _ => false end.
Definition stopping_writer (w : writer) : bool := match w with LastForce | LastPoll | LastFlush | Ended => true | _ => false end.
Definition in_stop (o : owner) : bool := match o with StopLocks | StopHolds | StopNotifies | StopJoins | Gone => true | _ => false end.

Record thread_inv s : Prop := {
  i_mutex : mutex_ s = holds_mutex (writer_ s) || bool_decide (owner_ s = StopHolds);
  i_exclusive : holds_mutex (writer_ s) = true -> owner_ s <> StopHolds;
  i_latch : count_down_latch_ s = match writer_ s with NotRunning | CountsDown => 1%nat | _ => 0%nat end;
  i_running : joinable s = false -> writer_ s = NotRunning \/ writer_ s = Ended;
  i_started : joinable s = true -> writer_ s <> NotRunning;
  i_latched : owner_ s = WaitsLatch -> joinable s = true;
  i_counts : writer_ s = CountsDown -> owner_ s = WaitsLatch;
  i_then : then_ s <> StartsThread;
  i_stop : stopping_writer (writer_ s) || in_stop (owner_ s) = true -> stop_requested_ s = true;
  i_gone : owner_ s = Gone -> joinable s = false;
  i_works : exists bs l, works s = turns_work bs ++ l ++ (if decide (owner_ s = Gone) then [Flush] else []) /\ current_work (writer_ s) l }.

Lemma new_logger_inv : thread_inv new_logger.
Proof. split; try done; [by left | by exists [], []]. Qed.

(** A step of the owner that leaves the writer and the log alone. *)
Lemma begin_stop_inv k s : thread_inv s -> owner_ s = Outside -> k <> StartsThread -> thread_inv (begin_stop k s).
Proof.
  intros [H1 H2 H3 H4 H5 H6 H7 H8 H9 Hg H10] Ho Hk. rewrite Ho in *. split; cbn; try done.
  intros Hw. by specialize (H7 Hw).
Qed.
Lemma start_thread_inv s : thread_inv s -> owner_ s = Outside -> writer_ s = NotRunning -> thread_inv (start_thread s).
Proof.
  intros [H1 H2 H3 H4 H5 H6 H7 H8 H9 Hg H10] Ho Hw. rewrite Ho, Hw in *. by split.
Qed.
Lemma set_owner_inv o m s : thread_inv s -> o <> Gone -> o <> WaitsLatch -> owner_ s <> Gone -> (writer_ s = CountsDown -> False) ->
  m = holds_mutex (writer_ s) || bool_decide (o = StopHolds) -> (o = StopHolds -> holds_mutex (writer_ s) = false) ->
  (in_stop o = true -> stop_requested_ s = true) -> thread_inv (set_owner o m s).
Proof.
  intros [H1 H2 H3 H4 H5 H6 H7 H8 H9 Hg (bs & l & E & Hl)] Ho Hl' Hn Hc Hm Hx Hs. split; cbn; try done.
  - intros Hh ->. by rewrite Hx in Hh.
  - rewrite orb_true_iff. intros [Hw|Hw]; [apply H9; by rewrite Hw | by apply Hs].
  - exists bs, l. rewrite decide_False by done. by rewrite decide_False in E by done.
Qed.

Lemma turns_snoc bs b : turns_work (bs ++ [b]) = turns_work bs ++ [Poll b; Force].
Proof. unfold turns_work. by rewrite fmap_app, concat_app. Qed.

Lemma wake_frame s : owner_ (wake s) = owner_ s /\ mutex_ (wake s) = mutex_ s /\ stop_requested_ (wake s) = stop_requested_ s.
Proof. unfold wake. by case_decide. Qed.
Lemma wake_inv s : thread_inv s -> thread_inv (wake s).
Proof.
  intros Hi. unfold wake. case_decide as Hw; [|done]. destruct Hi as [H1 H2 H3 H4 H5 H6 H7 H8 H9 Hg (bs & l & E & Hl)]. rewrite Hw in *.
  split; cbn; try done; [intros Hj; by destruct (H4 Hj) |]. exists bs, l. by rewrite app_nil_r.
Qed.
(** A step of the writer that appends [done] to the log. *)
Lemma set_writer_inv w m done_ s : thread_inv s -> joinable s = true -> w <> NotRunning -> w <> CountsDown -> writer_ s <> CountsDown ->
  m = holds_mutex w || bool_decide (owner_ s = StopHolds) -> (holds_mutex w = true -> owner_ s <> StopHolds) ->
  (stopping_writer w = true -> stop_requested_ s = true) ->
  (forall bs l, works s = turns_work bs ++ l -> current_work (writer_ s) l -> exists bs' l', works s ++ done_ = turns_work bs' ++ l' /\ current_work w l') ->
  thread_inv (set_writer w m done_ s).
Proof.
  intros [H1 H2 H3 H4 H5 H6 H7 H8 H9 Hg (bs & l & E & Hl)] Hj Hw Hc Hc' Hm Hx Hs Hwk.
  assert (Hng : owner_ s <> Gone) by (intros Ho; specialize (Hg Ho); congruence).
  split; cbn; try done.
  - rewrite H3. destruct (writer_ s) eqn:Ew, w; try done; exfalso; by apply H5.
  - intros Hj'. congruence.
  - rewrite orb_true_iff. intros [Hw'|Hw']; [by apply Hs | apply H9; by rewrite Hw', orb_true_r].
  - rewrite decide_False, app_nil_r in * by done. destruct (Hwk bs l E Hl) as (bs' & l' & E' & Hl'). exists bs', l'.
    by rewrite app_nil_r.
Qed.
Lemma counted_inv s : thread_inv s -> writer_ s = CountsDown -> joinable s = true ->
  thread_inv (mk_thread (stop_requested_ s) (mutex_ s) 0 (joinable s) TestsStop (owner_ s) (then_ s) (works s)).
Proof.
  intros [H1 H2 H3 H4 H5 H6 H7 H8 H9 Hg H10] Hw Hj. rewrite Hw in *. split; cbn; try done. congruence.
Qed.
Lemma writer_step_inv s s' : thread_inv s -> writer_step s = Some s' -> thread_inv s'.
Proof.
  intros Hi Es. assert (Hj : joinable s = true).
  { destruct (joinable s) eqn:Hj; [done|]. unfold writer_step in Es. by destruct (i_running _ Hi Hj) as [Hw|Hw]; rewrite Hw in Es. }
  pose proof (i_mutex _ Hi) as Hm. pose proof (i_exclusive _ Hi) as Hx. pose proof (i_latch _ Hi) as Hla.
  assert (Hst : stopping_writer (writer_ s) = true -> stop_requested_ s = true) by (intros Hs; apply (i_stop _ Hi); by rewrite Hs).
  assert (Hns : holds_mutex (writer_ s) = true -> bool_decide (owner_ s = StopHolds) = false)
    by (intros Hh; apply bool_decide_eq_false_2; by apply Hx).
  assert (Hfree : mutex_ s = false -> bool_decide (owner_ s = StopHolds) = false /\ owner_ s <> StopHolds).
  { intros E. rewrite E in Hm. symmetry in Hm. apply orb_false_iff in Hm as [_ Hm]. split; [done|]. by apply bool_decide_eq_false in Hm. }
  unfold writer_step in Es. destruct (writer_ s) eqn:Hw; try done; cbn in Hm, Hst, Hns.
  - rewrite Hla in Es. injection Es as <-. by apply counted_inv.
  - injection Es as <-. destruct (stop_requested_ s) eqn:Hs; apply set_writer_inv; rewrite ?Hw; try done; intros bs l -> Hl; exists bs, l; by rewrite app_nil_r.
  - destruct (mutex_ s); [done|]. injection Es as <-. apply set_writer_inv; rewrite ?Hw; try done.
    intros bs l -> ->. exists bs, [Poll (stop_requested_ s)]. rewrite app_nil_r. split; [done | by eexists].
  - destruct (mutex_ s); [done|]. injection Es as <-. apply set_writer_inv; rewrite ?Hw; try done; [intros _; by apply Hfree|].
    intros bs l -> Hl. exists bs, l. by rewrite app_nil_r.
  - injection Es as <-. apply set_writer_inv; rewrite ?Hw; try done; [by rewrite Hns|]. intros bs l -> Hl. exists bs, l. by rewrite app_nil_r.
  - destruct (mutex_ s); [done|]. injection Es as <-. apply set_writer_inv; rewrite ?Hw; try done; [intros _; by apply Hfree|].
    intros bs l -> Hl. exists bs, l. by rewrite app_nil_r.
  - injection Es as <-. apply set_writer_inv; rewrite ?Hw; try done; [by rewrite Hns|].
    intros bs l -> [b ->]. exists (bs ++ [b]), []. by rewrite turns_snoc, <- !app_assoc.
  - injection Es as <-. apply set_writer_inv; rewrite ?Hw; try done.
    intros bs l -> ->. exists bs, [ForceAtEnd]. by rewrite app_nil_r.
  - destruct (mutex_ s); [done|]. injection Es as <-. apply set_writer_inv; rewrite ?Hw; try done.
    intros bs l -> ->. rewrite Hst by done. exists bs, [ForceAtEnd; Poll true]. by rewrite <- app_assoc.
  - injection Es as <-. apply set_writer_inv; rewrite ?Hw; try done.
    intros bs l -> ->. exists bs, [ForceAtEnd; Poll true; Flush]. by rewrite <- app_assoc.
Qed.

Lemma end_stop_inv s : thread_inv s -> owner_ s = StopJoins -> (joinable s = true -> writer_ s = Ended) -> thread_inv (end_stop s).
Proof.
  intros Hi Ho Hj. assert (Hw : writer_ s = NotRunning \/ writer_ s = Ended).
  { destruct (joinable s) eqn:E; [right; by apply Hj | by apply (i_running _ Hi)]. }
  destruct Hi as [H1 H2 H3 H4 H5 H6 H7 H8 H9 Hg (bs & l & E & Hl)]. rewrite Ho in *. unfold end_stop.
  assert (Hnc : writer_ s <> CountsDown) by (intros Hc; rewrite Hc in Hw; by destruct Hw).
  destruct (then_ s) eqn:Et; [|done|]; (split; cbn; try done).
  - rewrite orb_false_r. intros Hs. apply H9. by rewrite Hs.
  - by exists bs, l.
  - exists bs, l. by rewrite E, <- !app_assoc.
Qed.
Lemma owner_step_inv s s' : thread_inv s -> owner_step s = Some s' -> thread_inv s'.
Proof.
  intros Hi Es. unfold owner_step in Es. pose proof (i_stop _ Hi) as Hst. pose proof (i_mutex _ Hi) as Hm. pose proof (i_latch _ Hi) as Hla.
  pose proof (i_counts _ Hi) as Hc. destruct (owner_ s) eqn:Ho; try done.
  - case_decide as Hz; [|done]. injection Es as <-. apply set_owner_inv; rewrite ?Ho; try done. intros Hw. rewrite Hw in Hla. congruence.
  - destruct (mutex_ s) eqn:Em; [done|]. injection Es as <-. symmetry in Hm. apply orb_false_iff in Hm as [Hm _].
    apply set_owner_inv; rewrite ?Ho, ?Hm; try done; [intros Hw; by specialize (Hc Hw) | intros _; apply Hst; apply orb_true_r].
  - injection Es as <-. pose proof (i_exclusive _ Hi) as Hx. rewrite Ho in Hx.
    assert (Hh : holds_mutex (writer_ s) = false) by (destruct (holds_mutex (writer_ s)); [by destruct Hx | done]).
    apply set_owner_inv; rewrite ?Ho, ?Hh; try done; [intros Hw; by specialize (Hc Hw) | intros _; apply Hst; apply orb_true_r].
  - injection Es as <-. destruct (wake_frame s) as (Hwo & Hmu & _). rewrite Ho in Hwo.
    pose proof (wake_inv s Hi) as Hi'. pose proof (i_counts _ Hi') as Hc'. rewrite Hwo in Hc'.
    pose proof (i_mutex _ Hi') as Hm'. rewrite Hwo in Hm'.
    apply set_owner_inv; rewrite ?Hwo; try done; [intros Hw; by specialize (Hc' Hw) | by rewrite <- Hmu, Hm' |].
    intros _. apply (i_stop _ Hi'). rewrite Hwo. apply orb_true_r.
  - destruct (joinable s) eqn:Hj; cbn in Es.
    + destruct (bool_decide (writer_ s = Ended)) eqn:Hw; [|done]. apply bool_decide_eq_true in Hw. injection Es as <-. by apply end_stop_inv.
    + injection Es as <-. apply end_stop_inv; congruence.
Qed.

Lemma once_thread s a s' : once_step s a s' -> thread_step s a s' /\ (a = Run -> writer_ s = NotRunning).
Proof. unfold once_step, thread_step, steps_of. destruct a; cbn [once_act]; [case_decide; [|done]|..]; intros E; (split; [exact E | done]). Qed.
Lemma thread_step_inv s a s' : thread_inv s -> once_step s a s' -> thread_inv s'.
Proof.
  intros Hi [E Hr]%once_thread. unfold thread_step, steps_of in E. destruct a; cbn [thread_act] in E.
  - case_decide as Ho; [|done]. injection E as <-. specialize (Hr eq_refl). unfold run.
    destruct (joinable s) eqn:Hj; [by destruct (i_started _ Hi Hj) | by apply start_thread_inv].
  - case_decide as Ho; [|done]. injection E as <-. by apply begin_stop_inv.
  - case_decide as Ho; [|done]. injection E as <-. by apply begin_stop_inv.
  - by apply owner_step_inv in E.
  - by apply writer_step_inv in E.
  - case_decide; [|done]. injection E as <-. by apply wake_inv.
  - injection E as <-. by apply wake_inv.
Qed.

(** * Stopping *)

(** How many steps the two have left at most once the stop is requested. *)
Definition writer_left (w : writer) : nat :=
  match w with
  | Polls => 11 | Locks => 10 | Holds1 => 9 | Waits => 8 | Wakes => 7 | Holds2 | CountsDown => 6 | TestsStop => 5
  | LastForce => 4 | LastPoll => 3 | LastFlush => 2 | NotRunning | Ended => 0
  end.
Definition owner_left (o : owner) : nat :=
  match o with WaitsLatch | StopLocks => 4 | StopHolds => 3 | StopNotifies => 2 | StopJoins => 1 | Outside | Gone => 0 end.
Definition left_ s : nat := writer_left (writer_ s) + owner_left (owner_ s).
Definition own_step (a : thread_action) : bool := match a with OwnerStep | WriterStep | Timeout => true | _ => false end.
Definition own_steps (ls : list thread_action) : nat := length (filter (fun a => own_step a = true) ls).
(** No further call of the owner. *)
Definition no_call (a : thread_action) : Prop := own_step a = true \/ a = NotifyOne.

Lemma wake_left s : (left_ (wake s) <= left_ s)%nat.
Proof. unfold wake. case_decide as Hw; [|done]. unfold left_. cbn. rewrite Hw. cbn. lia. Qed.
Lemma step_left s a s' : thread_inv s -> stop_requested_ s = true -> no_call a -> thread_step s a s' ->
  stop_requested_ s' = true /\ (left_ s' + (if own_step a then 1 else 0) <= left_ s)%nat.
Proof.
  unfold thread_step, steps_of. intros Hi Hs Hn E.
  pose proof (wake_frame s) as (_ & _ & Hw). rewrite Hs in Hw.
  destruct a; try (by destruct Hn as [Hn|Hn]); cbn [thread_act own_step] in *.
  - unfold owner_step in E. unfold left_. destruct (owner_ s) eqn:Ho; try done.
    + case_decide; [|done]. injection E as <-. cbn. split; [done | lia].
    + destruct (mutex_ s); [done|]. injection E as <-. cbn. split; [done | lia].
    + injection E as <-. cbn. split; [done | lia].
    + injection E as <-. split; [done|]. pose proof (wake_left s) as Hl. unfold left_ in Hl. rewrite Ho in Hl.
      destruct (wake_frame s) as (Ho' & _). rewrite Ho in Ho'. rewrite Ho' in Hl. cbn in *. lia.
    + destruct (_ && _); [done|]. injection E as <-. pose proof (i_then _ Hi) as Ht. unfold end_stop.
      destruct (then_ s); [|done|]; cbn; split; try done; lia.
  - unfold writer_step in E. unfold left_. destruct (writer_ s) eqn:Hws; try done; rewrite ?Hs in E.
    1: destruct (count_down_latch_ s); [done|].
    3-4, 6, 9: destruct (mutex_ s); [done|].
    all: injection E as <-; cbn; split; [done | lia].
  - case_decide as Hws; [|done]. injection E as <-. split; [done|]. unfold wake, left_. rewrite decide_True by done. cbn. rewrite Hws. cbn. lia.
  - injection E as <-. split; [done|]. pose proof (wake_left s). lia.
Qed.
Lemma steps_left s ls s' : thread_inv s -> stop_requested_ s = true -> Forall no_call ls -> star once_step s ls s' ->
  stop_requested_ s' = true /\ thread_inv s' /\ (left_ s' + own_steps ls <= left_ s)%nat.
Proof.
  intros Hi Hs Hn Hst. induction Hst as [|s1 ls s2 a s3 _ IH Hstep]; [split_and!; [done..|]; unfold own_steps; cbn; lia|].
  apply Forall_app in Hn as [Hn Ha]. rewrite Forall_singleton in Ha. destruct (IH Hi Hs Hn) as (H1 & H2 & H3).
  destruct (step_left _ _ _ H2 H1 Ha (proj1 (once_thread _ _ _ Hstep))) as [H4 H5]. split_and!; [done | by eapply thread_step_inv |].
  unfold own_steps in *. rewrite filter_app, length_app. cbn. destruct (own_step a) eqn:Ea.
  - rewrite decide_True by done. cbn. lia.
  - rewrite decide_False by done. cbn. lia.
Qed.

(** Whoever is inside a member can go on, or the writer can. *)
Lemma never_stuck s : thread_inv s -> owner_ s <> Outside -> owner_ s <> Gone ->
  exists a, own_step a = true /\ is_Some (thread_act a s).
Proof.
  intros Hi H1 H2. pose proof (i_mutex _ Hi) as Hm. pose proof (i_latch _ Hi) as Hla. pose proof (i_counts _ Hi) as Hc.
  pose proof (i_latched _ Hi) as Hlj. pose proof (i_started _ Hi) as Hst. pose proof (i_running _ Hi) as Hrun.
  assert (Hfree : owner_ s <> StopHolds -> holds_mutex (writer_ s) = false -> mutex_ s = false)
    by (intros Ho Hh; by rewrite Hm, Hh, bool_decide_eq_false_2).
  assert (Hwr : owner_ s <> StopHolds -> writer_ s <> Ended -> writer_ s <> NotRunning -> (writer_ s = CountsDown -> owner_ s = WaitsLatch) ->
    exists a, own_step a = true /\ is_Some (thread_act a s)).
  { intros Ho Hne Hnn _. destruct (decide (writer_ s = Waits)) as [Hw|Hw].
    - exists Timeout. split; [done|]. cbn. rewrite decide_True by done. by eexists.
    - exists WriterStep. split; [done|]. cbn [thread_act]. unfold writer_step.
      destruct (writer_ s) eqn:Ew; try done; try (by eexists); rewrite ?Hla; try (by eexists); rewrite Hfree by done; by eexists. }
  destruct (owner_ s) eqn:Ho; try done.
  - destruct (decide (count_down_latch_ s = 0%nat)) as [Hz|Hz].
    + exists OwnerStep. split; [done|]. cbn [thread_act]. unfold owner_step. rewrite Ho, decide_True by done. by eexists.
    + apply Hwr; try done; intros Ew; rewrite Ew in Hla; [done|]. by apply Hst; [apply Hlj|].
  - destruct (mutex_ s) eqn:Em.
    + apply Hwr; try done; intros Ew; rewrite Ew in Hm; done.
    + exists OwnerStep. split; [done|]. cbn [thread_act]. unfold owner_step. rewrite Ho, Em. by eexists.
  - exists OwnerStep. split; [done|]. cbn [thread_act]. unfold owner_step. rewrite Ho. by eexists.
  - exists OwnerStep. split; [done|]. cbn [thread_act]. unfold owner_step. rewrite Ho. by eexists.
  - destruct (joinable s && negb (bool_decide (writer_ s = Ended))) eqn:Ej.
    + apply andb_prop in Ej as [Hj Hne]. apply negb_true_iff, bool_decide_eq_false in Hne. apply Hwr; try done. by apply Hst.
    + exists OwnerStep. split; [done|]. cbn [thread_act]. unfold owner_step. rewrite Ho, Ej. by eexists.
Qed.

(** A stop comes back to its caller only from the join. *)
Lemma stop_returns s a s' : in_stop (owner_ s) = true -> once_step s a s' -> owner_ s' = Outside -> joinable s' = false.
Proof.
  intros Ho [E _]%once_thread Ho'. unfold thread_step, steps_of in E. destruct (wake_frame s) as (Hw & _).
  destruct a; cbn [thread_act] in E.
  1-3: case_decide as Hd; [by rewrite Hd in Ho | done].
  - unfold owner_step in E. destruct (owner_ s); try done.
    + by destruct (mutex_ s); simplify_eq.
    + by simplify_eq.
    + by simplify_eq.
    + destruct (_ && _); [done|]. injection E as <-. unfold end_stop in *. by destruct (then_ s).
  - unfold writer_step in E. assert (Hs : owner_ s' = owner_ s) by (repeat case_match; simplify_eq; done). by rewrite <- Hs, Ho' in Ho.
  - case_decide; [|done]. injection E as <-. by rewrite <- Hw, Ho' in Ho.
  - injection E as <-. by rewrite <- Hw, Ho' in Ho.
Qed.

(** [C33] [stop()] ends, and with everything written.  In every interleaving of
    the owner, the writer's thread, log calls and timeouts, when [run] is
    called once at most:
    - the latch is never taken below zero;
    - whenever the owner is inside [run], [stop] or the destructor, the owner
      or the writer can take a step, and from the start of a [stop] they take
      15 steps at most, timeouts included, until it returns;
    - when [stop] has returned and the thread ran, the writer has made its
      turns of [poll] and wait, and after them a forced [poll] that began
      after the stop was requested, and the flush. *)
Theorem stop_finishes ls0 s : star once_step new_logger ls0 s ->
  (writer_ s = CountsDown -> count_down_latch_ s = 1%nat) /\
  (owner_ s <> Outside -> owner_ s <> Gone -> exists a, own_step a = true /\ is_Some (thread_act a s)) /\
  (in_stop (owner_ s) = true -> forall ls s', Forall no_call ls -> star once_step s ls s' -> (own_steps ls <= 15)%nat) /\
  (forall a s', in_stop (owner_ s) = true -> once_step s a s' -> owner_ s' = Outside \/ owner_ s' = Gone -> joinable s' = false) /\
  (joinable s = false -> exists work, works s = work ++ (if decide (owner_ s = Gone) then [Flush] else []) /\
     (writer_ s = NotRunning \/ exists bs, work = turns_work bs ++ [ForceAtEnd; Poll true; Flush])).
Proof.
  intros Hs. assert (Hi : thread_inv s) by (revert Hs; apply (star_inv _ thread_inv); [apply new_logger_inv | apply thread_step_inv]).
  split_and!.
  - intros Hw. by rewrite (i_latch _ Hi), Hw.
  - by apply never_stuck.
  - intros Ho ls s' Hn Hst. destruct (steps_left s ls s' Hi) as (_ & _ & H); [apply (i_stop _ Hi); by rewrite Ho, orb_true_r | done..|].
    unfold left_ in H. assert (writer_left (writer_ s) <= 11)%nat by (destruct (writer_ s); cbn; lia).
    assert (owner_left (owner_ s) <= 4)%nat by (destruct (owner_ s); cbn; lia). lia.
  - intros a s' Ho E [Ho'|Ho']; [by eapply stop_returns | by apply (i_gone _ (thread_step_inv _ _ _ Hi E))].
  - intros Hj. destruct (i_works _ Hi) as (bs & l & E & Hl). exists (turns_work bs ++ l). rewrite E, <- app_assoc. split; [done|].
    destruct (i_running _ Hi Hj) as [Hw|Hw]; [by left|]. right. exists bs. rewrite Hw in Hl. cbn in Hl. by rewrite Hl.
Qed.

(** One turn, then a stop that wakes the writer. *)
Definition one_turn : list thread_action :=
  [Run; WriterStep; OwnerStep; WriterStep; WriterStep; WriterStep; WriterStep; Stop; OwnerStep; OwnerStep; OwnerStep;
   WriterStep; WriterStep; WriterStep; WriterStep; WriterStep; WriterStep; OwnerStep].
Lemma stop_finishes_witness : exists s, star once_step new_logger one_turn s /\ joinable s = false /\
  works s = [Poll false; Force; ForceAtEnd; Poll true; Flush].
Proof.
  eassert (Hs : star once_step new_logger one_turn _) by (apply run_acts_star; vm_compute; reflexivity).
  eexists. split; [exact Hs|]. destruct (stop_finishes _ _ Hs) as (_ & _ & _ & _ & H). destruct (H eq_refl) as (work & Ew & _).
  split; reflexivity.
Defined.

(** A stop that is requested while the writer is between its test and its
    wait is not noticed: the notification finds nobody waiting, and only the
    timeout of the wait (or a log call) goes on. *)
Theorem stop_may_wait_for_the_timeout : exists ls s, star once_step new_logger ls s /\ owner_ s = StopJoins /\ writer_ s = Waits /\
  thread_act OwnerStep s = None /\ thread_act WriterStep s = None.
Proof.
  exists [Run; WriterStep; OwnerStep; WriterStep; WriterStep; Stop; OwnerStep; OwnerStep; OwnerStep; WriterStep; WriterStep].
  eexists. split; [apply run_acts_star; vm_compute; reflexivity|]. by split_and!.
Qed.
(** A logger cannot be started again: the second thread takes the latch, which
    is down, below zero. *)
Theorem second_run_breaks_the_latch : exists ls s, star thread_step new_logger ls s /\ writer_ s = CountsDown /\ count_down_latch_ s = 0%nat /\
  thread_act WriterStep s = None.
Proof.
  exists (one_turn ++ [Run]). eexists. split; [apply run_acts_star; vm_compute; reflexivity|]. by split_and!.
Qed.

(** * What the turns write *)

(** The work of the writer on the logger of [Logger], [scheds] being what
    arrives during each [poll]. *)
Fixpoint do_works (ws : list work) (scheds : list (list arrivals)) (s : async_logger) : outcome unit * async_logger :=
  match ws, scheds with
  | [], _ => (Val tt, s)
  | Poll _ :: ws', sched :: scheds' => match poll (fun _ => stop_requested s) sched s with (Val _, s') => do_works ws' scheds' s' | r => r end
  | Poll _ :: _, [] => (Val tt, s)
  | Force :: ws', _ => do_works ws' scheds (set_force_flush s)
  | ForceAtEnd :: ws', _ => do_works ws' scheds (set_force_flush (request_stop s))
  | Flush :: ws', _ => do_works ws' scheds (flush_output s)
  end.
(** It is [logging_loop], when no turn but the last overlaps the stop. *)
Theorem works_are_logging_loop turns last : forall s : async_logger,
  do_works (turns_work (replicate (length turns) false) ++ [ForceAtEnd; Poll true; Flush]) (turns ++ [last]) s = logging_loop turns last s.
Proof.
  induction turns as [|t turns IH]; intros s; cbn.
  - by destruct (poll _ last _) as [[[]| |] s'].
  - destruct (poll _ t s) as [[[]| |] s']; [|done..]. apply IH.
Qed.
