(* ===== verification/LoggerRun.v ===== *)
(** The whole logger: the thread of [LoggerThread] doing the work of [Logger],
    while other threads log ([async_logger.hpp],
    [source/logging/async_logger.cpp]).  What a [poll] does is one step, with
    the entries that arrive meanwhile and the moment it sees a stop.  The
    writes of other threads to [signal_] and [force_flush_] during a [poll],
    races in the code, count as before or after it. *)
From S2P Require Import Prelude Events Logger LoggerThread.

#[global] Instance entry_ok_dec e : Decision (entry_ok e).
Proof. unfold entry_ok, time_ok. apply _. Defined.
#[global] Instance thread_action_eq_dec : EqDecision thread_action.
Proof. solve_decision. Defined.

(** [logged] are the entries of all log calls, in order; [before_stop] those
    of the calls before the first [stop] (or the destructor) began. *)
Record logger_run : Type := mk_run { thr : thread_state; lg : async_logger; logged : list log_entry; before_stop : option (list log_entry) }.
Implicit Types (s : logger_run) (l : async_logger).
Definition start_run l : logger_run := mk_run new_logger l [] None.

Definition mark_stop l : async_logger :=
  mk_logger (the_clock l) (writing_buffer_ l) (signal_ l) (force_flush_ l) true (log_rings_ l) (output l) (flushed l).
Definition in_poll (w : writer) : bool := match w with Polls | LastPoll => true | _ => false end.
(** What a step other than [poll] does to the log. *)
Definition effect (a : thread_action) (t : thread_state) l : async_logger :=
  match a with
  | Stop | Destroy => mark_stop l
  | OwnerStep =>
    match owner_ t, then_ t with
    | StopHolds, _ => set_force_flush l
    | StopJoins, Destroys => flush_output l
    | _, _ => l
    end
  | WriterStep =>
    match writer_ t with Holds2 | LastForce => set_force_flush l | LastFlush => flush_output l | _ => l end
  | _ => l
  end.
Definition note_stop (a : thread_action) s : option (list log_entry) :=
  match a, before_stop s with (Stop | Destroy), None => Some (logged s) | _, b => b end.

(** [LogCall]: [append] on a thread that has a ring; [NewRing]: its first part
    on a thread that has none.  A time stamp is a time of the clock. *)
Inductive run_action : Type :=
| LogCall (ring : nat) (e : log_entry) | NewRing
| WriterPolls (sees : nat -> bool) (sched : list arrivals)
| Other (a : thread_action).
Definition run_act (a : run_action) s : option logger_run :=
  match a with
  | LogCall ring e =>
    if decide ((ring < length (log_rings_ (lg s)))%nat /\ entry_ok e)
    then Some (mk_run (wake (thr s)) (append ring e (lg s)) (logged s ++ [e]) (before_stop s)) else None
  | NewRing => if mutex_ (thr s) then None else Some (mk_run (thr s) (register_ring (lg s)) (logged s) (before_stop s))
  | WriterPolls sees sched =>
    if decide (in_poll (writer_ (thr s)) = true /\ Forall entry_ok (all_news (length (log_rings_ (lg s))) sched)) then
      t ← once_act WriterStep (thr s);
      let stops n := stop_requested_ (thr s) && (bool_decide (writer_ (thr s) = LastPoll) || sees n) in
      match poll stops sched (lg s) with
      | (Val _, l) => Some (mk_run t l (logged s ++ all_news (length (log_rings_ (lg s))) sched) (before_stop s))
      | _ => None
      end
    else None
  | Other a =>
    if in_poll (writer_ (thr s)) && bool_decide (a = WriterStep) then None
    else t ← once_act a (thr s); Some (mk_run t (effect a (thr s) (lg s)) (logged s) (note_stop a s))
  end.
Definition run_step : logger_run -> run_action -> logger_run -> Prop := steps_of run_act.

(** * Facts *)

(** The entries of thread [P] all go to ring [i]. *)
Definition keeps_to (P : log_entry -> Prop) `{!forall e, Decision (P e)} (i : nat) (a : run_action) : Prop :=
  match a with LogCall ring e => P e -> ring = i | WriterPolls _ sched => Forall (only_new P i) sched | _ => True end.

Lemma filter_all_news P `{!forall e, Decision (P e)} i n sched : Forall (only_new P i) sched ->
  filter P (all_news n sched) = if decide (i < n)%nat then filter P (ring_news i sched) else [].
Proof.
  assert (Hn : forall new, only_new P i new -> filter P (concat (new <$> seq 0 n)) = if decide (i < n)%nat then filter P (new i) else []).
  { intros new Hn. rewrite (filter_concat_only P _ i).
    - unfold of_thread. rewrite list_lookup_fmap. case_decide as Hi; [by rewrite lookup_seq_lt by done|].
      by rewrite lookup_seq_ge by lia.
    - intros j r Hj Hne. rewrite list_lookup_fmap in Hj. destruct (seq 0 n !! j) as [m|] eqn:E; [|done].
      apply lookup_seq in E as [-> _]. injection Hj as <-. by apply Hn. }
  induction sched as [|new sched IH]; intros Hs; [cbn; by case_decide|]. apply Forall_cons in Hs as [H1 H2].
  unfold all_news, ring_news in *. cbn. rewrite !filter_app, Hn, IH by done. by case_decide.
Qed.

(** Order through a [poll], also for a thread without a ring. *)
Lemma accounts_thread sched bs l l' P `{!forall e, Decision (P e)} i : accounts sched bs l l' -> only P i (log_rings_ l) ->
  Forall (only_new P i) sched ->
  filter P bs ++ of_thread P i (log_rings_ l') = of_thread P i (log_rings_ l) ++ filter P (all_news (length (log_rings_ l)) sched) /\
  only P i (log_rings_ l').
Proof.
  intros (_ & Hp & Hl & Ht) Ho Hs. rewrite (filter_all_news P i) by done. case_decide as Hi; [by apply Ht|].
  assert (Hnone : forall rs : list (list log_entry), length rs = length (log_rings_ l) -> of_thread P i rs = [])
    by (intros rs Hrs; unfold of_thread; by rewrite lookup_ge_None_2 by lia).
  assert (Hf : filter P (bs ++ concat (log_rings_ l')) = []).
  { apply Permutation_nil. rewrite Hp, filter_app, (filter_concat_only P _ i), Hnone, (filter_all_news P i) by done. by rewrite decide_False. }
  rewrite filter_app in Hf. apply app_eq_nil in Hf as [Hf1 Hf2]. rewrite Hf1, !Hnone by done. split; [done|].
  intros j r Hj _. destruct (filter P r) as [|e r'] eqn:E; [done|]. exfalso.
  assert (He : e ∈ filter P (concat (log_rings_ l'))).
  { assert (Hr : e ∈ filter P r) by (rewrite E; by left). apply list_elem_of_filter in Hr as [HP Hr]. apply list_elem_of_filter. split; [done|].
    apply list_elem_of_In, in_concat. exists r. split; [apply list_elem_of_In, list_elem_of_lookup; by exists j | by apply list_elem_of_In]. }
  rewrite Hf2 in He. by apply not_elem_of_nil in He.
Qed.

(** What is written, what is in the rings and what was logged. *)
Record holds_log (l0 : async_logger) (ls : list run_action) s (bs : list log_entry) : Prop := {
  h_out : output (lg s) ++ writing_buffer_ (lg s) = output l0 ++ writing_buffer_ l0 ++ concat (render <$> bs);
  h_all : bs ++ concat (log_rings_ (lg s)) ≡ₚ concat (log_rings_ l0) ++ logged s;
  h_clock : clock_inv (the_clock (lg s));
  h_ok : Forall entry_ok (concat (log_rings_ (lg s)));
  h_stop : stop_requested_ (thr s) = true -> is_Some (before_stop s);
  h_before : forall b, before_stop s = Some b -> b `prefix_of` logged s;
  h_force : writer_ (thr s) = LastPoll -> force_flush_ (lg s) = true;
  h_last : writer_ (thr s) = LastFlush \/ writer_ (thr s) = Ended ->
    writing_buffer_ (lg s) = [] /\ forall b, before_stop s = Some b -> concat (log_rings_ l0) ++ b ⊆+ bs;
  h_flushed : writer_ (thr s) = Ended -> flushed (lg s) = length (output (lg s));
  h_order : forall P (HP : forall e, Decision (P e)) i, only P i (log_rings_ l0) -> Forall (keeps_to P i) ls ->
    filter P bs ++ of_thread P i (log_rings_ (lg s)) = of_thread P i (log_rings_ l0) ++ filter P (logged s) /\ only P i (log_rings_ (lg s)) }.

(** Steps that write nothing. *)
Lemma holds_log_frame l0 ls s a s' bs : holds_log l0 ls s bs ->
  output (lg s') = output (lg s) -> writing_buffer_ (lg s') = writing_buffer_ (lg s) -> the_clock (lg s') = the_clock (lg s) ->
  concat (log_rings_ (lg s')) ++ logged s ≡ₚ concat (log_rings_ (lg s)) ++ logged s' -> Forall entry_ok (concat (log_rings_ (lg s'))) ->
  (stop_requested_ (thr s') = true -> is_Some (before_stop s')) ->
  logged s `prefix_of` logged s' -> (before_stop s' = before_stop s \/ (before_stop s = None /\ before_stop s' = Some (logged s') /\ stop_requested_ (thr s) = false)) ->
  (writer_ (thr s') = LastPoll -> force_flush_ (lg s') = true) ->
  (writer_ (thr s') = LastFlush \/ writer_ (thr s') = Ended -> (writer_ (thr s) = LastFlush \/ writer_ (thr s) = Ended) /\ stop_requested_ (thr s) = true) ->
  (writer_ (thr s') = Ended -> flushed (lg s') = length (output (lg s'))) ->
  (forall P (HP : forall e, Decision (P e)) i, keeps_to P i a -> only P i (log_rings_ (lg s)) ->
    (forall bs, filter P bs ++ of_thread P i (log_rings_ (lg s)) = of_thread P i (log_rings_ l0) ++ filter P (logged s) ->
      filter P bs ++ of_thread P i (log_rings_ (lg s')) = of_thread P i (log_rings_ l0) ++ filter P (logged s')) /\ only P i (log_rings_ (lg s'))) ->
  holds_log l0 (ls ++ [a]) s' bs.
Proof.
  intros [H1 H2 H3 H4 H0 H5 H6 H7 H8 H9] Eo Ew Ec Hr Hok Hst Hlg Hb Hf Hl Hfl Hord. split; try done.
  - by rewrite Eo, Ew.
  - apply (Permutation_app_inv_r (logged s)). rewrite <- app_assoc, Hr, app_assoc, H2. solve_Permutation.
  - by rewrite Ec.
  - intros b Eb. destruct Hb as [Hb|(_ & Hb & _)]; [rewrite Hb in Eb; etrans; [by apply H5 | done] | by simplify_eq].
  - intros Hw. destruct (Hl Hw) as [Hw' Hs]. destruct (H7 Hw') as [E1 E2]. rewrite Ew. split; [done|]. intros b Eb.
    destruct Hb as [Hb|(_ & _ & Hb)]; [apply E2; by rewrite <- Hb | congruence].
  - intros P HP i Ho Hk. apply Forall_app in Hk as [Hk Ha]. rewrite Forall_singleton in Ha. destruct (H9 P HP i Ho Hk) as [E1 E2].
    destruct (Hord P HP i Ha E2) as [E3 E4]. split; [by apply E3 | done].
Qed.

Lemma append_concat l ring e : (ring < length (log_rings_ l))%nat -> concat (log_rings_ (append ring e l)) ≡ₚ concat (log_rings_ l) ++ [e].
Proof.
  cbn. intros [r Hr]%lookup_lt_is_Some_2. revert ring Hr. induction (log_rings_ l) as [|r0 rs IH]; intros [|ring] Hr; cbn in *; [done|done|..].
  - solve_Permutation.
  - unfold alter in IH. rewrite (IH ring Hr). by rewrite app_assoc.
Qed.
Lemma append_order l ring e P `{!forall e, Decision (P e)} i : (ring < length (log_rings_ l))%nat -> (P e -> ring = i) -> only P i (log_rings_ l) ->
  of_thread P i (log_rings_ (append ring e l)) = of_thread P i (log_rings_ l) ++ filter P [e] /\ only P i (log_rings_ (append ring e l)).
Proof.
  intros Hlt Hk Ho. unfold of_thread, append. cbn [log_rings_]. split.
  - destruct (decide (ring = i)) as [->|Hne].
    + rewrite list_lookup_alter_eq. apply lookup_lt_is_Some_2 in Hlt as [r ->]. cbn. by rewrite filter_app.
    + rewrite list_lookup_alter_ne by done. rewrite filter_cons_False by (intros HP; by apply Hne, Hk). by rewrite app_nil_r.
  - intros j r Hj Hne. destruct (decide (ring = j)) as [->|Hn]; [rewrite list_lookup_alter_eq in Hj | rewrite list_lookup_alter_ne in Hj by done; by eapply Ho].
    apply fmap_Some in Hj as (r0 & Hr0 & ->). rewrite filter_app, (Ho _ _ Hr0 Hne). cbn.
    rewrite decide_False; [done|]. intros HP. by apply Hne, Hk.
Qed.
Lemma register_order l P `{!forall e, Decision (P e)} i : only P i (log_rings_ l) ->
  of_thread P i (log_rings_ (register_ring l)) = of_thread P i (log_rings_ l) /\ only P i (log_rings_ (register_ring l)).
Proof.
  intros Ho. unfold of_thread, register_ring. cbn [log_rings_]. split.
  - destruct (decide (i < length (log_rings_ l))%nat) as [Hi|Hi]; [by rewrite lookup_app_l|].
    rewrite lookup_app_r, (lookup_ge_None_2 (log_rings_ l)) by lia. by destruct (_ - _)%nat as [|[]].
  - intros j r [Hj|[_ Hj]]%lookup_app_Some Hne; [by eapply Ho|]. by apply list_lookup_singleton_Some in Hj as [_ <-].
Qed.

(** How a step of the thread moves the writer and the stop flag. *)
Definition is_stop (a : thread_action) : bool := match a with Stop | Destroy => true | _ => false end.
Lemma step_moves t a t' : thread_inv t -> once_step t a t' ->
  (a = WriterStep \/ writer_ t' = writer_ t \/ writer_ t' = Wakes \/ writer_ t' = CountsDown) /\
  (is_stop a = false -> stop_requested_ t' = stop_requested_ t).
Proof.
  intros Hi [E Hr]%once_thread. unfold thread_step, steps_of in E.
  assert (Hw : writer_ (wake t) = writer_ t \/ writer_ (wake t) = Wakes) by (unfold wake; case_decide; auto).
  destruct (wake_frame t) as (_ & _ & Hs). destruct a; cbn [thread_act is_stop] in *.
  - case_decide; [|done]. injection E as <-. unfold run. destruct (joinable t) eqn:Hj; [by destruct (i_started _ Hi Hj); apply Hr|]. cbn. tauto.
  - case_decide; [|done]. injection E as <-. split; [cbn; tauto | done].
  - case_decide; [|done]. injection E as <-. split; [cbn; tauto | done].
  - unfold owner_step, end_stop in E. repeat case_match; simplify_eq; cbn in *; tauto.
  - split; [by left|]. intros _. unfold writer_step in E. repeat case_match; by simplify_eq.
  - case_decide; [|done]. injection E as <-. tauto.
  - injection E as <-. tauto.
Qed.

Lemma log_call_holds l0 ls s ring e s' bs : thread_inv (thr s) -> holds_log l0 ls s bs -> run_act (LogCall ring e) s = Some s' ->
  holds_log l0 (ls ++ [LogCall ring e]) s' bs.
Proof.
  intros Hi Hh E. cbn [run_act] in E. case_decide as Hd; [|done]. destruct Hd as [Hlt He]. injection E as <-.
  destruct (step_moves (thr s) NotifyOne (wake (thr s)) Hi eq_refl) as [Hm Hs]. specialize (Hs eq_refl).
  assert (Hw : forall w, w <> Wakes -> w <> CountsDown -> writer_ (wake (thr s)) = w -> writer_ (thr s) = w)
    by (intros w Hn1 Hn2 Ew; destruct Hm as [?|[?|[?|?]]]; congruence).
  apply (holds_log_frame _ _ _ _ _ _ Hh); try done; cbn [thr lg logged before_stop].
  - rewrite append_concat by done. solve_Permutation.
  - rewrite append_concat by done. apply Forall_app. split; [apply (h_ok _ _ _ _ Hh) | by apply Forall_singleton].
  - rewrite Hs. apply (h_stop _ _ _ _ Hh).
  - by apply prefix_app_r.
  - by left.
  - intros Ew. apply (h_force _ _ _ _ Hh). by apply Hw.
  - intros Ew. assert (Ew' : writer_ (thr s) = LastFlush \/ writer_ (thr s) = Ended) by (destruct Ew; [left | right]; by apply Hw).
    split; [done|]. apply (i_stop _ Hi). by destruct Ew' as [-> | ->].
  - intros Ew. apply (h_flushed _ _ _ _ Hh). by apply Hw.
  - intros P HP i Hk Ho. destruct (append_order (lg s) ring e P i Hlt Hk Ho) as [E1 E2]. split; [|exact E2].
    intros bs' Eb. rewrite E1, app_assoc, Eb, filter_app, <- app_assoc. done.
Qed.
Lemma new_ring_holds l0 ls s s' bs : thread_inv (thr s) -> holds_log l0 ls s bs -> run_act NewRing s = Some s' -> holds_log l0 (ls ++ [NewRing]) s' bs.
Proof.
  intros Hi Hh E. cbn [run_act] in E. destruct (mutex_ (thr s)); [done|]. injection E as <-.
  apply (holds_log_frame _ _ _ _ _ _ Hh); try done; cbn.
  - rewrite concat_app. cbn. by rewrite app_nil_r.
  - rewrite concat_app. cbn. rewrite app_nil_r. apply (h_ok _ _ _ _ Hh).
  - apply (h_stop _ _ _ _ Hh).
  - by left.
  - apply (h_force _ _ _ _ Hh).
  - intros Ew. split; [done|]. apply (i_stop _ Hi). by destruct Ew as [-> | ->].
  - apply (h_flushed _ _ _ _ Hh).
  - intros P HP i _ Ho. destruct (register_order (lg s) P i Ho) as [E1 E2]. split; [|exact E2]. intros bs' Eb. cbn in E1. by rewrite E1.
Qed.

(** A [poll] succeeds, and what it collects is added. *)
Lemma poll_step_ok l0 ls s sees sched bs : thread_inv (thr s) -> holds_log l0 ls s bs -> in_poll (writer_ (thr s)) = true ->
  mutex_ (thr s) = false -> Forall entry_ok (all_news (length (log_rings_ (lg s))) sched) ->
  exists s' bs', run_act (WriterPolls sees sched) s = Some s' /\ holds_log l0 (ls ++ [WriterPolls sees sched]) s' (bs ++ bs') /\
    once_step (thr s) WriterStep (thr s').
Proof.
  intros Hi [H1 H2 H3 H4 H0 H5 H6 H7 H8 H9] Hw Hm Hn. unfold run_act. rewrite decide_True by done.
  assert (Ht : exists t, once_act WriterStep (thr s) = Some t /\ stop_requested_ t = stop_requested_ (thr s) /\
    (writer_ (thr s) = Polls /\ writer_ t = Locks \/ writer_ (thr s) = LastPoll /\ writer_ t = LastFlush)).
  { cbn [once_act thread_act]. unfold writer_step. rewrite Hm. destruct (writer_ (thr s)); try done; (eexists; split; [reflexivity|]; cbn; tauto). }
  destruct Ht as (t & Et & Es & Hwt). rewrite Et. cbn [mbind option_bind].
  destruct (poll_ok (fun n => stop_requested_ (thr s) && (bool_decide (writer_ (thr s) = LastPoll) || sees n)) sched (lg s) H3 H4 Hn) as (bs' & l & Ep & Ha & Hc & Hr & Hf & _ & Hsub). rewrite Ep.
  eexists _, bs'. split; [reflexivity|]. split; [|exact Et].
  pose proof Ha as (Ho & Hp & Hl & _). split; cbn.
  - rewrite Ho, app_assoc, H1, fmap_app, concat_app, <- !app_assoc. done.
  - rewrite <- app_assoc, Hp, (app_assoc bs), H2. by rewrite app_assoc.
  - done.
  - done.
  - rewrite Es. exact H0.
  - intros b Eb. etrans; [by apply H5 | by apply prefix_app_r].
  - intros Ew. destruct Hwt as [[_ Hwt]|[_ Hwt]]; congruence.
  - intros Ew. destruct Hwt as [[_ Hwt]|[Hwt _]]; [rewrite Hwt in Ew; by destruct Ew|]. split; [by apply Hf, H6|].
    intros b Eb. destruct (H5 b Eb) as [k Ek]. trans (bs ++ concat (log_rings_ (lg s))).
    + rewrite H2, Ek. apply submseteq_skips_l. by apply submseteq_inserts_r.
    + by apply submseteq_skips_l.
  - intros Ew. destruct Hwt as [[_ Hwt]|[_ Hwt]]; congruence.
  - intros P HP i Hon Hk. apply Forall_app in Hk as [Hk Hk1]. rewrite Forall_singleton in Hk1. destruct (H9 P HP i Hon Hk) as [E1 E2].
    destruct (accounts_thread _ _ _ _ P i Ha E2 Hk1) as [E3 E4]. split; [|exact E4].
    by rewrite !filter_app, <- app_assoc, E3, app_assoc, E1, <- app_assoc.
Qed.

Lemma effect_frame a t l : log_rings_ (effect a t l) = log_rings_ l /\ output (effect a t l) = output l /\
  writing_buffer_ (effect a t l) = writing_buffer_ l /\ the_clock (effect a t l) = the_clock l /\
  (force_flush_ l = true -> force_flush_ (effect a t l) = true) /\
  (flushed (effect a t l) = flushed l \/ flushed (effect a t l) = length (output l)).
Proof. unfold effect. repeat case_match; cbn; by split_and!; auto. Qed.

Lemma other_holds l0 ls s a s' bs : thread_inv (thr s) -> holds_log l0 ls s bs -> run_act (Other a) s = Some s' ->
  holds_log l0 (ls ++ [Other a]) s' bs /\ once_step (thr s) a (thr s').
Proof.
  intros Hi Hh E. cbn [run_act] in E. destruct (_ && _) eqn:Ep; [done|]. destruct (once_act a (thr s)) as [t|] eqn:Et; [|done].
  injection E as <-. split; [|exact Et]. destruct (step_moves _ _ _ Hi Et) as [Hm Hs].
  destruct (effect_frame a (thr s) (lg s)) as (Fr & Fo & Fw & Fc & Ff & Ffl).
  assert (Hst : is_stop a = true -> note_stop a s = before_stop s \/ (before_stop s = None /\ note_stop a s = Some (logged s)))
    by (destruct a; try done; intros _; cbn; destruct (before_stop s); auto).
  assert (Hns : is_stop a = false -> note_stop a s = before_stop s) by (destruct a; try done; intros _; cbn; by destruct (before_stop s)).
  (* the writer's own steps outside poll *)
  assert (Hown : a = WriterStep -> in_poll (writer_ (thr s)) = false).
  { intros ->. rewrite bool_decide_eq_true_2, andb_true_r in Ep by done. done. }
  assert (Hmove : forall w, stopping_writer w = true -> writer_ t = w -> writer_ (thr s) = w \/
    (a = WriterStep /\ (w = LastForce \/ (w = LastPoll /\ writer_ (thr s) = LastForce) \/ (w = Ended /\ writer_ (thr s) = LastFlush)))).
  { intros w Hsw Ew. destruct Hm as [->|[Hm|[Hm|Hm]]]; [|left; congruence | rewrite Hm in Ew; by subst | rewrite Hm in Ew; by subst].
    specialize (Hown eq_refl). cbn [once_act thread_act] in Et. unfold writer_step in Et.
    destruct (writer_ (thr s)) eqn:Ews; try done; repeat case_match; simplify_eq; cbn in *; try done; tauto. }
  apply (holds_log_frame _ _ _ _ _ _ Hh); cbn [thr lg logged before_stop]; rewrite ?Fr, ?Fo, ?Fw, ?Fc; try done.
  - apply (h_ok _ _ _ _ Hh).
  - intros E. destruct (is_stop a) eqn:Ea; [destruct a; try done; cbn; by destruct (before_stop s)|].
    rewrite Hns by done. apply (h_stop _ _ _ _ Hh). by rewrite <- Hs.
  - destruct (is_stop a) eqn:Ea; [|left; by apply Hns]. destruct (Hst eq_refl) as [?|[Hb ?]]; [by left|]. right. split_and!; [done..|].
    destruct (stop_requested_ (thr s)) eqn:E; [|done]. destruct (h_stop _ _ _ _ Hh E) as [b Eb]. congruence.
  - intros Ew. destruct (Hmove LastPoll eq_refl Ew) as [Hw|(-> & [?|[[_ Hw]|[? _]]])]; [apply Ff; by apply (h_force _ _ _ _ Hh) | done | | done].
    unfold effect. by rewrite Hw.
  - intros Ew. assert (Hw : writer_ (thr s) = LastFlush \/ writer_ (thr s) = Ended).
    { destruct Ew as [Ew|Ew].
      - destruct (Hmove LastFlush eq_refl Ew) as [Hw|(_ & [?|[[? _]|[? _]]])]; [by left | done..].
      - destruct (Hmove Ended eq_refl Ew) as [Hw|(_ & [?|[[? _]|[_ Hw]]])]; [by right | done | done | by left]. }
    split; [done|]. apply (i_stop _ Hi). by destruct Hw as [-> | ->].
  - intros Ew. destruct (Hmove Ended eq_refl Ew) as [Hw|(-> & [?|[[? _]|[_ Hw]]])]; [|done|done|].
    + destruct Ffl as [->| ->]; [by apply (h_flushed _ _ _ _ Hh) | done].
    + unfold effect. by rewrite Hw.
Qed.

Lemma run_step_inv l0 ls s a s' : thread_inv (thr s) -> (exists bs, holds_log l0 ls s bs) -> (exists ts, star once_step new_logger ts (thr s)) ->
  run_step s a s' ->
  thread_inv (thr s') /\ (exists bs, holds_log l0 (ls ++ [a]) s' bs) /\ exists ts, star once_step new_logger ts (thr s').
Proof.
  unfold run_step, steps_of. intros Hi [bs Hh] [ts Hts] E.
  assert (Hstep : forall b, once_step (thr s) b (thr s') -> thread_inv (thr s') /\ exists ts, star once_step new_logger ts (thr s')).
  { intros b Hb. split; [by eapply thread_step_inv|]. exists (ts ++ [b]). by eapply star_snoc. }
  destruct a as [ring e| |sees sched|a].
  - assert (Hb : once_step (thr s) NotifyOne (thr s')) by (cbn in E; case_decide; [by injection E as <- | done]).
    destruct (Hstep _ Hb) as [A1 A2]. split_and!; [done | exists bs; exact (log_call_holds _ _ _ _ _ _ _ Hi Hh E) | exact A2].
  - pose proof (new_ring_holds _ _ _ _ _ Hi Hh E) as H1. cbn [run_act] in E. destruct (mutex_ (thr s)); [done|]. injection E as <-. eauto.
  - pose proof E as E'. unfold run_act in E'. case_decide as Hd; [|done]. destruct Hd as [Hw Hn].
    assert (Hm : mutex_ (thr s) = false).
    { destruct (mutex_ (thr s)) eqn:Em; [|done]. cbn [once_act thread_act] in E'. unfold writer_step in E'. rewrite Em in E'. by destruct (writer_ (thr s)). }
    destruct (poll_step_ok l0 ls s sees sched bs Hi Hh Hw Hm Hn) as (s1 & bs' & E1 & A1 & A2). rewrite E in E1. injection E1 as <-.
    destruct (Hstep _ A2) as [B1 B2]. eauto.
  - destruct (other_holds _ _ _ _ _ _ Hi Hh E) as [A1 A2]. destruct (Hstep _ A2) as [B1 B2]. eauto.
Qed.
Lemma start_run_holds l0 : clock_inv (the_clock l0) -> Forall entry_ok (concat (log_rings_ l0)) -> holds_log l0 [] (start_run l0) [].
Proof.
  intros Hc He. split; try done; cbn; try by rewrite ?app_nil_r.
  - by intros [?|?].
  - intros P HP i Ho _. by rewrite app_nil_r.
Qed.
Lemma run_reachable l0 ls s : clock_inv (the_clock l0) -> Forall entry_ok (concat (log_rings_ l0)) -> star run_step (start_run l0) ls s ->
  thread_inv (thr s) /\ (exists bs, holds_log l0 ls s bs) /\ exists ts, star once_step new_logger ts (thr s).
Proof.
  intros Hc He Hs. remember (start_run l0) as s0 eqn:E0. induction Hs as [|s0 ls s1 a s2 _ IH Hstep]; subst.
  - split_and!; [apply new_logger_inv | exists []; by apply start_run_holds | exists []; constructor].
  - destruct (IH eq_refl) as (A1 & A2 & A3). by eapply run_step_inv.
Qed.

(** [C11] What is logged before [stop()] is in the file when it returns.  For
    any number of threads that log at any time, also while the writer polls,
    with [run] called once: the thread moves as [LoggerThread] says, so that a
    [stop] ends, and a [poll] never fails.  When the thread has run and was
    joined, everything in the buffer was handed to the file and flushed; it is
    what was there before and the text of each entry written, every one of
    them exactly once, all that were in the rings at the start or logged
    before the first [stop] or the destructor among them; the others are still
    in the rings; and the entries of one thread are in the order it logged
    them. *)
Theorem logged_before_stop_is_in_the_file l0 ls s : clock_inv (the_clock l0) -> Forall entry_ok (concat (log_rings_ l0)) ->
  star run_step (start_run l0) ls s ->
  (exists ts, star once_step new_logger ts (thr s)) /\
  (in_poll (writer_ (thr s)) = true -> mutex_ (thr s) = false ->
   forall sees sched, Forall entry_ok (all_news (length (log_rings_ (lg s))) sched) -> is_Some (run_act (WriterPolls sees sched) s)) /\
  (joinable (thr s) = false -> writer_ (thr s) <> NotRunning -> exists bs,
    output (lg s) = output l0 ++ writing_buffer_ l0 ++ concat (render <$> bs) /\ writing_buffer_ (lg s) = [] /\
    flushed (lg s) = length (output (lg s)) /\
    bs ++ concat (log_rings_ (lg s)) ≡ₚ concat (log_rings_ l0) ++ logged s /\
    (exists b, before_stop s = Some b /\ b `prefix_of` logged s /\ concat (log_rings_ l0) ++ b ⊆+ bs) /\
    forall P (HP : forall e, Decision (P e)) i, only P i (log_rings_ l0) -> Forall (keeps_to P i) ls ->
      filter P bs ++ of_thread P i (log_rings_ (lg s)) = of_thread P i (log_rings_ l0) ++ filter P (logged s)).
Proof.
  intros Hc He Hs. destruct (run_reachable l0 ls s Hc He Hs) as (Hi & [bs Hh] & Ht). split_and!; [done | |].
  - intros Hw Hm sees sched Hn. destruct (poll_step_ok l0 ls s sees sched bs Hi Hh Hw Hm Hn) as (s' & _ & E & _). by exists s'.
  - intros Hj Hne. destruct (i_running _ Hi Hj) as [?|Hw]; [done|]. destruct (h_last _ _ _ _ Hh (or_intror Hw)) as [Ew Hb].
    exists bs. pose proof (h_out _ _ _ _ Hh) as Ho. rewrite Ew, app_nil_r in Ho. split_and!; [done | done | by apply (h_flushed _ _ _ _ Hh) | apply (h_all _ _ _ _ Hh) | |].
    + destruct (h_stop _ _ _ _ Hh) as [b Eb]; [apply (i_stop _ Hi); by rewrite Hw|]. exists b.
      split_and!; [done | by apply (h_before _ _ _ _ Hh) | by apply Hb].
    + intros P HP i Hon Hk. by apply (h_order _ _ _ _ Hh P HP i Hon Hk).
Qed.

(** One thread logs before the writer's turn and again during the stop. *)
Definition a_log_run : list run_action :=
  [Other Run; NewRing; LogCall 0 first_log; Other WriterStep; Other OwnerStep; Other WriterStep; WriterPolls (fun _ => false) [];
   LogCall 0 second_log; Other Stop; Other OwnerStep; Other OwnerStep; Other OwnerStep; Other WriterStep; Other WriterStep; Other Timeout;
   Other WriterStep; Other WriterStep; Other WriterStep; Other WriterStep; WriterPolls (fun _ => true) []; Other WriterStep; Other OwnerStep].
Definition empty_logger : async_logger := mk_logger (the_clock started) [] false false false [] [] 0.
#[local] Notation after_log_run := (run_acts run_act a_log_run (start_run empty_logger)).
Lemma after_log_run_summary : (fun s => (joinable (thr s), writer_ (thr s), log_rings_ (lg s), logged s, before_stop s)) <$> after_log_run =
  Some (false, Ended, [[]], [first_log; second_log], Some [first_log; second_log]).
Proof. vm_compute. reflexivity. Qed.
Lemma a_log_run_keeps : Forall (keeps_to (fun _ => True) 0) a_log_run.
Proof. repeat constructor. Qed.
Lemma empty_logger_ok : clock_inv (the_clock empty_logger) /\ Forall entry_ok (concat (log_rings_ empty_logger)) /\
  forall P (HP : forall e, Decision (P e)), only P 0 (log_rings_ empty_logger).
Proof.
  destruct (init_ok 0 (mk_clock 0 []) ltac:(done)) as (c & Ec & Hc & _). split_and!; [|constructor | intros P HP j r Hj; by destruct j].
  cbn [empty_logger the_clock started]. by rewrite Ec.
Qed.
Lemma logged_before_stop_is_in_the_file_witness : exists s bs, after_log_run = Some s /\ output (lg s) = concat (render <$> bs) /\
  bs = [first_log; second_log] /\ flushed (lg s) = length (output (lg s)) /\ before_stop s = Some [first_log; second_log].
Proof.
  pose proof after_log_run_summary as V. destruct empty_logger_ok as (Hc & He & Ho).
  destruct after_log_run as [s|] eqn:E; [|done]. injection V as Vj Vw Vr Vl Vb. apply run_acts_star in E.
  assert (Hn : writer_ (thr s) <> NotRunning) by (rewrite Vw; discriminate).
  destruct (logged_before_stop_is_in_the_file empty_logger a_log_run s Hc He E) as (_ & _ & H). destruct (H Vj Hn) as (bs & Hout & _ & Hf & _ & _ & Hord).
  specialize (Hord (fun _ => True) _ 0%nat (Ho _ _) a_log_run_keeps). rewrite Vr, Vl, !filter_all in Hord by done.
  exists s, bs. split; [done|]. split; [exact Hout|]. split; [|split; [exact Hf | exact Vb]].
  change (bs ++ [] = [first_log; second_log]) in Hord. by rewrite app_nil_r in Hord.
Defined.
