(* ===== verification/LoopTasks.v ===== *)
(** Nested tasks on the event loop: the coroutines of [Runtime] are the frames
    of [Task].  A task that [io_context] executes awaits other tasks, by
    symmetric transfer, and those await operations of the ring
    ([task.hpp], [async_scope.hpp] [spawn], [io_context.hpp],
    [detail/io/io_awaitable.hpp]). *)
From S2P Require Import Prelude Events Task Control IoUring IoContext Runtime.

(** What a coroutine body does with its [io_context]. *)
Inductive loop_call : Type := Fires (k : IoUring.call) | Schedules (n : nat) | Stops.
Definition the_ring : outside := mk_outside loop_call (request * Z) io_token.

Section LoopTasks.
Context {R : Type} `{!Liburing R} {V B : Type} `{!Code V the_ring B}.
#[local] Abbreviation config := (config V the_ring (with_library V B)).
#[local] Abbreviation program := (program V (with_library V B)).

(** A task, as its body, and the named tasks that it or they await: their
    bodies by handle.  Nothing of a lazy task runs before it is awaited. *)
Record user_task : Type := mk_user { bodies : gmap handle B; main_task : B }.
Definition new_task (b : with_library V B) : frame V the_ring (with_library V B) := mk_frame lazy_task (Initial b) empty None.
(** [async_scope::spawn], which [execute] calls: a [oneway_task] that awaits
    the task, which it was given as an argument and destroys when it ends. *)
Definition spawn_body (b : B) : with_library V B := Wraps b.
Definition spawn_handle (u : user_task) : handle := fresh (dom (bodies u)).
Definition spawn (u : user_task) : config :=
  start_root false (spawn_handle u) (spawn_body (main_task u)) (new_task <$> (User <$> bodies u)).

(** The user's coroutine functions, by number, and how many steps the model
    follows a coroutine that does not wait. *)
Context (users : nat -> user_task) (fuel : nat).

(** A resumed coroutine, as [Runtime] sees it: the frames advance to the next
    pause.  ([Failed] ends the process and [Still] never gives control back;
    the theorem excludes both.  Of the two cases of [complete] only the first
    occurs, by [advance_is_the_machine].) *)
Definition to_command (x : loop_call) : command config :=
  match x with Fires k => FireOp k | Schedules n => ScheduleTask (spawn (users n)) | Stops => StopLoop end.
Definition to_suspending (p : pause V the_ring (with_library V B)) : suspending config :=
  match p with
  | Control.Waits fs h q => Runtime.Awaits q.1 q.2 (fun t => match complete fs h t with Some r => r.2 | None => (fs, Returned) end)
  | Over _ | Failed | Still _ => Runtime.Finished
  end.
Definition frames_body (c : config) : list (command config) * suspending config :=
  let r := advance fuel c in (to_command <$> r.1, to_suspending r.2).

(** ** What the user wrote, without coroutines *)

Definition program_of (u : user_task) : program := mk_program (spawn_body (main_task u)) (Unstarted <$> (User <$> bodies u)) [].
(** The requests of a program that got the answers [ts], and where it is. *)
Inductive asked : program -> list io_token -> list (request * Z) -> program -> Prop :=
| asked_nothing p : asked p [] [] p
| asked_more p xs q go_on t ts reqs p' : comes_to (E := the_ring) false p xs (Asks q go_on) -> asked (go_on t) ts reqs p' ->
    asked p (t :: ts) (q :: reqs) p'.
Definition pending (s : Control.stop V the_ring (with_library V B)) : list (request * Z) := match s with Asks q _ => [q] | _ => [] end.
(** Whatever it is answered, within the fuel the program asks or ends. *)
Definition pauses (s : Control.stop V the_ring (with_library V B)) : Prop := match s with Ends _ | Asks _ _ => True | _ => False end.
Definition well_behaved (p : program) : Prop := forall ts reqs p', asked p ts reqs p' -> pauses (until (E := the_ring) false fuel p').2.
Lemma well_behaved_answer p xs q go_on t : well_behaved p -> comes_to (E := the_ring) false p xs (Asks q go_on) -> well_behaved (go_on t).
Proof. intros Hw Hc ts reqs p' Ha. apply (Hw (t :: ts) (q :: reqs)). by econstructor. Qed.

Lemma new_tasks_agree (bs : gmap handle (with_library V B)) : agrees (Unstarted <$> bs) (new_task <$> bs).
Proof.
  intros h m. rewrite !lookup_fmap. destruct (bs !! h) as [b|]; [|done]. intros [= <-]. eexists. split; [reflexivity | done].
Qed.
Lemma spawn_does u : does false (spawn_handle u) (spawn u) (program_of u).
Proof.
  apply start_does; [apply new_tasks_agree|]. rewrite !lookup_fmap.
  assert (E0 : bodies u !! spawn_handle u = None) by (apply (not_elem_of_dom (D := gset handle)), (is_fresh (dom (bodies u)))). by rewrite E0.
Qed.

(** The frames of a coroutine against its program. *)
Lemma frames_ask root c p : does false root c p -> well_behaved p -> exists xs s, comes_to false p xs s /\
  match s with
  | Asks q go_on => exists k, (frames_body c).2 = Runtime.Awaits q.1 q.2 k /\ forall t, does false root (k t) (go_on t) /\ well_behaved (go_on t)
  | Ends st => (frames_body c).2 = Runtime.Finished /\ exists fs, (advance fuel c).2 = Over fs /\ agrees st fs /\ fs !! root = None
  | _ => False
  end.
Proof.
  intros Hd Hw. pose proof (Hw [] [] p (asked_nothing p)) as Hp. destruct (advance_does false root fuel c p Hd) as [H|[H1 H2]]; [by rewrite H in Hp|].
  destruct (until false fuel p) as [xs s] eqn:Eu. cbn [fst snd] in *.
  assert (Hc : comes_to false p xs s) by (exists fuel; split; [done | by destruct s]). exists xs, s. split; [done|].
  unfold frames_body. destruct s as [st|q g| |p']; try done; cbn [pauses_like] in H2.
  - destruct H2 as (fs & E1 & Ha & Hr). cbn [snd]. rewrite E1. split; [done|]. by exists fs.
  - destruct H2 as (fs & h & E1 & Hg). cbn [snd]. rewrite E1. eexists. split; [reflexivity|]. intros t. destruct (Hg t) as (c' & E2 & Hd'). rewrite E2.
    split; [done | by eapply well_behaved_answer].
Qed.
Lemma frames_direct root ts : forall c p reqs now, does false root c p -> well_behaved p -> direct frames_body c ts = Some (reqs, now) ->
  exists p', asked p ts reqs p' /\ does false root now p' /\ well_behaved p'.
Proof.
  induction ts as [|t ts IH]; intros c p reqs now Hd Hs E; cbn [direct] in E; [injection E as <- <-; exists p; split_and!; [constructor | done..]|].
  destruct (frames_ask root c p Hd Hs) as (xs & s & Hc & H1). destruct ((frames_body c).2) as [|q f k] eqn:Ef; [done|].
  destruct s as [st|q' g| |p']; [by destruct H1 | | done..]. destruct H1 as (k' & [= Eq Ek ->] & Hk). destruct (Hk t) as [Hd' Hs'].
  destruct (direct frames_body (k' t) ts) as [[reqs' now']|] eqn:E'; [|done]. injection E as <- <-.
  destruct (IH _ _ _ _ Hd' Hs' E') as (p' & A0 & A1 & A2). exists p'. split_and!; [|done..]. subst. destruct q'. by econstructor.
Qed.
Lemma schedules_users c t : ScheduleTask t ∈ (frames_body c).1 -> exists n, t = spawn (users n).
Proof. intros (x & Hx & _)%list_elem_of_fmap. destruct x as [k|n|]; try done. exists n. by injection Hx. Qed.
(** Outside events that schedule the user's coroutines. *)
Definition from_users (x : event (Co := config)) : Prop := match x with Outside t => exists n, t = spawn (users n) | _ => True end.
End LoopTasks.
Arguments user_task B : clear implicits.

Section LoopTasksFacts.
Context {R : Type} `{Laws : LiburingLaws R, !LiburingProgress R} {V B : Type} `{!Code V the_ring B} (users : nat -> user_task B) (fuel : nat).
Context (new_token : gset Z -> Z) (me thread : nat).
Hypothesis new_token_fresh : forall X, (new_token X ∉ X) /\ dispatched (new_token X) = true.

(** [C2] Nested tasks on the event loop run like functions that block.  Take
    any tasks, given by code that may loop for ever, that await each other,
    call the io_context and await operations of the ring.  They are to be
    well behaved: whatever they are answered, none throws out of a task that
    was spawned, awaits itself or a task there is not, or runs more than
    [fuel] steps, any number chosen beforehand, without waiting.  Take any
    kernel that answers in any order and makes room in the queue after
    finitely many submissions, and any messages from other threads.  In every
    reachable state every coroutine that was spawned for a task has made, in
    submission queue entries of its own and in order, exactly the requests
    that the program makes in which each [co_await] of a task is a call,
    given the answers so far, and is waiting for exactly the operation that
    program asks for next; each answer is what the kernel said about that
    very entry; when the answer it waits for is there, the loop has still to
    handle it; and when the program is over the coroutine's frame is gone and
    each named task it awaited is done and holds its result.  The loop, once
    started, never fails, and it can be started unless the timer service of
    an earlier [run()] still waits for its event, which is not so before the
    first. *)
Theorem nested_tasks_run_like_blocking_calls u tl c0 es s : entries u = [] -> fresh_context me tl c0 ->
  (forall n, well_behaved fuel (program_of (users n))) -> Forall (from_users users) es ->
  star (runtime_step (frames_body users fuel) new_token me thread) (runtime_start u c0) es s ->
  executed (the_loop s) = started <$> coroutines s /\ executed (the_loop s) ++ todo_list_ (the_loop s) = scheduled (the_loop s) /\
  (forall id c, coroutines s !! id = Some c -> exists n reqs p xs stop, started c = spawn (users n) /\
     asked (program_of (users n)) (received c) reqs p /\ comes_to false p xs stop /\
     Forall2 (asks s) (slots_of c) (reqs ++ pending stop) /\
     (forall j t, received c !! j = Some t -> exists m, slots_of c !! j = Some m /\ answered s m t) /\
     (forall m t, pending stop <> [] -> last (slots_of c) = Some m -> answered s m t ->
        exists h, (IoUring.handled (io s) <= h)%nat /\ finished_order s !! h = Some m) /\
     match stop with
     | Ends st => exists now fs, direct (frames_body users fuel) (started c) (received c) = Some (reqs, now) /\
        (advance fuel now).2 = Over fs /\ agrees st fs /\ fs !! spawn_handle (users n) = None
     | Asks _ _ => True
     | _ => False
     end) /\
  NoDup (concat (slots_of <$> coroutines s)) /\ next_move (frames_body users fuel) new_token me thread s /\
  (RunLoop ∉ es -> at_ s = Idle /\ event_of (the_timing (the_loop s)) <> HasWaiter).
Proof.
  intros Hu Hc Hwb Hes Hs. destruct (runtime_reachable (frames_body users fuel) new_token me thread new_token_fresh u c0 tl es s Hu Hc Hs) as [Hi Hp].
  split_and!; [apply (r_executed _ _ _ _ _ Hi) | apply (in_order _ _ _ (r_loop _ _ _ _ _ Hi)) | | apply (r_slots _ _ _ _ _ Hi) | by apply next_move_ok |
    intros Hn; by eapply not_started_yet].
  intros id c Hid. destruct (started_only (frames_body users fuel) new_token me thread new_token_fresh (fun t => exists n, t = spawn (users n)) (schedules_users users fuel)
    u tl c0 es s Hu Hc Hes Hs id c Hid) as [n Hst]. destruct (parked_where _ _ s id c Hi Hid) as (reqs & now & Hd & Ha & Hr & Hl). rewrite Hst in *.
  destruct (frames_direct users fuel _ _ _ _ _ _ (spawn_does (users n)) (Hwb n) Hd) as (p & E1 & Hdo & Hsf).
  destruct (frames_ask users fuel _ _ _ Hdo Hsf) as (xs & stop & Hct & Hf). exists n, reqs, p, xs, stop.
  assert (Hw : waiting_for (frames_body users fuel) now = pending stop).
  { unfold waiting_for, pending. destruct stop as [st|[q f] g| |p']; [by destruct Hf as [-> _] | by destruct Hf as (k & -> & _) | done..]. }
  rewrite Hw in Ha. split_and!; [done | done | done | done | done | |].
  - intros m t Hn. apply Hl. destruct stop as [st|q g| |p']; try done. by destruct Hf as (k & -> & _).
  - destruct stop as [st|q g| |p']; try done. destruct Hf as (_ & fs & Hf). by exists now, fs.
Qed.
End LoopTasksFacts.

(** Programs are well behaved when they keep to a set of positions from which
    they pause and to which the answers lead. *)
Lemma positions_well_behaved {V B} `{!Code V the_ring B} fuel (P : program V (with_library V B) -> Prop) :
  (forall p, P p -> match (until (E := the_ring) false fuel p).2 with Ends _ => True | Asks _ go_on => forall t, P (go_on t) | _ => False end) ->
  forall p, P p -> well_behaved fuel p.
Proof.
  intros HP p Hp ts reqs p' Ha. enough (Hp' : P p') by (specialize (HP p' Hp'); by destruct (until false fuel p').2).
  induction Ha as [p|p xs q go_on t ts reqs p' Hc _ IH]; [done|]. apply IH. specialize (HP p Hp).
  destruct (until false fuel p) as [ys s] eqn:Eu. cbn [snd] in HP.
  assert (Hs : comes_to false p ys s) by (exists fuel; split; [done | by destruct s]).
  destruct (comes_to_unique _ _ _ _ _ _ Hs Hc) as [_ ->]. apply HP.
Qed.

(** [asked] and [comes_to], computed. *)
Fixpoint ask {V B} `{!Code V the_ring B} (fuel : nat) (p : program V (with_library V B)) (ts : list io_token) :
    option (list (request * Z) * Control.stop V the_ring (with_library V B)) :=
  match ts, (until (E := the_ring) false fuel p).2 with
  | [], s => Some ([], s)
  | t :: ts, Asks q go_on => r ← ask fuel (go_on t) ts; Some (q :: r.1, r.2)
  | _, _ => None
  end.
Lemma ask_asked {V B} `{!Code V the_ring B} fuel ts : forall (p : program V (with_library V B)) reqs p' xs s reqs' s',
  asked p ts reqs p' -> comes_to false p' xs s -> ask fuel p ts = Some (reqs', s') -> match s' with StillRuns _ => False | _ => True end ->
  reqs = reqs' /\ s = s'.
Proof.
  induction ts as [|t ts IH]; intros p reqs p' xs s reqs' s' Ha Hc E Hs; cbn [ask] in E; inversion Ha as [|? ys q g ? ? reqs1 ? Hq Ha']; subst.
  - injection E as <- E. split; [done|]. destruct (until false fuel p') as [zs u] eqn:Eu. cbn in E. subst u.
    by destruct (comes_to_unique false p' xs s zs s' Hc (ex_intro _ fuel (conj Eu Hs))).
  - destruct (until false fuel p) as [zs u] eqn:Eu. cbn [snd] in E. destruct u as [|q' g'| |]; try done.
    destruct (comes_to_unique false p ys _ zs _ Hq (ex_intro _ fuel (conj Eu I))) as [_ [= -> ->]].
    destruct (ask fuel (g' t) ts) as [[r1 r2]|] eqn:E1; [|done]. injection E as <- <-.
    destruct (IH _ _ _ _ _ _ _ Ha' Hc E1 Hs) as [-> ->]. done.
Qed.

(** * A server in tasks *)

(** The tasks: [Receives] throws at the end of the connection; [Echoes] awaits
    the named task 1, starts user 1 and sends back what was received, in a task
    made for that; [Serves] does this for ever, with new tasks; [Stopper] stops
    the loop after one operation. *)
Inductive server_code : Type :=
| Receives (fd : Z) | HasData (t : io_token)
| Sends (fd n : Z) | HasSent (t : io_token)
| Echoes (fd : Z) | Received (fd : Z) (r : Z + exn) | SendsBack (fd n : Z) | SentBack (n : Z) (r : Z + exn)
| Serves (fd : Z) | Serving (fd : Z) (r : Z + exn)
| Stopper | Stopping | Stopped.
#[export] Instance server_instr : Code Z the_ring server_code := fun b =>
  match b with
  | Receives fd => CoSuspend (E := the_ring) (Recv fd 4096 64 0, 0) HasData
  | HasData t => if result t <=? 0 then CoThrow eof_error else CoReturn (result t)
  | Sends fd n => CoSuspend (E := the_ring) (Send fd 4096 n 0, 0) HasSent
  | HasSent t => CoReturn (result t)
  | Echoes fd => CoAwait (Some 1%nat) (Received fd)
  | Received fd (inl n) => CoCall (E := the_ring) (Schedules 1%nat) (SendsBack fd n)
  | Received fd (inr _) => CoReturn 0
  | SendsBack fd n => CoAwaitNew (Sends fd n) (SentBack n)
  | SentBack n (inl m) => CoReturn (n + m)
  | SentBack n (inr _) => CoReturn n
  | Serves fd => CoAwaitNew (Receives fd) (Serving fd)
  | Serving fd (inl n) => CoAwaitNew (Sends fd n) (fun _ => Serves fd)
  | Serving fd (inr _) => CoReturn 0
  | Stopper => CoSuspend (E := the_ring) (Nop, 0) (fun _ : io_token => Stopping)
  | Stopping => CoCall (E := the_ring) Stops Stopped
  | Stopped => CoReturn 0
  end.
Definition three_users (n : nat) : user_task server_code :=
  match n with
  | O => mk_user {[ 1%nat := Receives 5 ]} (Echoes 5)
  | S O => mk_user ∅ Stopper
  | _ => mk_user ∅ (Serves 6)
  end.
(** Where they can be after an answer. *)
#[local] Notation bottom := (mk_call None Gives).
Inductive position : program Z (with_library Z server_code) -> Prop :=
| at_start n : position (program_of (three_users n))
| at_data t st : position (mk_program (User (HasData t)) st [mk_call (Some 1%nat) (fun r => User (Received 5 r)); bottom])
| at_sent t n st : position (mk_program (User (HasSent t)) st [mk_call None (fun r => User (SentBack n r)); bottom])
| at_serve_data t fd st : position (mk_program (User (HasData t)) st [mk_call None (fun r => User (Serving fd r)); bottom])
| at_serve_sent t fd st : position (mk_program (User (HasSent t)) st [mk_call None (fun _ => User (Serves fd)); bottom])
| at_stopping st : position (mk_program (User Stopping) st [bottom]).
Lemma three_users_well_behaved n : well_behaved 20 (program_of (three_users n)).
Proof.
  apply (positions_well_behaved 20 position); [|constructor].
  intros p [[|[|m]]|[[|r|r] f] st|t k st|[[|r|r] f] fd st|t fd st|st]; vm_compute; try exact I; intros; constructor.
Qed.
Definition tasks_run : list (event (Co := config Z the_ring (with_library Z server_code))) :=
  [Outside (spawn (three_users 0)); Outside (spawn (three_users 2)); RunLoop; KernelCompletes 0 (mk_token 20 0); WaitReturns; HandleNext;
   KernelCompletes 1 (mk_token 30 0); HandleNext; EndRound; KernelCompletes 2 (mk_token 20 0); WaitReturns; HandleNext].
Definition tasks_loop : context (T := config Z the_ring (with_library Z server_code)) := mk_context [] true 0 0 false false 0 None ∅ [] [] [] (O, O) no_timing.
#[local] Notation after_tasks_run := (run_acts (runtime_act (R := model_ring) (frames_body three_users 20) next_address 9 1) tasks_run
  (runtime_start (mk_ctx empty_ring 0) tasks_loop)).
Lemma after_tasks_run_summary : (fun s => ((fun c : coroutine (config Z the_ring (with_library Z server_code)) => (snd (A := frames Z the_ring (with_library Z server_code)) (started c), received c, slots_of c)) <$> coroutines s, at_ s)) <$> after_tasks_run =
  Some ([(Task.Run 2%nat (Wraps (Echoes 5)), [mk_token 20 0; mk_token 20 0], [0; 2]%nat); (Task.Run 0%nat (Wraps (Serves 6)), [mk_token 30 0], [1; 3]%nat);
    (Task.Run 0%nat (Wraps Stopper), [], [4]%nat)], Handles).
Proof. vm_compute. reflexivity. Qed.
Lemma echo_asks : (fun r => (r.1, match r.2 with Ends st => st !! 1%nat | _ => None end)) <$>
  ask 20 (program_of (three_users 0)) [mk_token 20 0; mk_token 20 0] =
  Some ([(Recv 5 4096 64 0, 0); (Send 5 4096 20 0, 0)], Some (Task.Finished (inl 20))).
Proof. vm_compute. reflexivity. Qed.
Lemma tasks_loop_fresh : fresh_context (T := config Z the_ring (with_library Z server_code)) 9 ∅ tasks_loop.
Proof. split; [reflexivity | intros t; by rewrite lookup_empty]. Qed.
Lemma tasks_run_from_users : Forall (from_users three_users) tasks_run.
Proof. repeat constructor; [by exists 0%nat | by exists 2%nat]. Qed.

Lemma nested_tasks_run_like_blocking_calls_witness : exists s c (fs : frames Z the_ring (with_library Z server_code)) f, after_tasks_run = Some s /\
  coroutines s !! 0%nat = Some c /\
  Forall2 (asks s) (slots_of c) [(Recv 5 4096 64 0, 0); (Send 5 4096 20 0, 0)] /\ slots_of c = [0; 2]%nat /\
  fs !! 1%nat = Some f /\ stands f = Done /\ promise_result f = Some (inl 20).
Proof.
  assert (Hu : entries (mk_ctx empty_ring 0) = []) by reflexivity. pose proof after_tasks_run_summary as V. destruct after_tasks_run as [s|] eqn:E; [|discriminate V]. cbn [fmap option_fmap option_map] in V.
  injection V as Vc Va. apply run_acts_star in E.
  apply (f_equal (fun l => l !! 0%nat)) in Vc. rewrite list_lookup_fmap in Vc.
  destruct (coroutines s !! 0%nat) as [c|] eqn:Ec; [|discriminate Vc]. injection Vc as Vst Vr Vs.
  destruct (nested_tasks_run_like_blocking_calls three_users 20 next_address 9 1 next_address_fresh (mk_ctx empty_ring 0) ∅ tasks_loop tasks_run s
    Hu tasks_loop_fresh three_users_well_behaved tasks_run_from_users E) as (_ & _ & H & _).
  destruct (H 0%nat c Ec) as (n & reqs & p & xs & stop & Hst & Hask & Hct & Ha & _ & _ & Hend). rewrite Vr in Hask.
  destruct n as [|[|n]]; [|rewrite Hst in Vst; unfold spawn, start_root, spawn_body in Vst; cbn [snd three_users main_task] in Vst; injection Vst as _ Vst; discriminate Vst..].
  pose proof echo_asks as W. destruct (ask 20 (program_of (three_users 0)) [mk_token 20 0; mk_token 20 0]) as [[reqs' stop']|] eqn:E1; [|discriminate W].
  injection W as -> W. destruct stop' as [st| | |]; try discriminate W. destruct (ask_asked 20 _ _ _ _ _ _ _ _ Hask Hct E1 I) as [-> ->].
  destruct Hend as (now & fs & _ & _ & Hag & _). destruct (Hag 1%nat _ W) as (f & Hf & _ & Hd & Hr).
  exists s, c, fs, f. rewrite app_nil_r in Ha. split_and!; [reflexivity | exact Ec | exact Ha | exact Vs | exact Hf | exact Hd | exact Hr].
Defined.
