(* ===== verification/ManualLifetime.v ===== *)
(** [detail/async/manual_lifetime.hpp]: storage for an object, a reference or
    nothing, constructed and destructed by hand.  The four templates share an
    interface and the contract that makes them interchangeable. *)
From S2P Require Import Prelude.

(** [A] is what [construct] is given, [R] what [operator*] returns. *)
Class ManualLifetime (S A R : Type) : Type := {
  new_storage : S;
  construct : A -> M S unit;
  destruct : M S unit;
  deref : M S R }.

(** * [manual_lifetime<T>] *)

Section Value.
Context {T : Type}.
(** The union: [m_value] is alive or not; the objects that were placed there
    and those that were destroyed. *)
Record storage : Type := mk_storage { m_value : option T; placed : nat; ended : nat }.
(** Placement new: the constructor of the [T] may throw; what is there already
    is overwritten. *)
Definition construct_value (a : T + exn) : M storage unit := fun s =>
  match a with
  | inl v => (Val tt, mk_storage (Some v) (S (placed s)) (ended s))
  | inr e => (Exn e, s)
  end.
Definition destruct_value : M storage unit := fun s =>
  match m_value s with Some _ => (Val tt, mk_storage None (placed s) (S (ended s))) | None => (Fault undefined_behaviour, s) end.
Definition deref_value : M storage T := fun s =>
  match m_value s with Some v => (Val v, s) | None => (Fault undefined_behaviour, s) end.
#[global] Instance value_lifetime : ManualLifetime storage (T + exn) T := {|
  new_storage := mk_storage None 0 0; construct := construct_value; destruct := destruct_value; deref := deref_value |}.
End Value.
Arguments storage T : clear implicits.

(** * [manual_lifetime<T &>], [manual_lifetime<T &&>] and [manual_lifetime<void>] *)

(** The pointer, [None] before it is set. *)
Definition pointer_storage : Type := option nat.
Definition construct_ref (address : nat) : M pointer_storage unit := modify (fun _ => Some address).
Definition destruct_ref : M pointer_storage unit := M_ret tt.
Definition deref_ref : M pointer_storage nat := fun s => match s with Some a => (Val a, s) | None => (Fault undefined_behaviour, s) end.
#[global] Instance ref_lifetime : ManualLifetime pointer_storage nat nat := {|
  new_storage := None; construct := construct_ref; destruct := destruct_ref; deref := deref_ref |}.
(** [T &&] stores the same pointer. *)
Definition construct_rref (address : nat) : M pointer_storage unit := modify (fun _ => Some address).
Definition deref_rref : M pointer_storage nat := fun s => match s with Some a => (Val a, s) | None => (Fault undefined_behaviour, s) end.
Definition rref_lifetime : ManualLifetime pointer_storage nat nat := {|
  new_storage := None; construct := construct_rref; destruct := M_ret tt; deref := deref_rref |}.
Definition construct_void (_ : unit) : M unit unit := M_ret tt.
#[global] Instance void_lifetime : ManualLifetime unit unit unit := {|
  new_storage := tt; construct := construct_void; destruct := M_ret tt; deref := M_ret tt |}.

(** * The contract *)

(** [out]: what is read for what was given to [construct], or the exception of
    its constructor.  [stores s o]: [s] holds what [o] constructed. *)
Class LifetimeLaws (S A R : Type) `{!ManualLifetime S A R} (out : A -> R + exn) : Type := {
  stores : S -> option A -> Prop;
  stores_new : stores new_storage None;
  construct_spec : forall s a, stores s None -> exists s', construct a s = (match out a with inl _ => Val tt | inr e => Exn e end, s') /\
    stores s' (match out a with inl _ => Some a | inr _ => None end);
  deref_spec : forall s a v, stores s (Some a) -> out a = inl v -> deref s = (Val v, s);
  destruct_spec : forall s a, stores s (Some a) -> exists s', destruct s = (Val tt, s') /\ stores s' None }.

#[global] Instance value_lifetime_laws {T} : LifetimeLaws (storage T) (T + exn) T id.
Proof.
  refine {| stores s o := m_value s = (match o with Some (inl v) => Some v | _ => None end) /\
    (match o with Some (inr _) => False | _ => True end) /\ placed s = (ended s + match m_value s with Some _ => 1 | None => 0 end)%nat |}.
  - done.
  - intros s [v|e] (H1 & _ & H2); cbn; (eexists; split; [reflexivity|]); cbn; split_and!; try done. rewrite H1 in H2. lia.
  - intros s a v (H1 & _) Ha. unfold id in Ha. subst a. cbn. unfold deref_value. by rewrite H1.
  - intros s [v|e] (H1 & Hno & H2); [|done]. cbn. unfold destruct_value. rewrite H1 in *. eexists. split; [reflexivity|]. cbn. split_and!; [done | done | lia].
Defined.
#[global] Instance ref_lifetime_laws : LifetimeLaws pointer_storage nat nat inl.
Proof.
  refine {| stores s o := match o with Some a => s = Some a | None => True end |}; [done | by intros s a _; eexists | | by intros s a ->; eexists].
  by intros s a v -> [= ->].
Defined.
Definition rref_lifetime_laws : @LifetimeLaws _ _ _ rref_lifetime inl.
Proof.
  refine {| stores s o := match o with Some a => s = Some a | None => True end |}; [done | by intros s a _; eexists | | by intros s a ->; eexists].
  by intros s a v -> [= ->].
Defined.
#[global] Instance void_lifetime_laws : LifetimeLaws unit unit unit inl.
Proof. refine {| stores _ _ := True |}; [done | by intros [] [] _; eexists | by intros [] [] [] _ _ | by intros [] [] _; eexists]. Defined.

(** * Using it *)

Section Using.
Context {S A R : Type} `{Laws : LifetimeLaws S A R out}.

Inductive use : Type := Construct (a : A) | Destruct | Deref.
(** What a use gives, [None] being nothing to see. *)
Definition run_use (x : use) : M S (option R) := fun s =>
  match x with
  | Construct a => match construct a s with (Val _, s') => (Val None, s') | (Exn e, s') => (Exn e, s') | (Fault f, s') => (Fault f, s') end
  | Destruct => match destruct s with (Val _, s') => (Val None, s') | (Exn e, s') => (Exn e, s') | (Fault f, s') => (Fault f, s') end
  | Deref => match deref s with (Val v, s') => (Val (Some v), s') | (Exn e, s') => (Exn e, s') | (Fault f, s') => (Fault f, s') end
  end.
Fixpoint run_uses (xs : list use) (s : S) : list (outcome (option R)) * S :=
  match xs with [] => ([], s) | x :: xs => let r := run_use x s in let rs := run_uses xs r.2 in (r.1 :: rs.1, rs.2) end.
(** What an [std::optional] in its place would give; [None]: a use that is not
    allowed, of nothing or over something. *)
Fixpoint expected (xs : list use) (o : option A) : option (list (outcome (option R)) * option A) :=
  match xs with
  | [] => Some ([], o)
  | x :: xs =>
    step ← match x, o with
      | Construct a, None => Some (match out a with inl _ => (Val None, Some a) | inr e => (Exn e, None) end)
      | Destruct, Some _ => Some (Val None, None)
      | Deref, Some a => match out a with inl v => Some (Val (Some v), o) | inr _ => None end
      | _, _ => None
      end;
    rest ← expected xs step.2; Some (step.1 :: rest.1, rest.2)
  end.

(** Whatever is stored, uses in the allowed order give what an optional would;
    a constructor that throws leaves nothing. *)
Theorem lifetimes_by_hand xs : forall s o outs o', stores s o -> expected xs o = Some (outs, o') ->
  (run_uses xs s).1 = outs /\ stores (run_uses xs s).2 o'.
Proof.
  induction xs as [|x xs IH]; intros s o outs o' Hs E; cbn in E; [by injection E as <- <-|].
  assert (H : forall r s1 o1, run_use x s = (r, s1) -> stores s1 o1 -> (rest ← expected xs o1; Some (r :: rest.1, rest.2)) = Some (outs, o') ->
    (run_uses (x :: xs) s).1 = outs /\ stores (run_uses (x :: xs) s).2 o').
  { intros r s1 o1 E1 Hs1 E2. destruct (expected xs o1) as [[outs1 o1']|] eqn:E3; [|done]. injection E2 as <- <-.
    destruct (IH s1 o1 outs1 o1' Hs1 E3) as [A1 A2]. cbn [run_uses]. rewrite E1. cbn. by rewrite A1. }
  destruct x as [a| |], o as [a0|]; try done; cbn [mbind option_bind fst snd] in E.
  - destruct (construct_spec s a Hs) as (s1 & E1 & Hs1).
    destruct (out a) as [v|e] eqn:Eo; (eapply H; [cbn; by rewrite E1 | exact Hs1 | exact E]).
  - destruct (destruct_spec s a0 Hs) as (s1 & E1 & Hs1). eapply H; [cbn; by rewrite E1 | exact Hs1 | exact E].
  - destruct (out a0) as [v|e] eqn:Eo; [|done]. eapply H; [cbn; by rewrite (deref_spec s a0 v Hs Eo) | exact Hs | exact E].
Qed.
End Using.

(** What is not checked: a second [construct] and the end of the storage leak
    the object; a destructed value is not to be read, a destructed reference
    still is. *)
Theorem lifetimes_misused {T} (v w : T) (a : nat) :
  (exists s, (run_uses [Construct (inl v); Construct (inl w); Destruct] (new_storage : storage T)).2 = s /\ (placed s = ended s + 1)%nat) /\
  (run_uses [Construct (inl v); Destruct; Deref] (new_storage : storage T)).1 = [Val None; Val None; Fault undefined_behaviour] /\
  (run_uses [Construct a; Destruct; Deref] (new_storage : pointer_storage)).1 = [Val None; Val None; Val (Some a)] /\
  (run_uses [Deref] (new_storage : pointer_storage)).1 = [Fault undefined_behaviour].
Proof. split_and!; [by eexists | done..]. Qed.
